(* ===== verification/_CoqProject ===== *)
-Q . S2P
Prelude.v
Str.v
Truncate.v
Utf8.v
Template.v
Float.v
Window.v
RetryPolicy.v
Breaker.v
BreakerSpec.v
BreakerThms.v
BreakerConc.v
BreakerEnv.v
Interjection.v
PromptQueue.v
CompactionItem.v
CompactionSelect.v
CompactionFit.v
CompactionHistory.v
CompactionSummary.v
CompactionSample.v
CompactionIntra.v
CompactionReminder.v
CompactionInter.v
Path.v
TextOffsets.v
ToolDisk.v
ApplyPatch.v
ApplyPatchThms.v
ApplyPatchParse.v
ApplyPatchRun.v
Confusables.v
GoalTracker.v
GoalTrackerThms.v
GoalTrackerTypes.v
GoalPanel.v
GoalPanelThms.v
GoalNextStep.v
GoalLoop.v
GoalLoopThms.v
GoalLoopBounds.v
GoalLoopSafety.v
GoalDirective.v
GoalDirectiveThms.v
ShellSplit.v
ShellPeel.v
PermissionPolicy.v
ExecRisk.v
ShellAccess.v
BashRoutine.v
BashEval.v
AccessTarget.v
SearchReplace.v
SearchReplaceThms.v
SearchReplaceRun.v
WorkflowJournal.v
WorkflowJournalThms.v
WorkflowEngine.v
WorkflowResume.v
WorkflowDemo.v
WorkflowReplay.v
WorkflowMeta.v
WorkflowTracker.v
WorkflowHost.v
PermissionManager.v
ShellThms.v
PermissionThms.v
PermissionPath.v
PermissionDemo.v
PermissionRules.v
ShellAccessThms.v
AccessTargetThms.v
BashEvalThms.v
PermissionManagerThms.v
PermissionSession.v
PermissionSessionDemo.v
SamplerError.v
SamplerRetry.v
SamplerTask.v
SamplerThms.v
