(* ===== verification/Prelude.v ===== *)
(** * The decision core of intellihelper-cli, verified

    The repository is an agent for the command line: a language model is asked,
    in rounds, to work on a conversation with tools.  Most of it is glue to
    terminals, networks, databases and editors.  This library models the parts
    that decide: they guard a failing backend, keep a conversation within its
    budget, carry a goal through its rounds and judge whether it is reached.

    ** Parts and how they interact

    - Circuit breaker (src/crates/common/circuit-breaker): every call to a
      backend asks [check] and reports to [record].
    - Interjections (src/crates/common/interjection-core) and the prompt queue
      (src/crates/codegen/intellihelper-prompt-queue): what the user types while
      the agent runs.
    - Compaction (src/crates/common/intellihelper-compaction): when a
      conversation grows past its budget, a prefix of it is replaced by a summary
      that the model writes.
    - Goals (src/crates/codegen/intellihelper-shell/src/session): the tracker
      keeps a goal's state; the loop runs its rounds and asks an evaluator after
      each; a claim of completion is put before a panel of skeptics; what the
      panel says goes back to the tracker.  The loop calls the panel and the
      tracker, the panel uses the tracker's scratch directory, and the rest of
      the session (commands, other tasks) changes the tracker wherever the loop
      awaits.
    - Sampler (src/crates/codegen/intellihelper-sampler and
      intellihelper-sampling-types): one request to the model, tried again while
      its budgets last.  Compaction and goals see only its answer, through the
      sampler interface of compaction and the environment of the goal loop.
    - Permissions (src/crates/codegen/intellihelper-workspace/src/permission):
      what a tool may do.  A shell script is split into commands, each is peeled
      of what wraps it, and a policy of rules judges them and the files they name.
      The manager of a session asks the policy, its modes, what the user granted,
      a classifier and the user, in this order.
    - Workflows (src/crates/codegen/workflow, and session/workflow of the shell):
      a script in Rhai calls agents and asks its host; every answer goes into a
      journal, from which a run that was broken off is resumed.  The host is a
      service of the shell: it starts the children, and keeps in a tracker what
      each run has used, how it stands and what the user was told.
    - The tools (src/crates/codegen/intellihelper-tools): what the model calls.
      Of them the two that edit files are modelled, from what the model writes to
      the files on disk, and the cuts that bound what a tool shows.

    ** Files

    Shared: [Prelude] (integers of Rust's widths, the state monad [St], counting,
    updates of records [r <| f := v |>], tactics and hints), [Str] (Rust strings
    as lists of characters with UTF-8 lengths), [Truncate] (cuts to a budget,
    truncate.rs of the tools), [Utf8] (lossy decoding of bytes), [Template] (texts
    filled by successive replacement), [Path], [Float] (binary64).

    Circuit breaker.
    - [Window]: window.rs.  [RetryPolicy]: retry_policy.rs, grpc.rs.
    - [Breaker]: breaker.rs, state.rs, config.rs, observer.rs.  An operation is a
      program: a tree of atomic loads, stores, exchanges, clock readings and
      window accesses, in the order of the source.
    - [BreakerSpec], [BreakerThms]: a machine of three phases that the breaker
      implements when one thread runs it, and what follows from it.
    - [BreakerConc]: the same programs interleaved by any number of threads.
    - [BreakerEnv]: config.rs (environment), registry.rs.

    [Interjection]: interjection-core.  [PromptQueue]: combine.rs.

    Compaction.  The harness's item type, its token counter and its sampler are
    type classes with the laws their documentation states.
    - [CompactionItem]: the seams (item.rs, token.rs, prompt.rs, sampler.rs).
    - [CompactionSelect]: select.rs, trigger.rs.  [CompactionFit]: fit.rs.
    - [CompactionHistory]: history/.  [CompactionSummary]: code_compaction/
      (summary, prompt, assembly, failure classes).  [CompactionSample]:
      code_compaction/ (the bounded retry and the pass around it).
    - [CompactionIntra]: intra_compaction/compact.rs.  [CompactionInter]:
      inter_compaction/.  [CompactionReminder]: reminder.rs.

    Goals.
    - [GoalTracker]: goal_tracker.rs, over a trace of file-system calls.
      [GoalTrackerThms]: lifecycle, confinement, stalls, persisted names.
      [GoalTrackerTypes]: widths, what the counters count, the clock.
    - [GoalPanel]: goal_classifier.rs, over files and spawned skeptics.
      [GoalPanelThms]: what the panel decides and on what grounds.
    - [GoalLoop]: goal.rs, goal_support.rs, goal_evaluator.rs, turn.rs.
      [GoalLoopThms]: the relations the loop keeps, by one class ([LoopRel]) that
      the groups below instantiate.  [GoalLoopBounds]: panels, budget, blockers,
      tokens.  [GoalLoopSafety]: completion and failures.  The end of [GoalLoop]:
      the small system the witnesses run.
    - [GoalNextStep]: goal_next_step.rs, on the bytes of a plan file.
      [GoalDirective]: the text of the next instruction (goal_support.rs,
      goal.rs, the template).  [GoalDirectiveThms]: its slots are filled once,
      its frame holds, one stands in the conversation.

    Sampler.
    - [SamplerError]: sampling-types/error.rs, doom_loop.rs, sampler/events.rs.
    - [SamplerRetry]: retry.rs.  [SamplerTask]: actor/request_task.rs with the
      abort of stream/responses.rs.  [SamplerThms]: the loop a round at a time,
      and what a request keeps.


    Permissions.
    - [ShellSplit], [ShellPeel]: bash_command_splitting.rs.  [ShellThms]: which
      trees are commands, what peeling leaves.
    - [PermissionPolicy]: policy.rs, types.rs.  [PermissionThms]: precedence of
      rules, what an allowed script runs, what the gate reaches.
      [PermissionPath]: rules on paths.  [PermissionDemo]: a small glob and a
      parser of a few scripts, on which the theorems are used.
    - [PermissionRules]: rules.rs, the default modes of resolution.rs, the text
      of a rule in claude_import.rs.
    - [ExecRisk]: exec_risk.rs.  [ShellAccess]: shell_access.rs, the files a
      command names and the gate on them.  [BashRoutine]: auto_mode/.
      [BashEval]: manager.rs up to the grants, state.rs.  [AccessTarget]:
      protected edits, paths a model wrote (resources.rs), servers of MCP tools,
      domains.
    - [PermissionManager]: the actor of manager.rs, gate_preflight.rs; a request
      goes through [before_classifier], [auto_stage], [sandbox_and_policy],
      [settled_pre_decision] and [prompt_user], composed by [serve].
    - [ShellAccessThms]: what the gate on files reaches.  [BashEvalThms]: queries
      of git, what a grant lets through.  [AccessTargetThms]: domains, servers.
      [PermissionManagerThms]: the ways a request is answered, as a relation
      ([answers]), denials and questions.  [PermissionSession]: the session as a
      run of commands.  [PermissionSessionDemo]: requests on which the theorems
      are used, and spellings that evade rules.

    Tools.
    - [ToolDisk]: the files that tools read and write, with the calls made and
      the notifications sent (computer/types.rs, notification/types.rs).
      [TextOffsets]: byte offsets into a text, as slices and searches take them.
    - [ApplyPatch]: codex/apply_patch (seek_sequence.rs, parser.rs, apply.rs,
      tool.rs) over a disk of files.  [ApplyPatchThms]: where lines are found,
      the splice, what the new text is, and where it is not what the patch says.
      [ApplyPatchParse]: the parser ends, and reads back what the grammar
      writes.  [ApplyPatchRun]: a run of the tool and its disk.
    - [Confusables]: util/unicode_confusables.rs, with the map of offsets from the
      normalized text back.  [SearchReplace]: intellihelper_build/search_replace
      (helpers.rs, mod.rs, versions/legacy_0_4_10.rs).  [SearchReplaceThms]:
      replacing at positions, matches up to typography, line endings.
      [SearchReplaceRun]: a run of the tool and its disk, whatever fails.

    Workflows.
    - [WorkflowJournal]: journal.rs, over its one file.  [WorkflowJournalThms]: the
      journal describes its file, whatever part of a line a crash leaves is read
      back; the hash of a request.
    - [WorkflowEngine]: engine.rs, host.rs, run.rs.  What a script does between two
      calls of its host is a tree ([Script]), the host a function of the requests
      sent to it.  Calls of print and debug are [FnLog].
    - [WorkflowResume]: what a call does with the journal: one plan for each
      function ([plan_of]), the entries it leaves when they are not there yet
      ([live_call]), what it gives when they are ([replay_call]).
    - [WorkflowDemo]: concrete parameters for the examples.  [WorkflowReplay]:
      crashes and resumption.
    - [WorkflowMeta]: meta.rs, validate.rs.
    - [WorkflowTracker]: session/workflow/tracker.rs, its operations as steps.
    - [WorkflowHost]: host_service.rs, schema_contract.rs.  What the engine needs
      of a host to stay within a budget is a class ([Metered]); the service of a
      session is an instance, over the tracker.

    ** What the theorems show

    - The breaker refines its specification on every path, sheds during its
      cool-down, recovers after it, and keeps its invariant; interleaved, it
      admits at most the configured probes in a burst shorter than the lease,
      and has two races that [two_probes_admitted] and
      [probe_counter_underflows] exhibit.
    - A compaction either commits a view the guard accepts or leaves both views
      alone (what a mutator that fails does to them is its own affair), the ladder that fits the summarizer's input is its specification,
      summaries carry no control token of their frame, and user queries survive
      being compacted again.
    - The tracker's status follows a lifecycle whatever is called, its
      file-system calls stay inside the session's directory and the scratch
      directories it made, where the entries of a directory are names; no integer
      leaves its width, and the counters hold what the log of calls adds up to.
    - Every skeptic of the panel votes in turn, unless the first one settles it;
      the outcome is a strict majority of cold skeptics that skeptic 0 can veto; every vote for approval is backed by the answer of a skeptic
      spawned for it; what skeptics write cannot close the frame it is shown in;
      two rejections are the same exactly when they cite the same lines.
    - A turn completes a goal only after such an approval; failures pause it; the
      panels and the tokens of a turn are bounded.
    - The next instruction is the template with every slot filled once, whatever
      the model wrote into a slot, and nothing it wrote closes the frame; the
      step shown is the first open item of the plan's checklist.
    - A request to the model ends, with one terminal event and one answer that
      agree; its attempts and its waits are bounded by its budgets; under the
      policy that asks for it, output is never sampled over; the record that
      crosses the event channel keeps the answers the retry loop needs.
    - A policy puts deny over ask over allow whatever the order of its rules; a
      script is allowed only when every command it runs, inside inline scripts
      too, is allowed by itself; a rule that restricts one command it runs
      restricts the script; a rule on a relative pattern stays under the
      workspace; the text of a rule is read back as the rule, short of the
      content that [PermissionRules] names.
      The same holds of rules on files and every file that a script redirects or
      names to a known program.
    - The manager refuses what a rule denies, in every mode; what is to be asked
      is asked, but for the exceptions the code makes, which the theorem lists;
      a grant is a choice of the user since the last reset; modes exclude each
      other and obey their pin, and the classifier's denials are bounded.  A grant
      waves a script through only if this script was granted, or the scans find no
      file that it writes and no program of a repository's choosing, and every
      command passes by itself (the findings say what the scans overlook).
    - Queries of git, domains of the allow list and names of MCP tools are read
      exactly as their tables and delimiters say.
    - A text cut to a budget of bytes keeps it and loses no more than it must.
    - A patch that the grammar writes, with a chunk for every update and no line
      that ends in a carriage return, is parsed as its parts; applied to a file it
      was made from (UTF-8, its last line not blank), it reaches the disk as the
      edits meant, every other line kept; a patch that does not apply changes nothing, and hunks of different
      files are the same at once as in turn.
    - A search-and-replace puts the new string where the old one stands, at one
      place unless all are asked for, in the line endings the file had, or where a
      text stands that is typographically the same; it tells one notification; on
      any other answer the file is as it was unless a write failed (or, under
      version 0.4.10, an error comes behind the edit); no offset it
      computes is off a boundary, so it never panics.
    - An entry that the journal of a workflow acknowledged, within the limits that
      loading enforces, is read back after a
      crash, wherever the crash cuts the file, which is repaired; a resumed
      workflow is given every value and error that its first run was given, asks
      the host for nothing again, and goes on where the journal ends, if no
      reservation failed; a request
      hashes the same whatever the order of its keys.  Meta is accepted exactly
      when it is well formed, and a dry run never reserves more than its budget.
    - A run never starts more agents than its budget has left, nor more than two
      children for each, whatever the script does and whatever fails.  The
      tracker's runs follow a lifecycle in which only resuming makes one active, a
      change is a new revision, spent budget is kept on resuming, and the end of a run is
      reported once for each time it was started or resumed.

    ** Conventions, bounds and fuel

    An integer of Rust is a [Z] with its saturation and wrap-around written out;
    indices are [nat].  Effects are state passing ([St]); each world records what
    was done, and an environment, a function of how many questions were asked,
    says what the outside answered.  Errors are values of sums and options.
    Recursion is structural wherever the source's loop has an evident measure;
    the retry loops run on their budgets of attempts, which are the code's own
    bounds, and the fuel of text scanners is the length of the text, each with a
    lemma that it is enough.  The turn of a goal has no bound of its own (a goal
    without a budget may go on for ever), so [goal_turn] takes fuel and its
    theorems hold for every amount of it.  A request of the sampler has a bound,
    so [request_loop]'s fuel is shown to be enough: the retries, the resamples
    and two more rounds.

    ** Not modelled

    Third-party code appears as parameters: serde_json (a function from text to
    verdicts; entries of a workflow's journal and their lines), the Rhai
    interpreter (from text to trees of host calls), SHA-256, tonic codes, tree-sitter (from text to trees), globs, urls,
    libgit2, links of the file system, the model behind the sampler and the
    classifier, uuid and clocks.  Texts of prompts, log lines, telemetry and latencies are left out.  The
    children of a workflow's parallel block are taken one after another by the
    service (the engine's own order of requests and replies is modelled); scratch
    files and the diff of git are parameters of the service.  Skeptics
    that run at once are taken in the order of their index: each acts through
    files named after its own index.  The legacy goal engine, the planner and the
    set-up and resume commands of goals are not modelled.  Of the sampler, what
    decodes a stream into events is the environment of an attempt; only the
    abort of a looping response is taken from it.  The user interface,
    the MCP client, the sandbox, the code graph and markdown rendering are glue
    to third-party libraries and to the system.

    ** Plan

    Next, in this order: the other pure tools (todo list, read windows, grep
    output), the session's prompt queue and scheduler, the hunk tracker, the
    launch of workflows and their store, the hub's registry. *)
From Stdlib Require Export ZArith Lia.
From stdpp Require Export prelude list gmap strings.

#[global] Set Default Goal Selector "!".
#[global] Open Scope Z_scope.

(** * Machine integers

    A Rust unsigned integer of width [w] is a [Z]; [uint w] is its range. *)

Definition umax (w : Z) : Z := 2 ^ w - 1.
Definition uint (w x : Z) : Prop := 0 ≤ x ≤ umax w.

#[global] Instance uint_dec w x : Decision (uint w x).
Proof. unfold uint. apply _. Defined.

(** [x as uN]: truncation. *)
Definition wrap (w x : Z) : Z := x mod 2 ^ w.
(** [a.saturating_add(b)] and [a.saturating_sub(b)] on unsigned integers. *)
Definition sat_add (w a b : Z) : Z := Z.min (a + b) (umax w).
Definition sat_sub (a b : Z) : Z := Z.max 0 (a - b).
(** [a.saturating_mul(b)]. *)
Definition sat_mul (w a b : Z) : Z := Z.min (a * b) (umax w).

(** The length of a Rust slice, as an integer. *)
Definition zlen {A} (l : list A) : Z := Z.of_nat (length l).

Create HintDb rust.
Create Rewrite HintDb rust.

Lemma umax_32 : umax 32 = 4294967295.
Proof. reflexivity. Qed.

Lemma umax_64 : umax 64 = 18446744073709551615.
Proof. reflexivity. Qed.

Lemma wrap_range w x : 0 ≤ w → uint w (wrap w x).
Proof.
  intros Hw. unfold uint, wrap, umax.
  pose proof (Z.mod_pos_bound x (2 ^ w) (Z.pow_pos_nonneg 2 w ltac:(lia) Hw)). lia.
Qed.

Lemma wrap_id w x : uint w x → wrap w x = x.
Proof. unfold uint, wrap, umax. intros. apply Z.mod_small. lia. Qed.

Lemma wrap_mod_lt w x : 0 ≤ w → 0 ≤ wrap w x < 2 ^ w.
Proof. intros Hw. pose proof (wrap_range w x Hw). unfold uint, umax in *. lia. Qed.

Lemma sat_add_range w a b : uint w a → uint w b → uint w (sat_add w a b).
Proof. unfold uint, sat_add. lia. Qed.

Lemma sat_add_exact w a b : a + b ≤ umax w → sat_add w a b = a + b.
Proof. unfold sat_add. lia. Qed.

Lemma sat_add_ge_l w a b : a ≤ umax w → 0 ≤ b → a ≤ sat_add w a b.
Proof. unfold sat_add. lia. Qed.

Lemma sat_add_assoc w a b c :
  0 ≤ a → 0 ≤ b → 0 ≤ c → sat_add w (sat_add w a b) c = sat_add w a (sat_add w b c).
Proof. unfold sat_add. lia. Qed.

Lemma sat_add_comm w a b : sat_add w a b = sat_add w b a.
Proof. unfold sat_add. f_equal. lia. Qed.

Lemma sat_sub_range w a b : uint w a → 0 ≤ b → uint w (sat_sub a b).
Proof. unfold uint, sat_sub. lia. Qed.

Lemma sat_sub_le a b : 0 ≤ a → 0 ≤ b → sat_sub a b ≤ a.
Proof. unfold sat_sub. lia. Qed.

#[export] Hint Resolve wrap_range sat_add_range sat_sub_range : rust.

Lemma zlen_nil {A} : zlen (@nil A) = 0.
Proof. reflexivity. Qed.

Lemma zlen_cons {A} (x : A) l : zlen (x :: l) = zlen l + 1.
Proof. unfold zlen. simpl. lia. Qed.

Lemma zlen_app {A} (l k : list A) : zlen (l ++ k) = zlen l + zlen k.
Proof. unfold zlen. rewrite length_app. lia. Qed.

Lemma zlen_nonneg {A} (l : list A) : 0 ≤ zlen l.
Proof. unfold zlen. lia. Qed.

#[export] Hint Rewrite @zlen_nil @zlen_cons @zlen_app : rust.
#[export] Hint Resolve zlen_nonneg : rust.

(** * A state monad

    Operations on [&mut self] thread their state explicitly; the ones that
    read a result and go on use stdpp's [x ← m; k]. *)

Definition St (S A : Type) : Type := S → A * S.

#[global] Instance St_ret {S} : MRet (St S) := λ A a s, (a, s).
#[global] Instance St_bind {S} : MBind (St S) := λ A B k m s, let '(a, s') := m s in k a s'.

Definition st_get {S} : St S S := λ s, (s, s).
Definition st_modify {S} (f : S → S) : St S unit := λ s, (tt, f s).

Lemma st_bind_run {S A B} (m : St S A) (k : A → St S B) s : (x ← m; k x) s = k (m s).1 (m s).2.
Proof. unfold mbind, St_bind. by destruct (m s). Qed.

(** [m] re-establishes [I], whatever it answers. *)
Definition preserves {S A} (I : S → Prop) (m : St S A) : Prop := ∀ s, I s → I (m s).2.

Lemma preserves_ret {S A} (I : S → Prop) (a : A) : preserves I (mret a : St S A).
Proof. by intros s. Qed.

Lemma preserves_bind {S A B} (I : S → Prop) (m : St S A) (k : A → St S B) :
  preserves I m → (∀ a, preserves I (k a)) → preserves I (a ← m; k a).
Proof. intros Hm Hk s HI. rewrite st_bind_run. by apply Hk, Hm. Qed.

Lemma preserves_if {S A} (I : S → Prop) (b : bool) (m k : St S A) :
  preserves I m → preserves I k → preserves I (if b then m else k).
Proof. by destruct b. Qed.

#[export] Hint Resolve preserves_ret preserves_bind preserves_if : rust.

(** The [?] operator on a [Result]: [inl] is [Ok], [inr] is [Err]. *)
Definition try_bind {S A B E} (m : St S (A + E)) (k : A → St S (B + E)) : St S (B + E) :=
  λ s, match m s with
       | (inl a, s') => k a s'
       | (inr e, s') => (inr e, s')
       end.

Notation "x ←? m ; k" := (try_bind m (λ x, k))
  (at level 20, m at level 100, k at level 200, right associativity).

(** * Tactics *)

(** Split the first [match] or [if] of the goal, keeping the equation, and
    close the cases that the equations contradict. *)
Ltac case_split := repeat (case_match; simplify_eq/=).

(** Unfold the integer operations and call [lia]. *)
Ltac rlia := unfold uint, wrap, sat_add, sat_sub, umax, zlen in *; lia.

(** * Options and lists *)

(** [Option::is_some_and]. *)
Definition is_some_and {A} (p : A → bool) (o : option A) : bool :=
  match o with Some a => p a | None => false end.

(** [Option::or]. *)
Definition option_or {A} (o o' : option A) : option A :=
  match o with Some a => Some a | None => o' end.

(** [slice::last]. *)
Definition list_last {A} (l : list A) : option A := last l.

(** [Iterator::fold(0, saturating_add)] over [u32] counts. *)
Definition sum_sat (w : Z) (l : list Z) : Z := fold_left (sat_add w) l 0.

Lemma foldr_add_nonneg l : Forall (λ x, 0 ≤ x) l → 0 ≤ foldr Z.add 0 l.
Proof. induction 1; simpl; lia. Qed.

Lemma fold_left_sat_add w l a :
  0 ≤ a ≤ umax w → Forall (λ x, 0 ≤ x) l →
  fold_left (sat_add w) l a = Z.min (a + foldr Z.add 0 l) (umax w).
Proof.
  revert a. induction l as [|x l IH]; intros a Ha Hl; simpl; [lia|].
  inversion Hl as [|? ? Hx Hl']; subst. pose proof (foldr_add_nonneg l Hl').
  rewrite IH; [unfold sat_add; lia | unfold sat_add; lia | done].
Qed.

Lemma sum_sat_spec w l :
  0 ≤ umax w → Forall (λ x, 0 ≤ x) l → sum_sat w l = Z.min (foldr Z.add 0 l) (umax w).
Proof. intros. unfold sum_sat. by rewrite fold_left_sat_add by (done || lia). Qed.

Lemma foldr_add_app l k : foldr Z.add 0 (l ++ k) = foldr Z.add 0 l + foldr Z.add 0 k.
Proof. induction l; simpl; lia. Qed.

(** The number of elements satisfying a boolean test. *)
Definition countb {A} (p : A → bool) (l : list A) : Z :=
  foldr (λ x n, (if p x then 1 else 0) + n) 0 l.

Lemma countb_nil {A} (p : A → bool) : countb p [] = 0.
Proof. reflexivity. Qed.

Lemma countb_cons {A} (p : A → bool) x l :
  countb p (x :: l) = (if p x then 1 else 0) + countb p l.
Proof. reflexivity. Qed.

#[export] Hint Rewrite @countb_nil @countb_cons : rust.

Lemma countb_app {A} (p : A → bool) l k : countb p (l ++ k) = countb p l + countb p k.
Proof. unfold countb. induction l; simpl; lia. Qed.

Lemma countb_bounds {A} (p : A → bool) l : 0 ≤ countb p l ≤ zlen l.
Proof.
  unfold countb. induction l as [|a l IH]; simpl; [rlia|].
  rewrite zlen_cons. destruct (p a); lia.
Qed.

Lemma countb_fmap {A B} (f : A → B) (p : B → bool) l : countb p (f <$> l) = countb (λ a, p (f a)) l.
Proof. unfold countb. induction l as [|a l IH]; [done|]. rewrite fmap_cons. simpl. by rewrite IH. Qed.

Lemma countb_ext {A} (p q : A → bool) l : (∀ a, a ∈ l → p a = q a) → countb p l = countb q l.
Proof.
  unfold countb. induction l as [|a l IH]; intros H; simpl; [done|].
  rewrite (H a (list_elem_of_here _ _)), IH; [done|]. intros b Hb. apply H. by right.
Qed.

Lemma filter_none {A} (P : A → Prop) `{∀ x, Decision (P x)} (l : list A) :
  Forall (λ x, ¬ P x) l → filter P l = [].
Proof. induction 1; [done|]. by rewrite filter_cons_False. Qed.

Lemma filter_whole {A} (P : A → Prop) `{∀ x, Decision (P x)} (l : list A) :
  Forall P l → filter P l = l.
Proof. induction 1 as [|x l Hx _ IH]; [done|]. by rewrite filter_cons_True, IH. Qed.

(** * Transition systems *)

(** What every step preserves, every sequence of steps preserves. *)
Lemma rtc_invariant {A} (R : relation A) (I : A → Prop) x y :
  (∀ a b, I a → R a b → I b) → rtc R x y → I x → I y.
Proof. intros Hstep. induction 1; eauto. Qed.

(** * Records

    Functional update of one field of a record, [r <| field := v |>], for the
    record types whose eta expansion is declared.  The setter of a field is
    computed from that expansion by a tactic, so a record of fifty fields
    needs one line and not fifty definitions. *)

(** [eta] of a record type is [λ r, mk (field1 r) … (fieldn r)]. *)
Class Eta (R : Type) := eta : R → R.

(** [setter field f r] is [r] with [f] applied to its [field]. *)
Class Setter {R T : Type} (field : R → T) := setter : (T → T) → R → R.
Arguments setter {R T} field {_} f r /.

Ltac derive_setter :=
  lazymatch goal with
  | |- @Setter ?R _ ?field =>
      lazymatch constr:(@eta R _) with
      | @eta _ ?i =>
          let e := eval red in i in
          lazymatch eval pattern field in e with
          | ?build _ => exact (λ f, build (λ r, f (field r)))
          end
      end
  end.

#[export] Hint Extern 0 (Setter _) => derive_setter : typeclass_instances.

Declare Scope record_scope.
Notation "r <| field := v |>" := (setter field (λ _, v) r)
  (at level 1, left associativity, format "r  <| field  :=  v |>") : record_scope.
Notation "r <| field ::= f |>" := (setter field f r)
  (at level 1, left associativity, format "r  <| field  ::=  f |>") : record_scope.
Open Scope record_scope.
