(* ===== verification/Str.v ===== *)
(** Rust strings.

    Text that the code looks into is a [rstr], the list of its [char]s
    (Unicode scalar values, as integers); its [len] is the length of its UTF-8
    encoding, and byte offsets are sums of character lengths.  Text that is
    only stored and compared is a plain [string].  [lit] turns an ASCII
    literal into a [rstr]. *)
From Stdlib Require Import Ascii String DecimalString DecimalPos DecimalN.
From S2P Require Import Prelude.

Definition rchar : Type := Z.
Definition rstr : Type := list rchar.

Definition lit (s : string) : rstr := (λ a, Z.of_N (N_of_ascii a)) <$> list_ascii_of_string s.

(** [char::len_utf8]. *)
Definition len_utf8 (c : rchar) : Z :=
  if c <? 128 then 1 else if c <? 2048 then 2 else if c <? 65536 then 3 else 4.

(** [str::len]: bytes. *)
Definition byte_len (s : rstr) : Z := foldr (λ c n, len_utf8 c + n) 0 s.

Definition is_empty (s : rstr) : bool := match s with [] => true | _ => false end.

(** [str::chars().count()]. *)
Definition char_count (s : rstr) : Z := zlen s.

(** [char::is_whitespace]: the Unicode property White_Space. *)
Definition is_whitespace (c : rchar) : bool :=
  ((9 <=? c) && (c <=? 13)) || (c =? 32) || (c =? 133) || (c =? 160) || (c =? 5760)
  || ((8192 <=? c) && (c <=? 8202)) || (c =? 8232) || (c =? 8233) || (c =? 8239)
  || (c =? 8287) || (c =? 12288).

(** [str::trim_start], [trim_end], [trim]. *)
Fixpoint trim_start (s : rstr) : rstr :=
  match s with
  | c :: s' => if is_whitespace c then trim_start s' else s
  | [] => []
  end.
Definition trim_end (s : rstr) : rstr := reverse (trim_start (reverse s)).
Definition trim (s : rstr) : rstr := trim_end (trim_start s).

(** [str::starts_with] a string, giving the rest ([strip_prefix]). *)
Fixpoint strip_prefix (p s : rstr) : option rstr :=
  match p, s with
  | [], _ => Some s
  | a :: p', b :: s' => if a =? b then strip_prefix p' s' else None
  | _ :: _, [] => None
  end.

(** [str::find] of a string: what stands before the first occurrence and
    what stands after it. *)
Fixpoint split_at_first (p s : rstr) : option (rstr * rstr) :=
  match strip_prefix p s with
  | Some rest => Some ([], rest)
  | None =>
      match s with
      | [] => None
      | c :: s' =>
          match split_at_first p s' with
          | Some (before, after) => Some (c :: before, after)
          | None => None
          end
      end
  end.

(** [str::find] and [str::rfind] of a string.  Offsets count characters: a
    byte offset found by a search is that of a character boundary, and the two
    are ordered alike. *)
Definition find (p s : rstr) : option nat := length ∘ fst <$> split_at_first p s.

Fixpoint rfind (p s : rstr) : option nat :=
  match s with
  | [] => if p is [] then Some 0%nat else None
  | _ :: s' =>
      match rfind p s' with
      | Some i => Some (S i)
      | None => if strip_prefix p s is Some _ then Some 0%nat else None
      end
  end.

(** [&s[a..b]], [str::contains] and [str::replace] of a nonempty string. *)
Definition slice (a b : nat) (s : rstr) : rstr := take (b - a) (drop a s).

Definition contains_str (p s : rstr) : bool :=
  match split_at_first p s with Some _ => true | None => false end.

Fixpoint replace_fuel (fuel : nat) (p q s : rstr) : rstr :=
  match fuel with
  | O => s
  | S fuel' =>
      match split_at_first p s with
      | Some (before, after) => before ++ q ++ replace_fuel fuel' p q after
      | None => s
      end
  end.
Definition replace (p q s : rstr) : rstr := replace_fuel (length s) p q s.

(** [str::to_ascii_lowercase]. *)
Definition to_ascii_lowercase (s : rstr) : rstr :=
  (λ c, if (65 <=? c) && (c <=? 90) then c + 32 else c) <$> s.

(** [str::split(char)]. *)
Fixpoint split_char (sep : rchar) (s : rstr) : list rstr :=
  match s with
  | [] => [[]]
  | c :: s' =>
      if c =? sep then [] :: split_char sep s'
      else match split_char sep s' with
           | piece :: rest => (c :: piece) :: rest
           | [] => [[c]]
           end
  end.

(** [[..].join(sep)]. *)
Fixpoint join (sep : rstr) (l : list rstr) : rstr :=
  match l with
  | [] => []
  | [s] => s
  | s :: l' => s ++ sep ++ join sep l'
  end.

(** [str::trim_start_matches], [trim_end_matches], [trim_matches] of a test on
    characters. *)
Fixpoint trim_start_matches (p : rchar → bool) (s : rstr) : rstr :=
  match s with
  | c :: s' => if p c then trim_start_matches p s' else s
  | [] => []
  end.
Definition trim_end_matches (p : rchar → bool) (s : rstr) : rstr := reverse (trim_start_matches p (reverse s)).
Definition trim_matches (p : rchar → bool) (s : rstr) : rstr := trim_end_matches p (trim_start_matches p s).

(** [str::starts_with] a string. *)
Definition starts_with (p s : rstr) : bool := match strip_prefix p s with Some _ => true | None => false end.

(** A string that has to have something in it. *)
Definition not_empty (s : rstr) : option rstr := if is_empty s then None else Some s.

(** [str::strip_suffix], [str::ends_with]. *)
Definition strip_suffix (p s : rstr) : option rstr := reverse <$> strip_prefix (reverse p) (reverse s).
Definition ends_with (p s : rstr) : bool := starts_with (reverse p) (reverse s).

(** [str::split] at a test on characters, and [split_whitespace]. *)
Fixpoint split_where (p : rchar → bool) (s : rstr) : list rstr :=
  match s with
  | [] => [[]]
  | c :: s' =>
      if p c then [] :: split_where p s'
      else match split_where p s' with
           | piece :: rest => (c :: piece) :: rest
           | [] => [[c]]
           end
  end.
Definition split_whitespace (s : rstr) : list rstr :=
  List.filter (λ w, negb (is_empty w)) (split_where is_whitespace s).

(** [str::split_once(char)]. *)
Definition split_once (sep : rchar) (s : rstr) : option (rstr * rstr) := split_at_first [sep] s.

(** [str::lines]: a carriage return before the line feed goes with it, and
    nothing follows the last line feed. *)
Fixpoint unterminated (pieces : list rstr) : list rstr :=
  match pieces with
  | [] => []
  | [l] => if is_empty l then [] else [l]
  | l :: rest =>
      (match last l with Some c => if c =? 13 then removelast l else l | None => l end) :: unterminated rest
  end.
Definition lines (s : rstr) : list rstr := unterminated (split_char 10 s).

(** [char::is_ascii_digit] and friends. *)
Definition is_ascii_digit (c : rchar) : bool := (48 <=? c) && (c <=? 57).
Definition is_ascii_lowercase (c : rchar) : bool := (97 <=? c) && (c <=? 122).
Definition is_ascii_alphanumeric (c : rchar) : bool :=
  is_ascii_digit c || is_ascii_lowercase c || ((65 <=? c) && (c <=? 90)).

(** Decimal formatting of an unsigned integer. *)
Definition fmt_dec (n : Z) : rstr := lit (NilZero.string_of_uint (N.to_uint (Z.to_N n))).

(** ** [str::parse] into an unsigned integer of [w] bits *)

Definition digit_of (c : rchar) : option Z :=
  if (48 <=? c) && (c <=? 57) then Some (c - 48) else None.

(** The digit loop of [from_str_radix(_, 10)], with its overflow checks. *)
Fixpoint parse_digits (w : Z) (acc : Z) (s : rstr) : option Z :=
  match s with
  | [] => Some acc
  | c :: s' =>
      match digit_of c with
      | None => None
      | Some d => if umax w <? acc * 10 + d then None else parse_digits w (acc * 10 + d) s'
      end
  end.

(** A leading [+] is accepted when a digit follows. *)
Definition parse_uint (w : Z) (s : rstr) : option Z :=
  match s with
  | [] => None
  | c :: s' =>
      if c =? 43 then match s' with [] => None | _ => parse_digits w 0 s' end
      else parse_digits w 0 s
  end.

(** [str::parse::<bool>]. *)
Definition parse_bool (s : rstr) : option bool :=
  if decide (s = lit "true") then Some true
  else if decide (s = lit "false") then Some false else None.

(** * Lemmas *)

Lemma len_utf8_bounds c : 1 ≤ len_utf8 c ≤ 4.
Proof. unfold len_utf8. case_split; lia. Qed.

Lemma byte_len_cons c s : byte_len (c :: s) = len_utf8 c + byte_len s.
Proof. reflexivity. Qed.

Lemma byte_len_app s s' : byte_len (s ++ s') = byte_len s + byte_len s'.
Proof. unfold byte_len. induction s; simpl; lia. Qed.

Lemma byte_len_nonneg s : 0 ≤ byte_len s.
Proof. induction s as [|c s]; [done|]. rewrite byte_len_cons. pose proof (len_utf8_bounds c). lia. Qed.

Lemma byte_len_zero s : byte_len s = 0 ↔ s = [].
Proof.
  split; [|by intros ->]. destruct s as [|c s]; [done|]. rewrite byte_len_cons.
  pose proof (len_utf8_bounds c). pose proof (byte_len_nonneg s). lia.
Qed.

#[export] Hint Resolve byte_len_nonneg : rust.

Lemma strip_prefix_spec p s rest : strip_prefix p s = Some rest ↔ s = p ++ rest.
Proof.
  revert s. induction p as [|a p IH]; intros s; simpl; [naive_solver|].
  destruct s as [|b s]; [naive_solver|].
  destruct (Z.eqb_spec a b); [rewrite IH; naive_solver|]. naive_solver.
Qed.

Lemma split_at_first_spec p s before after :
  split_at_first p s = Some (before, after) → s = before ++ p ++ after.
Proof.
  revert before. induction s as [|c s IH']; intros before; simpl;
    (destruct (strip_prefix p _) as [rest|] eqn:Hp; [apply strip_prefix_spec in Hp|]);
    intros H; simplify_eq; [done|done|].
  destruct (split_at_first p s) as [[b a]|] eqn:Hs; simplify_eq.
  by rewrite (IH' b).
Qed.

Lemma parse_digits_range w acc s n :
  0 ≤ acc ≤ umax w → parse_digits w acc s = Some n → uint w n.
Proof.
  revert acc. induction s as [|c s IH]; intros acc Hacc; simpl; [by intros [= <-]|].
  destruct (digit_of c) as [d|] eqn:Hd; [|done].
  assert (0 ≤ d ≤ 9) by (unfold digit_of in Hd; case_split; lia).
  destruct (Z.ltb_spec (umax w) (acc * 10 + d)); [done|]. apply IH. lia.
Qed.

Lemma parse_uint_range w s n : 0 ≤ umax w → parse_uint w s = Some n → uint w n.
Proof.
  intros Hw. unfold parse_uint. destruct s as [|c s]; [done|].
  intros H. repeat case_match; try done; eapply parse_digits_range; [|done| |done]; lia.
Qed.

Lemma trim_start_suffix s : ∃ ws, s = ws ++ trim_start s ∧ Forall (λ c, is_whitespace c = true) ws.
Proof.
  induction s as [|c s (ws & Hs & Hws)]; [by exists []|].
  simpl. destruct (is_whitespace c) eqn:Hc.
  - exists (c :: ws). simpl. by rewrite <- Hs; split; [|constructor].
  - by exists [].
Qed.

(** ** Formatting and parsing numbers *)

Lemma of_uint_acc_ge u p : Z.pos p ≤ Z.pos (Pos.of_uint_acc u p).
Proof. revert p. induction u; intros p; cbn [Pos.of_uint_acc]; [lia|etrans; [|apply IHu]; lia..]. Qed.

Lemma lit_cons a s : lit (String a s) = Z.of_N (N_of_ascii a) :: lit s.
Proof. reflexivity. Qed.

Lemma parse_digits_cons w acc c s d :
  digit_of c = Some d → acc * 10 + d ≤ umax w →
  parse_digits w acc (c :: s) = parse_digits w (acc * 10 + d) s.
Proof. intros Hd Hle. simpl. rewrite Hd. by rewrite (proj2 (Z.ltb_ge _ _)). Qed.

(** Consume one literal digit. *)
Ltac digit_step :=
  rewrite lit_cons; erewrite parse_digits_cons; [|reflexivity|];
  match goal with |- context [Z.of_N (N_of_ascii ?a) - 48] =>
    let v := eval vm_compute in (Z.of_N (N_of_ascii a) - 48) in
    change (Z.of_N (N_of_ascii a) - 48) with v
  end; [|lia].

Lemma parse_digits_acc w u p :
  Z.pos (Pos.of_uint_acc u p) ≤ umax w →
  parse_digits w (Z.pos p) (lit (NilEmpty.string_of_uint u)) = Some (Z.pos (Pos.of_uint_acc u p)).
Proof.
  revert p. induction u as [|u IH|u IH|u IH|u IH|u IH|u IH|u IH|u IH|u IH|u IH]; intros p Hle;
    [done|..]; cbn [Pos.of_uint_acc] in *; pose proof (of_uint_acc_ge u) as Hge;
    match type of Hle with Z.pos (Pos.of_uint_acc _ ?q) ≤ _ => specialize (Hge q); specialize (IH q Hle) end;
    cbn [NilEmpty.string_of_uint]; digit_step; rewrite <- IH; f_equal; lia.
Qed.

Lemma parse_digits_uint w u :
  0 ≤ umax w → Z.of_N (Pos.of_uint u) ≤ umax w →
  parse_digits w 0 (lit (NilEmpty.string_of_uint u)) = Some (Z.of_N (Pos.of_uint u)).
Proof.
  intros Hw. induction u as [|u IH|u _|u _|u _|u _|u _|u _|u _|u _|u _]; intros Hle; [done|..];
    cbn [Pos.of_uint Z.of_N] in *; cbn [NilEmpty.string_of_uint];
    try match goal with |- context [Pos.of_uint_acc u ?q] => pose proof (of_uint_acc_ge u q) end;
    digit_step; [by apply IH|by apply (parse_digits_acc w u)..].
Qed.

(** Parsing undoes formatting. *)
Lemma parse_fmt_dec w n : uint w n → parse_uint w (fmt_dec n) = Some n.
Proof.
  intros [Hn Hw]. unfold fmt_dec.
  assert (Hz : Z.of_N (Pos.of_uint (N.to_uint (Z.to_N n))) = n).
  { change (Pos.of_uint ?u) with (N.of_uint u). rewrite DecimalN.Unsigned.of_to. lia. }
  pose proof (parse_digits_uint w (N.to_uint (Z.to_N n)) ltac:(lia) ltac:(lia)) as Hp.
  rewrite Hz in Hp. rewrite <- Hp. clear Hz Hp.
  destruct (N.to_uint (Z.to_N n)) as [|u|u|u|u|u|u|u|u|u|u] eqn:Hu; try done.
  by destruct (Z.to_N n); [|apply DecimalPos.Unsigned.to_uint_nonnil in Hu].
Qed.

Definition is_digit (c : rchar) : Prop := 48 ≤ c ≤ 57.

Lemma lit_uint_digits u : Forall is_digit (lit (NilEmpty.string_of_uint u)).
Proof.
  induction u; cbn [NilEmpty.string_of_uint]; [constructor|..]; rewrite lit_cons;
    (constructor; [vm_compute; split; discriminate|done]).
Qed.

Lemma fmt_dec_digits n : Forall is_digit (fmt_dec n).
Proof.
  unfold fmt_dec, NilZero.string_of_uint.
  destruct (N.to_uint (Z.to_N n)); try apply lit_uint_digits.
  rewrite lit_cons. constructor; [vm_compute; split; discriminate|constructor].
Qed.

(** ** Trimming and splitting *)

Lemma trim_start_id s : Forall (λ c, is_whitespace c = false) s → trim_start s = s.
Proof. destruct 1 as [|c s Hc _]; [done|]. simpl. by rewrite Hc. Qed.

Lemma trim_id s : Forall (λ c, is_whitespace c = false) s → trim s = s.
Proof.
  intros Hs. unfold trim, trim_end. rewrite (trim_start_id s Hs), trim_start_id.
  - apply reverse_involutive.
  - by rewrite Forall_reverse.
Qed.

Lemma digit_not_whitespace c : is_digit c → is_whitespace c = false.
Proof. unfold is_digit, is_whitespace. intros. lia. Qed.

Lemma split_char_none sep s : Forall (λ c, c ≠ sep) s → split_char sep s = [s].
Proof.
  induction 1 as [|c s Hc _ IH]; [done|]. simpl.
  by rewrite (proj2 (Z.eqb_neq c sep) Hc), IH.
Qed.

Lemma split_char_app sep s s' :
  Forall (λ c, c ≠ sep) s → split_char sep (s ++ sep :: s') = s :: split_char sep s'.
Proof.
  induction 1 as [|c s Hc _ IH]; simpl; [by rewrite Z.eqb_refl|].
  by rewrite (proj2 (Z.eqb_neq c sep) Hc), IH.
Qed.

(** Splitting undoes joining, when no piece holds the separator. *)
Lemma split_join sep l :
  l ≠ [] → Forall (Forall (λ c, c ≠ sep)) l → split_char sep (join [sep] l) = l.
Proof.
  intros Hl H. induction H as [|s l Hs Hall IH]; [done|].
  destruct l as [|s' l]; simpl; [by apply split_char_none|].
  rewrite split_char_app by done. f_equal. by apply IH.
Qed.

(** ** Occurrences of a string in another *)

Definition infix (p s : rstr) : Prop := ∃ a b, s = a ++ p ++ b.

Lemma infix_app_l p x y : infix p x → infix p (x ++ y).
Proof. intros (a & b & ->). exists a, (b ++ y). by rewrite <- !app_assoc. Qed.

Lemma infix_app_r p x y : infix p y → infix p (x ++ y).
Proof. intros (a & b & ->). exists (x ++ a), b. by rewrite <- !app_assoc. Qed.

#[export] Hint Resolve infix_app_l infix_app_r : rust.

Lemma infix_cons p c s : infix p s → infix p (c :: s).
Proof. apply (infix_app_r p [c]). Qed.

Lemma infix_length p s : infix p s → (length p ≤ length s)%nat.
Proof. intros (a & b & ->). rewrite !length_app. lia. Qed.

(** Nothing stands before the first occurrence. *)
Lemma split_at_first_first p s before after a b :
  split_at_first p s = Some (before, after) → s = a ++ p ++ b → (length before ≤ length a)%nat.
Proof.
  revert before a. induction s as [|c s IH]; intros before a; simpl;
    (destruct (strip_prefix p _) as [rest|] eqn:Hp; [intros [= <- <-]; simpl; lia|]); [done|].
  destruct (split_at_first p s) as [[b' a']|] eqn:Hs; [|done]. intros [= <- <-] Heq.
  destruct a as [|c' a]; simpl in Heq.
  - symmetry in Heq. rewrite <- Heq in Hp. rewrite (proj2 (strip_prefix_spec p _ b) eq_refl) in Hp. done.
  - injection Heq as -> Heq. specialize (IH b' a eq_refl Heq). simpl. lia.
Qed.

Lemma split_at_first_none p s : split_at_first p s = None ↔ ¬ infix p s.
Proof.
  induction s as [|c s IH]; simpl.
  - destruct (strip_prefix p []) as [rest|] eqn:Hp.
    + apply strip_prefix_spec in Hp. split; [done|]. intros []. by exists [], rest.
    + split; [intros _ (a & b & Heq)|done]. by destruct a, p; simplify_eq/=.
  - destruct (strip_prefix p (c :: s)) as [rest|] eqn:Hp.
    + apply strip_prefix_spec in Hp. split; [done|]. intros []. by exists [], rest.
    + destruct (split_at_first p s) as [[b' a']|] eqn:Hs.
      * split; [done|]. intros []. apply infix_cons. exists b', a'. by apply split_at_first_spec.
      * split; [|done]. intros _ (a & b & Heq). destruct a as [|c' a].
        { simpl in Heq. rewrite Heq in Hp. by rewrite (proj2 (strip_prefix_spec p _ b) eq_refl) in Hp. }
        injection Heq as -> Heq. apply (proj1 IH eq_refl). by exists a, b.
Qed.

Lemma contains_str_spec p s : contains_str p s = true ↔ infix p s.
Proof.
  unfold contains_str. destruct (split_at_first p s) as [[a b]|] eqn:H.
  - split; [|done]. intros _. exists a, b. by apply split_at_first_spec.
  - apply split_at_first_none in H. split; done.
Qed.

(** An occurrence does not straddle a character it does not hold. *)
Lemma app_break (p x : rstr) c y a b :
  c ∉ p → p ≠ [] → x ++ c :: y = a ++ p ++ b →
  (∃ b', x = a ++ p ++ b' ∧ b = b' ++ c :: y) ∨ (∃ a', y = a' ++ p ++ b ∧ a = x ++ c :: a').
Proof.
  intros Hc Hp Heq. destruct (app_eq_inv _ _ _ _ Heq) as [(k & -> & Hk)|(k & -> & Hk)].
  - destruct (app_eq_inv _ _ _ _ Hk) as [(k' & -> & Hk')|(k' & -> & Hk')].
    + destruct k' as [|c' k']; simplify_eq/=; [|set_solver].
      left. exists []. by rewrite !app_nil_r.
    + left. by exists k'.
  - destruct k as [|c' k]; simplify_eq/=.
    + destruct p as [|c' p]; simplify_eq/=. set_solver.
    + right. by exists k.
Qed.

Lemma infix_nil s : infix [] s.
Proof. by exists [], s. Qed.

Lemma infix_break (p x : rstr) c y : c ∉ p → infix p (x ++ c :: y) → infix p x ∨ infix p y.
Proof.
  intros Hc (a & b & Heq). destruct (decide (p = [])) as [->|Hp]; [left; apply infix_nil|].
  destruct (app_break p x c y a b Hc Hp Heq) as [(b' & -> & _)|(a' & -> & _)];
    [left; by exists a, b'|right; by exists a', b].
Qed.

Lemma infix_skip c p x y : c ∉ x → infix (c :: p) (x ++ y) → infix (c :: p) y.
Proof.
  intros Hc (a & b & Heq). destruct (app_eq_inv _ _ _ _ Heq) as [(k & -> & Hk)|(k & -> & Hk)].
  - destruct k as [|c' k]; simplify_eq/=; [by exists [], b|set_solver].
  - by exists k, b.
Qed.

(** Replacing [p] by [q] creates no occurrence of [p2], when putting [q] for
    one occurrence of [p] creates none. *)
Lemma replace_no_new p q p2 fuel pre s :
  (∀ x y, infix p2 (x ++ q ++ y) → infix p2 (x ++ p ++ y)) →
  infix p2 (pre ++ replace_fuel fuel p q s) → infix p2 (pre ++ s).
Proof.
  intros Hq. revert pre s. induction fuel as [|fuel IH]; intros pre s; simpl; [done|].
  destruct (split_at_first p s) as [[a b]|] eqn:Hs; [|done].
  apply split_at_first_spec in Hs as ->. intros H.
  rewrite app_assoc in H. apply Hq in H. rewrite !app_assoc in H. apply IH in H.
  by rewrite <- !app_assoc in H.
Qed.

Lemma replace_length_le p q s fuel :
  (length q ≤ length p)%nat → (length (replace_fuel fuel p q s) ≤ length s)%nat.
Proof.
  intros Hq. revert s. induction fuel as [|fuel IH]; intros s; simpl; [done|].
  destruct (split_at_first p s) as [[a b]|] eqn:Hs; [|done].
  apply split_at_first_spec in Hs as ->. specialize (IH b). rewrite !length_app. lia.
Qed.

Lemma replace_shortens p q s :
  (length q < length p)%nat → infix p s → (length (replace p q s) < length s)%nat.
Proof.
  intros Hq Hp. pose proof (infix_length _ _ Hp). unfold replace.
  destruct (length s) as [|n] eqn:Hn; [lia|]. simpl.
  destruct (split_at_first p s) as [[a b]|] eqn:Hs; [|by apply split_at_first_none in Hs].
  apply split_at_first_spec in Hs as ->. pose proof (replace_length_le p q b n ltac:(lia)).
  rewrite !length_app in *. lia.
Qed.

(** Putting [z] after the first character of every occurrence of a string that
    has its first character only once leaves no occurrence. *)
Lemma replace_defuses c z tl s :
  c ∉ tl → z ≠ c → z ∉ tl → tl ≠ [] → ¬ infix (c :: tl) (replace (c :: tl) (c :: z :: tl) s).
Proof.
  intros Hc Hzc Hz Htl. unfold replace.
  assert (Hlen : (length s ≤ length s)%nat) by done. revert Hlen.
  generalize (length s) at 2 3 as fuel. intros fuel. revert s.
  induction fuel as [|fuel IH]; intros s Hf; simpl.
  - intros Hi%infix_length. simpl in Hi. lia.
  - destruct (split_at_first (c :: tl) s) as [[a b]|] eqn:Hs; [|by apply split_at_first_none].
    pose proof (split_at_first_spec _ _ _ _ Hs) as Heq.
    replace (a ++ c :: z :: tl ++ _) with ((a ++ [c]) ++ z :: tl ++ replace_fuel fuel (c :: tl) (c :: z :: tl) b)
      by by rewrite <- app_assoc.
    intros [Hi|Hi]%infix_break; [| |set_solver].
    + destruct Hi as (a1 & b1 & Hi).
      pose proof (split_at_first_first _ _ _ _ a1 (b1 ++ tl ++ b) Hs) as Hle.
      assert (Hs' : s = a1 ++ (c :: tl) ++ b1 ++ tl ++ b).
      { rewrite Heq. replace (a ++ (c :: tl) ++ b) with ((a ++ [c]) ++ tl ++ b) by by rewrite <- app_assoc.
        rewrite Hi. by rewrite <- !app_assoc. }
      apply Hle in Hs'. apply (f_equal length) in Hi. rewrite !length_app in Hi. simpl in Hi.
      destruct tl; [done|]. simpl in Hi. lia.
    + apply infix_skip in Hi; [|done]. apply IH in Hi; [done|].
      rewrite Heq, !length_app in Hf. simpl in Hf. lia.
Qed.

Lemma infix_trim_start p s : infix p (trim_start s) → infix p s.
Proof. destruct (trim_start_suffix s) as (ws & Heq & _). rewrite Heq at 2. auto with rust. Qed.

Lemma infix_reverse p s : infix p s → infix (reverse p) (reverse s).
Proof. intros (a & b & ->). exists (reverse b), (reverse a). by rewrite !reverse_app, app_assoc. Qed.

Lemma infix_trim p s : infix p (trim s) → infix p s.
Proof.
  unfold trim, trim_end. intros H%infix_reverse. rewrite reverse_involutive in H.
  apply infix_trim_start, infix_reverse in H. rewrite !reverse_involutive in H.
  by apply infix_trim_start.
Qed.

(** ** Searches with a known answer *)

Lemma split_at_first_here p s : split_at_first p (p ++ s) = Some ([], s).
Proof.
  assert (Hp : strip_prefix p (p ++ s) = Some s) by by apply strip_prefix_spec.
  destruct (p ++ s); simpl; by rewrite Hp.
Qed.

Lemma split_at_first_skip c p x y :
  c ∉ x → split_at_first (c :: p) (x ++ (c :: p) ++ y) = Some (x, y).
Proof.
  induction x as [|d x IH]; intros Hc; [apply (split_at_first_here (c :: p) y)|].
  specialize (IH ltac:(set_solver)). cbn [app split_at_first strip_prefix] in *.
  rewrite (proj2 (Z.eqb_neq c d)) by set_solver. by rewrite IH.
Qed.

Lemma strip_prefix_app p s t rest : strip_prefix p s = Some rest → strip_prefix p (s ++ t) = Some (rest ++ t).
Proof. rewrite !strip_prefix_spec. intros ->. by rewrite <- app_assoc. Qed.

Lemma strip_prefix_app_inv p s t rest :
  strip_prefix p (s ++ t) = Some rest → (length p ≤ length s)%nat → is_Some (strip_prefix p s).
Proof.
  intros Heq%strip_prefix_spec Hlen. destruct (app_eq_inv _ _ _ _ Heq) as [(k & -> & _)|(k & -> & _)].
  - exists k. by apply strip_prefix_spec.
  - rewrite length_app in Hlen. destruct k; [|simpl in Hlen; lia].
    exists []. by apply strip_prefix_spec; rewrite !app_nil_r.
Qed.

(** What is found in a string is found in an extension of it. *)
Lemma split_at_first_app p s t b a :
  split_at_first p s = Some (b, a) → split_at_first p (s ++ t) = Some (b, a ++ t).
Proof.
  revert b. induction s as [|c s IH]; intros b; simpl.
  - destruct (strip_prefix p []) as [r|] eqn:Hp; [|done]. intros [= <- ->].
    apply (strip_prefix_app _ _ t) in Hp. simpl in Hp. destruct t; simpl in *; by rewrite Hp.
  - destruct (strip_prefix p (c :: s)) as [r|] eqn:Hp.
    + intros [= <- ->]. apply (strip_prefix_app _ _ t) in Hp. simpl in Hp. by rewrite Hp.
    + destruct (split_at_first p s) as [[b' a']|] eqn:Hs; [|done]. intros [= <- ->].
      destruct (strip_prefix p (c :: s ++ t)) as [r|] eqn:Hp'; [exfalso|by rewrite (IH b' eq_refl)].
      apply (strip_prefix_app_inv p (c :: s) t) in Hp' as [r' Hr']; [congruence|].
      apply split_at_first_spec in Hs. rewrite Hs. simpl. rewrite !length_app. lia.
Qed.

Lemma trim_nil_whitespace s : Forall (λ c, is_whitespace c = true) s → trim s = [].
Proof. intros Hs. unfold trim. replace (trim_start s) with (@nil rchar); [done|]. induction Hs as [|c s Hc _ IH]; [done|]. simpl. by rewrite Hc. Qed.

Lemma trim_start_ws ws s : Forall (λ c, is_whitespace c = true) ws → trim_start (ws ++ s) = trim_start s.
Proof. induction 1 as [|c ws Hc _ IH]; [done|]. simpl. by rewrite Hc. Qed.

Lemma trim_ws ws s : Forall (λ c, is_whitespace c = true) ws → trim (ws ++ s) = trim s.
Proof. intros H. unfold trim. by rewrite trim_start_ws. Qed.

(** Trimming is a middle part of the string. *)
Lemma trim_split s : ∃ a b, s = a ++ trim s ++ b.
Proof.
  destruct (trim_start_suffix s) as (a & Ha & _).
  destruct (trim_start_suffix (reverse (trim_start s))) as (b & Hb & _).
  exists a, (reverse b). rewrite Ha at 1. f_equal.
  apply (f_equal reverse) in Hb. rewrite reverse_involutive, reverse_app in Hb. exact Hb.
Qed.

Lemma replace_id p q s : ¬ infix p s → replace p q s = s.
Proof.
  intros Hn. unfold replace. destruct (length s); [done|]. simpl.
  by rewrite (proj2 (split_at_first_none p s) Hn).
Qed.

Lemma find_spec p s i :
  find p s = Some i → ∃ a b, split_at_first p s = Some (a, b) ∧ i = length a ∧ s = a ++ p ++ b.
Proof.
  unfold find. destruct (split_at_first p s) as [[a b]|] eqn:Hs; [|done]. intros [= <-].
  exists a, b. split_and!; [done|done|by apply split_at_first_spec].
Qed.

Lemma find_none p s : find p s = None ↔ ¬ infix p s.
Proof.
  rewrite <- split_at_first_none. unfold find. by destruct (split_at_first p s).
Qed.

Lemma rfind_short p s : (length s < length p)%nat → rfind p s = None.
Proof.
  induction s as [|c s IH]; simpl; intros Hl; [destruct p; [simpl in Hl; lia|done]|].
  rewrite IH by lia. destruct (strip_prefix p (c :: s)) as [r|] eqn:Hp; [|done].
  apply strip_prefix_spec in Hp. apply (f_equal length) in Hp. rewrite length_app in Hp. simpl in Hp. lia.
Qed.

(** The last occurrence is the one at the very end. *)
Lemma rfind_end p x : p ≠ [] → rfind p (x ++ p) = Some (length x).
Proof.
  intros Hp. induction x as [|c x IH]; [|simpl; by rewrite IH].
  destruct p as [|c p]; [done|]. cbn [app rfind length]. rewrite rfind_short by (simpl; lia).
  assert (Hs : strip_prefix (c :: p) (c :: p) = Some []) by (apply strip_prefix_spec; by rewrite app_nil_r).
  by rewrite Hs.
Qed.

Lemma trim_start_length s : (length (trim_start s) ≤ length s)%nat.
Proof. destruct (trim_start_suffix s) as (ws & Hs & _). rewrite Hs at 2. rewrite length_app. lia. Qed.

Lemma trim_end_id s c : last s = Some c → is_whitespace c = false → trim_end s = s.
Proof.
  intros (s' & ->)%last_Some Hc. unfold trim_end. rewrite reverse_app. simpl. rewrite Hc.
  by rewrite <- (reverse_involutive (s' ++ [c])), reverse_app.
Qed.

Lemma trimmed_last s c : trim s = s → last s = Some c → is_whitespace c = false.
Proof.
  intros Ht (s' & ->)%last_Some. destruct (is_whitespace c) eqn:Hc; [exfalso|done].
  apply (f_equal length) in Ht. unfold trim, trim_end in Ht. rewrite length_reverse in Ht.
  destruct (trim_start_suffix (s' ++ [c])) as (ws & Hs & _).
  pose proof (trim_start_length (s' ++ [c])) as Hle.
  destruct (trim_start (s' ++ [c])) as [|d t _] using rev_ind; [rewrite length_app in Ht; simpl in Ht; lia|].
  rewrite app_assoc in Hs. apply app_inj_tail in Hs as [_ <-].
  rewrite reverse_app in Ht. simpl in Ht. rewrite Hc in Ht.
  pose proof (trim_start_length (reverse t)) as Hlt. rewrite length_reverse in Hlt.
  rewrite !length_app in *. simpl in *. lia.
Qed.

(** A string that ends where it may first occur. *)
Lemma split_at_first_fresh p b t :
  p ≠ [] → ¬ infix p (b ++ removelast p) → split_at_first p (b ++ p ++ t) = Some (b, t).
Proof.
  intros Hp Hb. rewrite app_assoc.
  assert (H1 : split_at_first p (b ++ p) = Some (b, [])).
  { destruct (split_at_first p (b ++ p)) as [[x y]|] eqn:Hs.
    - pose proof (split_at_first_spec _ _ _ _ Hs) as Heq.
      destruct y as [|c y _] using rev_ind.
      + rewrite app_nil_r in Heq. by apply app_inv_tail in Heq as ->.
      + exfalso. apply Hb. exists x, y. apply (f_equal (@removelast rchar)) in Heq.
        rewrite removelast_app in Heq by done. rewrite Heq, !app_assoc. by rewrite removelast_last.
    - exfalso. apply split_at_first_none in Hs. apply Hs. exists b, []. by rewrite app_nil_r. }
  by apply (split_at_first_app _ _ t) in H1.
Qed.

(** An occurrence of a string with its first character only once does not
    straddle that character either. *)
Lemma infix_break_head c (p x y : rstr) :
  c ∉ p → infix (c :: p) (x ++ c :: y) → infix (c :: p) x ∨ infix (c :: p) (c :: y).
Proof.
  intros Hc (a & b & Heq). destruct (app_eq_inv _ _ _ _ Heq) as [(k & -> & Hk)|(k & -> & Hk)];
    [|right; by exists k, b].
  destruct (app_eq_inv _ _ _ _ Hk) as [(k' & Hp & Hy)|(k' & -> & _)]; [|left; by exists a, k'].
  destruct k' as [|c' k'].
  - left. exists a, []. rewrite app_nil_r in Hp. by rewrite <- Hp, app_nil_r.
  - simpl in Hy. injection Hy as <- ->. right.
    destruct k as [|d k]; simplify_eq/=; [by exists [], b|set_solver].
Qed.

Lemma trim_start_nil_inv s : trim_start s = [] → Forall (λ c, is_whitespace c = true) s.
Proof. destruct (trim_start_suffix s) as (ws & Hs & Hws). intros H.
  rewrite H, app_nil_r in Hs. by subst. Qed.

Lemma trim_nil_inv s : trim s = [] → Forall (λ c, is_whitespace c = true) s.
Proof.
  unfold trim, trim_end. intros H%(f_equal reverse). rewrite reverse_involutive in H.
  apply trim_start_nil_inv in H. rewrite Forall_reverse in H.
  destruct (trim_start_suffix s) as (ws & Hs & Hws). rewrite Hs. apply Forall_app. split; [exact Hws|exact H].
Qed.

(** * Neutralising tags

    Text that must not close or open a frame gets a zero-width space after the
    first character of every tag; the tags are given by what follows their
    [<], and replaced one after the other. *)

Definition LT : rchar := 60.
Definition ZWSP : rchar := 8203.
Definition control_token (tl : rstr) : rstr := LT :: tl.
Definition defused_token (tl : rstr) : rstr := LT :: ZWSP :: tl.

Definition neutralize_tags (tails : list rstr) (text : rstr) : rstr :=
  fold_left (λ t tl, replace (control_token tl) (defused_token tl) t) tails text.

Definition tail_ok (tl : rstr) : Prop := (LT ∉ tl) ∧ (ZWSP ∉ tl) ∧ tl ≠ [].

Lemma defuse_no_new tl tl2 s :
  tail_ok tl2 → ¬ infix (control_token tl2) s →
  ¬ infix (control_token tl2) (replace (control_token tl) (defused_token tl) s).
Proof.
  intros (_ & Hz & _) Hs Hi. apply Hs. apply (replace_no_new (control_token tl) (defused_token tl) _ (length s) []);
    [|exact Hi].
  intros x y. unfold defused_token, control_token.
  replace (x ++ (LT :: ZWSP :: tl) ++ y) with ((x ++ [LT]) ++ ZWSP :: tl ++ y) by by rewrite <- app_assoc.
  replace (x ++ (LT :: tl) ++ y) with ((x ++ [LT]) ++ tl ++ y) by by rewrite <- app_assoc.
  intros [Hl|Hr]%infix_break; [by apply infix_app_l|by apply infix_app_r|].
  apply not_elem_of_cons. split; [discriminate|done].
Qed.

Lemma neutralize_tags_fold tails s tl :
  Forall tail_ok tails → tail_ok tl →
  (tl ∈ tails ∨ ¬ infix (control_token tl) s) → ¬ infix (control_token tl) (neutralize_tags tails s).
Proof.
  unfold neutralize_tags. intros Hall Htl. revert s. induction Hall as [|tl' tails Htl' _ IH]; intros s Hor; simpl.
  - destruct Hor as [?%elem_of_nil|]; done.
  - apply IH. destruct Hor as [[->|Hin]%elem_of_cons|Hno]; [|by left|right; by apply defuse_no_new].
    right. destruct Htl' as (Hlt & Hz & Hne). by apply replace_defuses.
Qed.

Lemma neutralize_tags_clean tails s tl :
  Forall tail_ok tails → tl ∈ tails → ¬ infix (control_token tl) (neutralize_tags tails s).
Proof.
  intros Hall Hin. apply neutralize_tags_fold; [done| |by left]. by eapply Forall_forall in Hall.
Qed.

Lemma neutralize_tags_id tails s :
  (∀ tl, tl ∈ tails → ¬ infix (control_token tl) s) → neutralize_tags tails s = s.
Proof.
  unfold neutralize_tags. revert s. induction tails as [|tl tails IH]; intros s Hno; simpl; [done|].
  rewrite replace_id by (apply Hno; by left). apply IH. intros tl' Hin. apply Hno. by right.
Qed.

(** What stands before any occurrence of a string stays. *)
Lemma replace_keeps_prefix c p q pre s : c ∉ pre → ∃ t, replace (c :: p) q (pre ++ s) = pre ++ t.
Proof.
  intros Hc. unfold replace. destruct (length (pre ++ s)) as [|n]; cbn [replace_fuel]; [by eexists|].
  destruct (split_at_first (c :: p) (pre ++ s)) as [[a b]|] eqn:E; [|by eexists].
  apply split_at_first_spec in E. destruct (app_eq_inv _ _ _ _ E) as [(k & -> & Hk)|(k & -> & _)];
    [|rewrite <- app_assoc; by eexists].
  destruct k as [|d k]; [rewrite app_nil_r in *; by eexists|].
  cbn [app] in Hk. injection Hk as <- _. set_solver.
Qed.

Lemma trim_ends s a b : head s = Some a → is_whitespace a = false → last s = Some b → is_whitespace b = false → trim s = s.
Proof.
  intros Ha Hwa Hb Hwb. unfold trim. assert (trim_start s = s) as ->; [|by eapply trim_end_id].
  destruct s as [|c s]; [done|]. injection Ha as ->. cbn. by rewrite Hwa.
Qed.

(** Reading the lines of a text undoes writing them, when none ends in a
    carriage return and the last one is not empty. *)
Lemma unterminated_lines ls :
  Forall (λ l, last l ≠ Some 13) ls → last ls ≠ Some [] → unterminated ls = ls.
Proof.
  induction 1 as [|l ls Hl _ IH]; intros Hlast; [done|]. destruct ls as [|l' ls].
  - simpl in *. by destruct l.
  - assert (unterminated (l' :: ls) = l' :: ls) as IH' by (by apply IH).
    change (unterminated (l :: l' :: ls)) with
      ((match last l with Some c => if c =? 13 then removelast l else l | None => l end) :: unterminated (l' :: ls)).
    rewrite IH'. f_equal. destruct (last l) as [c|]; [|done]. destruct (Z.eqb_spec c 13) as [->|]; done.
Qed.

Lemma lines_join ls :
  ls ≠ [] → Forall (λ l, (10 ∉ l) ∧ last l ≠ Some 13) ls → last ls ≠ Some [] → lines (join [10] ls) = ls.
Proof.
  intros Hne Hls Hlast. unfold lines. rewrite split_join; [|done|].
  - apply unterminated_lines; [|done]. eapply Forall_impl; [exact Hls|]. by intros l [].
  - eapply Forall_impl; [exact Hls|]. intros l [Hl _]. apply Forall_forall. intros c Hc ->. done.
Qed.

(** ** [replace], one occurrence or one character at a time *)

Lemma replace_eq p q s :
  p ≠ [] →
  replace p q s = match split_at_first p s with Some (b, a) => b ++ q ++ replace p q a | None => s end.
Proof.
  intros Hp.
  assert (∀ n m s, (length s ≤ n)%nat → (length s ≤ m)%nat → replace_fuel n p q s = replace_fuel m p q s) as Hf.
  { induction n as [|n IH]; intros m t Hn Hm.
    - destruct t; [|cbn in Hn; lia]. destruct m; [done|]. cbn. by destruct p.
    - destruct m as [|m].
      + destruct t; [|cbn in Hm; lia]. cbn. by destruct p.
      + cbn [replace_fuel]. destruct (split_at_first p t) as [[b a]|] eqn:E; [|done]. do 2 f_equal.
        apply split_at_first_spec, (f_equal length) in E. rewrite !length_app in E.
        assert (length p ≠ 0)%nat by (by intros ?%nil_length_inv). apply IH; lia. }
  unfold replace at 1. destruct (length s) as [|n] eqn:Hn.
  - apply nil_length_inv in Hn as ->. by destruct p.
  - cbn [replace_fuel]. destruct (split_at_first p s) as [[b a]|] eqn:E; [|done]. do 2 f_equal.
    apply split_at_first_spec, (f_equal length) in E. rewrite !length_app in E.
    assert (length p ≠ 0)%nat by (by intros ?%nil_length_inv). apply Hf; lia.
Qed.

Lemma replace_step p q c s :
  p ≠ [] → replace p q (c :: s) = match strip_prefix p (c :: s) with Some r => q ++ replace p q r | None => c :: replace p q s end.
Proof.
  intros Hp. rewrite !(replace_eq p q) by done. cbn [split_at_first].
  destruct (strip_prefix p (c :: s)) as [r|]; [by rewrite (replace_eq p q r)|]. by destruct (split_at_first p s) as [[b a]|].
Qed.

(** ** Order *)

(** [String]'s order: that of the bytes, which is that of the characters. *)
Fixpoint str_leb (x y : rstr) : bool :=
  match x, y with
  | [], _ => true
  | _ :: _, [] => false
  | a :: x', b :: y' => if a =? b then str_leb x' y' else a <? b
  end.

Definition str_le (x y : rstr) : Prop := str_leb x y = true.

#[global] Instance str_le_dec : RelDecision str_le.
Proof. intros x y. unfold str_le. apply _. Defined.

Lemma str_leb_refl x : str_leb x x = true.
Proof. induction x as [|a x IH]; [done|]. cbn. by rewrite Z.eqb_refl. Qed.

#[global] Instance str_le_total : Total str_le.
Proof.
  intros x. unfold str_le. induction x as [|a x IH]; intros [|b y]; [by left|by left|by right|].
  cbn. destruct (Z.eqb_spec a b) as [-> |Hab]; [rewrite Z.eqb_refl; apply IH|].
  destruct (Z.eqb_spec b a) as [?|_]; [congruence|]. rewrite !Z.ltb_lt. lia.
Qed.

#[global] Instance str_le_trans : Transitive str_le.
Proof.
  intros x. unfold str_le. induction x as [|a x IH]; intros [|b y] [|c z] Hxy Hyz; cbn in *; try done.
  destruct (Z.eqb_spec a b), (Z.eqb_spec b c), (Z.eqb_spec a c);
    rewrite ?Z.ltb_lt in *; subst; try lia; eauto.
Qed.

#[global] Instance str_le_antisymm : AntiSymm eq str_le.
Proof.
  intros x. unfold str_le. induction x as [|a x IH]; intros [|b y] Hxy Hyx; cbn in *; try done.
  destruct (Z.eqb_spec a b) as [-> |Hab].
  - rewrite Z.eqb_refl in Hyx. f_equal. by apply IH.
  - destruct (Z.eqb_spec b a) as [?|_]; [congruence|]. rewrite !Z.ltb_lt in *. lia.
Qed.
