(* ===== verification/Truncate.v ===== *)
(** Cutting text to a budget
    (src/crates/codegen/intellihelper-tools/src/util/truncate.rs).

    Budgets count bytes or characters, and a cut never falls inside a
    character.  The size of a file in a readable form, which divides floating
    point numbers, is left out. *)
From S2P Require Import Prelude Str.

(** * Bytes and characters *)

(** The characters that end within the first [n] bytes: [&s[..n]] when [n] is a
    boundary. *)
Fixpoint byte_prefix (n : Z) (s : rstr) : rstr :=
  match s with
  | [] => []
  | c :: s' => if len_utf8 c <=? n then c :: byte_prefix (n - len_utf8 c) s' else []
  end.

(** [str::is_char_boundary]. *)
Fixpoint is_char_boundary (i : Z) (s : rstr) : bool :=
  (i =? 0) || match s with [] => false | c :: s => is_char_boundary (i - len_utf8 c) s end.

(** [while !s.is_char_boundary(end) { end -= 1; }]; 0 is a boundary. *)
Fixpoint step_back (fuel : nat) (s : rstr) (end_ : Z) : Z :=
  match fuel with
  | O => end_
  | S fuel => if is_char_boundary end_ s then end_ else step_back fuel s (end_ - 1)
  end.

Fixpoint step_forward (fuel : nat) (s : rstr) (i : Z) : Z :=
  match fuel with
  | O => i
  | S fuel => if is_char_boundary i s then i else step_forward fuel s (i + 1)
  end.

Definition floor_char_boundary (s : rstr) (index : Z) : Z :=
  if byte_len s <=? index then byte_len s else step_back (Z.to_nat index) s index.

Definition ceil_char_boundary (s : rstr) (index : Z) : Z :=
  if byte_len s <=? index then byte_len s else step_forward (Z.to_nat (byte_len s - index)) s index.

(** * Cuts *)

Definition TRUNCATION_MARKER : rstr := [8230].

Definition truncate_str (s : rstr) (max_bytes : Z) : rstr :=
  if byte_len s <=? max_bytes then s else byte_prefix (step_back (Z.to_nat max_bytes) s max_bytes) s.

Definition truncate_str_with_marker (s : rstr) (max_bytes : Z) : rstr :=
  if byte_len s <=? max_bytes then s
  else if max_bytes <? byte_len TRUNCATION_MARKER then truncate_str s max_bytes
  else
    let end_ := max_bytes - byte_len TRUNCATION_MARKER in
    byte_prefix (step_back (Z.to_nat end_) s end_) s ++ TRUNCATION_MARKER.

Definition truncate_line (line : rstr) (max_chars : nat) : rstr :=
  if byte_len line <=? Z.of_nat max_chars then line
  else if (length line <=? max_chars)%nat then line
  else take max_chars line ++ lit " [... truncated (" ++ fmt_dec (char_count line) ++ lit " chars total)]".

(** The characters behind [on_line] of them on the current line. *)
Fixpoint wrap_chars (wrap_width on_line : nat) (s : rstr) : rstr :=
  match s with
  | [] => []
  | c :: s =>
      if (wrap_width <=? on_line)%nat then 10 :: c :: wrap_chars wrap_width 1 s else c :: wrap_chars wrap_width (S on_line) s
  end.

(** A width of 0 divides by zero when the line is not empty. *)
Definition soft_wrap_line (line : rstr) (wrap_width : nat) : option rstr :=
  if byte_len line <=? Z.of_nat wrap_width then Some line
  else if (length line <=? wrap_width)%nat then Some line
  else match wrap_width with O => None | _ => Some (wrap_chars wrap_width 0 line) end.

Definition soft_wrap_lines (text : rstr) (wrap_width : nat) : option rstr :=
  wrapped ← mapM (λ line, soft_wrap_line line wrap_width) (lines text);
  Some (join [10] wrapped ++ (if ends_with [10] text && negb (is_empty text) then [10] else [])).

(** Text on hand of an output of [total_bytes]. *)
Record PartialOutput : Type := mkPartial { po_text : rstr; total_bytes : Z }.
Definition whole_output (text : rstr) : PartialOutput := mkPartial text (byte_len text).
Definition part_of (text : rstr) (total : Z) : PartialOutput := mkPartial text (Z.max total (byte_len text)).

Definition truncate_with_preview (output : PartialOutput) (max_bytes preview_bytes : Z) (footer_hint : option rstr) : rstr * bool :=
  let text := po_text output in
  if (total_bytes output <=? byte_len text) && (byte_len text <=? max_bytes) then (text, false)
  else
    let footer :=
      lit "[Output truncated - " ++ fmt_dec (total_bytes output) ++ lit " bytes total"
      ++ match footer_hint with Some hint => lit ". " ++ hint ++ lit "]" | None => lit "]" end in
    if byte_len text <=? max_bytes then (text ++ [10; 10] ++ footer, true)
    else (truncate_str text (Z.min preview_bytes (byte_len text)) ++ [10; 10] ++ footer, true).

(** [char_indices().nth(n)], and the start of the text when there is none:
    [&s[..]] from it. *)
Definition from_nth_char (n : nat) (s : rstr) : rstr := if (n <? length s)%nat then drop n s else s.

Definition FRONT_BACK_TRUNCATION_MARKER : rstr := [10; 10] ++ lit "... (output truncated) ..." ++ [10; 10].

Definition truncate_front_and_back (s : rstr) (max_chars : nat) : rstr * bool :=
  if byte_len s <=? Z.of_nat max_chars then (s, false)
  else
    let half := (max_chars / 2)%nat in
    let back := if (length s <=? half)%nat then s else from_nth_char (length s - half) s in
    (take half s ++ FRONT_BACK_TRUNCATION_MARKER ++ back, true).

Definition truncate_middle (s : rstr) (max_chars : nat) : rstr :=
  if (length s <=? max_chars)%nat then s
  else
    let remaining := (max_chars - 3)%nat in
    let front_count := (remaining / 2)%nat in
    let back_count := (remaining - front_count)%nat in
    let back := if (length s <=? back_count)%nat then s else from_nth_char (length s - back_count) s in
    take front_count s ++ lit "..." ++ back.

(** What stands before the last line feed. *)
Fixpoint before_last_newline (s : rstr) : option rstr :=
  match s with
  | [] => None
  | c :: s =>
      match before_last_newline s with
      | Some before => Some (c :: before)
      | None => if c =? 10 then Some [] else None
      end
  end.

Definition truncate_lines_to_char_budget (content : rstr) (budget : Z) : rstr * bool :=
  let trimmed := trim content in
  if byte_len trimmed <=? budget then (trimmed, false)
  else
    let byte_end := Z.min budget (byte_len trimmed) in
    match before_last_newline (byte_prefix (step_back (Z.to_nat byte_end) trimmed byte_end) trimmed) with
    | Some before => (trim before, true)
    | None => (lit "... [First line would be too large to fit within character budget] ...", true)
    end.

(** * Facts *)

Lemma byte_prefix_len n s : 0 ≤ n → byte_len (byte_prefix n s) ≤ n.
Proof.
  revert n; induction s as [|c s IH]; intros n Hn; simpl; [lia|].
  case_match eqn:E; [|simpl; lia]. rewrite byte_len_cons. specialize (IH (n - len_utf8 c)). lia.
Qed.

Lemma byte_prefix_prefix n s : byte_prefix n s `prefix_of` s.
Proof.
  revert n; induction s as [|c s IH]; intros n; simpl; [done|].
  case_match; [by apply prefix_cons|apply prefix_nil].
Qed.

(** No longer prefix fits. *)
Lemma byte_prefix_longest n s p : p `prefix_of` s → byte_len p ≤ n → p `prefix_of` byte_prefix n s.
Proof.
  revert n p; induction s as [|c s IH]; intros n p Hp Hn.
  - by apply prefix_nil_inv in Hp as ->.
  - destruct p as [|d p]; [apply prefix_nil|]. apply prefix_cons_inv_1 in Hp as Hd; subst d.
    apply prefix_cons_inv_2 in Hp. rewrite byte_len_cons in Hn. pose proof (byte_len_nonneg p). simpl.
    rewrite (proj2 (Z.leb_le _ _)); [|lia]. apply prefix_cons, IH; [done|lia].
Qed.

Lemma boundary_prefix i s : is_char_boundary i s = true ↔ ∃ p, p `prefix_of` s ∧ byte_len p = i.
Proof.
  revert i; induction s as [|c s IH]; intros i; simpl.
  - rewrite orb_false_r, Z.eqb_eq. split; [intros ->; by exists []|].
    intros (p & Hp & <-). by apply prefix_nil_inv in Hp as ->.
  - rewrite orb_true_iff, Z.eqb_eq, IH. split.
    + intros [->|(p & Hp & Hl)]; [exists []; split; [apply prefix_nil|done]|].
      exists (c :: p). split; [by apply prefix_cons|]. rewrite byte_len_cons. lia.
    + intros ([|d p] & Hp & <-); [by left|right].
      apply prefix_cons_inv_1 in Hp as Hd; subst d. apply prefix_cons_inv_2 in Hp.
      exists p. split; [done|]. rewrite byte_len_cons. lia.
Qed.

(** Stepping back finds the end of the longest prefix that fits. *)
Lemma step_back_spec fuel s i : 0 ≤ i ≤ Z.of_nat fuel → step_back fuel s i = byte_len (byte_prefix i s).
Proof.
  revert i; induction fuel as [|fuel IH]; intros i Hi; simpl.
  - replace i with 0 by lia. pose proof (byte_prefix_len 0 s ltac:(lia)). pose proof (byte_len_nonneg (byte_prefix 0 s)). lia.
  - pose proof (byte_prefix_len i s ltac:(lia)) as Hlen. case_match eqn:E.
    + apply boundary_prefix in E as (p & Hp & Hl).
      pose proof (byte_prefix_longest i s p Hp ltac:(lia)) as [k Hk]. rewrite Hk, byte_len_app in *.
      pose proof (byte_len_nonneg k). lia.
    + assert (byte_len (byte_prefix i s) ≠ i) as Hne.
      { intros Hl. rewrite <- not_true_iff_false, boundary_prefix in E. apply E. eauto using byte_prefix_prefix. }
      assert (i ≠ 0) as H0. { intros ->. by destruct s. }
      rewrite IH by lia. f_equal.
      pose proof (byte_prefix_longest (i - 1) s _ (byte_prefix_prefix i s) ltac:(lia)) as H1.
      pose proof (byte_prefix_longest i s _ (byte_prefix_prefix (i - 1) s)) as H2.
      pose proof (byte_prefix_len (i - 1) s ltac:(lia)).
      apply (anti_symm prefix); [apply H2; lia|done].
Qed.

Lemma byte_prefix_again n s : 0 ≤ n → byte_prefix (byte_len (byte_prefix n s)) s = byte_prefix n s.
Proof.
  intros Hn. pose proof (byte_prefix_len n s Hn). pose proof (byte_len_nonneg (byte_prefix n s)) as H0.
  pose proof (byte_prefix_len _ s H0).
  apply (anti_symm prefix); apply byte_prefix_longest; eauto using byte_prefix_prefix; lia.
Qed.

Lemma byte_prefix_all n s : byte_len s ≤ n → byte_prefix n s = s.
Proof. intros Hn. apply (anti_symm prefix); [apply byte_prefix_prefix|by apply byte_prefix_longest]. Qed.

Lemma cut_at_step_back n s : 0 ≤ n → byte_prefix (step_back (Z.to_nat n) s n) s = byte_prefix n s.
Proof. intros Hn. rewrite step_back_spec by lia. by apply byte_prefix_again. Qed.

Lemma truncate_str_prefix s n : 0 ≤ n → truncate_str s n = byte_prefix n s.
Proof.
  intros Hn. unfold truncate_str. case_match eqn:E; [|by apply cut_at_step_back].
  symmetry. apply byte_prefix_all. lia.
Qed.

(** * Bounds *)

(** [truncate_str_with_marker] keeps its budget, and no more is lost than it
    must: a text within the budget is returned as it is; another is cut to its
    longest prefix, in whole characters, that leaves room for the marker behind
    it; below the size of the marker the longest prefix that fits is returned
    bare.  [truncate_with_preview] returns the text as it is only when the text
    is whole and within the limit, and otherwise says so with the size of the
    whole output. *)
Theorem truncate_within_budget s n : 0 ≤ n →
  let kept room r := r `prefix_of` s ∧ byte_len r ≤ room ∧ ∀ p, p `prefix_of` s → byte_len p ≤ room → p `prefix_of` r in
  byte_len (truncate_str_with_marker s n) ≤ n
  ∧ (byte_len s ≤ n → truncate_str_with_marker s n = s)
  ∧ (n < byte_len s →
       if n <? 3 then kept n (truncate_str_with_marker s n)
       else ∃ r, kept (n - 3) r ∧ truncate_str_with_marker s n = r ++ TRUNCATION_MARKER)
  ∧ ∀ total preview hint,
      let r := truncate_with_preview (mkPartial s total) n preview hint in
      (r.2 = false ↔ total ≤ byte_len s ∧ byte_len s ≤ n)
      ∧ (r.2 = false → r.1 = s)
      ∧ (r.2 = true → ∃ shown rest, shown `prefix_of` s
           ∧ r.1 = shown ++ [10; 10] ++ lit "[Output truncated - " ++ fmt_dec total ++ rest).
Proof.
  intros Hn kept. unfold truncate_str_with_marker. change (byte_len TRUNCATION_MARKER) with 3.
  assert (∀ m, 0 ≤ m → kept m (byte_prefix m s)) as Hkept.
  { intros m Hm. split; [apply byte_prefix_prefix|]. split; [by apply byte_prefix_len|intros; by apply byte_prefix_longest]. }
  assert (n < byte_len s → 3 ≤ n → byte_len (byte_prefix (n - 3) s ++ TRUNCATION_MARKER) ≤ n) as Hlen.
  { intros _ H3. rewrite byte_len_app. change (byte_len TRUNCATION_MARKER) with 3.
    pose proof (byte_prefix_len (n - 3) s). lia. }
  split; [|split; [|split]].
  - case_match eqn:E; [lia|]. case_match eqn:E3.
    + rewrite truncate_str_prefix by done. by apply byte_prefix_len.
    + rewrite cut_at_step_back by lia. apply Hlen; lia.
  - intros Hs. by rewrite (proj2 (Z.leb_le _ _)).
  - intros Hs. rewrite (proj2 (Z.leb_gt _ _)) by lia. case_match eqn:E3.
    + rewrite truncate_str_prefix by done. by apply Hkept.
    + exists (byte_prefix (n - 3) s). split; [apply Hkept; lia|]. by rewrite cut_at_step_back by lia.
  - intros total preview hint. unfold truncate_with_preview. simpl.
    assert (∀ footer shown, shown `prefix_of` s → ∃ shown' rest, shown' `prefix_of` s ∧
      shown ++ [10; 10] ++ lit "[Output truncated - " ++ fmt_dec total ++ footer
      = shown' ++ [10; 10] ++ lit "[Output truncated - " ++ fmt_dec total ++ rest) as Hcut by eauto.
    assert (truncate_str s (Z.min preview (byte_len s)) `prefix_of` s) as Hpre
      by (unfold truncate_str; case_match; [done|apply byte_prefix_prefix]).
    destruct (total <=? byte_len s) eqn:Et, (byte_len s <=? n) eqn:Es; simpl;
      (split; [split; [intros H|intros [? ?]]; first [done | discriminate | lia | (split; lia)]|]);
      (split; [intros H; first [done | discriminate]|intros H]); first [discriminate | by apply Hcut].
Qed.

Lemma truncate_within_budget_witness :
  0 ≤ 7 ∧ truncate_str_with_marker (lit "abcdefgh") 7 = lit "abcd" ++ [8230]
  ∧ byte_len (truncate_str_with_marker (lit "abcdefgh") 7) ≤ 7.
Proof.
  split; [lia|]. split; [vm_compute; reflexivity|]. apply (truncate_within_budget (lit "abcdefgh") 7); lia.
Defined.

(** ** Where the budget of characters is not kept *)

(** Nothing is dropped below a budget of four characters, and the result is
    longer than the text. *)
Lemma truncate_middle_grows s n : (n ≤ 3)%nat → (n < length s)%nat → truncate_middle s n = lit "..." ++ s.
Proof.
  intros Hn Hs. unfold truncate_middle, from_nth_char. rewrite (proj2 (Nat.leb_gt _ _)) by lia.
  replace (n - 3)%nat with 0%nat by lia. change (0 / 2)%nat with 0%nat. change (0 - 0)%nat with 0%nat.
  rewrite (proj2 (Nat.leb_gt _ _)), Nat.sub_0_r by lia. by rewrite Nat.ltb_irrefl.
Qed.

(** The budget is compared with bytes and spent in characters: text of more
    bytes than characters is shown twice. *)
Lemma front_and_back_repeats :
  truncate_front_and_back [8364; 8364; 8364; 97] 8 = ([8364; 8364; 8364; 97] ++ FRONT_BACK_TRUNCATION_MARKER ++ [8364; 8364; 8364; 97], true).
Proof. vm_compute. reflexivity. Qed.
