(* ===== verification/Utf8.v ===== *)
(** Bytes of UTF-8 text: [String::from_utf8_lossy] of the Standard Library of
    Rust, which every capped read of a file goes through, and its inverse on
    text.  A byte is an integer from 0 to 255. *)
From S2P Require Import Prelude Str.

Definition REPLACEMENT : rchar := 65533.

Definition is_cont (b : Z) : bool := (128 <=? b) && (b <? 192).

(** [utf8_char_width]: 0 of a byte that starts no character. *)
Definition char_width (b : Z) : Z :=
  if b <? 128 then 1 else if (194 <=? b) && (b <? 224) then 2
  else if (224 <=? b) && (b <? 240) then 3 else if (240 <=? b) && (b <? 245) then 4 else 0.

(** The second byte that may follow the first of three or of four: no overlong
    form, no surrogate, nothing above U+10FFFF. *)
Definition second_of_3 (b0 b1 : Z) : bool :=
  if b0 =? 224 then (160 <=? b1) && (b1 <? 192)
  else if b0 =? 237 then (128 <=? b1) && (b1 <? 160) else is_cont b1.
Definition second_of_4 (b0 b1 : Z) : bool :=
  if b0 =? 240 then (144 <=? b1) && (b1 <? 192)
  else if b0 =? 244 then (128 <=? b1) && (b1 <? 144) else is_cont b1.

(** Each longest beginning of a character that does not go on as one becomes
    one replacement character. *)
Fixpoint from_utf8_lossy (bs : list Z) : rstr :=
  match bs with
  | [] => []
  | b0 :: r0 =>
      if char_width b0 =? 1 then b0 :: from_utf8_lossy r0
      else if char_width b0 =? 2 then
        match r0 with
        | b1 :: r1 =>
            if is_cont b1 then ((b0 - 192) * 64 + (b1 - 128)) :: from_utf8_lossy r1 else REPLACEMENT :: from_utf8_lossy r0
        | [] => REPLACEMENT :: from_utf8_lossy r0
        end
      else if char_width b0 =? 3 then
        match r0 with
        | b1 :: r1 =>
            if second_of_3 b0 b1 then
              match r1 with
              | b2 :: r2 =>
                  if is_cont b2
                  then ((b0 - 224) * 4096 + (b1 - 128) * 64 + (b2 - 128)) :: from_utf8_lossy r2
                  else REPLACEMENT :: from_utf8_lossy r1
              | [] => REPLACEMENT :: from_utf8_lossy r1
              end
            else REPLACEMENT :: from_utf8_lossy r0
        | [] => REPLACEMENT :: from_utf8_lossy r0
        end
      else if char_width b0 =? 4 then
        match r0 with
        | b1 :: r1 =>
            if second_of_4 b0 b1 then
              match r1 with
              | b2 :: r2 =>
                  if is_cont b2 then
                    match r2 with
                    | b3 :: r3 =>
                        if is_cont b3
                        then ((b0 - 240) * 262144 + (b1 - 128) * 4096 + (b2 - 128) * 64 + (b3 - 128))
                             :: from_utf8_lossy r3
                        else REPLACEMENT :: from_utf8_lossy r2
                    | [] => REPLACEMENT :: from_utf8_lossy r2
                    end
                  else REPLACEMENT :: from_utf8_lossy r1
              | [] => REPLACEMENT :: from_utf8_lossy r1
              end
            else REPLACEMENT :: from_utf8_lossy r0
        | [] => REPLACEMENT :: from_utf8_lossy r0
        end
      else REPLACEMENT :: from_utf8_lossy r0
  end.

(** [char::encode_utf8], and the bytes of a string. *)
Definition encode_char (c : rchar) : list Z :=
  if c <? 128 then [c]
  else if c <? 2048 then [192 + c / 64; 128 + c mod 64]
  else if c <? 65536 then [224 + c / 4096; 128 + (c / 64) mod 64; 128 + c mod 64]
  else [240 + c / 262144; 128 + (c / 4096) mod 64; 128 + (c / 64) mod 64; 128 + c mod 64].
Definition as_bytes (s : rstr) : list Z := s ≫= encode_char.

(** A Unicode scalar value: what a [char] of Rust is. *)
Definition scalar (c : rchar) : Prop := 0 ≤ c < 55296 ∨ 57344 ≤ c < 1114112.

Lemma encode_char_length c : zlen (encode_char c) = len_utf8 c.
Proof. unfold encode_char, len_utf8. repeat case_match; done || lia. Qed.

Lemma as_bytes_length s : zlen (as_bytes s) = byte_len s.
Proof.
  induction s as [|c s IH]; [done|]. unfold as_bytes in *. rewrite bind_cons, zlen_app, IH, encode_char_length. done.
Qed.

Lemma is_cont_mod x : is_cont (128 + x mod 64) = true.
Proof. unfold is_cont. pose proof (Z.mod_pos_bound x 64). lia. Qed.

(** Two and three digits to the base 64. *)
Lemma digits_64 c : c / 64 * 64 + c mod 64 = c.
Proof. pose proof (Z.div_mod c 64). lia. Qed.

Lemma digits_4096 c : c / 4096 * 4096 + (c / 64) mod 64 * 64 + c mod 64 = c.
Proof. Z.to_euclidean_division_equations. lia. Qed.

Lemma digits_262144 c : c / 262144 * 262144 + (c / 4096) mod 64 * 4096 + (c / 64) mod 64 * 64 + c mod 64 = c.
Proof. Z.to_euclidean_division_equations. lia. Qed.

(** What the first bytes of a character are. *)
Lemma lead_2 c : 128 ≤ c < 2048 → char_width (192 + c / 64) = 2.
Proof. intros Hc. unfold char_width. repeat case_match; Z.to_euclidean_division_equations; lia. Qed.

Lemma lead_3 c : 2048 ≤ c < 65536 → char_width (224 + c / 4096) = 3.
Proof. intros Hc. unfold char_width. repeat case_match; Z.to_euclidean_division_equations; lia. Qed.

Lemma lead_4 c : 65536 ≤ c < 1114112 → char_width (240 + c / 262144) = 4.
Proof. intros Hc. unfold char_width. repeat case_match; Z.to_euclidean_division_equations; lia. Qed.

Lemma follow_3 c : 2048 ≤ c < 65536 → scalar c → second_of_3 (224 + c / 4096) (128 + (c / 64) mod 64) = true.
Proof.
  intros Hc Hs. unfold scalar, second_of_3 in *. rewrite is_cont_mod.
  repeat case_match; [| |done]; Z.to_euclidean_division_equations; lia.
Qed.

Lemma follow_4 c : 65536 ≤ c < 1114112 → second_of_4 (240 + c / 262144) (128 + (c / 4096) mod 64) = true.
Proof.
  intros Hc. unfold second_of_4. rewrite is_cont_mod.
  repeat case_match; [| |done]; Z.to_euclidean_division_equations; lia.
Qed.

Lemma lossy_encode c bs : scalar c → from_utf8_lossy (encode_char c ++ bs) = c :: from_utf8_lossy bs.
Proof.
  intros Hs. assert (0 ≤ c < 1114112) as Hr by (unfold scalar in Hs; lia). unfold encode_char.
  destruct (Z.ltb_spec c 128); [cbn; unfold char_width; by rewrite (proj2 (Z.ltb_lt c 128))|].
  destruct (Z.ltb_spec c 2048); [|destruct (Z.ltb_spec c 65536)]; cbn -[Z.add Z.mul Z.sub Z.div Z.modulo].
  - rewrite lead_2, is_cont_mod by lia. cbn -[Z.add Z.mul Z.sub Z.div Z.modulo]. f_equal.
    pose proof (digits_64 c). lia.
  - rewrite lead_3, follow_3, is_cont_mod by (done || lia). cbn -[Z.add Z.mul Z.sub Z.div Z.modulo]. f_equal.
    pose proof (digits_4096 c). lia.
  - rewrite lead_4, follow_4, !is_cont_mod by lia. cbn -[Z.add Z.mul Z.sub Z.div Z.modulo]. f_equal.
    pose proof (digits_262144 c). lia.
Qed.

(** Text is read back from its bytes. *)
Lemma lossy_as_bytes s bs : Forall scalar s → from_utf8_lossy (as_bytes s ++ bs) = s ++ from_utf8_lossy bs.
Proof.
  unfold as_bytes. induction 1 as [|c s Hc _ IH]; [done|].
  rewrite bind_cons, <- app_assoc, lossy_encode by done. cbn [app]. by rewrite IH.
Qed.

(** A line feed is never part of a longer character, so lines can be read one
    by one. *)
Lemma lossy_newline a b : from_utf8_lossy (a ++ 10 :: b) = from_utf8_lossy a ++ 10 :: from_utf8_lossy b.
Proof.
  remember (length a) as n eqn:Hn. revert a Hn. induction (lt_wf n) as [n _ IH]. intros a ->.
  assert (∀ a', (length a' < length a)%nat →
    from_utf8_lossy (a' ++ 10 :: b) = from_utf8_lossy a' ++ 10 :: from_utf8_lossy b) as IHa
    by (intros a' Ha; by apply (IH (length a'))).
  clear IH. assert (∀ b0, second_of_3 b0 10 = false) as S3 by (intros; unfold second_of_3; by repeat case_match).
  assert (∀ b0, second_of_4 b0 10 = false) as S4 by (intros; unfold second_of_4; by repeat case_match).
  destruct a as [|b0 r0]; [done|]. cbn [app from_utf8_lossy]. pose proof (IHa r0 ltac:(cbn; lia)) as I0.
  destruct (char_width b0 =? 1); [by rewrite I0|].
  destruct (char_width b0 =? 2); [|destruct (char_width b0 =? 3); [|destruct (char_width b0 =? 4); [|by rewrite I0]]].
  all: destruct r0 as [|b1 r1]; cbn [app] in *; [by rewrite ?S3, ?S4, ?I0|].
  all: pose proof (IHa r1 ltac:(cbn; lia)) as I1.
  - destruct (is_cont b1); by rewrite ?I0, ?I1.
  - destruct (second_of_3 b0 b1); [|by rewrite I0].
    destruct r1 as [|b2 r2]; cbn [app] in *; [by rewrite I1|].
    pose proof (IHa r2 ltac:(cbn; lia)) as I2. destruct (is_cont b2); by rewrite ?I1, ?I2.
  - destruct (second_of_4 b0 b1); [|by rewrite I0].
    destruct r1 as [|b2 r2]; cbn [app] in *; [by rewrite I1|].
    pose proof (IHa r2 ltac:(cbn; lia)) as I2. destruct (is_cont b2); [|by rewrite I1].
    destruct r2 as [|b3 r3]; cbn [app] in *; [by rewrite I2|].
    pose proof (IHa r3 ltac:(cbn; lia)) as I3. destruct (is_cont b3); by rewrite ?I2, ?I3.
Qed.
