(* ===== verification/Template.v ===== *)
(** Templates filled by one [str::replace] after the other.  The names of the
    slots stand in braces in the text, so a value that holds such a name would
    be replaced in its turn.  Values that cannot begin a name make the passes
    independent: the result is the template with every slot filled once. *)
From S2P Require Import Prelude Str.

Definition LBRACE : rchar := 123.
Definition RBRACE : rchar := 125.

(** A template: text, and slots by their names. *)
Inductive piece : Type := Lit (text : rstr) | Slot (name : rstr).

Definition token (name : rstr) : rstr := LBRACE :: name ++ [RBRACE].

Definition piece_text (p : piece) : rstr := match p with Lit t => t | Slot n => token n end.

Definition show (ps : list piece) : rstr := concat (piece_text <$> ps).

(** Values for names, in the order in which they are put in. *)
Definition values : Type := list (rstr * rstr).

Fixpoint value_of (σ : values) (n : rstr) : option rstr :=
  match σ with
  | [] => None
  | (m, v) :: σ => if decide (m = n) then Some v else value_of σ n
  end.

(** One pass after the other, and all the slots at once. *)
Definition replace_all (σ : values) (t : rstr) : rstr := fold_left (λ t nv, replace (token nv.1) nv.2 t) σ t.

Definition fill_piece (σ : values) (p : piece) : piece :=
  match p with
  | Lit t => Lit t
  | Slot n => match value_of σ n with Some v => Lit v | None => Slot n end
  end.

(** No tail of [t] begins [tok] or begins with it: [tok] occurs in [t ++ r]
    only where it occurs in [r]. *)
Fixpoint inertb (tok t : rstr) : bool :=
  match t with
  | [] => true
  | _ :: t' => negb (starts_with tok t || starts_with t tok) && inertb tok t'
  end.

Definition inert_for (names : list rstr) (t : rstr) : bool := forallb (λ n, inertb (token n) t) names.

(** ** One pass *)

Lemma starts_with_spec p s : starts_with p s = true ↔ ∃ r, s = p ++ r.
Proof.
  unfold starts_with. destruct (strip_prefix p s) as [r|] eqn:H.
  - apply strip_prefix_spec in H. naive_solver.
  - split; [done|]. intros (r & Hr%strip_prefix_spec). congruence.
Qed.

Lemma split_inert tok t r :
  inertb tok t = true → split_at_first tok (t ++ r) = (λ ba, (t ++ ba.1, ba.2)) <$> split_at_first tok r.
Proof.
  induction t as [|c t IH]; cbn [inertb app]; [intros _; by destruct (split_at_first tok r) as [[]|]|].
  rewrite andb_true_iff, negb_true_iff, orb_false_iff. intros ((H1 & H2) & Ht). cbn [split_at_first].
  destruct (strip_prefix tok (c :: t ++ r)) as [x|] eqn:Hp.
  - exfalso. apply (strip_prefix_spec tok (c :: t ++ r)) in Hp.
    destruct (app_eq_inv (c :: t) r tok x Hp) as [(k & Hk & _)|(k & Hk & _)].
    + apply not_true_iff_false in H1. apply H1, starts_with_spec. by exists k.
    + apply not_true_iff_false in H2. apply H2, starts_with_spec. by exists k.
  - rewrite IH by done. by destruct (split_at_first tok r) as [[]|].
Qed.

Lemma replace_inert tok v t r : tok ≠ [] → inertb tok t = true → replace tok v (t ++ r) = t ++ replace tok v r.
Proof.
  intros Htok Ht. rewrite (replace_eq _ _ (t ++ r)), (replace_eq _ _ r), split_inert by done.
  destruct (split_at_first tok r) as [[b a]|]; cbn; [|done]. by rewrite <- app_assoc.
Qed.

Lemma replace_here tok v r : tok ≠ [] → replace tok v (tok ++ r) = v ++ replace tok v r.
Proof. intros Htok. by rewrite replace_eq, split_at_first_here by done. Qed.

(** ** Inert text *)

Lemma inertb_app tok a b : inertb tok a = true → inertb tok b = true → inertb tok (a ++ b) = true.
Proof.
  intros Ha Hb. induction a as [|c a IH]; [done|]. cbn [inertb app] in *.
  apply andb_true_iff in Ha as [Hn Ha]. rewrite IH, andb_true_r by done.
  apply negb_true_iff, orb_false_iff in Hn as [H1 H2]. apply negb_true_iff, orb_false_iff.
  rewrite <- not_true_iff_false, starts_with_spec in H1, H2. rewrite <- !not_true_iff_false, !starts_with_spec.
  split.
  - intros (r & Hr). destruct (app_eq_inv (c :: a) b tok r Hr) as [(k & Hk & _)|(k & Hk & _)]; [apply H1|apply H2]; by exists k.
  - intros (r & Hr). apply H2. exists (b ++ r). rewrite Hr. cbn. by rewrite <- app_assoc.
Qed.

Lemma inertb_free c tok t : c ∉ t → inertb (c :: tok) t = true.
Proof.
  induction t as [|d t IH]; [done|]. intros Hc. cbn [inertb]. rewrite IH, andb_true_r by set_solver.
  apply negb_true_iff, orb_false_iff. unfold starts_with. cbn.
  rewrite (proj2 (Z.eqb_neq c d)), (proj2 (Z.eqb_neq d c)) by set_solver. done.
Qed.

Lemma inert_for_app names a b : inert_for names a = true → inert_for names b = true → inert_for names (a ++ b) = true.
Proof.
  unfold inert_for. rewrite !forallb_forall. intros Ha Hb n Hn. apply inertb_app; [by apply Ha|by apply Hb].
Qed.

Lemma inert_for_free names t : LBRACE ∉ t → inert_for names t = true.
Proof. intros Ht. apply forallb_forall. intros n _. by apply inertb_free. Qed.

(** ** All the passes *)

Definition ready (names : list rstr) (p : piece) : bool :=
  match p with
  | Lit t => inert_for names t
  | Slot m => forallb (λ n, bool_decide (n = m) || inertb (token n) (token m)) names
  end.

Lemma ready_cons n names p : ready (n :: names) p = true → ready names p = true.
Proof. destruct p as [t|m]; cbn; intros H; by apply andb_true_iff in H as [_ H]. Qed.

Lemma replace_show n names v ps :
  Forall (λ p, ready (n :: names) p = true) ps →
  replace (token n) v (show ps) = show (fill_piece [(n, v)] <$> ps).
Proof.
  assert (token n ≠ []) as Hn by done. induction 1 as [|p ps Hp _ IH]; [by rewrite replace_eq|].
  unfold show in *. cbn [fmap list_fmap concat]. destruct p as [t|m]; cbn [piece_text fill_piece value_of].
  - cbn in Hp. apply andb_true_iff in Hp as [Hp _]. by rewrite replace_inert, IH.
  - case_decide as He; [subst m; cbn [piece_text]; by rewrite replace_here, IH|].
    cbn in Hp. apply andb_true_iff in Hp as [Hp _]. rewrite bool_decide_eq_false_2 in Hp by done.
    cbn [piece_text]. by rewrite replace_inert, IH.
Qed.

(** The passes fill every slot with its value, once. *)
Lemma replace_all_show σ ps :
  NoDup σ.*1 → Forall (λ nv, inert_for σ.*1 nv.2 = true) σ → Forall (λ p, ready σ.*1 p = true) ps →
  replace_all σ (show ps) = show (fill_piece σ <$> ps).
Proof.
  revert ps. induction σ as [|[n v] σ IH]; intros ps Hnd Hv Hps.
  - cbn. f_equal. clear. induction ps as [|[] ps IH]; [done|..]; cbn; by f_equal.
  - cbn [fmap list_fmap fst] in *. apply NoDup_cons in Hnd as [Hn Hnd].
    apply Forall_cons in Hv as [Hv Hvs]. cbn in Hv. apply andb_true_iff in Hv as [_ Hv].
    unfold replace_all. cbn [fold_left fst snd]. rewrite (replace_show n (σ.*1)) by done.
    rewrite IH; [|done| |].
    + f_equal. rewrite <- list_fmap_compose. apply list_fmap_ext. intros i [t|m] _; [done|].
      cbn [compose fill_piece value_of]. by case_decide.
    + apply (Forall_impl _ _ _ Hvs). intros [m w] H. cbn in H |- *. by apply andb_true_iff in H as [_ H].
    + apply Forall_fmap, (Forall_impl _ _ _ Hps). intros [t|m] H; cbn [compose fill_piece value_of].
      * by apply ready_cons in H.
      * case_decide; [exact Hv|]. by apply ready_cons in H.
Qed.

(** ** What a pass keeps *)

Lemma split_at_first_break p x c y :
  c ∉ p → p ≠ [] → ¬ infix p x →
  split_at_first p (x ++ c :: y) = (λ ba, (x ++ c :: ba.1, ba.2)) <$> split_at_first p y.
Proof.
  intros Hc Hp Hx. replace (x ++ c :: y) with ((x ++ [c]) ++ y) by by rewrite <- app_assoc.
  destruct (split_at_first p y) as [[b a]|] eqn:E.
  - destruct (split_at_first p ((x ++ [c]) ++ y)) as [[b' a']|] eqn:E'.
    + pose proof (split_at_first_spec _ _ _ _ E) as Hy. pose proof (split_at_first_spec _ _ _ _ E') as Hxy.
      rewrite <- app_assoc in Hxy. cbn [app] in Hxy.
      destruct (app_break p x c y b' a' Hc Hp Hxy) as [(b2 & Hx' & _)|(a2 & Hy' & ->)].
      { exfalso. apply Hx. by exists b', b2. }
      pose proof (split_at_first_first _ _ _ _ _ _ E Hy') as Hle1.
      assert (y = b ++ p ++ a) as Hy2 by done.
      pose proof (split_at_first_first p _ (x ++ c :: a2) a' (x ++ c :: b) a E') as Hle2.
      rewrite Hy2 in Hle2 at 1. rewrite <- !app_assoc in Hle2. specialize (Hle2 eq_refl).
      rewrite !length_app in Hle2. cbn in Hle2.
      rewrite Hy2 in Hy'. apply app_inj_1 in Hy' as [-> ->%app_inv_head]; [done|lia].
    + apply split_at_first_none in E'. destruct E'. apply split_at_first_spec in E as ->.
      apply infix_app_r. by exists b, a.
  - destruct (split_at_first p ((x ++ [c]) ++ y)) as [[b' a']|] eqn:E'; [|done]. exfalso.
    apply split_at_first_spec in E'. rewrite <- app_assoc in E'. cbn [app] in E'.
    apply split_at_first_none in E. destruct (infix_break p x c y Hc) as [|]; [by exists b', a'|done|done].
Qed.

(** A character that [p] does not hold divides the work. *)
Lemma replace_break p q x c y :
  c ∉ p → p ≠ [] → replace p q (x ++ c :: y) = replace p q x ++ c :: replace p q y.
Proof.
  intros Hc Hp. remember (length x) as n eqn:Hn. revert x Hn. induction (lt_wf n) as [n _ IH]. intros x ->.
  destruct (split_at_first p x) as [[b a]|] eqn:E.
  - rewrite (replace_eq _ _ x), E, (replace_eq _ _ (x ++ c :: y)), (split_at_first_app _ _ (c :: y) _ _ E) by done.
    apply split_at_first_spec, (f_equal length) in E. rewrite !length_app in E.
    assert (length p ≠ 0)%nat by (by intros ?%nil_length_inv).
    rewrite (IH (length a)) by (done || lia). by rewrite <- !app_assoc.
  - pose proof E as Hx. apply split_at_first_none in Hx.
    rewrite (replace_eq _ _ x), E, (replace_eq _ _ (x ++ c :: y)), split_at_first_break by done.
    rewrite (replace_eq _ _ y) by done. destruct (split_at_first p y) as [[b a]|]; cbn; [|done].
    by rewrite <- app_assoc.
Qed.

(** Text stays that begins with a character [p] does not hold, and does not
    hold the first character of [p]. *)
Lemma replace_keeps_infix d p q c t s :
  c ∉ d :: p → d ∉ t → infix (c :: t) s → infix (c :: t) (replace (d :: p) q s).
Proof.
  intros Hc Hd (a & b & ->). cbn [app]. rewrite replace_break by done.
  destruct (replace_keeps_prefix d p q t b Hd) as [r ->]. exists (replace (d :: p) q a), r. done.
Qed.

Lemma replace_all_keeps σ c t s :
  Forall (λ nv, c ∉ token nv.1) σ → LBRACE ∉ t → infix (c :: t) s → infix (c :: t) (replace_all σ s).
Proof.
  unfold replace_all. intros Hσ Ht. revert s. induction Hσ as [|[n v] σ Hn _ IH]; intros s Hs; [done|].
  cbn [fold_left fst snd]. apply IH. by apply replace_keeps_infix.
Qed.
