(* ===== verification/Float.v ===== *)
(** IEEE binary64, by the Standard Library's [SpecFloat]: the operations on
    [f64] the code uses. *)
From Stdlib Require Import SpecFloat.
From S2P Require Import Prelude.

Definition f64 : Type := spec_float.
(** [n as f64] for an unsigned [n]. *)
Definition f64_of_Z (n : Z) : f64 := binary_normalize 53 1024 n 0 false.
Definition f64_div : f64 → f64 → f64 := SFdiv 53 1024.
Definition f64_mul : f64 → f64 → f64 := SFmul 53 1024.
(** [x >= y]: false when either is NaN. *)
Definition f64_ge (x y : f64) : bool :=
  match SFcompare x y with Some Gt | Some Eq => true | _ => false end.

(** [x as uN] (truncating) and [x.ceil() as uN]: saturating at both ends,
    zero for NaN. *)
Definition f64_as_uint (w : Z) (x : f64) : Z :=
  match x with
  | S754_finite false m e =>
      Z.min (if 0 <=? e then Z.pos m * 2 ^ e else Z.pos m / 2 ^ (- e)) (umax w)
  | S754_infinity false => umax w
  | _ => 0
  end.
Definition f64_ceil_as_uint (w : Z) (x : f64) : Z :=
  match x with
  | S754_finite false m e =>
      Z.min (if 0 <=? e then Z.pos m * 2 ^ e else - (- Z.pos m / 2 ^ (- e))) (umax w)
  | S754_infinity false => umax w
  | _ => 0
  end.

(** A decimal literal [n / d]: the quotient of two exact integers is rounded
    once, as the literal is. *)
Definition f64_lit (n d : Z) : f64 := f64_div (f64_of_Z n) (f64_of_Z d).

Example f64_casts :
  f64_as_uint 32 (f64_mul (f64_of_Z 10000) (f64_lit 4 5)) = 8000 ∧
  f64_ceil_as_uint 64 (f64_mul (f64_of_Z 11) (f64_lit 3 10)) = 4 ∧
  f64_as_uint 32 (f64_lit (- 7) 2) = 0 ∧ f64_as_uint 8 (f64_of_Z 300) = 255.
Proof. repeat split; reflexivity. Qed.
