(* ===== verification/Window.v ===== *)
(** The bounded sliding window of the circuit breaker
    (src/crates/common/circuit-breaker/src/window.rs).

    A window is a queue of samples [(timestamp, is_failure)] and the running
    number of failures among them, which [error_rate] reads instead of
    scanning the queue.  An [Instant] is its distance in nanoseconds from the
    clock's origin; [instant_min] is the earliest instant the platform
    represents, below which [Instant::checked_sub] gives [None]. *)
From stdpp Require Import sorting.
From S2P Require Import Prelude Float.

(** * The window *)

Definition MAX_WINDOW_ENTRIES : Z := 10000.

Record SlidingWindow : Type := mkWindow {
  sw_entries : list (Z * bool);
  sw_failures : Z;
}.

Definition sw_new : SlidingWindow := mkWindow [] 0.

Definition sw_push (is_failure : bool) (at_ : Z) (w : SlidingWindow) : SlidingWindow :=
  let w1 :=
    if MAX_WINDOW_ENTRIES <=? zlen (sw_entries w) then
      match sw_entries w with
      | (_, was_failure) :: rest =>
          mkWindow rest (if was_failure then sw_failures w - 1 else sw_failures w)
      | [] => w
      end
    else w in
  mkWindow (sw_entries w1 ++ [(at_, is_failure)])
    (if is_failure then sw_failures w1 + 1 else sw_failures w1).

(** The [while let Some(front)] loop of [evict]. *)
Fixpoint evict_loop (cutoff : Z) (entries : list (Z * bool)) (failures : Z)
    : SlidingWindow :=
  match entries with
  | (ts, was_failure) :: rest =>
      if ts <? cutoff
      then evict_loop cutoff rest (if was_failure then failures - 1 else failures)
      else mkWindow entries failures
  | [] => mkWindow [] failures
  end.

Section evict.
Context (instant_min : Z).

(** [Instant::checked_sub]. *)
Definition checked_sub (now window : Z) : option Z :=
  if now - window <? instant_min then None else Some (now - window).

Definition sw_evict (window now : Z) (w : SlidingWindow) : SlidingWindow :=
  match checked_sub now window with
  | None => w
  | Some cutoff => evict_loop cutoff (sw_entries w) (sw_failures w)
  end.
End evict.

Definition sw_error_rate (w : SlidingWindow) : f64 :=
  match sw_entries w with
  | [] => f64_of_Z 0
  | _ => f64_div (f64_of_Z (sw_failures w)) (f64_of_Z (zlen (sw_entries w)))
  end.

Definition sw_sample_count (w : SlidingWindow) : Z := zlen (sw_entries w).

Definition sw_clear (w : SlidingWindow) : SlidingWindow := mkWindow [] 0.

(** * The invariant *)

(** The counter is the number of failing samples and the queue is bounded. *)
Record window_wf (w : SlidingWindow) : Prop := {
  wf_failures : sw_failures w = countb snd (sw_entries w);
  wf_bounded : zlen (sw_entries w) ≤ MAX_WINDOW_ENTRIES;
}.

(** Samples are in the order of their timestamps. *)
Definition window_sorted (w : SlidingWindow) : Prop :=
  StronglySorted Z.le (sw_entries w).*1.

Lemma sw_new_wf : window_wf sw_new.
Proof. by split. Qed.

Lemma sw_clear_wf w : window_wf (sw_clear w).
Proof. by split. Qed.

(** What a push leaves in the queue: the sample goes last, and the oldest
    sample is dropped only from a full queue. *)
Lemma sw_push_entries f at_ w :
  sw_entries (sw_push f at_ w)
  = (if MAX_WINDOW_ENTRIES <=? zlen (sw_entries w) then tail (sw_entries w)
     else sw_entries w) ++ [(at_, f)].
Proof. unfold sw_push. by case_split. Qed.

Lemma sw_push_wf f at_ w : window_wf w → window_wf (sw_push f at_ w).
Proof.
  intros [Hf Hb]. destruct w as [es n]; simpl in *; subst n. unfold sw_push; simpl.
  destruct (Z.leb_spec MAX_WINDOW_ENTRIES (zlen es)) as [Hfull|]; simpl.
  - destruct es as [|[ts b] es]; simpl in *; [by vm_compute in Hfull|].
    rewrite zlen_cons in *.
    split; simpl; [rewrite countb_app; destruct b, f; simpl; lia|].
    rewrite zlen_app, zlen_cons, zlen_nil. lia.
  - split; simpl; [rewrite countb_app; destruct f; simpl; lia|].
    rewrite zlen_app, zlen_cons, zlen_nil. lia.
Qed.

(** The loop drops the maximal prefix of expired samples and keeps the count. *)
Lemma evict_loop_spec cutoff es n :
  ∃ old new, es = old ++ new ∧ Forall (λ e, e.1 < cutoff) old ∧
    (∀ e, head new = Some e → cutoff ≤ e.1) ∧
    evict_loop cutoff es n = mkWindow new (n - countb snd old).
Proof.
  revert n. induction es as [|[ts b] es IH]; intros n; simpl.
  - exists [], []. repeat split; [done..|]. f_equal. simpl. lia.
  - destruct (Z.ltb_spec ts cutoff) as [Hlt|Hge].
    + destruct (IH (if b then n - 1 else n)) as (old & new & -> & Hold & Hnew & ->).
      exists ((ts, b) :: old), new. repeat split; [by constructor|done|].
      f_equal. simpl. destruct b; lia.
    + exists [], ((ts, b) :: es). repeat split; [done| |f_equal; simpl; lia].
      intros e [= <-]. done.
Qed.

Lemma sw_evict_wf imin d now w : window_wf w → window_wf (sw_evict imin d now w).
Proof.
  intros [Hf Hb]. unfold sw_evict. destruct (checked_sub imin now d) as [c|]; [|done].
  destruct (evict_loop_spec c (sw_entries w) (sw_failures w))
    as (old & new & Heq & _ & _ & ->).
  rewrite Heq in *. rewrite countb_app in Hf. rewrite zlen_app in Hb.
  pose proof (zlen_nonneg old). split; simpl; lia.
Qed.

#[export] Hint Resolve sw_new_wf sw_clear_wf sw_push_wf sw_evict_wf : rust.

(** On a time-ordered queue, eviction is exactly a filter on the timestamps. *)
Lemma sorted_head_bound (es : list (Z * bool)) c :
  StronglySorted Z.le es.*1 → (∀ e, head es = Some e → c ≤ e.1) →
  Forall (λ e, c ≤ e.1) es.
Proof.
  destruct es as [|e es]; intros Hs Hhd; [constructor|].
  specialize (Hhd e eq_refl). inversion Hs as [|? ? _ Hall]; subst.
  constructor; [done|]. rewrite Forall_fmap in Hall.
  eapply Forall_impl; [done|]. simpl. intros; lia.
Qed.

Lemma sw_evict_filter imin d now w c :
  window_sorted w → checked_sub imin now d = Some c →
  sw_entries (sw_evict imin d now w) = filter (λ e, c ≤ e.1) (sw_entries w).
Proof.
  unfold window_sorted, sw_evict. intros Hs ->.
  destruct (evict_loop_spec c (sw_entries w) (sw_failures w))
    as (old & new & Heq & Hold & Hnew & ->).
  rewrite Heq in *. simpl. rewrite filter_app.
  rewrite fmap_app in Hs. apply StronglySorted_app_1_r in Hs.
  pose proof (sorted_head_bound new c Hs Hnew) as Hall.
  rewrite (filter_none _ old), (filter_whole _ new); [done..|].
  eapply Forall_impl; [exact Hold|]. simpl; intros; lia.
Qed.

(** On a well-formed window the running counter gives the scanned rate. *)
Lemma sw_error_rate_scan w :
  window_wf w → sw_entries w ≠ [] →
  sw_error_rate w
  = f64_div (f64_of_Z (countb snd (sw_entries w))) (f64_of_Z (zlen (sw_entries w))).
Proof. intros [Hf _] Hne. unfold sw_error_rate. rewrite <- Hf. by destruct (sw_entries w). Qed.

Lemma sw_failures_range w : window_wf w → 0 ≤ sw_failures w ≤ sw_sample_count w.
Proof. intros [-> _]. apply countb_bounds. Qed.
