(* ===== verification/RetryPolicy.v ===== *)
(** Response classification (src/crates/common/circuit-breaker/src/retry_policy.rs
    and grpc.rs): what to do with a failed HTTP or gRPC call. *)
From S2P Require Import Prelude.

Inductive Disposition : Type := Retryable | AuthRefresh | Terminal.

#[global] Instance Disposition_eq_dec : EqDecision Disposition.
Proof. solve_decision. Defined.

(** [slice::contains] on integers. *)
Definition contains (l : list Z) (x : Z) : bool := bool_decide (x ∈ l).

(** * HTTP (retry_policy.rs) *)

Record RetryPolicy : Type := mkRetryPolicy {
  rp_retryable : list Z;
  rp_auth_refresh : list Z;
  rp_terminal : list Z;
  rp_default : Disposition;
}.

Definition rp_classify (p : RetryPolicy) (status : Z) : option Disposition :=
  if (200 <=? status) && (status <? 300) then None
  else if contains (rp_auth_refresh p) status then Some AuthRefresh
  else if contains (rp_terminal p) status then Some Terminal
  else if contains (rp_retryable p) status || ((500 <=? status) && (status <? 600))
       then Some Retryable
  else Some (rp_default p).

Definition should_retry (p : RetryPolicy) (status : Z) : bool :=
  match rp_classify p status with Some Retryable => true | _ => false end.

Definition rp_server : RetryPolicy := mkRetryPolicy [429] [] [] Terminal.
Definition rp_edge_client : RetryPolicy := mkRetryPolicy [429] [] [525; 526] Terminal.
Definition rp_client_storage : RetryPolicy :=
  mkRetryPolicy [] [401] [400; 403; 404; 525; 526] Retryable.

(** * gRPC (grpc.rs)

    The status codes are those of the [tonic] crate: an abstract type with
    the constants the presets name. *)

Class GrpcCode (Code : Type) := {
  grpc_code_eq_dec :: EqDecision Code;
  code_ok : Code;
  code_unavailable : Code;
  code_unknown : Code;
  code_internal : Code;
  code_deadline_exceeded : Code;
}.

Section grpc.
Context {Code : Type} `{GrpcCode Code}.

Record GrpcRetryPolicy : Type := mkGrpcRetryPolicy { grpc_retryable : list Code }.

Definition grpc_default : GrpcRetryPolicy := mkGrpcRetryPolicy [code_unavailable; code_unknown].
Definition grpc_permissive : GrpcRetryPolicy :=
  mkGrpcRetryPolicy [code_unavailable; code_unknown; code_internal; code_deadline_exceeded].

Definition is_retryable_code (p : GrpcRetryPolicy) (c : Code) : bool :=
  bool_decide (c ∈ grpc_retryable p).

Definition grpc_classify (p : GrpcRetryPolicy) (c : Code) : option Disposition :=
  if decide (c = code_ok) then None
  else if is_retryable_code p c then Some Retryable
  else Some Terminal.
End grpc.
Arguments GrpcRetryPolicy : clear implicits.

(** * Lemmas *)

Lemma contains_true l x : contains l x = true ↔ x ∈ l.
Proof. apply bool_decide_eq_true. Qed.

Lemma contains_false l x : contains l x = false ↔ x ∉ l.
Proof. apply bool_decide_eq_false. Qed.

Lemma contains_out l x : Forall (λ y, y ≠ x) l → contains l x = false.
Proof. intros Hl. apply contains_false. intros Hx. by eapply Forall_forall in Hl; [|exact Hx]. Qed.

(** The edge client retries 429 and every 5xx but the origin-TLS codes. *)
Lemma edge_client_retries status :
  should_retry rp_edge_client status
  = (status =? 429) || ((500 <=? status) && (status <? 600) && negb (status =? 525) && negb (status =? 526)).
Proof.
  unfold should_retry, rp_classify; simpl.
  destruct (contains [525; 526] status) eqn:Ht.
  - apply contains_true in Ht.
    assert (status = 525 ∨ status = 526) as [-> | ->] by set_solver; reflexivity.
  - apply contains_false in Ht.
    assert (status ≠ 525 ∧ status ≠ 526) as [H5 H6] by set_solver.
    apply Z.eqb_neq in H5, H6. rewrite H5, H6. simpl. rewrite !andb_true_r.
    destruct (contains [429] status) eqn:H4.
    + apply contains_true in H4. assert (status = 429) as -> by set_solver. reflexivity.
    + apply contains_false in H4. assert (status ≠ 429) as H4' by set_solver.
      apply Z.eqb_neq in H4'. rewrite H4'. simpl.
      destruct (200 <=? status) eqn:?, (status <? 300) eqn:?,
        (500 <=? status) eqn:?, (status <? 600) eqn:?; simpl; try done; lia.
Qed.

(** * Theorems *)

(** a policy's verdict, on every branch.  A status is a success exactly
    when it is 2xx; otherwise the explicit lists win in the order refresh,
    terminal, retryable; an unlisted 5xx is retryable whatever the default;
    and only then does the default apply. *)
Theorem rp_classify_spec p status :
  (rp_classify p status = None ↔ 200 ≤ status < 300) ∧
  (¬ 200 ≤ status < 300 →
   (status ∈ rp_auth_refresh p → rp_classify p status = Some AuthRefresh) ∧
   (status ∉ rp_auth_refresh p → status ∈ rp_terminal p → rp_classify p status = Some Terminal) ∧
   (status ∉ rp_auth_refresh p → status ∉ rp_terminal p →
      status ∈ rp_retryable p ∨ 500 ≤ status < 600 → rp_classify p status = Some Retryable) ∧
   (status ∉ rp_auth_refresh p → status ∉ rp_terminal p → status ∉ rp_retryable p →
      ¬ 500 ≤ status < 600 → rp_classify p status = Some (rp_default p))).
Proof.
  unfold rp_classify, contains.
  destruct (Z.leb_spec 200 status), (Z.ltb_spec status 300),
    (Z.leb_spec 500 status), (Z.ltb_spec status 600); simpl; try lia;
    (split; [|intros ?]); repeat split; intros; repeat case_bool_decide; simpl in *;
    try done; try lia; exfalso; destruct_or?; first [done|lia].
Qed.

(** the three presets agree with the rule they are documented by:
    everywhere but on the origin-TLS codes the edge client retries what the
    server preset retries, and the storage preset retries at least that. *)
Theorem rp_presets_consistent status :
  status ≠ 525 → status ≠ 526 →
  should_retry rp_edge_client status = should_retry rp_server status ∧
  (should_retry rp_server status = true → should_retry rp_client_storage status = true).
Proof.
  intros H5 H6. unfold should_retry, rp_classify; simpl.
  assert (contains [525; 526] status = false) as -> by (apply contains_false; set_solver).
  split; [done|]. destruct (_ && (status <? 300)) eqn:H2; [done|].
  destruct (contains [429] status) eqn:H4.
  - apply contains_true in H4. assert (status = 429) as -> by set_solver. done.
  - change (contains [] status) with false. simpl.
    destruct ((500 <=? status) && (status <? 600)) eqn:H500; [intros _|done].
    by rewrite !contains_out by (repeat constructor; lia).
Qed.

Lemma rp_presets_consistent_witness :
  should_retry rp_edge_client 503 = should_retry rp_server 503.
Proof. exact (proj1 (rp_presets_consistent 503 ltac:(lia) ltac:(lia))). Defined.

(** gRPC: only [Ok] is a success, the default preset retries no more
    than the permissive one, and no preset asks for a credential refresh. *)
Theorem grpc_classify_spec {Code} `{GrpcCode Code} (p : GrpcRetryPolicy Code) c :
  (grpc_classify p c = None ↔ c = code_ok) ∧
  grpc_classify p c ≠ Some AuthRefresh ∧
  (grpc_classify grpc_default c = Some Retryable →
   grpc_classify grpc_permissive c = Some Retryable).
Proof.
  unfold grpc_classify, is_retryable_code. simpl.
  repeat split; repeat case_decide; repeat case_bool_decide; try done; set_solver.
Qed.
