(* ===== verification/Breaker.v ===== *)
(** The circuit breaker (src/crates/common/circuit-breaker/src/breaker.rs,
    state.rs, observer.rs, config.rs).

    The breaker is shared by threads that touch it only through atomics, the
    window's mutex, the clock and the observer.  An operation is therefore a
    [prog]: a tree of those atomic actions.  [run] executes a program alone;
    [BreakerConc] interleaves the programs of several threads.  The two share
    the definitions of [check] and [record] below.

    [Duration]s and [Instant]s are in nanoseconds. *)
From S2P Require Import Prelude Float Window.

(** * Configuration (config.rs) *)

Record BreakerConfig : Type := mkConfig {
  window_duration : Z;
  min_samples : Z;
  error_rate_threshold : f64;
  open_duration : Z;
  half_open_max_probes : Z;
  failure_codes : gset Z;
  enabled : bool;
}.

Definition from_secs (s : Z) : Z := s * 1000000000.
Definition from_millis (ms : Z) : Z := ms * 1000000.
(** [Duration::as_millis() as u64]. *)
Definition as_millis_u64 (d : Z) : Z := wrap 64 (d / 1000000).

Definition DEFAULT_FAILURE_CODES : list Z := [429; 500; 502; 503; 504].
Definition default_failure_codes : gset Z := list_to_set DEFAULT_FAILURE_CODES.
(** The literal [0.5]. *)
Definition f64_half : f64 := f64_div (f64_of_Z 1) (f64_of_Z 2).

Definition config_server : BreakerConfig :=
  mkConfig (from_secs 60) 10 f64_half (from_secs 10) 1 default_failure_codes true.

Definition config_client : BreakerConfig :=
  mkConfig (from_secs 60) 5 f64_half (from_secs 60) 1 {[401]} true.

Definition is_failure_status (c : BreakerConfig) (status : Z) : bool :=
  bool_decide (status ∈ failure_codes c).

(** * States and outcomes (state.rs, observer.rs) *)

Inductive BreakerState : Type := Closed | Open | HalfOpen.

#[global] Instance BreakerState_eq_dec : EqDecision BreakerState.
Proof. solve_decision. Defined.

(** [s as u8]. *)
Definition state_u8 (s : BreakerState) : Z :=
  match s with Closed => 0 | Open => 1 | HalfOpen => 2 end.

(** [BreakerState::from_u8] in a release build: an invalid byte reads [Closed]. *)
Definition from_u8 (v : Z) : BreakerState :=
  if v =? 0 then Closed else if v =? 1 then Open else if v =? 2 then HalfOpen else Closed.

Inductive Outcome : Type := Success | Failure.

Record BreakerOpen : Type := mkBreakerOpen { retry_after : Z }.

(** [Result<(), BreakerOpen>]. *)
Definition Admission : Type := unit + BreakerOpen.

(** The calls an observer receives. *)
Inductive ObserverCall : Type :=
| on_state_change (old new : BreakerState) (reason : string)
| on_probe_admission (allowed : bool)
| on_outcome (outcome : Outcome) (status : BreakerState).

(** * The shared state and its atomic actions *)

Record Inner : Type := mkInner {
  state : Z;
  opened_at_millis : Z;
  half_open_probes : Z;
  probe_claimed_at_millis : Z;
  is_open_fast : bool;
  window : SlidingWindow;
  observer : option positive;
}.

Definition set_state v i := mkInner v (opened_at_millis i) (half_open_probes i) (probe_claimed_at_millis i) (is_open_fast i) (window i) (observer i).
Definition set_opened v i := mkInner (state i) v (half_open_probes i) (probe_claimed_at_millis i) (is_open_fast i) (window i) (observer i).
Definition set_probes v i := mkInner (state i) (opened_at_millis i) v (probe_claimed_at_millis i) (is_open_fast i) (window i) (observer i).
Definition set_claimed v i := mkInner (state i) (opened_at_millis i) (half_open_probes i) v (is_open_fast i) (window i) (observer i).
Definition set_fast v i := mkInner (state i) (opened_at_millis i) (half_open_probes i) (probe_claimed_at_millis i) v (window i) (observer i).
Definition set_window v i := mkInner (state i) (opened_at_millis i) (half_open_probes i) (probe_claimed_at_millis i) (is_open_fast i) v (observer i).
Definition set_observer v i := mkInner (state i) (opened_at_millis i) (half_open_probes i) (probe_claimed_at_millis i) (is_open_fast i) (window i) v.

(** One indivisible step of a thread, and the type of what it reads. *)
Inductive action : Type → Type :=
| ALoadState : action Z
| AStoreState (v : Z) : action unit
| ACasState (old new : Z) : action bool
| ALoadOpened : action Z
| AStoreOpened (v : Z) : action unit
| AFetchAddProbes : action Z
| AFetchSubProbes : action Z
| AStoreProbes (v : Z) : action unit
| ALoadClaimed : action Z
| AStoreClaimed (v : Z) : action unit
| ACasClaimed (old new : Z) : action bool
| ALoadFast : action bool
| AStoreFast (b : bool) : action unit
| AWindow {R : Type} (f : SlidingWindow → R * SlidingWindow) : action R
| ANow : action Z
| AObserve (c : ObserverCall) : action unit.

Inductive prog (A : Type) : Type :=
| Ret (a : A)
| Do {R : Type} (e : action R) (k : R → prog A).
Arguments Ret {A} a.
Arguments Do {A R} e k.

Fixpoint prog_bind {A B} (p : prog A) (f : A → prog B) : prog B :=
  match p with
  | Ret a => f a
  | Do e k => Do e (λ r, prog_bind (k r) f)
  end.

#[global] Instance prog_mbind : MBind prog := λ A B f p, prog_bind p f.
Definition perform {R} (e : action R) : prog R := Do e Ret.

(** ** What the actions do

    The world holds the shared state, how many times the clock has been read
    and the calls the installed observer has received, oldest first. *)
Record World : Type := mkWorld {
  inner : Inner;
  reads : nat;
  observed : list (positive * ObserverCall);
}.

Definition upd (f : Inner → Inner) (w : World) : World := mkWorld (f (inner w)) (reads w) (observed w).

Section exec.
(** The clock's successive readings. *)
Context (clock : nat → Z).

Definition exec {R} (e : action R) (w : World) : R * World :=
  let i := inner w in
  match e in action R return R * World with
  | ALoadState => (state i, w)
  | AStoreState v => (tt, upd (set_state v) w)
  | ACasState old new =>
      if state i =? old then (true, upd (set_state new) w) else (false, w)
  | ALoadOpened => (opened_at_millis i, w)
  | AStoreOpened v => (tt, upd (set_opened v) w)
  | AFetchAddProbes => (half_open_probes i, upd (set_probes (wrap 64 (half_open_probes i + 1))) w)
  | AFetchSubProbes => (half_open_probes i, upd (set_probes (wrap 64 (half_open_probes i - 1))) w)
  | AStoreProbes v => (tt, upd (set_probes v) w)
  | ALoadClaimed => (probe_claimed_at_millis i, w)
  | AStoreClaimed v => (tt, upd (set_claimed v) w)
  | ACasClaimed old new =>
      if probe_claimed_at_millis i =? old then (true, upd (set_claimed new) w) else (false, w)
  | ALoadFast => (is_open_fast i, w)
  | AStoreFast b => (tt, upd (set_fast b) w)
  | AWindow f => let '(r, win) := f (window i) in (r, upd (set_window win) w)
  | ANow => (clock (reads w), mkWorld i (S (reads w)) (observed w))
  | AObserve c =>
      match observer i with
      | Some o => (tt, mkWorld i (reads w) (observed w ++ [(o, c)]))
      | None => (tt, w)
      end
  end.

Fixpoint run {A} (p : prog A) (w : World) : A * World :=
  match p with
  | Ret a => (a, w)
  | Do e k => let '(r, w') := exec e w in run (k r) w'
  end.

Lemma run_bind {A B} (p : prog A) (f : A → prog B) w :
  run (p ≫= f) w = let '(a, w') := run p w in run (f a) w'.
Proof.
  unfold mbind, prog_mbind. revert w. induction p as [a|R e k IH]; intros w; simpl; [done|].
  destruct (exec e w) as [r w']. apply IH.
Qed.
End exec.

(** * The operations (breaker.rs) *)

Section ops.
Context (cfg : BreakerConfig) (baseline instant_min : Z).

Definition load_state : prog BreakerState :=
  v ← perform ALoadState; Ret (from_u8 v).

Definition is_open : prog bool := perform ALoadFast.

Definition elapsed_millis : prog Z :=
  now ← perform ANow; Ret (as_millis_u64 (sat_sub now baseline)).

Definition cas_state (from to : BreakerState) : prog bool :=
  perform (ACasState (state_u8 from) (state_u8 to)).

Definition error_rate : prog f64 :=
  now ← perform ANow;
  perform (AWindow (λ w,
    let w' := sw_evict instant_min (window_duration cfg) now w in
    (sw_error_rate w', w'))).

Definition HALF_OPEN_PROBE_BACKOFF : Z := from_millis 50.

Definition try_half_open_probe : prog Admission :=
  now ← elapsed_millis;
  prev ← perform AFetchAddProbes;
  if prev <? half_open_max_probes cfg then
    _ ← perform (AStoreClaimed now);
    _ ← perform (AObserve (on_probe_admission true));
    Ret (inl tt)
  else
    _ ← perform AFetchSubProbes;
    let lease_millis := as_millis_u64 (open_duration cfg) in
    claimed ← perform ALoadClaimed;
    won ← (if lease_millis <=? sat_sub now claimed
           then perform (ACasClaimed claimed now) else Ret false);
    if won : bool then
      _ ← perform (AObserve (on_probe_admission true));
      Ret (inl tt)
    else
      _ ← perform (AObserve (on_probe_admission false));
      Ret (inr (mkBreakerOpen (Z.min HALF_OPEN_PROBE_BACKOFF (open_duration cfg)))).

Definition check_open : prog Admission :=
  opened ← perform ALoadOpened;
  now ← elapsed_millis;
  let elapsed := from_millis (sat_sub now opened) in
  if open_duration cfg <=? elapsed then
    won ← cas_state Open HalfOpen;
    if won : bool then
      _ ← perform (AStoreFast false);
      _ ← perform (AObserve (on_state_change Open HalfOpen "open_elapsed"));
      try_half_open_probe
    else
      s ← load_state;
      match s with
      | Closed => Ret (inl tt)
      | HalfOpen => try_half_open_probe
      | Open =>
          opened ← perform ALoadOpened;
          now ← elapsed_millis;
          let elapsed := from_millis (sat_sub now opened) in
          Ret (inr (mkBreakerOpen (sat_sub (open_duration cfg) elapsed)))
      end
  else Ret (inr (mkBreakerOpen (sat_sub (open_duration cfg) elapsed))).

Definition check : prog Admission :=
  if negb (enabled cfg) then Ret (inl tt)
  else
    s ← load_state;
    match s with
    | Closed => Ret (inl tt)
    | Open => check_open
    | HalfOpen => try_half_open_probe
    end.

Definition trip (prev : BreakerState) (reason : string) : prog unit :=
  _ ← perform (AStoreState (state_u8 Open));
  now ← elapsed_millis;
  _ ← perform (AStoreOpened now);
  _ ← perform (AStoreProbes 0);
  _ ← perform (AStoreFast true);
  if decide (prev ≠ Open) then perform (AObserve (on_state_change prev Open reason))
  else Ret tt.

Definition close (prev : BreakerState) (reason : string) : prog unit :=
  _ ← perform (AStoreState (state_u8 Closed));
  _ ← perform (AWindow (λ w, (tt, sw_clear w)));
  _ ← perform (AStoreProbes 0);
  _ ← perform (AStoreFast false);
  if decide (prev ≠ Closed) then perform (AObserve (on_state_change prev Closed reason))
  else Ret tt.

(** The critical section of [record]: push, evict, and for a closed breaker
    the trip decision. *)
Definition push_evict (is_failure : bool) (now : Z) (w : SlidingWindow) : SlidingWindow :=
  sw_evict instant_min (window_duration cfg) now (sw_push is_failure now w).

Definition should_trip (w : SlidingWindow) : bool :=
  (min_samples cfg <=? sw_sample_count w)
  && f64_ge (sw_error_rate w) (error_rate_threshold cfg).

Definition record (outcome : Outcome) : prog unit :=
  if negb (enabled cfg) then Ret tt
  else
    let is_failure := match outcome with Failure => true | Success => false end in
    now ← perform ANow;
    prev_state ← load_state;
    _ ← match prev_state with
        | Closed =>
            trips ← perform (AWindow (λ w,
              let w' := push_evict is_failure now w in (should_trip w', w')));
            if trips : bool then trip prev_state "trip" else Ret tt
        | HalfOpen =>
            if is_failure then trip prev_state "probe_failure"
            else close prev_state "probe_success"
        | Open => perform (AWindow (λ w, (tt, push_evict is_failure now w)))
        end;
    new_state ← load_state;
    perform (AObserve (on_outcome outcome new_state)).

(** The test hook of the same name. *)
Definition force_half_open : prog unit :=
  prev ← load_state;
  _ ← perform (AStoreState (state_u8 HalfOpen));
  _ ← perform (AStoreFast false);
  _ ← perform (AStoreProbes 0);
  if decide (prev ≠ HalfOpen)
  then perform (AObserve (on_state_change prev HalfOpen "force_half_open"))
  else Ret tt.
End ops.

(** [CircuitBreaker::with_clock]: the configuration, clamped to one probe at
    least, the baseline and the initial state. *)
Definition clamp_probes (c : BreakerConfig) : BreakerConfig :=
  mkConfig (window_duration c) (min_samples c) (error_rate_threshold c) (open_duration c)
    (Z.max (half_open_max_probes c) 1) (failure_codes c) (enabled c).

Definition with_clock (c : BreakerConfig) (now : Z) : BreakerConfig * Z * Inner :=
  (clamp_probes c, now, mkInner (state_u8 Closed) 0 0 0 false sw_new None).

(** [CircuitBreaker::with_observer]: [OnceLock::set], so the first one wins. *)
Definition with_observer (o : positive) (i : Inner) : Inner :=
  match observer i with Some _ => i | None => set_observer (Some o) i end.
