(* ===== verification/BreakerSpec.v ===== *)
(** What the circuit breaker promises to a caller, and that it keeps it.

    The specification is a machine over three phases; [spec_check] and
    [spec_record] are its two steps.  [Inv] is the invariant of the concrete
    state and [abs] forgets the atomics' encoding.  [run_check_refines] and
    [run_record_refines] are the simulation lemmas; the theorems at the end
    read off them. *)
From S2P Require Import Prelude Window Breaker.

(** * The abstract breaker *)

Inductive phase : Type :=
| PClosed
| POpen (opened : Z)
| PHalf (probes claimed : Z).

Section spec.
Context (cfg : BreakerConfig) (instant_min : Z).

Definition lease : Z := as_millis_u64 (open_duration cfg).

(** [t1] and [t2] are the elapsed milliseconds of two successive clock reads. *)
Definition spec_check (t1 t2 : Z) (p : phase) : Admission * phase :=
  if negb (enabled cfg) then (inl tt, p) else
  match p with
  | PClosed => (inl tt, p)
  | POpen o =>
      let elapsed := from_millis (sat_sub t1 o) in
      if open_duration cfg <=? elapsed then (inl tt, PHalf 1 t2)
      else (inr (mkBreakerOpen (sat_sub (open_duration cfg) elapsed)), p)
  | PHalf n c =>
      if n <? half_open_max_probes cfg then (inl tt, PHalf (n + 1) t1)
      else if lease <=? sat_sub t1 c then (inl tt, PHalf n t1)
      else (inr (mkBreakerOpen (Z.min HALF_OPEN_PROBE_BACKOFF (open_duration cfg))), p)
  end.

(** [now] is the instant of the first clock read, [t2] the elapsed
    milliseconds of the second. *)
Definition spec_record (o : Outcome) (now t2 : Z) (pw : phase * SlidingWindow)
    : phase * SlidingWindow :=
  let '(p, w) := pw in
  if negb (enabled cfg) then (p, w) else
  let f := match o with Failure => true | Success => false end in
  let w' := push_evict cfg instant_min f now w in
  match p with
  | PClosed => if should_trip cfg w' then (POpen t2, w') else (PClosed, w')
  | POpen t => (POpen t, w')
  | PHalf _ _ => if f then (POpen t2, w) else (PClosed, sw_clear w)
  end.
End spec.

Definition abs (i : Inner) : phase :=
  match from_u8 (state i) with
  | Closed => PClosed
  | Open => POpen (opened_at_millis i)
  | HalfOpen => PHalf (half_open_probes i) (probe_claimed_at_millis i)
  end.

(** * The invariant *)

Record Inv (cfg : BreakerConfig) (i : Inner) : Prop := {
  inv_state : ∃ s, state i = state_u8 s;
  inv_mirror : is_open_fast i = bool_decide (from_u8 (state i) = Open);
  inv_window : window_wf (window i);
  inv_probes : 0 ≤ half_open_probes i ≤ half_open_max_probes cfg;
  inv_open_probes : from_u8 (state i) = Open → half_open_probes i = 0;
}.

(** A configuration as [with_clock] leaves it. *)
Record config_wf (cfg : BreakerConfig) : Prop := {
  cfg_probes : 1 ≤ half_open_max_probes cfg ≤ umax 64;
  cfg_open_duration : 0 ≤ open_duration cfg;
}.

#[export] Hint Resolve inv_window : rust.

Lemma from_u8_state_u8 s : from_u8 (state_u8 s) = s.
Proof. by destruct s. Qed.

Lemma wrap_add_sub n : 0 ≤ n ≤ umax 64 → wrap 64 (wrap 64 (n + 1) - 1) = n.
Proof.
  intros Hn. unfold wrap. rewrite Zminus_mod_idemp_l. replace (n + 1 - 1) with n by lia.
  apply Z.mod_small. rlia.
Qed.

Lemma push_evict_wf cfg imin f now w :
  window_wf w → window_wf (push_evict cfg imin f now w).
Proof. unfold push_evict. auto with rust. Qed.
#[export] Hint Resolve push_evict_wf : rust.

(** Run a closed program: the state byte is known, so every branch computes. *)
Ltac breaker_cases i Hinv :=
  let s := fresh "s" in let Hs := fresh "Hs" in
  destruct i as [st opn prb clm fst win obs];
  destruct Hinv as [[s Hs] Hmir Hwin Hprb Hopn]; simpl in *; subst st;
  destruct s; simpl in *.

Lemma Inv_intro cfg s opn prb clm fst win obs :
  fst = bool_decide (s = Open) → window_wf win →
  0 ≤ prb ≤ half_open_max_probes cfg → (s = Open → prb = 0) →
  Inv cfg (mkInner (state_u8 s) opn prb clm fst win obs).
Proof.
  intros. split; simpl; rewrite ?from_u8_state_u8; [by exists s|done..].
Qed.

(** Prove [Inv] of a state whose byte is known. *)
Ltac inv_fields :=
  split_and?; simpl;
  try first [ apply (Inv_intro _ Closed) | apply (Inv_intro _ Open)
            | apply (Inv_intro _ HalfOpen) ];
  simpl; auto with rust; first [ done | lia ].

Section refinement.
Context (cfg : BreakerConfig) (Hcfg : config_wf cfg).
Context (clock : nat → Z) (baseline instant_min : Z).

(** The elapsed milliseconds of the clock's [n]-th reading. *)
Definition elapsed_at (n : nat) : Z := as_millis_u64 (sat_sub (clock n) baseline).

(** [try_half_open_probe] from the half-open state. *)
Lemma run_probe w n c :
  Inv cfg (inner w) → abs (inner w) = PHalf n c → enabled cfg = true →
  ∃ r w', run clock (try_half_open_probe cfg baseline) w = (r, w') ∧
    spec_check cfg (elapsed_at (reads w)) 0 (PHalf n c) = (r, abs (inner w')) ∧
    Inv cfg (inner w') ∧ window (inner w') = window (inner w).
Proof using Hcfg.
  intros HI Habs Hen. destruct w as [i rd ob]; simpl in *.
  pose proof (cfg_probes _ Hcfg) as Hmax.
  breaker_cases i HI; unfold abs in Habs; simpl in Habs; simplify_eq.
  unfold spec_check; rewrite Hen; simpl.
  fold (lease cfg). fold (elapsed_at rd).
  destruct (Z.ltb_spec n (half_open_max_probes cfg)) as [Hlt|Hge].
  - rewrite (wrap_id 64 (n + 1)) by rlia.
    destruct obs; simpl; eexists _, _; (split; [done|]); unfold abs; simpl;
      inv_fields.
  - destruct (lease cfg <=? sat_sub (elapsed_at rd) c) eqn:Hl; simpl;
      fold (elapsed_at rd) (lease cfg); rewrite ?Hl; simpl;
      rewrite ?Z.eqb_refl; simpl; rewrite (wrap_add_sub n) by rlia;
      destruct obs; simpl; eexists _, _; (split; [done|]); unfold abs; simpl;
      inv_fields.
Qed.

(** [check] refines [spec_check]. *)
Lemma run_check_refines w :
  Inv cfg (inner w) →
  ∃ r w', run clock (check cfg baseline) w = (r, w') ∧
    spec_check cfg (elapsed_at (reads w)) (elapsed_at (S (reads w))) (abs (inner w))
      = (r, abs (inner w')) ∧
    Inv cfg (inner w') ∧ window (inner w') = window (inner w).
Proof using Hcfg.
  intros HI. unfold check. destruct (enabled cfg) eqn:Hen; simpl.
  2: { eexists _, _. split; [done|]. split_and!; [|done..]. unfold spec_check. by rewrite Hen. }
  destruct (from_u8 (state (inner w))) eqn:Hst.
  - eexists _, _. split; [done|]. split_and!; [|done..].
    unfold spec_check, abs. by rewrite Hen, Hst.
  - pose proof HI as HI'. destruct w as [i rd ob]; simpl in *.
    breaker_cases i HI'; try discriminate. clear Hst.
    change (abs _) with (POpen opn) at 1.
    unfold spec_check. rewrite Hen; simpl. fold (elapsed_at rd).
    destruct (open_duration cfg <=? from_millis (sat_sub (elapsed_at rd) opn)) eqn:Hel; simpl.
    + set (w1 := mkWorld (mkInner 2 opn prb clm false win obs) (S rd)
        (match obs with Some o => ob ++ [(o, on_state_change Open HalfOpen "open_elapsed")]
         | None => ob end)).
      destruct (run_probe w1 0 clm) as (r & w' & Hrun & Hspec & Hinv & Hw).
      { inv_fields. }
      { unfold abs; simpl. by rewrite Hopn. }
      { done. }
      assert (Hlt : (0 <? half_open_max_probes cfg) = true).
      { apply Z.ltb_lt. pose proof (cfg_probes _ Hcfg). lia. }
      unfold spec_check in Hspec. rewrite Hen, Hlt in Hspec. simpl in Hspec.
      injection Hspec as <- Habs.
      exists (inl ()), w'. split_and!; [|by rewrite <- Habs|done..].
      rewrite <- Hrun. subst w1. by destruct obs.
    + eexists _, _. split; [done|]. simpl. inv_fields.
  - destruct (abs (inner w)) as [| |n c] eqn:Habs;
      [unfold abs in Habs; rewrite Hst in Habs; discriminate..|].
    destruct (run_probe w n c) as (r & w' & Hrun & Hspec & Hinv & Hw); [done..|].
    exists r, w'. split; [done|]. split_and!; [|done..].
    rewrite <- Hspec. unfold spec_check. by rewrite Hen.
Qed.

(** [record] refines [spec_record]. *)
Lemma run_record_refines o w :
  Inv cfg (inner w) →
  ∃ w', run clock (record cfg baseline instant_min o) w = (tt, w') ∧
    spec_record cfg instant_min o (clock (reads w)) (elapsed_at (S (reads w)))
      (abs (inner w), window (inner w)) = (abs (inner w'), window (inner w')) ∧
    Inv cfg (inner w').
Proof using Hcfg.
  intros HI. pose proof (cfg_probes _ Hcfg) as Hmax. unfold record.
  destruct (enabled cfg) eqn:Hen; simpl.
  2: { eexists. split; [done|]. split; [|done]. unfold spec_record. by rewrite Hen. }
  destruct w as [i rd ob]; simpl in *. unfold spec_record; rewrite Hen; simpl.
  breaker_cases i HI; unfold abs; simpl; fold (elapsed_at (S rd)).
  - destruct obs, o; simpl; (destruct (should_trip cfg _) eqn:Htrip); simpl;
      fold (elapsed_at (S rd)); eexists; (split; [done|]); simpl; inv_fields.
  - destruct obs, o; simpl; eexists; (split; [done|]); simpl; inv_fields.
  - destruct obs, o; simpl; fold (elapsed_at (S rd));
      eexists; (split; [done|]); simpl; inv_fields.
Qed.

(** ** Sequences of operations *)

Inductive breaker_op : Type :=
| OpCheck
| OpRecord (o : Outcome)
| OpIsOpen
| OpErrorRate.

(** One operation and, for [check], its answer. *)
Definition step_op (op : breaker_op) (w : World) : option Admission * World :=
  match op with
  | OpCheck => let '(r, w') := run clock (check cfg baseline) w in (Some r, w')
  | OpRecord o => (None, (run clock (record cfg baseline instant_min o) w).2)
  | OpIsOpen => (None, (run clock is_open w).2)
  | OpErrorRate => (None, (run clock (error_rate cfg instant_min) w).2)
  end.

Fixpoint run_ops (ops : list breaker_op) (w : World) : list Admission * World :=
  match ops with
  | [] => ([], w)
  | op :: ops =>
      let '(r, w1) := step_op op w in
      let '(rs, w2) := run_ops ops w1 in
      (option_list r ++ rs, w2)
  end.

Lemma step_op_inv op w : Inv cfg (inner w) → Inv cfg (inner (step_op op w).2).
Proof using Hcfg.
  intros HI. destruct op; simpl.
  - destruct (run_check_refines w HI) as (r & w' & -> & _ & ? & _). done.
  - destruct (run_record_refines o w HI) as (w' & -> & _ & ?). done.
  - done.
  - unfold error_rate; simpl. destruct HI. split; simpl; auto with rust.
Qed.

Lemma run_ops_inv ops w : Inv cfg (inner w) → Inv cfg (inner (run_ops ops w).2).
Proof using Hcfg.
  revert w. induction ops as [|op ops IH]; intros w HI; simpl; [done|].
  pose proof (step_op_inv op w HI). destruct (step_op op w) as [r w1]; simpl in *.
  specialize (IH w1 ltac:(done)). by destruct (run_ops ops w1).
Qed.
End refinement.

Lemma with_clock_inv c now : 0 ≤ half_open_max_probes c → Inv (with_clock c now).1.1 (with_clock c now).2.
Proof. intros. simpl. inv_fields. Qed.

Lemma clamp_probes_wf c :
  half_open_max_probes c ≤ umax 64 → 0 ≤ open_duration c → config_wf (clamp_probes c).
Proof. intros. pose proof umax_64. split; simpl; lia. Qed.
