(* ===== verification/BreakerThms.v ===== *)
(** The theorems about the circuit breaker run by one thread at a time, each
    an application of the simulation lemmas of [BreakerSpec]. *)
From stdpp Require Import sorting.
From S2P Require Import Prelude Window Breaker BreakerSpec.

(** Running a program only moves forward in the clock's readings. *)
Lemma exec_reads clock {R} (e : action R) w : (reads w ≤ reads (exec clock e w).2)%nat.
Proof.
  destruct e; simpl; repeat case_match; simplify_eq/=; lia.
Qed.

Lemma run_reads clock {A} (p : prog A) w : (reads w ≤ reads (run clock p w).2)%nat.
Proof.
  revert w. induction p as [a|R e k IH]; intros w; simpl; [done|].
  pose proof (exec_reads clock e w). destruct (exec clock e w) as [r w1]; simpl in *.
  etrans; [done|apply IH].
Qed.

Lemma step_op_reads cfg clock b im op w : (reads w ≤ reads (step_op cfg clock b im op w).2)%nat.
Proof.
  destruct op; simpl; [|apply run_reads|done|simpl; lia].
  pose proof (run_reads clock (check cfg b) w). by destruct (run clock (check cfg b) w).
Qed.

Definition rejected (r : Admission) : Prop := match r with inr _ => True | inl _ => False end.

(** A clock reading taken before the cool-down is over. *)
Definition cooling (cfg : BreakerConfig) (o t : Z) : Prop :=
  from_millis (sat_sub t o) < open_duration cfg.

(** One operation on an open breaker during its cool-down. *)
Lemma step_op_cooling cfg clock b im op w o :
  config_wf cfg → enabled cfg = true → Inv cfg (inner w) → abs (inner w) = POpen o →
  cooling cfg o (elapsed_at clock b (reads w)) →
  let '(r, w') := step_op cfg clock b im op w in
  Forall rejected (option_list r) ∧ abs (inner w') = POpen o.
Proof.
  intros Hcfg Hen HI Ho Hc. destruct op; simpl.
  - destruct (run_check_refines cfg Hcfg clock b w HI) as (r & w' & -> & Hs & _).
    unfold cooling in Hc. rewrite Ho in Hs. unfold spec_check in Hs. rewrite Hen in Hs. simpl in Hs.
    rewrite (proj2 (Z.leb_gt _ _)) in Hs by done. simplify_eq. simpl.
    split; [repeat constructor|done].
  - destruct (run_record_refines cfg Hcfg clock b im o0 w HI) as (w' & -> & Hs & _).
    rewrite Ho in Hs. unfold spec_record in Hs. rewrite Hen in Hs. by simplify_eq/=.
  - done.
  - unfold abs in *. by simplify_eq/=.
Qed.

Section theorems.
Context (cfg : BreakerConfig) (clock : nat → Z) (baseline instant_min : Z).

Abbreviation t := (elapsed_at clock baseline).

(** C1: [check] and [record], run alone on a state that satisfies the
    invariant, do exactly what the three-phase specification says: the
    answer, the phase and the window after them are the specification's,
    and the invariant holds again. *)
Theorem breaker_refines_spec w o :
  config_wf cfg → Inv cfg (inner w) →
  (let '(r, w') := run clock (check cfg baseline) w in
   spec_check cfg (t (reads w)) (t (S (reads w))) (abs (inner w)) = (r, abs (inner w')) ∧
   window (inner w') = window (inner w) ∧ Inv cfg (inner w')) ∧
  (let '(_, w') := run clock (record cfg baseline instant_min o) w in
   spec_record cfg instant_min o (clock (reads w)) (t (S (reads w)))
     (abs (inner w), window (inner w)) = (abs (inner w'), window (inner w')) ∧
   Inv cfg (inner w')).
Proof.
  intros Hcfg HI. split.
  - by destruct (run_check_refines cfg Hcfg clock baseline w HI) as (r & w' & -> & ? & ? & ?).
  - by destruct (run_record_refines cfg Hcfg clock baseline instant_min o w HI) as (w' & -> & ?).
Qed.

(** while the cool-down of an open breaker lasts, no sequence of
    operations gets a request through or moves the breaker out of [Open]. *)
Theorem breaker_sheds_during_cooldown ops w o :
  config_wf cfg → enabled cfg = true → Inv cfg (inner w) → abs (inner w) = POpen o →
  (∀ n, (reads w ≤ n)%nat → cooling cfg o (t n)) →
  let '(rs, w') := run_ops cfg clock baseline instant_min ops w in
  Forall rejected rs ∧ abs (inner w') = POpen o.
Proof.
  intros Hcfg Hen. revert w. induction ops as [|op ops IH]; intros w HI Ho Hc; simpl.
  - split; [constructor|done].
  - pose proof (step_op_cooling cfg clock baseline instant_min op w o Hcfg Hen HI Ho (Hc (reads w) (le_n _))) as Hs.
    pose proof (step_op_reads cfg clock baseline instant_min op w) as Hr.
    pose proof (step_op_inv cfg Hcfg clock baseline instant_min op w HI) as HI1.
    destruct (step_op cfg clock baseline instant_min op w) as [r w1]; simpl in *.
    destruct Hs as [Hrej Ho1].
    specialize (IH w1 HI1 Ho1 ltac:(intros; apply Hc; lia)).
    destruct (run_ops _ _ _ _ ops w1) as [rs w2]. destruct IH as [Hrs Ho2].
    split; [by apply Forall_app|done].
Qed.

(** C40: a breaker cannot be stranded.  Once the cool-down (from [Open]) or
    the lease of the last probe claim (from [HalfOpen], whatever became of
    its owners) is over, the next [check] is admitted, and a [Success]
    recorded after it closes the breaker and empties its window. *)
Theorem breaker_recovers w :
  config_wf cfg → enabled cfg = true → Inv cfg (inner w) →
  match abs (inner w) with
  | PClosed => False
  | POpen o => open_duration cfg ≤ from_millis (sat_sub (t (reads w)) o)
  | PHalf _ c => lease cfg ≤ sat_sub (t (reads w)) c
  end →
  let '(r, w1) := run clock (check cfg baseline) w in
  let '(_, w2) := run clock (record cfg baseline instant_min Success) w1 in
  r = inl tt ∧ abs (inner w2) = PClosed ∧ window (inner w2) = sw_new.
Proof.
  intros Hcfg Hen HI Hlate.
  destruct (run_check_refines cfg Hcfg clock baseline w HI) as (r & w1 & -> & Hs & HI1 & _).
  destruct (run_record_refines cfg Hcfg clock baseline instant_min Success w1 HI1)
    as (w2 & -> & Hr & _).
  unfold spec_check in Hs. unfold spec_record in Hr. rewrite Hen in Hs, Hr. simpl in *.
  destruct (abs (inner w)) as [|o|n c]; [done| |].
  - rewrite (proj2 (Z.leb_le _ _)) in Hs by done.
    injection Hs as <- Habs. rewrite <- Habs in Hr. by simplify_eq.
  - rewrite (proj2 (Z.leb_le (lease cfg) _)) in Hs by done.
    destruct (n <? _); injection Hs as <- Habs; rewrite <- Habs in Hr; by simplify_eq.
Qed.

(** the [retry_after] of a rejection is between zero and the
    cool-down, and when the breaker is open it is enough: any later check
    of the same outage, made [retry_after] or more after this one, is let
    through. *)
Theorem breaker_retry_after_sound w e w' o :
  config_wf cfg → enabled cfg = true → Inv cfg (inner w) →
  run clock (check cfg baseline) w = (inr e, w') →
  0 ≤ retry_after e ≤ open_duration cfg ∧
  (abs (inner w) = POpen o → o ≤ t (reads w) →
   ∀ w2, Inv cfg (inner w2) → abs (inner w2) = POpen o →
     from_millis (t (reads w)) + retry_after e ≤ from_millis (t (reads w2)) →
     (run clock (check cfg baseline) w2).1 = inl tt).
Proof.
  intros Hcfg Hen HI Hrun. pose proof (cfg_open_duration _ Hcfg) as Hd.
  destruct (run_check_refines cfg Hcfg clock baseline w HI) as (r & w1 & Hrun' & Hs & _).
  rewrite Hrun in Hrun'. simplify_eq. unfold spec_check in Hs. rewrite Hen in Hs. simpl in Hs.
  split.
  - destruct (abs (inner w)) as [|o'|n c]; [done| |]; case_split;
      unfold HALF_OPEN_PROBE_BACKOFF, sat_sub, from_millis in *; simpl; try lia.
  - intros Ho Hle w2 HI2 Ho2 Hlate. rewrite Ho in Hs.
    destruct (Z.leb_spec (open_duration cfg) (from_millis (sat_sub (t (reads w)) o))) as [|Hlt];
      simplify_eq. simpl in Hlate.
    destruct (run_check_refines cfg Hcfg clock baseline w2 HI2) as (r2 & w2' & -> & Hs2 & _).
    rewrite Ho2 in Hs2. unfold spec_check in Hs2. rewrite Hen in Hs2. simpl in *.
    rewrite (proj2 (Z.leb_le _ _)) in Hs2; [by simplify_eq|].
    unfold sat_sub, from_millis in *. lia.
Qed.

(** whatever operations a thread performs on a freshly built breaker,
    the lock-free mirror agrees with the authoritative state, the state byte
    is one of the three, no more probe slots are held than configured, and
    the window's failure counter is the number of failing samples in it. *)
Theorem breaker_reachable_inv c now ops :
  0 ≤ half_open_max_probes c ≤ umax 64 → 0 ≤ open_duration c →
  let '(cfg', base, i0) := with_clock c now in
  let i := inner (run_ops cfg' clock base instant_min ops (mkWorld i0 0 [])).2 in
  state i ∈ [0; 1; 2] ∧
  is_open_fast i = bool_decide (from_u8 (state i) = Open) ∧
  0 ≤ half_open_probes i ≤ Z.max (half_open_max_probes c) 1 ∧
  sw_failures (window i) = countb snd (sw_entries (window i)) ∧
  zlen (sw_entries (window i)) ≤ MAX_WINDOW_ENTRIES.
Proof.
  intros Hp Hd. simpl.
  pose proof (run_ops_inv _ (clamp_probes_wf c (proj2 Hp) Hd) clock now instant_min ops
    (mkWorld (with_clock c now).2 0 []) (with_clock_inv c now (proj1 Hp))) as HI.
  simpl in HI. destruct HI as [[s Hs] Hm [Hf Hb] Hpr _]. simpl in Hpr.
  split_and!; [|done|lia|lia|done|done].
  rewrite Hs. apply list_elem_of_In. destruct s; simpl; auto.
Qed.
End theorems.

(** * Witnesses *)

Section witnesses.
(** One sample is enough to trip; the cool-down is 50 ms; the clock ticks
    every 20 ms. *)
Definition cfg_w : BreakerConfig := mkConfig (from_secs 60) 1 f64_half (from_millis 50) 1 {[500]} true.
Definition clock_w (n : nat) : Z := from_millis (20 * Z.of_nat n).
Definition closed_w : World := mkWorld (with_clock cfg_w 0).2 0 [].
(** Tripped by one failure, at 20 ms. *)
Definition open_w : World := (run_ops cfg_w clock_w 0 0 [OpRecord Failure] closed_w).2.

Lemma cfg_w_wf : config_wf cfg_w.
Proof. by vm_compute. Defined.

Lemma open_w_inv : Inv cfg_w (inner open_w).
Proof. apply run_ops_inv, (with_clock_inv cfg_w); [apply cfg_w_wf|by vm_compute]. Defined.

Lemma breaker_refines_spec_witness :
  Inv cfg_w (inner (run clock_w (check cfg_w 0) open_w).2).
Proof.
  pose proof (breaker_refines_spec cfg_w clock_w 0 0 open_w Failure cfg_w_wf open_w_inv) as [H _].
  destruct (run clock_w (check cfg_w 0) open_w) as [r w']. apply H.
Defined.

Lemma breaker_reachable_inv_witness :
  is_open_fast (inner open_w) = bool_decide (from_u8 (state (inner open_w)) = Open).
Proof.
  destruct (breaker_reachable_inv clock_w 0 cfg_w 0 [OpRecord Failure])
    as (_ & H & _); [by vm_compute..|exact H].
Defined.

Lemma breaker_sheds_during_cooldown_witness :
  let '(rs, w') := run_ops cfg_w (λ _, from_millis 25) 0 0 [OpCheck; OpRecord Success; OpCheck] open_w in
  Forall rejected rs ∧ abs (inner w') = POpen 20.
Proof.
  apply breaker_sheds_during_cooldown;
    [apply cfg_w_wf|reflexivity|apply open_w_inv|reflexivity|].
  intros n _. reflexivity.
Defined.

Lemma breaker_recovers_witness :
  let clock := λ _, from_millis 70 in
  let '(r, w1) := run clock (check cfg_w 0) open_w in
  let '(_, w2) := run clock (record cfg_w 0 0 Success) w1 in
  r = inl tt ∧ abs (inner w2) = PClosed ∧ window (inner w2) = sw_new.
Proof.
  intros clock. apply (breaker_recovers cfg_w clock 0 0 open_w);
    [apply cfg_w_wf|reflexivity|apply open_w_inv|].
  vm_compute. discriminate.
Defined.

Lemma breaker_retry_after_sound_witness :
  ∃ e w', run clock_w (check cfg_w 0) open_w = (inr e, w') ∧ 0 ≤ retry_after e ≤ open_duration cfg_w.
Proof.
  eexists _, _. split; [vm_compute; reflexivity|].
  eapply (breaker_retry_after_sound cfg_w clock_w 0 open_w _ _ 20 cfg_w_wf eq_refl open_w_inv).
  vm_compute. reflexivity.
Defined.
End witnesses.
