(* ===== verification/BreakerConc.v ===== *)
(** The circuit breaker shared by several threads
    (src/crates/common/circuit-breaker/src/breaker.rs).

    A configuration is the world and one program per thread; a step lets one
    thread perform its next atomic action.  The programs are those of
    [Breaker], so an interleaving here is an interleaving of the source's
    atomic loads, stores, exchanges and critical sections (sequentially
    consistent, which is stronger than the source's Acquire/Release
    orderings: what goes wrong here goes wrong there). *)
From S2P Require Import Prelude Window Breaker BreakerSpec BreakerThms.

Section conc.
Context {R : Type} (clock : nat → Z).

Definition config : Type := World * list (prog R).

(** The next action of a program that has one. *)
Definition step_prog (p : prog R) (w : World) : option (prog R * World) :=
  match p with
  | Ret _ => None
  | Do e k => let '(r, w') := exec clock e w in Some (k r, w')
  end.

Inductive conc_step : config → config → Prop :=
| conc_step_thread w ts n p p' w' :
    ts !! n = Some p → step_prog p w = Some (p', w') →
    conc_step (w, ts) (w', <[n := p']> ts).

(** The step of thread [n], if it has one. *)
Definition step_nth (n : nat) (c : config) : option config :=
  p ← c.2 !! n; '(p', w') ← step_prog p c.1; Some (w', <[n := p']> c.2).

Fixpoint run_schedule (sched : list nat) (c : config) : option config :=
  match sched with
  | [] => Some c
  | n :: sched => c' ← step_nth n c; run_schedule sched c'
  end.

Lemma run_schedule_steps sched c c' :
  run_schedule sched c = Some c' → rtc conc_step c c'.
Proof.
  revert c. induction sched as [|n sched IH]; intros c; simpl; [intros [= ->]; apply rtc_refl|].
  intros (c1 & Hstep & Hrun)%bind_Some. eapply rtc_l; [|by apply IH].
  destruct c as [w ts]. apply bind_Some in Hstep as (q & Hq & [[q' w'] [Hst ?]]%bind_Some).
  simplify_eq. by econstructor.
Qed.

(** ** Invariants of the shared state kept by every atomic action *)

(** An action that cannot break the state byte or the window. *)
Definition action_ok {B} (e : action B) : Prop :=
  match e with
  | AStoreState v => ∃ s, v = state_u8 s
  | ACasState _ new => ∃ s, new = state_u8 s
  | AWindow f => ∀ w, window_wf w → window_wf (f w).2
  | _ => True
  end.

Definition shared_ok (i : Inner) : Prop :=
  (∃ s, state i = state_u8 s) ∧ window_wf (window i).

Lemma exec_shared_ok {B} (e : action B) w :
  action_ok e → shared_ok (inner w) → shared_ok (inner (exec clock e w).2).
Proof.
  intros He [Hs Hw]. destruct e; simpl in *; repeat case_match; simplify_eq/=; split; simpl; auto.
  match goal with H : f _ = _ |- _ => specialize (He _ Hw); by rewrite H in He end.
Qed.
End conc.

(** A program all of whose actions are harmless, whatever they read. *)
Inductive prog_ok {A} : prog A → Prop :=
| prog_ok_ret a : prog_ok (Ret a)
| prog_ok_do B (e : action B) k : action_ok e → (∀ r, prog_ok (k r)) → prog_ok (Do e k).

Lemma prog_ok_bind {A B} (p : prog A) (f : A → prog B) :
  prog_ok p → (∀ a, prog_ok (f a)) → prog_ok (p ≫= f).
Proof. intros Hp Hf. unfold mbind, prog_mbind. induction Hp; simpl; [done|by constructor]. Qed.

Ltac prog_ok :=
  repeat first
    [ progress simpl | apply prog_ok_ret | apply prog_ok_bind; [|intros ?]
    | apply prog_ok_do; [|intros ?]
    | case_match | by exists Closed | by exists Open | by exists HalfOpen | done | (intros ? ?; simpl; auto with rust; done)
    | progress (unfold perform) ].

Section programs.
Context (cfg : BreakerConfig) (baseline instant_min : Z).

Lemma check_ok : prog_ok (check cfg baseline).
Proof.
  unfold check, try_half_open_probe, check_open, load_state, cas_state, elapsed_millis. prog_ok.
Qed.

Lemma record_ok o : prog_ok (record cfg baseline instant_min o).
Proof.
  unfold record, load_state, trip, close, elapsed_millis. prog_ok.
Qed.
End programs.

(** ** At most the configured number of probes

    Threads that all run [check] on a half-open breaker, during a burst
    shorter than the lease: each is in one of four roles, and the probe
    counter is the sum of the slots claimed before the burst, those the burst
    claimed, and the increments that are about to be undone. *)

Inductive role : Type := Fresh | Holding | Pending | Lost.
#[global] Instance role_eq_dec : EqDecision role.
Proof. solve_decision. Defined.

#[local] Arguments countb : simpl never.

Definition is_role (a b : role) : bool := bool_decide (a = b).

Definition admitted (p : prog Admission) : bool :=
  match p with Ret (inl _) => true | _ => false end.

Section burst.
Context (cfg : BreakerConfig) (baseline : Z) (clock : nat → Z) (claimed0 n0 : Z).
Context (Hcfg : config_wf cfg) (Hen : enabled cfg = true).
Abbreviation t := (elapsed_at clock baseline).

(** A claim made before or during the burst. *)
Definition claim (c : Z) : Prop := c = claimed0 ∨ ∃ n, c = t n.
Definition reading (x : Z) : Prop := ∃ n, x = t n.

(** The burst is shorter than the lease, so no claim ever looks abandoned. *)
Context (Hshort : ∀ x c, reading x → claim c → sat_sub x c < lease cfg).

Definition after_add (now prev : Z) : prog Admission :=
  if prev <? half_open_max_probes cfg then
    _ ← perform (AStoreClaimed now);
    _ ← perform (AObserve (on_probe_admission true));
    Ret (inl tt)
  else
    _ ← perform AFetchSubProbes;
    let lease_millis := as_millis_u64 (open_duration cfg) in
    claimed ← perform ALoadClaimed;
    won ← (if lease_millis <=? sat_sub now claimed
           then perform (ACasClaimed claimed now) else Ret false);
    if won : bool then
      _ ← perform (AObserve (on_probe_admission true));
      Ret (inl tt)
    else
      _ ← perform (AObserve (on_probe_admission false));
      Ret (inr (mkBreakerOpen (Z.min HALF_OPEN_PROBE_BACKOFF (open_duration cfg)))).

(** What is left to run of a thread, by role. *)
Inductive thread_in : role → prog Admission → Prop :=
| in_start : thread_in Fresh (check cfg baseline)
| in_clock : thread_in Fresh (try_half_open_probe cfg baseline)
| in_add now : reading now → thread_in Fresh (Do AFetchAddProbes (after_add now))
| in_store now : reading now → thread_in Holding
    (Do (AStoreClaimed now) (λ _, Do (AObserve (on_probe_admission true)) (λ _, Ret (inl tt))))
| in_tell : thread_in Holding (Do (AObserve (on_probe_admission true)) (λ _, Ret (inl tt)))
| in_ok : thread_in Holding (Ret (inl tt))
| in_sub now p : reading now → p = after_add now (half_open_max_probes cfg) →
    thread_in Pending p
| in_load now p : reading now →
    (∀ c, claim c → ∃ e, p c = Do (AObserve (on_probe_admission false)) (λ _, Ret (inr e))) →
    thread_in Lost (Do ALoadClaimed p)
| in_refuse e : thread_in Lost (Do (AObserve (on_probe_admission false)) (λ _, Ret (inr e)))
| in_err e : thread_in Lost (Ret (inr e)).

(** The invariant of the burst. *)
Record burst_inv (c : @config Admission) : Prop := {
  b_state : state (inner c.1) = state_u8 HalfOpen;
  b_claim : claim (probe_claimed_at_millis (inner c.1));
  b_roles : ∃ roles, Forall2 thread_in roles c.2 ∧
    half_open_probes (inner c.1)
      = n0 + countb (is_role Holding) roles + countb (is_role Pending) roles ∧
    n0 + countb (is_role Holding) roles ≤ half_open_max_probes cfg;
  b_small : n0 + zlen c.2 ≤ umax 64;
}.

Lemma countb_insert (p : role → bool) (l : list role) n x y :
  l !! n = Some x →
  countb p (<[n := y]> l) = countb p l - (if p x then 1 else 0) + (if p y then 1 else 0).
Proof.
  revert n. induction l as [|a l IH]; intros [|n]; simpl; intros; simplify_eq;
    rewrite !countb_cons; [lia|]. rewrite (IH n) by done. lia.
Qed.

Lemma countb_two (l : list role) :
  0 ≤ countb (is_role Holding) l ∧ 0 ≤ countb (is_role Pending) l ∧
  countb (is_role Holding) l + countb (is_role Pending) l ≤ zlen l.
Proof.
  induction l as [|[] l IH]; autorewrite with rust; unfold is_role in *; simpl; lia.
Qed.

Lemma countb_lt (l : list role) n :
  l !! n = Some Fresh →
  countb (is_role Holding) l + countb (is_role Pending) l < zlen l.
Proof.
  revert n. induction l as [|a l IH]; intros [|n]; simpl; intros; simplify_eq;
    autorewrite with rust; pose proof (countb_two l); unfold is_role in *; simpl; [lia|].
  specialize (IH n ltac:(done)). destruct a; simpl; lia.
Qed.

(** What a role contributes to the probe counter. *)
Definition weight (x : role) : Z :=
  (if is_role Holding x then 1 else 0) + (if is_role Pending x then 1 else 0).

(** One step of one thread of the burst. *)
Lemma burst_thread x p w p' w' :
  thread_in x p → step_prog clock p w = Some (p', w') →
  state (inner w) = state_u8 HalfOpen → claim (probe_claimed_at_millis (inner w)) →
  0 ≤ half_open_probes (inner w) < umax 64 ∨
    (0 ≤ half_open_probes (inner w) ≤ umax 64 ∧ x ≠ Fresh) →
  (x = Pending → 1 ≤ half_open_probes (inner w)) →
  ∃ y, thread_in y p' ∧ state (inner w') = state_u8 HalfOpen ∧
    claim (probe_claimed_at_millis (inner w')) ∧
    half_open_probes (inner w') = half_open_probes (inner w) + weight y - weight x ∧
    (y = Holding → x = Holding ∨ half_open_probes (inner w) < half_open_max_probes cfg).
Proof using Hen Hshort.
  intros Hin Hstep Hst Hcl Hpr Hpend. destruct w as [i rd ob]; simpl in *.
  assert (Hin' := Hin).
  destruct Hin as [| |now Hn|now Hn| | |now q Hn ->|now q Hn Hq|e|e]; simpl in Hstep; try done.
  - unfold check in Hstep. rewrite Hen in Hstep. simpl in Hstep. rewrite Hst in Hstep.
    simplify_eq/=. exists Fresh. split_and!; [apply in_clock|done|done|lia|done].
  - simplify_eq/=. exists Fresh. split_and!; [|done|done|lia|done].
    apply (in_add (t rd)). by exists rd.
  - assert (0 ≤ half_open_probes i < umax 64) by (destruct Hpr as [|[_ ?]]; done).
    simplify_eq/=. rewrite wrap_id by rlia.
    destruct (Z.ltb_spec (half_open_probes i) (half_open_max_probes cfg)) as [Hlt|Hge].
    + exists Holding. split_and!; [|done|done|unfold weight, is_role; simpl; lia|by right].
      unfold after_add. rewrite (proj2 (Z.ltb_lt _ _)) by done. by apply in_store.
    + exists Pending. split_and!; [|done|done|unfold weight, is_role; simpl; lia|done].
      apply (in_sub now); [done|]. unfold after_add.
      by rewrite Z.ltb_irrefl, (proj2 (Z.ltb_ge _ _)).
  - simplify_eq/=. exists Holding. split_and!; [apply in_tell|done| |lia|by left].
    destruct Hn as [m ->]. right. by exists m.
  - exists Holding. destruct (observer i); simplify_eq/=;
      (split_and!; [apply in_ok|done|done|lia|by left]).
  - unfold after_add in Hstep. rewrite Z.ltb_irrefl in Hstep. simplify_eq/=.
    exists Lost. specialize (Hpend eq_refl).
    rewrite wrap_id by (destruct Hpr; rlia).
    split_and!; [|done|done|unfold weight, is_role; simpl; lia|done].
    eapply in_load; [done|]. intros c Hc. fold (lease cfg).
    rewrite (proj2 (Z.leb_gt _ _)) by (by apply Hshort). by eexists.
  - destruct (Hq _ Hcl) as [e He]. simplify_eq/=. exists Lost.
    rewrite He. split_and!; [apply in_refuse|done|done|lia|done].
  - exists Lost. destruct (observer i); simplify_eq/=;
      (split_and!; [apply in_err|done|done|lia|done]).
Qed.

Lemma burst_step c c' :
  0 ≤ n0 → burst_inv c → conc_step clock c c' → burst_inv c'.
Proof using Hen Hshort.
  intros Hn0 [Hst Hcl (roles & Hroles & Hpr & Hmax) Hsm] Hstep.
  destruct Hstep as [w ts n p p' w' Hn Hp]; simpl in *.
  destruct (Forall2_lookup_r _ _ _ _ _ Hroles Hn) as (x & Hx & Hin).
  pose proof (countb_two roles) as Htwo. pose proof (Forall2_length _ _ _ Hroles) as Hlen.
  assert (zlen roles = zlen ts) as Hz by (unfold zlen; by rewrite Hlen).
  destruct (burst_thread x p w p' w' Hin Hp Hst Hcl) as (y & Hy & Hst' & Hcl' & Hpr' & Hadm).
  { destruct (decide (x = Fresh)) as [->|]; [left|right; split; [lia|done]].
    pose proof (countb_lt roles n Hx). lia. }
  { intros ->. rewrite Hpr. pose proof (countb_insert (is_role Pending) roles n Pending Fresh Hx) as Hi.
    pose proof (countb_bounds (is_role Pending) (<[n:=Fresh]> roles)).
    unfold is_role in *; simpl in *. lia. }
  split; simpl; [done|done| |unfold zlen in *; by rewrite length_insert].
  exists (<[n := y]> roles). split; [by apply Forall2_insert|].
  rewrite !(countb_insert _ roles n x y Hx), Hpr', Hpr. unfold weight. split; [lia|].
  destruct (decide (y = Holding)) as [->|Hne].
  - destruct (Hadm eq_refl) as [->|Hlt]; unfold is_role in *; simpl in *; [lia|].
    destruct x; simpl; lia.
  - unfold is_role in *. destruct x, y; simpl in *; try done; lia.
Qed.

(** Admitted threads hold a slot. *)
Lemma burst_admitted c :
  burst_inv c → n0 + countb admitted c.2 ≤ half_open_max_probes cfg.
Proof using Hen.
  intros [_ _ (roles & Hroles & _ & Hmax) _].
  assert (countb admitted c.2 ≤ countb (is_role Holding) roles) as ?; [|lia].
  clear Hmax. induction Hroles as [|x p roles ts Hin _ IH]; autorewrite with rust; [lia|].
  enough ((if admitted p then 1 else 0) ≤ (if is_role Holding x then 1 else 0)) by lia.
  destruct Hin; unfold is_role; simpl; try lia.
  - unfold check. rewrite Hen. simpl. lia.
  - subst p. unfold after_add. rewrite Z.ltb_irrefl. simpl. lia.
Qed.
End burst.

(** * Theorems *)

(** A thread performing one operation of the breaker, its answer dropped. *)
Definition op_prog (cfg : BreakerConfig) (baseline instant_min : Z) (op : breaker_op) : prog unit :=
  match op with
  | OpCheck => _ ← check cfg baseline; Ret tt
  | OpRecord o => record cfg baseline instant_min o
  | OpIsOpen => _ ← is_open; Ret tt
  | OpErrorRate => _ ← error_rate cfg instant_min; Ret tt
  end.

Lemma op_prog_ok cfg baseline instant_min op : prog_ok (op_prog cfg baseline instant_min op).
Proof.
  destruct op; simpl; [apply prog_ok_bind; [apply check_ok|intros _] | apply record_ok | | ];
    unfold is_open, error_rate; prog_ok.
Qed.

Lemma step_prog_shared_ok {R} clock (p : prog R) w p' w' :
  prog_ok p → shared_ok (inner w) → step_prog clock p w = Some (p', w') →
  prog_ok p' ∧ shared_ok (inner w').
Proof.
  intros Hp Hw Hstep. destruct Hp as [a|B e k He Hk]; simpl in Hstep; [done|].
  pose proof (exec_shared_ok clock e w He Hw). destruct (exec clock e w). by simplify_eq.
Qed.

(** Whatever operations any number of threads perform, in any interleaving of
    their atomic actions, the state byte is one of the three (the
    [debug_assert] of [from_u8] cannot fire) and the window keeps its bound
    and an exact failure counter. *)
Theorem breaker_interleaving_safe cfg clock baseline instant_min ops w c' :
  shared_ok (inner w) →
  rtc (conc_step clock) (w, op_prog cfg baseline instant_min <$> ops) c' →
  shared_ok (inner c'.1).
Proof.
  intros Hw Hsteps.
  apply (rtc_invariant _ (λ c, shared_ok (inner c.1) ∧ Forall prog_ok c.2)) in Hsteps;
    [by destruct Hsteps|..].
  2: { split; [done|]. apply Forall_fmap, Forall_forall. intros op _. apply op_prog_ok. }
  - intros c1 c2 [Hok Hall] Hstep. destruct Hstep as [w1 ts n p p' w2 Hn Hp]; simpl in *.
    pose proof (Forall_lookup_1 _ _ _ _ Hall Hn) as Hpok.
    destruct (step_prog_shared_ok clock p w1 p' w2 Hpok Hok Hp).
    split; [done|]. by apply Forall_insert.
Qed.

(** C39: the probe limit under concurrency.  Any number of threads (no more
    than a [usize] counts) that call [check] at once on an enabled, half-open
    breaker, in any interleaving of their atomic actions (sequentially
    consistent), are never admitted beyond the free probe slots: those taken
    before and those admitted in the burst are together at most
    [half_open_max_probes], however often a loser adds to the counter and takes
    back.  The burst is shorter than the lease, so no claim looks abandoned:
    no reading of the clock is a lease or more past another one, or past the
    claim that stands when the burst begins. *)
Theorem burst_admits_at_most_max cfg clock baseline w n c' :
  config_wf cfg → enabled cfg = true →
  state (inner w) = state_u8 HalfOpen →
  0 ≤ half_open_probes (inner w) ≤ half_open_max_probes cfg →
  half_open_probes (inner w) + Z.of_nat n ≤ umax 64 →
  (∀ m m', sat_sub (elapsed_at clock baseline m) (elapsed_at clock baseline m') < lease cfg ∧
     sat_sub (elapsed_at clock baseline m) (probe_claimed_at_millis (inner w)) < lease cfg) →
  rtc (conc_step clock) (w, replicate n (check cfg baseline)) c' →
  half_open_probes (inner w) + countb admitted c'.2 ≤ half_open_max_probes cfg.
Proof.
  intros Hcfg Hen Hst Hpr Hsmall Hshort Hsteps.
  assert (Hsh : ∀ x c, reading baseline clock x →
      claim baseline clock (probe_claimed_at_millis (inner w)) c → sat_sub x c < lease cfg).
  { intros x c [m ->] [->|[m' ->]]; [apply (Hshort m m)|apply (Hshort m m')]. }
  apply (burst_admitted cfg baseline clock (probe_claimed_at_millis (inner w))); [done|].
  eapply (rtc_invariant _ (burst_inv _ _ _ _ _)); [|done|].
  { intros c1 c2 HI Hstep. eapply burst_step; [done|done|lia|done|done]. }
  split; simpl; [done|by left| |unfold zlen; by rewrite length_replicate].
  exists (replicate n Fresh).
  assert (countb (is_role Holding) (replicate n Fresh) = 0 ∧
    countb (is_role Pending) (replicate n Fresh) = 0) as [-> ->].
  { clear. induction n; simpl; [done|]. rewrite !countb_cons. unfold is_role in *. simpl. lia. }
  split_and!; [|lia|lia]. clear. induction n; simpl; constructor; [apply in_start|done].
Qed.

(** * What concurrency breaks *)

(** Every reading is 100 ms: past the 50 ms cool-down of [open_w], which was
    tripped at 20 ms. *)
Definition clock_100 (n : nat) : Z := from_millis 100.

(** Thread 0 moves the breaker to [HalfOpen] and takes the only slot, but has
    not stored its claim yet when thread 1 finds the slot taken. *)
Definition steal_schedule : list nat :=
  replicate 8 0%nat ++ replicate 7 1%nat ++ replicate 2 0%nat.

(** with a single probe slot configured and no probe lost, two concurrent
    [check]s can both be admitted: a loser that reads the claim time before
    the winner has stored its own sees the claim of an earlier outage, takes
    it for an abandoned one, and takes it over. *)
Theorem two_probes_admitted :
  half_open_max_probes cfg_w = 1 ∧
  ∃ w', rtc (conc_step clock_100) (open_w, [check cfg_w 0; check cfg_w 0])
          (w', [Ret (inl tt); Ret (inl tt)]).
Proof.
  split; [done|]. eexists. apply (run_schedule_steps _ steal_schedule). vm_compute. reflexivity.
Qed.

(** The half-open breaker after one admitted probe. *)
Definition probing_w : World := (run clock_100 (check cfg_w 0) open_w).2.

(** Thread 0 has found the slot taken and is about to undo its increment when
    thread 1 records the failed probe, and trips. *)
Definition underflow_schedule : list nat :=
  replicate 3 0%nat ++ replicate 10 1%nat ++ replicate 3 0%nat.

(** the probe counter is not always zero in [Open], as [check_open] relies
    on: a [check] that races the [trip] of a failed probe undoes its increment
    after the counter was cleared, and leaves it at the largest [usize]. *)
Theorem probe_counter_underflows :
  ∃ w', rtc (conc_step clock_100)
          (probing_w, [op_prog cfg_w 0 0 OpCheck; op_prog cfg_w 0 0 (OpRecord Failure)])
          (w', [Ret tt; Ret tt]) ∧
        from_u8 (state (inner w')) = Open ∧ half_open_probes (inner w') = umax 64.
Proof.
  eexists. split; [apply (run_schedule_steps _ underflow_schedule); vm_compute; reflexivity|].
  by vm_compute.
Qed.

(** * Witnesses *)

Lemma burst_admits_at_most_max_witness :
  ∃ c', rtc (conc_step clock_100) (probing_w, replicate 2 (check cfg_w 0)) c' ∧
    1 + countb admitted c'.2 ≤ 1.
Proof.
  eexists. split; [apply (run_schedule_steps _ (replicate 6 0%nat ++ replicate 6 1%nat)); vm_compute; reflexivity|].
  apply (burst_admits_at_most_max cfg_w clock_100 0 probing_w 2);
    [apply cfg_w_wf|reflexivity|reflexivity|split; vm_compute; discriminate
    |vm_compute; discriminate|intros; split; vm_compute; reflexivity|].
  apply (run_schedule_steps _ (replicate 6 0%nat ++ replicate 6 1%nat)); vm_compute; reflexivity.
Defined.
