(* ===== verification/BreakerEnv.v ===== *)
(** The circuit breaker's configuration from the environment
    (src/crates/common/circuit-breaker/src/config.rs) and the registry of
    breakers by key (registry.rs).

    The environment is the [get] closure the code takes.  [String::parse] is
    [Str.parse_uint], [Str.parse_bool] and, for [f64], [parse_f64] below:
    the literal's exact rational value, rounded once. *)
From Stdlib Require Import SpecFloat.
From S2P Require Import Prelude Str Float Window Breaker BreakerSpec.

(** * [str::parse::<f64>] *)

(** The longest prefix of digits, as a number read on from [acc], their
    count, and what follows. *)
Fixpoint take_digits (acc n : Z) (s : rstr) : Z * Z * rstr :=
  match s with
  | c :: s' =>
      match digit_of c with
      | Some d => take_digits (acc * 10 + d) (n + 1) s'
      | None => (acc, n, s)
      end
  | [] => (acc, n, [])
  end.

(** An optional sign. *)
Definition take_sign (s : rstr) : bool * rstr :=
  match s with
  | c :: s' => if c =? 45 then (true, s') else if c =? 43 then (false, s') else (false, s)
  | [] => (false, [])
  end.

(** [m * 10 ^ e], correctly rounded. *)
Definition f64_of_decimal (neg : bool) (m e : Z) : f64 :=
  match m with
  | Z.pos p =>
      let num := if 0 <=? e then (p * Z.to_pos (10 ^ e))%positive else p in
      let den := if 0 <=? e then 1%positive else Z.to_pos (10 ^ (- e)) in
      SFdiv 53 1024 (S754_finite neg num 0) (S754_finite false den 0)
  | _ => S754_zero neg
  end.

(** The exponent part: absent, or [e] with a sign and one digit at least,
    up to the end. *)
Definition parse_exponent (s : rstr) : option Z :=
  match s with
  | [] => Some 0
  | c :: s' =>
      if (c =? 101) || (c =? 69) then
        let '(neg, s1) := take_sign s' in
        let '(e, n, rest) := take_digits 0 0 s1 in
        if (n =? 0) || negb (is_empty rest) then None
        else Some (if neg : bool then - e else e)
      else None
  end.

Definition parse_f64 (s : rstr) : option f64 :=
  let '(neg, s1) := take_sign s in
  let '(ip, n1, s2) := take_digits 0 0 s1 in
  let '(m, n2, s3) :=
    match s2 with
    | c :: s' => if c =? 46 then take_digits ip 0 s' else (ip, 0, s2)
    | [] => (ip, 0, s2)
    end in
  let number :=
    if n1 + n2 =? 0 then None
    else e ← parse_exponent s3; Some (f64_of_decimal neg m (e - n2)) in
  match number with
  | Some f => Some f
  | None =>
      if decide (to_ascii_lowercase s1 = lit "nan") then Some S754_nan
      else if decide (to_ascii_lowercase s1 = lit "inf" ∨ to_ascii_lowercase s1 = lit "infinity")
      then Some (S754_infinity neg)
      else None
  end.

(** * The environment *)

Definition lookup_or {T} (parse : rstr → option T) (get : rstr → option rstr)
    (key : rstr) (default : T) : T :=
  match get key with
  | Some v => match parse v with Some parsed => parsed | None => default end
  | None => default
  end.

Definition parse_failure_codes (s : rstr) : gset Z :=
  list_to_set (omap (λ c, parse_uint 16 (trim c)) (split_char 44 s)).

Definition env_failure_codes (get : rstr → option rstr) (key : rstr) : gset Z :=
  match get key with
  | Some raw =>
      let codes := parse_failure_codes raw in
      if decide (codes = ∅) then default_failure_codes else codes
  | None => default_failure_codes
  end.

Definition from_lookup_with_prefix (prefix : rstr) (get : rstr → option rstr) : BreakerConfig :=
  let key k := prefix ++ lit k in
  mkConfig
    (from_secs (lookup_or (parse_uint 64) get (key "WINDOW_SECS") 60))
    (lookup_or (parse_uint 64) get (key "MIN_SAMPLES") 10)
    (lookup_or parse_f64 get (key "ERROR_RATE_THRESHOLD") f64_half)
    (from_secs (lookup_or (parse_uint 64) get (key "OPEN_DURATION_SECS") 10))
    (Z.max (lookup_or (parse_uint 64) get (key "HALF_OPEN_MAX_PROBES") 1) 1)
    (env_failure_codes get (key "FAILURE_CODES"))
    (lookup_or parse_bool get (key "ENABLED") true).

Example parse_f64_point_eight : parse_f64 (lit "0.8") = Some (f64_div (f64_of_Z 4) (f64_of_Z 5)).
Proof. reflexivity. Qed.
Example parse_f64_forms :
  parse_f64 (lit "+.5e0") = Some f64_half ∧ parse_f64 (lit "5e-1") = Some f64_half ∧
  parse_f64 (lit "abc") = None ∧ parse_f64 (lit "") = None ∧ parse_f64 (lit "1e") = None ∧
  parse_f64 (lit "-Inf") = Some (S754_infinity true) ∧ parse_f64 (lit "1e400") = Some (S754_infinity false).
Proof. repeat split; reflexivity. Qed.

(** * The registry *)

(** [Arc]s are locations of a heap of breakers; the lock is held through
    [get], which is therefore one step. *)
Definition BreakerRef : Type := positive.

Record Heap : Type := mkHeap {
  breakers_at : gmap BreakerRef (BreakerConfig * Z * Inner);
  next_ref : BreakerRef;
}.

Record Registry : Type := mkRegistry {
  reg_config : BreakerConfig;
  reg_breakers : gmap rstr BreakerRef;
}.

Definition registry_new (c : BreakerConfig) : Registry := mkRegistry c ∅.

Definition registry_get (key : rstr) (now : Z) (hr : Heap * Registry)
    : option BreakerRef * (Heap * Registry) :=
  let '(h, r) := hr in
  if negb (enabled (reg_config r)) then (None, hr)
  else
    match reg_breakers r !! key with
    | Some cb => (Some cb, hr)
    | None =>
        let cb := next_ref h in
        let h' := mkHeap (<[cb := with_clock (reg_config r) now]> (breakers_at h)) (Pos.succ cb) in
        (Some cb, (h', mkRegistry (reg_config r) (<[key := cb]> (reg_breakers r))))
    end.

(** Every breaker of the registry lives in the heap, below the next free
    location, and no two keys share one. *)
Record registry_wf (hr : Heap * Registry) : Prop := {
  reg_live : ∀ k cb, reg_breakers hr.2 !! k = Some cb →
    is_Some (breakers_at hr.1 !! cb) ∧ (cb < next_ref hr.1)%positive;
  reg_inj : ∀ k k' cb,
    reg_breakers hr.2 !! k = Some cb → reg_breakers hr.2 !! k' = Some cb → k = k';
}.

(** * Lemmas *)

Lemma registry_new_wf h c : registry_wf (h, registry_new c).
Proof. split; simpl; intros *; by rewrite lookup_empty. Qed.

Lemma registry_get_wf key now hr : registry_wf hr → registry_wf (registry_get key now hr).2.
Proof.
  destruct hr as [h r]. intros [Hlive Hinj]; simpl in *. unfold registry_get.
  destruct (negb (enabled (reg_config r))); [by split|].
  destruct (reg_breakers r !! key) as [cb|] eqn:Hk; [by split|].
  split; simpl.
  - intros k cb [[-> <-]|[Hne H]]%lookup_insert_Some; [rewrite lookup_insert_eq; split; [done|lia]|].
    destruct (Hlive k cb H). rewrite lookup_insert_ne by lia. split; [done|lia].
  - intros k k' cb [[<- <-]|[Hne H]]%lookup_insert_Some [[<- Heq]|[Hne' H']]%lookup_insert_Some;
      simplify_eq; [done| | |by eapply Hinj].
    + destruct (Hlive _ _ H'). lia.
    + destruct (Hlive _ _ H). lia.
Qed.

Lemma registry_get_keeps key now hr k cb :
  reg_breakers hr.2 !! k = Some cb → reg_breakers (registry_get key now hr).2.2 !! k = Some cb.
Proof.
  destruct hr as [h r]. unfold registry_get; simpl. intros Hk.
  destruct (negb _); [done|]. destruct (reg_breakers r !! key) eqn:Hk'; [done|].
  simpl. rewrite lookup_insert_ne; [done|]. by intros ->; simplify_eq.
Qed.

Lemma registry_get_stored key now hr cb :
  (registry_get key now hr).1 = Some cb → reg_breakers (registry_get key now hr).2.2 !! key = Some cb.
Proof.
  destruct hr as [h r]. unfold registry_get.
  destruct (negb _); [done|]. destruct (reg_breakers r !! key) eqn:Hk; simpl; [by intros [= ->]|].
  intros [= <-]. apply lookup_insert_eq.
Qed.

(** A sequence of [get]s on other keys, or the same. *)
Definition registry_gets (keys : list (rstr * Z)) (hr : Heap * Registry) : Heap * Registry :=
  fold_left (λ hr k, (registry_get k.1 k.2 hr).2) keys hr.

Lemma registry_gets_wf keys hr : registry_wf hr → registry_wf (registry_gets keys hr).
Proof. revert hr. induction keys as [|k keys IH]; intros hr H; [done|]. by apply IH, registry_get_wf. Qed.

Lemma registry_gets_keeps keys hr k cb :
  reg_breakers hr.2 !! k = Some cb → reg_breakers (registry_gets keys hr).2 !! k = Some cb.
Proof. revert hr. induction keys as [|k' keys IH]; intros hr H; [done|]. by apply IH, registry_get_keeps. Qed.

Lemma registry_gets_config keys hr : reg_config (registry_gets keys hr).2 = reg_config hr.2.
Proof.
  revert hr. induction keys as [|k keys IH]; intros [h r]; [done|]. unfold registry_gets in *. simpl.
  rewrite IH. unfold registry_get. by destruct (negb _), (reg_breakers r !! k.1).
Qed.

Lemma registry_get_lookup key now h r cb :
  enabled (reg_config r) = true → reg_breakers r !! key = Some cb →
  registry_get key now (h, r) = (Some cb, (h, r)).
Proof. intros He Hk. unfold registry_get. by rewrite He, Hk. Qed.

Lemma lookup_or_range w get key d :
  0 ≤ umax w → uint w d → uint w (lookup_or (parse_uint w) get key d).
Proof.
  intros Hw Hd. unfold lookup_or. repeat case_match; try done. by eapply parse_uint_range.
Qed.

Lemma parse_failure_codes_u16 s : ∀ c, c ∈ parse_failure_codes s → uint 16 c.
Proof.
  intros c. unfold parse_failure_codes. rewrite elem_of_list_to_set, list_elem_of_omap.
  intros (p & _ & Hp). by eapply parse_uint_range.
Qed.

Lemma default_codes_u16 c : c ∈ default_failure_codes → uint 16 c.
Proof.
  unfold default_failure_codes. rewrite elem_of_list_to_set. intros Hc.
  by repeat (apply elem_of_cons in Hc as [-> | Hc]; [vm_compute; split; discriminate|]);
    apply elem_of_nil in Hc.
Qed.

Lemma parse_trim_fmt_dec w n : uint w n → parse_uint w (trim (fmt_dec n)) = Some n.
Proof.
  intros Hn. rewrite trim_id; [by apply parse_fmt_dec|].
  eapply Forall_impl; [apply fmt_dec_digits|apply digit_not_whitespace].
Qed.

(** * Theorems *)

(** the failure codes written as a comma-separated list are read back
    as that set, when they are 16-bit; and whatever the text, only 16-bit
    codes come out. *)
Theorem parse_failure_codes_roundtrip codes :
  codes ≠ [] → Forall (uint 16) codes →
  parse_failure_codes (join [44] (fmt_dec <$> codes)) = list_to_set codes.
Proof.
  intros Hne Hcodes. unfold parse_failure_codes. rewrite split_join.
  - f_equal. clear Hne. induction Hcodes as [|c codes Hc _ IH]; [done|].
    simpl. rewrite parse_trim_fmt_dec by done. by f_equal.
  - by destruct codes.
  - rewrite Forall_fmap. apply Forall_true. intros c. simpl.
    eapply Forall_impl; [apply fmt_dec_digits|]. unfold is_digit. intros. lia.
Qed.

Lemma parse_failure_codes_roundtrip_witness :
  parse_failure_codes (join [44] (fmt_dec <$> [429; 503])) = list_to_set [429; 503].
Proof.
  apply parse_failure_codes_roundtrip; [discriminate|].
  repeat constructor; vm_compute; discriminate.
Defined.

(** whatever the environment holds, the configuration read from it is
    one the breaker works with: at least one probe, durations of whole
    seconds, a nonempty set of 16-bit failure codes; and an empty environment
    gives the server preset. *)
Theorem from_lookup_safe prefix get :
  let c := from_lookup_with_prefix prefix get in
  config_wf c ∧ failure_codes c ≠ ∅ ∧ (∀ s, s ∈ failure_codes c → uint 16 s) ∧
  uint 64 (min_samples c) ∧ clamp_probes c = c ∧
  ((∀ k, get k = None) → c = config_server).
Proof.
  simpl. unfold from_lookup_with_prefix.
  assert (H64 : 0 ≤ umax 64) by (rewrite umax_64; lia).
  pose proof (λ k d, lookup_or_range 64 get k d H64) as Hr. unfold uint in Hr.
  split_and!; simpl.
  - split; simpl.
    + specialize (Hr (prefix ++ lit "HALF_OPEN_MAX_PROBES") 1). rewrite umax_64 in *. lia.
    + specialize (Hr (prefix ++ lit "OPEN_DURATION_SECS") 10). unfold from_secs. rewrite umax_64 in *. lia.
  - unfold env_failure_codes. repeat case_match; try done; by vm_compute.
  - unfold env_failure_codes. intros s.
    repeat case_match; first [apply default_codes_u16 | apply parse_failure_codes_u16].
  - apply Hr. rewrite umax_64. lia.
  - unfold clamp_probes; simpl. f_equal. lia.
  - intros Hnone. unfold lookup_or, env_failure_codes. by rewrite !Hnone.
Qed.

(** the registry's contract: a disabled one gives nothing; otherwise a
    key gets one breaker for good, whatever other keys are asked for in
    between, freshly closed when it is created, and two keys share a breaker
    only if they are the same key. *)
Theorem registry_get_contract hr key now keys key' now' :
  registry_wf hr →
  let hr1 := registry_get key now hr in
  let hr2 := registry_get key' now' (registry_gets keys hr1.2) in
  (enabled (reg_config hr.2) = false ↔ hr1.1 = None) ∧
  (hr1.1 ≠ None → hr1.1 = hr2.1 ↔ key = key') ∧
  (∀ cb, hr1.1 = Some cb → reg_breakers hr.2 !! key = None →
     breakers_at hr1.2.1 !! cb = Some (with_clock (reg_config hr.2) now)).
Proof.
  intros Hwf hr1 hr2. split_and!.
  - subst hr1. destruct hr as [h r]. unfold registry_get; simpl.
    destruct (enabled (reg_config r)); simpl; [|done]. by destruct (reg_breakers r !! key).
  - destruct (hr1.1) as [cb|] eqn:H1; [intros _|done].
    pose proof (registry_get_stored _ _ _ _ H1) as Hst. fold hr1 in Hst.
    apply (registry_gets_keeps keys) in Hst.
    assert (Hwf2 : registry_wf hr2.2)
      by (by apply registry_get_wf, registry_gets_wf, registry_get_wf).
    assert (He : enabled (reg_config (registry_gets keys hr1.2).2) = true).
    { rewrite registry_gets_config. revert H1. unfold hr1, registry_get. destruct hr as [h r]. simpl.
      destruct (enabled (reg_config r)) eqn:He; simpl; [|done].
      by destruct (reg_breakers r !! key); simpl. }
    split.
    + intros H2. symmetry in H2. pose proof (registry_get_stored _ _ _ _ H2) as Hst2.
      apply (registry_get_keeps key' now') in Hst. by eapply (reg_inj _ Hwf2).
    + intros <-. unfold hr2. destruct (registry_gets keys hr1.2) as [h2 r2].
      by rewrite (registry_get_lookup _ _ _ _ cb He Hst).
  - subst hr1. destruct hr as [h r]. unfold registry_get; simpl.
    destruct (negb _); [done|]. intros cb. destruct (reg_breakers r !! key) eqn:Hk; [done|].
    intros [= <-] _. simpl. apply lookup_insert_eq.
Qed.

Definition empty_heap : Heap := mkHeap ∅ 1%positive.

Lemma registry_get_contract_witness :
  (registry_get (lit "a") 5 (empty_heap, registry_new config_server)).1
  ≠ (registry_get (lit "b") 6
       (registry_gets [] (registry_get (lit "a") 5 (empty_heap, registry_new config_server)).2)).1.
Proof.
  pose proof (registry_get_contract (empty_heap, registry_new config_server) (lit "a") 5 [] (lit "b") 6
    (registry_new_wf _ _)) as H. simpl in H. destruct H as (_ & H & _).
  intros Heq. by apply H in Heq.
Defined.
