(* ===== verification/Interjection.v ===== *)
(** Mid-turn interjections (src/crates/common/interjection-core/src): the
    shared event queue (events.rs), the framing of a message as a synthetic
    user turn (format.rs) and the drain of the buffer (buffer.rs).

    Clones of an [EventQueue] share one vector behind a mutex that every
    operation holds from its first to its last statement: an operation is a
    function on the shared vector. *)
From S2P Require Import Prelude Str.

(** * events.rs *)

Section queue.
Context {E : Type}.
Implicit Types q : list E.

Definition eq_new : list E := [].
Definition eq_push (event : E) q : list E := q ++ [event].

Definition eq_push_capped (event : E) (max : Z) q : list E :=
  let q := q ++ [event] in
  if max <? zlen q then drop (Z.to_nat (zlen q - max)) q else q.

Definition eq_len q : Z := zlen q.
Definition eq_is_empty q : bool := match q with [] => true | _ => false end.

(** [Iterator::partition]. *)
Fixpoint partition (take : E → bool) q : list E * list E :=
  match q with
  | [] => ([], [])
  | e :: q' =>
      let '(matched, kept) := partition take q' in
      if take e then (e :: matched, kept) else (matched, e :: kept)
  end.

Definition eq_drain_matching (take : E → bool) : St (list E) (list E) := partition take.
Definition eq_drain_all : St (list E) (list E) := λ q, (q, []).
Definition eq_clear q : list E := [].
Definition eq_snapshot q : list E := q.

(** A call on the queue. *)
Inductive eq_op : Type :=
| Push (e : E)
| PushCapped (e : E) (max : Z)
| DrainMatching (take : E → bool)
| DrainAll
| Clear.

(** What the call returns, and the queue after it. *)
Definition eq_step (op : eq_op) q : list E * list E :=
  match op with
  | Push e => ([], eq_push e q)
  | PushCapped e max => ([], eq_push_capped e max q)
  | DrainMatching take => eq_drain_matching take q
  | DrainAll => eq_drain_all q
  | Clear => ([], eq_clear q)
  end.

(** What it throws away. *)
Definition eq_lost (op : eq_op) q : list E :=
  match op with
  | PushCapped e max => take (Z.to_nat (zlen q + 1 - max)) (q ++ [e])
  | Clear => q
  | _ => []
  end.

Definition eq_pushed (op : eq_op) : list E :=
  match op with Push e | PushCapped e _ => [e] | _ => [] end.

(** The events returned, those thrown away, and the queue left, for a
    sequence of calls. *)
Fixpoint eq_run (ops : list eq_op) q : list E * list E * list E :=
  match ops with
  | [] => ([], [], q)
  | op :: ops' =>
      let '(out, q') := eq_step op q in
      let '(outs, losts, q'') := eq_run ops' q' in
      (out ++ outs, eq_lost op q ++ losts, q'')
  end.
End queue.
Arguments eq_op : clear implicits.

(** * format.rs *)

Definition LARGE_PROMPT_THRESHOLD : Z := 25000.

Definition NL : rchar := 10.

Definition user_query (user_message : rstr) : rstr :=
  lit "<user_query>" ++ [NL] ++ user_message ++ [NL] ++ lit "</user_query>".

(** [str::char_indices]: every character with its byte offset. *)
Fixpoint char_indices (off : Z) (s : rstr) : list (Z * rchar) :=
  match s with
  | [] => []
  | c :: s' => (off, c) :: char_indices (off + len_utf8 c) s'
  end.

Fixpoint take_while {A} (p : A → bool) (l : list A) : list A :=
  match l with
  | [] => []
  | x :: l' => if p x then x :: take_while p l' else []
  end.

(** [&text[..end]], which panics off a character boundary. *)
Fixpoint slice_to (s : rstr) (end_ : Z) : option rstr :=
  if end_ =? 0 then Some []
  else if end_ <? 0 then None
  else match s with
       | [] => None
       | c :: s' => (c ::.) <$> slice_to s' (end_ - len_utf8 c)
       end.

Definition truncation_end (text : rstr) : Z :=
  match last (take_while (λ ic, ic.1 <? LARGE_PROMPT_THRESHOLD) (char_indices 0 text)) with
  | Some (i, c) => i + len_utf8 c
  | None => byte_len text
  end.

(** [None] is a panic. *)
Definition format_interjection (text : rstr) : option rstr :=
  truncated ←
    (if LARGE_PROMPT_THRESHOLD <? byte_len text then
       s ← slice_to text (truncation_end text);
       Some (s ++ lit "... [truncated]")
     else Some text);
  Some (lit "The user sent a message while you were working:" ++ [NL] ++ user_query truncated).

(** * buffer.rs *)

Record Interjected (Attachment : Type) : Type := mkInterjected {
  ij_text : rstr;
  ij_attachments : list Attachment;
}.
Arguments mkInterjected {Attachment}.
Arguments ij_text {Attachment}.
Arguments ij_attachments {Attachment}.

(** [PendingInterjection] and [FormattedInterjection]. *)
Definition PendingInterjection := Interjected.
Definition FormattedInterjection := Interjected.

Definition drain_formatted {Attachment} (sanitize_text : rstr → rstr)
    (buffer : list (PendingInterjection Attachment))
    : option (list (FormattedInterjection Attachment)) * list (PendingInterjection Attachment) :=
  let '(entries, buffer) := eq_drain_all buffer in
  (mapM (λ e, text ← format_interjection (sanitize_text (ij_text e));
              Some (mkInterjected text (ij_attachments e))) entries,
   buffer).

(** * Lemmas *)

Lemma partition_filter {E} (take : E → bool) q :
  partition take q = (filter take q, filter (λ e, ¬ take e) q).
Proof.
  induction q as [|e q IH]; [done|]. simpl. rewrite IH, !filter_cons.
  destruct (take e) eqn:He.
  - by rewrite decide_True, decide_False by (rewrite ?He; auto).
  - by rewrite decide_False, decide_True by (rewrite ?He; auto).
Qed.

Lemma partition_perm {E} (take : E → bool) q : (partition take q).1 ++ (partition take q).2 ≡ₚ q.
Proof.
  induction q as [|e q IH]; [done|]. simpl.
  destruct (partition take q) as [m k]. destruct (take e); simpl in *; [by f_equiv|].
  rewrite <- IH. by rewrite Permutation_middle.
Qed.

Lemma eq_step_conserves {E} (op : eq_op E) q :
  (eq_step op q).1 ++ eq_lost op q ++ (eq_step op q).2 ≡ₚ q ++ eq_pushed op.
Proof.
  destruct op as [e|e max|tk| |]; simpl; rewrite ?app_nil_r; try done.
  - unfold eq_push_capped. rewrite zlen_app, zlen_cons, zlen_nil.
    destruct (Z.ltb_spec max (zlen q + (0 + 1))).
    + replace (zlen q + (0 + 1) - max) with (zlen q + 1 - max) by lia. by rewrite take_drop.
    + by rewrite (Z2Nat.nonpos (_ - _)) by lia.
  - apply partition_perm.
Qed.

Lemma eq_step_sublist {E} (op : eq_op E) q : (eq_step op q).2 `sublist_of` q ++ eq_pushed op.
Proof.
  destruct op as [e|e max|tk| |]; simpl; rewrite ?app_nil_r; try done; try apply sublist_nil_l.
  - unfold eq_push_capped. case_match; [apply sublist_drop|done].
  - unfold eq_drain_matching. rewrite partition_filter. apply sublist_filter.
Qed.

Lemma slice_to_app s s' : slice_to (s ++ s') (byte_len s) = Some s.
Proof.
  induction s as [|c s IH]; [by destruct s'|]. rewrite byte_len_cons. cbn [slice_to app].
  pose proof (len_utf8_bounds c). pose proof (byte_len_nonneg s).
  rewrite (proj2 (Z.eqb_neq _ _)), (proj2 (Z.ltb_ge _ _)) by lia.
  by replace (len_utf8 c + byte_len s - len_utf8 c) with (byte_len s) by lia; rewrite IH.
Qed.

(** The characters kept: those that start below the threshold. *)
Lemma take_while_indices off n s :
  off < n → n < off + byte_len s →
  ∃ pre c post, s = pre ++ c :: post ∧ off + byte_len pre < n ≤ off + byte_len pre + len_utf8 c ∧
    last (take_while (λ ic, ic.1 <? n) (char_indices off s)) = Some (off + byte_len pre, c).
Proof.
  revert off. induction s as [|c s IH]; intros off Hoff Hn; [simpl in Hn; lia|].
  rewrite byte_len_cons in Hn. cbn [char_indices take_while fst].
  rewrite (proj2 (Z.ltb_lt _ _)) by lia. destruct (decide (n ≤ off + len_utf8 c)).
  - exists [], c, s. simpl. split_and!; [done|lia|lia|].
    destruct s as [|c' s]; simpl; [by rewrite Z.add_0_r|].
    rewrite (proj2 (Z.ltb_ge _ _)) by lia. simpl. by rewrite Z.add_0_r.
  - destruct (IH (off + len_utf8 c)) as (pre & c' & post & -> & Hb & Hl); [lia..|].
    exists (c :: pre), c', post. rewrite byte_len_cons.
    split_and!; [done|lia|lia|]. rewrite last_cons, Hl. f_equal. f_equal. lia.
Qed.

Lemma truncation_slice text :
  LARGE_PROMPT_THRESHOLD < byte_len text →
  ∃ s rest, slice_to text (truncation_end text) = Some s ∧ text = s ++ rest ∧
    LARGE_PROMPT_THRESHOLD ≤ byte_len s ≤ LARGE_PROMPT_THRESHOLD + 3.
Proof.
  intros Hlen. unfold truncation_end.
  destruct (take_while_indices 0 LARGE_PROMPT_THRESHOLD text) as (pre & c & post & -> & Hb & ->);
    [done|lia|].
  exists (pre ++ [c]), post.
  replace (pre ++ c :: post) with ((pre ++ [c]) ++ post) by by rewrite <- app_assoc.
  assert (Hbl : byte_len (pre ++ [c]) = 0 + byte_len pre + len_utf8 c)
    by (rewrite byte_len_app, byte_len_cons; simpl; lia).
  rewrite <- Hbl, slice_to_app. pose proof (len_utf8_bounds c). split_and!; [done..|lia|lia].
Qed.

Lemma format_interjection_some text : is_Some (format_interjection text).
Proof.
  unfold format_interjection. destruct (Z.ltb_spec LARGE_PROMPT_THRESHOLD (byte_len text)) as [H|].
  - destruct (truncation_slice text H) as (s & rest & -> & _). by eexists.
  - by eexists.
Qed.

(** * Theorems *)

(** no event is lost or seen twice: over any sequence of calls, the
    events pushed (with those there before) are, up to order, the ones
    returned by the drains, the ones a cap or [clear] threw away, and the ones
    still queued; and what is queued keeps its arrival order. *)
Theorem eq_run_conserves {E} (ops : list (eq_op E)) q :
  let '(outs, losts, q') := eq_run ops q in
  outs ++ losts ++ q' ≡ₚ q ++ (ops ≫= eq_pushed) ∧ q' `sublist_of` q ++ (ops ≫= eq_pushed).
Proof.
  revert q. induction ops as [|op ops IH]; intros q; simpl; [by rewrite !app_nil_r|].
  pose proof (eq_step_conserves op q) as Hp. pose proof (eq_step_sublist op q) as Hs.
  destruct (eq_step op q) as [out q1]. specialize (IH q1).
  destruct (eq_run ops q1) as [[outs losts] q2]. destruct IH as [IH1 IH2]. simpl in *. split.
  - rewrite !app_assoc, <- Hp, <- !app_assoc, <- IH1. solve_Permutation.
  - etrans; [exact IH2|]. rewrite app_assoc. by apply sublist_app.
Qed.

(** a queue fed only by [push_capped] holds exactly the newest [max]
    events, in order. *)
Theorem eq_push_capped_keeps_newest {E} (l : list E) (max : nat) :
  foldl (λ q e, eq_push_capped e (Z.of_nat max) q) eq_new l = drop (length l - max) l.
Proof.
  induction l as [|e l IH] using rev_ind; [by rewrite drop_nil|].
  rewrite foldl_snoc, IH. unfold eq_push_capped, zlen.
  rewrite !length_app, !length_drop. simpl.
  destruct (Z.ltb_spec (Z.of_nat max) (Z.of_nat (length l - (length l - max) + 1))).
  - replace (drop (length l - max) l ++ [e]) with (drop (length l - max) (l ++ [e]))
      by by rewrite drop_app_le by lia.
    rewrite drop_drop. f_equal. lia.
  - replace (length l - max)%nat with 0%nat by lia.
    by replace (length l + 1 - max)%nat with 0%nat by lia.
Qed.

(** framing never panics.  A text over the threshold is cut on a
    character boundary, to at least the threshold and at most three bytes
    more; a text within it is framed whole. *)
Theorem format_interjection_total text :
  ∃ body rest,
    format_interjection text =
      Some (lit "The user sent a message while you were working:" ++ [NL] ++ user_query body) ∧
    if LARGE_PROMPT_THRESHOLD <? byte_len text
    then body = rest ++ lit "... [truncated]" ∧ rest `prefix_of` text ∧
         LARGE_PROMPT_THRESHOLD ≤ byte_len rest ≤ LARGE_PROMPT_THRESHOLD + 3
    else body = text.
Proof.
  unfold format_interjection. destruct (Z.ltb_spec LARGE_PROMPT_THRESHOLD (byte_len text)) as [H|].
  - destruct (truncation_slice text H) as (s & rest & -> & -> & Hb).
    exists (s ++ lit "... [truncated]"), s. simpl. split_and!; [done|done|by eexists|lia|lia].
  - by exists text, [].
Qed.

(** draining the buffer empties it and yields one message per entry, in
    order, each with its own attachments: nothing is merged or dropped. *)
Theorem drain_formatted_one_per_entry {A} sanitize (buffer : list (PendingInterjection A)) :
  ∃ out, drain_formatted sanitize buffer = (Some out, []) ∧
    ij_attachments <$> out = ij_attachments <$> buffer ∧
    (Some ∘ ij_text <$> out) = (λ e, format_interjection (sanitize (ij_text e))) <$> buffer.
Proof.
  unfold drain_formatted; simpl.
  induction buffer as [|e buffer (out & Hout & Ha & Ht)]; [by exists []|].
  destruct (format_interjection_some (sanitize (ij_text e))) as [t He].
  exists (mkInterjected t (ij_attachments e) :: out). simpl. rewrite He. simpl.
  injection Hout as Hout. rewrite Hout. cbn. split_and!; [done|by f_equal|].
  by f_equal.
Qed.
