(* ===== verification/PromptQueue.v ===== *)
(** Combining queued prompts
    (src/crates/codegen/intellihelper-prompt-queue/src/combine.rs and the row
    types of types.rs): how many rows of the queue's front are sent as one
    turn, and the text of that turn. *)
From S2P Require Import Prelude Str.

Definition TEXT_SEPARATOR : rstr := [10; 10].
Definition COMBINED_DISPLAY_TEXTS_META : rstr := lit "combinedDisplayTexts".

Record CombineGate : Type := mkGate {
  g_id : rstr;
  g_is_plain_prompt : bool;
  g_is_synthetic : bool;
  g_is_expanded_skill : bool;
  g_is_bash : bool;
  g_has_images : bool;
  g_text : rstr;
}.

Definition can_merge_front (g : CombineGate) : bool :=
  g_is_plain_prompt g && negb (g_is_synthetic g) && negb (g_is_expanded_skill g)
  && negb (g_is_bash g) && negb (is_empty (g_text g)).

Definition can_merge_follower (g : CombineGate) (skip_ids : list rstr) : bool :=
  can_merge_front g && negb (g_has_images g) && negb (bool_decide (g_id g ∈ skip_ids)).

(** The [for] loop over the followers. *)
Fixpoint follower_run (n : Z) (iter : list CombineGate) (skip_ids : list rstr) : Z :=
  match iter with
  | [] => n
  | next :: iter' =>
      if negb (can_merge_follower next skip_ids) then n
      else follower_run (n + 1) iter' skip_ids
  end.

Definition combine_prefix_len (items : list CombineGate) (skip_ids : list rstr) : Z :=
  match items with
  | [] => 0
  | front :: iter => if negb (can_merge_front front) then 1 else follower_run 1 iter skip_ids
  end.

Definition join_texts (texts : list rstr) : rstr :=
  join TEXT_SEPARATOR (filter (λ t, is_empty t = false) texts).

Definition is_combined (segs : list rstr) : bool := 2 <=? zlen segs.

(** A JSON value is [serde_json]'s, of which the stamp uses two constructors. *)
Definition stamp_combined_display_texts {Value} (value_string : rstr → Value)
    (value_array : list Value → Value) (meta : gmap rstr Value) (segs : list rstr) : gmap rstr Value :=
  if negb (is_combined segs) then meta
  else <[COMBINED_DISPLAY_TEXTS_META := value_array (value_string <$> segs)]> meta.

(** * Lemmas *)

Lemma follower_run_spec n iter skip :
  ∃ k, follower_run n iter skip = n + Z.of_nat k ∧ (k ≤ length iter)%nat ∧
    Forall (λ g, can_merge_follower g skip = true) (take k iter) ∧
    ∀ g, iter !! k = Some g → can_merge_follower g skip = false.
Proof.
  revert n. induction iter as [|g iter IH]; intros n; simpl.
  - exists 0%nat. split_and!; [lia|done|constructor|done].
  - destruct (can_merge_follower g skip) eqn:Hg; simpl.
    + destruct (IH (n + 1)) as (k & -> & Hk & Hall & Hnext). exists (S k).
      split_and!; [lia|lia|by constructor|done].
    + exists 0%nat. split_and!; [lia|lia|constructor|naive_solver].
Qed.

Lemma follower_has_text g skip : can_merge_follower g skip = true → is_empty (g_text g) = false.
Proof. unfold can_merge_follower, can_merge_front. by destruct (is_empty (g_text g)); rewrite ?andb_false_r. Qed.

Lemma front_has_text g : can_merge_front g = true → is_empty (g_text g) = false.
Proof. unfold can_merge_front. by destruct (is_empty (g_text g)); rewrite ?andb_false_r. Qed.

(** * Theorems *)

(** the prefix that is combined.  It is empty only for an empty queue and
    never longer than the queue; when it has two rows or more, its front may
    be merged and so may each follower (plain, not synthetic, no images, not
    under edit); and it is maximal: the row after it is a follower that may
    not be merged. *)
Theorem combine_prefix_len_maximal items skip :
  let n := combine_prefix_len items skip in
  (n = 0 ↔ items = []) ∧ 0 ≤ n ≤ zlen items ∧
  (∀ front iter, items = front :: iter → 2 ≤ n → can_merge_front front = true) ∧
  (∀ i g, (0 < i)%nat → Z.of_nat i < n → items !! i = Some g → can_merge_follower g skip = true) ∧
  (∀ front iter g, items = front :: iter → can_merge_front front = true →
     items !! Z.to_nat n = Some g → can_merge_follower g skip = false).
Proof.
  destruct items as [|front iter]; simpl; [unfold zlen; simpl; split_and!; try done; try lia; intros; lia|].
  rewrite zlen_cons. pose proof (zlen_nonneg iter). destruct (can_merge_front front) eqn:Hf; simpl.
  - destruct (follower_run_spec 1 iter skip) as (k & -> & Hk & Hall & Hnext). unfold zlen in *.
    split_and!; [split; [lia|done]|lia|lia|intros; congruence| |].
    + intros [|i] g Hi Hn; [lia|]. simpl. intros Hg.
      apply (Forall_lookup_1 _ _ i g Hall). rewrite lookup_take_lt by lia. exact Hg.
    + intros _ _ g _ _. replace (Z.to_nat (1 + Z.of_nat k)) with (S k) by lia. apply Hnext.
  - split_and!; [split; [lia|done]|lia|lia|lia|intros; lia|intros; congruence].
Qed.

(** the combined body.  A combined prefix keeps every one of its texts:
    none is filtered out as empty, and they stand in queue order between the
    separators. *)
Theorem combined_texts_kept items skip :
  2 ≤ combine_prefix_len items skip →
  let merged := g_text <$> take (Z.to_nat (combine_prefix_len items skip)) items in
  join_texts merged = join TEXT_SEPARATOR merged ∧ is_combined merged = true.
Proof.
  destruct items as [|front iter]; simpl; [lia|].
  destruct (can_merge_front front) eqn:Hf; simpl; [|lia].
  destruct (follower_run_spec 1 iter skip) as (k & -> & Hk & Hall & _). intros Hn.
  replace (Z.to_nat (1 + Z.of_nat k)) with (S k) by lia. simpl. split.
  - unfold join_texts. rewrite filter_whole; [done|].
    constructor; [by apply front_has_text|]. rewrite Forall_fmap.
    apply (Forall_impl _ _ _ Hall). intros g. apply follower_has_text.
  - apply Z.leb_le. rewrite zlen_cons. unfold zlen. rewrite length_fmap, length_take. lia.
Qed.

Lemma combined_texts_kept_witness :
  join_texts [lit "one"; lit "two"] = lit "one" ++ [10; 10] ++ lit "two".
Proof.
  refine (proj1 (combined_texts_kept
    [mkGate (lit "a") true false false false true (lit "one");
     mkGate (lit "b") true false false false false (lit "two");
     mkGate (lit "c") true false false true false (lit "ls")] [lit "d"] _)).
  vm_compute. discriminate.
Defined.
