(* ===== verification/CompactionItem.v ===== *)
(** Context compaction: the seams the shared algorithms are generic over
    (src/crates/common/intellihelper-compaction/src: item.rs, token.rs,
    prompt.rs, sampler.rs).

    The traits are classes; a harness's item type, its token counter and its
    sampler are parameters of everything that follows. *)
From S2P Require Import Prelude Str.

(** * Items (item.rs) *)

Inductive CompactionRole : Type := System | Developer | User | Assistant | Tool.

#[global] Instance CompactionRole_eq_dec : EqDecision CompactionRole.
Proof. solve_decision. Defined.

Record CompactionFileRef : Type := mkFileRef { file_id : rstr; file_name : rstr }.

(** The trait.  [is_tool_result] is a method with a default, which an
    implementation may override. *)
Class CompactionItem (T : Type) := {
  role : T → CompactionRole;
  text : T → option rstr;
  is_tool_result : T → bool;
  has_tool_requests : T → bool;
  is_compaction_summary : T → bool;
  attachment_refs : T → list CompactionFileRef;
}.

Definition default_is_tool_result (r : CompactionRole) : bool := bool_decide (r = Tool).

Class CompactionItemBuilder (T : Type) `{CompactionItem T} := {
  compaction_summary_item : rstr → T;
  strip_tool_content : T → option T;
  truncate_payload_for_compaction : T → Z → T;
}.

(** What the trait's comments promise of [compaction_summary_item]. *)
Class SummaryItemLaws (T : Type) `{CompactionItemBuilder T} := {
  summary_item_is_summary s : is_compaction_summary (compaction_summary_item s) = true;
  summary_item_text s : text (compaction_summary_item s) = Some s;
}.

Class CompactionItemFactory (T : Type) := {
  new_user : rstr → T;
  new_user_meta : rstr → T;
  new_project_instructions : rstr → T;
  new_system_reminder : rstr → T;
}.

(** [ItemTokenCounter::count_item_tokens]: a [u32]. *)
Class ItemTokenCounter (T : Type) := {
  count_item_tokens : T → Z;
  count_item_tokens_u32 t : uint 32 (count_item_tokens t);
}.

(** * The prompt and the sampler's results (prompt.rs, sampler.rs) *)

Record CompactionPrompt : Type := mkPrompt { prompt_system : rstr; prompt_user : rstr }.

Record LlmCompactionOutput : Type := mkOutput { response : rstr; thinking : rstr }.

(** [Other] carries an [anyhow::Error], of which only the rendering is used. *)
Inductive CompactionSampleError : Type :=
| SETimeout (timeout_secs collected_bytes : Z)
| SEBuild (msg : rstr)
| SEStart (msg : rstr)
| SEEmptyResponse
| SEOther (msg : rstr).

(** [Display]. *)
Definition sample_error_display (e : CompactionSampleError) : rstr :=
  match e with
  | SETimeout secs bytes =>
      lit "Compaction sampling timed out after " ++ fmt_dec secs ++ lit "s (collected "
        ++ fmt_dec bytes ++ lit " bytes so far)"
  | SEBuild msg => lit "Compaction sampler build failed: " ++ msg
  | SEStart msg => lit "Compaction sampler start failed: " ++ msg
  | SEEmptyResponse => lit "Compaction sampler returned no response channel content"
  | SEOther msg => msg
  end.

Definition is_deterministic (e : CompactionSampleError) : bool :=
  match e with
  | SETimeout _ _ | SEEmptyResponse => false
  | SEBuild _ | SEStart _ => true
  | SEOther msg =>
      contains_str (lit "Failed to build AgenticScheduler") msg
      || contains_str (lit "Failed to start compaction sample") msg
  end.

(** * Token sums *)

Section counts.
Context {T : Type} `{!ItemTokenCounter T}.

Definition token_counts (turns : list T) : list Z := count_item_tokens <$> turns.
Definition sum_counts (counts : list Z) : Z := sum_sat 32 counts.
Definition sum_tokens (turns : list T) : Z := sum_counts (token_counts turns).

Lemma token_counts_nonneg turns : Forall (λ x, 0 ≤ x) (token_counts turns).
Proof.
  unfold token_counts. rewrite Forall_fmap. apply Forall_true. intros t. simpl.
  apply (count_item_tokens_u32 t).
Qed.

Lemma token_counts_app l k : token_counts (l ++ k) = token_counts l ++ token_counts k.
Proof. apply fmap_app. Qed.
End counts.

#[export] Hint Resolve token_counts_nonneg : rust.

Lemma sum_counts_spec l : Forall (λ x, 0 ≤ x) l → sum_counts l = Z.min (foldr Z.add 0 l) (umax 32).
Proof. intros. apply sum_sat_spec; [rewrite umax_32; lia|done]. Qed.

Lemma sum_counts_app l k :
  Forall (λ x, 0 ≤ x) l → Forall (λ x, 0 ≤ x) k →
  sum_counts (l ++ k) = sat_add 32 (sum_counts l) (sum_counts k).
Proof.
  intros Hl Hk. pose proof (foldr_add_nonneg l Hl). pose proof (foldr_add_nonneg k Hk).
  rewrite !sum_counts_spec by (done || by apply Forall_app). rewrite foldr_add_app.
  unfold sat_add. rewrite umax_32. lia.
Qed.

Lemma sum_counts_range l : Forall (λ x, 0 ≤ x) l → uint 32 (sum_counts l).
Proof.
  intros Hl. pose proof (foldr_add_nonneg l Hl). rewrite sum_counts_spec by done.
  unfold uint. rewrite umax_32. lia.
Qed.

#[export] Hint Resolve sum_counts_range : rust.

(** * A concrete harness

    The item of the crate's tests: a role, a text and a token count; summaries
    are [Developer] items, and clipping an item sets its count. *)
Module Mock.
Record MockItem : Type := mkMock { m_role : CompactionRole; m_text : rstr; m_tokens : Z; m_summary : bool }.

#[global] Instance mock_item : CompactionItem MockItem := {|
  role := m_role;
  text := λ m, Some (m_text m);
  is_tool_result := λ m, default_is_tool_result (m_role m);
  has_tool_requests := λ _, false;
  is_compaction_summary := m_summary;
  attachment_refs := λ _, [];
|}.

#[global] Instance mock_builder : CompactionItemBuilder MockItem := {|
  compaction_summary_item := λ s, mkMock Developer s (wrap 32 (byte_len s / 4)) true;
  strip_tool_content := Some;
  truncate_payload_for_compaction := λ m n, mkMock (m_role m) (m_text m) (Z.min (m_tokens m) n) (m_summary m);
|}.

#[global] Instance mock_laws : SummaryItemLaws MockItem.
Proof. by split. Qed.

#[global] Program Instance mock_counter : ItemTokenCounter MockItem :=
  {| count_item_tokens := λ m, wrap 32 (m_tokens m) |}.
Next Obligation. intros. by apply wrap_range. Qed.

Definition user n : MockItem := mkMock User (lit "u") n false.
Definition assistant n : MockItem := mkMock Assistant (lit "a") n false.
Definition tool n : MockItem := mkMock Tool (lit "t") n false.
End Mock.
