(* ===== verification/CompactionSelect.v ===== *)
(** Where to split a conversation (select.rs), when to compact it (trigger.rs)
    and the knobs for both (intra_compaction/config.rs), of
    src/crates/common/intellihelper-compaction/src.

    Indices into slices are [nat]; token counts are [u32]s. *)
From S2P Require Import Prelude Str Float CompactionItem.

(** * select.rs *)

Record SplitPlan : Type := mkSplit { split_idx : nat; tokens_to_compact : Z }.

(** The [for i in (0..total).rev()] loop, from index [i] down.  The counts are
    as many as the items (the code's [debug_assert_eq!]). *)
Fixpoint walk_back (counts : list Z) (target : Z) (i : nat) (kept : Z) (split : nat) : nat :=
  match i with
  | O => split
  | S i' =>
      let count := nth i' counts 0 in
      if target <? sat_add 32 kept count then S i'
      else walk_back counts target i' (sat_add 32 kept count) i'
  end.

Section select.
Context {T : Type} `{!CompactionItem T}.

(** The [while] loop: how many tool results the list starts with. *)
Fixpoint tool_run (items : list T) : nat :=
  match items with
  | x :: items' => if is_tool_result x then S (tool_run items') else O
  | [] => O
  end.

Definition snap_to_safe_boundary (items : list T) (candidate : nat) : nat :=
  if (length items <=? candidate)%nat then length items
  else
    match items !! candidate with
    | Some x => if negb (is_tool_result x) then candidate
                else (candidate + tool_run (drop candidate items))%nat
    | None => length items
    end.

Definition select_turns_to_compact (item_token_counts : list Z) (items : list T)
    (target_tokens min_compactable : Z) : option SplitPlan :=
  let total := length items in
  if (total =? 0)%nat then None
  else
    let split := walk_back item_token_counts target_tokens total 0 total in
    if (split =? 0)%nat then None
    else
      let safe := snap_to_safe_boundary items split in
      if (total <=? safe)%nat then None
      else
        let tokens := sum_counts (take safe item_token_counts) in
        if tokens <? min_compactable then None else Some (mkSplit safe tokens).
End select.

(** * config.rs *)

Inductive IntraCompactionMode : Type := MFullReplace | MStepsOnly | MHistoryOnly | MHistoryThenSteps.

#[global] Instance IntraCompactionMode_eq_dec : EqDecision IntraCompactionMode.
Proof. solve_decision. Defined.

Inductive IntraSummarizer : Type := Shared | Legacy.

Record IntraCompactionConfig : Type := mkIntraConfig {
  ic_enabled : bool;
  ic_mode : IntraCompactionMode;
  ic_trigger_threshold_percent : Z;
  ic_min_steps_before_compact : Z;
  ic_min_compactable_tokens : Z;
  ic_max_reduction_ratio : f64;
  ic_compaction_model_name : option rstr;
  ic_sampling_timeout_secs : Z;
  ic_max_attempts : Z;
  ic_retry_delay_secs : Z;
  ic_compaction_version : rstr;
  ic_summarizer : IntraSummarizer;
  ic_target_threshold_percent : Z;
  ic_steps_trigger_ratio : f64;
  ic_user_message_truncate_chars : Z;
}.

Definition DEFAULT_COMPACTION_MODEL_NAME : rstr := lit "intellihelper-4.20".

Definition effective_compaction_model_name (c : IntraCompactionConfig) : rstr :=
  match ic_compaction_model_name c with
  | Some s => if is_empty (trim s) then DEFAULT_COMPACTION_MODEL_NAME else trim s
  | None => DEFAULT_COMPACTION_MODEL_NAME
  end.

Definition intra_config_default : IntraCompactionConfig :=
  mkIntraConfig false MFullReplace 85 3 5000 (f64_lit 4 5) (Some DEFAULT_COMPACTION_MODEL_NAME)
    120 2 3 (lit "intra-v1") Shared 50 (f64_lit 3 10) 3000.

(** * trigger.rs *)

Record IntraCompactionTrigger : Type := mkTrigger {
  last_prompt_tokens : Z;
  context_window : Z;
  percent : Z;
  trigger_step : Z;
}.

(** [(a as u64 * p as u64 / 100) as u32]. *)
Definition percent_of (a p : Z) : Z := wrap 32 (wrap 64 (a * p) / 100).

Definition should_compact (policy : IntraCompactionConfig)
    (last_prompt window step : Z) : option IntraCompactionTrigger :=
  if negb (ic_enabled policy) then None
  else if window =? 0 then None
  else if negb (bool_decide (ic_mode policy = MFullReplace))
          && (step <? ic_min_steps_before_compact policy) then None
  else
    let threshold := percent_of window (ic_trigger_threshold_percent policy) in
    if last_prompt <=? threshold then None
    else
      let percent := wrap 8 (Z.min (last_prompt * 100 / window) 100) in
      Some (mkTrigger last_prompt window percent step).

(** * Lemmas *)

Lemma sum_counts_step counts i x :
  Forall (λ x, 0 ≤ x) counts → counts !! i = Some x →
  sum_counts (drop i counts) = sat_add 32 (sum_counts (drop (S i) counts)) x.
Proof.
  intros Hpos Hx. pose proof (foldr_add_nonneg _ (Forall_drop _ (S i) _ Hpos)).
  rewrite !sum_counts_spec by by apply Forall_drop.
  rewrite (drop_S counts x i Hx). simpl.
  assert (0 ≤ x) by (by apply (Forall_lookup_1 _ _ _ _ Hpos Hx)).
  unfold sat_add. rewrite umax_32. lia.
Qed.

(** The backward walk stops at the first index whose suffix fits, before the
    first item that would go over. *)
Lemma walk_back_spec counts target i kept :
  (i ≤ length counts)%nat → Forall (λ x, 0 ≤ x) counts →
  kept = sum_counts (drop i counts) → kept ≤ target →
  let c := walk_back counts target i kept i in
  (c ≤ i)%nat ∧ sum_counts (drop c counts) ≤ target ∧
  (c = 0%nat ∨ target < sum_counts (drop (pred c) counts)).
Proof.
  intros Hi Hpos. revert kept Hi. induction i as [|i IH]; intros kept Hi Hk Hle; simpl.
  - split_and!; [done|by rewrite <- Hk|by left].
  - destruct (lookup_lt_is_Some_2 counts i ltac:(lia)) as [x Hx].
    rewrite (nth_lookup_Some counts i 0 x Hx).
    pose proof (sum_counts_step counts i x Hpos Hx) as Hs. rewrite <- Hk in Hs.
    destruct (Z.ltb_spec target (sat_add 32 kept x)) as [Hgt|Hfit].
    + split_and!; [done|by rewrite <- Hk|right; simpl; by rewrite Hs].
    + destruct (IH (sat_add 32 kept x) ltac:(lia) (eq_sym Hs) Hfit) as (Hc & Hsum & Hmax).
      split_and!; [lia|done|done].
Qed.

Section select_lemmas.
Context {T : Type} `{!CompactionItem T}.
Implicit Types items : list T.

Lemma tool_run_le items : (tool_run items ≤ length items)%nat.
Proof. induction items as [|x items IH]; simpl; [done|]. destruct (is_tool_result x); lia. Qed.

Lemma tool_run_all items : Forall (λ x, is_tool_result x = true) (take (tool_run items) items).
Proof. induction items as [|x items IH]; simpl; [done|]. destruct (is_tool_result x) eqn:?; by constructor. Qed.

Lemma tool_run_stops items x : items !! tool_run items = Some x → is_tool_result x = false.
Proof.
  induction items as [|y items IH]; simpl; [done|].
  destruct (is_tool_result y) eqn:Hy; simpl; [done|congruence].
Qed.

(** The snap moves forward over tool results only, onto something else. *)
Lemma snap_spec items c :
  (c ≤ length items)%nat →
  let s := snap_to_safe_boundary items c in
  (c ≤ s ≤ length items)%nat ∧
  Forall (λ x, is_tool_result x = true) (take (s - c) (drop c items)) ∧
  (∀ x, items !! s = Some x → is_tool_result x = false).
Proof.
  intros Hc. unfold snap_to_safe_boundary. destruct (Nat.leb_spec (length items) c) as [Hle|Hlt].
  - simpl. assert (c = length items) as -> by lia. rewrite Nat.sub_diag.
    split_and!; [lia|lia|constructor|]. intros x Hx%lookup_lt_Some. lia.
  - destruct (lookup_lt_is_Some_2 _ _ Hlt) as [x Hx]. rewrite Hx.
    destruct (is_tool_result x) eqn:Htool; simpl.
    + pose proof (tool_run_le (drop c items)) as Hr. rewrite length_drop in Hr.
      split_and!; [lia|lia| |].
      * replace (_ - c)%nat with (tool_run (drop c items)) by lia. apply tool_run_all.
      * intros y Hy. apply (tool_run_stops (drop c items)). by rewrite lookup_drop.
    + rewrite Nat.sub_diag. split_and!; [lia|lia|constructor|congruence].
Qed.

(** The walk and the snap together. *)
Lemma select_candidate counts items target :
  length counts = length items → Forall (λ x, 0 ≤ x) counts → 0 ≤ target →
  let c := walk_back counts target (length items) 0 (length items) in
  (c ≤ length items)%nat ∧ sum_counts (drop c counts) ≤ target ∧
  (c = 0%nat ∨ target < sum_counts (drop (pred c) counts)).
Proof.
  intros Hlen Hpos Ht. apply walk_back_spec; [lia|done| |done].
  by rewrite drop_ge by lia.
Qed.

Lemma sum_counts_drop_le counts (n m : nat) :
  Forall (λ x, 0 ≤ x) counts → (n ≤ m)%nat → sum_counts (drop m counts) ≤ sum_counts (drop n counts).
Proof.
  intros Hpos Hnm. rewrite !sum_counts_spec by by apply Forall_drop.
  replace (drop m counts) with (drop (m - n) (drop n counts)) by (rewrite drop_drop; f_equal; lia).
  set (l := drop n counts). assert (Hl : Forall (λ x, 0 ≤ x) l) by by apply Forall_drop.
  pose proof (foldr_add_app (take (m - n) l) (drop (m - n) l)) as Happ. rewrite take_drop in Happ.
  pose proof (foldr_add_nonneg _ (Forall_take _ (m - n) _ Hl)). lia.
Qed.

Lemma select_some counts items target minc plan :
  length counts = length items → Forall (λ x, 0 ≤ x) counts → 0 ≤ target →
  select_turns_to_compact counts items target minc = Some plan →
  (0 < split_idx plan < length items)%nat ∧
  sum_counts (drop (split_idx plan) counts) ≤ target ∧
  (∀ x, items !! split_idx plan = Some x → is_tool_result x = false) ∧
  tokens_to_compact plan = sum_counts (take (split_idx plan) counts) ∧
  minc ≤ tokens_to_compact plan ∧
  ∃ c, (0 < c ≤ split_idx plan)%nat ∧ target < sum_counts (drop (pred c) counts) ∧
    Forall (λ x, is_tool_result x = true) (take (split_idx plan - c) (drop c items)).
Proof.
  intros Hlen Hpos Ht. unfold select_turns_to_compact.
  destruct (select_candidate counts items target Hlen Hpos Ht) as (Hc & Hsum & Hmax).
  set (c := walk_back _ _ _ _ _) in *. destruct (length items =? 0)%nat; [done|].
  destruct (Nat.eqb_spec c 0); [done|]. destruct Hmax as [|Hmax]; [done|].
  destruct (snap_spec items c Hc) as (Hs & Hall & Hsafe).
  set (s := snap_to_safe_boundary items c) in *.
  destruct (Nat.leb_spec (length items) s); [done|].
  destruct (Z.ltb_spec (sum_counts (take s counts)) minc); [done|].
  intros [= <-]; simpl. split_and!; [lia|lia| |done|done|done|].
  - pose proof (sum_counts_drop_le counts c s Hpos ltac:(lia)). lia.
  - exists c. split_and!; [lia|lia|done|done].
Qed.
End select_lemmas.

(** * Theorems *)

(** the split.  When there is one, both sides are nonempty, what is kept
    fits the target, the kept side does not start with a tool result (so no
    result loses its request), the tokens reported are those of the compacted
    side and reach the minimum, and the kept side could not be longer: the
    items given up beyond the budget's own cut are tool results only.  When
    there is none, everything fits, or what fits is tool results only, or too
    little would be compacted. *)
Theorem select_turns_to_compact_spec {T} `{!CompactionItem T} counts (items : list T) target minc :
  length counts = length items → Forall (λ x, 0 ≤ x) counts → 0 ≤ target →
  match select_turns_to_compact counts items target minc with
  | Some plan =>
      (0 < split_idx plan < length items)%nat ∧
      sum_counts (drop (split_idx plan) counts) ≤ target ∧
      (∀ x, items !! split_idx plan = Some x → is_tool_result x = false) ∧
      tokens_to_compact plan = sum_counts (take (split_idx plan) counts) ∧
      minc ≤ tokens_to_compact plan ∧
      ∃ c, (0 < c ≤ split_idx plan)%nat ∧ target < sum_counts (drop (pred c) counts) ∧
        Forall (λ x, is_tool_result x = true) (take (split_idx plan - c) (drop c items))
  | None =>
      sum_counts counts ≤ target ∨
      ∃ c, (0 < c ≤ length items)%nat ∧ target < sum_counts (drop (pred c) counts) ∧
        (Forall (λ x, is_tool_result x = true) (drop c items) ∨
         sum_counts (take (snap_to_safe_boundary items c) counts) < minc)
  end.
Proof.
  intros Hlen Hpos Ht. destruct (select_turns_to_compact counts items target minc) as [plan|] eqn:Hsel;
    [by eapply select_some in Hsel|].
  revert Hsel. unfold select_turns_to_compact.
  destruct (select_candidate counts items target Hlen Hpos Ht) as (Hc & Hsum & Hmax).
  set (c := walk_back _ _ _ _ _) in *.
  destruct (Nat.eqb_spec (length items) 0) as [H0|H0].
  { intros _. left. replace c with 0%nat in Hsum by lia. by rewrite drop_0 in Hsum. }
  destruct (Nat.eqb_spec c 0) as [Hc0|]; [intros _; left; by rewrite Hc0, drop_0 in Hsum|].
  destruct Hmax as [|Hmax]; [done|]. intros Hsel. right. exists c. split_and!; [lia|lia|done|].
  destruct (snap_spec items c Hc) as (Hs & Hall & _).
  destruct (Nat.leb_spec (length items) (snap_to_safe_boundary items c)).
  - left. rewrite take_ge in Hall by (rewrite length_drop; lia). done.
  - right. destruct (Z.ltb_spec (sum_counts (take (snap_to_safe_boundary items c) counts)) minc); done.
Qed.

#[local] Instance bool_item : CompactionItem bool :=
  {| role := λ b : bool, if b then Tool else Assistant; text := λ _, None; is_tool_result := λ b, b;
     has_tool_requests := negb; is_compaction_summary := λ _, false; attachment_refs := λ _, [] |}.

Lemma select_turns_to_compact_spec_witness :
  ∃ plan, select_turns_to_compact [40; 30; 20; 10] [false; true; false; true] 60 0 = Some plan ∧
    (∀ x, [false; true; false; true] !! split_idx plan = Some x → is_tool_result x = false).
Proof.
  pose proof (select_turns_to_compact_spec [40; 30; 20; 10] [false; true; false; true] 60 0
    eq_refl ltac:(repeat constructor; lia) ltac:(lia)) as H.
  destruct (select_turns_to_compact _ _ 60 0) as [plan|] eqn:Hsel; [|vm_compute in Hsel; discriminate].
  exists plan. split; [done|apply H].
Defined.

(** the trigger.  With percentages up to 100, compaction fires exactly
    when it is enabled, the window is known, the step floor is met (or the
    mode is full replace, which has none), and the prompt takes strictly more
    than the threshold's share of the window; the percentage reported is then
    at most 100 and at least the threshold. *)
Theorem should_compact_spec policy p w s :
  uint 32 p → uint 32 w → 0 ≤ ic_trigger_threshold_percent policy ≤ 100 →
  let thr := ic_trigger_threshold_percent policy in
  (is_Some (should_compact policy p w s) ↔
     ic_enabled policy = true ∧ w ≠ 0 ∧
     (ic_mode policy = MFullReplace ∨ ic_min_steps_before_compact policy ≤ s) ∧ w * thr < p * 100) ∧
  (∀ t, should_compact policy p w s = Some t →
     last_prompt_tokens t = p ∧ context_window t = w ∧ trigger_step t = s ∧ thr ≤ percent t ≤ 100).
Proof.
  unfold uint. rewrite umax_32. intros Hp Hw Hthr.
  set (thr := ic_trigger_threshold_percent policy) in *.
  assert (Hpo : percent_of w thr = w * thr / 100).
  { unfold percent_of. assert (0 ≤ w * thr ≤ 4294967295 * 100) by nia.
    rewrite (wrap_id 64) by (unfold uint; rewrite umax_64; lia). apply wrap_id.
    unfold uint. rewrite umax_32. split; [apply Z.div_pos; lia|].
    apply Z.div_le_upper_bound; lia. }
  assert (Hlt : p ≤ w * thr / 100 ↔ ¬ w * thr < p * 100).
  { split; intros H.
    - pose proof (Z.mul_div_le (w * thr) 100 ltac:(lia)). lia.
    - apply Z.div_le_lower_bound; lia. }
  unfold should_compact. fold thr. rewrite Hpo.
  destruct (ic_enabled policy); simpl; [|split; [split; [by intros []|naive_solver]|done]].
  destruct (Z.eqb_spec w 0); [split; [split; [by intros []|naive_solver]|done]|].
  destruct (negb (bool_decide (ic_mode policy = MFullReplace)) && (s <? ic_min_steps_before_compact policy)) eqn:Hg.
  { apply andb_prop in Hg as [Hm%negb_true_iff%bool_decide_eq_false Hs%Z.ltb_lt].
    split; [split; [by intros []|intros (_ & _ & [?|?] & _); [done|lia]]|done]. }
  assert (ic_mode policy = MFullReplace ∨ ic_min_steps_before_compact policy ≤ s).
  { destruct (decide (ic_mode policy = MFullReplace)) as [|Hm]; [by left|right].
    rewrite (bool_decide_eq_false_2 _ Hm) in Hg. simpl in Hg. lia. }
  destruct (Z.leb_spec p (w * thr / 100)) as [Hle|Hgt].
  { split; [split; [by intros []|]|done]. intros (_ & _ & _ & Hc). by apply Hlt in Hc. }
  assert (Hc : w * thr < p * 100) by lia. split; [by split|].
  intros t [= <-]; simpl. split_and!; [done..| |].
  - rewrite wrap_id.
    + apply Z.min_glb; [|lia]. apply Z.div_le_lower_bound; nia.
    + split; [apply Z.min_glb; [apply Z.div_pos; nia|lia]|change (umax 8) with 255; lia].
  - rewrite wrap_id; [lia|].
    split; [apply Z.min_glb; [apply Z.div_pos; nia|lia]|change (umax 8) with 255; lia].
Qed.

Definition enabled_config : IntraCompactionConfig :=
  mkIntraConfig true MFullReplace 85 3 5000 (f64_lit 4 5) None 120 2 3 [] Shared 50 (f64_lit 3 10) 3000.

Lemma should_compact_spec_witness :
  is_Some (should_compact enabled_config 8501 10000 0) ∧ ¬ is_Some (should_compact enabled_config 8500 10000 0).
Proof.
  split.
  - apply (should_compact_spec enabled_config 8501 10000 0); [vm_compute; by split..|simpl; lia|].
    simpl. split_and!; [done|lia|by left|lia].
  - rewrite (proj1 (should_compact_spec enabled_config 8500 10000 0 ltac:(vm_compute; by split)
      ltac:(vm_compute; by split) ltac:(simpl; lia))).
    simpl. lia.
Defined.
