(* ===== verification/CompactionFit.v ===== *)
(** Fitting the summarizer's input to a token budget
    (src/crates/common/intellihelper-compaction/src/intra_compaction/fit.rs):
    the ladder of [fit_turns_for_summarizer] and the text clip harnesses use
    for [truncate_payload_for_compaction]. *)
From S2P Require Import Prelude Str CompactionItem CompactionSelect.

Inductive FitRung : Type :=
| Verbatim | HistoryTurnSelected | ToolTruncated | StepTurnsSelected | Emergency.

#[global] Instance FitRung_eq_dec : EqDecision FitRung.
Proof. solve_decision. Defined.

Record FitPlan (T : Type) : Type := mkPlan {
  llm_turns : list T;
  tokens_raw : Z;
  tokens_fit : Z;
  rung : FitRung;
  items_truncated : Z;
  history_turns_omitted : Z;
  step_turns_omitted : Z;
}.
Arguments mkPlan {T}.
Arguments llm_turns {T}.
Arguments tokens_raw {T}.
Arguments tokens_fit {T}.
Arguments rung {T}.
Arguments items_truncated {T}.
Arguments history_turns_omitted {T}.
Arguments step_turns_omitted {T}.

(** [len() as u32]. *)
Definition len_u32 {A} (l : list A) : Z := wrap 32 (zlen l).

Section fit.
Context {T : Type} `{CompactionItemBuilder T} `{!ItemTokenCounter T}.
Implicit Types turns history steps : list T.

Definition shrink_item_to_token_budget (item : T) (max_tokens : Z) : T :=
  truncate_payload_for_compaction item max_tokens.

Definition oversized_tool (max_tokens : Z) (t : T) : bool :=
  is_tool_result t && (max_tokens <? count_item_tokens t).

Definition shrink_oversized_tool_results turns (max_tokens : Z) : list T * Z :=
  ((λ t, if oversized_tool max_tokens t then shrink_item_to_token_budget t max_tokens else t) <$> turns,
   countb (oversized_tool max_tokens) turns).

Definition keep_recent_under_budget turns (counts : list Z) (budget : Z) : option (list T * Z) :=
  match turns with
  | [] => Some ([], 0)
  | _ =>
      if budget =? 0 then Some ([], len_u32 turns)
      else if sum_counts counts <=? budget then Some (turns, 0)
      else
        plan ← select_turns_to_compact counts turns budget 0;
        Some (drop (split_idx plan) turns, wrap 32 (Z.of_nat (split_idx plan)))
  end.

Definition plan_ok history steps (raw : Z) (r : FitRung) (truncated ho so : Z) : FitPlan T :=
  let turns := history ++ steps in
  mkPlan turns raw (sum_tokens turns) r truncated ho so.

(** Stages 1 and 3: drop the oldest of [turns], leaving [other] tokens of the
    budget to the other side; what remains, its counts, and how many went. *)
Definition drop_oldest turns (counts : list Z) (other budget : Z) : list T * list Z * Z :=
  if other <? budget then
    let b := budget - other in
    if b <? sum_counts counts then
      match keep_recent_under_budget turns counts b with
      | Some (keep, omitted) => (keep, drop (Z.to_nat omitted) counts, omitted)
      | None => ([], [], len_u32 turns)
      end
    else (turns, counts, 0)
  else ([], [], len_u32 turns).

(** Stage 4. *)
Definition emergency history steps hist step (budget raw truncated ho so : Z) : FitPlan T :=
  let combined := hist ++ step in
  let '(source, ho', so') :=
    match combined with
    | [] =>
        (history ++ steps,
         if (length steps =? 0)%nat then wrap 32 (sat_sub (zlen history) 1) else len_u32 history,
         if (length steps =? 0)%nat then 0 else wrap 32 (sat_sub (zlen steps) 1))
    | _ =>
        if (length step =? 0)%nat
        then (combined, sat_add 32 ho (wrap 32 (sat_sub (zlen hist) 1)), so)
        else (combined, sat_add 32 ho (len_u32 hist),
              sat_add 32 so (wrap 32 (sat_sub (zlen step) 1)))
    end in
  match last source with
  | None => mkPlan [] raw 0 Emergency truncated ho' so'
  | Some newest =>
      let kept := [shrink_item_to_token_budget newest budget] in
      mkPlan kept raw (sum_tokens kept) Emergency (sat_add 32 truncated 1) ho' so'
  end.

Definition fit_turns_for_summarizer history steps (budget : Z) : FitPlan T :=
  let hist_counts := token_counts history in
  let step_counts := token_counts steps in
  let raw := sat_add 32 (sum_counts hist_counts) (sum_counts step_counts) in
  if budget =? 0 then
    mkPlan [] raw 0 Emergency 0 (len_u32 history) (len_u32 steps)
  else if raw <=? budget then plan_ok history steps raw Verbatim 0 0 0
  else
    (* 1: history *)
    let '(hist, hist_counts, ho) :=
      drop_oldest history hist_counts (sum_counts step_counts) budget in
    if sat_add 32 (sum_counts hist_counts) (sum_counts step_counts) <=? budget
    then plan_ok hist steps raw HistoryTurnSelected 0 ho 0
    else
      (* 2: tool results *)
      let '(hist, n1) := shrink_oversized_tool_results hist budget in
      let '(step, n2) := shrink_oversized_tool_results steps budget in
      let truncated := sat_add 32 n1 n2 in
      let hist_counts := token_counts hist in
      let step_counts := token_counts step in
      if sat_add 32 (sum_counts hist_counts) (sum_counts step_counts) <=? budget
      then plan_ok hist step raw ToolTruncated truncated ho 0
      else
        (* 3: steps *)
        let '(step, step_counts, so) :=
          drop_oldest step step_counts (sum_counts hist_counts) budget in
        if (sat_add 32 (sum_counts hist_counts) (sum_counts step_counts) <=? budget)
           && negb ((length hist =? 0)%nat && (length step =? 0)%nat)
        then plan_ok hist step raw StepTurnsSelected truncated ho so
        else emergency history steps hist step budget raw truncated ho so.
End fit.

(** ** [truncate_text_to_token_budget] *)

(** [&text[..end]] for the last character boundary at or before [end]. *)
Fixpoint floor_boundary (end_ : Z) (s : rstr) : rstr :=
  match s with
  | [] => []
  | c :: s' => if len_utf8 c <=? end_ then c :: floor_boundary (end_ - len_utf8 c) s' else []
  end.

Definition MARKER_RESERVE : Z := 64.

(** [usize] is 64 bits wide. *)
Definition truncate_text_to_token_budget (text : rstr) (max_tokens : Z) : rstr :=
  let max_bytes := sat_mul 64 max_tokens 4 in
  if byte_len text <=? max_bytes then text
  else
    let kept := floor_boundary (Z.min (sat_sub max_bytes MARKER_RESERVE) (byte_len text)) text in
    let dropped := byte_len text - byte_len kept in
    kept ++ [10] ++ lit "[... truncated " ++ fmt_dec dropped
      ++ lit " bytes to fit the compaction window ...]".

(** * Lemmas *)

Section fit_lemmas.
Context {T : Type} `{CompactionItemBuilder T} `{!ItemTokenCounter T}.
Implicit Types turns history steps : list T.

Definition no_tool_head turns : Prop := ∀ x, head turns = Some x → is_tool_result x = false.

Lemma no_tool_head_app l k : no_tool_head l → no_tool_head k → no_tool_head (l ++ k).
Proof. unfold no_tool_head. by destruct l. Qed.

Lemma len_u32_id turns : zlen turns ≤ umax 32 → len_u32 turns = zlen turns.
Proof. intros. apply wrap_id. split; [apply zlen_nonneg|done]. Qed.

Lemma shrink_length turns b : length (shrink_oversized_tool_results turns b).1 = length turns.
Proof. apply length_fmap. Qed.

Lemma shrink_head turns b : no_tool_head turns → no_tool_head (shrink_oversized_tool_results turns b).1.
Proof.
  unfold no_tool_head. destruct turns as [|x turns]; [done|]. simpl. intros Hx y [= <-].
  unfold oversized_tool. rewrite (Hx x eq_refl). by apply Hx.
Qed.

Lemma sum_tokens_app l k : sum_tokens (l ++ k) = sat_add 32 (sum_tokens l) (sum_tokens k).
Proof. unfold sum_tokens. rewrite token_counts_app. apply sum_counts_app; auto with rust. Qed.

Lemma sum_tokens_range l : uint 32 (sum_tokens l).
Proof. apply sum_counts_range. auto with rust. Qed.

(** What a drop stage leaves: a suffix, with its counts, within the budget
    left by the other side, and not starting with a tool result when
    anything was dropped. *)
Lemma drop_oldest_spec turns other budget :
  zlen turns ≤ umax 32 → 0 ≤ other →
  ∃ k : nat,
    (k ≤ length turns)%nat ∧
    drop_oldest turns (token_counts turns) other budget =
      (drop k turns, token_counts (drop k turns), Z.of_nat k) ∧
    (if other <? budget then other + sum_tokens (drop k turns) ≤ budget else k = length turns) ∧
    (k ≠ 0%nat → no_tool_head (drop k turns)).
Proof.
  intros Hlen Hother. unfold drop_oldest.
  assert (Hall : ([], [], len_u32 turns) =
    (drop (length turns) turns, token_counts (drop (length turns) turns), Z.of_nat (length turns))).
  { by rewrite drop_all, len_u32_id. }
  destruct (Z.ltb_spec other budget) as [Hlt|Hge].
  2: { exists (length turns). split_and!; [done|done|done|]. intros _ x. by rewrite drop_all. }
  change (sum_counts (token_counts turns)) with (sum_tokens turns).
  destruct (Z.ltb_spec (budget - other) (sum_tokens turns)) as [Hover|Hfits].
  2: { exists 0%nat. rewrite drop_0. split_and!; [lia|done|lia|done]. }
  unfold keep_recent_under_budget. destruct turns as [|x0 turns'] eqn:Hturns.
  { change (sum_tokens []) with 0 in Hover. lia. }
  rewrite <- Hturns in *. clear x0 turns' Hturns.
  rewrite (proj2 (Z.eqb_neq (budget - other) 0)) by lia.
  change (sum_counts (token_counts turns)) with (sum_tokens turns).
  rewrite (proj2 (Z.leb_gt _ _)) by lia.
  destruct (select_turns_to_compact _ turns _ _) as [plan|] eqn:Hsel; simpl.
  - apply select_some in Hsel as (Hs & Hsum & Hsafe & _);
      [|by unfold token_counts; rewrite length_fmap|auto with rust|lia].
    assert (uint 32 (Z.of_nat (split_idx plan))) by (unfold uint; unfold zlen in Hlen; lia).
    exists (split_idx plan). rewrite wrap_id, Nat2Z.id by done.
    unfold token_counts in *. rewrite <- fmap_drop. split_and!; [lia|done| |].
    + rewrite <- fmap_drop in Hsum. unfold sum_tokens, token_counts. lia.
    + intros _ x Hx. apply Hsafe. by rewrite head_lookup, lookup_drop, Nat.add_0_r in Hx.
  - exists (length turns). split_and!; [done|done| |].
    + rewrite drop_all. change (sum_tokens []) with 0. lia.
    + intros _ x. by rewrite drop_all.
Qed.
End fit_lemmas.

(** * What the ladder promises

    One constructor per rung, with the reason it was reached.  [raw] is the
    saturated token count of everything.  Past the first rung no history is
    left, since dropping history stops as soon as the steps leave room. *)

Section spec.
Context {T : Type} `{CompactionItemBuilder T} `{!ItemTokenCounter T}.
Implicit Types history steps : list T.

Definition clipped (steps : list T) (budget : Z) : list T :=
  (shrink_oversized_tool_results steps budget).1.

Inductive fit_spec history steps (budget : Z) : FitPlan T → Prop :=
| fit_no_budget raw :
    budget = 0 →
    fit_spec history steps budget (mkPlan [] raw 0 Emergency 0 (zlen history) (zlen steps))
| fit_verbatim raw :
    raw = sum_tokens (history ++ steps) → raw ≤ budget →
    fit_spec history steps budget (mkPlan (history ++ steps) raw raw Verbatim 0 0 0)
| fit_history raw (k : nat) fit :
    raw = sum_tokens (history ++ steps) → budget < raw →
    (0 < k ≤ length history)%nat →
    fit = sum_tokens (drop k history ++ steps) → fit ≤ budget →
    no_tool_head (drop k history) →
    fit_spec history steps budget
      (mkPlan (drop k history ++ steps) raw fit HistoryTurnSelected 0 (Z.of_nat k) 0)
| fit_tools raw n fit :
    raw = sum_tokens (history ++ steps) → budget < sum_tokens steps →
    fit = sum_tokens (clipped steps budget) → fit ≤ budget →
    fit_spec history steps budget
      (mkPlan (clipped steps budget) raw fit ToolTruncated n (zlen history) 0)
| fit_steps raw n (j : nat) fit :
    raw = sum_tokens (history ++ steps) → budget < sum_tokens (clipped steps budget) →
    (0 < j < length steps)%nat →
    fit = sum_tokens (drop j (clipped steps budget)) → fit ≤ budget →
    no_tool_head (drop j (clipped steps budget)) →
    fit_spec history steps budget
      (mkPlan (drop j (clipped steps budget)) raw fit StepTurnsSelected n (zlen history) (Z.of_nat j))
| fit_emergency raw n newest :
    raw = sum_tokens (history ++ steps) → budget < sum_tokens (clipped steps budget) →
    last steps = Some newest →
    (∀ plan, select_turns_to_compact (token_counts (clipped steps budget))
               (clipped steps budget) budget 0 ≠ Some plan) →
    fit_spec history steps budget
      (mkPlan [truncate_payload_for_compaction newest budget] raw
         (count_item_tokens (truncate_payload_for_compaction newest budget)) Emergency
         n (zlen history) (zlen steps - 1)).

Lemma sum_tokens_single (t : T) : sum_tokens [t] = count_item_tokens t.
Proof.
  pose proof (count_item_tokens_u32 t) as [? ?]. unfold sum_tokens.
  rewrite sum_counts_spec by auto with rust. unfold token_counts. simpl. lia.
Qed.

(** Stage 3, once no history is left. *)
Lemma drop_oldest_steps step budget :
  zlen step ≤ umax 32 → 0 < budget < sum_tokens step →
  (∃ j, (0 < j < length step)%nat ∧ no_tool_head (drop j step) ∧
     sum_tokens (drop j step) ≤ budget ∧
     drop_oldest step (token_counts step) 0 budget
       = (drop j step, token_counts (drop j step), Z.of_nat j)) ∨
  (drop_oldest step (token_counts step) 0 budget = ([], [], zlen step) ∧
   ∀ plan, select_turns_to_compact (token_counts step) step budget 0 ≠ Some plan).
Proof.
  intros Hlen Hb. destruct (drop_oldest_spec step 0 budget Hlen ltac:(lia)) as (j & Hj & Heq & Hsum & Hhead).
  rewrite (proj2 (Z.ltb_lt 0 budget)) in Hsum by lia.
  destruct (decide (j = length step)) as [->|Hne].
  - right. rewrite Heq, drop_all. split; [done|]. intros plan Hsel.
    assert (Hl : length (token_counts step) = length step) by apply length_fmap.
    pose proof (select_some (token_counts step) step budget 0 plan Hl (token_counts_nonneg step) ltac:(lia) Hsel) as [Hs _].
    revert Heq. unfold drop_oldest. rewrite (proj2 (Z.ltb_lt 0 budget)) by lia. rewrite Z.sub_0_r.
    change (sum_counts (token_counts step)) with (sum_tokens step).
    rewrite (proj2 (Z.ltb_lt _ _)) by lia.
    unfold keep_recent_under_budget. destruct step as [|x s] eqn:Hst; [simpl in Hs; lia|].
    rewrite <- Hst in *. rewrite (proj2 (Z.eqb_neq budget 0)) by lia.
    change (sum_counts (token_counts step)) with (sum_tokens step).
    rewrite (proj2 (Z.leb_gt _ _)) by lia. rewrite Hsel. simpl. rewrite drop_all.
    intros [= Hd _ _]. apply (f_equal length) in Hd. rewrite length_drop in Hd. simpl in Hd. lia.
  - left. exists j. assert (j ≠ 0%nat).
    { intros ->. rewrite drop_0 in Hsum. lia. }
    split_and!; [lia|lia|by apply Hhead|lia|done].
Qed.
End spec.

Section fit_theorems.
Context {T : Type} `{CompactionItemBuilder T} `{!ItemTokenCounter T}.
Implicit Types history steps : list T.

Lemma fit_past_history history steps budget raw :
  zlen history + zlen steps ≤ umax 32 → 0 < budget → raw = sum_tokens (history ++ steps) →
  budget < raw →
  (∃ k : nat, (0 < k ≤ length history)%nat ∧ no_tool_head (drop k history) ∧
     sum_tokens (drop k history ++ steps) ≤ budget ∧
     drop_oldest history (token_counts history) (sum_tokens steps) budget
       = (drop k history, token_counts (drop k history), Z.of_nat k)) ∨
  (budget < sum_tokens steps ∧
   drop_oldest history (token_counts history) (sum_tokens steps) budget = ([], [], zlen history)).
Proof.
  intros Hlen Hb -> Hraw. pose proof (sum_tokens_range steps) as [Hs0 Hs1].
  pose proof (zlen_nonneg history). pose proof (zlen_nonneg steps).
  destruct (drop_oldest_spec history (sum_tokens steps) budget) as (k & Hk & Heq & Hsum & Hhead); [lia..|].
  rewrite sum_tokens_app in Hraw. pose proof (sum_tokens_range history) as [Hh0 _].
  destruct (Z.ltb_spec (sum_tokens steps) budget).
  - left. exists k. assert (k ≠ 0%nat).
    { intros ->. rewrite drop_0 in Hsum. unfold sat_add in Hraw. lia. }
    split_and!; [lia|lia|by apply Hhead| |done].
    rewrite sum_tokens_app. unfold sat_add. lia.
  - subst k. rewrite drop_all in Heq. destruct (Z.eq_dec (sum_tokens steps) budget) as [Hsb|].
    + left. exists (length history). rewrite drop_all. destruct history as [|x history'] eqn:Hh.
      { change (sum_tokens []) with 0 in Hraw. unfold sat_add in Hraw. lia. }
      rewrite <- Hh in *. split_and!; [rewrite Hh; simpl; lia|lia|done|simpl; lia|done].
    + right. split; [lia|done].
Qed.

Lemma fit_satisfies_spec history steps budget :
  zlen history + zlen steps ≤ umax 32 → 0 ≤ budget →
  fit_spec history steps budget (fit_turns_for_summarizer history steps budget).
Proof.
  intros Hlen Hb. pose proof (zlen_nonneg history). pose proof (zlen_nonneg steps).
  unfold fit_turns_for_summarizer.
  change (sum_counts (token_counts history)) with (sum_tokens history).
  change (sum_counts (token_counts steps)) with (sum_tokens steps).
  rewrite <- sum_tokens_app. set (raw := sum_tokens (history ++ steps)).
  destruct (Z.eqb_spec budget 0) as [|Hb0].
  { rewrite !len_u32_id by lia. by constructor. }
  destruct (Z.leb_spec raw budget) as [|Hraw]; [by apply fit_verbatim|].
  destruct (fit_past_history history steps budget raw) as [(k & Hk & Hhead & Hsum & ->)|[Hsteps ->]];
    [lia|lia|done|done| |].
  { change (sum_counts (token_counts (drop k history))) with (sum_tokens (drop k history)).
    rewrite <- sum_tokens_app, (proj2 (Z.leb_le _ _)) by done. by apply fit_history. }
  pose proof (sum_tokens_range steps) as [Hs0 Hs1].
  assert (Hz : ∀ x, uint 32 x → sat_add 32 (sum_counts []) x = x)
    by (intros x [? ?]; change (sum_counts []) with 0; unfold sat_add; lia).
  rewrite Hz, (proj2 (Z.leb_gt _ _)) by (done || lia). simpl fst.
  change (shrink_oversized_tool_results [] budget) with (@nil T, 0).
  pose proof (eq_refl : (shrink_oversized_tool_results steps budget).1 = clipped steps budget) as Hclip.
  destruct (shrink_oversized_tool_results steps budget) as [step n] eqn:Hshr.
  simpl in Hclip. subst step. set (step := clipped steps budget) in *.
  change (sum_counts (token_counts step)) with (sum_tokens step).
  change (token_counts []) with (@nil Z). rewrite (Hz _ (sum_tokens_range step)).
  change (sum_counts []) with 0.
  assert (Hlstep : length step = length steps) by apply shrink_length.
  destruct (Z.leb_spec (sum_tokens step) budget) as [|Hstep].
  { by apply fit_tools. }
  destruct (drop_oldest_steps step budget) as [(j & Hj & Hhead & Hsum & ->)|[-> Hnone]];
    [unfold zlen in *; rewrite Hlstep; lia|lia| |].
  - change (sum_counts (token_counts (drop j step))) with (sum_tokens (drop j step)).
    change 0 with (sum_counts []) at 2. rewrite (Hz _ (sum_tokens_range _)).
    rewrite (proj2 (Z.leb_le _ _)) by done. rewrite length_drop.
    rewrite (proj2 (Nat.eqb_neq (length step - j) 0)) by lia. simpl. apply fit_steps; [done|done|lia|done..].
  - simpl length. rewrite !andb_false_r. unfold emergency. simpl app.
    destruct steps as [|s0 steps' _] using rev_ind; [change (sum_tokens []) with 0 in Hsteps; lia|].
    rewrite last_app, last_snoc. rewrite (proj2 (Nat.eqb_neq _ 0)) by (rewrite length_app; simpl; lia).
    rewrite sum_tokens_single, len_u32_id by lia.
    assert (Hz1 : zlen step = zlen (steps' ++ [s0])) by (unfold zlen; by rewrite Hlstep).
    rewrite wrap_id by (unfold uint, sat_sub; lia).
    replace (sat_sub (zlen (steps' ++ [s0])) 1) with (zlen (steps' ++ [s0]) - 1)
      by (rewrite zlen_app, zlen_cons, zlen_nil in *; unfold sat_sub; pose proof (zlen_nonneg steps'); lia).
    apply fit_emergency; [done|done|by rewrite last_snoc|done].
Qed.
End fit_theorems.

(** * Theorems *)

(** C5: the ladder refines its abstract specification: budget zero, verbatim,
    history dropped, tool results clipped, steps dropped, emergency, each
    reached only when the rungs before it do not fit. *)
Theorem fit_refines_ladder {T} `{CompactionItemBuilder T} `{!ItemTokenCounter T}
    (history steps : list T) budget :
  zlen history + zlen steps ≤ umax 32 → 0 ≤ budget →
  fit_spec history steps budget (fit_turns_for_summarizer history steps budget).
Proof. apply fit_satisfies_spec. Qed.

Lemma fit_refines_ladder_witness :
  fit_spec [Mock.user 50] [Mock.assistant 30; Mock.tool 90] 60
    (fit_turns_for_summarizer [Mock.user 50] [Mock.assistant 30; Mock.tool 90] 60).
Proof. apply fit_refines_ladder; vm_compute; discriminate. Defined.

(** what every caller relies on.  The reported fit is the token count of
    the returned turns; it is within the budget on every rung but the
    emergency one; the turns kept and those reported omitted add up to the
    input; something is returned whenever there are a budget and steps; and
    outside the emergency rung the result does not start with an orphaned
    tool result when neither input does. *)
Theorem fit_guarantees {T} `{CompactionItemBuilder T} `{!ItemTokenCounter T}
    (history steps : list T) budget :
  zlen history + zlen steps ≤ umax 32 → 0 ≤ budget →
  let plan := fit_turns_for_summarizer history steps budget in
  (budget ≠ 0 → tokens_fit plan = sum_tokens (llm_turns plan)) ∧
  (rung plan ≠ Emergency → tokens_fit plan ≤ budget) ∧
  history_turns_omitted plan + step_turns_omitted plan + zlen (llm_turns plan)
    = zlen history + zlen steps ∧
  (budget ≠ 0 → steps ≠ [] → llm_turns plan ≠ []) ∧
  (no_tool_head history → no_tool_head steps → rung plan ≠ Emergency →
   no_tool_head (llm_turns plan)).
Proof.
  intros Hlen Hb plan. subst plan.
  assert (Hcl : zlen (clipped steps budget) = zlen steps)
    by (unfold zlen, clipped; by rewrite shrink_length).
  destruct (fit_satisfies_spec history steps budget Hlen Hb) as
    [raw ->|raw -> ?|raw k ft -> ? ? -> ? ?|raw n ft -> ? -> ?|raw n j ft -> ? ? -> ? ?|raw n newest -> ? Hlast ?];
    cbn [tokens_fit llm_turns rung history_turns_omitted step_turns_omitted].
  - split_and!; [done|done|change (zlen (@nil T)) with 0; lia|done|done].
  - split_and!; [done|lia|rewrite zlen_app; lia|by intros _ Hs [_ ?]%app_nil|by intros; apply no_tool_head_app].
  - split_and!; [done|lia| | |by intros; apply no_tool_head_app].
    + rewrite zlen_app. unfold zlen. rewrite length_drop. lia.
    + by intros _ Hs [_ ?]%app_nil.
  - split_and!; [done|lia|rewrite Hcl; lia| |].
    + intros _ _ Hnil. rewrite Hnil in *. assert (zlen steps = 0) as Hz by done.
      destruct steps; [change (sum_tokens []) with 0 in *; lia|unfold zlen in Hz; simpl in Hz; lia].
    + intros _ Hs _. by apply shrink_head.
  - split_and!; [done|lia| | |done].
    + unfold zlen in *. rewrite length_drop. lia.
    + intros _ _ Hnil. apply (f_equal length) in Hnil. rewrite length_drop in Hnil. unfold zlen in Hcl. simpl in Hnil. lia.
  - split_and!; [by rewrite sum_tokens_single|done|change (zlen [_]) with 1; lia|done|done].
Qed.

Lemma fit_guarantees_witness :
  no_tool_head (llm_turns (fit_turns_for_summarizer
    [Mock.user 50; Mock.assistant 20] [Mock.assistant 30; Mock.tool 20] 60)).
Proof.
  pose proof (fit_guarantees [Mock.user 50; Mock.assistant 20] [Mock.assistant 30; Mock.tool 20] 60
    ltac:(vm_compute; discriminate) ltac:(lia)) as (_ & _ & _ & _ & H).
  apply H; [by intros x [= <-]..|vm_compute; discriminate].
Defined.

(** a conversation whose history alone is over the budget, with no steps
    yet and a newest item that does not fit, is fitted to an empty plan on the
    history rung: the emergency rung, which keeps the newest item for exactly
    this case, is not reached. *)
Theorem fit_history_only_empties :
  let plan := fit_turns_for_summarizer [Mock.user 40; Mock.assistant 100] [] 60 in
  rung plan = HistoryTurnSelected ∧ llm_turns plan = [] ∧ history_turns_omitted plan = 2.
Proof. vm_compute. done. Qed.
