(* ===== verification/CompactionHistory.v ===== *)
(** History compaction: filtering items and carrying user queries across
    compactions (src/crates/common/intellihelper-compaction/src/history/:
    filter.rs, validate.rs, types.rs). *)
From S2P Require Import Prelude Str CompactionItem.

(** * types.rs *)

Inductive CompactionStrategy : Type := SBasic | SDivideAndConquer | SFullReplace.

Definition strategy_label (s : CompactionStrategy) : rstr :=
  match s with
  | SBasic => lit "basic"
  | SDivideAndConquer => lit "divide_and_conquer"
  | SFullReplace => lit "full_replace"
  end.

(** * filter.rs *)

Definition START_TAG : rstr := lit "<intellihelper_user_queries>".
Definition END_TAG : rstr := lit "</intellihelper_user_queries>".
Definition NL : rstr := [10].
Definition NLNL : rstr := [10; 10].
Definition QUOTE : rstr := [34].

(** [push('\n')] when there is text already, then the trimmed piece; nothing
    for a blank piece. *)
Definition push_piece (rest piece : rstr) : rstr :=
  match trim piece with
  | [] => rest
  | _ => (if is_empty rest then [] else rest ++ NL) ++ trim piece
  end.

(** The [loop]: [fuel] bounds its rounds, of which each but the last consumes
    a block. *)
Fixpoint split_blocks (fuel : nat) (txt rest : rstr) (sections : list rstr)
    : option (list rstr * rstr) :=
  match fuel with
  | O => None
  | S fuel' =>
      match split_at_first START_TAG txt with
      | None => Some (sections, push_piece rest txt)
      | Some (before, after) =>
          match split_at_first END_TAG (START_TAG ++ after) with
          | None => Some (sections, push_piece rest txt)
          | Some (body, after') =>
              split_blocks fuel' after' (push_piece rest before) (sections ++ [body ++ END_TAG])
          end
      end
  end.

Definition split_fuel (txt : rstr) : nat := S (length txt).

(** [None]: out of fuel, which [split_blocks_enough] excludes. *)
Definition split_prior_compaction_text (txt : rstr) : option (option rstr * rstr) :=
  r ← split_blocks (split_fuel txt) txt [] [];
  match r with
  | ([], _) => Some (None, txt)
  | (sections, rest) => Some (Some (join NL sections), rest)
  end.

Definition truncate_middle (msg : rstr) (max_chars : Z) : option rstr :=
  let count := char_count msg in
  if count <=? max_chars then None
  else
    let front_len := max_chars / 2 in
    let back_len := max_chars - front_len in
    Some (take (Z.to_nat front_len) msg ++ lit "...[truncated]..."
            ++ drop (Z.to_nat (count - back_len)) msg).

Section filters.
Context {T : Type} `{CompactionItemBuilder T}.
Implicit Types turns : list T.

Definition keep_turn_for_basic_compaction (turn : T) : bool :=
  match role turn with
  | System => false
  | Developer => is_compaction_summary turn
  | _ => true
  end.

Definition filter_turns_for_basic turns : list T :=
  filter keep_turn_for_basic_compaction turns.

Definition keep_for_inter (turn : T) : option T :=
  match role turn with
  | Tool | System => None
  | Developer => if is_compaction_summary turn then Some turn else None
  | User => Some turn
  | Assistant => strip_tool_content turn
  end.

Definition filter_turns_for_inter_compaction turns : list T := omap keep_for_inter turns.

(** One [<intellihelper_query>] element. *)
Definition file_line (f : CompactionFileRef) : rstr :=
  lit "<intellihelper_file id=" ++ QUOTE ++ file_id f ++ QUOTE ++ lit " name=" ++ QUOTE
    ++ file_name f ++ QUOTE ++ lit " />" ++ NL.

Definition query_element (threshold : Z) (turn : T) : rstr :=
  let txt := default [] (text turn) in
  let attachments := attachment_refs turn in
  lit "<intellihelper_query>" ++ default txt (truncate_middle txt threshold)
    ++ (match attachments with [] => [] | _ => NL ++ concat (file_line <$> attachments) end)
    ++ lit "</intellihelper_query>" ++ NL.

Definition is_user_query (turn : T) : bool :=
  bool_decide (role turn = User)
  && negb (is_empty (default [] (text turn)) && match attachment_refs turn with [] => true | _ => false end).

Definition extract_user_queries_from_turns turns (user_truncate_chars : Z) : option rstr :=
  match filter is_user_query turns with
  | [] => None
  | queries => Some (START_TAG ++ NL ++ concat (query_element user_truncate_chars <$> queries) ++ END_TAG)
  end.

Record SeparatedHistoryTurns : Type := mkSeparated {
  turns_for_llm : list T;
  prior_user_queries : option rstr;
  has_prior_compaction : bool;
}.

(** The [for] loop of [separate_prior_user_queries]. *)
Fixpoint separate_loop turns (acc : SeparatedHistoryTurns) : option SeparatedHistoryTurns :=
  match turns with
  | [] => Some acc
  | turn :: turns' =>
      if is_compaction_summary turn then
        r ← split_prior_compaction_text (default [] (text turn));
        let '(user_section, rest) := r in
        let prior :=
          match user_section, prior_user_queries acc with
          | Some sec, Some existing => Some (existing ++ NL ++ sec)
          | Some sec, None => Some sec
          | None, p => p
          end in
        let llm := if is_empty rest then turns_for_llm acc
                   else turns_for_llm acc ++ [compaction_summary_item rest] in
        separate_loop turns' (mkSeparated llm prior true)
      else
        separate_loop turns'
          (mkSeparated (turns_for_llm acc ++ [turn]) (prior_user_queries acc) (has_prior_compaction acc))
  end.

Definition separate_prior_user_queries turns : option SeparatedHistoryTurns :=
  separate_loop turns (mkSeparated [] None false).

Definition extract_prior_user_queries turns : option (option rstr) :=
  prior_user_queries <$> separate_prior_user_queries turns.
End filters.
Arguments SeparatedHistoryTurns : clear implicits.

Definition assemble_user_queries_preamble (prior current : option rstr) : rstr :=
  (match prior with Some p => p ++ NLNL | None => [] end)
  ++ (match current with Some c => c ++ NLNL | None => [] end).

Definition build_user_queries_preamble {T} `{CompactionItemBuilder T} (turns : list T)
    (current : option rstr) : option rstr :=
  p ← extract_prior_user_queries turns; Some (assemble_user_queries_preamble p current).

Definition wrap_chunk_analysis (index : Z) (thinking : rstr) : rstr :=
  match trim thinking with
  | [] => []
  | trimmed => lit "<chunk_analysis index=" ++ QUOTE ++ fmt_dec index ++ QUOTE ++ lit ">" ++ NL
                 ++ trimmed ++ NL ++ lit "</chunk_analysis>" ++ NLNL
  end.

(** * validate.rs *)

Inductive CompactionValidationError : Type :=
| EmptyContent
| UnbalancedChunkTags (open close : Z).

(** [text.matches(p).count()]: non-overlapping occurrences. *)
Fixpoint count_matches (fuel : nat) (p s : rstr) : Z :=
  match fuel with
  | O => 0
  | S fuel' =>
      match split_at_first p s with
      | Some (_, after) => 1 + count_matches fuel' p after
      | None => 0
      end
  end.

Definition matches_count (p s : rstr) : Z := count_matches (length s) p s.

Definition validate_compaction_text (text_content : rstr) (strategy : CompactionStrategy)
    : unit + CompactionValidationError :=
  if is_empty (trim text_content) then inr EmptyContent
  else
    match strategy with
    | SDivideAndConquer =>
        let open := matches_count (lit "<chunk_summary") text_content in
        let close := matches_count (lit "</chunk_summary>") text_content in
        if open =? close then inl tt else inr (UnbalancedChunkTags open close)
    | _ => inl tt
    end.

Example split_prior_example :
  split_prior_compaction_text
    (lit "head <intellihelper_user_queries>q</intellihelper_user_queries> tail") =
  Some (Some (lit "<intellihelper_user_queries>q</intellihelper_user_queries>"),
        lit "head" ++ NL ++ lit "tail").
Proof. reflexivity. Qed.

Example truncate_middle_example :
  truncate_middle (lit "abcdefghij") 5 = Some (lit "ab...[truncated]...hij").
Proof. reflexivity. Qed.

(** * Lemmas *)

(** A complete block: a start tag with an end tag after it. *)
Definition has_block (s : rstr) : Prop := ∃ x y, s = x ++ START_TAG ++ y ∧ infix END_TAG (START_TAG ++ y).

Lemma NL_not_in_start : 10 ∉ START_TAG.
Proof. by apply (bool_decide_unpack (10 ∉ START_TAG)). Qed.

Lemma split_blocks_clean fuel s : ¬ has_block s →
  split_blocks (S fuel) s [] [] = Some ([], push_piece [] s).
Proof.
  intros Hno. cbn [split_blocks]. destruct (split_at_first START_TAG s) as [[a b]|] eqn:Hs; [|done].
  destruct (split_at_first END_TAG (START_TAG ++ b)) as [[c d]|] eqn:He; [|done].
  exfalso. apply Hno. exists a, b. split; [by apply split_at_first_spec|].
  exists c, d. by apply split_at_first_spec.
Qed.

Lemma split_clean s : ¬ has_block s → split_prior_compaction_text s = Some (None, s).
Proof. intros Hno. unfold split_prior_compaction_text, split_fuel. by rewrite (split_blocks_clean _ s Hno). Qed.

Lemma has_block_suffix x s : has_block s → has_block (x ++ s).
Proof. intros (a & b & -> & He). exists (x ++ a), b. by rewrite <- app_assoc. Qed.

Lemma has_block_trim s : has_block (trim s) → has_block s.
Proof.
  destruct (trim_split s) as (a & b & Hs). intros (x & y & Ht & He).
  exists (a ++ x), (y ++ b). split; [rewrite Hs, Ht; by rewrite <- !app_assoc|].
  rewrite app_assoc. by apply infix_app_l.
Qed.

Lemma push_piece_no_start rest p :
  ¬ infix START_TAG rest → ¬ infix START_TAG p → ¬ infix START_TAG (push_piece rest p).
Proof.
  intros Hr Hp. unfold push_piece. assert (Ht : ¬ infix START_TAG (trim p)) by (intros ?%infix_trim; done).
  destruct (trim p) as [|c t] eqn:Htp; [done|]. destruct rest as [|d rest0] eqn:Hd; simpl is_empty; [done|].
  rewrite <- Hd in *. unfold NL. rewrite <- app_assoc. simpl.
  intros [H|H]%infix_break; [done|done|apply NL_not_in_start].
Qed.

Lemma push_piece_no_block rest p :
  ¬ infix START_TAG rest → ¬ has_block p → ¬ has_block (push_piece rest p).
Proof.
  intros Hr Hp. assert (Hrb : ¬ has_block rest).
  { intros (x & y & -> & _). apply Hr. by exists x, y. }
  unfold push_piece. assert (Ht : ¬ has_block (trim p)) by (intros ?%has_block_trim; done).
  destruct (trim p) as [|c t] eqn:Htp; [done|]. destruct rest as [|d rest0] eqn:Hd; simpl is_empty; [done|].
  rewrite <- Hd in *. unfold NL. rewrite <- app_assoc. simpl.
  intros (x & y & Heq & He).
  destruct (app_break START_TAG rest 10 (c :: t) x y NL_not_in_start ltac:(done) Heq)
    as [(b' & -> & _)|(a' & Hy & _)].
  - apply Hr. by exists x, b'.
  - apply Ht. by exists a', y.
Qed.

Lemma before_no_start s a b : split_at_first START_TAG s = Some (a, b) → ¬ infix START_TAG a.
Proof.
  intros Hs (x & y & ->). pose proof (split_at_first_spec _ _ _ _ Hs) as Heq.
  pose proof (split_at_first_first _ _ _ _ x (y ++ START_TAG ++ b) Hs) as Hle.
  rewrite <- !app_assoc in Heq. specialize (Hle Heq). rewrite !length_app in Hle.
  assert (length START_TAG = 28%nat) by reflexivity. lia.
Qed.

(** The end tag does not begin inside the start tag. *)
Lemma split_end_start b :
  split_at_first END_TAG (START_TAG ++ b) =
  (λ xy, (START_TAG ++ xy.1, xy.2)) <$> split_at_first END_TAG b.
Proof.
  let e := eval vm_compute in END_TAG in change END_TAG with e.
  let s := eval vm_compute in START_TAG in change START_TAG with s.
  simpl. by destruct (split_at_first _ b) as [[]|].
Qed.

(** The loop has fuel enough and leaves no complete block outside the
    sections. *)
Lemma split_blocks_spec fuel s rest secs :
  (length s < fuel)%nat → ¬ infix START_TAG rest →
  ∃ new rest', split_blocks fuel s rest secs = Some (secs ++ new, rest') ∧ ¬ has_block rest' ∧
    Forall (λ q, ∃ b, q = START_TAG ++ b) new ∧ (new = [] → rest' = push_piece rest s ∧ ¬ has_block s).
Proof.
  revert s rest secs. induction fuel as [|fuel IH]; intros s rest secs Hf Hr; [lia|].
  cbn [split_blocks]. destruct (split_at_first START_TAG s) as [[a b]|] eqn:Hs.
  2: { apply split_at_first_none in Hs.
    assert (¬ has_block s) by (intros (x & y & -> & _); apply Hs; by exists x, y).
    exists [], (push_piece rest s). rewrite app_nil_r.
    split_and!; [done|by apply push_piece_no_block|constructor|done]. }
  pose proof (split_at_first_spec _ _ _ _ Hs) as Heq.
  destruct (split_at_first END_TAG (START_TAG ++ b)) as [[c d]|] eqn:He.
  2: { apply split_at_first_none in He.
    assert (¬ has_block s).
    { intros (x & y & Hx & Hend). pose proof (split_at_first_first _ _ _ _ x y Hs Hx) as Hle.
      apply He. rewrite Heq in Hx. destruct (app_eq_inv _ _ _ _ Hx) as [(k & -> & Hk)|(k & -> & Hk)].
      - rewrite length_app in Hle. destruct k; [|simpl in Hle; lia]. by rewrite app_nil_l in Hk; rewrite <- Hk.
      - rewrite Hk. by apply infix_app_r. }
    exists [], (push_piece rest s). rewrite app_nil_r.
    split_and!; [done|by apply push_piece_no_block|constructor|done]. }
  pose proof (split_at_first_spec _ _ _ _ He) as Heq'.
  destruct (IH d (push_piece rest a) (secs ++ [c ++ END_TAG])) as (new & rest' & -> & Hclean & Hnew & _).
  - rewrite Heq in Hf. rewrite !length_app in Hf. apply (f_equal length) in Heq'.
    rewrite !length_app in Heq'. assert (length END_TAG = 29%nat) by reflexivity. lia.
  - apply push_piece_no_start; [done|by eapply before_no_start].
  - exists ((c ++ END_TAG) :: new), rest'. rewrite <- app_assoc.
    split_and!; [done|done| |done]. constructor; [|done].
    rewrite split_end_start in He. destruct (split_at_first END_TAG b) as [[k d']|]; simplify_eq/=.
    exists (k ++ END_TAG). done.
Qed.

(** The split always returns, and what it returns outside the sections splits
    into itself. *)
Lemma split_total s :
  ∃ sec rest, split_prior_compaction_text s = Some (sec, rest) ∧ ¬ has_block rest ∧ (sec = None → rest = s).
Proof.
  unfold split_prior_compaction_text.
  destruct (split_blocks_spec (split_fuel s) s [] []) as (new & rest & -> & Hclean & _ & Hnil);
    [unfold split_fuel; lia|intros Hi%infix_length; inversion Hi|].
  simpl. destruct new as [|q new].
  - exists None, s. split_and!; [done|by apply Hnil|done].
  - by exists (Some (join NL (q :: new))), rest.
Qed.

(** A section as the loop cuts it: it ends at its first end tag. *)
Definition is_section (q : rstr) : Prop := ∃ b, q = START_TAG ++ b ++ END_TAG ∧ ¬ infix END_TAG (b ++ removelast END_TAG).

Lemma section_split q t :
  is_section q → ∃ b, q = START_TAG ++ b ++ END_TAG ∧
    split_at_first START_TAG (q ++ t) = Some ([], b ++ END_TAG ++ t) ∧
    split_at_first END_TAG (START_TAG ++ b ++ END_TAG ++ t) = Some (START_TAG ++ b, t).
Proof.
  intros (b & -> & Hb). exists b. split_and!; [done| |].
  - rewrite <- !app_assoc. apply split_at_first_here.
  - rewrite split_end_start.
    by rewrite split_at_first_fresh.
Qed.

(** Sections separated by blank text, then a summary. *)
Definition carried (qs : list (rstr * rstr)) (s : rstr) : rstr := concat ((λ q, q.1 ++ q.2) <$> qs) ++ s.

Lemma no_lt_in_blank ws : Forall (λ c, is_whitespace c = true) ws → 60 ∉ ws.
Proof. intros Hws Hin. eapply Forall_forall in Hws; [|exact Hin]. vm_compute in Hws. discriminate. Qed.

Lemma split_blocks_carried qs s ws0 fuel secs :
  Forall (λ q, is_section q.1 ∧ Forall (λ c, is_whitespace c = true) q.2) qs →
  Forall (λ c, is_whitespace c = true) ws0 → ¬ infix START_TAG s →
  (length (carried qs s) < fuel)%nat →
  split_blocks fuel (ws0 ++ carried qs s) [] secs = Some (secs ++ qs.*1, trim s).
Proof.
  intros Hqs. revert fuel ws0 secs. induction Hqs as [|[q ws] qs [Hq Hws] Hqs IH];
    intros fuel ws0 secs Hws0 Hs Hf; (destruct fuel as [|fuel]; [lia|]); cbn [split_blocks].
  - rewrite app_nil_r. unfold carried; simpl. destruct (split_at_first START_TAG (ws0 ++ s)) as [[a b]|] eqn:He.
    { exfalso. apply split_at_first_spec in He. apply Hs. apply (infix_skip _ _ ws0).
      - by apply no_lt_in_blank.
      - exists a, b. exact He. }
    unfold push_piece. rewrite trim_ws by done. by destruct (trim s).
  - destruct (section_split q (ws ++ carried qs s) Hq) as (b & Heq & H1 & H2). simpl in Hws.
    assert (Hc : carried ((q, ws) :: qs) s = q ++ ws ++ carried qs s)
      by (unfold carried; simpl; by rewrite <- !app_assoc).
    rewrite Hc in *.
    assert (Hst : split_at_first START_TAG (ws0 ++ q ++ ws ++ carried qs s)
                  = Some (ws0, b ++ END_TAG ++ ws ++ carried qs s)).
    { rewrite Heq, <- !app_assoc. apply (split_at_first_skip 60). by apply no_lt_in_blank. }
    rewrite Hst, H2. unfold push_piece. rewrite (trim_nil_whitespace ws0) by done.
    rewrite IH; [|done|done|].
    + simpl. rewrite <- !app_assoc. simpl. by rewrite Heq.
    + rewrite Heq, !length_app in Hf. assert (length START_TAG = 28%nat) by reflexivity. lia.
Qed.

Lemma truncate_middle_some msg n :
  0 ≤ n < char_count msg →
  truncate_middle msg n = Some (take (Z.to_nat (n / 2)) msg ++ lit "...[truncated]..."
    ++ drop (length msg - Z.to_nat (n - n / 2)) msg).
Proof.
  unfold truncate_middle, char_count, zlen. intros Hn. rewrite (proj2 (Z.leb_gt _ _)) by lia.
  repeat f_equal. pose proof (Z.div_pos n 2). pose proof (Z.div_le_upper_bound n 2 n). lia.
Qed.

Section separate.
Context {T : Type} `{CompactionItemBuilder T}.
Implicit Types turns : list T.

(** What the loop appends to [turns_for_llm] for one item. *)
Definition separated_turn (turn : T) : list T :=
  if is_compaction_summary turn then
    match split_prior_compaction_text (default [] (text turn)) with
    | Some (_, rest) => if is_empty rest then [] else [compaction_summary_item rest]
    | None => []
    end
  else [turn].

Lemma separate_loop_spec turns acc :
  ∃ r, separate_loop turns acc = Some r ∧
    turns_for_llm r = turns_for_llm acc ++ (turns ≫= separated_turn) ∧
    has_prior_compaction r = has_prior_compaction acc || existsb is_compaction_summary turns.
Proof.
  revert acc. induction turns as [|t turns IH]; intros acc; simpl.
  - exists acc. by rewrite app_nil_r, orb_false_r.
  - unfold separated_turn at 1. destruct (is_compaction_summary t) eqn:Ht.
    + destruct (split_total (default [] (text t))) as (sec & rest & -> & _). simpl.
      destruct (IH (mkSeparated
        (if is_empty rest then turns_for_llm acc else turns_for_llm acc ++ [compaction_summary_item rest])
        (match sec, prior_user_queries acc with
         | Some s, Some e => Some (e ++ NL ++ s) | Some s, None => Some s | None, p => p end) true))
        as (r & Hr & Hl & Hp).
      exists r. split_and!; [exact Hr| |by rewrite Hp, orb_true_r].
      rewrite Hl. simpl. destruct (is_empty rest); [done|]. by rewrite <- app_assoc.
    + destruct (IH (mkSeparated (turns_for_llm acc ++ [t]) (prior_user_queries acc) (has_prior_compaction acc)))
        as (r & Hr & Hl & Hp).
      exists r. split_and!; [exact Hr| |by rewrite Hp].
      rewrite Hl. simpl. by rewrite <- app_assoc.
Qed.

(** Items that hold no complete block go through unchanged. *)
Lemma separate_loop_clean `{!SummaryItemLaws T} turns acc :
  Forall (λ t, is_compaction_summary t = true →
    ∃ rest, t = compaction_summary_item rest ∧ ¬ has_block rest ∧ rest ≠ []) turns →
  separate_loop turns acc = Some (mkSeparated (turns_for_llm acc ++ turns) (prior_user_queries acc)
    (has_prior_compaction acc || existsb is_compaction_summary turns)).
Proof.
  intros Hall. revert acc. induction Hall as [|t turns Ht _ IH]; intros acc; simpl.
  - rewrite app_nil_r, orb_false_r. by destruct acc.
  - destruct (is_compaction_summary t) eqn:Hs.
    + destruct (Ht eq_refl) as (rest & -> & Hno & Hne). rewrite summary_item_text. simpl.
      rewrite (split_clean rest Hno). simpl. rewrite IH. simpl. destruct rest; [done|]. simpl.
      rewrite <- app_assoc, orb_true_r. simpl. done.
    + rewrite IH. simpl. by rewrite <- app_assoc.
Qed.

Lemma separated_clean `{!SummaryItemLaws T} turns :
  Forall (λ t, is_compaction_summary t = true →
    ∃ rest, t = compaction_summary_item rest ∧ ¬ has_block rest ∧ rest ≠ []) (turns ≫= separated_turn).
Proof.
  induction turns as [|t turns IH]; simpl; [constructor|]. apply Forall_app. split; [|exact IH].
  unfold separated_turn. destruct (is_compaction_summary t) eqn:Ht; [|constructor; [congruence|constructor]].
  destruct (split_total (default [] (text t))) as (sec & rest & -> & Hno & _).
  destruct rest as [|c rest]; simpl; constructor; [|constructor]. intros _. by exists (c :: rest).
Qed.
End separate.

(** * Theorems *)

(** splitting a prior summary always returns; what it gives for the model
    holds no complete user-queries block, so splitting that again finds
    nothing and changes nothing; and a text without sections is returned as
    it is. *)
Theorem split_prior_idempotent s :
  ∃ sec rest, split_prior_compaction_text s = Some (sec, rest) ∧
    split_prior_compaction_text rest = Some (None, rest) ∧ (sec = None → rest = s).
Proof.
  destruct (split_total s) as (sec & rest & Hs & Hno & Hnone).
  exists sec, rest. split_and!; [done|by apply split_clean|done].
Qed.

(** user queries survive re-compaction verbatim.  Any number of query
    sections with blank text between them, followed by a summary that quotes
    no start tag, is split into exactly these sections, joined by newlines,
    and the trimmed summary. *)
Theorem queries_survive_recompaction qs s :
  qs ≠ [] → Forall (λ q, is_section q.1 ∧ Forall (λ c, is_whitespace c = true) q.2) qs →
  ¬ infix START_TAG s →
  split_prior_compaction_text (carried qs s) = Some (Some (join NL qs.*1), trim s).
Proof.
  intros Hne Hqs Hs. unfold split_prior_compaction_text.
  pose proof (split_blocks_carried qs s [] (split_fuel (carried qs s)) [] Hqs ltac:(constructor) Hs
    ltac:(unfold split_fuel; lia)) as Hsp.
  rewrite app_nil_l in Hsp. rewrite Hsp. simpl. by destruct qs.
Qed.

Lemma queries_survive_recompaction_witness :
  split_prior_compaction_text
    (assemble_user_queries_preamble (Some (START_TAG ++ lit "q1" ++ END_TAG))
       (Some (START_TAG ++ lit "q2" ++ END_TAG)) ++ lit "summary ")
  = Some (Some (START_TAG ++ lit "q1" ++ END_TAG ++ NL ++ START_TAG ++ lit "q2" ++ END_TAG), lit "summary").
Proof.
  assert (Hsec : ∀ q, contains_str END_TAG (q ++ removelast END_TAG) = false →
    is_section (START_TAG ++ q ++ END_TAG)).
  { intros q Hq. exists q. split; [done|]. intros Hi%contains_str_spec. congruence. }
  refine (queries_survive_recompaction
    [(START_TAG ++ lit "q1" ++ END_TAG, NLNL); (START_TAG ++ lit "q2" ++ END_TAG, NLNL)]
    (lit "summary ") _ _ _).
  - discriminate.
  - repeat constructor; apply Hsec; reflexivity.
  - intros Hi%contains_str_spec. vm_compute in Hi. discriminate.
Defined.

(** no snowball.  Separating the prior user queries always returns, keeps
    the items that are not summaries in order, and its own output has nothing
    left to separate: fed back, it yields no prior queries and the same
    items. *)
Theorem separate_prior_idempotent {T} `{SummaryItemLaws T} (turns : list T) :
  ∃ r, separate_prior_user_queries turns = Some r ∧
    filter (λ t, is_compaction_summary t = false) (turns_for_llm r)
      = filter (λ t, is_compaction_summary t = false) turns ∧
    has_prior_compaction r = existsb is_compaction_summary turns ∧
    separate_prior_user_queries (turns_for_llm r)
      = Some (mkSeparated (turns_for_llm r) None (existsb is_compaction_summary (turns_for_llm r))).
Proof.
  unfold separate_prior_user_queries.
  destruct (separate_loop_spec turns (mkSeparated [] None false)) as (r & -> & Hl & Hp).
  exists r. rewrite app_nil_l in Hl. split_and!; [done| |done|].
  - rewrite Hl. clear r Hl Hp. induction turns as [|t turns IH]; [done|]. cbn [mbind list_bind].
    rewrite filter_app, filter_cons, IH. unfold separated_turn.
    destruct (is_compaction_summary t) eqn:Ht.
    + rewrite decide_False by congruence.
      destruct (split_prior_compaction_text _) as [[? [|c rest]]|]; [done| |done].
      cbn [is_empty]. rewrite filter_cons_False; [done|]. rewrite summary_item_is_summary. done.
    + by rewrite decide_True, filter_cons_True.
  - rewrite separate_loop_clean; [done|]. rewrite Hl. apply separated_clean.
Qed.

Lemma separate_prior_idempotent_witness :
  ∃ r, separate_prior_user_queries
         [compaction_summary_item (START_TAG ++ lit "q" ++ END_TAG ++ lit " s"); Mock.user 3] = Some r ∧
    separate_prior_user_queries (turns_for_llm r)
      = Some (mkSeparated (turns_for_llm r) None true).
Proof.
  destruct (separate_prior_idempotent (T := Mock.MockItem)
    [compaction_summary_item (START_TAG ++ lit "q" ++ END_TAG ++ lit " s"); Mock.user 3])
    as (r & Hr & _ & _ & Hs).
  exists r. split; [exact Hr|]. rewrite Hs. vm_compute in Hr. injection Hr as <-. reflexivity.
Defined.

(** the middle cut.  A message within the limit is left alone; a longer
    one keeps exactly [max] of its characters, its first half and its last,
    around a fixed marker, so that its length no longer depends on the
    message. *)
Theorem truncate_middle_bounds msg n :
  0 ≤ n →
  match truncate_middle msg n with
  | None => char_count msg ≤ n
  | Some out =>
      n < char_count msg ∧ char_count out = n + 17 ∧
      ∃ front back, out = front ++ lit "...[truncated]..." ++ back ∧ front `prefix_of` msg ∧
        back `suffix_of` msg ∧ char_count front = n / 2 ∧ char_count back = n - n / 2
  end.
Proof.
  intros Hn. destruct (Z.le_gt_cases (char_count msg) n) as [Hle|Hgt].
  { unfold truncate_middle. by rewrite (proj2 (Z.leb_le _ _) Hle). }
  rewrite truncate_middle_some by lia. unfold char_count, zlen in *.
  pose proof (Z.div_pos n 2). assert (n / 2 ≤ n) by (apply Z.div_le_upper_bound; lia).
  assert (Hm : length (lit "...[truncated]...") = 17%nat) by reflexivity.
  split_and!; [done| |].
  - rewrite !length_app, length_take, length_drop, Hm. lia.
  - eexists _, _. split_and!; [done|apply prefix_take|apply suffix_drop| |];
      rewrite ?length_take, ?length_drop; lia.
Qed.

Lemma truncate_middle_bounds_witness :
  ∃ out, truncate_middle (lit "abcdefghij") 5 = Some out ∧ char_count out = 22.
Proof.
  pose proof (truncate_middle_bounds (lit "abcdefghij") 5 ltac:(lia)) as H.
  destruct (truncate_middle (lit "abcdefghij") 5) as [out|] eqn:Ho; [|discriminate].
  exists out. split; [done|apply H].
Defined.
