(* ===== verification/CompactionSummary.v ===== *)
(** The summary a compaction produces: cleaning the model's output, building
    the prompt and the compacted history, classifying failures
    (src/crates/common/intellihelper-compaction/src/code_compaction/:
    summary.rs, prompt.rs, assemble.rs, failure.rs, config.rs). *)
From S2P Require Import Prelude Str CompactionItem.

(** * config.rs *)

Definition MIN_SUMMARY_SEED_CHARS : Z := 500.

Record FullReplaceConfig : Type := mkFullReplaceConfig {
  fr_max_attempts : Z;
  fr_retry_delay_secs : Z;
  fr_sampling_timeout_secs : Z;
}.

Definition full_replace_config_default : FullReplaceConfig := mkFullReplaceConfig 3 3 120.

(** * summary.rs *)

Definition ANALYSIS_OPEN : rstr := lit "<analysis>".
Definition ANALYSIS_CLOSE : rstr := lit "</analysis>".
Definition SUMMARY_OPEN : rstr := lit "<summary>".
Definition SUMMARY_CLOSE : rstr := lit "</summary>".
Definition NEWLINE : rchar := 10.

(** Step 1: the [while let] loop peeling leading [<analysis>] blocks.  [None]:
    out of fuel. *)
Fixpoint peel_analysis (fuel : nat) (result : rstr) : option rstr :=
  match fuel with
  | O => None
  | S fuel' =>
      match find ANALYSIS_OPEN result with
      | None => Some result
      | Some start =>
          let is_leading :=
            match find SUMMARY_OPEN result with
            | Some sp =>
                (start <? sp)%nat || is_empty (trim (slice (sp + length SUMMARY_OPEN) start result))
            | None => is_empty (trim (take start result))
            end in
          if negb is_leading then Some result
          else
            match find ANALYSIS_CLOSE (drop start result) with
            | Some rel =>
                let end_ := (start + rel + length ANALYSIS_CLOSE)%nat in
                peel_analysis fuel' (take start result ++ drop end_ result)
            | None =>
                let drop_to :=
                  match find SUMMARY_OPEN (drop start result) with
                  | Some rel => (start + rel)%nat
                  | None => length result
                  end in
                Some (take start result ++ drop drop_to result)
            end
      end
  end.

Definition is_markdown_lead (c : rchar) : bool :=
  (c =? 35) || (c =? 42) || (c =? 45) || (c =? 62) || (c =? 32) || (c =? 9).

(** [trim_start_matches]. *)
Fixpoint trim_start_matches (p : rchar → bool) (s : rstr) : rstr :=
  match s with
  | c :: s' => if p c then trim_start_matches p s' else s
  | [] => []
  end.

Definition starts_with_digit (s : rstr) : bool :=
  match s with c :: _ => (48 <=? c) && (c <=? 57) | [] => false end.

Definition strip_leading_scratchpad (inner : rstr) : rstr :=
  let s := trim inner in
  let lead := trim_start_matches is_markdown_lead s in
  let s :=
    if negb (starts_with_digit lead) then
      match rfind ANALYSIS_CLOSE s with
      | Some pos => trim_start (drop (pos + length ANALYSIS_CLOSE) s)
      | None => s
      end
    else s in
  match strip_prefix SUMMARY_OPEN s with
  | Some rest => trim_start rest
  | None => s
  end.

(** Step 2: the outer [<summary>] block. *)
Definition unwrap_summary (result : rstr) : rstr :=
  match find SUMMARY_OPEN result, rfind SUMMARY_CLOSE result with
  | Some start, Some end_ =>
      if (start <? end_)%nat then
        let before := take start result in
        let after := drop (end_ + length SUMMARY_CLOSE) result in
        let inner := strip_leading_scratchpad (trim (slice (start + length SUMMARY_OPEN) end_ result)) in
        before ++ lit "Summary:" ++ [NEWLINE] ++ inner ++ after
      else result
  | _, _ => result
  end.

(** Step 3: the control tokens, in the order they are replaced, each by itself
    with a zero-width space after its first character. *)
Definition CONTROL_TAILS : list rstr :=
  [lit "/summary>"; lit "summary>"; lit "/analysis>"; lit "analysis>";
   lit "/summary_request>"; lit "summary_request>"].

Definition neutralize_compaction_control_tokens (text : rstr) : rstr :=
  neutralize_tags CONTROL_TAILS text.

(** Step 4: the [while] loop collapsing blank lines. *)
Definition BLANKS : rstr := [NEWLINE; NEWLINE; NEWLINE].

Fixpoint collapse_blanks (fuel : nat) (result : rstr) : option rstr :=
  match fuel with
  | O => None
  | S fuel' =>
      if contains_str BLANKS result
      then collapse_blanks fuel' (replace BLANKS [NEWLINE; NEWLINE] result)
      else Some result
  end.

Definition format_compact_summary (summary : rstr) : option rstr :=
  result ← peel_analysis (S (length summary)) summary;
  let result := neutralize_compaction_control_tokens (unwrap_summary result) in
  result ← collapse_blanks (S (length result)) result;
  Some (trim result).

Definition is_degenerate_summary (raw_summary : rstr) : option bool :=
  cleaned ← format_compact_summary raw_summary;
  Some (char_count cleaned <? MIN_SUMMARY_SEED_CHARS).

Definition CONTINUATION : rstr :=
  lit "This session is being continued from a previous conversation that ran out of context. The summary below covers the earlier portion of the conversation.".

Definition format_compact_summary_content (raw_summary : rstr) : option rstr :=
  cleaned ← format_compact_summary raw_summary;
  Some (CONTINUATION ++ [NEWLINE; NEWLINE] ++ cleaned).

Definition wrap_user_query (text : rstr) : rstr :=
  lit "<user_query>" ++ [NEWLINE] ++ text ++ [NEWLINE] ++ lit "</user_query>".

(** * prompt.rs

    The templates are text files of the crate: parameters. *)
Section prompt.
Context (full_replace_template self_summarization_prompt : rstr).

Definition build_summary_prompt (user_context : option rstr) : rstr :=
  let section :=
    match user_context with
    | Some context =>
        [NEWLINE; NEWLINE] ++ lit "**User-provided context for this compaction:**" ++ [NEWLINE]
          ++ context ++ [NEWLINE; NEWLINE]
          ++ lit "Please incorporate this context into your summary, ensuring it is prominently addressed in the relevant sections."
          ++ [NEWLINE; NEWLINE]
    | None => []
    end in
  replace (lit "{user_context_section}") section full_replace_template.

Inductive SummaryPromptKind : Type := Structured | SelfSummary.

Definition build_summary_prompt_kind (kind : SummaryPromptKind) (user_context : option rstr) : rstr :=
  match kind with
  | Structured => build_summary_prompt user_context
  | SelfSummary =>
      match user_context with
      | Some ctx =>
          self_summarization_prompt ++ [NEWLINE; NEWLINE] ++ lit "<user_provided_context>" ++ [NEWLINE]
            ++ ctx ++ [NEWLINE] ++ lit "</user_provided_context>" ++ [NEWLINE; NEWLINE]
            ++ lit "Incorporate the user-provided context above into your summary."
      | None => self_summarization_prompt
      end
  end.
End prompt.

(** * assemble.rs *)

Record CompactedHistoryParts (T : Type) : Type := mkParts {
  system_message : T;
  user_message_prefix : rstr;
  agents_md_reminder : option rstr;
  last_user_query : option rstr;
  recent_messages : list T;
  compaction_summary : rstr;
  system_reminder : option rstr;
  transcript_hint : option rstr;
}.
Arguments mkParts {T}.
Arguments system_message {T}.
Arguments user_message_prefix {T}.
Arguments agents_md_reminder {T}.
Arguments last_user_query {T}.
Arguments recent_messages {T}.
Arguments compaction_summary {T}.
Arguments system_reminder {T}.
Arguments transcript_hint {T}.

Definition opt_item {T} (f : rstr → T) (o : option rstr) : list T :=
  match o with Some s => [f s] | None => [] end.

Definition assemble_compacted_history {T} `{CompactionItemFactory T}
    (parts : CompactedHistoryParts T) : option (list T) :=
  formatted ← format_compact_summary_content (compaction_summary parts);
  let summary_text :=
    match transcript_hint parts with Some hint => formatted ++ hint | None => formatted end in
  Some ([system_message parts; new_user_meta (user_message_prefix parts)]
    ++ opt_item new_project_instructions (agents_md_reminder parts)
    ++ opt_item (λ q, new_user (wrap_user_query q)) (last_user_query parts)
    ++ recent_messages parts
    ++ [new_user_meta summary_text]
    ++ opt_item new_system_reminder (system_reminder parts)).

(** * failure.rs *)

Inductive FailureKind : Type := Deterministic | Transient.

#[global] Instance FailureKind_eq_dec : EqDecision FailureKind.
Proof. solve_decision. Defined.

Definition failure_is_deterministic (k : FailureKind) : bool :=
  match k with Deterministic => true | Transient => false end.

Definition is_context_length_error (message : rstr) : bool :=
  let m := to_ascii_lowercase message in
  contains_str (lit "too long for this model") m
  || contains_str (lit "prompt is too long") m
  || contains_str (lit "maximum prompt length") m
  || contains_str (lit "maximum context length") m
  || contains_str (lit "context_length_exceeded") m
  || (contains_str (lit "current message") m && contains_str (lit "exceeds budget") m).

Definition is_client_status (status : Z) : bool :=
  (400 <=? status) && (status <? 500) && negb (status =? 408) && negb (status =? 429).

Definition classify_http_status (status : Z) (message : rstr) : FailureKind :=
  if is_context_length_error message || is_client_status status then Deterministic else Transient.

Definition classify_stream_event_error (code : option rstr) (message : rstr) : FailureKind :=
  if bool_decide (code = Some (lit "invalid_request_error"))
     || contains_str (lit "invalid_request_error") message
  then Deterministic
  else if is_some_and is_client_status (code ≫= parse_uint 16) then Deterministic
  else if is_context_length_error message then Deterministic
  else Transient.

Example format_example :
  format_compact_summary (lit "<analysis>draft</analysis><summary>1. Goal</summary>")
  = Some (lit "Summary:" ++ [10] ++ lit "1. Goal").
Proof. reflexivity. Qed.

Example format_truncated :
  format_compact_summary (lit "<analysis>cut off") = Some [].
Proof. reflexivity. Qed.

(** * Lemmas *)

(** Every round of the peel removes both tags of a block. *)
Lemma peel_analysis_some fuel s : (length s < fuel)%nat → is_Some (peel_analysis fuel s).
Proof.
  revert s. induction fuel as [|fuel IH]; intros s Hf; [lia|]. cbn [peel_analysis].
  destruct (find ANALYSIS_OPEN s) as [start|] eqn:Hs; [|by eexists].
  destruct (negb _); [by eexists|].
  destruct (find ANALYSIS_CLOSE (drop start s)) as [rel|] eqn:Hc; [|by eexists].
  apply IH. apply find_spec in Hs as (a & b & _ & -> & Heq).
  rewrite length_app, length_take, length_drop.
  assert (length s = (length a + (10 + length b))%nat) by (rewrite Heq, !length_app; done).
  assert (length ANALYSIS_CLOSE = 11%nat) by reflexivity. lia.
Qed.

Lemma control_tails_ok : Forall (λ tl, tail_ok tl ∧ NEWLINE ∉ tl) CONTROL_TAILS.
Proof.
  apply (bool_decide_unpack (Forall (λ tl, ((LT ∉ tl) ∧ (ZWSP ∉ tl) ∧ tl ≠ []) ∧ NEWLINE ∉ tl) CONTROL_TAILS)).
  vm_compute. exact I.
Qed.

Lemma neutralize_clean s tl :
  tl ∈ CONTROL_TAILS → ¬ infix (control_token tl) (neutralize_compaction_control_tokens s).
Proof. apply neutralize_tags_clean. eapply Forall_impl; [exact control_tails_ok|by intros ? []]. Qed.

Lemma neutralize_id s :
  (∀ tl, tl ∈ CONTROL_TAILS → ¬ infix (control_token tl) s) → neutralize_compaction_control_tokens s = s.
Proof. apply neutralize_tags_id. Qed.

Lemma blanks_no_new p2 s :
  NEWLINE ∉ p2 → infix p2 (replace BLANKS [NEWLINE; NEWLINE] s) → infix p2 s.
Proof.
  intros Hnl. apply (replace_no_new _ _ _ (length s) []). intros x y. simpl.
  intros [Hx|[Hn|Hy]%(infix_break p2 [])]%infix_break; [by apply infix_app_l| | |done|done].
  - destruct Hn as (a & b & Heq). destruct a, p2; try done. by apply infix_nil.
  - apply infix_app_r. by do 3 apply infix_cons.
Qed.

Lemma collapse_blanks_spec fuel s :
  (length s < fuel)%nat →
  ∃ r, collapse_blanks fuel s = Some r ∧ ¬ infix BLANKS r ∧
    (∀ p2, NEWLINE ∉ p2 → infix p2 r → infix p2 s) ∧ (¬ infix BLANKS s → r = s).
Proof.
  revert s. induction fuel as [|fuel IH]; intros s Hf; [lia|]. cbn [collapse_blanks].
  destruct (contains_str BLANKS s) eqn:Hc.
  - apply contains_str_spec in Hc. pose proof (replace_shortens BLANKS [NEWLINE; NEWLINE] s ltac:(simpl; lia) Hc).
    destruct (IH (replace BLANKS [NEWLINE; NEWLINE] s)) as (r & -> & Hb & Hp & _); [lia|].
    exists r. split_and!; [done|done| |done]. intros p2 Hnl Hi. apply blanks_no_new; [done|]. by apply Hp.
  - exists s. split_and!; [done| |done|done]. intros Hi%contains_str_spec. congruence.
Qed.

(** The cleaning always returns. *)
Lemma format_compact_summary_some s :
  ∃ out, format_compact_summary s = Some out ∧
    (∀ tl, tl ∈ CONTROL_TAILS → ¬ infix (control_token tl) out) ∧ ¬ infix BLANKS out.
Proof.
  unfold format_compact_summary.
  destruct (peel_analysis_some (S (length s)) s) as [r1 ->]; [lia|]. cbn [mbind option_bind].
  set (r2 := neutralize_compaction_control_tokens (unwrap_summary r1)).
  destruct (collapse_blanks_spec (S (length r2)) r2) as (r3 & -> & Hb & Hp & _); [lia|].
  exists (trim r3). split_and!; [done| |by intros ?%infix_trim].
  intros tl Hin Hi%infix_trim. apply (neutralize_clean (unwrap_summary r1) tl Hin). apply Hp; [|done].
  pose proof control_tails_ok as Hall. eapply Forall_forall in Hall as [_ Hnl]; [|exact Hin].
  apply not_elem_of_cons. split; [discriminate|done].
Qed.

(** A summary body as the prompt asks for it: it starts with a numbered
    section, is trimmed, and holds neither control tokens nor runs of blank
    lines. *)
Record plain_body (body : rstr) : Prop := {
  body_digit : starts_with_digit body = true;
  body_trim : trim body = body;
  body_tokens tl : tl ∈ CONTROL_TAILS → ¬ infix (control_token tl) body;
  body_blanks : ¬ infix BLANKS body;
}.

Lemma body_cons body : plain_body body → ∃ d rest, body = d :: rest ∧ 48 ≤ d ≤ 57.
Proof.
  intros H. pose proof (body_digit _ H) as Hd. destruct body as [|d rest]; [done|].
  exists d, rest. simpl in Hd. split; [done|lia].
Qed.

Lemma strip_scratchpad_plain body : plain_body body → strip_leading_scratchpad body = body.
Proof.
  intros H. destruct (body_cons body H) as (d & rest & Hb & Hd). unfold strip_leading_scratchpad.
  rewrite (body_trim _ H). assert (Hl : trim_start_matches is_markdown_lead body = body).
  { rewrite Hb. simpl. assert (is_markdown_lead d = false) as ->; [|done]. unfold is_markdown_lead. lia. }
  rewrite Hl, (body_digit _ H). simpl negb. cbn iota.
  destruct (strip_prefix SUMMARY_OPEN body) as [r|] eqn:Hp; [|done]. exfalso.
  apply strip_prefix_spec in Hp. rewrite Hb in Hp.
  injection Hp as Hd60 _. lia.
Qed.

(** Unwrapping a block that is the whole text but for a plain lead. *)
Lemma unwrap_summary_plain pre body :
  LT ∉ pre → plain_body body →
  unwrap_summary (pre ++ SUMMARY_OPEN ++ body ++ SUMMARY_CLOSE) = pre ++ lit "Summary:" ++ [NEWLINE] ++ body.
Proof.
  intros Hpre Hb. unfold unwrap_summary.
  assert (Hf : find SUMMARY_OPEN (pre ++ SUMMARY_OPEN ++ body ++ SUMMARY_CLOSE) = Some (length pre)).
  { unfold find. rewrite (split_at_first_skip LT (lit "summary>") pre) by done. done. }
  assert (Hr : rfind SUMMARY_CLOSE (pre ++ SUMMARY_OPEN ++ body ++ SUMMARY_CLOSE)
               = Some (length (pre ++ SUMMARY_OPEN ++ body))).
  { replace (pre ++ SUMMARY_OPEN ++ body ++ SUMMARY_CLOSE) with ((pre ++ SUMMARY_OPEN ++ body) ++ SUMMARY_CLOSE)
      by by rewrite <- !app_assoc.
    by apply rfind_end. }
  rewrite Hf, Hr. set (n := length pre).
  assert (H9 : length SUMMARY_OPEN = 9%nat) by reflexivity.
  assert (H10 : length SUMMARY_CLOSE = 10%nat) by reflexivity.
  rewrite !length_app, H9. fold n. rewrite (proj2 (Nat.ltb_lt _ _)) by lia. unfold slice.
  rewrite take_app_length' by done.
  assert (Hd : drop (n + 9) (pre ++ SUMMARY_OPEN ++ body ++ SUMMARY_CLOSE) = body ++ SUMMARY_CLOSE).
  { rewrite app_assoc. apply drop_app_length'. rewrite length_app. lia. }
  rewrite Hd. rewrite take_app_length' by lia. rewrite (body_trim _ Hb), (strip_scratchpad_plain _ Hb).
  assert (He : drop (n + (9 + length body) + length SUMMARY_CLOSE)
                 (pre ++ SUMMARY_OPEN ++ body ++ SUMMARY_CLOSE) = []).
  { apply drop_ge. rewrite !length_app. lia. }
  by rewrite He, app_nil_r.
Qed.

Lemma peel_analysis_done fuel s : ¬ infix ANALYSIS_OPEN s → peel_analysis (S fuel) s = Some s.
Proof. intros H. cbn [peel_analysis]. by rewrite (proj2 (find_none ANALYSIS_OPEN s) H). Qed.

Lemma no_token_before_break tl x c y :
  tl ∈ CONTROL_TAILS → c ∉ control_token tl → ¬ infix (control_token tl) x → ¬ infix (control_token tl) y →
  ¬ infix (control_token tl) (x ++ c :: y).
Proof. intros _ Hc Hx Hy [?|?]%infix_break; done. Qed.

Lemma nl_not_in_token tl : tl ∈ CONTROL_TAILS → NEWLINE ∉ control_token tl.
Proof.
  intros Hin. pose proof control_tails_ok as Hall.
  eapply Forall_forall in Hall as [_ Hnl]; [|exact Hin].
  apply not_elem_of_cons. split; [discriminate|done].
Qed.

(** The seed a plain body becomes survives the later steps. *)
Lemma seed_clean pre body :
  (pre = [] ∨ pre = [NEWLINE]) → plain_body body →
  let seed := pre ++ lit "Summary:" ++ [NEWLINE] ++ body in
  (∀ tl, tl ∈ CONTROL_TAILS → ¬ infix (control_token tl) seed) ∧ ¬ infix BLANKS seed ∧
  trim seed = lit "Summary:" ++ [NEWLINE] ++ body.
Proof.
  intros Hpre Hb seed. destruct (body_cons body Hb) as (d & rest & Hbody & Hd). split_and!.
  - intros tl Hin. subst seed. rewrite app_assoc. apply no_token_before_break;
      [done|by apply nl_not_in_token| |by apply (body_tokens _ Hb)].
    assert (Hl : LT ∉ pre ++ lit "Summary:").
    { destruct Hpre as [-> | ->]; by apply (bool_decide_unpack (LT ∉ _)). }
    intros (a & b & Heq). apply Hl. rewrite Heq. set_solver.
  - subst seed. rewrite Hbody.
    replace (pre ++ lit "Summary:" ++ [NEWLINE] ++ d :: rest)
      with ((pre ++ lit "Summary:" ++ [NEWLINE]) ++ d :: rest) by by rewrite <- !app_assoc.
    intros [Hi|Hi]%infix_break.
    + apply contains_str_spec in Hi. destruct Hpre as [-> | ->]; vm_compute in Hi; discriminate.
    + apply (body_blanks _ Hb). rewrite Hbody. by apply infix_cons.
    + unfold BLANKS, NEWLINE. rewrite !not_elem_of_cons. split_and!; [lia..|apply not_elem_of_nil].
  - subst seed. assert (Hws : Forall (λ c, is_whitespace c = true) pre)
      by (destruct Hpre as [-> | ->]; by repeat constructor).
    rewrite trim_ws by done. unfold trim. change (trim_start (lit "Summary:" ++ [NEWLINE] ++ body)) with
      (lit "Summary:" ++ [NEWLINE] ++ body).
    destruct (last body) as [e|] eqn:He; [|apply last_None in He; by rewrite Hbody in He].
    apply (trim_end_id _ e); [|by apply (trimmed_last body); [apply (body_trim _ Hb)|]].
    by rewrite !last_app, He.
Qed.

(** The draft before the block ends at its own closing tag. *)
Lemma split_close_open b :
  split_at_first ANALYSIS_CLOSE (ANALYSIS_OPEN ++ b) =
  (λ xy, (ANALYSIS_OPEN ++ xy.1, xy.2)) <$> split_at_first ANALYSIS_CLOSE b.
Proof.
  let e := eval vm_compute in ANALYSIS_CLOSE in change ANALYSIS_CLOSE with e.
  let s := eval vm_compute in ANALYSIS_OPEN in change ANALYSIS_OPEN with s.
  simpl. by destruct (split_at_first _ b) as [[]|].
Qed.

Definition after_draft (body : rstr) : rstr := [NEWLINE] ++ SUMMARY_OPEN ++ body ++ SUMMARY_CLOSE.

Lemma after_draft_no_analysis body : plain_body body → ¬ infix ANALYSIS_OPEN (after_draft body).
Proof.
  intros Hb. destruct (body_cons body Hb) as (d & rest & Hbody & Hd). unfold after_draft. rewrite Hbody.
  replace ([NEWLINE] ++ SUMMARY_OPEN ++ (d :: rest) ++ SUMMARY_CLOSE)
    with (([NEWLINE] ++ SUMMARY_OPEN) ++ d :: rest ++ SUMMARY_CLOSE) by by rewrite <- !app_assoc.
  assert (Hdt : d ∉ ANALYSIS_OPEN).
  { intros Hin. assert (Forall (λ c, c < 48 ∨ 57 < c) ANALYSIS_OPEN) as Hall
      by (apply (bool_decide_unpack (Forall _ _)); vm_compute; exact I).
    eapply Forall_forall in Hall; [|exact Hin]. simpl in Hall. lia. }
  intros [Hi|Hi]%infix_break; [| |done].
  - apply contains_str_spec in Hi. vm_compute in Hi. discriminate.
  - apply (infix_break_head LT (lit "analysis>") rest (lit "/summary>")) in Hi as [Hi|Hi];
      [| |by apply (bool_decide_unpack (LT ∉ _))].
    + apply (body_tokens _ Hb (lit "analysis>")); [by apply (bool_decide_unpack (_ ∈ _))|].
      rewrite Hbody. by apply infix_cons.
    + apply contains_str_spec in Hi. vm_compute in Hi. discriminate.
Qed.

(** Peeling the draft off. *)
Lemma peel_draft fuel draft body :
  ¬ infix ANALYSIS_CLOSE (draft ++ removelast ANALYSIS_CLOSE) → plain_body body →
  peel_analysis (S (S fuel)) (ANALYSIS_OPEN ++ draft ++ ANALYSIS_CLOSE ++ after_draft body)
  = Some (after_draft body).
Proof.
  intros Hdraft Hb. set (raw := ANALYSIS_OPEN ++ draft ++ ANALYSIS_CLOSE ++ after_draft body).
  remember (S fuel) as fuel1. cbn [peel_analysis].
  assert (find ANALYSIS_OPEN raw = Some 0%nat) as -> by (unfold find, raw; by rewrite split_at_first_here).
  assert (match find SUMMARY_OPEN raw with
          | Some sp => (0 <? sp)%nat || is_empty (trim (slice (sp + length SUMMARY_OPEN) 0 raw))
          | None => is_empty (trim (take 0 raw)) end = true) as ->.
  { destruct (find SUMMARY_OPEN raw) as [[|sp]|] eqn:Hf; [|done|done].
    apply find_spec in Hf as (a & b & _ & Ha & Heq). destruct a; [|done]. discriminate Heq. }
  cbn [negb]. rewrite drop_0.
  assert (find ANALYSIS_CLOSE raw = Some (length (ANALYSIS_OPEN ++ draft))) as ->.
  { unfold find, raw. rewrite split_close_open, split_at_first_fresh by done. done. }
  rewrite app_nil_l || idtac. subst fuel1.
  assert (drop (0 + length (ANALYSIS_OPEN ++ draft) + length ANALYSIS_CLOSE) raw = after_draft body) as ->.
  { unfold raw. rewrite app_assoc, app_assoc. apply drop_app_length'. rewrite !length_app. lia. }
  apply peel_analysis_done, after_draft_no_analysis, Hb.
Qed.

(** * Theorems *)

(** whatever the model writes, cleaning it returns, and the seed that
    reaches the next turn holds none of the compaction control tokens and no
    run of three newlines. *)
Theorem format_compact_summary_safe raw :
  ∃ out, format_compact_summary raw = Some out ∧
    (∀ tl, tl ∈ CONTROL_TAILS → ¬ infix (control_token tl) out) ∧ ¬ infix BLANKS out.
Proof. apply format_compact_summary_some. Qed.

(** the answer the prompt asks for, a drafting block and then a summary
    that starts with a numbered section, loses exactly its scaffolding: the
    draft goes, whatever it says short of closing itself, and the summary is
    kept verbatim. *)
Theorem format_compact_summary_keeps_body draft body :
  ¬ infix ANALYSIS_CLOSE (draft ++ removelast ANALYSIS_CLOSE) → plain_body body →
  format_compact_summary
    (ANALYSIS_OPEN ++ draft ++ ANALYSIS_CLOSE ++ [NEWLINE] ++ SUMMARY_OPEN ++ body ++ SUMMARY_CLOSE)
  = Some (lit "Summary:" ++ [NEWLINE] ++ body).
Proof.
  intros Hdraft Hb. unfold format_compact_summary.
  set (raw := ANALYSIS_OPEN ++ _).
  assert (Hlen : ∃ n, length raw = S n) by (by eexists). destruct Hlen as [n ->].
  pose proof (peel_draft n draft body Hdraft Hb) as Hpeel. fold raw in Hpeel. unfold after_draft in Hpeel.
  fold raw in Hpeel. rewrite Hpeel. cbn [mbind option_bind].
  rewrite unwrap_summary_plain by (done || by apply (bool_decide_unpack (LT ∉ _))).
  destruct (seed_clean [NEWLINE] body ltac:(by right) Hb) as (Htok & Hblank & Htrim).
  rewrite neutralize_id by done.
  destruct (collapse_blanks_spec (S (length ([NEWLINE] ++ lit "Summary:" ++ [NEWLINE] ++ body)))
    ([NEWLINE] ++ lit "Summary:" ++ [NEWLINE] ++ body)) as (r & -> & _ & _ & Hr); [lia|].
  simpl. by rewrite (Hr Hblank), Htrim.
Qed.

Lemma format_compact_summary_keeps_body_witness :
  format_compact_summary
    (ANALYSIS_OPEN ++ lit "draft" ++ ANALYSIS_CLOSE ++ [NEWLINE] ++ SUMMARY_OPEN ++ lit "1. Goal" ++ SUMMARY_CLOSE)
  = Some (lit "Summary:" ++ [NEWLINE] ++ lit "1. Goal").
Proof.
  apply format_compact_summary_keeps_body.
  - intros Hi%contains_str_spec. vm_compute in Hi. discriminate.
  - split; [reflexivity|reflexivity| |].
    + intros tl Hin Hi%contains_str_spec.
      repeat (apply elem_of_cons in Hin as [-> | Hin]; [vm_compute in Hi; discriminate|]).
      by apply elem_of_nil in Hin.
    + intros Hi%contains_str_spec. vm_compute in Hi. discriminate.
Defined.

(** the two failure classifiers agree: a stream error event with a
    numeric code is judged as an HTTP failure with that status, unless its
    message names an invalid request, which is final whatever the code. *)
Theorem classify_agree status message :
  uint 16 status →
  classify_stream_event_error (Some (fmt_dec status)) message =
  if contains_str (lit "invalid_request_error") message then Deterministic
  else classify_http_status status message.
Proof.
  intros Hs. unfold classify_stream_event_error, classify_http_status. cbn [mbind option_bind].
  rewrite (parse_fmt_dec 16 status Hs). simpl is_some_and.
  rewrite bool_decide_eq_false_2.
  - destruct (contains_str _ message); [done|]. simpl.
    by destruct (is_client_status status), (is_context_length_error message).
  - intros [= Heq]. pose proof (parse_fmt_dec 16 status Hs) as Hp. by rewrite Heq in Hp.
Qed.

Lemma classify_agree_witness :
  classify_stream_event_error (Some (fmt_dec 429)) (lit "slow down") = Transient.
Proof. rewrite (classify_agree 429 (lit "slow down")); [reflexivity|split; vm_compute; discriminate]. Defined.
