(* ===== verification/CompactionSample.v ===== *)
(** Sampling a summary with bounded retries, and the full-replace pass
    (src/crates/common/intellihelper-compaction/src: sampler.rs,
    code_compaction/sample.rs, observer.rs, compact.rs).

    The model behind the sampler is an oracle: its reply to the [n]-th call of
    the run.  A pass is a state monad over the [World]: the harness's
    conversation, the number of sampler calls made, the number of clock
    readings, and the trace of calls, sleeps and observer reports.  The
    observer is either one that records every report or the no-op [()]. *)
From S2P Require Import Prelude Str CompactionItem CompactionSelect CompactionSummary.

Inductive CompactionTarget : Type := TSteps | THistory | TFullReplace.

#[global] Instance CompactionTarget_eq_dec : EqDecision CompactionTarget.
Proof. solve_decision. Defined.

Inductive AttemptOutcome : Type :=
| OSuccess (summary : rstr)
| OEmptyResponse (will_retry : bool)
| ODegenerate (summary : rstr) (will_retry : bool)
| OFailure (message : rstr) (deterministic context_overflow will_retry : bool).

(** What the observers of the passes are told. *)
Inductive Report : Type :=
| on_attempt (attempt : Z) (o : AttemptOutcome)
| on_pass_success (attempts summary_chars : Z)
| on_pass_error (attempts : Z)
| on_intra_error (status : rstr)
| on_intra_success (target : CompactionTarget) (before after turns : Z)
| on_recompaction (strategy : rstr)
| on_chunk_sampled (success : bool)
| on_chunk_count (n : Z).

Inductive Event (T : Type) : Type :=
| EvSample (turns : list T) (prompt : CompactionPrompt) (timeout_secs : Z)
| EvSleep (secs : Z)
| EvReport (r : Report).
Arguments EvSample {T}.
Arguments EvSleep {T}.
Arguments EvReport {T}.

Record World (T : Type) : Type := mkWorld {
  w_history : list T;
  w_steps : list T;
  w_calls : nat;
  w_reads : nat;
  w_trace : list (Event T);
}.
Arguments mkWorld {T}.
Arguments w_history {T}.
Arguments w_steps {T}.
Arguments w_calls {T}.
Arguments w_reads {T}.
Arguments w_trace {T}.

Definition Reply : Type := LlmCompactionOutput + CompactionSampleError.

Record SampledSummary : Type := mkSampled { sampled_summary : rstr; sampled_attempts : Z }.

Inductive SampleRetryError : Type :=
| RetryEmpty (attempts : Z)
| RetryFailure (message : rstr) (deterministic context_overflow : bool) (attempts : Z).

(** [format_compact_summary] always returns ([format_compact_summary_some]);
    this is its value. *)
Definition cleaned (raw : rstr) : rstr := default [] (format_compact_summary raw).
Definition degenerate (raw : rstr) : bool := char_count (cleaned raw) <? MIN_SUMMARY_SEED_CHARS.

Section sampling.
Context {T : Type}.
Context (sampler : nat → list T → CompactionPrompt → Z → Reply).
Context (clock : nat → Z).

Definition emit (e : Event T) : St (World T) unit :=
  λ w, (tt, mkWorld (w_history w) (w_steps w) (w_calls w) (w_reads w) (w_trace w ++ [e])).

Definition observe (observed : bool) (r : Report) : St (World T) unit :=
  if observed then emit (EvReport r) else mret tt.

Definition sample_compaction (turns : list T) (prompt : CompactionPrompt) (timeout : Z)
    : St (World T) Reply :=
  λ w, (sampler (w_calls w) turns prompt timeout,
        mkWorld (w_history w) (w_steps w) (S (w_calls w)) (w_reads w)
          (w_trace w ++ [EvSample turns prompt timeout])).

(** [Instant::now()]. *)
Definition now : St (World T) Z :=
  λ w, (clock (w_reads w),
        mkWorld (w_history w) (w_steps w) (w_calls w) (S (w_reads w)) (w_trace w)).

(** ** sample.rs *)

Section retries.
Context (turns : list T) (prompt : CompactionPrompt).
Context (max_attempts retry_delay timeout : Z) (observed : bool).

(** The [for attempt in 1..=max_attempts] loop, [n] attempts before the
    end. *)
Fixpoint sample_loop (n : nat) (attempt : Z) : St (World T) (SampledSummary + SampleRetryError) :=
  match n with
  | O => mret (inr (RetryEmpty max_attempts))
  | S n' =>
      let will_retry := attempt <? max_attempts in
      let again := _ ← emit (EvSleep retry_delay); sample_loop n' (attempt + 1) in
      reply ← sample_compaction turns prompt timeout;
      match reply with
      | inl output =>
          if negb (is_empty (trim (response output))) then
            if degenerate (response output) then
              _ ← observe observed (on_attempt attempt (ODegenerate (response output) will_retry));
              if negb will_retry then mret (inr (RetryEmpty attempt)) else again
            else
              _ ← observe observed (on_attempt attempt (OSuccess (response output)));
              mret (inl (mkSampled (response output) attempt))
          else
            _ ← observe observed (on_attempt attempt (OEmptyResponse will_retry));
            if negb will_retry then mret (inr (RetryEmpty attempt)) else again
      | inr e =>
          let message := sample_error_display e in
          let context_overflow := is_context_length_error message in
          let deterministic := is_deterministic e || context_overflow in
          let retrying := will_retry && negb deterministic in
          _ ← observe observed
                (on_attempt attempt (OFailure message deterministic context_overflow retrying));
          if deterministic then mret (inr (RetryFailure message true context_overflow attempt))
          else if negb will_retry then mret (inr (RetryFailure message false false attempt))
          else again
      end
  end.
End retries.

Definition sample_summary_with_retries (turns : list T) (prompt : CompactionPrompt)
    (max_attempts retry_delay timeout : Z) (observed : bool)
    : St (World T) (SampledSummary + SampleRetryError) :=
  let max_attempts := Z.max max_attempts 1 in
  sample_loop turns prompt max_attempts retry_delay timeout observed (Z.to_nat max_attempts) 1.

(** ** code_compaction/compact.rs *)

Inductive FullReplaceError : Type :=
| FRNothingToCompact
| FREmptyResponse
| FRSampler (message : rstr) (deterministic context_overflow : bool).

Definition full_replace_error_display (e : FullReplaceError) : rstr :=
  match e with
  | FRNothingToCompact => lit "nothing to compact"
  | FREmptyResponse => lit "compaction model returned an empty summary"
  | FRSampler message _ _ => lit "compaction sampling failed: " ++ message
  end.

Context (full_replace_template : rstr).

Definition sample_full_replace_summary (llm_turns : list T) (user_context : option rstr)
    (config : FullReplaceConfig) (observed : bool) : St (World T) (SampledSummary + FullReplaceError) :=
  match llm_turns with
  | [] => mret (inr FRNothingToCompact)
  | _ =>
      let prompt := mkPrompt [] (build_summary_prompt full_replace_template user_context) in
      _ ← now;
      r ← sample_summary_with_retries llm_turns prompt (fr_max_attempts config)
            (fr_retry_delay_secs config) (fr_sampling_timeout_secs config) observed;
      match r with
      | inl s =>
          _ ← observe observed (on_pass_success (sampled_attempts s) (char_count (sampled_summary s)));
          mret (inl s)
      | inr (RetryEmpty attempts) =>
          _ ← observe observed (on_pass_error attempts); mret (inr FREmptyResponse)
      | inr (RetryFailure message deterministic context_overflow attempts) =>
          _ ← observe observed (on_pass_error attempts);
          mret (inr (FRSampler message deterministic context_overflow))
      end
  end.

(** The context's assembly inputs are the [CompactedHistoryParts] without
    the summary, which is filled in. *)
Record FullReplaceOutput : Type := mkFullReplaceOutput {
  fro_history : list T;
  fro_summary : rstr;
  fro_attempts : Z;
}.

Definition with_summary (ctx : CompactedHistoryParts T) (summary : rstr) : CompactedHistoryParts T :=
  mkParts (system_message ctx) (user_message_prefix ctx) (agents_md_reminder ctx)
    (last_user_query ctx) (recent_messages ctx) summary (system_reminder ctx) (transcript_hint ctx).

Definition apply_full_replace_pass `{CompactionItemFactory T} (llm_turns : list T)
    (user_context : option rstr) (ctx : CompactedHistoryParts T) (config : FullReplaceConfig)
    (observed : bool) : St (World T) (FullReplaceOutput + FullReplaceError) :=
  s ←? sample_full_replace_summary llm_turns user_context config observed;
  mret (inl (mkFullReplaceOutput
    (default [] (assemble_compacted_history (with_summary ctx (sampled_summary s))))
    (sampled_summary s) (sampled_attempts s))).
End sampling.

(** * Lemmas *)

(** How a reply is judged. *)
Definition reply_usable (r : Reply) : option rstr :=
  match r with
  | inl output =>
      if negb (is_empty (trim (response output))) && negb (degenerate (response output))
      then Some (response output) else None
  | inr _ => None
  end.

Definition reply_final (r : Reply) : bool :=
  match r with
  | inl _ => is_some_and (λ _, true) (reply_usable r)
  | inr e => is_deterministic e || is_context_length_error (sample_error_display e)
  end.

(** The outcome of a run that ends with this reply after [k] attempts. *)
Definition reply_outcome (r : Reply) (k : Z) : SampledSummary + SampleRetryError :=
  match r with
  | inl output =>
      match reply_usable r with Some s => inl (mkSampled s k) | None => inr (RetryEmpty k) end
  | inr e =>
      inr (RetryFailure (sample_error_display e) (reply_final r)
             (is_context_length_error (sample_error_display e)) k)
  end.

Definition is_sleep {T} (e : Event T) : bool := match e with EvSleep _ => true | _ => false end.
Definition is_sample {T} (e : Event T) : bool := match e with EvSample _ _ _ => true | _ => false end.

Section sampling_lemmas.
Context {T : Type} (sampler : nat → list T → CompactionPrompt → Z → Reply).
Context (turns : list T) (prompt : CompactionPrompt).
Context (max_attempts retry_delay timeout : Z) (observed : bool).

Definition reply_at (w : World T) (n : nat) : Reply := sampler (w_calls w + n)%nat turns prompt timeout.

(** The conversation is untouched, [k] calls and [s] sleeps were made. *)
Definition sampled (w w' : World T) (k s : nat) : Prop :=
  w_history w' = w_history w ∧ w_steps w' = w_steps w ∧ w_calls w' = (w_calls w + k)%nat ∧
  countb is_sample (w_trace w') = countb is_sample (w_trace w) + Z.of_nat k ∧
  countb is_sleep (w_trace w') = countb is_sleep (w_trace w) + Z.of_nat s.

Lemma sampled_refl w : sampled w w 0 0.
Proof. unfold sampled. split_and!; lia || done. Qed.

Lemma sampled_trans w1 w2 w3 k1 s1 k2 s2 :
  sampled w1 w2 k1 s1 → sampled w2 w3 k2 s2 → sampled w1 w3 (k1 + k2) (s1 + s2).
Proof. unfold sampled. intros (-> & -> & -> & -> & ->) (-> & -> & -> & -> & ->). split_and!; lia || done. Qed.

Lemma sampled_observe r w : sampled w (observe observed r w).2 0 0.
Proof.
  unfold sampled, observe. destruct observed; simpl; [|by apply sampled_refl].
  rewrite !countb_app. simpl. split_and!; lia || done.
Qed.

Lemma sampled_call w : sampled w (sample_compaction sampler turns prompt timeout w).2 1 0.
Proof. unfold sampled. simpl. rewrite !countb_app. simpl. split_and!; lia || done. Qed.

Lemma sampled_sleep w : sampled w (emit (EvSleep retry_delay) w).2 0 1.
Proof. unfold sampled. simpl. rewrite !countb_app. simpl. split_and!; lia || done. Qed.

Abbreviation loop := (sample_loop sampler turns prompt max_attempts retry_delay timeout observed).

Lemma bind_run {A B} (m : St (World T) A) (k : A → St (World T) B) w :
  (x ← m; k x) w = k (m w).1 (m w).2.
Proof. unfold mbind, St_bind. by destruct (m w). Qed.

(** One round: it ends the loop, or sleeps and goes on. *)
Lemma sample_loop_step n attempt w :
  let r := reply_at w 0 in
  (reply_final r = true ∨ max_attempts ≤ attempt →
     (loop (S n) attempt w).1 = reply_outcome r attempt ∧ sampled w (loop (S n) attempt w).2 1 0) ∧
  (reply_final r = false → attempt < max_attempts →
     ∃ w', loop (S n) attempt w = loop n (attempt + 1) w' ∧ sampled w w' 1 1).
Proof.
  unfold reply_at. rewrite Nat.add_0_r. cbn [sample_loop]. rewrite !bind_run.
  set (w1 := (sample_compaction sampler turns prompt timeout w).2).
  assert (Hw1 : sampled w w1 1 0) by apply sampled_call.
  change (sample_compaction sampler turns prompt timeout w).1 with (sampler (w_calls w) turns prompt timeout).
  assert (Hend : ∀ rep, sampled w (observe observed rep w1).2 1 0)
    by (intros rep; apply (sampled_trans _ _ _ 1 0 0 0 Hw1), sampled_observe).
  assert (Hgo : ∀ rep, sampled w (emit (EvSleep retry_delay) (observe observed rep w1).2).2 1 1)
    by (intros rep; apply (sampled_trans _ _ _ 1 0 0 1 (Hend rep)), sampled_sleep).
  destruct (sampler (w_calls w) turns prompt timeout) as [output|e]; simpl reply_final.
  - unfold reply_outcome, reply_usable.
    destruct (is_empty (trim (response output))); simpl; [|destruct (degenerate (response output)); simpl];
      rewrite !bind_run; destruct (Z.ltb_spec attempt max_attempts); simpl; rewrite ?bind_run;
      (split; [intros [?|?]; first [done|lia|split; [done|apply Hend]]
              |intros ? ?; first [done|lia|eexists; split; [done|apply Hgo]]]).
  - rewrite !bind_run. destruct (is_deterministic e || _) eqn:Hdet; simpl.
    + split; [intros _; split; [by rewrite Hdet|apply Hend]|done].
    + apply orb_false_elim in Hdet as [Hd Hc].
      destruct (Z.ltb_spec attempt max_attempts); simpl; rewrite ?bind_run.
      * split; [intros [?|?]; [done|lia]|]. intros _ _. eexists. split; [done|apply Hgo].
      * split; [|intros; lia]. intros _. split; [by rewrite Hd, Hc|apply Hend].
Qed.

Lemma sampled_calls w w' k s : sampled w w' k s → w_calls w' = (w_calls w + k)%nat.
Proof. by intros (_ & _ & ? & _). Qed.

Lemma sample_loop_spec n attempt w :
  attempt + Z.of_nat n = max_attempts →
  ∃ k, (k ≤ n)%nat ∧ (∀ i, (i < k)%nat → reply_final (reply_at w i) = false) ∧
    ((k < n)%nat → reply_final (reply_at w k) = true) ∧
    (loop (S n) attempt w).1 = reply_outcome (reply_at w k) (attempt + Z.of_nat k) ∧
    sampled w (loop (S n) attempt w).2 (S k) k.
Proof.
  revert attempt w. induction n as [|n IH]; intros attempt w Hn.
  - exists 0%nat. destruct (sample_loop_step 0 attempt w) as [Hend _].
    destruct Hend as [Hr Hs]; [right; lia|]. rewrite Z.add_0_r.
    split_and!; [lia|intros; lia|intros; lia|done|done].
  - destruct (sample_loop_step (S n) attempt w) as [Hend Hgo].
    destruct (reply_final (reply_at w 0)) eqn:Hf.
    + destruct Hend as [Hr Hs]; [by left|]. exists 0%nat. rewrite Z.add_0_r.
      split_and!; [lia|intros; lia|done|done|done].
    + destruct (Hgo eq_refl ltac:(lia)) as (w' & Heq & Hw').
      destruct (IH (attempt + 1) w' ltac:(lia)) as (k & Hk & Hbefore & Hat & Hr & Hs).
      assert (Hrep : ∀ i, reply_at w' i = reply_at w (S i)).
      { intros i. unfold reply_at. rewrite (sampled_calls _ _ _ _ Hw'). f_equal. lia. }
      exists (S k). rewrite Heq. split_and!; [lia| | | |].
      * intros [|i] Hi; [done|]. rewrite <- Hrep. apply Hbefore. lia.
      * intros Hlt. rewrite <- Hrep. apply Hat. lia.
      * rewrite Hr, Hrep. f_equal. lia.
      * apply (sampled_trans _ _ _ 1 1 (S k) k Hw' Hs).
Qed.
End sampling_lemmas.

Lemma retries_spec {T} (sampler : nat → list T → CompactionPrompt → Z → Reply)
    turns prompt max_attempts delay timeout observed w :
  let max := Z.max max_attempts 1 in
  let '(res, w') := sample_summary_with_retries sampler turns prompt max_attempts delay timeout observed w in
  ∃ k : nat, Z.of_nat k < max ∧
    (∀ i, (i < k)%nat → reply_final (reply_at sampler turns prompt timeout w i) = false) ∧
    (Z.of_nat k + 1 < max → reply_final (reply_at sampler turns prompt timeout w k) = true) ∧
    res = reply_outcome (reply_at sampler turns prompt timeout w k) (Z.of_nat k + 1) ∧
    sampled w w' (S k) k.
Proof.
  cbv zeta. unfold sample_summary_with_retries. set (m := Z.max max_attempts 1).
  destruct (Z.to_nat m) as [|n] eqn:Hn; [lia|].
  destruct (sample_loop_spec sampler turns prompt m delay timeout observed n 1 w ltac:(lia))
    as (k & Hk & Hbefore & Hat & Hr & Hs).
  destruct (sample_loop _ _ _ _ _ _ _ (S n) 1 w) as [res w']. simpl in *.
  exists k. split_and!; [lia|done|intros; apply Hat; lia|by rewrite Hr, Z.add_comm|done].
Qed.

(** * Theorems *)

(** the retry loop.  It always ends with the reply to some attempt, at
    most the configured number and at least one: every earlier reply was
    transient, this one is usable or final unless it is the last allowed, the
    result and its attempt count are those of this reply, exactly one sampler
    call is made per attempt with one sleep between any two, and the
    conversation is left alone. *)
Theorem sample_summary_with_retries_spec {T} (sampler : nat → list T → CompactionPrompt → Z → Reply)
    turns prompt max_attempts delay timeout observed w :
  let max := Z.max max_attempts 1 in
  let '(res, w') := sample_summary_with_retries sampler turns prompt max_attempts delay timeout observed w in
  ∃ k : nat, Z.of_nat k < max ∧
    (∀ i, (i < k)%nat → reply_final (reply_at sampler turns prompt timeout w i) = false) ∧
    (Z.of_nat k + 1 < max → reply_final (reply_at sampler turns prompt timeout w k) = true) ∧
    res = reply_outcome (reply_at sampler turns prompt timeout w k) (Z.of_nat k + 1) ∧
    sampled w w' (S k) k.
Proof. apply retries_spec. Qed.
