(* ===== verification/CompactionIntra.v ===== *)
(** Intra-compaction: the select, sample, guard, commit passes over a running
    agent's conversation
    (src/crates/common/intellihelper-compaction/src: intra_compaction/compact.rs,
    traits.rs, the errors and results of trigger.rs, and
    append_reminder_block of reminder.rs). *)
From S2P Require Import Prelude Str Float CompactionItem CompactionSelect CompactionFit.
From S2P Require Import CompactionHistory CompactionSummary CompactionSample.

(** * trigger.rs, traits.rs *)

Record IntraCompactionResult : Type := mkResult {
  tokens_before : Z;
  tokens_after : Z;
  turns_compacted : Z;
  elapsed : Z;
  summary : rstr;
}.

Inductive IntraCompactionError : Type :=
| ENothingToCompact
| ETimeout
| EEmptyResponse
| EInsufficientReduction (before after : Z)
| EInvalidSplit (requested available : Z)
| EUnsupported
| ESamplerBuild (msg : rstr)
| ESamplerStart (msg : rstr)
| ESamplerStream (msg : rstr)
| EApply (msg : rstr).

Definition target_label (t : CompactionTarget) : rstr :=
  match t with
  | TSteps => lit "steps"
  | THistory => lit "history"
  | TFullReplace => lit "full_replace"
  end.

(** The conversation a stream processor holds: history, then steps. *)
Definition Views (T : Type) : Type := list T * list T.

Definition view_of {T} (target : CompactionTarget) (v : Views T) : list T :=
  match target with TSteps => v.2 | THistory => v.1 | TFullReplace => v.1 ++ v.2 end.

(** The trait's mutator, and what its comments say of it: it replaces the
    first [n] items of the target's view by the one given, which leaves the other
    view of a partial target alone; for too large an [n] it fails and leaves
    everything alone.  Of its other errors nothing is said. *)
Class CompactionStreamProc (T : Type) := {
  replace_with_compaction :
    CompactionTarget → nat → T → Views T → (unit + IntraCompactionError) * Views T;
}.

Class StreamProcLaws (T : Type) `{CompactionStreamProc T} := {
  replace_ok target n item v v' :
    replace_with_compaction target n item v = (inl tt, v') →
    (n ≤ length (view_of target v))%nat ∧
    view_of target v' = item :: drop n (view_of target v) ∧
    match target with TSteps => v'.1 = v.1 | THistory => v'.2 = v.2 | TFullReplace => True end;
  replace_invalid target n item v :
    (length (view_of target v) < n)%nat →
    replace_with_compaction target n item v
      = (inr (EInvalidSplit (Z.of_nat n) (zlen (view_of target v))), v);
}.

(** * compact.rs *)

Definition error_status_label (e : IntraCompactionError) : rstr :=
  match e with
  | ENothingToCompact => lit "nothing_to_compact"
  | ETimeout => lit "timeout"
  | EEmptyResponse => lit "empty_response"
  | EInsufficientReduction _ _ => lit "insufficient_reduction"
  | EInvalidSplit _ _ => lit "invalid_split"
  | EUnsupported => lit "unsupported"
  | ESamplerBuild _ => lit "sampler_build"
  | ESamplerStart _ => lit "sampler_start"
  | ESamplerStream _ => lit "sampler_stream"
  | EApply _ => lit "apply"
  end.

Definition compaction_sample_error_to_intra (e : CompactionSampleError) : IntraCompactionError :=
  match e with
  | SETimeout _ _ => ETimeout
  | SEBuild msg => ESamplerBuild msg
  | SEStart msg => ESamplerStart msg
  | SEEmptyResponse => EEmptyResponse
  | SEOther msg =>
      if contains_str (lit "Failed to build") msg then ESamplerBuild msg
      else if contains_str (lit "Failed to start") msg then ESamplerStart msg
      else if contains_str (lit "no response channel content") msg then EEmptyResponse
      else ESamplerStream msg
  end.

Definition is_transient (e : IntraCompactionError) : bool :=
  match e with
  | ETimeout | EEmptyResponse | ESamplerStream _ | ESamplerStart _ => true
  | _ => false
  end.

(** reminder.rs *)
Definition append_reminder_block (summary : rstr) (reminder : option rstr) : rstr :=
  match reminder with
  | Some r => if negb (is_empty (trim r)) then summary ++ NLNL ++ r else summary
  | None => summary
  end.

(** [iter().sum()] of [u32]s: it wraps in a release build. *)
Definition sum_u32 (counts : list Z) : Z := wrap 32 (foldr Z.add 0 counts).

(** [after > (before as f64 * ratio) as u32]. *)
Definition insufficient (before after : Z) (ratio : f64) : bool :=
  (0 <? before) && (f64_as_uint 32 (f64_mul (f64_of_Z before) ratio) <? after).

(** The prompt templates, text files of the crate. *)
Record Templates : Type := mkTemplates {
  full_replace_summary_prompt : rstr;
  intra_compaction_system : rstr;
  intra_compaction_user : rstr;
  compaction_developer_prompt : rstr;
  compaction_user_prompt : rstr;
}.

Section intra.
Context {T : Type} `{CompactionItemBuilder T, !ItemTokenCounter T, !CompactionStreamProc T}.
Context (sampler : nat → list T → CompactionPrompt → Z → Reply) (clock : nat → Z) (templates : Templates).

Abbreviation M A := (St (World T) A).

Definition get_accumulated_turns_for_compaction : M (list T) := λ w, (w_steps w, w).
Definition get_history_turns_for_compaction : M (list T) := λ w, (w_history w, w).

Definition replace_in_world (target : CompactionTarget) (n : nat) (item : T)
    : M (unit + IntraCompactionError) :=
  λ w, let '(r, v) := replace_with_compaction target n item (w_history w, w_steps w) in
       (r, mkWorld v.1 v.2 (w_calls w) (w_reads w) (w_trace w)).

Definition sample_shared_summary_with_retries (turns : list T) (policy : IntraCompactionConfig)
    : M (rstr + IntraCompactionError) :=
  let prompt := mkPrompt [] (build_summary_prompt (full_replace_summary_prompt templates) None) in
  r ← sample_summary_with_retries sampler turns prompt (ic_max_attempts policy)
        (ic_retry_delay_secs policy) (ic_sampling_timeout_secs policy) false;
  mret match r with
       | inl s => inl (cleaned (sampled_summary s))
       | inr (RetryEmpty _) => inr EEmptyResponse
       | inr (RetryFailure message deterministic _ _) =>
           inr (if deterministic then ESamplerBuild message else ESamplerStream message)
       end.

Definition build_prompt_for_target (target : CompactionTarget) : CompactionPrompt :=
  match target with
  | THistory => mkPrompt (compaction_developer_prompt templates) (compaction_user_prompt templates)
  | _ => mkPrompt (intra_compaction_system templates) (intra_compaction_user templates)
  end.

(** The legacy loop, [n] attempts before the end. *)
Fixpoint legacy_loop (turns : list T) (prompt : CompactionPrompt) (policy : IntraCompactionConfig)
    (max_attempts : Z) (n : nat) (attempt : Z) (last_err : option IntraCompactionError)
    : M (rstr + IntraCompactionError) :=
  match n with
  | O => mret (inr (default EEmptyResponse last_err))
  | S n' =>
      reply ← sample_compaction sampler turns prompt (ic_sampling_timeout_secs policy);
      match reply with
      | inl output => mret (inl (response output))
      | inr e =>
          let intra_err := compaction_sample_error_to_intra e in
          if is_transient intra_err && (attempt <? max_attempts) then
            _ ← emit (EvSleep (ic_retry_delay_secs policy));
            legacy_loop turns prompt policy max_attempts n' (attempt + 1) (Some intra_err)
          else mret (inr intra_err)
      end
  end.

Definition sample_compaction_with_retries (turns : list T) (prompt : CompactionPrompt)
    (policy : IntraCompactionConfig) : M (rstr + IntraCompactionError) :=
  let max_attempts := Z.max (ic_max_attempts policy) 1 in
  legacy_loop turns prompt policy max_attempts (Z.to_nat max_attempts) 1 None.

(** The tail of both kinds of pass: build the summary item, guard, commit,
    report. *)
Definition guard_and_commit (policy : IntraCompactionConfig) (target : CompactionTarget)
    (before : Z) (n : nat) (start : Z) (summary_text : rstr)
    : M (IntraCompactionResult + IntraCompactionError) :=
  let item : T := compaction_summary_item summary_text in
  let after := count_item_tokens item in
  if insufficient before after (ic_max_reduction_ratio policy)
  then mret (inr (EInsufficientReduction before after))
  else
    _ ←? replace_in_world target n item;
    t ← now clock;
    _ ← observe true (on_intra_success target before after (wrap 32 (Z.of_nat n)));
    mret (inl (mkResult before after (wrap 32 (Z.of_nat n)) (t - start) summary_text)).

(** Step 3 of [compact_one_pass]: what the model reads, the sample, and the
    user queries put before it. *)
Definition summarize_pass (policy : IntraCompactionConfig) (target : CompactionTarget)
    (turns_to_compact : list T) : M (rstr + IntraCompactionError) :=
  let '(for_llm, prior) :=
    match target with
    | THistory =>
        match separate_prior_user_queries turns_to_compact with
        | Some sep => (turns_for_llm sep, prior_user_queries sep)
        | None => ([], None)
        end
    | _ => (turns_to_compact, None)
    end in
  summary_text ←?
    match ic_summarizer policy with
    | Legacy => sample_compaction_with_retries for_llm (build_prompt_for_target target) policy
    | Shared => sample_shared_summary_with_retries for_llm policy
    end;
  mret (inl
    match target with
    | THistory =>
        let current := extract_user_queries_from_turns turns_to_compact
                         (ic_user_message_truncate_chars policy) in
        let preamble := assemble_user_queries_preamble prior current in
        if is_empty preamble then summary_text else preamble ++ summary_text
    | _ => summary_text
    end).

(** [FullReplace] never reaches it. *)
Definition compact_one_pass (policy : IntraCompactionConfig) (trigger : IntraCompactionTrigger)
    (target : CompactionTarget) : M (IntraCompactionResult + IntraCompactionError) :=
  start ← now clock;
  source ← match target with
           | THistory => get_history_turns_for_compaction
           | _ => get_accumulated_turns_for_compaction
           end;
  match source with
  | [] => mret (inr ENothingToCompact)
  | _ =>
      let target_tokens := percent_of (context_window trigger) (ic_target_threshold_percent policy) in
      match select_turns_to_compact (token_counts source) source target_tokens
              (ic_min_compactable_tokens policy) with
      | None => mret (inr ENothingToCompact)
      | Some plan =>
          text ←? summarize_pass policy target (take (split_idx plan) source);
          guard_and_commit policy target (tokens_to_compact plan) (split_idx plan) start text
      end
  end.

Definition apply_steps_compaction policy trigger := compact_one_pass policy trigger TSteps.
Definition apply_history_compaction policy trigger := compact_one_pass policy trigger THistory.

(** Step 1b: the fitted turns, or all of them. *)
Definition fitted_input (history steps : list T) (summarizer_input_budget : option Z)
    : list T + IntraCompactionError :=
  match summarizer_input_budget with
  | Some budget =>
      let plan := fit_turns_for_summarizer history steps budget in
      match llm_turns plan with
      | [] => inr ENothingToCompact
      | turns => if tokens_fit plan =? 0 then inr ENothingToCompact else inl turns
      end
  | None => inl (history ++ steps)
  end.

Definition apply_full_replace_compaction (policy : IntraCompactionConfig)
    (active_reminder : option rstr) (summarizer_input_budget : option Z)
    : M (IntraCompactionResult + IntraCompactionError) :=
  start ← now clock;
  history ← get_history_turns_for_compaction;
  steps ← get_accumulated_turns_for_compaction;
  let total := (length history + length steps)%nat in
  if (total =? 0)%nat then mret (inr ENothingToCompact)
  else
    let before := sum_u32 (token_counts (history ++ steps)) in
    if before <? ic_min_compactable_tokens policy then mret (inr ENothingToCompact)
    else
      llm_turns ←? mret (fitted_input history steps summarizer_input_budget);
      text ←? sample_shared_summary_with_retries llm_turns policy;
      guard_and_commit policy TFullReplace before total start
        (append_reminder_block text active_reminder).

Definition sum_u64 (turns : list T) : Z := wrap 64 (foldr Z.add 0 (token_counts turns)).

Definition join_summaries (h s : rstr) : rstr :=
  match is_empty h, is_empty s with
  | false, false => h ++ NLNL ++ s
  | false, true => h
  | true, _ => s
  end.

Definition apply_history_then_steps (policy : IntraCompactionConfig) (trigger : IntraCompactionTrigger)
    : M (IntraCompactionResult + IntraCompactionError) :=
  hr ← apply_history_compaction policy trigger;
  history_result ←?
    match hr with
    | inl r => mret (inl (Some r))
    | inr ENothingToCompact => mret (inl None)
    | inr e => mret (inr e)
    end;
  accumulated ← get_accumulated_turns_for_compaction;
  history ← get_history_turns_for_compaction;
  let threshold :=
    f64_ceil_as_uint 64 (f64_mul (f64_of_Z (sum_u64 history)) (ic_steps_trigger_ratio policy)) in
  if negb (threshold <? sum_u64 accumulated) then
    mret match history_result with Some h => inl h | None => inr ENothingToCompact end
  else
    sr ← apply_steps_compaction policy trigger;
    mret match history_result, sr with
         | Some h, inl s =>
             inl (mkResult (sat_add 32 (tokens_before h) (tokens_before s))
                    (sat_add 32 (tokens_after h) (tokens_after s))
                    (sat_add 32 (turns_compacted h) (turns_compacted s))
                    (elapsed h + elapsed s) (join_summaries (summary h) (summary s)))
         | Some h, inr ENothingToCompact => inl h
         | None, inl s => inl s
         | _, inr e => inr e
         end.

Definition apply_intra_compaction (policy : IntraCompactionConfig) (trigger : IntraCompactionTrigger)
    (active_reminder : option rstr) (summarizer_input_budget : option Z)
    : M (IntraCompactionResult + IntraCompactionError) :=
  result ←
    match ic_mode policy with
    | MFullReplace => apply_full_replace_compaction policy active_reminder summarizer_input_budget
    | MStepsOnly => apply_steps_compaction policy trigger
    | MHistoryOnly => apply_history_compaction policy trigger
    | MHistoryThenSteps => apply_history_then_steps policy trigger
    end;
  _ ← match result with
      | inr e => observe true (on_intra_error (error_status_label e))
      | inl _ => mret tt
      end;
  mret result.
End intra.

(** * Lemmas *)

Definition views {T} (w : World T) : Views T := (w_history w, w_steps w).

(** A computation that leaves the conversation alone, whatever it answers. *)
Definition keeps {T A} (m : St (World T) A) : Prop := ∀ w, views (m w).2 = views w.

Section keeps.
Context {T : Type}.

Lemma intra_keeps_ret {A} (a : A) : keeps (T := T) (mret a).
Proof. by intros w. Qed.

Lemma intra_keeps_bind {A B} (m : St (World T) A) (k : A → St (World T) B) :
  keeps m → (∀ a, keeps (k a)) → keeps (a ← m; k a).
Proof. intros Hm Hk w. rewrite bind_run. by rewrite Hk, Hm. Qed.

Lemma try_bind_run {A B E} (m : St (World T) (A + E)) (k : A → St (World T) (B + E)) w :
  (a ←? m; k a) w = match (m w).1 with inl a => k a (m w).2 | inr e => (inr e, (m w).2) end.
Proof. unfold try_bind. by destruct (m w) as [[] ?]. Qed.

Lemma keeps_try {A B E} (m : St (World T) (A + E)) (k : A → St (World T) (B + E)) :
  keeps m → (∀ a, keeps (k a)) → keeps (a ←? m; k a).
Proof. intros Hm Hk w. rewrite try_bind_run. destruct (m w).1; simpl; by rewrite ?Hk, Hm. Qed.

Lemma keeps_observe o r : keeps (T := T) (observe o r).
Proof. intros w. by destruct o. Qed.

Lemma keeps_now clock : keeps (T := T) (now clock).
Proof. by intros w. Qed.

Lemma intra_keeps_emit e : keeps (T := T) (emit e).
Proof. by intros w. Qed.

Lemma keeps_sample sampler turns prompt timeout : keeps (T := T) (sample_compaction sampler turns prompt timeout).
Proof. by intros w. Qed.

Lemma keeps_retries sampler turns prompt max delay timeout o :
  keeps (T := T) (sample_summary_with_retries sampler turns prompt max delay timeout o).
Proof.
  intros w. pose proof (retries_spec sampler turns prompt max delay timeout o w) as H. cbv zeta in H.
  destruct (sample_summary_with_retries _ _ _ _ _ _ _ w) as [r w'].
  destruct H as (k & _ & _ & _ & _ & Hh & Hs & _). unfold views. simpl. by rewrite Hh, Hs.
Qed.
End keeps.

#[export] Hint Resolve intra_keeps_ret intra_keeps_bind keeps_try keeps_observe keeps_now intra_keeps_emit keeps_sample
  keeps_retries : rust.

Section intra_lemmas.
Context {T : Type} `{CompactionItemBuilder T, !ItemTokenCounter T, !CompactionStreamProc T, !StreamProcLaws T}.
Context (sampler : nat → list T → CompactionPrompt → Z → Reply) (clock : nat → Z) (templates : Templates).

Lemma keeps_shared turns policy : keeps (sample_shared_summary_with_retries sampler templates turns policy).
Proof. unfold sample_shared_summary_with_retries. auto with rust. Qed.

Lemma keeps_legacy_loop turns prompt policy max n attempt last_err :
  keeps (legacy_loop sampler turns prompt policy max n attempt last_err).
Proof.
  revert attempt last_err. induction n as [|n IH]; intros attempt last_err; simpl; [auto with rust|].
  apply intra_keeps_bind; [auto with rust|]. intros [output|e]; [auto with rust|].
  destruct (is_transient _ && _); auto with rust.
Qed.

Lemma keeps_summarize policy target turns : keeps (summarize_pass sampler templates policy target turns).
Proof.
  unfold summarize_pass.
  destruct (match target with THistory => _ | _ => _ end) as [for_llm prior].
  apply keeps_try; [|auto with rust].
  destruct (ic_summarizer policy); [apply keeps_shared|apply keeps_legacy_loop].
Qed.

(** What a committed result says of the conversation before and after. *)
Definition committed (policy : IntraCompactionConfig) (target : CompactionTarget) (n : nat) (before : Z)
    (r : IntraCompactionResult) (v v' : Views T) : Prop :=
  (n ≤ length (view_of target v))%nat ∧
  view_of target v' = compaction_summary_item (summary r) :: drop n (view_of target v) ∧
  match target with TSteps => v'.1 = v.1 | THistory => v'.2 = v.2 | TFullReplace => True end ∧
  tokens_before r = before ∧
  tokens_after r = count_item_tokens (compaction_summary_item (summary r) : T) ∧
  turns_compacted r = wrap 32 (Z.of_nat n) ∧
  insufficient (tokens_before r) (tokens_after r) (ic_max_reduction_ratio policy) = false.

(** A failed pass leaves the conversation alone, unless it is the commit that
    fails: a mutator that is asked to replace some items that are there, and
    answers with an error, leaves what it leaves. *)
Definition failed (target : CompactionTarget) (e : IntraCompactionError) (v v' : Views T) : Prop :=
  v' = v ∨ ∃ n item, (n ≤ length (view_of target v))%nat ∧ replace_with_compaction target n item v = (inr e, v').

Lemma guard_and_commit_spec policy target before n start txt w :
  (n ≤ length (view_of target (views w)))%nat →
  match guard_and_commit clock policy target before n start txt w with
  | (inl r, w') => committed policy target n before r (views w) (views w')
  | (inr e, w') => failed target e (views w) (views w')
  end.
Proof.
  intros Hle. unfold guard_and_commit. cbv zeta.
  destruct (insufficient before (count_item_tokens (compaction_summary_item txt)) _) eqn:Hins; [by left|].
  rewrite try_bind_run. unfold replace_in_world.
  change (w_history w, w_steps w) with (views w).
  destruct (replace_with_compaction target n (compaction_summary_item txt) (views w)) as [[[]|e] v'] eqn:Hr;
    simpl.
  - apply replace_ok in Hr as (Hn & Hview & Hother).
    unfold committed; simpl. destruct v' as [h s]. simpl in *.
    split_and!; done.
  - right. exists n, (compaction_summary_item txt). split; [done|]. rewrite Hr. by destruct v'.
Qed.

Lemma percent_of_nonneg a p : 0 ≤ percent_of a p.
Proof. unfold percent_of. apply (wrap_range 32). lia. Qed.

Lemma compact_one_pass_spec policy trigger target w :
  target ≠ TFullReplace →
  match compact_one_pass sampler clock templates policy trigger target w with
  | (inl r, w') =>
      ∃ n, (0 < n < length (view_of target (views w)))%nat ∧
        committed policy target n (sum_counts (take n (token_counts (view_of target (views w))))) r
          (views w) (views w') ∧
        (∀ x, view_of target (views w) !! n = Some x → is_tool_result x = false) ∧
        ic_min_compactable_tokens policy ≤ tokens_before r
  | (inr e, w') => failed target e (views w) (views w')
  end.
Proof.
  intros Ht. pose proof (percent_of_nonneg (context_window trigger) (ic_target_threshold_percent policy)) as Hpct.
  unfold compact_one_pass. rewrite !bind_run.
  set (w1 := (now clock w).2). assert (Hw1 : views w1 = views w) by done. clearbody w1.
  assert (Hsrc : (match target with THistory => get_history_turns_for_compaction
                  | _ => get_accumulated_turns_for_compaction end w1)
                 = (view_of target (views w), w1)).
  { rewrite <- Hw1. destruct target; done. }
  rewrite Hsrc. cbn [fst snd]. remember (view_of target (views w)) as source eqn:Hv.
  destruct source as [|x0 source'] eqn:Hsource; [by left|]. rewrite <- Hsource in *.
  destruct (select_turns_to_compact _ source _ _) as [plan|] eqn:Hsel; [|by left].
  apply select_some in Hsel as (Hs & Hsum & Hsafe & Htok & Hmin & _);
    [|by unfold token_counts; rewrite length_fmap|auto with rust|done].
  rewrite try_bind_run. pose proof (keeps_summarize policy target (take (split_idx plan) source) w1) as Hk.
  destruct (summarize_pass _ _ _ _ _ w1) as [[txt|e] w2]; simpl in *; [|left; congruence].
  pose proof (guard_and_commit_spec policy target (tokens_to_compact plan) (split_idx plan)
    (now clock w).1 txt w2 ltac:(rewrite Hk, Hw1, <- Hv; lia)) as Hg.
  change (clock (w_reads w)) with (now clock w).1.
  rewrite Hk, Hw1 in Hg.
  destruct (guard_and_commit _ _ _ _ _ _ _ w2) as [[r|e] w3]; [|exact Hg]. exists (split_idx plan).
  rewrite Htok in Hg. split_and!; [lia|lia|exact Hg|done|].
  destruct Hg as (_ & _ & _ & -> & _). lia.
Qed.

Lemma apply_full_replace_spec policy reminder budget w :
  match apply_full_replace_compaction sampler clock templates policy reminder budget w with
  | (inl r, w') =>
      committed policy TFullReplace (length (view_of TFullReplace (views w)))
        (sum_u32 (token_counts (view_of TFullReplace (views w)))) r (views w) (views w') ∧
      view_of TFullReplace (views w) ≠ [] ∧
      ic_min_compactable_tokens policy ≤ tokens_before r
  | (inr e, w') => failed TFullReplace e (views w) (views w')
  end.
Proof.
  unfold apply_full_replace_compaction. rewrite !bind_run.
  set (w1 := (now clock w).2). assert (Hw1 : views w1 = views w) by done.
  unfold get_history_turns_for_compaction, get_accumulated_turns_for_compaction. cbn [fst snd].
  change (w_history w1) with (w_history w). change (w_steps w1) with (w_steps w). clearbody w1.
  rewrite <- length_app. change (w_history w ++ w_steps w) with (view_of TFullReplace (views w)).
  set (all := view_of TFullReplace (views w)).
  destruct (Nat.eqb_spec (length all) 0) as [|Hne]; [by left|].
  destruct (Z.ltb_spec (sum_u32 (token_counts all)) (ic_min_compactable_tokens policy)) as [|Hmin]; [by left|].
  rewrite try_bind_run.
  cbn [mret St_ret fst snd]. destruct (fitted_input _ _ budget) as [turns|e]; [|by left].
  rewrite try_bind_run. pose proof (keeps_shared turns policy w1) as Hk.
  destruct (sample_shared_summary_with_retries _ _ _ _ w1) as [[txt|e] w2]; simpl in *; [|left; congruence].
  pose proof (guard_and_commit_spec policy TFullReplace (sum_u32 (token_counts all)) (length all)
    (clock (w_reads w)) (append_reminder_block txt reminder) w2 ltac:(by rewrite Hk, Hw1)) as Hg.
  rewrite Hk, Hw1 in Hg.
  destruct (guard_and_commit _ _ _ _ _ _ _ w2) as [[r|e] w3]; [|exact Hg]. split_and!; [exact Hg|by intros Hnil; rewrite Hnil in Hne|].
  destruct Hg as (_ & _ & _ & -> & _). done.
Qed.

(** The reports at the end of the dispatcher leave the conversation alone. *)
Lemma apply_intra_run policy trigger reminder budget w :
  let m := match ic_mode policy with
           | MFullReplace => apply_full_replace_compaction sampler clock templates policy reminder budget
           | MStepsOnly => apply_steps_compaction sampler clock templates policy trigger
           | MHistoryOnly => apply_history_compaction sampler clock templates policy trigger
           | MHistoryThenSteps => apply_history_then_steps sampler clock templates policy trigger
           end in
  let out := apply_intra_compaction sampler clock templates policy trigger reminder budget w in
  out.1 = (m w).1 ∧ views out.2 = views (m w).2 ∧
  (∀ e, out.1 = inr e → last (w_trace out.2) = Some (EvReport (on_intra_error (error_status_label e)))).
Proof.
  cbv zeta. unfold apply_intra_compaction. rewrite !bind_run.
  destruct (ic_mode policy); simpl;
    match goal with |- context [match (?m w).1 with inl _ => _ | inr _ => _ end] =>
      destruct (m w) as [[r|e] w'] end; simpl; (split_and!; [done|done|]);
    intros ? [=]; subst; apply last_snoc.
Qed.
End intra_lemmas.

(** A concrete stream processor over mock items. *)
Module MockProc.
Import Mock.

Definition replace (target : CompactionTarget) (n : nat) (item : MockItem) (v : Views MockItem)
    : (unit + IntraCompactionError) * Views MockItem :=
  if (length (view_of target v) <? n)%nat
  then (inr (EInvalidSplit (Z.of_nat n) (zlen (view_of target v))), v)
  else
    let view := item :: drop n (view_of target v) in
    (inl tt, match target with
             | TSteps => (v.1, view)
             | THistory => (view, v.2)
             | TFullReplace => ([], view)
             end).

#[global] Instance mock_proc : CompactionStreamProc MockItem := {| replace_with_compaction := replace |}.

#[global] Instance mock_proc_laws : StreamProcLaws MockItem.
Proof.
  split; simpl; unfold replace; intros target n item v.
  - intros v'. destruct (Nat.ltb_spec (length (view_of target v)) n) as [|Hn]; [done|].
    intros [= <-]. destruct target; (split_and!; [done|done|done]).
  - intros Hlt. by rewrite (proj2 (Nat.ltb_lt _ _) Hlt).
Qed.

(** A model that always answers with the same text. *)
Definition always (reply : Reply) : nat → list MockItem → CompactionPrompt → Z → Reply :=
  λ _ _ _ _, reply.
Definition no_templates : Templates := mkTemplates [] [] [] [] [].
Definition clock (n : nat) : Z := Z.of_nat n.
Definition policy (mode : IntraCompactionMode) : IntraCompactionConfig :=
  mkIntraConfig true mode 85 0 10 (f64_lit 4 5) None 120 2 3 [] Legacy 50 (f64_lit 0 1) 3000.
Definition start : World MockItem :=
  mkWorld [user 400; assistant 300; user 20] [assistant 500; tool 100; assistant 30] 0 0 [].
Definition trigger : IntraCompactionTrigger := mkTrigger 1350 200 100 5.
End MockProc.

(** * Theorems *)

(** C4: a single-target compaction is atomic up to its commit.  If it fails, the
    failure's label is the last thing reported, and the conversation is as it was,
    unless the failure is the mutator's own answer to the one commit, which asked
    for no more items than there are.  If it succeeds, it replaced the oldest turns
    of its target, all of them for a full replace and a proper nonempty part for the
    partial modes, by one summary item made of the reported summary, left the
    other side alone, did not orphan a tool result; the tokens it reports are those
    of the turns it replaced, at least the configured minimum, and of the summary
    item, and they passed the reduction guard. *)
Theorem intra_compaction_atomic {T}
    `{CompactionItemBuilder T, !ItemTokenCounter T, !CompactionStreamProc T, !StreamProcLaws T}
    sampler clock templates policy trigger reminder budget (w : World T) :
  ic_mode policy ≠ MHistoryThenSteps →
  let target := match ic_mode policy with
                | MFullReplace => TFullReplace | MStepsOnly => TSteps | _ => THistory end in
  let view := view_of target (views w) in
  match apply_intra_compaction sampler clock templates policy trigger reminder budget w with
  | (inr e, w') =>
      failed target e (views w) (views w') ∧ last (w_trace w') = Some (EvReport (on_intra_error (error_status_label e)))
  | (inl r, w') =>
      ∃ n, (0 < n)%nat ∧
        committed policy target n
          (if decide (target = TFullReplace) then sum_u32 (token_counts view) else sum_counts (take n (token_counts view)))
          r (views w) (views w') ∧
        ic_min_compactable_tokens policy ≤ tokens_before r ∧
        (if decide (target = TFullReplace) then n = length view
         else (n < length view)%nat ∧ ∀ x, view !! n = Some x → is_tool_result x = false)
  end.
Proof.
  intros Hmode target view.
  destruct (apply_intra_run sampler clock templates policy trigger reminder budget w) as (Hres & Hviews & Hrep).
  destruct (apply_intra_compaction _ _ _ _ _ _ _ w) as [res w']. cbn [fst snd] in *.
  assert (Hpart : ∀ t, t ≠ TFullReplace →
    res = (compact_one_pass sampler clock templates policy trigger t w).1 →
    views w' = views (compact_one_pass sampler clock templates policy trigger t w).2 →
    match res with
    | inr e => failed t e (views w) (views w')
    | inl r => ∃ n, (0 < n)%nat ∧
        committed policy t n (sum_counts (take n (token_counts (view_of t (views w))))) r (views w) (views w') ∧
        ic_min_compactable_tokens policy ≤ tokens_before r ∧ (n < length (view_of t (views w)))%nat ∧
        ∀ x, view_of t (views w) !! n = Some x → is_tool_result x = false
    end).
  { intros t Ht -> Hv. pose proof (compact_one_pass_spec sampler clock templates policy trigger t w Ht) as Hp.
    destruct (compact_one_pass _ _ _ _ _ t w) as [[r|e] w1]; simpl in *; rewrite Hv; [|done].
    destruct Hp as (n & [Hn0 Hn] & Hc & Hsafe & Hmin). by exists n. }
  subst target view. destruct (ic_mode policy) eqn:Hm; [| | |done]; cbn iota in *.
  - pose proof (apply_full_replace_spec sampler clock templates policy reminder budget w) as Hf.
    destruct (apply_full_replace_compaction _ _ _ _ _ _ w) as [[r|e] w1]; simpl in Hres, Hviews; subst res;
      rewrite Hviews; [|split; [done|by apply Hrep]].
    destruct Hf as (Hc & Hne & Hmin). eexists. split_and!; [|exact Hc|done|done].
    destruct (view_of TFullReplace (views w)); [done|simpl; lia].
  - specialize (Hpart TSteps ltac:(done) Hres Hviews).
    destruct res as [r|e]; [|split; [done|by apply Hrep]].
    destruct Hpart as (n & Hn & Hc & Hmin & Hlt & Hsafe). by exists n.
  - specialize (Hpart THistory ltac:(done) Hres Hviews).
    destruct res as [r|e]; [|split; [done|by apply Hrep]].
    destruct Hpart as (n & Hn & Hc & Hmin & Hlt & Hsafe). by exists n.
Qed.

Lemma intra_compaction_atomic_witness :
  ∃ r w', apply_intra_compaction (MockProc.always (inl (mkOutput (lit "done") []))) MockProc.clock
            MockProc.no_templates (MockProc.policy MStepsOnly) MockProc.trigger None None MockProc.start
          = (inl r, w') ∧ tokens_before r = 600 ∧ ic_min_compactable_tokens (MockProc.policy MStepsOnly) ≤ tokens_before r.
Proof.
  pose proof (intra_compaction_atomic (MockProc.always (inl (mkOutput (lit "done") []))) MockProc.clock
    MockProc.no_templates (MockProc.policy MStepsOnly) MockProc.trigger None None MockProc.start
    ltac:(discriminate)) as H.
  destruct (apply_intra_compaction _ _ _ _ _ _ _ MockProc.start) as [[r|e] w'] eqn:Hrun;
    [|vm_compute in Hrun; discriminate].
  exists r, w'. destruct H as (n & _ & _ & Hmin & _). split; [done|]. split; [|exact Hmin].
  vm_compute in Hrun. injection Hrun as <- _. reflexivity.
Defined.

(** history-then-steps is not atomic: here the history pass commits, the
    steps pass then fails, and the call reports an error although the history
    has been replaced by a summary. *)
Theorem history_then_steps_not_atomic :
  let sampler := λ n (_ : list Mock.MockItem) (_ : CompactionPrompt) (_ : Z),
    match n with O => inl (mkOutput (lit "done") []) | _ => inr (SEBuild (lit "no model")) end in
  let out := apply_intra_compaction sampler MockProc.clock MockProc.no_templates
               (MockProc.policy MHistoryThenSteps) MockProc.trigger None None MockProc.start in
  out.1 = inr (ESamplerBuild (lit "no model")) ∧
  w_steps out.2 = w_steps MockProc.start ∧
  length (w_history out.2) = 2%nat ∧ length (w_history MockProc.start) = 3%nat.
Proof. vm_compute. done. Qed.
