(* ===== verification/CompactionReminder.v ===== *)
(** The reminder of in-flight state appended to a compaction summary
    (src/crates/common/intellihelper-compaction/src/reminder.rs). *)
From S2P Require Import Prelude Str.

Definition NLC : rchar := 10.
Definition BACKTICK : rstr := [96].
Definition DQUOTE : rstr := [34].

Record SubagentToolNames : Type := mkToolNames { poll : rstr; cancel : rstr }.

Inductive TodoStatus : Type := TPending | TInProgress | TCompleted | TCancelled.

#[global] Instance TodoStatus_eq_dec : EqDecision TodoStatus.
Proof. solve_decision. Defined.

Definition is_actionable (s : TodoStatus) : bool :=
  match s with TPending | TInProgress => true | _ => false end.

Definition todo_tag (s : TodoStatus) : rstr :=
  match s with
  | TPending => lit "[pending]"
  | TInProgress => lit "[in_progress]"
  | TCompleted => lit "[completed]"
  | TCancelled => lit "[cancelled]"
  end.

Record TodoItem : Type := mkTodo { todo_id : rstr; todo_content : rstr; todo_status : TodoStatus }.

Record BackgroundTask : Type := mkTask {
  task_id : rstr; task_command : rstr; task_status : rstr; task_tool_name : option rstr;
}.

Record RunningSubagent : Type := mkSubagent {
  subagent_id : rstr; subagent_type : option rstr; description : option rstr; elapsed_secs : Z;
}.

Record ActiveAgentReminderState : Type := mkReminderState {
  running_commands : list BackgroundTask;
  todos : list TodoItem;
  running_subagents : list RunningSubagent;
}.

Definition has_actionable_todos (s : ActiveAgentReminderState) : bool :=
  existsb (λ t, is_actionable (todo_status t)) (todos s).

Definition reminder_is_empty (s : ActiveAgentReminderState) : bool :=
  (length (running_commands s) =? 0)%nat && (length (running_subagents s) =? 0)%nat
  && negb (has_actionable_todos s).

(** * Sections *)

Definition task_line (t : BackgroundTask) : rstr :=
  lit "- " ++ DQUOTE ++ task_id t ++ DQUOTE ++ lit ": " ++ BACKTICK ++ task_command t ++ BACKTICK
  ++ lit " (" ++ task_status t
  ++ match task_tool_name t with Some tool => lit ", " ++ tool ++ lit ")" | None => lit ")" end.

Definition section_background_tasks (tasks : list BackgroundTask) : option rstr :=
  match tasks with
  | [] => None
  | _ => Some (lit "## Running Background Tasks" ++ [NLC] ++ lit "These tasks are still running:" ++ [NLC]
                 ++ join [NLC] (task_line <$> tasks))
  end.

Definition todo_line (t : TodoItem) : rstr :=
  lit "- " ++ todo_tag (todo_status t) ++ lit " " ++ todo_id t ++ lit ": " ++ todo_content t.

Definition count_status (s : TodoStatus) (l : list TodoItem) : Z :=
  countb (λ t, bool_decide (todo_status t = s)) l.

Definition todo_trailer (completed cancelled : Z) : rstr :=
  if (completed =? 0) && (cancelled =? 0) then []
  else if cancelled =? 0 then [NLC] ++ lit "(" ++ fmt_dec completed ++ lit " completed)"
  else if completed =? 0 then [NLC] ++ lit "(" ++ fmt_dec cancelled ++ lit " cancelled)"
  else [NLC] ++ lit "(" ++ fmt_dec completed ++ lit " completed, " ++ fmt_dec cancelled ++ lit " cancelled)".

Definition section_todo_list (l : list TodoItem) : option rstr :=
  match filter (λ t, is_actionable (todo_status t)) l with
  | [] => None
  | active =>
      Some (lit "## TODO List" ++ [NLC]
        ++ lit "This is your task list from before the conversation was compacted "
        ++ [8212] ++ lit " it is still active. Keep working through the items below and update their status as you make progress:"
        ++ [NLC] ++ join [NLC] (todo_line <$> active)
        ++ todo_trailer (count_status TCompleted l) (count_status TCancelled l))
  end.

Definition format_subagent_line (s : RunningSubagent) : rstr :=
  lit "- subagent_id: " ++ BACKTICK ++ subagent_id s ++ BACKTICK
  ++ match subagent_type s with Some ty => lit ", type: " ++ BACKTICK ++ ty ++ BACKTICK | None => [] end
  ++ match description s with Some d => lit ", task: " ++ DQUOTE ++ d ++ DQUOTE | None => [] end
  ++ lit " (running for " ++ fmt_dec (elapsed_secs s) ++ lit "s)".

Definition section_running_subagents (subagents : list RunningSubagent) (tools : SubagentToolNames)
    : option rstr :=
  match subagents with
  | [] => None
  | _ =>
      Some (lit "## Running Subagents" ++ [NLC]
        ++ lit "These subagents were launched before this compaction and are still running. Use "
        ++ BACKTICK ++ poll tools ++ BACKTICK
        ++ lit " with the subagent_id to check their status or retrieve results. Use "
        ++ BACKTICK ++ cancel tools ++ BACKTICK ++ lit " with the subagent_id to cancel a subagent."
        ++ [NLC] ++ join [NLC] (format_subagent_line <$> subagents))
  end.

Definition option_list {A} (o : option A) : list A := match o with Some a => [a] | None => [] end.

Definition format_active_agent_sections (s : ActiveAgentReminderState)
    (tools : option SubagentToolNames) : list rstr :=
  option_list (section_background_tasks (running_commands s))
  ++ option_list (section_todo_list (todos s))
  ++ option_list (t ← tools; section_running_subagents (running_subagents s) t).

(** The [for] loop of [wrap_system_reminder]. *)
Fixpoint reminder_body (body : rstr) (sections : list rstr) : rstr :=
  match sections with
  | [] => body
  | s :: sections' =>
      if is_empty (trim s) then reminder_body body sections'
      else reminder_body ((if is_empty body then body else body ++ [NLC; NLC]) ++ s) sections'
  end.

Definition wrap_system_reminder (sections : list rstr) : option rstr :=
  match reminder_body [] sections with
  | [] => None
  | body => Some (lit "<system-reminder>" ++ [NLC] ++ body ++ [NLC] ++ lit "</system-reminder>")
  end.

Definition format_active_agent_reminder (s : ActiveAgentReminderState)
    (tools : option SubagentToolNames) : option rstr :=
  wrap_system_reminder (format_active_agent_sections s tools).

Example todo_reminder :
  format_active_agent_reminder
    (mkReminderState [] [mkTodo (lit "1") (lit "fix") TPending; mkTodo (lit "2") (lit "x") TCompleted] []) None
  = Some (lit "<system-reminder>" ++ [NLC] ++ lit "## TODO List" ++ [NLC]
      ++ lit "This is your task list from before the conversation was compacted " ++ [8212]
      ++ lit " it is still active. Keep working through the items below and update their status as you make progress:"
      ++ [NLC] ++ lit "- [pending] 1: fix" ++ [NLC] ++ lit "(1 completed)" ++ [NLC] ++ lit "</system-reminder>").
Proof. reflexivity. Qed.

(** * Lemmas *)

Lemma infix_join sep s l : s ∈ l → infix s (join sep l).
Proof.
  induction l as [|x l IH]; [by intros ?%elem_of_nil|].
  intros [->|Hin]%elem_of_cons; destruct l as [|y l]; cbn [join].
  - exists [], []. by rewrite app_nil_r.
  - by exists [], (sep ++ join sep (y :: l)).
  - by apply elem_of_nil in Hin.
  - apply infix_app_r, infix_app_r, IH, Hin.
Qed.

Lemma infix_here s t : infix s (s ++ t).
Proof. by exists [], t. Qed.

Lemma infix_trans a b c : infix a b → infix b c → infix a c.
Proof. intros (x & y & ->) (u & v & ->). exists (u ++ x), (y ++ v). by rewrite <- !app_assoc. Qed.

(** A section that starts with its title is not blank. *)
Lemma title_not_blank (s : rstr) : trim (35 :: s) ≠ [].
Proof.
  unfold trim, trim_end. simpl. rewrite reverse_cons. intros H%(f_equal reverse).
  rewrite reverse_involutive in H. change (reverse []) with (@nil rchar) in H. revert H.
  generalize (reverse s). intros r. induction r as [|c r IH]; cbn [app trim_start]; [done|]. destruct (is_whitespace c); [exact IH|done].
Qed.

Definition titled (s : rstr) : Prop := ∃ r, s = 35 :: r.

Lemma sections_titled s tools : Forall titled (format_active_agent_sections s tools).
Proof.
  assert (Ho : ∀ o, (∀ x, o = Some x → titled x) → Forall titled (option_list o))
    by (intros [x|] Hx; simpl; constructor; [by apply Hx|constructor]).
  unfold format_active_agent_sections. rewrite !Forall_app. split_and!; apply Ho.
  - unfold section_background_tasks. destruct (running_commands s); [done|]. intros x [= <-]. by eexists.
  - unfold section_todo_list. destruct (filter _ (todos s)); [done|]. intros x [= <-]. by eexists.
  - destruct tools as [t|]; [|done]. simpl. unfold section_running_subagents.
    destruct (running_subagents s); [done|]. intros x [= <-]. by eexists.
Qed.

Lemma reminder_body_spec sections body :
  Forall titled sections →
  (reminder_body body sections = [] ↔ body = [] ∧ sections = []) ∧ infix body (reminder_body body sections) ∧
  ∀ s, s ∈ sections → infix s (reminder_body body sections).
Proof.
  intros Hall. revert body. induction Hall as [|s sections [r ->] _ IH]; intros body; simpl.
  - split_and!; [tauto|exists [], []; by rewrite app_nil_r|by intros s ?%elem_of_nil].
  - pose proof (title_not_blank r) as Hb. destruct (trim (35 :: r)); [done|]. simpl is_empty. cbn iota.
    set (b1 := (if is_empty body then body else body ++ [NLC; NLC]) ++ 35 :: r).
    destruct (IH b1) as (Hnil & Hpre & Hin). split_and!.
    + rewrite Hnil. split; [|by intros []]. intros [Hb1 _]. unfold b1 in Hb1.
      by apply app_nil in Hb1 as [_ ?].
    + apply (infix_trans _ b1); [|done]. unfold b1. apply infix_app_l. destruct body; [apply infix_nil|apply infix_here].
    + intros s [->|Hs]%elem_of_cons; [|by apply Hin]. apply (infix_trans _ b1); [|done].
      unfold b1. apply infix_app_r. exists [], []. by rewrite app_nil_r.
Qed.

Lemma wrap_none sections : Forall titled sections → wrap_system_reminder sections = None ↔ sections = [].
Proof.
  intros Hall. destruct (reminder_body_spec sections [] Hall) as (Hnil & _). unfold wrap_system_reminder.
  destruct (reminder_body [] sections) as [|c b]; [|].
  - split; [|done]. intros _. by apply Hnil.
  - split; [done|]. intros Hs. pose proof (proj2 Hnil (conj eq_refl Hs)). done.
Qed.

Lemma todo_section_none l :
  section_todo_list l = None ↔ existsb (λ t, is_actionable (todo_status t)) l = false.
Proof.
  unfold section_todo_list. induction l as [|t l IH]; [done|]. rewrite filter_cons. cbn [existsb].
  destruct (is_actionable (todo_status t)) eqn:Ht.
  - by rewrite decide_True.
  - rewrite decide_False by by intros []. simpl.
    destruct (filter _ l); [|split; [done|]]; [tauto|]. intros Hl. by apply IH in Hl.
Qed.

(** * Theorems *)

(** the reminder.  There is none exactly when nothing is running and no
    todo is actionable, subagents counting only when their tools are known;
    and when there is one, it holds, verbatim, the line of every running task,
    of every actionable todo, and of every subagent whose tools are known. *)
Theorem active_agent_reminder_complete s tools :
  (format_active_agent_reminder s tools = None ↔
     running_commands s = [] ∧ has_actionable_todos s = false ∧ (tools = None ∨ running_subagents s = [])) ∧
  (∀ r, format_active_agent_reminder s tools = Some r →
     (∀ t, t ∈ running_commands s → infix (task_line t) r) ∧
     (∀ t, t ∈ todos s → is_actionable (todo_status t) = true → infix (todo_line t) r) ∧
     (∀ a, a ∈ running_subagents s → is_Some tools → infix (format_subagent_line a) r)).
Proof.
  pose proof (sections_titled s tools) as Htitled. unfold format_active_agent_reminder. split.
  - rewrite (wrap_none _ Htitled). unfold format_active_agent_sections, has_actionable_todos.
    rewrite <- todo_section_none. unfold section_background_tasks.
    destruct (running_commands s); simpl; [|naive_solver].
    destruct (section_todo_list (todos s)); simpl; [naive_solver|].
    destruct tools as [t|]; simpl; [|naive_solver]. unfold section_running_subagents.
    destruct (running_subagents s); simpl; naive_solver.
  - intros r Hr. destruct (reminder_body_spec _ [] Htitled) as (_ & _ & Hin). revert Hr.
    unfold wrap_system_reminder. set (body := reminder_body [] (format_active_agent_sections s tools)) in *.
    intros Hr. assert (Hbody : infix body r).
    { destruct body as [|c b]; [done|]. match type of Hr with Some ?x = Some r => assert (r = x) as -> by congruence end.
      apply infix_app_r, infix_app_r, infix_here. }
    assert (Hsec : ∀ sec line, sec ∈ format_active_agent_sections s tools → infix line sec → infix line r).
    { intros sec line Hs Hl. apply (infix_trans _ _ _ Hl), (infix_trans _ body); [by apply Hin|done]. }
    unfold format_active_agent_sections in Hsec. split_and!.
    + intros t Ht. unfold section_background_tasks in Hsec. destruct (running_commands s) as [|t0 ts]; [by apply elem_of_nil in Ht|].
      eapply Hsec; [by apply elem_of_app; left; left|]. do 4 apply infix_app_r.
      apply infix_join. by apply list_elem_of_fmap_2.
    + intros t Ht Hact. assert (Hf : t ∈ filter (λ t, is_actionable (todo_status t)) (todos s)).
      { apply list_elem_of_filter. by rewrite Hact. }
      unfold section_todo_list in Hsec. destruct (filter _ (todos s)) as [|t0 ts]; [by apply elem_of_nil in Hf|].
      eapply Hsec; [apply elem_of_app; right; by apply elem_of_app; left; left|]. do 6 apply infix_app_r.
      apply infix_app_l, infix_join. by apply list_elem_of_fmap_2.
    + intros a Ha [t ->]. simpl in Hsec. unfold section_running_subagents in Hsec.
      destruct (running_subagents s) as [|a0 rest]; [by apply elem_of_nil in Ha|].
      eapply Hsec; [apply elem_of_app; right; apply elem_of_app; right; by left|]. do 12 apply infix_app_r.
      apply infix_join. by apply list_elem_of_fmap_2.
Qed.
