(* ===== verification/CompactionInter.v ===== *)
(** Inter-compaction: the chunked pipeline
    (src/crates/common/intellihelper-compaction/src/inter_compaction/:
    compact.rs, config.rs). *)
From S2P Require Import Prelude Str CompactionItem CompactionSelect CompactionHistory CompactionSummary.
From S2P Require Import CompactionSample CompactionIntra.

Definition UNBOUNDED_CHUNK_LIMIT : Z := umax 32.

Record InterCompactionConfig : Type := mkInterConfig {
  it_compaction_model_name : rstr;
  it_sampling_timeout_secs : Z;
  it_compaction_strategy : CompactionStrategy;
  it_dnc_chunk_token_limit : Z;
  it_user_message_compact_threshold : Z;
}.

Record ChunkedCompactionOutput : Type := mkChunked { combined_text : rstr; analysis_text : rstr }.

Definition CHUNK_OPEN : rstr := lit "<chunk_summary".
Definition CHUNK_CLOSE : rstr := lit "</chunk_summary>".

(** One block of the combined text. *)
Definition chunk_block (i : nat) (output : LlmCompactionOutput) : rstr :=
  CHUNK_OPEN ++ lit " index=" ++ QUOTE ++ fmt_dec (Z.of_nat i) ++ QUOTE ++ lit ">" ++ NL
  ++ response output ++ NL ++ CHUNK_CLOSE ++ NLNL.

Definition combine_chunks (preamble : rstr) (outputs : list LlmCompactionOutput) : rstr :=
  preamble ++ concat (imap chunk_block outputs).

Definition combine_analysis (outputs : list LlmCompactionOutput) : rstr :=
  concat (imap (λ i o, wrap_chunk_analysis (Z.of_nat i) (thinking o)) outputs).

Section inter.
Context {T : Type} `{CompactionItemBuilder T, !ItemTokenCounter T}.
Context (sampler : nat → list T → CompactionPrompt → Z → Reply) (templates : Templates).

Abbreviation M A := (St (World T) A).

Definition flush_chunk (turns : list T) (config : InterCompactionConfig)
    : M (LlmCompactionOutput + CompactionSampleError) :=
  let prompt := mkPrompt (compaction_developer_prompt templates) (compaction_user_prompt templates) in
  result ← sample_compaction sampler turns prompt (it_sampling_timeout_secs config);
  _ ← observe true (on_chunk_sampled (match result with inl _ => true | inr _ => false end));
  mret result.

(** Flush before adding this item? *)
Definition must_flush (limit : Z) (compactable : list T) (chunk_tokens turn_tokens : Z) : bool :=
  negb (length compactable =? 0)%nat && negb (limit =? UNBOUNDED_CHUNK_LIMIT)
  && (limit <? sat_add 32 chunk_tokens turn_tokens).

(** The [for] loop and the final flush.  [chunk_tokens +=] wraps in a
    release build. *)
Fixpoint chunk_loop (config : InterCompactionConfig) (limit : Z) (turns compactable : list T)
    (chunk_tokens : Z) (outputs : list LlmCompactionOutput)
    : M (list LlmCompactionOutput + CompactionSampleError) :=
  match turns with
  | [] =>
      match compactable with
      | [] => mret (inl outputs)
      | _ => output ←? flush_chunk compactable config; mret (inl (outputs ++ [output]))
      end
  | turn :: turns' =>
      let turn_tokens := count_item_tokens turn in
      if must_flush limit compactable chunk_tokens turn_tokens then
        output ←? flush_chunk compactable config;
        chunk_loop config limit turns' [turn] (wrap 32 (0 + turn_tokens)) (outputs ++ [output])
      else
        chunk_loop config limit turns' (compactable ++ [turn])
          (wrap 32 (chunk_tokens + turn_tokens)) outputs
  end.

Definition sample_compaction_chunked (turns : list T) (current_user_queries : option rstr)
    (config : InterCompactionConfig) : M (ChunkedCompactionOutput + CompactionSampleError) :=
  let run limit :=
    let filtered := filter_turns_for_inter_compaction turns in
    match filtered with
    | [] => mret (inr (SEOther (lit "No turns remaining after filtering")))
    | _ =>
        match separate_prior_user_queries filtered with
        | None => mret (inr SEEmptyResponse)
        | Some separated =>
            outputs ←? chunk_loop config limit (turns_for_llm separated) [] 0 [];
            _ ← (if has_prior_compaction separated
                 then observe true (on_recompaction (strategy_label (it_compaction_strategy config)))
                 else mret tt);
            let preamble := assemble_user_queries_preamble (prior_user_queries separated)
                              current_user_queries in
            _ ← observe true (on_chunk_count (zlen outputs));
            mret (inl (mkChunked (combine_chunks preamble outputs) (combine_analysis outputs)))
        end
    end in
  match it_compaction_strategy config with
  | SBasic => run UNBOUNDED_CHUNK_LIMIT
  | SDivideAndConquer => run (it_dnc_chunk_token_limit config)
  | SFullReplace =>
      mret (inr (SEBuild (lit "full_replace must be routed through the event-proc compact_conversation helper")))
  end.

(** * The chunk plan

    What the loop means to do, as a function of the items alone. *)
Fixpoint chunk_plan (limit : Z) (turns compactable : list T) (chunk_tokens : Z) : list (list T) :=
  match turns with
  | [] => match compactable with [] => [] | _ => [compactable] end
  | turn :: turns' =>
      let n := count_item_tokens turn in
      if must_flush limit compactable chunk_tokens n
      then compactable :: chunk_plan limit turns' [turn] n
      else chunk_plan limit turns' (compactable ++ [turn]) (wrap 32 (chunk_tokens + n))
  end.

(** Sampling the chunks of a plan one after the other. *)
Fixpoint sample_chunks (config : InterCompactionConfig) (chunks : list (list T))
    (outputs : list LlmCompactionOutput) : M (list LlmCompactionOutput + CompactionSampleError) :=
  match chunks with
  | [] => mret (inl outputs)
  | chunk :: chunks' =>
      output ←? flush_chunk chunk config; sample_chunks config chunks' (outputs ++ [output])
  end.

Lemma chunk_loop_plan config limit turns compactable tokens outputs w :
  chunk_loop config limit turns compactable tokens outputs w
  = sample_chunks config (chunk_plan limit turns compactable tokens) outputs w.
Proof.
  revert compactable tokens outputs w.
  induction turns as [|t turns IH]; intros compactable tokens outputs w; cbn [chunk_loop chunk_plan].
  - by destruct compactable.
  - assert (Hw : wrap 32 (0 + count_item_tokens t) = count_item_tokens t)
      by (rewrite Z.add_0_l; apply wrap_id, count_item_tokens_u32).
    destruct (must_flush _ _ _ _); [|apply IH]. cbn [sample_chunks].
    rewrite !try_bind_run, Hw. destruct (flush_chunk _ _ w).1; [apply IH|done].
Qed.

(** The plan cuts the items, in order, into nonempty chunks. *)
Lemma chunk_plan_concat limit turns compactable tokens :
  concat (chunk_plan limit turns compactable tokens) = compactable ++ turns ∧
  Forall (λ c, c ≠ []) (chunk_plan limit turns compactable tokens).
Proof.
  revert compactable tokens. induction turns as [|t turns IH]; intros compactable tokens; cbn [chunk_plan].
  - destruct compactable; simpl; [done|]. rewrite !app_nil_r. split; [done|]. by repeat constructor.
  - destruct (must_flush _ _ _ _) eqn:Hf.
    + destruct (IH [t] (count_item_tokens t)) as [Hc Hne]. cbn [concat]. rewrite Hc. split; [done|].
      constructor; [|done]. intros ->. done.
    + destruct (IH (compactable ++ [t]) (wrap 32 (tokens + count_item_tokens t))) as [Hc Hne].
      rewrite Hc, <- app_assoc. done.
Qed.

Definition chunk_sum (c : list T) : Z := foldr Z.add 0 (token_counts c).

(** With a real limit, each is within it or is a single item. *)
Lemma chunk_plan_limit limit turns compactable :
  0 ≤ limit < UNBOUNDED_CHUNK_LIMIT →
  (length compactable ≤ 1)%nat ∨ chunk_sum compactable ≤ limit →
  Forall (λ c, (length c ≤ 1)%nat ∨ chunk_sum c ≤ limit)
    (chunk_plan limit turns compactable (chunk_sum compactable)).
Proof.
  intros Hlim. revert compactable. induction turns as [|t turns IH]; intros compactable Hc; cbn [chunk_plan].
  - destruct compactable; [constructor|by constructor; [|constructor]].
  - pose proof (count_item_tokens_u32 t) as [Ht0 Ht1].
    assert (Hsingle : chunk_sum [t] = count_item_tokens t) by (unfold chunk_sum, token_counts; simpl; lia).
    unfold must_flush. rewrite (proj2 (Z.eqb_neq limit UNBOUNDED_CHUNK_LIMIT)) by lia. simpl.
    destruct compactable as [|x compactable].
    { simpl. change (chunk_sum []) with 0. rewrite Z.add_0_l, wrap_id by done.
      rewrite <- Hsingle. apply IH. left. simpl. lia. }
    simpl. destruct (Z.ltb_spec limit (sat_add 32 (chunk_sum (x :: compactable)) (count_item_tokens t))) as [|Hle].
    + rewrite <- Hsingle. constructor; [done|]. apply IH. left. simpl. lia.
    + assert (Hnn : 0 ≤ chunk_sum (x :: compactable)) by (apply foldr_add_nonneg; auto with rust).
      unfold UNBOUNDED_CHUNK_LIMIT in Hlim. unfold sat_add in Hle.
      assert (Hsum : chunk_sum ((x :: compactable) ++ [t]) = chunk_sum (x :: compactable) + count_item_tokens t).
      { unfold chunk_sum. rewrite token_counts_app, foldr_add_app. f_equal. exact Hsingle. }
      rewrite wrap_id, <- Hsum by (unfold uint; lia). apply IH. right. lia.
Qed.

(** Without one, there is a single chunk. *)
Lemma chunk_plan_unbounded turns compactable tokens :
  (length (chunk_plan UNBOUNDED_CHUNK_LIMIT turns compactable tokens) ≤ 1)%nat.
Proof.
  revert compactable tokens. induction turns as [|t turns IH]; intros compactable tokens; cbn [chunk_plan].
  - destruct compactable; simpl; lia.
  - unfold must_flush. rewrite Z.eqb_refl. simpl. rewrite andb_false_r. apply IH.
Qed.

Definition chunk_prompt : CompactionPrompt :=
  mkPrompt (compaction_developer_prompt templates) (compaction_user_prompt templates).

(** One call per chunk, in order, up to the first error. *)
Lemma sample_chunks_spec config chunks outputs w :
  match sample_chunks config chunks outputs w with
  | (inl outs, w') =>
      views w' = views w ∧ w_calls w' = (w_calls w + length chunks)%nat ∧
      ∃ new, outs = outputs ++ new ∧
        Forall2 (λ ic o, sampler (w_calls w + ic.1)%nat ic.2 chunk_prompt (it_sampling_timeout_secs config) = inl o)
          (imap pair chunks) new
  | (inr e, w') =>
      views w' = views w ∧
      ∃ i c, chunks !! i = Some c ∧ w_calls w' = S (w_calls w + i) ∧
        sampler (w_calls w + i)%nat c chunk_prompt (it_sampling_timeout_secs config) = inr e
  end.
Proof.
  revert outputs w. induction chunks as [|c chunks IH]; intros outputs w; cbn [sample_chunks].
  - simpl. split_and!; [done|lia|]. exists []. by rewrite app_nil_r.
  - rewrite try_bind_run. unfold flush_chunk. rewrite !bind_run. fold chunk_prompt.
    set (w1 := (sample_compaction sampler c chunk_prompt (it_sampling_timeout_secs config) w).2).
    change (sample_compaction sampler c chunk_prompt (it_sampling_timeout_secs config) w).1
      with (sampler (w_calls w) c chunk_prompt (it_sampling_timeout_secs config)).
    destruct (sampler (w_calls w) c chunk_prompt _) as [o|e] eqn:Hr.
    + simpl. set (w2 := mkWorld _ _ _ _ _). specialize (IH (outputs ++ [o]) w2).
      assert (Hc2 : w_calls w2 = S (w_calls w)) by done. assert (Hv2 : views w2 = views w) by done.
      clearbody w2. destruct (sample_chunks config chunks (outputs ++ [o]) w2) as [[outs|e] w'].
      * destruct IH as (Hv & Hc & new & -> & Hnew). split_and!; [congruence|lia|].
        exists (o :: new). rewrite <- app_assoc. split; [done|]. constructor; [by rewrite Nat.add_0_r|].
        assert (imap (pair ∘ S) chunks = (λ ic, (S ic.1, ic.2)) <$> imap pair chunks) as ->
          by (by rewrite fmap_imap).
        apply Forall2_fmap_l. eapply Forall2_impl; [exact Hnew|].
        intros [i x] y. simpl. rewrite Hc2. by rewrite Nat.add_succ_r.
      * destruct IH as (Hv & i & x & Hx & Hc & He). split; [congruence|].
        exists (S i), x. rewrite Hc, Hc2 in *. split_and!; [done|lia|by rewrite Nat.add_succ_r].
    + simpl. split; [done|]. exists 0%nat, c. rewrite Nat.add_0_r. done.
Qed.
End inter.

(** * Lemmas: the combined text *)

Lemma split_nil p : p ≠ [] → split_at_first p [] = None.
Proof. by destruct p. Qed.

Lemma matches_fuel p s n m :
  p ≠ [] → (length s ≤ n)%nat → (length s ≤ m)%nat → count_matches n p s = count_matches m p s.
Proof.
  intros Hp. assert (H0 : ∀ n, count_matches n p [] = 0).
  { intros [|k]; [done|]. cbn [count_matches]. by rewrite split_nil. }
  revert s m. induction n as [|n IH]; intros s m Hn Hm.
  - destruct s; [by rewrite !H0|simpl in Hn; lia].
  - destruct m as [|m]; [destruct s; [by rewrite !H0|simpl in Hm; lia]|]. cbn [count_matches].
    destruct (split_at_first p s) as [[a b]|] eqn:Hs; [|done].
    apply split_at_first_spec in Hs. apply (f_equal length) in Hs. rewrite !length_app in Hs.
    assert ((0 < length p)%nat) by (destruct p; [done|simpl; lia]). f_equal. apply IH; lia.
Qed.

(** A tag [p] cannot start in [x] and end in a [p] put after it. *)
Definition fresh (p x : rstr) : Prop := ¬ infix p (x ++ removelast p).

Lemma matches_fresh p b t : p ≠ [] → fresh p b → matches_count p (b ++ p ++ t) = 1 + matches_count p t.
Proof.
  intros Hp Hb. unfold matches_count.
  assert (Hl : length (b ++ p ++ t) = (length b + (length p + length t))%nat) by by rewrite !length_app.
  assert ((0 < length p)%nat) by (destruct p; [done|simpl; lia]).
  destruct (length (b ++ p ++ t)) as [|n]; [lia|].
  cbn [count_matches]. rewrite split_at_first_fresh by done. f_equal. apply matches_fuel; [done|lia|lia].
Qed.

Lemma matches_none p s : ¬ infix p s → matches_count p s = 0.
Proof.
  intros Hs. unfold matches_count. destruct (length s); [done|]. simpl.
  by rewrite (proj2 (split_at_first_none p s) Hs).
Qed.

Lemma infix_removelast p : p ≠ [] → ¬ infix p (removelast p).
Proof.
  intros Hp Hi%infix_length. destruct p as [|c p _] using rev_ind; [done|].
  rewrite removelast_last, length_app in Hi. simpl in Hi. lia.
Qed.

(** Text that is empty or ends in a newline. *)
Definition line_end (x : rstr) : Prop := x = [] ∨ ∃ x', x = x' ++ NL.

Section tags.
(** A one-line tag without quotes. *)
Context (p : rstr) (Hp : p ≠ []) (Hnl : 10 ∉ p) (Hq : 34 ∉ p).

Lemma fresh_line_end x : line_end x → ¬ infix p x → fresh p x.
Proof.
  unfold fresh. intros [->|[x' ->]] Hx; [by apply infix_removelast|]. unfold NL in *.
  rewrite <- app_assoc. simpl. intros [Hi|Hi]%infix_break; [|by apply infix_removelast in Hi|done].
  apply Hx. by apply infix_app_l.
Qed.

Lemma clean_lines x y : line_end x → ¬ infix p x → ¬ infix p y → ¬ infix p (x ++ y).
Proof.
  intros [->|[x' ->]] Hx Hy; [done|]. unfold NL in *. rewrite <- app_assoc. simpl.
  intros [Hi|Hi]%infix_break; [|done|done]. apply Hx. by apply infix_app_l.
Qed.

Lemma clean_nl x y : ¬ infix p x → ¬ infix p y → ¬ infix p (x ++ NL ++ y).
Proof. intros Hx Hy. unfold NL. simpl. intros [Hi|Hi]%infix_break; done. Qed.

Lemma clean_quote x y : ¬ infix p x → ¬ infix p y → ¬ infix p (x ++ QUOTE ++ y).
Proof. intros Hx Hy. unfold QUOTE. simpl. intros [Hi|Hi]%infix_break; done. Qed.
End tags.

Lemma tag_not_digits p s : 60 ∈ p → Forall is_digit s → ¬ infix p s.
Proof.
  intros Hin Hs (a & b & ->). rewrite !Forall_app in Hs. destruct Hs as (_ & Hp & _).
  eapply Forall_forall in Hp; [|exact Hin]. unfold is_digit in Hp. lia.
Qed.

(** A block between its own tags. *)
Definition block_head (i : nat) : rstr :=
  lit " index=" ++ QUOTE ++ fmt_dec (Z.of_nat i) ++ QUOTE ++ lit ">".

Lemma chunk_block_eq i o :
  chunk_block i o = CHUNK_OPEN ++ block_head i ++ NL ++ response o ++ NL ++ CHUNK_CLOSE ++ NLNL.
Proof. unfold chunk_block, block_head. by rewrite <- !app_assoc. Qed.

Definition plain_response (o : LlmCompactionOutput) : Prop :=
  ¬ infix CHUNK_OPEN (response o) ∧ ¬ infix CHUNK_CLOSE (response o).

Ltac no_infix := let Hi := fresh in intros Hi; apply contains_str_spec in Hi; vm_compute in Hi; discriminate Hi.
Ltac in_list := apply (bool_decide_unpack _); vm_compute; exact I.

Lemma open_nl : 10 ∉ CHUNK_OPEN. Proof. in_list. Qed.
Lemma open_q : 34 ∉ CHUNK_OPEN. Proof. in_list. Qed.
Lemma open_lt : 60 ∈ CHUNK_OPEN. Proof. in_list. Qed.
Lemma close_nl : 10 ∉ CHUNK_CLOSE. Proof. in_list. Qed.
Lemma close_q : 34 ∉ CHUNK_CLOSE. Proof. in_list. Qed.
Lemma close_lt : 60 ∈ CHUNK_CLOSE. Proof. in_list. Qed.

#[local] Hint Resolve open_nl open_q open_lt close_nl close_q close_lt : core.

Lemma count_opens x k outputs :
  line_end x → ¬ infix CHUNK_OPEN x → Forall plain_response outputs →
  matches_count CHUNK_OPEN (x ++ concat (imap (λ i o, chunk_block (k + i) o) outputs)) = zlen outputs.
Proof.
  intros Hx Hclean Hall. revert x k Hx Hclean.
  induction Hall as [|o outputs [Ho _] _ IH]; intros x k Hx Hclean.
  - cbn [imap concat]. rewrite app_nil_r. by apply matches_none.
  - rewrite imap_cons. cbn [concat]. rewrite chunk_block_eq, <- (app_assoc CHUNK_OPEN), matches_fresh by (done || by apply fresh_line_end).
    rewrite zlen_cons, Z.add_comm. f_equal.
    rewrite Nat.add_0_r. set (body := block_head k ++ NL ++ response o ++ NL ++ CHUNK_CLOSE ++ NLNL).
    rewrite <- (IH body (S k)).
    + f_equal. f_equal. f_equal. apply imap_ext. intros i y _. simpl. f_equal. lia.
    + right. exists (block_head k ++ NL ++ response o ++ NL ++ CHUNK_CLOSE ++ NL). unfold body, NLNL, NL.
      by rewrite <- !app_assoc.
    + unfold body, block_head. rewrite <- !app_assoc.
      apply clean_quote; [done|no_infix|]. apply clean_quote; [done|by apply tag_not_digits, fmt_dec_digits|].
      apply clean_nl; [done|no_infix|]. apply clean_nl; [done|done|no_infix].
Qed.

Lemma count_closes x k outputs :
  line_end x → ¬ infix CHUNK_CLOSE x → Forall plain_response outputs →
  matches_count CHUNK_CLOSE (x ++ concat (imap (λ i o, chunk_block (k + i) o) outputs)) = zlen outputs.
Proof.
  intros Hx Hclean Hall. revert x k Hx Hclean.
  induction Hall as [|o outputs [_ Ho] _ IH]; intros x k Hx Hclean.
  - cbn [imap concat]. rewrite app_nil_r. by apply matches_none.
  - rewrite imap_cons. cbn [concat]. rewrite chunk_block_eq, Nat.add_0_r.
    set (rest := concat _).
    replace (x ++ (CHUNK_OPEN ++ block_head k ++ NL ++ response o ++ NL ++ CHUNK_CLOSE ++ NLNL) ++ rest)
      with ((x ++ CHUNK_OPEN ++ block_head k ++ NL ++ response o ++ NL) ++ CHUNK_CLOSE ++ NLNL ++ rest)
      by by rewrite <- !app_assoc.
    rewrite matches_fresh; [|done|].
    + rewrite zlen_cons, Z.add_comm. f_equal. rewrite <- (IH NLNL (S k)).
      * f_equal. f_equal. unfold rest. f_equal. apply imap_ext. intros i y _. simpl. f_equal. lia.
      * right. by exists NL.
      * no_infix.
    + apply fresh_line_end; [done|done| |].
      * right. exists (x ++ CHUNK_OPEN ++ block_head k ++ NL ++ response o). by rewrite <- !app_assoc.
      * apply clean_lines; [done|done|done|]. unfold block_head. rewrite <- !app_assoc, app_assoc.
        apply clean_quote; [done|no_infix|].
        apply clean_quote; [done|by apply tag_not_digits, fmt_dec_digits|].
        apply clean_nl; [done|no_infix|]. apply clean_nl; [done|done|no_infix].
Qed.

Lemma preamble_line_end prior current : line_end (assemble_user_queries_preamble prior current).
Proof.
  unfold assemble_user_queries_preamble, line_end, NLNL, NL. destruct current as [c|].
  - right. eexists. by rewrite (app_assoc _ _ [10; 10]), (app_assoc _ [10] [10]).
  - rewrite app_nil_r. destruct prior as [p|]; [|by left]. right. exists (p ++ [10]). by rewrite <- app_assoc.
Qed.

(** * Theorems *)

Definition chunk_limit (config : InterCompactionConfig) : Z :=
  match it_compaction_strategy config with
  | SDivideAndConquer => it_dnc_chunk_token_limit config
  | _ => UNBOUNDED_CHUNK_LIMIT
  end.

(** C6: the chunked pipeline.  The items left after filtering and separating
    the prior queries are cut, in order and without loss, into nonempty
    chunks, one for the basic strategy, and for divide-and-conquer each within
    the token limit unless it is a single item; each chunk is sampled once, in
    order; the first sampler error ends the pipeline and is its result;
    otherwise the output is the preamble and one block per chunk.  The
    conversation is left alone. *)
Theorem chunked_pipeline_spec {T} `{CompactionItemBuilder T, !ItemTokenCounter T}
    sampler templates (turns : list T) current config (w : World T) :
  it_compaction_strategy config ≠ SFullReplace → uint 32 (chunk_limit config) →
  ∃ sep, separate_prior_user_queries (filter_turns_for_inter_compaction turns) = Some sep ∧
  let plan := chunk_plan (chunk_limit config) (turns_for_llm sep) [] 0 in
  let asked i c := sampler i c (chunk_prompt templates) (it_sampling_timeout_secs config) in
  concat plan = turns_for_llm sep ∧ Forall (λ c, c ≠ []) plan ∧
  (if decide (chunk_limit config = UNBOUNDED_CHUNK_LIMIT) then (length plan ≤ 1)%nat
   else Forall (λ c, (length c ≤ 1)%nat ∨ chunk_sum c ≤ chunk_limit config) plan) ∧
  match sample_compaction_chunked sampler templates turns current config w with
  | (inl out, w') =>
      views w' = views w ∧ w_calls w' = (w_calls w + length plan)%nat ∧
      ∃ outputs, Forall2 (λ ic o, asked (w_calls w + ic.1)%nat ic.2 = inl o) (imap pair plan) outputs ∧
        out = mkChunked (combine_chunks (assemble_user_queries_preamble (prior_user_queries sep) current) outputs)
                (combine_analysis outputs)
  | (inr e, w') =>
      views w' = views w ∧
      (filter_turns_for_inter_compaction turns = [] ∨
       ∃ i c, plan !! i = Some c ∧ w_calls w' = S (w_calls w + i) ∧ asked (w_calls w + i)%nat c = inr e)
  end.
Proof.
  intros Hst Hlim.
  destruct (separate_loop_spec (filter_turns_for_inter_compaction turns) (mkSeparated [] None false))
    as (sep & Hsep & _). fold (separate_prior_user_queries (filter_turns_for_inter_compaction turns)) in Hsep.
  exists sep. split; [done|]. cbv zeta.
  destruct (chunk_plan_concat (chunk_limit config) (turns_for_llm sep) [] 0) as [Hcat Hne].
  split_and!; [done|done| |].
  { case_decide as Hu; [rewrite Hu; apply chunk_plan_unbounded|].
    apply (chunk_plan_limit (chunk_limit config) _ []); [|left; simpl; lia].
    unfold UNBOUNDED_CHUNK_LIMIT in *. unfold uint in Hlim. lia. }
  pose proof (sample_chunks_spec sampler templates config
    (chunk_plan (chunk_limit config) (turns_for_llm sep) [] 0) [] w) as Hs.
  rewrite <- chunk_loop_plan in Hs. unfold sample_compaction_chunked, chunk_limit in *.
  destruct (it_compaction_strategy config) eqn:Hstr; [| |done];
    (destruct (filter_turns_for_inter_compaction turns) as [|t0 ts] eqn:Hf; [by split; [|left]|]);
    rewrite Hsep, try_bind_run;
    destruct (chunk_loop sampler templates config _ (turns_for_llm sep) [] 0 [] w) as [[outs|e] w']; cbn [fst snd].
  1,3: rewrite !bind_run; destruct Hs as (Hv & Hc & new & -> & Hnew); cbn [mret St_ret fst snd];
    rewrite app_nil_l; (split_and!; [|by destruct (has_prior_compaction sep)|by exists new]);
    destruct (has_prior_compaction sep); exact Hv.
  all: destruct Hs as (Hv & i & c & Hs); split; [exact Hv|right; by exists i, c].
Qed.

Definition dnc_config : InterCompactionConfig := mkInterConfig [] 60 SDivideAndConquer 100 1000.

Lemma chunked_pipeline_spec_witness :
  ∃ out w', sample_compaction_chunked (MockProc.always (inl (mkOutput (lit "s") []))) MockProc.no_templates
      [Mock.user 60; Mock.tool 9; Mock.assistant 50; Mock.user 40] None dnc_config MockProc.start
    = (inl out, w') ∧ w_calls w' = 2%nat.
Proof.
  destruct (chunked_pipeline_spec (MockProc.always (inl (mkOutput (lit "s") []))) MockProc.no_templates
    [Mock.user 60; Mock.tool 9; Mock.assistant 50; Mock.user 40] None dnc_config MockProc.start
    ltac:(discriminate) ltac:(vm_compute; by split)) as (sep & Hsep & _ & _ & _ & H).
  destruct (sample_compaction_chunked _ _ _ _ _ _) as [[out|e] w'] eqn:Hrun;
    [|vm_compute in Hrun; discriminate].
  exists out, w'. split; [done|]. destruct H as (_ & Hc & _). rewrite Hc.
  vm_compute in Hsep. injection Hsep as <-. reflexivity.
Defined.

(** what the pipeline writes, the validator accepts: with chunk tags
    neither in the preamble nor in the model's answers, the combined text of a
    nonempty run has as many opening as closing chunk tags, one per chunk. *)
Theorem combined_text_validates prior current outputs strategy :
  outputs ≠ [] → Forall plain_response outputs →
  let preamble := assemble_user_queries_preamble prior current in
  ¬ infix CHUNK_OPEN preamble → ¬ infix CHUNK_CLOSE preamble →
  validate_compaction_text (combine_chunks preamble outputs) strategy = inl tt ∧
  matches_count CHUNK_OPEN (combine_chunks preamble outputs) = zlen outputs.
Proof.
  intros Hne Hall preamble Ho Hc. pose proof (preamble_line_end prior current) as Hl.
  pose proof (count_opens preamble 0 outputs Hl Ho Hall) as Hopen.
  pose proof (count_closes preamble 0 outputs Hl Hc Hall) as Hclose.
  change (matches_count CHUNK_OPEN (combine_chunks preamble outputs) = zlen outputs) in Hopen.
  change (matches_count CHUNK_CLOSE (combine_chunks preamble outputs) = zlen outputs) in Hclose.
  split; [|exact Hopen]. unfold validate_compaction_text.
  assert (Hblank : is_empty (trim (combine_chunks preamble outputs)) = false).
  { destruct outputs as [|o outputs]; [done|]. unfold combine_chunks. rewrite imap_cons. cbn [concat].
    set (txt := preamble ++ _). assert (Hlt : 60 ∈ txt).
    { unfold txt. rewrite chunk_block_eq. rewrite !elem_of_app. right. left. left. apply open_lt. }
    destruct (trim txt) as [|c t] eqn:Ht; [exfalso|done].
    assert (Hws : Forall (λ c, is_whitespace c = true) txt) by by apply trim_nil_inv.
    eapply Forall_forall in Hws; [|exact Hlt]. vm_compute in Hws. discriminate. }
  rewrite Hblank. destruct strategy; [done| |done].
  fold CHUNK_OPEN CHUNK_CLOSE. rewrite Hopen, Hclose. by rewrite Z.eqb_refl.
Qed.

Lemma combined_text_validates_witness :
  validate_compaction_text (combine_chunks [] [mkOutput (lit "one") []; mkOutput (lit "two") []]) SDivideAndConquer
  = inl tt.
Proof.
  refine (proj1 (combined_text_validates None None [mkOutput (lit "one") []; mkOutput (lit "two") []]
    SDivideAndConquer _ _ _ _)).
  - discriminate.
  - repeat constructor; no_infix.
  - no_infix.
  - no_infix.
Defined.
