(* ===== verification/Path.v ===== *)
(** Unix paths as the standard library's [Path] sees them: strings joined
    with [/] and compared component by component, without looking at the file
    system.  A path is a Rust string here, so it is UTF-8; the lossy
    conversions of the source are the identity on it. *)
From S2P Require Import Prelude Str.

Definition SEP : rchar := 47.

Definition is_absolute (p : rstr) : bool := match p with c :: _ => c =? SEP | [] => false end.

Definition ends_with_sep (p : rstr) : bool := match last p with Some c => c =? SEP | None => false end.

(** [Path::join]: an absolute right-hand side replaces the left one. *)
Definition path_join (p q : rstr) : rstr :=
  if is_absolute q then q
  else if is_empty p || ends_with_sep p then p ++ q
  else p ++ [SEP] ++ q.

Inductive Component : Type := RootDir | CurDir | ParentDir | Normal (name : rstr).

#[global] Instance Component_eq_dec : EqDecision Component.
Proof. solve_decision. Defined.

Definition segment_component (s : rstr) : option Component :=
  if decide (s = [] ∨ s = lit ".") then None
  else if decide (s = lit "..") then Some ParentDir
  else Some (Normal s).

(** [Path::components]: repeated separators and inner [.] are skipped, a
    leading [.] of a relative path is kept. *)
Definition components (p : rstr) : list Component :=
  let segments := split_char SEP p in
  (if is_absolute p then [RootDir]
   else if decide (head segments = Some (lit ".")) then [CurDir] else [])
  ++ omap segment_component segments.

(** [Path::starts_with], [Path::file_name]. *)
Definition path_starts_with (p base : rstr) : bool := bool_decide (components base `prefix_of` components p).

Definition file_name (p : rstr) : option rstr :=
  match last (components p) with Some (Normal name) => Some name | _ => None end.

Definition has_parent_dir (p : rstr) : bool := existsb (λ c, bool_decide (c = ParentDir)) (components p).

(** One component that names an entry of a directory. *)
Definition plain_name (name : rstr) : Prop :=
  name ≠ [] ∧ name ≠ lit "." ∧ name ≠ lit ".." ∧ (SEP ∉ name).

Lemma split_char_pieces sep s piece : piece ∈ split_char sep s → sep ∉ piece.
Proof.
  revert piece. induction s as [|c s IH]; intros piece; simpl.
  - intros ->%list_elem_of_singleton. by apply not_elem_of_nil.
  - destruct (Z.eqb_spec c sep) as [->|Hne].
    + intros [->|Hin]%elem_of_cons; [by apply not_elem_of_nil|by apply IH].
    + destruct (split_char sep s) as [|x xs].
      * intros ->%list_elem_of_singleton. rewrite list_elem_of_singleton. congruence.
      * intros [->|Hin]%elem_of_cons; [|by apply IH; right].
        rewrite elem_of_cons. intros [?|Hin]; [congruence|].
        revert Hin. apply IH. left.
Qed.

Lemma file_name_plain p name : file_name p = Some name → plain_name name.
Proof.
  unfold file_name. destruct (last (components p)) as [[]|] eqn:E; try done. intros [= ->].
  apply last_Some_elem_of in E. unfold components in E. apply elem_of_app in E as [E|E].
  { repeat case_match; first [apply list_elem_of_singleton in E|apply elem_of_nil in E]; done. }
  apply list_elem_of_omap in E as (s & Hs & Hsc). unfold segment_component in Hsc.
  repeat case_decide; simplify_eq. apply split_char_pieces in Hs.
  unfold plain_name. naive_solver.
Qed.

Lemma split_char_cons sep c s : c ≠ sep → ∃ x xs, split_char sep (c :: s) = (c :: x) :: xs.
Proof.
  intros Hc. simpl. rewrite (proj2 (Z.eqb_neq c sep) Hc). destruct (split_char sep s); eauto.
Qed.

Lemma split_char_sep sep p q : split_char sep (p ++ sep :: q) = split_char sep p ++ split_char sep q.
Proof.
  induction p as [|c p IH]; simpl; [by rewrite Z.eqb_refl|].
  destruct (c =? sep); [by rewrite IH|]. rewrite IH.
  assert (split_char sep p ≠ []) by (destruct p; simpl; repeat case_match; done).
  by destruct (split_char sep p).
Qed.

Lemma split_char_snoc sep p : split_char sep (p ++ [sep]) = split_char sep p ++ [[]].
Proof. apply (split_char_sep sep p []). Qed.

Lemma plain_name_split name : plain_name name → split_char SEP name = [name].
Proof.
  intros (_ & _ & _ & Hsep). apply split_char_none, Forall_forall. by intros c Hc ->.
Qed.

(** Joining one name to a nonempty path adds exactly one component. *)
Lemma components_join p name :
  p ≠ [] → plain_name name → components (path_join p name) = components p ++ [Normal name].
Proof.
  intros Hp Hn. pose proof (plain_name_split _ Hn) as Hsplit.
  destruct Hn as (Hne & Hdot & Hdots & Hsep).
  assert (is_absolute name = false) as Habs.
  { destruct name as [|c name]; [done|]. simpl. apply Z.eqb_neq. intros ->. apply Hsep. left. }
  assert (segment_component name = Some (Normal name)) as Hseg.
  { unfold segment_component. rewrite decide_False by naive_solver. by rewrite decide_False. }
  unfold path_join. rewrite Habs. destruct p as [|c p]; [done|].
  replace (is_empty (c :: p)) with false by done. cbn [orb].
  destruct (ends_with_sep (c :: p)) eqn:Hend.
  - assert (∃ p', c :: p = p' ++ [SEP]) as [p' Hp'].
    { unfold ends_with_sep in Hend. destruct (last (c :: p)) as [d|] eqn:El; [|done].
      apply last_Some in El as [p' El]. apply Z.eqb_eq in Hend as ->. eauto. }
    rewrite Hp', <- app_assoc. unfold components. rewrite split_char_snoc. cbn [app].
    rewrite split_char_sep, Hsplit, !omap_app. cbn [omap list_omap].
    rewrite Hseg. cbn. rewrite app_nil_r, app_assoc.
    f_equal. f_equal. destruct p' as [|d p']; [done|]. simpl.
    destruct (d =? SEP); [done|]. by destruct (split_char SEP p').
  - unfold components. cbn [app]. rewrite app_comm_cons, split_char_sep, Hsplit, omap_app.
    cbn [omap list_omap]. rewrite Hseg. rewrite app_assoc. f_equal. f_equal. simpl.
    destruct (c =? SEP); [done|]. by destruct (split_char SEP p).
Qed.

Lemma path_join_inj p a b :
  is_absolute a = false → is_absolute b = false → path_join p a = path_join p b → a = b.
Proof.
  unfold path_join. intros -> ->. destruct (is_empty p || ends_with_sep p); intros H.
  - by apply app_inv_head in H.
  - by apply app_inv_head, app_inv_head in H.
Qed.
