(* ===== verification/TextOffsets.v ===== *)
(** Byte offsets into a text, as slices and searches of Rust's Standard Library
    take and give them.  An offset inside a character or behind the end makes a
    slice panic: [None]. *)
From S2P Require Import Prelude Str Truncate.

(** [s.split_at(n)]. *)
Fixpoint split_bytes (n : Z) (s : rstr) : option (rstr * rstr) :=
  if n =? 0 then Some ([], s)
  else match s with
       | [] => None
       | c :: s =>
           if n <? len_utf8 c then None
           else '(a, b) ← split_bytes (n - len_utf8 c) s; Some (c :: a, b)
       end.

(** [&s[..n]], [&s[n..]], [&s[a..b]]. *)
Definition byte_to (n : Z) (s : rstr) : option rstr := fst <$> split_bytes n s.
Definition byte_from (n : Z) (s : rstr) : option rstr := snd <$> split_bytes n s.
Definition byte_slice (a b : Z) (s : rstr) : option rstr := r ← byte_from a s; byte_to (b - a) r.

(** [s.match_indices(p)]: the offsets of the matches that do not overlap, from
    the left.  A match takes at least one character, so the length of the text
    bounds their number. *)
Fixpoint match_indices_from (fuel : nat) (offset : Z) (p s : rstr) : list Z :=
  match fuel with
  | O => []
  | S fuel =>
      match split_at_first p s with
      | Some (before, after) =>
          let start := offset + byte_len before in
          start :: match_indices_from fuel (start + byte_len p) p after
      | None => []
      end
  end.
Definition match_indices (p s : rstr) : list Z := match_indices_from (length s) 0 p s.

(** [s.matches('\n').count()]. *)
Definition newlines (s : rstr) : nat := length (List.filter (Z.eqb 10) s).

(** [s.split_inclusive('\n')]. *)
Fixpoint split_inclusive (s : rstr) : list rstr :=
  match s with
  | [] => []
  | c :: s =>
      if c =? 10 then [10] :: split_inclusive s
      else match split_inclusive s with
           | l :: ls => (c :: l) :: ls
           | [] => [[c]]
           end
  end.

(** [s.rfind('\n')]. *)
Fixpoint rfind_newline_from (offset : Z) (s : rstr) : option Z :=
  match s with
  | [] => None
  | c :: s =>
      match rfind_newline_from (offset + len_utf8 c) s with
      | Some i => Some i
      | None => if c =? 10 then Some offset else None
      end
  end.
Definition rfind_newline (s : rstr) : option Z := rfind_newline_from 0 s.

(** [&l[a..b]] of a slice. *)
Definition list_slice {A} (a b : nat) (l : list A) : option (list A) :=
  if (a <=? b)%nat && (b <=? length l)%nat then Some (take (b - a) (drop a l)) else None.

(** * Slices *)

Lemma byte_len_pos c s : 0 < byte_len (c :: s).
Proof. rewrite byte_len_cons. pose proof (len_utf8_bounds c). pose proof (byte_len_nonneg s). lia. Qed.

Lemma split_bytes_app a b : split_bytes (byte_len a) (a ++ b) = Some (a, b).
Proof.
  induction a as [|c a IH]; [by destruct b|]. cbn [app split_bytes].
  pose proof (byte_len_pos c a). pose proof (byte_len_nonneg a). rewrite byte_len_cons in *.
  rewrite (proj2 (Z.eqb_neq _ _)) by lia. rewrite (proj2 (Z.ltb_ge _ _)) by lia.
  replace (len_utf8 c + byte_len a - len_utf8 c) with (byte_len a) by lia. by rewrite IH.
Qed.

Lemma split_bytes_inv n s a b : split_bytes n s = Some (a, b) → s = a ++ b ∧ n = byte_len a.
Proof.
  revert n a. induction s as [|c s IH]; intros n a H; simpl in H.
  - destruct (Z.eqb_spec n 0); [|done]. by simplify_eq.
  - destruct (Z.eqb_spec n 0); [by simplify_eq|]. destruct (n <? len_utf8 c); [done|].
    destruct (split_bytes (n - len_utf8 c) s) as [[a' b']|] eqn:E; simpl in H; [|done]. simplify_eq.
    destruct (IH _ _ E) as [-> Hn]. split; [done|]. rewrite byte_len_cons. lia.
Qed.

Lemma byte_slice_app a m b : byte_slice (byte_len a) (byte_len a + byte_len m) (a ++ m ++ b) = Some m.
Proof.
  unfold byte_slice, byte_from, byte_to. rewrite split_bytes_app. simpl.
  replace (byte_len a + byte_len m - byte_len a) with (byte_len m) by lia. by rewrite split_bytes_app.
Qed.

Lemma byte_from_app a b : byte_from (byte_len a) (a ++ b) = Some b.
Proof. unfold byte_from. by rewrite split_bytes_app. Qed.

Lemma byte_to_app a b : byte_to (byte_len a) (a ++ b) = Some a.
Proof. unfold byte_to. by rewrite split_bytes_app. Qed.

Lemma byte_slice_inv i j s m : byte_slice i j s = Some m → ∃ a b, s = a ++ m ++ b ∧ i = byte_len a ∧ j = byte_len a + byte_len m.
Proof.
  unfold byte_slice, byte_from, byte_to. destruct (split_bytes i s) as [[a r]|] eqn:E; simpl; [|done].
  destruct (split_bytes (j - i) r) as [[m' b]|] eqn:E'; simpl; [|done]. intros [= ->].
  apply split_bytes_inv in E as [-> ->]. apply split_bytes_inv in E' as [-> Hj]. exists a, b. split; [done|]. lia.
Qed.

(** Of two boundaries, the lower one is reached first. *)
Lemma byte_prefixes (a b x y : rstr) : a ++ b = x ++ y → byte_len a ≤ byte_len x → ∃ m, x = a ++ m.
Proof.
  revert x. induction a as [|c a IH]; intros x H Hl; [by exists x|].
  destruct x as [|d x]; [pose proof (byte_len_pos c a); simpl in *; lia|].
  injection H as -> H. rewrite !byte_len_cons in Hl. destruct (IH x H ltac:(lia)) as [m ->]. by exists m.
Qed.

(** * Occurrences *)

(** [pieces] cut the text at its matches: nothing of [p] in any of them but the
    straddles, and the matches between them. *)
Fixpoint pieces_from (fuel : nat) (p s : rstr) : list rstr :=
  match fuel with
  | O => [s]
  | S fuel => match split_at_first p s with Some (before, after) => before :: pieces_from fuel p after | None => [s] end
  end.
Definition pieces (p s : rstr) : list rstr := pieces_from (length s) p s.

Lemma pieces_from_join fuel p s : join p (pieces_from fuel p s) = s.
Proof.
  revert s. induction fuel as [|fuel IH]; intros s; simpl; [done|].
  destruct (split_at_first p s) as [[before after]|] eqn:E; [|done].
  apply split_at_first_spec in E as ->. specialize (IH after).
  destruct (pieces_from fuel p after) as [|x xs] eqn:Hx; [by destruct fuel; simpl in Hx; repeat case_match|].
  cbn [join] in *. by rewrite IH.
Qed.

Lemma pieces_from_replace fuel p q s : replace_fuel fuel p q s = join q (pieces_from fuel p s).
Proof.
  revert s. induction fuel as [|fuel IH]; intros s; simpl; [done|].
  destruct (split_at_first p s) as [[before after]|] eqn:E; [|done]. rewrite IH.
  destruct (pieces_from fuel p after) as [|x xs] eqn:Hx; [by destruct fuel; simpl in Hx; repeat case_match|]. done.
Qed.

Lemma pieces_from_count fuel offset p s : length (pieces_from fuel p s) = S (length (match_indices_from fuel offset p s)).
Proof.
  revert offset s. induction fuel as [|fuel IH]; intros offset s; simpl; [done|].
  destruct (split_at_first p s) as [[before after]|]; [|done]. simpl. by rewrite <- IH.
Qed.
