(* ===== verification/ToolDisk.v ===== *)
(** The files that the tools of
    src/crates/codegen/intellihelper-tools read and write: [AsyncFileSystem] of
    computer/types.rs, and the notifications of notification/types.rs.

    The disk is what its files hold, with the calls made to it and the
    notifications sent.  What the system does is a parameter: where a path leads
    ([locate]: links, dots), and how a call fails. *)
From S2P Require Import Prelude Str Path.

(** [std::io::ErrorKind], as far as the tools tell the kinds apart. *)
Inductive ErrorKind : Type := NotFound | AlreadyExists | InvalidFilename | IsADirectory | PermissionDenied | OtherKind.
Record ComputerError : Type := mkComputerError { ce_text : rstr; io_error_kind : option ErrorKind }.

Inductive FsCall : Type :=
| FsRead (path : rstr)
| FsWrite (path : rstr) (data : list Z)
| FsDelete (path : rstr)
| FsCreateDirs (parent : list Component).

(** A failing call: its error, and what a failing write left of the file. *)
Record Fault : Type := mkFault { fault_error : ComputerError; fault_left : option (list Z) }.

Record FileWritten : Type := mkWritten {
  fw_tool_call_id : rstr;
  fw_absolute_path : rstr;
  fw_content : rstr;
  fw_previous_content : option rstr;
  fw_is_new_file : bool;
}.

Record Disk : Type := mkDisk {
  files : gmap rstr (list Z);
  calls : list FsCall;
  written : list FileWritten;
}.
#[global] Instance Disk_eta : Eta Disk := λ d, mkDisk (files d) (calls d) (written d).

Class System := {
  locate : rstr → rstr;
  fails : list FsCall → FsCall → option Fault;
  missing : rstr → rstr;
}.

Open Scope record_scope.

(** [Ok], [Err] with the text of a [ToolError], or a panic ([None]). *)
Definition Result (A : Type) : Type := A + option rstr.

Section Disk.
Context `{!System}.

Definition log_call (c : FsCall) (d : Disk) : Disk := d <| calls := calls d ++ [c] |>.

Definition no_such_file (path : rstr) : ComputerError := mkComputerError (missing path) (Some NotFound).

Definition fs_read_file (path : rstr) : St Disk (list Z + ComputerError) := λ d,
  let c := FsRead path in
  (match fails (calls d) c with
   | Some f => inr (fault_error f)
   | None => match files d !! locate path with Some bytes => inl bytes | None => inr (no_such_file path) end
   end, log_call c d).

Definition fs_write_file (path : rstr) (data : list Z) : St Disk (unit + ComputerError) := λ d,
  let c := FsWrite path data in
  match fails (calls d) c with
  | Some f =>
      (inr (fault_error f),
       log_call c (match fault_left f with Some bytes => d <| files := <[locate path := bytes]> (files d) |> | None => d end))
  | None => (inl tt, log_call c (d <| files := <[locate path := data]> (files d) |>))
  end.

Definition fs_delete_file (path : rstr) : St Disk (unit + ComputerError) := λ d,
  let c := FsDelete path in
  match fails (calls d) c with
  | Some f => (inr (fault_error f), log_call c d)
  | None =>
      match files d !! locate path with
      | Some _ => (inl tt, log_call c (d <| files := delete (locate path) (files d) |>))
      | None => (inr (no_such_file path), log_call c d)
      end
  end.

Definition fs_create_dir_all (parent : list Component) : St Disk (unit + ComputerError) := λ d,
  let c := FsCreateDirs parent in
  (match fails (calls d) c with Some f => inr (fault_error f) | None => inl tt end, log_call c d).

Definition send_file_written (w : FileWritten) : St Disk unit := st_modify (λ d, d <| written := written d ++ [w] |>).

(** [e.to_string()] of the error. *)
Definition err_text {A} (m : St Disk (A + ComputerError)) : St Disk (A + rstr) :=
  r ← m; mret match r with inl a => inl a | inr e => inr (ce_text e) end.

(** * What the calls do *)

(** Nothing but calls that only read. *)
Definition unchanged (d d' : Disk) : Prop := files d' = files d ∧ written d' = written d.

Lemma unchanged_refl d : unchanged d d.
Proof. done. Qed.

Lemma unchanged_trans d1 d2 d3 : unchanged d1 d2 → unchanged d2 d3 → unchanged d1 d3.
Proof. intros [] []. split; congruence. Qed.

Lemma fs_read_unchanged path d : unchanged d (fs_read_file path d).2.
Proof. done. Qed.

(** Files outside [ps] are the same. *)
Definition same_but (ps : list rstr) (fs fs' : gmap rstr (list Z)) : Prop := ∀ p, p ∉ ps → fs' !! p = fs !! p.

Lemma same_but_refl ps fs : same_but ps fs fs.
Proof. done. Qed.

Lemma fs_write_file_spec path data d :
  match fs_write_file path data d with
  | (inl _, d') => files d' = <[locate path := data]> (files d) ∧ written d' = written d
  | (inr _, d') => same_but [locate path] (files d) (files d') ∧ written d' = written d
  end.
Proof.
  unfold fs_write_file. destruct (fails _ _) as [f|]; cbn; [|done]. destruct (fault_left f); cbn; [|done].
  split; [|done]. intros p Hp. rewrite lookup_insert_ne; [done|]. rewrite list_elem_of_singleton in Hp. congruence.
Qed.

Lemma fs_delete_file_spec path d :
  match fs_delete_file path d with
  | (inl _, d') => files d' = delete (locate path) (files d) ∧ written d' = written d
  | (inr _, d') => unchanged d d'
  end.
Proof. unfold fs_delete_file. destruct (fails _ _); cbn; [done|]. by destruct (files d !! locate path). Qed.

(** A system that fails nothing. *)
Definition reliable : Prop := ∀ log c, fails log c = None.
End Disk.
