(* ===== verification/ApplyPatch.v ===== *)
(** The tool that applies patches
    (src/crates/codegen/intellihelper-tools/src/implementations/codex/apply_patch):
    seek_sequence.rs finds lines, parser.rs reads a patch, apply.rs computes the
    new text of a file, tool.rs reads and writes the files. *)
From S2P Require Import Prelude Str Utf8 Path ToolDisk.

(** * Finding lines (seek_sequence.rs) *)

(** [lines[i + p_idx]] against [pattern[p_idx]], for each [p_idx]; [ls] begins
    at [i]. *)
Fixpoint all_match (eq : rstr → rstr → bool) (ls pattern : list rstr) : bool :=
  match pattern, ls with
  | [], _ => true
  | p :: pattern, l :: ls => eq l p && all_match eq ls pattern
  | _ :: _, [] => false
  end.

(** One pass: [for i in search_start..=lines.len() - pattern.len()]. *)
Definition scan_pass (eq : rstr → rstr → bool) (ls pattern : list rstr) (search_start : nat) : option nat :=
  List.find (λ i, all_match eq (drop i ls) pattern) (seq search_start (S (length ls - length pattern) - search_start)).

Definition normal_char (c : rchar) : rchar :=
  if bool_decide (c ∈ [8208; 8209; 8210; 8211; 8212; 8213; 8722]) then 45
  else if bool_decide (c ∈ [8216; 8217; 8218; 8219]) then 39
  else if bool_decide (c ∈ [8220; 8221; 8222; 8223]) then 34
  else if bool_decide (c ∈ [160; 8194; 8195; 8196; 8197; 8198; 8199; 8200; 8201; 8202; 8239; 8287; 12288]) then 32
  else c.
Definition normalise (s : rstr) : rstr := normal_char <$> trim s.

(** The four ways two lines may agree, the strictest first. *)
Definition eq_exact (l p : rstr) : bool := bool_decide (l = p).
Definition eq_rstrip (l p : rstr) : bool := bool_decide (trim_end l = trim_end p).
Definition eq_trim (l p : rstr) : bool := bool_decide (trim l = trim p).
Definition eq_normal (l p : rstr) : bool := bool_decide (normalise l = normalise p).

Definition seek_sequence (ls pattern : list rstr) (start : nat) (eof : bool) : option nat :=
  if (length pattern =? 0)%nat then Some start
  else if (length ls <? length pattern)%nat then None
  else
    let search_start := if eof && (length pattern <=? length ls)%nat then (length ls - length pattern)%nat else start in
    match scan_pass eq_exact ls pattern search_start with
    | Some i => Some i
    | None =>
        match scan_pass eq_rstrip ls pattern search_start with
        | Some i => Some i
        | None =>
            match scan_pass eq_trim ls pattern search_start with
            | Some i => Some i
            | None => scan_pass eq_normal ls pattern search_start
            end
        end
    end.

(** * Errors (errors.rs) and data (parser.rs) *)

Inductive ParseError : Type :=
| InvalidPatchError (message : rstr)
| InvalidHunkError (message : rstr) (line_number : Z).

(** [ApplyPatchError::Io] is built nowhere. *)
Inductive ApplyPatchError : Type :=
| APParse (e : ParseError)
| APComputeReplacements (message : rstr)
| APIo (context message : rstr) (path : option rstr).

Record UpdateFileChunk : Type := mkChunk {
  change_context : option rstr;
  old_lines : list rstr;
  new_lines : list rstr;
  is_end_of_file : bool;
}.

Inductive Hunk : Type :=
| AddFile (path contents : rstr)
| DeleteFile (path : rstr)
| UpdateFile (path : rstr) (move_path : option rstr) (chunks : list UpdateFileChunk).

Record ParsedPatch : Type := mkParsed { hunks : list Hunk; patch : rstr }.

#[global] Instance ParseError_eq_dec : EqDecision ParseError.
Proof. solve_decision. Defined.
#[global] Instance UpdateFileChunk_eq_dec : EqDecision UpdateFileChunk.
Proof. solve_decision. Defined.
#[global] Instance Hunk_eq_dec : EqDecision Hunk.
Proof. solve_decision. Defined.

(** * The new text of a file (apply.rs) *)

(** [(start_index, old_len, new_lines)]. *)
Definition Replacement : Type := nat * nat * list rstr.
Definition repl_start (r : Replacement) : nat := r.1.1.
Definition repl_len (r : Replacement) : nat := r.1.2.
Definition repl_new (r : Replacement) : list rstr := r.2.

(** The empty line at the end of a list of lines. *)
Definition ends_blank (ls : list rstr) : bool := is_some_and is_empty (last ls).

(** [lines.remove(start_idx)], [old_len] times while there is such a line. *)
Fixpoint remove_lines (old_len start_idx : nat) (ls : list rstr) : list rstr :=
  match old_len with
  | O => ls
  | S old_len => remove_lines old_len start_idx (if (start_idx <? length ls)%nat then delete start_idx ls else ls)
  end.

(** [Vec::insert], which panics behind the end. *)
Definition vec_insert {A} (i : nat) (a : A) (l : list A) : option (list A) :=
  if (i <=? length l)%nat then Some (take i l ++ a :: drop i l) else None.

Fixpoint insert_lines (i : nat) (new_segment ls : list rstr) : option (list rstr) :=
  match new_segment with
  | [] => Some ls
  | l :: new_segment => ls' ← vec_insert i l ls; insert_lines (S i) new_segment ls'
  end.

Definition apply_one (r : Replacement) (ls : list rstr) : option (list rstr) :=
  insert_lines (repl_start r) (repl_new r) (remove_lines (repl_len r) (repl_start r) ls).

(** The last replacement first; [None] is a panic. *)
Fixpoint apply_replacements (ls : list rstr) (replacements : list Replacement) : option (list rstr) :=
  match replacements with
  | [] => Some ls
  | r :: replacements => ls' ← apply_replacements ls replacements; apply_one r ls'
  end.

(** [sort_by] on the start, which is stable. *)
Fixpoint insert_replacement (r : Replacement) (rs : list Replacement) : list Replacement :=
  match rs with
  | [] => [r]
  | r' :: rs' => if (repl_start r <=? repl_start r')%nat then r :: rs else r' :: insert_replacement r rs'
  end.
Definition sort_replacements (rs : list Replacement) : list Replacement := foldr insert_replacement [] rs.

(** The lines that are looked for, the ones that replace them and where they
    are: without the empty line at their end when they are not found with it. *)
Definition find_old (original_lines : list rstr) (line_index : nat) (chunk : UpdateFileChunk)
    : option (nat * list rstr * list rstr) :=
  let pattern := old_lines chunk in
  let new_slice := new_lines chunk in
  match seek_sequence original_lines pattern line_index (is_end_of_file chunk) with
  | Some i => Some (i, pattern, new_slice)
  | None =>
      if ends_blank pattern then
        let pattern := removelast pattern in
        let new_slice := if ends_blank new_slice then removelast new_slice else new_slice in
        i ← seek_sequence original_lines pattern line_index (is_end_of_file chunk);
        Some (i, pattern, new_slice)
      else None
  end.

(** One pass of the loop: the replacement and the line to go on from. *)
Definition chunk_replacement (original_lines : list rstr) (path : rstr) (line_index : nat) (chunk : UpdateFileChunk)
    : (Replacement * nat) + ApplyPatchError :=
  let after_context :=
    match change_context chunk with
    | Some ctx_line =>
        match seek_sequence original_lines [ctx_line] line_index false with
        | Some idx => inl (S idx)
        | None => inr (APComputeReplacements (lit "Failed to find context '" ++ ctx_line ++ lit "' in " ++ path))
        end
    | None => inl line_index
    end in
  match after_context with
  | inr e => inr e
  | inl line_index =>
      match old_lines chunk with
      | [] =>
          let insertion_idx :=
            if ends_blank original_lines then (length original_lines - 1)%nat else length original_lines in
          inl ((insertion_idx, 0%nat, new_lines chunk), line_index)
      | _ :: _ =>
          match find_old original_lines line_index chunk with
          | Some (start_idx, pattern, new_slice) =>
              inl ((start_idx, length pattern, new_slice), (start_idx + length pattern)%nat)
          | None =>
              inr (APComputeReplacements
                     (lit "Failed to find expected lines in " ++ path ++ lit ":" ++ [10] ++ join [10] (old_lines chunk)))
          end
      end
  end.

Fixpoint chunk_replacements (original_lines : list rstr) (path : rstr) (line_index : nat) (chunks : list UpdateFileChunk)
    : list Replacement + ApplyPatchError :=
  match chunks with
  | [] => inl []
  | chunk :: chunks =>
      match chunk_replacement original_lines path line_index chunk with
      | inr e => inr e
      | inl (r, line_index) =>
          match chunk_replacements original_lines path line_index chunks with
          | inr e => inr e
          | inl rs => inl (r :: rs)
          end
      end
  end.

Definition compute_replacements (original_lines : list rstr) (path : rstr) (chunks : list UpdateFileChunk)
    : list Replacement + ApplyPatchError :=
  match chunk_replacements original_lines path 0 chunks with
  | inl rs => inl (sort_replacements rs)
  | inr e => inr e
  end.

(** The lines of a file: no empty one behind the last line feed. *)
Definition file_lines (original_content : rstr) : list rstr :=
  let ls := split_char 10 original_content in
  if ends_blank ls then removelast ls else ls.

Definition final_newline (new_lines : list rstr) : list rstr :=
  if ends_blank new_lines then new_lines else new_lines ++ [[]].

(** [None] is a panic. *)
Definition derive_new_contents (original_content path : rstr) (chunks : list UpdateFileChunk)
    : option (rstr + ApplyPatchError) :=
  let original_lines := file_lines original_content in
  match compute_replacements original_lines path chunks with
  | inr e => Some (inr e)
  | inl replacements =>
      new_lines ← apply_replacements original_lines replacements;
      Some (inl (join [10] (final_newline new_lines)))
  end.

(** * The parser (parser.rs) *)

Definition BEGIN_PATCH_MARKER : rstr := lit "*** Begin Patch".
Definition END_PATCH_MARKER : rstr := lit "*** End Patch".
Definition ADD_FILE_MARKER : rstr := lit "*** Add File: ".
Definition DELETE_FILE_MARKER : rstr := lit "*** Delete File: ".
Definition UPDATE_FILE_MARKER : rstr := lit "*** Update File: ".
Definition MOVE_TO_MARKER : rstr := lit "*** Move to: ".
Definition EOF_MARKER : rstr := lit "*** End of File".
Definition CHANGE_CONTEXT_MARKER : rstr := lit "@@ ".
Definition EMPTY_CHANGE_CONTEXT_MARKER : rstr := lit "@@".
Definition PARSE_IN_STRICT_MODE : bool := false.

Inductive ParseMode : Type := Strict | Lenient.

Definition DOUBLE_QUOTE : rchar := 34.
Definition SPACE : rchar := 32.
Definition PLUS : rchar := 43.
Definition MINUS : rchar := 45.

Definition check_start_and_end_lines_strict (first_line last_line : option rstr) : unit + ParseError :=
  match trim <$> first_line, trim <$> last_line with
  | Some first, Some last =>
      if bool_decide (first = BEGIN_PATCH_MARKER) && bool_decide (last = END_PATCH_MARKER) then inl tt
      else if bool_decide (first ≠ BEGIN_PATCH_MARKER)
      then inr (InvalidPatchError (lit "The first line of the patch must be '*** Begin Patch'"))
      else inr (InvalidPatchError (lit "The last line of the patch must be '*** End Patch'"))
  | Some first, None =>
      if bool_decide (first ≠ BEGIN_PATCH_MARKER)
      then inr (InvalidPatchError (lit "The first line of the patch must be '*** Begin Patch'"))
      else inr (InvalidPatchError (lit "The last line of the patch must be '*** End Patch'"))
  | None, _ => inr (InvalidPatchError (lit "The last line of the patch must be '*** End Patch'"))
  end.

Definition check_patch_boundaries_strict (ls : list rstr) : unit + ParseError :=
  check_start_and_end_lines_strict (head ls) (last ls).

Definition is_heredoc_start (first : rstr) : bool :=
  bool_decide (first = lit "<<EOF") || bool_decide (first = lit "<<'EOF'")
  || bool_decide (first = lit "<<" ++ [DOUBLE_QUOTE] ++ lit "EOF" ++ [DOUBLE_QUOTE]).

Definition check_patch_boundaries_lenient (original_lines : list rstr) (original_parse_error : ParseError)
    : list rstr + ParseError :=
  match original_lines, last original_lines with
  | first :: _ :: _, Some last_line =>
      if is_heredoc_start first && ends_with (lit "EOF") last_line && (4 <=? length original_lines)%nat then
        let inner_lines := removelast (tail original_lines) in
        match check_patch_boundaries_strict inner_lines with
        | inl _ => inl inner_lines
        | inr e => inr e
        end
      else inr original_parse_error
  | _, _ => inr original_parse_error
  end.

Definition push_both (l : rstr) (chunk : UpdateFileChunk) : UpdateFileChunk :=
  mkChunk (change_context chunk) (old_lines chunk ++ [l]) (new_lines chunk ++ [l]) (is_end_of_file chunk).
Definition push_new (l : rstr) (chunk : UpdateFileChunk) : UpdateFileChunk :=
  mkChunk (change_context chunk) (old_lines chunk) (new_lines chunk ++ [l]) (is_end_of_file chunk).
Definition push_old (l : rstr) (chunk : UpdateFileChunk) : UpdateFileChunk :=
  mkChunk (change_context chunk) (old_lines chunk ++ [l]) (new_lines chunk) (is_end_of_file chunk).
Definition set_eof (chunk : UpdateFileChunk) : UpdateFileChunk :=
  mkChunk (change_context chunk) (old_lines chunk) (new_lines chunk) true.

Definition unexpected_line (l : rstr) : rstr :=
  lit "Unexpected line found in update hunk: '" ++ l
  ++ lit "'. Every line should start with ' ' (context line), '+' (added line), or '-' (removed line)".

(** The loop over [lines[start_index..]]. *)
Fixpoint chunk_body (ls : list rstr) (line_number : Z) (chunk : UpdateFileChunk) (parsed_lines : nat)
    : (UpdateFileChunk * nat) + ParseError :=
  match ls with
  | [] => inl (chunk, parsed_lines)
  | l :: ls =>
      if bool_decide (l = EOF_MARKER) then
        match parsed_lines with
        | O => inr (InvalidHunkError (lit "Update hunk does not contain any lines") (line_number + 1))
        | _ => inl (set_eof chunk, S parsed_lines)
        end
      else
        match l with
        | [] => chunk_body ls line_number (push_both [] chunk) (S parsed_lines)
        | c :: rest =>
            if c =? SPACE then chunk_body ls line_number (push_both rest chunk) (S parsed_lines)
            else if c =? PLUS then chunk_body ls line_number (push_new rest chunk) (S parsed_lines)
            else if c =? MINUS then chunk_body ls line_number (push_old rest chunk) (S parsed_lines)
            else
              match parsed_lines with
              | O => inr (InvalidHunkError (unexpected_line l) (line_number + 1))
              | _ => inl (chunk, parsed_lines)
              end
        end
  end.

Definition parse_update_file_chunk (ls : list rstr) (line_number : Z) (allow_missing_context : bool)
    : (UpdateFileChunk * nat) + ParseError :=
  match ls with
  | [] => inr (InvalidHunkError (lit "Update hunk does not contain any lines") line_number)
  | first :: _ =>
      let header :=
        if bool_decide (first = EMPTY_CHANGE_CONTEXT_MARKER) then inl (None, 1%nat)
        else match strip_prefix CHANGE_CONTEXT_MARKER first with
             | Some context => inl (Some context, 1%nat)
             | None =>
                 if negb allow_missing_context then
                   inr (InvalidHunkError
                          (lit "Expected update hunk to start with a @@ context marker, got: '" ++ first ++ lit "'")
                          line_number)
                 else inl (None, 0%nat)
             end in
      match header with
      | inr e => inr e
      | inl (change_context, start_index) =>
          if (length ls <=? start_index)%nat
          then inr (InvalidHunkError (lit "Update hunk does not contain any lines") (line_number + 1))
          else
            match chunk_body (drop start_index ls) line_number (mkChunk change_context [] [] false) 0 with
            | inl (chunk, parsed_lines) => inl (chunk, (parsed_lines + start_index)%nat)
            | inr e => inr e
            end
      end
  end.

(** The chunks of an update; [parsed_lines] counts from the header of the hunk.
    [None]: the fuel, a bound on the passes of the loop, is spent. *)
Fixpoint update_chunks (fuel : nat) (remaining_lines : list rstr) (line_number : Z) (parsed_lines : nat)
    (chunks : list UpdateFileChunk) : option ((list UpdateFileChunk * nat) + ParseError) :=
  match remaining_lines with
  | [] => Some (inl (chunks, parsed_lines))
  | l :: rest =>
      match fuel with
      | O => None
      | S fuel =>
          if is_empty (trim l) then update_chunks fuel rest line_number (S parsed_lines) chunks
          else if starts_with (lit "***") l then Some (inl (chunks, parsed_lines))
          else
            match parse_update_file_chunk remaining_lines (line_number + Z.of_nat parsed_lines) (bool_decide (chunks = [])) with
            | inr e => Some (inr e)
            | inl (chunk, chunk_lines) =>
                update_chunks fuel (drop chunk_lines remaining_lines) line_number (parsed_lines + chunk_lines)%nat
                  (chunks ++ [chunk])
            end
      end
  end.

(** The lines behind the header of an addition, each without its [+]. *)
Fixpoint added_lines (ls : list rstr) : list rstr :=
  match ls with
  | (c :: l) :: ls => if c =? PLUS then l :: added_lines ls else []
  | _ => []
  end.

Definition push_line (l : rstr) : rstr := l ++ [10].

(** [lines[0]] is [first_line] before it is trimmed. *)
Definition parse_one_hunk (first : rstr) (rest : list rstr) (line_number : Z) : option ((Hunk * nat) + ParseError) :=
  let first_line := trim first in
  match strip_prefix ADD_FILE_MARKER first_line with
  | Some path =>
      let added := added_lines rest in
      Some (inl (AddFile path (added ≫= push_line), S (length added)))
  | None =>
      match strip_prefix DELETE_FILE_MARKER first_line with
      | Some path => Some (inl (DeleteFile path, 1%nat))
      | None =>
          match strip_prefix UPDATE_FILE_MARKER first_line with
          | Some path =>
              let move_path := l ← head rest; strip_prefix MOVE_TO_MARKER l in
              let moved := match move_path with Some _ => 1%nat | None => 0%nat end in
              found ← update_chunks (length rest) (drop moved rest) line_number (1 + moved)%nat [];
              match found with
              | inr e => Some (inr e)
              | inl ([], _) =>
                  Some (inr (InvalidHunkError (lit "Update file hunk for path '" ++ path ++ lit "' is empty") line_number))
              | inl (chunks, parsed_lines) => Some (inl (UpdateFile path move_path chunks, parsed_lines))
              end
          | None =>
              Some (inr (InvalidHunkError
                (lit "'" ++ first_line ++ lit "' is not a valid hunk header. Valid hunk headers: '*** Add File: {path}', '*** Delete File: {path}', '*** Update File: {path}'")
                line_number))
          end
      end
  end.

Fixpoint parse_hunks (fuel : nat) (remaining_lines : list rstr) (line_number : Z) : option (list Hunk + ParseError) :=
  match remaining_lines with
  | [] => Some (inl [])
  | first :: rest =>
      match fuel with
      | O => None
      | S fuel =>
          found ← parse_one_hunk first rest line_number;
          match found with
          | inr e => Some (inr e)
          | inl (hunk, hunk_lines) =>
              more ← parse_hunks fuel (drop hunk_lines remaining_lines) (line_number + Z.of_nat hunk_lines);
              match more with
              | inr e => Some (inr e)
              | inl hunks => Some (inl (hunk :: hunks))
              end
          end
      end
  end.

Definition parse_patch_text (patch : rstr) (mode : ParseMode) : option (ParsedPatch + ParseError) :=
  let ls := lines (trim patch) in
  let bounded :=
    match check_patch_boundaries_strict ls with
    | inl _ => inl ls
    | inr e => match mode with Strict => inr e | Lenient => check_patch_boundaries_lenient ls e end
    end in
  match bounded with
  | inr e => Some (inr e)
  | inl ls =>
      found ← parse_hunks (length ls) (removelast (tail ls)) 2;
      match found with
      | inr e => Some (inr e)
      | inl hunks => Some (inl (mkParsed hunks (join [10] ls)))
      end
  end.

Definition parse_patch (patch : rstr) : option (ParsedPatch + ParseError) :=
  parse_patch_text patch (if PARSE_IN_STRICT_MODE then Strict else Lenient).

(** * The tool (tool.rs) *)

Record ApplyPatchFileResult : Type := mkFileResult {
  fr_path : rstr;
  fr_action : rstr;
  fr_old_text : option rstr;
  fr_new_text : rstr;
  fr_move_to : option rstr;
}.

Inductive FileChange : Type :=
| FCAdd (path content : rstr)
| FCDelete (path original_content : rstr)
| FCUpdate (path original_content new_content : rstr)
| FCMove (source_path dest_path original_content new_content : rstr).

(** [ApplyPatchOutput], [Err] of a [ToolError], and a run that panics. *)
Inductive ApplyPatchOutput : Type :=
| OutSuccess (files : list ApplyPatchFileResult) (tool_output_for_prompt : rstr)
| OutParseError (message : rstr)
| OutApplicationError (message : rstr)
| OutEmptyPatch (message : rstr)
| OutToolError (message : rstr)
| OutPanic.

Section Tool.
Context `{!System}.

(** [Path::parent]. *)
Definition parent_components (path : rstr) : option (list Component) :=
  match last (components path) with
  | Some RootDir | None => None
  | Some _ => Some (removelast (components path))
  end.

Definition ensure_parent_dirs (path : rstr) : St Disk (unit + rstr) :=
  match parent_components path with
  | Some (_ :: _ as parent) => err_text (fs_create_dir_all parent)
  | _ => mret (inl tt)
  end.

Definition read_file_as_string (path : rstr) : St Disk (rstr + rstr) :=
  bytes ←? err_text (fs_read_file path); mret (inl (from_utf8_lossy bytes)).

Definition parse_error_text (e : ParseError) : rstr :=
  match e with
  | InvalidPatchError m => lit "invalid patch: " ++ m
  | InvalidHunkError m n => lit "invalid hunk at line " ++ fmt_dec n ++ lit ", " ++ m
  end.
Definition apply_error_text (e : ApplyPatchError) : rstr :=
  match e with
  | APParse e => parse_error_text e
  | APComputeReplacements message => message
  | APIo context message _ => context ++ lit ": " ++ message
  end.

Definition map_err {A} (f : rstr → rstr) (m : St Disk (A + rstr)) : St Disk (Result A) :=
  r ← m; mret match r with inl a => inl a | inr e => inr (Some (f e)) end.

Definition compute_change (cwd : rstr) (hunk : Hunk) : St Disk (Result FileChange) :=
  match hunk with
  | AddFile path contents => mret (inl (FCAdd (path_join cwd path) contents))
  | DeleteFile path =>
      let resolved := path_join cwd path in
      original_content ←? map_err (λ e, lit "Failed to read file: " ++ resolved ++ lit ", " ++ e) (read_file_as_string resolved);
      mret (inl (FCDelete resolved original_content))
  | UpdateFile path move_path chunks =>
      let resolved := path_join cwd path in
      original_content ←?
        map_err (λ e, lit "Failed to read file to update: " ++ resolved ++ lit ", " ++ e) (read_file_as_string resolved);
      mret
        match derive_new_contents original_content resolved chunks with
        | None => inr None
        | Some (inr e) => inr (Some (apply_error_text e))
        | Some (inl new_content) =>
            inl match move_path with
                | Some dest => FCMove resolved (path_join cwd dest) original_content new_content
                | None => FCUpdate resolved original_content new_content
                end
        end
  end.

Fixpoint compute_all_changes (cwd : rstr) (hs : list Hunk) : St Disk (Result (list FileChange)) :=
  match hs with
  | [] => mret (inl [])
  | hunk :: hs =>
      change ←? compute_change cwd hunk;
      changes ←? compute_all_changes cwd hs;
      mret (inl (change :: changes))
  end.

(** One pass of phase 3; [inr] is the text of a [ToolError]. *)
Definition apply_change (id : rstr) (change : FileChange) : St Disk (ApplyPatchFileResult + rstr) :=
  match change with
  | FCAdd path content =>
      _ ←? ensure_parent_dirs path;
      _ ←? err_text (fs_write_file path (as_bytes content));
      _ ← send_file_written (mkWritten id path content None true);
      mret (inl (mkFileResult path (lit "added") None content None))
  | FCDelete path original_content =>
      _ ←? err_text (fs_delete_file path);
      _ ← send_file_written (mkWritten id path [] (Some original_content) false);
      mret (inl (mkFileResult path (lit "deleted") (Some original_content) [] None))
  | FCUpdate path original_content new_content =>
      _ ←? err_text (fs_write_file path (as_bytes new_content));
      _ ← send_file_written (mkWritten id path new_content (Some original_content) false);
      mret (inl (mkFileResult path (lit "modified") (Some original_content) new_content None))
  | FCMove source_path dest_path original_content new_content =>
      _ ←? ensure_parent_dirs dest_path;
      _ ←? err_text (fs_write_file dest_path (as_bytes new_content));
      _ ←? err_text (fs_delete_file source_path);
      _ ← send_file_written (mkWritten id dest_path new_content None true);
      _ ← send_file_written (mkWritten id source_path [] (Some original_content) false);
      mret (inl (mkFileResult source_path (lit "moved") (Some original_content) new_content (Some dest_path)))
  end.

Fixpoint apply_changes (id : rstr) (changes : list FileChange) : St Disk (list ApplyPatchFileResult + rstr) :=
  match changes with
  | [] => mret (inl [])
  | change :: changes =>
      r ←? apply_change id change;
      rs ←? apply_changes id changes;
      mret (inl (r :: rs))
  end.

Definition summary_line (r : ApplyPatchFileResult) : rstr :=
  (if bool_decide (fr_action r = lit "added") then lit "A"
   else if bool_decide (fr_action r = lit "deleted") then lit "D" else lit "M") ++ lit " " ++ fr_path r ++ [10].
Definition build_summary (results : list ApplyPatchFileResult) : rstr :=
  lit "Success. Updated the following files:" ++ [10] ++ (results ≫= summary_line).

Definition parse_failure (e : ParseError) : rstr :=
  match e with
  | InvalidPatchError m => lit "Invalid patch: " ++ m
  | InvalidHunkError message line_number => lit "Invalid patch hunk on line " ++ fmt_dec line_number ++ lit ": " ++ message
  end.

Definition apply_patch (cwd id input : rstr) : St Disk ApplyPatchOutput :=
  match parse_patch input with
  | None => mret OutPanic
  | Some (inr e) => mret (OutParseError (parse_failure e))
  | Some (inl parsed) =>
      match hunks parsed with
      | [] => mret (OutEmptyPatch (lit "No files were modified."))
      | _ :: _ =>
          computed ← compute_all_changes cwd (hunks parsed);
          match computed with
          | inr None => mret OutPanic
          | inr (Some msg) => mret (OutApplicationError msg)
          | inl changes =>
              applied ← apply_changes id changes;
              mret match applied with
                   | inr e => OutToolError e
                   | inl results => OutSuccess results (build_summary results)
                   end
          end
      end
  end.
End Tool.
