(* ===== verification/ApplyPatchThms.v ===== *)
(** What the patch tool does to the text of a file: lines are found where they
    agree with the patch, replacements are spliced in from left to right, no
    insertion falls behind the end. *)
From Stdlib Require Import Sorting.Sorted.
From S2P Require Import Prelude Str Utf8 Path ApplyPatch.

(** * Trimming from both sides *)

Lemma trim_start_split s :
  ∃ ws, s = ws ++ trim_start s ∧ Forall (λ c, is_whitespace c = true) ws ∧
    match trim_start s with [] => True | c :: _ => is_whitespace c = false end.
Proof.
  induction s as [|c s (ws & Hs & Hws & Hh)]; [by exists []|]. simpl. destruct (is_whitespace c) eqn:Hc.
  - exists (c :: ws). split; [by rewrite Hs at 1|]. split; [by constructor|done].
  - by exists [].
Qed.

Lemma trim_end_split s :
  ∃ ws, s = trim_end s ++ ws ∧ Forall (λ c, is_whitespace c = true) ws ∧
    match last (trim_end s) with None => True | Some c => is_whitespace c = false end.
Proof.
  destruct (trim_start_split (reverse s)) as (ws & Hs & Hws & Hh). exists (reverse ws). unfold trim_end.
  repeat split.
  - rewrite <- reverse_app, <- Hs. by rewrite reverse_involutive.
  - by apply Forall_reverse.
  - rewrite <- head_reverse, reverse_involutive. by destruct (trim_start (reverse s)).
Qed.

Lemma trim_end_ws s ws : Forall (λ c, is_whitespace c = true) ws → trim_end (s ++ ws) = trim_end s.
Proof. intros Hws. unfold trim_end. rewrite reverse_app, trim_start_ws; [done|]. by apply Forall_reverse. Qed.

(** The order of the two cuts does not matter. *)
Lemma trim_swap s : trim s = trim_start (trim_end s).
Proof.
  unfold trim. destruct (trim_start_split s) as (ws & Hs & Hws & Hh).
  set (t := trim_start s) in *. rewrite Hs.
  destruct t as [|c t].
  - rewrite app_nil_r. rewrite <- (app_nil_l ws) at 1. rewrite trim_end_ws by done. done.
  - destruct (trim_end_split (c :: t)) as (ws' & Ht & Hws' & Hl).
    set (u := trim_end (c :: t)) in *. rewrite Ht. rewrite app_assoc, trim_end_ws by done.
    destruct u as [|c' u]; [|].
    + simpl in Ht. subst ws'. inversion Hws'; subst. congruence.
    + assert (c' = c) as -> by (by injection Ht).
      destruct (last (c :: u)) as [x|] eqn:Hx; [|by apply last_None in Hx].
      rewrite (trim_end_id (ws ++ c :: u) x); [|by rewrite last_app, Hx|done].
      rewrite trim_start_ws by done. simpl. by rewrite Hh.
Qed.

(** * Finding lines *)

(** Two lines agree up to blanks around them, dashes, quotes and spaces. *)
Definition similar (l p : rstr) : Prop := normalise l = normalise p.

Lemma exact_rstrip l p : eq_exact l p = true → eq_rstrip l p = true.
Proof. unfold eq_exact, eq_rstrip. rewrite !bool_decide_eq_true. by intros ->. Qed.

Lemma rstrip_trim l p : eq_rstrip l p = true → eq_trim l p = true.
Proof. unfold eq_rstrip, eq_trim. rewrite !bool_decide_eq_true, !trim_swap. by intros ->. Qed.

Lemma trim_normal l p : eq_trim l p = true → eq_normal l p = true.
Proof. unfold eq_trim, eq_normal, normalise. rewrite !bool_decide_eq_true. by intros ->. Qed.

Lemma normal_similar l p : eq_normal l p = true → similar l p.
Proof. unfold eq_normal. by rewrite bool_decide_eq_true. Qed.

#[local] Hint Resolve exact_rstrip rstrip_trim trim_normal normal_similar : rust.

Lemma all_match_similar eq ls p :
  (∀ l q, eq l q = true → similar l q) → all_match eq ls p = true → Forall2 similar (take (length p) ls) p.
Proof.
  intros Heq. revert ls. induction p as [|q p IH]; intros ls H; [by constructor|].
  destruct ls as [|l ls]; [done|]. simpl in H. apply andb_prop in H as [H1 H2]. constructor; auto.
Qed.

Lemma all_match_exact ls p : all_match eq_exact ls p = true ↔ ∃ rest, ls = p ++ rest.
Proof.
  revert ls. induction p as [|q p IH]; intros ls; simpl.
  { split; intros _; [by exists ls|by destruct ls]. }
  destruct ls as [|l ls].
  { split; [done|]. by intros [? ?]. }
  cbn [all_match]. rewrite andb_true_iff, IH. unfold eq_exact. rewrite bool_decide_eq_true. split.
  - intros (-> & rest & ->). by exists rest.
  - intros (rest & [= -> ->]). eauto.
Qed.

(** The first index from [n] on, below [n + k], that passes the test. *)
Lemma find_seq (f : nat → bool) n k i :
  List.find f (seq n k) = Some i ↔ (n ≤ i < n + k)%nat ∧ f i = true ∧ ∀ j, (n ≤ j < i)%nat → f j = false.
Proof.
  revert n. induction k as [|k IH]; intros n; simpl.
  - split; [done|lia].
  - destruct (f n) eqn:Hn.
    + split.
      * intros [= ->]. split; [lia|]. split; [done|]. lia.
      * intros (Hi & Hfi & Hj). destruct (decide (n = i)) as [->|]; [done|].
        rewrite (Hj n) in Hn by lia. done.
    + rewrite IH. split; intros (Hi & Hfi & Hj).
      * split; [lia|]. split; [done|]. intros j ?. destruct (decide (n = j)) as [->|]; [done|]. apply Hj. lia.
      * split; [|split; [done|]]; [|intros; apply Hj; lia].
        destruct (decide (n = i)) as [->|]; [congruence|lia].
Qed.

Lemma scan_pass_spec eq ls p s i :
  (length p ≤ length ls)%nat →
  scan_pass eq ls p s = Some i ↔
    (s ≤ i)%nat ∧ (i + length p ≤ length ls)%nat ∧ all_match eq (drop i ls) p = true ∧
    ∀ j, (s ≤ j < i)%nat → all_match eq (drop j ls) p = false.
Proof. intros Hp. unfold scan_pass. rewrite find_seq. split; intros H; decompose [and] H; repeat split; try done; lia. Qed.

Definition search_from (ls p : list rstr) (start : nat) (eof : bool) : nat :=
  if eof then (length ls - length p)%nat else start.

Lemma seek_unfold ls p start eof :
  p ≠ [] → (length p ≤ length ls)%nat →
  seek_sequence ls p start eof =
    let s := search_from ls p start eof in
    option_or (scan_pass eq_exact ls p s)
      (option_or (scan_pass eq_rstrip ls p s) (option_or (scan_pass eq_trim ls p s) (scan_pass eq_normal ls p s))).
Proof.
  intros Hp Hl. unfold seek_sequence, search_from. destruct p as [|q p]; [done|]. cbn [length Nat.eqb].
  rewrite (proj2 (Nat.ltb_ge _ _)) by done. rewrite (proj2 (Nat.leb_le _ _)) by done. rewrite andb_true_r.
  unfold option_or. by repeat case_match.
Qed.

(** What is found agrees with the pattern, and is not before the start. *)
Lemma seek_sound ls p start eof i :
  p ≠ [] → seek_sequence ls p start eof = Some i →
  (search_from ls p start eof ≤ i)%nat ∧ (i + length p ≤ length ls)%nat ∧ Forall2 similar (take (length p) (drop i ls)) p.
Proof.
  intros Hp H. destruct (decide (length p ≤ length ls)%nat) as [Hl|Hl].
  - rewrite seek_unfold in H by done. simpl in H. unfold option_or in H.
    repeat case_match; simplify_eq;
      match goal with E : scan_pass _ _ _ _ = Some _ |- _ => apply scan_pass_spec in E as (? & ? & Hm & _); [|done] end;
      (split; [done|]; split; [done|]); eapply all_match_similar; try exact Hm; auto with rust.
  - unfold seek_sequence in H. destruct p; [done|]. cbn [length Nat.eqb] in *.
    by rewrite (proj2 (Nat.ltb_lt _ _)) in H by lia.
Qed.

(** The first exact occurrence is preferred to everything else. *)
Lemma seek_exact ls p start gap rest :
  p ≠ [] → drop start ls = gap ++ p ++ rest → (start ≤ length ls)%nat →
  (∀ j, (j < length gap)%nat → all_match eq_exact (drop j (gap ++ p ++ rest)) p = false) →
  seek_sequence ls p start false = Some (start + length gap)%nat.
Proof.
  intros Hp Hd Hs Hj. assert (length ls - start = length gap + (length p + length rest))%nat as Hlen
    by (rewrite <- length_drop, Hd, !length_app; done).
  assert (length p ≤ length ls)%nat as Hl by lia.
  rewrite seek_unfold by done. cbn [search_from]. cbv zeta.
  rewrite (proj2 (scan_pass_spec _ _ _ _ (start + length gap)%nat Hl)); [done|].
  split; [lia|]. split; [lia|]. rewrite <- drop_drop, Hd. split.
  - rewrite drop_app_length. apply all_match_exact. by exists rest.
  - intros j Hj'. replace j with (start + (j - start))%nat by lia. rewrite <- drop_drop, Hd. apply Hj. lia.
Qed.

Lemma seek_at_end ls gap p start :
  p ≠ [] → ls = gap ++ p → seek_sequence ls p start true = Some (length gap).
Proof.
  intros Hp ->. assert (length p ≤ length (gap ++ p))%nat as Hl by (rewrite length_app; lia).
  rewrite seek_unfold by done. cbn [search_from]. cbv zeta.
  rewrite (proj2 (scan_pass_spec _ _ _ _ (length gap) Hl)); [done|].
  rewrite length_app. split; [lia|]. split; [lia|]. split; [|lia].
  rewrite drop_app_length. apply all_match_exact. exists []. by rewrite app_nil_r.
Qed.

(** * Replacing lines *)

Lemma remove_lines_spec n i ls : (i ≤ length ls)%nat → remove_lines n i ls = take i ls ++ drop (i + n) ls.
Proof.
  revert ls. induction n as [|n IH]; intros ls Hi; simpl.
  - by rewrite Nat.add_0_r, take_drop.
  - destruct (Nat.ltb_spec i (length ls)) as [Hlt|Hge].
    + destruct (lookup_lt_is_Some_2 ls i Hlt) as [x Hx].
      pose proof (length_delete ls i) as Hd. rewrite delete_take_drop in *. specialize (Hd ltac:(eauto)).
      rewrite IH by lia. rewrite take_app_le by (rewrite length_take; lia). rewrite take_take, Nat.min_id. f_equal.
      rewrite drop_app_ge by (rewrite length_take; lia). rewrite length_take, drop_drop. f_equal. lia.
    + rewrite IH by lia. rewrite !drop_ge by lia. done.
Qed.

Lemma insert_lines_spec i new ls :
  (i ≤ length ls)%nat → insert_lines i new ls = Some (take i ls ++ new ++ drop i ls).
Proof.
  revert i ls. induction new as [|l new IH]; intros i ls Hi; simpl.
  - by rewrite take_drop.
  - unfold vec_insert. rewrite (proj2 (Nat.leb_le _ _)) by done. simpl.
    rewrite IH by (rewrite length_app, length_take; simpl; rewrite length_drop; lia). f_equal.
    rewrite take_app, drop_app, length_take, Nat.min_l by lia.
    replace (S i - i)%nat with 1%nat by lia. cbn [take drop].
    rewrite take_take, Nat.min_r by lia. rewrite (drop_ge (take i ls)) by (rewrite length_take; lia).
    rewrite take_0. cbn. by rewrite <- app_assoc.
Qed.

Lemma apply_one_spec r ls :
  (repl_start r ≤ length ls)%nat →
  apply_one r ls = Some (take (repl_start r) ls ++ repl_new r ++ drop (repl_start r + repl_len r) ls).
Proof.
  intros Hr. unfold apply_one. rewrite remove_lines_spec by done.
  rewrite insert_lines_spec by (rewrite length_app, length_take; lia).
  rewrite take_app_le by (rewrite length_take; lia). rewrite take_take, Nat.min_id. do 2 f_equal.
  rewrite drop_app_ge by (rewrite length_take; lia). rewrite length_take. f_equal.
  by replace (repl_start r - repl_start r `min` length ls)%nat with 0%nat by lia.
Qed.

(** Starts do not decrease. *)
Definition by_start (rs : list Replacement) : Prop := Sorted (λ r r', (repl_start r ≤ repl_start r')%nat) rs.

Lemma apply_replacements_total rs ls n :
  by_start rs → Forall (λ r, (n ≤ repl_start r ≤ length ls)%nat) rs → (n ≤ length ls)%nat →
  ∃ ls', apply_replacements ls rs = Some ls' ∧ (n ≤ length ls')%nat.
Proof.
  revert n. induction rs as [|r rs IH]; intros n Hs Hr Hn; simpl; [by eauto|].
  apply Forall_cons in Hr as [Hr Hrs]. apply Sorted_StronglySorted in Hs as Hss; [|intros ???; lia].
  inversion Hss as [|? ? Hss' Hle]; subst.
  destruct (IH (repl_start r)) as (ls' & -> & Hl).
  - by inversion Hs.
  - apply Forall_forall. intros r' Hr'. rewrite Forall_forall in Hle, Hrs. specialize (Hle r' Hr'). specialize (Hrs r' Hr'). lia.
  - lia.
  - simpl. rewrite apply_one_spec by done. eexists. split; [done|]. rewrite length_app, length_take. lia.
Qed.

(** From left to right: the lines before each replacement, then its own. *)
Fixpoint splice (at_ : nat) (ls : list rstr) (rs : list Replacement) : list rstr :=
  match rs with
  | [] => drop at_ ls
  | r :: rs => take (repl_start r - at_) (drop at_ ls) ++ repl_new r ++ splice (repl_start r + repl_len r) ls rs
  end.

(** Each replacement begins where the one before it has ended. *)
Fixpoint in_order (at_ : nat) (ls : list rstr) (rs : list Replacement) : Prop :=
  match rs with
  | [] => True
  | r :: rs =>
      (at_ ≤ repl_start r)%nat ∧ (repl_start r + repl_len r ≤ length ls)%nat ∧ in_order (repl_start r + repl_len r) ls rs
  end.

Lemma apply_replacements_splice rs ls at_ :
  in_order at_ ls rs → (at_ ≤ length ls)%nat →
  apply_replacements ls rs = Some (take at_ ls ++ splice at_ ls rs).
Proof.
  revert at_. induction rs as [|r rs IH]; intros at_ Ho Hl; simpl; [by rewrite take_drop|].
  destruct Ho as (Hs & He & Ho). rewrite (IH _ Ho) by lia. simpl.
  set (s := repl_start r) in *. set (n := repl_len r) in *.
  rewrite apply_one_spec by (rewrite length_app, length_take; fold s; lia). fold s n. f_equal.
  rewrite take_app_le by (rewrite length_take; lia). rewrite take_take, Nat.min_l by lia.
  rewrite drop_app_length' by (rewrite length_take; lia).
  rewrite (app_assoc (take at_ ls)). f_equal. rewrite <- (take_drop at_ (take s ls)), take_take, Nat.min_l by lia. by rewrite skipn_firstn_comm.
Qed.

(** ** Sorting *)

Lemma insert_replacement_perm r rs : insert_replacement r rs ≡ₚ r :: rs.
Proof.
  induction rs as [|r' rs IH]; simpl; [done|]. case_match; [done|]. rewrite IH. apply Permutation_swap.
Qed.

Lemma sort_replacements_perm rs : sort_replacements rs ≡ₚ rs.
Proof. induction rs as [|r rs IH]; simpl; [done|]. by rewrite insert_replacement_perm, IH. Qed.

Lemma insert_replacement_hd r rs a : (repl_start a ≤ repl_start r)%nat → HdRel (λ r r', (repl_start r ≤ repl_start r')%nat) a rs →
  HdRel (λ r r', (repl_start r ≤ repl_start r')%nat) a (insert_replacement r rs).
Proof. intros Ha Hh. destruct Hh as [|r' rs Hr']; simpl; [by constructor|]. case_match; by constructor. Qed.

Lemma sort_replacements_sorted rs : by_start (sort_replacements rs).
Proof.
  unfold by_start. induction rs as [|r rs IH]; simpl; [constructor|].
  induction IH as [|r' rs' Hs IHs Hh]; simpl; [by repeat constructor|].
  destruct (Nat.leb_spec (repl_start r) (repl_start r')).
  - by repeat constructor.
  - constructor; [done|]. apply insert_replacement_hd; [lia|done].
Qed.

(** Replacements in order, with insertions at [n] among them: the insertions go
    behind, each kind in its own order. *)
Lemma insert_low r low high n :
  (repl_start r < n)%nat → Forall (λ r', (repl_start r ≤ repl_start r')%nat) low → Forall (λ r, repl_start r = n) high →
  insert_replacement r (low ++ high) = r :: low ++ high.
Proof.
  intros Hr Hlow Hhigh. destruct Hlow as [|r' low Hr' _]; cbn [app].
  - destruct Hhigh as [|r' high Hr' _]; simpl; [done|]. by rewrite (proj2 (Nat.leb_le _ _)) by lia.
  - simpl. by rewrite (proj2 (Nat.leb_le _ _)).
Qed.

Lemma insert_high r low high n :
  repl_start r = n → Forall (λ r, (repl_start r < n)%nat) low → Forall (λ r, repl_start r = n) high →
  insert_replacement r (low ++ high) = low ++ r :: high.
Proof.
  intros Hr Hlow Hhigh. induction Hlow as [|r' low Hr' _ IH]; cbn [app].
  - destruct Hhigh as [|r' high Hr' _]; simpl; [done|]. by rewrite (proj2 (Nat.leb_le _ _)) by lia.
  - simpl. rewrite (proj2 (Nat.leb_gt _ _)) by lia. by rewrite IH.
Qed.

(** * The replacements of a patch *)

(** The lines looked for and their replacement: both sides of the chunk, or
    both without the empty line at their end. *)
Definition sides (c : UpdateFileChunk) (old new : list rstr) : Prop :=
  (old = old_lines c ∧ new = new_lines c) ∨
  (old_lines c = old ++ [[]] ∧ new = if ends_blank (new_lines c) then removelast (new_lines c) else new_lines c).

Lemma ends_blank_spec ls : ends_blank ls = true ↔ ∃ ls', ls = ls' ++ [[]].
Proof.
  unfold ends_blank. destruct (last ls) as [l|] eqn:Hl; simpl.
  - destruct l as [|c l]; simpl; split; try done.
    + intros _. by apply last_Some.
    + intros [ls' ->]. by rewrite last_snoc in Hl.
  - apply last_None in Hl as ->. split; [done|]. intros [ls' Hl]. by destruct ls'.
Qed.

Lemma removelast_snoc {A} (l : list A) a : removelast (l ++ [a]) = l.
Proof. rewrite removelast_app by done. simpl. by rewrite app_nil_r. Qed.

Lemma seek_bounds ls p li eof i :
  (li ≤ length ls)%nat → seek_sequence ls p li eof = Some i →
  (i + length p ≤ length ls)%nat ∧ (eof = false → (li ≤ i)%nat) ∧ Forall2 similar (take (length p) (drop i ls)) p.
Proof.
  intros Hli H. destruct (decide (p = [])) as [->|Hp].
  - cbn in H. simplify_eq. split; [simpl; lia|]. split; [done|]. constructor.
  - apply seek_sound in H as (Hs & Hl & Hm); [|done]. split; [done|]. split; [|done]. by intros ->.
Qed.

Lemma find_old_sound ls li c i old new :
  (li ≤ length ls)%nat → find_old ls li c = Some (i, old, new) →
  (i + length old ≤ length ls)%nat ∧ (is_end_of_file c = false → (li ≤ i)%nat) ∧
  Forall2 similar (take (length old) (drop i ls)) old ∧ sides c old new.
Proof.
  intros Hli H. unfold find_old in H. destruct (seek_sequence ls (old_lines c) li (is_end_of_file c)) eqn:Hs.
  - simplify_eq. destruct (seek_bounds _ _ _ _ _ Hli Hs) as (? & ? & ?). repeat split; try done. by left.
  - destruct (ends_blank (old_lines c)) eqn:Hb; [|done].
    apply ends_blank_spec in Hb as [o Ho]. rewrite Ho, removelast_snoc in H.
    destruct (seek_sequence ls o li (is_end_of_file c)) eqn:Hs'; simpl in H; [|done]. simplify_eq.
    destruct (seek_bounds _ _ _ _ _ Hli Hs') as (? & ? & ?). repeat split; try done. by right.
Qed.

(** Lines behind [line_index] hold the context. *)
Definition context_in (c : UpdateFileChunk) (gap : list rstr) : Prop :=
  match change_context c with
  | None => True
  | Some ctx => ∃ a l b, gap = a ++ l :: b ∧ similar l ctx
  end.

(** Where a chunk is sent by its context. *)
Lemma context_found ls li ctx i :
  (li ≤ length ls)%nat → seek_sequence ls [ctx] li false = Some i →
  (S i ≤ length ls)%nat ∧ ∃ a l, drop li ls = a ++ l :: drop (S i) ls ∧ similar l ctx ∧ (li + length a = i)%nat.
Proof.
  intros Hli H. destruct (seek_bounds _ _ _ _ _ Hli H) as (Hb & Hi & Hm). simpl in *. specialize (Hi eq_refl).
  split; [lia|]. destruct (lookup_lt_is_Some_2 ls i ltac:(lia)) as [l Hl].
  rewrite (drop_S _ _ _ Hl) in Hm. simpl in Hm. inversion Hm as [|? ? ? ? Hsim]; subst.
  exists (take (i - li) (drop li ls)), l. split; [|split; [done|rewrite length_take, length_drop; lia]].
  rewrite <- (drop_S _ _ _ Hl). rewrite <- (take_drop (i - li) (drop li ls)) at 1. rewrite drop_drop. do 2 f_equal. lia.
Qed.

(** One pass of the loop, on every branch. *)
Inductive chunk_step (ls : list rstr) (li : nat) (c : UpdateFileChunk) : Replacement → nat → Prop :=
| step_append li' n :
    old_lines c = [] → (li ≤ li' ≤ length ls)%nat →
    context_in c (take (li' - li) (drop li ls)) →
    n = (if ends_blank ls then (length ls - 1)%nat else length ls) →
    chunk_step ls li c (n, 0%nat, new_lines c) li'
| step_replace i li' old new :
    old_lines c ≠ [] → sides c old new → (li ≤ li')%nat → (i + length old ≤ length ls)%nat →
    (is_end_of_file c = false → (li' ≤ i)%nat) →
    context_in c (take (li' - li) (drop li ls)) →
    Forall2 similar (take (length old) (drop i ls)) old →
    chunk_step ls li c (i, length old, new) (i + length old).

Lemma chunk_replacement_step ls path li c r li' :
  (li ≤ length ls)%nat → chunk_replacement ls path li c = inl (r, li') → chunk_step ls li c r li'.
Proof.
  intros Hli H. unfold chunk_replacement in H.
  assert (∃ m, (li ≤ m ≤ length ls)%nat ∧ context_in c (take (m - li) (drop li ls)) ∧
    (match change_context c with
     | Some ctx => match seek_sequence ls [ctx] li false with Some idx => inl (S idx) | None => inr tt end
     | None => inl li
     end = inl m)) as (m & Hm & Hctx & Heq).
  { unfold context_in. destruct (change_context c) as [ctx|].
    - destruct (seek_sequence ls [ctx] li false) as [idx|] eqn:Hs; [|done].
      destruct (context_found _ _ _ _ Hli Hs) as (Hb & a & l & Hd & Hsim & Hlen).
      exists (S idx). split; [lia|]. split; [|done]. exists a, l, []. split; [|done].
      rewrite Hd. replace (S idx - li)%nat with (length (a ++ [l])) by (rewrite length_app; simpl; lia).
      change (l :: drop (S idx) ls) with ([l] ++ drop (S idx) ls). by rewrite app_assoc, take_app_length.
    - exists li. split; [lia|]. done. }
  assert (match old_lines c with
    | [] => r = ((if ends_blank ls then (length ls - 1)%nat else length ls), 0%nat, new_lines c) ∧ li' = m
    | _ :: _ => ∃ i old new, find_old ls m c = Some (i, old, new) ∧ r = (i, length old, new) ∧ li' = (i + length old)%nat
    end) as Hr.
  { destruct (change_context c) as [ctx|].
    - destruct (seek_sequence ls [ctx] li false); simplify_eq.
      destruct (old_lines c); [by simplify_eq|]. destruct (find_old ls _ c) as [[[i old] new]|]; naive_solver.
    - simplify_eq. destruct (old_lines c); [by simplify_eq|]. destruct (find_old ls _ c) as [[[i old] new]|]; naive_solver. }
  destruct (old_lines c) as [|o os] eqn:Hold.
  - destruct Hr as [-> ->]. eapply step_append; eauto.
  - destruct Hr as (i & old & new & Hf & -> & ->). apply find_old_sound in Hf as (Hb & Hi & Hsim & Hsides); [|lia].
    apply (step_replace _ _ _ i m); try done; [by rewrite Hold|lia].
Qed.

Lemma chunk_step_bounds ls li c r li' :
  chunk_step ls li c r li' → (repl_start r + repl_len r ≤ length ls)%nat ∧ (li' ≤ length ls)%nat.
Proof.
  intros [?? Hold Hli Hctx ->|]; unfold repl_start, repl_len; simpl; [|lia]. split; [case_match; lia|lia].
Qed.

Lemma chunk_replacements_bounds ls path li cs rs :
  (li ≤ length ls)%nat → chunk_replacements ls path li cs = inl rs →
  Forall (λ r, (repl_start r + repl_len r ≤ length ls)%nat) rs.
Proof.
  revert li rs. induction cs as [|c cs IH]; intros li rs Hli H; simpl in H; [by simplify_eq|].
  destruct (chunk_replacement ls path li c) as [[r li']|] eqn:Hc; [|done].
  destruct (chunk_replacements ls path li' cs) as [rs'|] eqn:Hcs; [|done]. simplify_eq.
  apply chunk_replacement_step, chunk_step_bounds in Hc as [Hr Hl]; [|done]. constructor; eauto.
Qed.

(** No insertion is behind the end: computing the new text does not panic. *)
Lemma derive_new_contents_total content path cs : ∃ r, derive_new_contents content path cs = Some r.
Proof.
  unfold derive_new_contents. set (ls := file_lines content). unfold compute_replacements.
  destruct (chunk_replacements ls path 0 cs) as [rs|e] eqn:H; [|by eexists].
  apply chunk_replacements_bounds in H; [|lia].
  destruct (apply_replacements_total (sort_replacements rs) ls 0) as (ls' & -> & _).
  - apply sort_replacements_sorted.
  - rewrite sort_replacements_perm. eapply Forall_impl; [exact H|]. simpl. lia.
  - lia.
  - by eexists.
Qed.

(** * What a patched file is

    [patched cs rest out adds]: from [rest] on, the chunks [cs] give [out], with
    [adds] to go behind the end.  Lines that no chunk replaces are kept. *)
Inductive patched : list UpdateFileChunk → list rstr → list rstr → list rstr → Prop :=
| patched_end rest : patched [] rest rest []
| patched_append c cs gap rest out adds :
    old_lines c = [] → context_in c gap → patched cs rest out adds →
    patched (c :: cs) (gap ++ rest) (gap ++ out) (new_lines c ++ adds)
| patched_replace c cs before gap seg rest old new out adds :
    old_lines c ≠ [] → sides c old new → context_in c before → Forall2 similar seg old →
    patched cs rest out adds →
    patched (c :: cs) (before ++ gap ++ seg ++ rest) (before ++ gap ++ new ++ out) adds.

(** A chunk whose place is found from the line before it on. *)
Definition anchored (c : UpdateFileChunk) : Prop := is_end_of_file c = false ∧ old_lines c ≠ [[]].

Lemma sides_nonempty c old new : old_lines c ≠ [] → old_lines c ≠ [[]] → sides c old new → old ≠ [].
Proof. intros H1 H2 [[-> _]|[Ho _]]; [done|]. intros ->. done. Qed.

Lemma in_order_high at_ ls high :
  (at_ ≤ length ls)%nat → Forall (λ r, repl_start r = length ls ∧ repl_len r = 0%nat) high → in_order at_ ls high.
Proof.
  intros Ha H. revert at_ Ha. induction H as [|r high [Hs Hn] _ IH]; intros at_ Ha; simpl; [done|].
  rewrite Hs, Hn. split; [lia|]. split; [lia|]. apply IH. lia.
Qed.

Lemma in_order_app at_ ls low high :
  (at_ ≤ length ls)%nat → in_order at_ ls low → Forall (λ r, repl_start r = length ls ∧ repl_len r = 0%nat) high →
  in_order at_ ls (low ++ high).
Proof.
  intros Ha Hl Hh. revert at_ Ha Hl. induction low as [|r low IH]; intros at_ Ha Hl; cbn [app]; [by apply in_order_high|].
  destruct Hl as (? & ? & Hl). repeat split; [done..|]. by apply IH.
Qed.

Lemma splice_high at_ ls high :
  (at_ ≤ length ls)%nat → Forall (λ r, repl_start r = length ls ∧ repl_len r = 0%nat) high →
  splice at_ ls high = drop at_ ls ++ (high ≫= repl_new).
Proof.
  intros Ha H. revert at_ Ha. induction H as [|r high [Hs Hn] _ IH]; intros at_ Ha; simpl.
  - by rewrite app_nil_r.
  - rewrite Hs, Hn, IH by lia. rewrite (drop_ge ls (length ls + 0)) by lia. rewrite take_ge by (rewrite length_drop; lia).
    by rewrite app_nil_l.
Qed.

Lemma splice_app at_ ls low high :
  (at_ ≤ length ls)%nat → in_order at_ ls low → Forall (λ r, repl_start r = length ls ∧ repl_len r = 0%nat) high →
  splice at_ ls (low ++ high) = splice at_ ls low ++ (high ≫= repl_new).
Proof.
  intros Ha Hl Hh. revert at_ Ha Hl. induction low as [|r low IH]; intros at_ Ha Hl; cbn [app]; [by apply splice_high|].
  destruct Hl as (? & ? & Hl). simpl. rewrite IH by done. by rewrite <- !app_assoc.
Qed.

Lemma in_order_starts at_ ls low : in_order at_ ls low → Forall (λ r, (at_ ≤ repl_start r)%nat) low.
Proof.
  revert at_. induction low as [|r low IH]; intros at_ H; [constructor|]. destruct H as (? & ? & H). constructor; [done|].
  eapply Forall_impl; [by apply IH|]. simpl. lia.
Qed.

Lemma drop_split {A} (ls : list A) (i j : nat) : (i ≤ j)%nat → drop i ls = take (j - i) (drop i ls) ++ drop j ls.
Proof.
  intros Hij. rewrite <- (take_drop (j - i) (drop i ls)) at 1. rewrite drop_drop. do 2 f_equal. lia.
Qed.

Lemma splice_shift at_ at' ls low :
  (at_ ≤ at' ≤ length ls)%nat → in_order at' ls low →
  splice at_ ls low = take (at' - at_) (drop at_ ls) ++ splice at' ls low.
Proof.
  intros Ha Ho. destruct low as [|r low]; simpl; [apply drop_split; lia|]. destruct Ho as (Hr & _ & _).
  rewrite (app_assoc (take (at' - at_) _)). f_equal. rewrite <- (take_drop (at' - at_) (take (repl_start r - at_) (drop at_ ls))).
  rewrite take_take, Nat.min_l by lia. f_equal. rewrite skipn_firstn_comm, drop_drop.
  by replace (at_ + (at' - at_))%nat with at' by lia; replace (repl_start r - at_ - (at' - at_))%nat with (repl_start r - at')%nat by lia.
Qed.

(** The replacements [rs], sorted, turn what is behind [li] into [out] and put
    [adds] behind the end. *)
Definition arranged (ls : list rstr) (li : nat) (rs : list Replacement) (out adds : list rstr) : Prop :=
  ∃ low high,
    sort_replacements rs = low ++ high ∧ in_order li ls low ∧ Forall (λ r, (repl_start r < length ls)%nat) low ∧
    Forall (λ r, repl_start r = length ls ∧ repl_len r = 0%nat) high ∧
    splice li ls low = out ∧ (high ≫= repl_new) = adds.

Lemma arranged_nil ls li : arranged ls li [] (drop li ls) [].
Proof. exists [], []. repeat split; constructor. Qed.

Lemma high_starts (ls : list rstr) high :
  Forall (λ r, repl_start r = length ls ∧ repl_len r = 0%nat) high → Forall (λ r, repl_start r = length ls) high.
Proof. intros H. eapply Forall_impl; [exact H|]. by intros ? []. Qed.

Lemma arranged_append ls li li' rs out adds new :
  arranged ls li' rs out adds → (li ≤ li' ≤ length ls)%nat →
  arranged ls li ((length ls, 0%nat, new) :: rs) (take (li' - li) (drop li ls) ++ out) (new ++ adds).
Proof.
  intros (low & high & Hsort & Ho & Hlow & Hhigh & <- & <-) Hli. exists low, ((length ls, 0%nat, new) :: high).
  split; [simpl; rewrite Hsort; apply (insert_high _ _ _ (length ls)); auto using high_starts|].
  split; [|split; [done|split; [by constructor|split; [by apply splice_shift|done]]]].
  destruct low as [|r low]; [done|]. destruct Ho as (? & ? & ?). repeat split; [lia|done..].
Qed.

Lemma arranged_replace ls li i n rs out adds new :
  arranged ls (i + n) rs out adds → (li ≤ i)%nat → (0 < n)%nat → (i + n ≤ length ls)%nat →
  arranged ls li ((i, n, new) :: rs) (take (i - li) (drop li ls) ++ new ++ out) adds.
Proof.
  intros (low & high & Hsort & Ho & Hlow & Hhigh & <- & <-) Hli Hn Hi. exists ((i, n, new) :: low), high.
  assert (repl_start (i, n, new) = i ∧ repl_len (i, n, new) = n ∧ repl_new (i, n, new) = new) as (Hs & Hl & _) by done.
  split; [|split; [|split; [|split; [done|split; [|done]]]]].
  - simpl. rewrite Hsort. apply (insert_low _ _ _ (length ls)); [rewrite Hs; lia| |by apply high_starts].
    eapply Forall_impl; [exact (in_order_starts _ _ _ Ho)|]. simpl. rewrite Hs. lia.
  - simpl. rewrite Hs, Hl. repeat split; [lia|done..].
  - constructor; [rewrite Hs; lia|done].
  - simpl. by rewrite Hs, Hl.
Qed.

Lemma arranged_apply ls rs out adds :
  arranged ls 0 rs out adds → apply_replacements ls (sort_replacements rs) = Some (out ++ adds).
Proof.
  intros (low & high & -> & Ho & Hlow & Hhigh & <- & <-).
  rewrite (apply_replacements_splice _ _ 0) by (try apply in_order_app; done || lia).
  by rewrite splice_app by (done || lia).
Qed.

Lemma chunk_replacements_patched ls path cs li rs :
  ends_blank ls = false → Forall anchored cs → (li ≤ length ls)%nat →
  chunk_replacements ls path li cs = inl rs →
  ∃ out adds, arranged ls li rs out adds ∧ patched cs (drop li ls) out adds.
Proof.
  intros Hb Hcs. revert li rs. induction Hcs as [|c cs [Heof Hne] _ IH]; intros li rs Hli H; simpl in H.
  { simplify_eq. eexists _, _. split; [apply arranged_nil|constructor]. }
  destruct (chunk_replacement ls path li c) as [[r li']|] eqn:Hc; [|done].
  destruct (chunk_replacements ls path li' cs) as [rs'|] eqn:Hrs; [|done]. simplify_eq.
  apply chunk_replacement_step in Hc as Hstep; [|done]. pose proof (chunk_step_bounds _ _ _ _ _ Hstep) as [_ Hli'].
  destruct (IH li' rs' Hli' Hrs) as (out & adds & Harr & Hp).
  destruct Hstep as [li' n Hold Hm Hctx Hn|i m old new Hold Hsides Hm Hi Hge Hctx Hsim].
  - rewrite Hb in Hn. subst n. eexists _, _. split; [by apply (arranged_append ls li li')|].
    rewrite (drop_split ls li li') at 1 by lia. by apply patched_append.
  - specialize (Hge Heof). pose proof (sides_nonempty c old new Hold Hne Hsides) as Holdne.
    assert (0 < length old)%nat by (by destruct old; [|simpl; lia]).
    eexists _, _. split; [apply (arranged_replace ls li i); [done|lia..]|].
    set (before := take (m - li) (drop li ls)) in *.
    assert (drop li ls = before ++ take (i - m) (drop m ls) ++ take (length old) (drop i ls) ++ drop (i + length old) ls) as Hd.
    { rewrite (drop_split ls li m) by lia. fold before. f_equal. rewrite (drop_split ls m i) at 1 by lia. f_equal.
      rewrite (drop_split ls i (i + length old)) at 1 by lia. by replace (i + length old - i)%nat with (length old) by lia. }
    assert (take (i - li) (drop li ls) = before ++ take (i - m) (drop m ls)) as ->.
    { rewrite Hd, app_assoc. apply take_app_length'. unfold before. rewrite length_app, !length_take, !length_drop. lia. }
    rewrite Hd, <- app_assoc. by apply patched_replace with (old := old).
Qed.

(** The new text of a file, when its last line is not blank and no chunk is
    tied to the end of the file. *)
Lemma derive_new_contents_patched content path cs out :
  Forall anchored cs → ends_blank (file_lines content) = false →
  derive_new_contents content path cs = Some (inl out) →
  ∃ body adds, patched cs (file_lines content) body adds ∧ out = join [10] (final_newline (body ++ adds)).
Proof.
  intros Hcs Hb H. unfold derive_new_contents in H. set (ls := file_lines content) in *. unfold compute_replacements in H.
  destruct (chunk_replacements ls path 0 cs) as [rs|] eqn:Hrs; [|done].
  destruct (chunk_replacements_patched ls path cs 0 rs Hb Hcs ltac:(lia) Hrs) as (body & adds & Harr & Hp).
  rewrite (arranged_apply _ _ _ _ Harr) in H. simpl in H. simplify_eq. eauto.
Qed.

(** * Patches made from the file

    The chunks show lines as they are, each chunk stands at the first place
    behind the one before it where its lines do, and a chunk tied to the end
    stands there. *)
Definition sent_to (c : UpdateFileChunk) (before : list rstr) : Prop :=
  match change_context c with
  | None => before = []
  | Some ctx => ∃ a, before = a ++ [ctx] ∧ ctx ∉ a
  end.

Inductive exact_edits : list UpdateFileChunk → list rstr → list rstr → list rstr → Prop :=
| exact_end rest : exact_edits [] rest rest []
| exact_append c cs before rest out adds :
    old_lines c = [] → sent_to c before → exact_edits cs rest out adds →
    exact_edits (c :: cs) (before ++ rest) (before ++ out) (new_lines c ++ adds)
| exact_replace c cs before gap rest out adds :
    old_lines c ≠ [] → sent_to c before →
    (if is_end_of_file c then rest = []
     else ∀ j, (j < length gap)%nat → all_match eq_exact (drop j (gap ++ old_lines c ++ rest)) (old_lines c) = false) →
    exact_edits cs rest out adds →
    exact_edits (c :: cs) (before ++ gap ++ old_lines c ++ rest) (before ++ gap ++ new_lines c ++ out) adds.

Lemma sent_to_found ls li c before rest :
  (li ≤ length ls)%nat → drop li ls = before ++ rest → sent_to c before →
  match change_context c with
  | None => before = []
  | Some ctx => seek_sequence ls [ctx] li false = Some (li + length before - 1)%nat ∧ (0 < length before)%nat
  end.
Proof.
  unfold sent_to. destruct (change_context c) as [ctx|]; [|done]. intros Hli Hd (a & -> & Ha).
  rewrite length_app. simpl. split; [|lia]. rewrite <- app_assoc in Hd.
  rewrite (seek_exact ls [ctx] li a rest) by (try done; intros j Hj;
    apply not_true_iff_false; rewrite all_match_exact; intros [tl Htl];
    destruct (lookup_lt_is_Some_2 a j Hj) as [x Hx]; rewrite (drop_S _ x) in Htl by (by rewrite lookup_app_l);
    simpl in Htl; injection Htl as ->; apply Ha; by eapply list_elem_of_lookup_2).
  f_equal. lia.
Qed.

Lemma find_old_exact ls m c gap rest :
  (m ≤ length ls)%nat → drop m ls = gap ++ old_lines c ++ rest → old_lines c ≠ [] →
  (if is_end_of_file c then rest = []
   else ∀ j, (j < length gap)%nat → all_match eq_exact (drop j (gap ++ old_lines c ++ rest)) (old_lines c) = false) →
  find_old ls m c = Some ((m + length gap)%nat, old_lines c, new_lines c).
Proof.
  intros Hm Hd Hne Hfirst. unfold find_old. destruct (is_end_of_file c).
  - subst rest. rewrite app_nil_r in Hd. rewrite (seek_at_end ls (take m ls ++ gap)); [|done|].
    + by rewrite length_app, length_take, Nat.min_l.
    + by rewrite <- app_assoc, <- Hd, take_drop.
  - by rewrite (seek_exact ls (old_lines c) m gap rest).
Qed.

(** The line index and the rest of the file behind a piece of it. *)
Lemma drop_behind {A} (ls : list A) (li : nat) (a b : list A) :
  drop li ls = a ++ b → (li ≤ length ls)%nat →
  drop (li + length a) ls = b ∧ (li + length a ≤ length ls)%nat ∧ take (li + length a - li) (drop li ls) = a.
Proof.
  intros Hd Hli. rewrite <- drop_drop, Hd, drop_app_length. split; [done|].
  assert (length (drop li ls) = length a + length b)%nat as Hl by (by rewrite Hd, length_app).
  rewrite length_drop in Hl. split; [lia|]. replace (li + length a - li)%nat with (length a) by lia. apply take_app_length.
Qed.

Lemma exact_chunk_append ls path li c before rest :
  ends_blank ls = false → (li ≤ length ls)%nat → drop li ls = before ++ rest →
  old_lines c = [] → sent_to c before →
  chunk_replacement ls path li c = inl ((length ls, 0%nat, new_lines c), (li + length before)%nat).
Proof.
  intros Hb Hli Hd Hold Hsent. pose proof (sent_to_found ls li c before rest Hli Hd Hsent) as Hf.
  unfold chunk_replacement. destruct (change_context c) as [ctx|].
  - destruct Hf as [-> Hlen]. rewrite Hold, Hb. do 2 f_equal. lia.
  - subst before. rewrite Hold, Hb. simpl. by rewrite Nat.add_0_r.
Qed.

Lemma exact_chunk_replace ls path li c before gap rest :
  (li ≤ length ls)%nat → drop li ls = before ++ gap ++ old_lines c ++ rest →
  old_lines c ≠ [] → sent_to c before →
  (if is_end_of_file c then rest = []
   else ∀ j, (j < length gap)%nat → all_match eq_exact (drop j (gap ++ old_lines c ++ rest)) (old_lines c) = false) →
  chunk_replacement ls path li c =
    let i := (li + length before + length gap)%nat in
    inl ((i, length (old_lines c), new_lines c), (i + length (old_lines c))%nat).
Proof.
  intros Hli Hd Hold Hsent Hfirst. pose proof (sent_to_found ls li c before _ Hli Hd Hsent) as Hf.
  destruct (drop_behind _ _ _ _ Hd Hli) as (Hd' & Hli' & _).
  pose proof (find_old_exact ls (li + length before) c gap rest Hli' Hd' Hold Hfirst) as Hfind.
  unfold chunk_replacement. destruct (change_context c) as [ctx|].
  - destruct Hf as [-> Hlen]. replace (S (li + length before - 1)) with (li + length before)%nat by lia.
    rewrite Hfind. by destruct (old_lines c).
  - subst before. simpl in *. rewrite Nat.add_0_r in *. rewrite Hfind. by destruct (old_lines c).
Qed.

Lemma chunk_replacements_exact ls path cs rest out adds :
  ends_blank ls = false → exact_edits cs rest out adds →
  ∀ li, (li ≤ length ls)%nat → drop li ls = rest →
    ∃ rs, chunk_replacements ls path li cs = inl rs ∧ arranged ls li rs out adds.
Proof.
  intros Hb. induction 1 as [rest|c cs before rest out adds Hold Hsent _ IH|c cs before gap rest out adds Hold Hsent Hfirst _ IH];
    intros li Hli Hd.
  - eexists. split; [done|]. subst rest. apply arranged_nil.
  - destruct (drop_behind _ _ _ _ Hd Hli) as (Hd' & Hli' & Htake). destruct (IH _ Hli' Hd') as (rs & Hrs & Harr).
    simpl. rewrite (exact_chunk_append ls path li c before rest), Hrs by done. eexists. split; [done|].
    rewrite <- Htake at 1. apply arranged_append; [done|lia].
  - rewrite app_assoc in Hd. destruct (drop_behind _ _ _ _ Hd Hli) as (Hd' & Hli' & Htake).
    destruct (drop_behind _ _ _ _ Hd' Hli') as (Hd'' & Hli'' & _). destruct (IH _ Hli'' Hd'') as (rs & Hrs & Harr).
    rewrite <- app_assoc in Hd. simpl. rewrite (exact_chunk_replace ls path li c before gap rest) by done. cbv zeta.
    assert (li + length (before ++ gap) = li + length before + length gap)%nat as Hl by (rewrite length_app; lia).
    rewrite Hl in *. cbv iota beta. rewrite Hrs. eexists. split; [done|].
    assert (0 < length (old_lines c))%nat by (destruct (old_lines c); [done|simpl; lia]).
    rewrite (app_assoc before gap), <- Htake. apply arranged_replace; [done|lia..].
Qed.

(** A patch made from the file is applied as it was meant. *)
Lemma derive_exact_edits content path cs out adds :
  ends_blank (file_lines content) = false → exact_edits cs (file_lines content) out adds →
  derive_new_contents content path cs = Some (inl (join [10] (final_newline (out ++ adds)))).
Proof.
  intros Hb He. unfold derive_new_contents, compute_replacements.
  destruct (chunk_replacements_exact _ path cs _ out adds Hb He 0 ltac:(lia) eq_refl) as (rs & -> & Harr).
  by rewrite (arranged_apply _ _ _ _ Harr).
Qed.

(** * The contract of [derive_new_contents] *)

(** No place from a line on agrees with the pattern. *)
Definition absent (ls p : list rstr) (from : nat) : Prop :=
  ∀ i, (from ≤ i)%nat → (i + length p ≤ length ls)%nat → ¬ Forall2 similar (take (length p) (drop i ls)) p.

Lemma similar_all_match ls p : Forall2 similar (take (length p) ls) p → all_match eq_normal ls p = true.
Proof.
  revert ls. induction p as [|q p IH]; intros ls H; [by destruct ls|]. destruct ls as [|l ls]; [by inversion H|].
  cbn [length take] in H. inversion H as [|? ? ? ? Hl Hr]; subst. cbn [all_match]. rewrite (IH ls Hr), andb_true_r.
  unfold eq_normal. by rewrite bool_decide_eq_true.
Qed.

Lemma seek_none ls p start : p ≠ [] → seek_sequence ls p start false = None → absent ls p start.
Proof.
  intros Hp H i Hi Hl Hm. rewrite seek_unfold in H by (done || lia). cbv zeta in H. unfold option_or in H. cbn [search_from] in H.
  do 3 (destruct (scan_pass _ ls p start) in H; [done|]). apply similar_all_match in Hm.
  pose proof (List.find_none _ _ H i) as Hn.
  cbv beta in Hn. rewrite Hn in Hm; [done|]. apply in_seq. lia.
Qed.

(** Why a chunk has no place, and what is said of it: its context stands nowhere
    behind [li], or its old lines stand nowhere behind their context, nor do they
    without the empty line at their end. *)
Inductive unplaced (ls : list rstr) (path : rstr) (li : nat) (c : UpdateFileChunk) : rstr → Prop :=
| no_context ctx :
    change_context c = Some ctx → absent ls [ctx] li →
    unplaced ls path li c (lit "Failed to find context '" ++ ctx ++ lit "' in " ++ path)
| no_lines start :
    match change_context c with
    | Some ctx => (li < start)%nat ∧ ∃ l, ls !! pred start = Some l ∧ similar l ctx
    | None => start = li
    end →
    absent ls (old_lines c) start → (ends_blank (old_lines c) = true → absent ls (removelast (old_lines c)) start) →
    unplaced ls path li c (lit "Failed to find expected lines in " ++ path ++ lit ":" ++ [10] ++ join [10] (old_lines c)).

Lemma chunk_unplaced ls path li c e :
  anchored c → (li ≤ length ls)%nat → chunk_replacement ls path li c = inr e →
  ∃ message, e = APComputeReplacements message ∧ unplaced ls path li c message.
Proof.
  intros [He Hold] Hli H. unfold chunk_replacement in H.
  assert (∀ start, find_old ls start c = None → old_lines c ≠ [] →
    absent ls (old_lines c) start ∧ (ends_blank (old_lines c) = true → absent ls (removelast (old_lines c)) start)) as Hfind.
  { intros start Hf Hne. unfold find_old in Hf. rewrite He in Hf.
    destruct (seek_sequence ls (old_lines c) start false) eqn:Hs; [done|]. split; [by apply seek_none|].
    intros Hb. rewrite Hb in Hf. destruct (seek_sequence ls (removelast _) start false) eqn:Hs'; [done|].
    apply seek_none; [|done]. destruct (old_lines c) as [|l [|l' ls']]; [done| |done].
    unfold ends_blank in Hb. cbn in Hb. by destruct l. }
  destruct (change_context c) as [ctx|] eqn:Hc.
  - destruct (seek_sequence ls [ctx] li false) as [idx|] eqn:Hs.
    + destruct (old_lines c) as [|o os] eqn:Ho; [done|]. destruct (find_old ls (S idx) c) as [[[]]|] eqn:Hf; simplify_eq.
      destruct (Hfind _ Hf ltac:(done)) as [H1 H2]. eexists. split; [done|]. rewrite <- Ho. apply (no_lines _ _ _ _ (S idx)); rewrite ?Ho; [|done..].
      rewrite Hc. apply seek_sound in Hs as (Hfrom & Hlen & Hm); [|done]. cbn in Hfrom, Hlen. split; [lia|].
      destruct (lookup_lt_is_Some_2 ls idx) as [l Hl]; [lia|]. exists l. split; [done|].
      rewrite (drop_S _ _ _ Hl) in Hm. cbn in Hm. by inversion Hm.
    + simplify_eq. eexists. split; [done|]. apply no_context; [done|by apply seek_none].
  - destruct (old_lines c) as [|o os] eqn:Ho; [done|]. destruct (find_old ls li c) as [[[]]|] eqn:Hf; simplify_eq.
    destruct (Hfind _ Hf ltac:(done)) as [H1 H2]. eexists. split; [done|]. rewrite <- Ho. apply (no_lines _ _ _ _ li); rewrite ?Ho; [|done..].
    by rewrite Hc.
Qed.

(** Where the search goes on behind chunks that all have a place. *)
Fixpoint reached (ls : list rstr) (path : rstr) (li : nat) (cs : list UpdateFileChunk) : option nat :=
  match cs with
  | [] => Some li
  | c :: cs => match chunk_replacement ls path li c with inl (_, li) => reached ls path li cs | inr _ => None end
  end.

Lemma chunk_replacements_error ls path cs li e :
  Forall anchored cs → (li ≤ length ls)%nat → chunk_replacements ls path li cs = inr e →
  ∃ pre c post li' message, cs = pre ++ c :: post ∧ reached ls path li pre = Some li' ∧
    unplaced ls path li' c message ∧ e = APComputeReplacements message.
Proof.
  intros Hcs. revert li. induction Hcs as [|c cs Hc Hcs IH]; intros li Hli H; simpl in H; [done|].
  destruct (chunk_replacement ls path li c) as [[r li']|e'] eqn:Hr.
  - destruct (chunk_replacements ls path li' cs) as [rs|e'] eqn:Hrs; simplify_eq.
    destruct (IH li' ltac:(by eapply chunk_step_bounds, chunk_replacement_step) Hrs) as (pre & c' & post & li2 & m & -> & Hre & Hun & ->).
    exists (c :: pre), c', post, li2, m. split; [done|]. split; [|done]. cbn [reached]. by rewrite Hr.
  - simplify_eq. destruct (chunk_unplaced ls path li c e Hc Hli Hr) as (m & -> & Hun). by exists [], c, cs, li, m.
Qed.

Lemma derive_new_contents_error content path cs e :
  Forall anchored cs → derive_new_contents content path cs = Some (inr e) →
  ∃ pre c post li message, cs = pre ++ c :: post ∧ reached (file_lines content) path 0 pre = Some li ∧
    unplaced (file_lines content) path li c message ∧ e = APComputeReplacements message.
Proof.
  unfold derive_new_contents, compute_replacements. intros Hcs H.
  destruct (chunk_replacements _ path 0 cs) as [rs|e'] eqn:Hrs; simplify_eq.
  - by destruct (apply_replacements _ _).
  - eapply chunk_replacements_error; [done|lia|done].
Qed.

(** C21: the new text of a file.  Take chunks that are not tied to the end of the
    file and whose old lines are not one empty line alone, and a file whose last
    line is not blank.  Then the new text keeps every line but the ones that the
    chunks show as old: each chunk replaces lines that agree with its own up to
    blanks, dashes and quotes, behind its context and behind the chunk before it,
    and chunks without old lines go to the end in their order.  Otherwise the
    error names the file and shows the context, or the old lines, of the first
    chunk that has no place behind the ones before it, and these lines stand
    nowhere from there on; nothing panics. *)
Theorem new_contents_spec content path cs
    (Hanchored : Forall anchored cs) (Hblank : ends_blank (file_lines content) = false) :
  match derive_new_contents content path cs with
  | Some (inl out) => ∃ body adds, patched cs (file_lines content) body adds ∧ out = join [10] (final_newline (body ++ adds))
  | Some (inr e) =>
      ∃ pre c post li message, cs = pre ++ c :: post ∧ reached (file_lines content) path 0 pre = Some li ∧
        unplaced (file_lines content) path li c message ∧ e = APComputeReplacements message
  | None => False
  end.
Proof.
  destruct (derive_new_contents_total content path cs) as [[out|e] H]; rewrite H.
  - by apply (derive_new_contents_patched content path).
  - by apply derive_new_contents_error.
Qed.

Definition demo_text : rstr := lit "fn a() {" ++ [10] ++ lit "  one" ++ [10] ++ lit "}" ++ [10] ++ lit "fn b() {" ++ [10] ++ lit "  one" ++ [10] ++ lit "}" ++ [10].
Definition demo_chunks : list UpdateFileChunk :=
  [mkChunk (Some (lit "fn b() {")) [lit "  one "] [lit "  two"] false; mkChunk None [] [lit "// end"] false].

Lemma new_contents_spec_witness :
  derive_new_contents demo_text (lit "/f") demo_chunks =
    Some (inl (lit "fn a() {" ++ [10] ++ lit "  one" ++ [10] ++ lit "}" ++ [10] ++ lit "fn b() {" ++ [10] ++ lit "  two"
      ++ [10] ++ lit "}" ++ [10] ++ lit "// end" ++ [10])) ∧
  match derive_new_contents demo_text (lit "/f") demo_chunks with
  | Some (inl out) =>
      ∃ body adds, patched demo_chunks (file_lines demo_text) body adds ∧ out = join [10] (final_newline (body ++ adds))
  | _ => False
  end.
Proof.
  assert (derive_new_contents demo_text (lit "/f") demo_chunks =
    Some (inl (lit "fn a() {" ++ [10] ++ lit "  one" ++ [10] ++ lit "}" ++ [10] ++ lit "fn b() {" ++ [10] ++ lit "  two"
      ++ [10] ++ lit "}" ++ [10] ++ lit "// end" ++ [10]))) as Hd by (vm_compute; reflexivity).
  pose proof (new_contents_spec demo_text (lit "/f") demo_chunks) as H. rewrite Hd in H |- *. split; [reflexivity|]. apply H.
  - repeat (constructor; [by split|]). constructor.
  - vm_compute. reflexivity.
Defined.

(** * Where the new text is not what the patch says

    Each of these holds of the code as it is. *)

(** A file that ends with an empty line loses it whatever is edited. *)
Example blank_end_lost :
  derive_new_contents (lit "a" ++ [10; 10]) (lit "/f") [mkChunk None [lit "a"] [lit "b"] false] =
    Some (inl (lit "b" ++ [10])).
Proof. vm_compute. reflexivity. Qed.

(** Two chunks tied to the end: the second edit is removed again by the first. *)
Example edit_at_end_lost :
  derive_new_contents (lit "a" ++ [10] ++ lit "b" ++ [10]) (lit "/f")
    [mkChunk None [lit "a"; lit "b"] [lit "c"] true; mkChunk None [lit "b"] [lit "d"; lit "e"] true] =
    Some (inl (lit "c" ++ [10] ++ lit "e" ++ [10])).
Proof. vm_compute. reflexivity. Qed.

(** Lines added to a file that ends with an empty line are removed by a chunk
    that shows this line. *)
Example addition_lost :
  derive_new_contents (lit "a" ++ [10; 10]) (lit "/f")
    [mkChunk None [lit "a"; []] [lit "b"; []] false; mkChunk None [] [lit "x"] false] =
    Some (inl (lit "b" ++ [10] ++ [10])).
Proof. vm_compute. reflexivity. Qed.

(** The context of an addition does not place it. *)
Example context_does_not_place :
  derive_new_contents (lit "fn a() {" ++ [10] ++ lit "}" ++ [10]) (lit "/f")
    [mkChunk (Some (lit "fn a() {")) [] [lit "  one"] false] =
    Some (inl (lit "fn a() {" ++ [10] ++ lit "}" ++ [10] ++ lit "  one" ++ [10])).
Proof. vm_compute. reflexivity. Qed.

(** A chunk tied to the end that is not found there is not looked for anywhere
    else. *)
Example no_search_from_start : seek_sequence [lit "a"; lit "b"] [lit "a"] 0 true = None.
Proof. vm_compute. reflexivity. Qed.
