(* ===== verification/ApplyPatchParse.v ===== *)
(** The parser of patches ends on every text, and reads back what the grammar of
    parser.rs writes. *)
From S2P Require Import Prelude Str Utf8 Path ApplyPatch.

(** * Termination *)

Lemma chunk_body_progress ls ln c n c' n' :
  chunk_body ls ln c n = inl (c', n') → (n ≤ n' ≤ n + length ls)%nat ∧ (ls ≠ [] → (1 ≤ n')%nat).
Proof.
  revert c n. induction ls as [|l ls IH]; intros c n H; simpl in H; [simplify_eq; split; [simpl; lia|done]|].
  repeat case_match; simplify_eq; simpl; try (split; [lia|intros; lia]);
    apply IH in H as [? _]; (split; [lia|intros; lia]).
Qed.

Lemma parse_update_file_chunk_progress ls ln m c n :
  parse_update_file_chunk ls ln m = inl (c, n) → (1 ≤ n ≤ length ls)%nat.
Proof.
  unfold parse_update_file_chunk. destruct ls as [|first rest]; [done|]. intros H.
  match type of H with match ?h with _ => _ end = _ => destruct h as [[ctx k]|] eqn:Hh; [|done] end.
  assert (k ≤ 1)%nat as Hk by (repeat case_match; simplify_eq; lia). clear Hh.
  destruct (length (first :: rest) <=? k)%nat eqn:Hlen; [done|].
  apply Nat.leb_gt in Hlen. destruct (chunk_body _ _ _ _) as [[c' p]|] eqn:Hbody; [|done]. simplify_eq.
  apply chunk_body_progress in Hbody as [Hp Hp1]. rewrite length_drop in Hp.
  assert (1 ≤ p)%nat by (apply Hp1; intros Hd; apply (f_equal length) in Hd; rewrite length_drop in Hd; simpl in *; lia).
  lia.
Qed.

Lemma update_chunks_total fuel ls ln n cs :
  (length ls ≤ fuel)%nat →
  ∃ r, update_chunks fuel ls ln n cs = Some r ∧
    match r with inl (_, n') => (n ≤ n' ≤ n + length ls)%nat | inr _ => True end.
Proof.
  revert ls n cs. induction fuel as [|fuel IH]; intros ls n cs Hf.
  { destruct ls; [|simpl in *; lia]. eexists. split; [done|]. simpl. lia. }
  destruct ls as [|l rest]; cbn [update_chunks]; [eexists; split; [done|]; simpl; lia|]. simpl in Hf.
  case_match; [|case_match].
  - destruct (IH rest (S n) cs ltac:(lia)) as (r & -> & Hr). eexists. split; [done|]. simpl.
    destruct r as [[cs' n']|]; [lia|done].
  - eexists. split; [done|]. simpl. lia.
  - destruct (parse_update_file_chunk _ _ _) as [[c k]|] eqn:Hc; [|by eexists].
    apply parse_update_file_chunk_progress in Hc. simpl in Hc.
    assert (length (drop k (l :: rest)) = S (length rest) - k)%nat as Hd by (by rewrite length_drop).
    destruct (IH (drop k (l :: rest)) (n + k)%nat (cs ++ [c]) ltac:(lia)) as (r & -> & Hr). eexists. split; [done|].
    rewrite Hd in Hr. simpl.
    destruct r as [[cs' n']|]; [lia|done].
Qed.

Lemma added_lines_length ls : (length (added_lines ls) ≤ length ls)%nat.
Proof. induction ls as [|[|c l] ls IH]; simpl; [lia..|]. case_match; simpl; lia. Qed.

Lemma parse_one_hunk_total first rest ln :
  ∃ r, parse_one_hunk first rest ln = Some r ∧
    match r with inl (_, n) => (1 ≤ n ≤ S (length rest))%nat | inr _ => True end.
Proof.
  unfold parse_one_hunk. destruct (strip_prefix ADD_FILE_MARKER _) as [p|].
  { eexists. split; [done|]. simpl. pose proof (added_lines_length rest). lia. }
  destruct (strip_prefix DELETE_FILE_MARKER _) as [p|].
  { eexists. split; [done|]. simpl. lia. }
  destruct (strip_prefix UPDATE_FILE_MARKER _) as [p|]; [|by eexists].
  set (move_path := l ← head rest; strip_prefix MOVE_TO_MARKER l).
  set (moved := match move_path with Some _ => 1%nat | None => 0%nat end).
  assert (moved ≤ length rest)%nat as Hm by (unfold moved, move_path; destruct rest; simpl; [lia|case_match; lia]).
  destruct (update_chunks_total (length rest) (drop moved rest) ln (1 + moved) []) as (r & -> & Hr).
  { rewrite length_drop. lia. }
  rewrite length_drop in Hr. simpl. destruct r as [[[|c cs] n]|]; eexists; (split; [done|]); [done| |done]. simpl in *. lia.
Qed.

Lemma parse_hunks_total fuel ls ln : (length ls ≤ fuel)%nat → ∃ r, parse_hunks fuel ls ln = Some r.
Proof.
  revert ls ln. induction fuel as [|fuel IH]; intros ls ln Hf.
  { destruct ls; [by eexists|simpl in *; lia]. }
  destruct ls as [|first rest]; simpl; [by eexists|]. simpl in Hf.
  destruct (parse_one_hunk_total first rest ln) as ([[h n]|e] & -> & Hr); simpl; [|by eexists].
  destruct (IH (drop n (first :: rest)) (ln + Z.of_nat n)) as (r & ->); [rewrite length_drop; simpl; lia|].
  simpl. destruct r; by eexists.
Qed.

Lemma removelast_length {A} (l : list A) : (length (removelast l) ≤ length l)%nat.
Proof. induction l as [|a [|b l] IH]; simpl in *; lia. Qed.

Lemma parse_patch_total text : ∃ r, parse_patch text = Some r.
Proof.
  unfold parse_patch, parse_patch_text. case_match; [|by eexists].
  match goal with |- context [parse_hunks ?f ?ls ?n] => destruct (parse_hunks_total f ls n) as ([hs|e] & ->) end.
  - etrans; [apply removelast_length|]. destruct l; simpl; lia.
  - by eexists.
  - by eexists.
Qed.

(** * The grammar, as a printer *)

Inductive Edit : Type := Keep (l : rstr) | Remove (l : rstr) | Insert (l : rstr).
Record ChunkText : Type := mkChunkText { ct_context : option rstr; ct_edits : list Edit; ct_at_end : bool }.
Inductive HunkText : Type :=
| TextAdd (path : rstr) (ls : list rstr)
| TextDelete (path : rstr)
| TextUpdate (path : rstr) (move : option rstr) (chunks : list ChunkText).

Definition edit_text (e : Edit) : rstr :=
  match e with Keep l => l | Remove l => l | Insert l => l end.
Definition edit_line (e : Edit) : rstr :=
  match e with Keep l => SPACE :: l | Remove l => MINUS :: l | Insert l => PLUS :: l end.
Definition old_line (e : Edit) : option rstr := match e with Insert _ => None | _ => Some (edit_text e) end.
Definition new_line (e : Edit) : option rstr := match e with Remove _ => None | _ => Some (edit_text e) end.

Definition context_line (ctx : option rstr) : rstr :=
  match ctx with None => EMPTY_CHANGE_CONTEXT_MARKER | Some ctx => CHANGE_CONTEXT_MARKER ++ ctx end.
Definition chunk_lines (c : ChunkText) : list rstr :=
  context_line (ct_context c) :: (edit_line <$> ct_edits c) ++ (if ct_at_end c then [EOF_MARKER] else []).
Definition hunk_lines (h : HunkText) : list rstr :=
  match h with
  | TextAdd path ls => (ADD_FILE_MARKER ++ path) :: (cons PLUS <$> ls)
  | TextDelete path => [DELETE_FILE_MARKER ++ path]
  | TextUpdate path move chunks =>
      (UPDATE_FILE_MARKER ++ path) :: match move with Some d => [MOVE_TO_MARKER ++ d] | None => [] end
      ++ (chunks ≫= chunk_lines)
  end.
Definition patch_lines (hs : list HunkText) : list rstr :=
  BEGIN_PATCH_MARKER :: (hs ≫= hunk_lines) ++ [END_PATCH_MARKER].
Definition patch_of (hs : list HunkText) : rstr := join [10] (patch_lines hs).

(** What the text means. *)
Definition chunk_of (c : ChunkText) : UpdateFileChunk :=
  mkChunk (ct_context c) (omap old_line (ct_edits c)) (omap new_line (ct_edits c)) (ct_at_end c).
Definition hunk_of (h : HunkText) : Hunk :=
  match h with
  | TextAdd path ls => AddFile path (ls ≫= push_line)
  | TextDelete path => DeleteFile path
  | TextUpdate path move chunks => UpdateFile path move (chunk_of <$> chunks)
  end.

Definition line_ok (l : rstr) : Prop := (10 ∉ l) ∧ last l ≠ Some 13.
Definition path_ok (p : rstr) : Prop := p ≠ [] ∧ trim p = p ∧ (10 ∉ p).
Definition chunk_ok (c : ChunkText) : Prop :=
  match ct_context c with Some ctx => line_ok ctx | None => True end ∧
  ct_edits c ≠ [] ∧ Forall (λ e, line_ok (edit_text e)) (ct_edits c).
Definition hunk_ok (h : HunkText) : Prop :=
  match h with
  | TextAdd path ls => path_ok path ∧ Forall line_ok ls
  | TextDelete path => path_ok path
  | TextUpdate path move chunks =>
      path_ok path ∧ match move with Some d => line_ok d | None => True end ∧ chunks ≠ [] ∧ Forall chunk_ok chunks
  end.

#[global] Instance line_ok_dec l : Decision (line_ok l).
Proof. unfold line_ok. apply _. Defined.
#[global] Instance path_ok_dec p : Decision (path_ok p).
Proof. unfold path_ok. apply _. Defined.
#[global] Instance chunk_ok_dec c : Decision (chunk_ok c).
Proof. unfold chunk_ok. destruct (ct_context c); apply _. Defined.
#[global] Instance hunk_ok_dec h : Decision (hunk_ok h).
Proof. destruct h as [| |? [|] ?]; cbn; apply _. Defined.

(** ** Chunks *)

(** What may stand behind the lines of a chunk. *)
Definition chunk_ends (ls : list rstr) : Prop :=
  match ls with
  | [] => True
  | l :: _ => l ≠ EOF_MARKER ∧ ∃ c r, l = c :: r ∧ c ≠ SPACE ∧ c ≠ PLUS ∧ c ≠ MINUS
  end.

Lemma chunk_body_stop ls ln c n : chunk_ends ls → (0 < n)%nat → chunk_body ls ln c n = inl (c, n).
Proof.
  destruct ls as [|l ls]; [done|]. intros (Hne & c0 & r & -> & H1 & H2 & H3) Hn. simpl.
  rewrite bool_decide_eq_false_2 by done. repeat (rewrite (proj2 (Z.eqb_neq _ _)) by done). by destruct n; [lia|].
Qed.

Lemma chunk_body_at_end ls ln c n : (0 < n)%nat → chunk_body (EOF_MARKER :: ls) ln c n = inl (set_eof c, S n).
Proof. intros Hn. cbn [chunk_body]. rewrite bool_decide_eq_true_2 by done. by destruct n; [lia|]. Qed.

Lemma edit_line_not_eof e : edit_line e ≠ EOF_MARKER.
Proof. by destruct e. Qed.

Lemma chunk_body_edits es ls ln ctx olds news eof n :
  chunk_body ((edit_line <$> es) ++ ls) ln (mkChunk ctx olds news eof) n =
  chunk_body ls ln (mkChunk ctx (olds ++ omap old_line es) (news ++ omap new_line es) eof) (n + length es).
Proof.
  revert olds news n. induction es as [|e es IH]; intros olds news n; simpl.
  { by rewrite !app_nil_r, Nat.add_0_r. }
  rewrite bool_decide_eq_false_2 by apply edit_line_not_eof.
  replace (n + S (length es))%nat with (S n + length es)%nat by lia.
  destruct e; simpl; unfold push_both, push_old, push_new; simpl; rewrite IH, <- ?app_assoc; done.
Qed.

Lemma parse_chunk c ls ln m :
  chunk_ok c → (if ct_at_end c then True else chunk_ends ls) →
  parse_update_file_chunk (chunk_lines c ++ ls) ln m = inl (chunk_of c, length (chunk_lines c)).
Proof.
  intros (Hctx & Hne & Hes) Hls. unfold chunk_lines. cbn [app]. unfold parse_update_file_chunk.
  match goal with |- match ?h with _ => _ end = _ => assert (h = inl (ct_context c, 1%nat)) as -> end.
  { unfold context_line. destruct (ct_context c) as [ctx|]; [|done].
    rewrite bool_decide_eq_false_2 by done. by rewrite (proj2 (strip_prefix_spec _ _ ctx)). }
  assert (0 < length (ct_edits c))%nat as Hpos by (destruct (ct_edits c); [done|simpl; lia]).
  rewrite (proj2 (Nat.leb_gt _ _)) by (simpl; rewrite !length_app, length_fmap; lia).
  cbn [drop]. rewrite drop_0, <- app_assoc, chunk_body_edits. cbn [app].
  destruct c as [ctx es [|]]; cbn [ct_context ct_edits ct_at_end] in *; cbn [app].
  - rewrite chunk_body_at_end by lia. unfold set_eof, chunk_of. cbn. do 3 f_equal. rewrite length_app, length_fmap. simpl. lia.
  - rewrite chunk_body_stop by (done || lia). unfold chunk_of. cbn. do 2 f_equal. rewrite length_app, length_fmap. simpl. lia.
Qed.

(** ** Hunks *)

(** What may stand behind a hunk. *)
Definition boundary (ls : list rstr) : Prop :=
  match ls with [] => True | l :: _ => (∃ r, l = lit "*** " ++ r) ∧ l ≠ EOF_MARKER end.

Lemma boundary_stops ls : boundary ls → chunk_ends ls.
Proof.
  destruct ls as [|l ls]; [done|]. intros [[r ->] Hne]. split; [done|]. eexists _, _. by split.
Qed.

Lemma boundary_added ls : boundary ls → added_lines ls = [].
Proof. destruct ls as [|l ls]; [done|]. by intros [[r ->] _]. Qed.

Lemma context_line_head ctx : ∃ r, context_line ctx = 64 :: 64 :: r.
Proof. destruct ctx as [ctx|]; by eexists. Qed.

Lemma trim_nonblank c l : is_whitespace c = false → is_empty (trim (c :: l)) = false.
Proof.
  intros Hc. destruct (trim (c :: l)) eqn:Ht; [|done]. apply trim_nil_inv in Ht. inversion Ht; subst. congruence.
Qed.

Lemma star_line r : is_empty (trim (lit "*** " ++ r)) = false ∧ starts_with (lit "***") (lit "*** " ++ r) = true.
Proof. split; [exact (trim_nonblank 42 (lit "** " ++ r) eq_refl)|done]. Qed.

Lemma chunks_stop cts ls : boundary ls → chunk_ends ((cts ≫= chunk_lines) ++ ls).
Proof.
  intros Hb. destruct cts as [|c cts]; [by apply boundary_stops|]. cbn. split; [|].
  - destruct (context_line_head (ct_context c)) as [r ->]. done.
  - destruct (context_line_head (ct_context c)) as [r ->]. eexists _, _. by split.
Qed.

Lemma update_chunks_text cts ls ln n acc fuel :
  Forall chunk_ok cts → boundary ls → (length ((cts ≫= chunk_lines) ++ ls) ≤ fuel)%nat →
  update_chunks fuel ((cts ≫= chunk_lines) ++ ls) ln n acc =
    Some (inl (acc ++ (chunk_of <$> cts), (n + length (cts ≫= chunk_lines))%nat)).
Proof.
  intros Hok Hb. revert n acc fuel. induction Hok as [|c cts Hc _ IH]; intros n acc fuel Hf.
  { cbn. rewrite app_nil_r, Nat.add_0_r. destruct ls as [|l ls]; [by destruct fuel|].
    destruct fuel as [|fuel]; [cbn in Hf; lia|]. destruct Hb as [[r ->] _]. cbn [update_chunks].
    destruct (star_line r) as [-> ->]. done. }
  rewrite bind_cons, <- app_assoc in *. set (rest := (cts ≫= chunk_lines) ++ ls) in *.
  assert (if ct_at_end c then True else chunk_ends rest) as Hstop by (case_match; [done|by apply chunks_stop]).
  pose proof (parse_chunk c rest (ln + Z.of_nat n) (bool_decide (acc = [])) Hc Hstop) as Hp.
  rewrite length_app in Hf. assert (∃ l tl, chunk_lines c = l :: tl) as (l & tl & Hl) by (by eexists _, _).
  assert (is_empty (trim l) = false ∧ starts_with (lit "***") l = false) as [He Hs].
  { unfold chunk_lines in Hl. injection Hl as <- _. destruct (context_line_head (ct_context c)) as [r ->].
    split; [by apply trim_nonblank|done]. }
  destruct fuel as [|fuel]; [rewrite Hl in Hf; simpl in Hf; lia|].
  rewrite Hl in Hp |- *. cbn [app] in *. cbn [update_chunks]. rewrite He, Hs, Hp.
  rewrite app_comm_cons, <- Hl, drop_app_length. rewrite IH by (rewrite Hl in Hf; simpl in Hf; lia).
  rewrite (app_comm_cons tl), <- Hl, length_app, <- app_assoc, fmap_cons. by rewrite Nat.add_assoc.
Qed.

Lemma marker_trim m p c : head m = Some c → is_whitespace c = false → path_ok p → trim (m ++ p) = m ++ p.
Proof.
  intros Hm Hc (Hne & Ht & _). destruct (last p) as [b|] eqn:Hb; [|by apply last_None in Hb].
  apply (trim_ends _ c b); [by destruct m|done| |by eapply trimmed_last].
  by rewrite last_app, Hb.
Qed.

Lemma parse_hunk_text h ls ln :
  hunk_ok h → boundary ls →
  match hunk_lines h ++ ls with
  | [] => False
  | first :: rest => parse_one_hunk first rest ln = Some (inl (hunk_of h, length (hunk_lines h)))
  end.
Proof.
  intros Hok Hb. destruct h as [p adds|p|p move cts]; cbn [hunk_lines app]; unfold parse_one_hunk.
  - destruct Hok as [Hp _]. rewrite (marker_trim _ _ 42) by done. rewrite (proj2 (strip_prefix_spec _ _ p)) by done.
    assert (added_lines ((cons PLUS <$> adds) ++ ls) = adds) as ->.
    { induction adds as [|a adds IH]; cbn; [by apply boundary_added|]. by rewrite IH. }
    cbn. by rewrite length_fmap.
  - rewrite (marker_trim _ _ 42) by done. cbn [app]. change (strip_prefix ADD_FILE_MARKER (DELETE_FILE_MARKER ++ p)) with (@None rstr).
    cbv iota. by rewrite (proj2 (strip_prefix_spec _ _ p)).
  - destruct Hok as (Hp & Hm & Hne & Hcs). rewrite (marker_trim _ _ 42) by done.
    change (strip_prefix ADD_FILE_MARKER (UPDATE_FILE_MARKER ++ p)) with (@None rstr).
    change (strip_prefix DELETE_FILE_MARKER (UPDATE_FILE_MARKER ++ p)) with (@None rstr). cbv iota.
    rewrite (proj2 (strip_prefix_spec _ _ p)) by done. cbv zeta.
    assert (∃ c cs', chunk_of <$> cts = c :: cs') as (c & cs' & Hcc) by (destruct cts; [done|by eexists _, _]).
    destruct move as [d|]; cbn [app].
    + cbn [head mbind option_bind]. rewrite (proj2 (strip_prefix_spec _ _ d)) by done. cbn [drop].
      rewrite drop_0, update_chunks_text by (try done; cbn; lia). cbn. rewrite Hcc. cbn. done.
    + assert ((l ← head ((cts ≫= chunk_lines) ++ ls); strip_prefix MOVE_TO_MARKER l) = None) as ->.
      { destruct cts as [|c' cts]; [done|]. cbn. destruct (context_line_head (ct_context c')) as [r ->]. done. }
      rewrite drop_0, update_chunks_text by done. cbn. rewrite Hcc. cbn. done.
Qed.

Lemma hunks_boundary hs : boundary (hs ≫= hunk_lines).
Proof. destruct hs as [|h hs]; [done|]. destruct h; cbn; (split; [by eexists|done]). Qed.

Lemma parse_hunks_text hs ln fuel :
  Forall hunk_ok hs → (length (hs ≫= hunk_lines) ≤ fuel)%nat →
  parse_hunks fuel (hs ≫= hunk_lines) ln = Some (inl (hunk_of <$> hs)).
Proof.
  intros Hok. revert ln fuel. induction Hok as [|h hs Hh _ IH]; intros ln fuel Hf; [by destruct fuel|].
  rewrite bind_cons in *. pose proof (parse_hunk_text h (hs ≫= hunk_lines) ln Hh (hunks_boundary hs)) as Hp.
  rewrite length_app in Hf. assert (∃ first rest, hunk_lines h = first :: rest) as (first & rest & Hl)
    by (destruct h; by eexists _, _).
  rewrite Hl in *. cbn [app] in *. destruct fuel as [|fuel]; [simpl in Hf; lia|].
  cbn [parse_hunks]. rewrite Hp. cbn [mbind option_bind]. rewrite app_comm_cons, drop_app_length.
  rewrite IH by (simpl in Hf; lia). done.
Qed.

(** ** Patches *)

Lemma edit_line_ok e : line_ok (edit_text e) → line_ok (edit_line e).
Proof.
  intros [Hn Hr]. assert (∃ c, edit_line e = c :: edit_text e ∧ c ≠ 10 ∧ c ≠ 13) as (c & -> & Hc & Hc')
    by (destruct e; by eexists).
  split.
  - rewrite not_elem_of_cons. done.
  - destruct (edit_text e) as [|d l]; [simpl; congruence|]. done.
Qed.

Lemma line_ok_app m l : line_ok m → line_ok l → line_ok (m ++ l).
Proof.
  intros [Hm1 Hm2] [Hl1 Hl2]. split; [by apply not_elem_of_app|]. rewrite last_app. by destruct (last l) eqn:E; rewrite ?E.
Qed.

Lemma path_line_ok p : path_ok p → line_ok p.
Proof.
  intros (Hne & Ht & Hn). split; [done|]. intros H. by apply (trimmed_last p 13) in H.
Qed.

Lemma lit_line_ok m : bool_decide ((10 ∉ m) ∧ last m ≠ Some 13) = true → line_ok m.
Proof. by rewrite bool_decide_eq_true. Qed.

Ltac marker_ok := by apply lit_line_ok; vm_compute.

Lemma chunk_lines_ok c : chunk_ok c → Forall line_ok (chunk_lines c).
Proof.
  intros (Hctx & _ & Hes). unfold chunk_lines. constructor.
  - unfold context_line. destruct (ct_context c); [apply line_ok_app; [marker_ok|done]|marker_ok].
  - apply Forall_app. split; [|destruct (ct_at_end c); [constructor; [marker_ok|]|]; constructor].
    apply Forall_fmap. eapply Forall_impl; [exact Hes|]. intros e. apply edit_line_ok.
Qed.

Lemma hunk_lines_ok h : hunk_ok h → Forall line_ok (hunk_lines h).
Proof.
  destruct h as [p adds|p|p move cts]; cbn [hunk_lines hunk_ok].
  - intros [Hp Ha]. constructor; [apply line_ok_app; [marker_ok|by apply path_line_ok]|].
    apply Forall_fmap. eapply Forall_impl; [exact Ha|]. intros l Hl. by apply (edit_line_ok (Insert l)).
  - intros Hp. constructor; [|constructor]. apply line_ok_app; [marker_ok|by apply path_line_ok].
  - intros (Hp & Hm & _ & Hcs). constructor; [apply line_ok_app; [marker_ok|by apply path_line_ok]|].
    apply Forall_app. split.
    + destruct move; [constructor; [|constructor]; apply line_ok_app; [marker_ok|done]|constructor].
    + apply Forall_bind. eapply Forall_impl; [exact Hcs|]. apply chunk_lines_ok.
Qed.

Lemma patch_lines_ok hs : Forall hunk_ok hs → Forall line_ok (patch_lines hs).
Proof.
  intros Hok. unfold patch_lines. constructor; [marker_ok|]. apply Forall_app. split; [|constructor; [marker_ok|constructor]].
  apply Forall_bind. eapply Forall_impl; [exact Hok|]. apply hunk_lines_ok.
Qed.

Lemma last_cons_snoc {A} (a : A) l b : last (a :: l ++ [b]) = Some b.
Proof. by rewrite app_comm_cons, last_snoc. Qed.

Lemma join_last sep ls l : ls ≠ [] → l ≠ [] → last (join sep (ls ++ [l])) = last l.
Proof.
  intros Hne Hl. induction ls as [|l' ls IH]; [done|]. destruct ls as [|l'' ls].
  - cbn. rewrite !last_app. destruct (last l) eqn:E; [done|]. by apply last_None in E.
  - cbn [app join] in *. rewrite !last_app. rewrite IH by done. destruct (last l) eqn:E; [done|]. by apply last_None in E.
Qed.

Lemma patch_trim hs : trim (patch_of hs) = patch_of hs.
Proof.
  apply (trim_ends _ 42 104); [| done| |done].
  - unfold patch_of, patch_lines. destruct ((hs ≫= hunk_lines) ++ [END_PATCH_MARKER]); done.
  - unfold patch_of, patch_lines. rewrite app_comm_cons, join_last by done. done.
Qed.

Lemma patch_bounded hs : check_patch_boundaries_strict (patch_lines hs) = inl tt.
Proof. unfold check_patch_boundaries_strict, patch_lines. rewrite last_cons_snoc. done. Qed.

Lemma patch_hunks hs :
  Forall hunk_ok hs →
  parse_hunks (length (patch_lines hs)) (removelast (tail (patch_lines hs))) 2 = Some (inl (hunk_of <$> hs)).
Proof.
  intros Hok. assert (removelast (tail (patch_lines hs)) = hs ≫= hunk_lines) as ->.
  { unfold patch_lines. cbn [tail]. rewrite removelast_app by done. cbn [removelast]. apply app_nil_r. }
  apply parse_hunks_text; [done|]. unfold patch_lines. cbn. rewrite length_app. lia.
Qed.

(** The text of a patch is read back as what it says. *)
Lemma parse_patch_of hs :
  Forall hunk_ok hs → parse_patch (patch_of hs) = Some (inl (mkParsed (hunk_of <$> hs) (patch_of hs))).
Proof.
  intros Hok. unfold parse_patch, parse_patch_text. rewrite patch_trim.
  assert (lines (patch_of hs) = patch_lines hs) as ->.
  { apply lines_join; [done|exact (patch_lines_ok hs Hok)|]. unfold patch_lines. by rewrite last_cons_snoc. }
  by rewrite patch_bounded, patch_hunks.
Qed.

(** A patch wrapped as a document of a shell. *)
Definition heredoc (start : rstr) (hs : list HunkText) : rstr := join [10] (start :: patch_lines hs ++ [lit "EOF"]).

Lemma heredoc_trim start hs : is_heredoc_start start = true → trim (heredoc start hs) = heredoc start hs.
Proof.
  intros Hs. assert (∃ r, start = 60 :: r) as [r ->].
  { unfold is_heredoc_start in Hs. rewrite !orb_true_iff, !bool_decide_eq_true in Hs. destruct Hs as [[->| ->]| ->]; by eexists. }
  apply (trim_ends _ 60 70); [|done| |done].
  - unfold heredoc. destruct (patch_lines hs ++ [lit "EOF"]) eqn:E; done.
  - unfold heredoc. rewrite app_comm_cons, join_last by done. done.
Qed.

Lemma lenient_inner start ls e :
  is_heredoc_start start = true → check_patch_boundaries_strict ls = inl tt → (2 ≤ length ls)%nat →
  check_patch_boundaries_lenient (start :: ls ++ [lit "EOF"]) e = inl ls.
Proof.
  intros Hs Hb Hl. destruct ls as [|l ls]; [simpl in Hl; lia|].
  assert (last (start :: (l :: ls) ++ [lit "EOF"]) = Some (lit "EOF")) as Hlast by apply last_cons_snoc.
  assert (removelast ((l :: ls) ++ [lit "EOF"]) = l :: ls) as Hr
    by (rewrite removelast_app by done; cbn [removelast]; apply app_nil_r).
  unfold check_patch_boundaries_lenient. cbn [app tail] in *. rewrite Hlast, Hs, Hr, Hb.
  change (ends_with (lit "EOF") (lit "EOF")) with true. cbn [andb].
  by rewrite (proj2 (Nat.leb_le _ _)) by (cbn in *; rewrite length_app; simpl; lia).
Qed.

Lemma parse_heredoc start hs :
  is_heredoc_start start = true → Forall hunk_ok hs →
  parse_patch (heredoc start hs) = Some (inl (mkParsed (hunk_of <$> hs) (patch_of hs))).
Proof.
  intros Hs Hok. unfold parse_patch, parse_patch_text. rewrite heredoc_trim by done.
  assert (line_ok start ∧ bool_decide (trim start ≠ BEGIN_PATCH_MARKER) = true) as [Hstart Hb].
  { unfold is_heredoc_start in Hs. rewrite !orb_true_iff, !bool_decide_eq_true in Hs.
    destruct Hs as [[->| ->]| ->]; (split; [marker_ok|by vm_compute]). }
  assert (lines (heredoc start hs) = start :: patch_lines hs ++ [lit "EOF"]) as ->.
  { apply lines_join; [done| |by rewrite last_cons_snoc]. constructor; [exact Hstart|].
    apply Forall_app. split; [exact (patch_lines_ok hs Hok)|]. constructor; [marker_ok|constructor]. }
  unfold check_patch_boundaries_strict at 1. cbn [head]. rewrite last_cons_snoc.
  unfold check_start_and_end_lines_strict. cbn [fmap option_fmap option_map].
  assert (trim start ≠ BEGIN_PATCH_MARKER) as Hne by (by apply bool_decide_eq_true in Hb).
  rewrite (bool_decide_eq_false_2 (trim start = BEGIN_PATCH_MARKER)), Hb by done. cbn [andb PARSE_IN_STRICT_MODE].
  assert (2 ≤ length (patch_lines hs))%nat as Hlen by (unfold patch_lines; cbn; rewrite length_app; simpl; lia).
  rewrite (lenient_inner start _ _ Hs (patch_bounded hs) Hlen).
  by rewrite patch_hunks.
Qed.

(** C22: the parser reads back what the grammar writes, with these bounds.  Take a
    patch printed from its parts: paths that are not empty and have no blanks
    around them, lines that hold no line feed and do not end in a carriage return,
    every update with a chunk and every chunk with a line.  It is parsed as these
    parts, bare or wrapped as a document of a shell in any of the three ways, and
    the text kept with it is the patch itself.  A carriage return at the end of a
    line would be dropped, and an update without chunks, which the grammar in the
    comments of parser.rs has, is refused. *)
Theorem patch_round_trip hs (Hok : Forall hunk_ok hs) :
  parse_patch (patch_of hs) = Some (inl (mkParsed (hunk_of <$> hs) (patch_of hs))) ∧
  ∀ start, is_heredoc_start start = true →
    parse_patch (heredoc start hs) = Some (inl (mkParsed (hunk_of <$> hs) (patch_of hs))).
Proof. split; [by apply parse_patch_of|]. intros start Hs. by apply parse_heredoc. Qed.

Definition demo_hunks : list HunkText :=
  [TextAdd (lit "new.txt") [lit "one"; []];
   TextUpdate (lit "src/a.rs") (Some (lit "src/b.rs"))
     [mkChunkText (Some (lit "fn main() {")) [Keep (lit "  x"); Remove (lit "  y"); Insert (lit "  z")] false;
      mkChunkText None [Remove (lit "}")] true];
   TextDelete (lit "old file.txt")].

Lemma patch_round_trip_witness :
  hunk_of <$> demo_hunks =
    [AddFile (lit "new.txt") (lit "one" ++ [10; 10]);
     UpdateFile (lit "src/a.rs") (Some (lit "src/b.rs"))
       [mkChunk (Some (lit "fn main() {")) [lit "  x"; lit "  y"] [lit "  x"; lit "  z"] false;
        mkChunk None [lit "}"] [] true];
     DeleteFile (lit "old file.txt")] ∧
  parse_patch (patch_of demo_hunks) = Some (inl (mkParsed (hunk_of <$> demo_hunks) (patch_of demo_hunks))) ∧
  ∀ start, is_heredoc_start start = true →
    parse_patch (heredoc start demo_hunks) = Some (inl (mkParsed (hunk_of <$> demo_hunks) (patch_of demo_hunks))).
Proof.
  split; [vm_compute; reflexivity|]. apply (patch_round_trip demo_hunks).
  apply (bool_decide_unpack _). vm_compute. exact I.
Defined.
