(* ===== verification/ApplyPatchRun.v ===== *)
(** What a run of the patch tool does to the disk: nothing before every change
    is known, then the changes in their order. *)
From S2P Require Import Prelude Str Utf8 Path ToolDisk ApplyPatch ApplyPatchThms ApplyPatchParse.

#[local] Arguments lit : simpl never.

Section Run.
Context `{!System}.

(** * What a change does, and what it tells *)

Definition effect (fs : gmap rstr (list Z)) (c : FileChange) : gmap rstr (list Z) :=
  match c with
  | FCAdd path content => <[locate path := as_bytes content]> fs
  | FCDelete path _ => delete (locate path) fs
  | FCUpdate path _ new_content => <[locate path := as_bytes new_content]> fs
  | FCMove source dest _ new_content => delete (locate source) (<[locate dest := as_bytes new_content]> fs)
  end.

Definition result_of (c : FileChange) : ApplyPatchFileResult :=
  match c with
  | FCAdd path content => mkFileResult path (lit "added") None content None
  | FCDelete path original => mkFileResult path (lit "deleted") (Some original) [] None
  | FCUpdate path original new => mkFileResult path (lit "modified") (Some original) new None
  | FCMove source dest original new => mkFileResult source (lit "moved") (Some original) new (Some dest)
  end.

Definition notes_of (id : rstr) (c : FileChange) : list FileWritten :=
  match c with
  | FCAdd path content => [mkWritten id path content None true]
  | FCDelete path original => [mkWritten id path [] (Some original) false]
  | FCUpdate path original new => [mkWritten id path new (Some original) false]
  | FCMove source dest original new => [mkWritten id dest new None true; mkWritten id source [] (Some original) false]
  end.

(** The files a change touches. *)
Definition touched (c : FileChange) : list rstr :=
  match c with
  | FCAdd path _ => [locate path]
  | FCDelete path _ => [locate path]
  | FCUpdate path _ _ => [locate path]
  | FCMove source dest _ _ => [locate source; locate dest]
  end.

(** The change that a hunk asks for, on files as they are. *)
Definition hunk_change (fs : gmap rstr (list Z)) (cwd : rstr) (h : Hunk) : option FileChange :=
  match h with
  | AddFile path contents => Some (FCAdd (path_join cwd path) contents)
  | DeleteFile path =>
      let p := path_join cwd path in
      bytes ← fs !! locate p; Some (FCDelete p (from_utf8_lossy bytes))
  | UpdateFile path move_path chunks =>
      let p := path_join cwd path in
      bytes ← fs !! locate p;
      derived ← derive_new_contents (from_utf8_lossy bytes) p chunks;
      match derived with
      | inr _ => None
      | inl new =>
          Some match move_path with
               | Some dest => FCMove p (path_join cwd dest) (from_utf8_lossy bytes) new
               | None => FCUpdate p (from_utf8_lossy bytes) new
               end
      end
  end.

(** * Phase 2 only reads *)

Lemma compute_change_spec cwd h d :
  unchanged d (compute_change cwd h d).2 ∧
  match (compute_change cwd h d).1 with
  | inl c => hunk_change (files d) cwd h = Some c
  | inr None => False
  | inr (Some _) => True
  end.
Proof.
  destruct h as [path contents|path|path move_path chunks]; cbn; [done| |].
  all: unfold try_bind, map_err, read_file_as_string, try_bind, err_text, fs_read_file, mbind, St_bind, mret, St_ret.
  all: destruct (fails _ _) as [f|]; cbn; [done|].
  all: destruct (files d !! locate _) as [bytes|] eqn:Hb; cbn; [|done].
  - done.
  - destruct (derive_new_contents_total (from_utf8_lossy bytes) (path_join cwd path) chunks) as [[new|e] ->]; cbn; [|done].
    by destruct move_path.
Qed.

Lemma compute_all_changes_spec cwd hs d :
  unchanged d (compute_all_changes cwd hs d).2 ∧
  match (compute_all_changes cwd hs d).1 with
  | inl cs => Forall2 (λ h c, hunk_change (files d) cwd h = Some c) hs cs
  | inr None => False
  | inr (Some _) => True
  end.
Proof.
  revert d. induction hs as [|h hs IH]; intros d; cbn; [by split; [|constructor]|].
  unfold try_bind. pose proof (compute_change_spec cwd h d) as [Hu Hc].
  destruct (compute_change cwd h d) as [[c|[e|]] d1]; cbn in *; [|done|done].
  pose proof (IH d1) as [Hu' Hcs]. destruct (compute_all_changes cwd hs d1) as [[cs|[e|]] d2]; cbn in *; [| |done].
  - split; [by eapply unchanged_trans|]. constructor; [done|]. by destruct Hu as [<- _].
  - split; [by eapply unchanged_trans|done].
Qed.

(** * Phase 3 *)

Lemma ensure_parent_dirs_unchanged path d : unchanged d (ensure_parent_dirs path d).2.
Proof. unfold ensure_parent_dirs. destruct (parent_components path) as [[|c cs]|]; done. Qed.

Lemma apply_change_spec id c d :
  match apply_change id c d with
  | (inl r, d') => files d' = effect (files d) c ∧ written d' = written d ++ notes_of id c ∧ r = result_of c
  | (inr _, d') => same_but (touched c) (files d) (files d') ∧ written d' = written d
  end.
Proof.
  destruct c as [path content|path original|path original new|source dest original new];
    cbn [apply_change effect notes_of result_of touched];
    unfold try_bind, err_text, send_file_written, st_modify, mbind, St_bind, mret, St_ret.
  - pose proof (ensure_parent_dirs_unchanged path d) as [Hf Hw].
    destruct (ensure_parent_dirs path d) as [[?|?] d1]; cbn in *; [|by rewrite Hf].
    pose proof (fs_write_file_spec path (as_bytes content) d1) as Hwr.
    destruct (fs_write_file path _ d1) as [[?|?] d2]; cbn in *; rewrite Hf, Hw in Hwr; [|done].
    destruct Hwr as [-> ->]. done.
  - pose proof (fs_delete_file_spec path d) as Hd.
    destruct (fs_delete_file path d) as [[?|?] d1]; cbn in *; destruct Hd as [-> ->]; done.
  - pose proof (fs_write_file_spec path (as_bytes new) d) as Hwr.
    destruct (fs_write_file path _ d) as [[?|?] d2]; cbn in *; [|done]. destruct Hwr as [-> ->]. done.
  - pose proof (ensure_parent_dirs_unchanged dest d) as [Hf Hw].
    destruct (ensure_parent_dirs dest d) as [[?|?] d1]; cbn in *; [|by rewrite Hf].
    pose proof (fs_write_file_spec dest (as_bytes new) d1) as Hwr.
    destruct (fs_write_file dest _ d1) as [[?|?] d2]; cbn in *; rewrite Hf, Hw in Hwr; destruct Hwr as [Hf2 Hw2].
    2: { split; [|done]. intros p Hp. apply Hf2. set_solver. }
    pose proof (fs_delete_file_spec source d2) as Hd.
    destruct (fs_delete_file source d2) as [[?|?] d3]; cbn in *; destruct Hd as [Hf3 Hw3]; rewrite Hf3, Hw3, Hf2, Hw2.
    + by rewrite <- app_assoc.
    + split; [|done]. intros p Hp. rewrite lookup_insert_ne; [done|]. set_solver.
Qed.

Lemma apply_changes_spec id cs d :
  match apply_changes id cs d with
  | (inl rs, d') =>
      files d' = foldl effect (files d) cs ∧ written d' = written d ++ (cs ≫= notes_of id) ∧ rs = result_of <$> cs
  | (inr _, d') => ∃ ready c rest,
      cs = ready ++ c :: rest ∧ same_but (touched c) (foldl effect (files d) ready) (files d') ∧
      written d' = written d ++ (ready ≫= notes_of id)
  end.
Proof.
  revert d. induction cs as [|c cs IH]; intros d; cbn; [by rewrite app_nil_r|].
  unfold try_bind. pose proof (apply_change_spec id c d) as Hc. destruct (apply_change id c d) as [[r|e] d1]; cbn in *.
  - destruct Hc as (Hf & Hw & ->). pose proof (IH d1) as Hcs.
    destruct (apply_changes id cs d1) as [[rs|e] d2]; cbn in *; rewrite Hf, Hw in Hcs.
    + destruct Hcs as (-> & -> & ->). by rewrite <- app_assoc.
    + destruct Hcs as (ready & c' & rest & -> & Hs & ->). exists (c :: ready), c', rest.
      split; [done|]. split; [done|]. cbn. by rewrite <- app_assoc.
  - exists [], c, cs. destruct Hc as [Hs Hw]. split; [done|]. split; [done|]. cbn. by rewrite app_nil_r.
Qed.

(** * The whole run *)

(** C19: what a run of the patch tool does.  On success every hunk was computed
    from the files as they were before the run, the changes took effect in
    their order, and the notifications, the results and the summary are those
    of the changes.  A patch that cannot be read, is empty or does not apply
    leaves every file as it was and notifies nobody.  When the system fails a
    write, the changes before it stand and nothing else is touched but the
    files of the change that failed.  The run does not panic. *)
Theorem apply_patch_spec cwd id input d :
  match apply_patch cwd id input d with
  | (OutSuccess rs text, d') => ∃ parsed cs,
      parse_patch input = Some (inl parsed) ∧ hunks parsed ≠ [] ∧
      Forall2 (λ h c, hunk_change (files d) cwd h = Some c) (hunks parsed) cs ∧
      files d' = foldl effect (files d) cs ∧ written d' = written d ++ (cs ≫= notes_of id) ∧
      rs = result_of <$> cs ∧ text = build_summary rs
  | (OutToolError _, d') => ∃ parsed ready c rest,
      parse_patch input = Some (inl parsed) ∧
      Forall2 (λ h c, hunk_change (files d) cwd h = Some c) (hunks parsed) (ready ++ c :: rest) ∧
      same_but (touched c) (foldl effect (files d) ready) (files d') ∧
      written d' = written d ++ (ready ≫= notes_of id)
  | (OutPanic, _) => False
  | (_, d') => files d' = files d ∧ written d' = written d
  end.
Proof.
  unfold apply_patch. destruct (parse_patch_total input) as [[parsed|e] Hp]; rewrite Hp; [|done].
  destruct (hunks parsed) as [|h hs] eqn:Hh; [done|]. rewrite st_bind_run.
  pose proof (compute_all_changes_spec cwd (h :: hs) d) as [Hu Hc].
  destruct (compute_all_changes cwd (h :: hs) d) as [[cs|[e|]] d1]; cbn [fst snd] in *; [|done|done].
  rewrite st_bind_run. pose proof (apply_changes_spec id cs d1) as Ha. destruct Hu as [Hf Hw].
  destruct (apply_changes id cs d1) as [[rs|e] d2]; cbn [fst snd mret St_ret]; rewrite Hf, Hw in Ha.
  - destruct Ha as (-> & -> & ->). exists parsed, cs. by rewrite Hh.
  - destruct Ha as (ready & c & rest & -> & Hs & ->). exists parsed, ready, c, rest. by rewrite Hh.
Qed.

(** * One hunk after the other *)

(** Each hunk on the files that the ones before it left. *)
Fixpoint in_turn (cwd : rstr) (hs : list Hunk) (fs : gmap rstr (list Z)) : option (gmap rstr (list Z)) :=
  match hs with
  | [] => Some fs
  | h :: hs => c ← hunk_change fs cwd h; in_turn cwd hs (effect fs c)
  end.

Definition hunk_touches (cwd : rstr) (h : Hunk) : list rstr :=
  match h with
  | AddFile path _ => [locate (path_join cwd path)]
  | DeleteFile path => [locate (path_join cwd path)]
  | UpdateFile path None _ => [locate (path_join cwd path)]
  | UpdateFile path (Some dest) _ => [locate (path_join cwd path); locate (path_join cwd dest)]
  end.

(** No two hunks touch the same file. *)
Fixpoint apart (cwd : rstr) (hs : list Hunk) : Prop :=
  match hs with
  | [] => True
  | h :: hs => Forall (λ h', ∀ p, p ∈ hunk_touches cwd h → p ∉ hunk_touches cwd h') hs ∧ apart cwd hs
  end.

Lemma hunk_change_touches fs cwd h c : hunk_change fs cwd h = Some c → touched c = hunk_touches cwd h.
Proof.
  destruct h as [path contents|path|path move chunks]; cbn; intros Hc.
  - by simplify_eq.
  - destruct (fs !! locate _) as [bytes|]; cbn in Hc; by simplify_eq.
  - destruct (fs !! locate _) as [bytes|]; cbn in Hc; [|done].
    destruct (derive_new_contents _ _ _) as [[new|e]|]; cbn in Hc; [|done|done]. destruct move; by simplify_eq.
Qed.

Lemma effect_other fs c p : p ∉ touched c → effect fs c !! p = fs !! p.
Proof.
  intros Hp. destruct c; cbn in *.
  all: rewrite ?lookup_delete_ne by set_solver; rewrite ?lookup_insert_ne by set_solver; done.
Qed.

Lemma hunk_change_local fs fs' cwd h :
  (∀ p, p ∈ hunk_touches cwd h → fs' !! p = fs !! p) → hunk_change fs' cwd h = hunk_change fs cwd h.
Proof.
  intros Hp. destruct h as [path contents|path|path [dest|] chunks]; cbn in *; [done| | |].
  all: by rewrite (Hp (locate (path_join cwd path))) by set_solver.
Qed.

Lemma hunk_change_after fs c cwd h h' :
  hunk_change fs cwd h = Some c → (∀ p, p ∈ hunk_touches cwd h → p ∉ hunk_touches cwd h') →
  hunk_change (effect fs c) cwd h' = hunk_change fs cwd h'.
Proof.
  intros Hc Hd. apply hunk_change_local. intros p Hp. apply effect_other.
  rewrite (hunk_change_touches _ _ _ _ Hc). intros Hin. by apply (Hd p).
Qed.

Lemma hunk_changes_after fs c cwd h hs cs :
  hunk_change fs cwd h = Some c → Forall (λ h', ∀ p, p ∈ hunk_touches cwd h → p ∉ hunk_touches cwd h') hs →
  Forall2 (λ h c, hunk_change fs cwd h = Some c) hs cs →
  Forall2 (λ h' c', hunk_change (effect fs c) cwd h' = Some c') hs cs.
Proof.
  intros Hc Hd Hcs. induction Hcs as [|h' c' hs cs Hc' _ IH]; [constructor|].
  apply Forall_cons in Hd as [Hd Hds]. constructor; [|by apply IH]. by rewrite (hunk_change_after _ _ _ h) by done.
Qed.

(** Computed at once or in turn, the changes of hunks apart are the same. *)
Lemma in_turn_changes cwd hs fs cs :
  apart cwd hs → Forall2 (λ h c, hunk_change fs cwd h = Some c) hs cs → in_turn cwd hs fs = Some (foldl effect fs cs).
Proof.
  intros Ha Hcs. revert fs cs Hcs Ha. induction hs as [|h hs IH]; intros fs cs Hcs Ha; inversion Hcs as [|? c ? cs' Hc Hcs']; subst; [done|].
  destruct Ha as [Hd Ha]. cbn. rewrite Hc. cbn. apply IH; [|done]. by apply (hunk_changes_after _ _ _ h).
Qed.

Lemma in_turn_all cwd hs fs fs' :
  apart cwd hs → in_turn cwd hs fs = Some fs' → ∃ cs, Forall2 (λ h c, hunk_change fs cwd h = Some c) hs cs.
Proof.
  revert fs. induction hs as [|h hs IH]; intros fs Ha Ht; [by eexists|]. destruct Ha as [Hd Ha]. cbn in Ht.
  destruct (hunk_change fs cwd h) as [c|] eqn:Hc; cbn in Ht; [|done].
  destruct (IH _ Ha Ht) as [cs Hcs]. exists (c :: cs). constructor; [done|].
  assert (Forall (λ h', hunk_change (effect fs c) cwd h' = hunk_change fs cwd h') hs) as Heq
    by (eapply Forall_impl; [exact Hd|]; intros h' Hh'; by apply (hunk_change_after _ _ _ h)).
  clear -Hcs Heq. induction Hcs as [|h' c' hs cs Hc' _ IH']; [constructor|].
  apply Forall_cons in Heq as [He Hes]. constructor; [etrans; [symmetry; exact He|exact Hc']|by apply IH'].
Qed.

(** ** On a system that fails nothing *)

Lemma compute_change_reliable cwd h d c :
  reliable → hunk_change (files d) cwd h = Some c → (compute_change cwd h d).1 = inl c.
Proof.
  intros Hr Hc. destruct h as [path contents|path|path move_path chunks]; cbn in *; [by simplify_eq| |].
  all: unfold try_bind, map_err, read_file_as_string, try_bind, err_text, fs_read_file, mbind, St_bind, mret, St_ret; rewrite Hr; cbn.
  all: destruct (files d !! locate _) as [bytes|] eqn:Hb; cbn in *; [|done].
  - by simplify_eq.
  - destruct (derive_new_contents _ _ _) as [[new|e]|]; cbn in *; [|done|done]. destruct move_path; by simplify_eq.
Qed.

Lemma compute_all_changes_reliable cwd hs d cs :
  reliable → Forall2 (λ h c, hunk_change (files d) cwd h = Some c) hs cs → (compute_all_changes cwd hs d).1 = inl cs.
Proof.
  intros Hr. revert d cs. induction hs as [|h hs IH]; intros d cs Hcs; inversion Hcs as [|? c ? cs' Hc Hcs']; subst; [done|].
  cbn. unfold try_bind. pose proof (compute_change_reliable _ _ _ _ Hr Hc) as Hc1.
  pose proof (compute_change_spec cwd h d) as [[Hf _] _].
  destruct (compute_change cwd h d) as [r d1]; cbn in *. subst r.
  rewrite <- Hf in Hcs'. pose proof (IH d1 cs' Hcs') as Hcs1. destruct (compute_all_changes cwd hs d1) as [r d2]; cbn in *. by subst r.
Qed.

Lemma apply_change_reliable id cwd h d c :
  reliable → hunk_change (files d) cwd h = Some c → ∃ r, (apply_change id c d).1 = inl r.
Proof.
  intros Hr Hc.
  assert (∀ path, ∃ d', ensure_parent_dirs path d = (inl tt, d') ∧ files d' = files d) as Hdirs.
  { intros path. unfold ensure_parent_dirs. destruct (parent_components path) as [[|x xs]|]; [by eexists| |by eexists].
    unfold err_text, mbind, St_bind, fs_create_dir_all. rewrite Hr. by eexists. }
  assert (∀ path bytes d0, files d0 !! locate path = Some bytes → ∃ d', fs_delete_file path d0 = (inl tt, d')) as Hdel
    by (intros path bytes d0 Hb; unfold fs_delete_file; rewrite Hr, Hb; by eexists).
  assert (∀ path data d0, fs_write_file path data d0 =
    (inl tt, log_call (FsWrite path data) (d0 <| files := <[locate path := data]> (files d0) |>))) as Hwrite
    by (intros; unfold fs_write_file; by rewrite Hr).
  destruct h as [path contents|path|path move_path chunks]; cbn in Hc.
  - simplify_eq. cbn. unfold try_bind, err_text, mbind, St_bind, mret, St_ret. destruct (Hdirs (path_join cwd path)) as (d' & -> & _). rewrite Hwrite. by eexists.
  - destruct (files d !! locate _) as [bytes|] eqn:Hb; cbn in Hc; [|done]. simplify_eq. cbn. unfold try_bind, err_text, mbind, St_bind, mret, St_ret.
    destruct (Hdel _ _ _ Hb) as (d' & ->). by eexists.
  - destruct (files d !! locate _) as [bytes|] eqn:Hb; cbn in Hc; [|done].
    destruct (derive_new_contents _ _ _) as [[new|e]|]; cbn in Hc; [|done|done].
    destruct move_path as [dest|]; simplify_eq; cbn; unfold try_bind, err_text, mbind, St_bind, mret, St_ret; [|rewrite Hwrite; by eexists].
    destruct (Hdirs (path_join cwd dest)) as (d' & -> & Hf). rewrite Hwrite.
    assert (∃ b, files (log_call (FsWrite (path_join cwd dest) (as_bytes new))
      (d' <| files := <[locate (path_join cwd dest) := as_bytes new]> (files d') |>)) !! locate (path_join cwd path) = Some b) as [b Hb'].
    { cbn. rewrite Hf. destruct (decide (locate (path_join cwd dest) = locate (path_join cwd path))) as [->|Hne].
      - rewrite lookup_insert_eq. by eexists.
      - rewrite lookup_insert_ne by done. by eexists. }
    cbv beta iota. destruct (Hdel _ _ _ Hb') as (d'' & ->). by eexists.
Qed.

Lemma apply_changes_reliable id cwd hs d cs :
  reliable → apart cwd hs → Forall2 (λ h c, hunk_change (files d) cwd h = Some c) hs cs →
  ∃ rs, (apply_changes id cs d).1 = inl rs.
Proof.
  intros Hr. revert d cs. induction hs as [|h hs IH]; intros d cs Ha Hcs; inversion Hcs as [|? c ? cs' Hc Hcs']; subst; [by eexists|].
  destruct Ha as [Hd Ha]. cbn. unfold try_bind. destruct (apply_change_reliable id _ _ _ _ Hr Hc) as [r Hr1].
  pose proof (apply_change_spec id c d) as Hspec. destruct (apply_change id c d) as [r1 d1]; cbn in Hr1; subst r1.
  destruct Hspec as (Hf & _ & _). pose proof (hunk_changes_after _ _ _ _ _ _ Hc Hd Hcs') as Hcs1. rewrite <- Hf in Hcs1.
  destruct (IH d1 cs' Ha Hcs1) as [rs Hrs]. destruct (apply_changes id cs' d1) as [r2 d2]; cbn in *. subst r2. by eexists.
Qed.

(** C20: where no call of the system fails, hunks that touch no file in common give
    the same files whether they are computed at once from the disk before the run,
    as the tool does it, or one after the other; and the tool refuses such a patch,
    leaving the disk alone, exactly when one of them does not apply. *)
Theorem apply_patch_in_turn cwd id input parsed d
    (Hreliable : reliable) (Hparse : parse_patch input = Some (inl parsed)) (Hsome : hunks parsed ≠ [])
    (Hapart : apart cwd (hunks parsed)) :
  match apply_patch cwd id input d with
  | (OutSuccess _ _, d') => in_turn cwd (hunks parsed) (files d) = Some (files d')
  | (OutApplicationError _, d') => in_turn cwd (hunks parsed) (files d) = None ∧ files d' = files d
  | _ => False
  end.
Proof.
  unfold apply_patch. rewrite Hparse. destruct (hunks parsed) as [|h hs] eqn:Hh; [done|]. rewrite st_bind_run.
  pose proof (compute_all_changes_spec cwd (h :: hs) d) as [[Hf _] Hc].
  destruct (compute_all_changes cwd (h :: hs) d) as [[cs|[e|]] d1] eqn:Hall; cbn [fst snd] in *; [| |done].
  - rewrite st_bind_run. rewrite <- Hf in Hc. destruct (apply_changes_reliable id cwd _ d1 cs Hreliable Hapart Hc) as [rs Hrs].
    pose proof (apply_changes_spec id cs d1) as Ha. destruct (apply_changes id cs d1) as [r d2]; cbn [fst snd] in *. subst r.
    cbn [mret St_ret fst snd]. destruct Ha as (-> & _ & _). rewrite <- Hf. by apply in_turn_changes.
  - split; [|done]. destruct (in_turn cwd (h :: hs) (files d)) as [fs'|] eqn:Ht; [|done]. exfalso.
    destruct (in_turn_all _ _ _ _ Hapart Ht) as [cs Hcs].
    pose proof (compute_all_changes_reliable _ _ _ _ Hreliable Hcs) as Hok. by rewrite Hall in Hok.
Qed.

(** C18: from the text of a patch to the file, where no call of the system fails.
    Take a patch written by the grammar that updates one file, no line of which
    ends in a carriage return, and whose chunks show lines of this file as they are
    and stand each at the first place behind the one before; and let the last line
    of the file not be blank.  Then the run succeeds and writes the file with the
    edits made and every other line kept, as it was read, and no other file.  A
    file is read as lossy UTF-8 and written back whole, so bytes that are no UTF-8
    come back as replacement characters (other_bytes_rewritten); an empty
    last line is lost (blank_end_lost). *)
Theorem update_reaches_file cwd id path cts bytes out adds d
    (Hreliable : reliable) (Hpath : path_ok path) (Hcts : cts ≠ []) (Hok : Forall chunk_ok cts)
    (Hfile : files d !! locate (path_join cwd path) = Some bytes)
    (Hblank : ends_blank (file_lines (from_utf8_lossy bytes)) = false)
    (Hexact : exact_edits (chunk_of <$> cts) (file_lines (from_utf8_lossy bytes)) out adds) :
  let new := join [10] (final_newline (out ++ adds)) in
  match apply_patch cwd id (patch_of [TextUpdate path None cts]) d with
  | (OutSuccess _ _, d') => files d' = <[locate (path_join cwd path) := as_bytes new]> (files d)
  | _ => False
  end.
Proof.
  intros new. assert (Forall hunk_ok [TextUpdate path None cts]) as Hhs
    by (constructor; [split; [done|split; [done|split; done]]|constructor]).
  pose proof (parse_patch_of _ Hhs) as Hp. cbn [fmap list_fmap hunk_of] in Hp.
  pose proof (derive_exact_edits _ (path_join cwd path) _ _ _ Hblank Hexact) as Hd.
  assert (Forall2 (λ h c, hunk_change (files d) cwd h = Some c) [UpdateFile path None (chunk_of <$> cts)]
    [FCUpdate (path_join cwd path) (from_utf8_lossy bytes) new]) as Hc.
  { constructor; [|constructor]. cbn. rewrite Hfile. cbn. by rewrite Hd. }
  unfold apply_patch. rewrite Hp. cbn [hunks]. rewrite st_bind_run.
  pose proof (compute_all_changes_spec cwd [UpdateFile path None (chunk_of <$> cts)] d) as [[Hf _] _].
  pose proof (compute_all_changes_reliable _ _ _ _ Hreliable Hc) as Hall.
  destruct (compute_all_changes _ _ d) as [r d1]; cbn [fst snd] in *. subst r. rewrite st_bind_run.
  rewrite <- Hf in Hc.
  assert (apart cwd [UpdateFile path None (chunk_of <$> cts)]) as Hap by (split; [constructor|done]).
  destruct (apply_changes_reliable id cwd _ d1 _ Hreliable Hap Hc) as [rs Hrs].
  pose proof (apply_changes_spec id [FCUpdate (path_join cwd path) (from_utf8_lossy bytes) new] d1) as Ha.
  destruct (apply_changes _ _ d1) as [r d2]; cbn [fst snd] in *. subst r. cbn. destruct Ha as (-> & _ & _). by rewrite Hf.
Qed.
End Run.

(** * On a small disk *)

#[local] Instance demo_system : System := {| locate p := p; fails _ _ := None; missing _ := lit "not found" |}.

Definition nl (s : string) : rstr := lit s ++ [10].
Definition demo_cwd : rstr := lit "/w".
Definition demo_disk (fs : list (rstr * rstr)) : Disk :=
  mkDisk (list_to_map ((λ f, (lit "/w/" ++ f.1, as_bytes f.2)) <$> fs)) [] [].
Definition replace_line (old new : string) : ChunkText := mkChunkText None [Remove (lit old); Insert (lit new)] false.
Definition parsed_of (hs : list HunkText) : ParsedPatch := mkParsed (hunk_of <$> hs) (patch_of hs).

Definition two_files : Disk := demo_disk [(lit "a", nl "one" ++ nl "two"); (lit "b", nl "three")].
Definition two_updates : list HunkText :=
  [TextUpdate (lit "a") None [replace_line "two" "2"]; TextUpdate (lit "b") (Some (lit "c")) [replace_line "three" "3"]].

Lemma apply_patch_in_turn_witness :
  in_turn demo_cwd (hunks (parsed_of two_updates)) (files two_files) =
    Some (files (demo_disk [(lit "a", nl "one" ++ nl "2"); (lit "c", nl "3")])) ∧
  match apply_patch demo_cwd (lit "id") (patch_of two_updates) two_files with
  | (OutSuccess _ _, d') => in_turn demo_cwd (hunks (parsed_of two_updates)) (files two_files) = Some (files d')
  | (OutApplicationError _, d') =>
      in_turn demo_cwd (hunks (parsed_of two_updates)) (files two_files) = None ∧ files d' = files two_files
  | _ => False
  end.
Proof.
  split; [vm_compute; reflexivity|].
  apply (apply_patch_in_turn demo_cwd (lit "id") (patch_of two_updates) (parsed_of two_updates) two_files).
  - by intros log c.
  - vm_compute. reflexivity.
  - done.
  - split; [|split; [constructor|done]]. constructor; [|constructor].
    intros p ->%list_elem_of_singleton. apply (bool_decide_unpack _). vm_compute. exact I.
Defined.

Definition demo_chunk : ChunkText := mkChunkText (Some (lit "one")) [Keep (lit "two"); Insert (lit "2")] false.

Lemma update_reaches_file_witness :
  let new := join [10] (final_newline ([lit "one"; lit "two"; lit "2"] ++ [])) in
  match apply_patch demo_cwd (lit "id") (patch_of [TextUpdate (lit "a") None [demo_chunk]]) two_files with
  | (OutSuccess _ _, d') => files d' = <[locate (path_join demo_cwd (lit "a")) := as_bytes new]> (files two_files)
  | _ => False
  end.
Proof.
  apply (update_reaches_file demo_cwd (lit "id") (lit "a") [demo_chunk] (as_bytes (nl "one" ++ nl "two"))
           [lit "one"; lit "two"; lit "2"] [] two_files).
  - by intros log c.
  - apply (bool_decide_unpack _). vm_compute. exact I.
  - done.
  - apply (bool_decide_unpack _). vm_compute. exact I.
  - vm_compute. reflexivity.
  - vm_compute. reflexivity.
  - apply (exact_replace (chunk_of demo_chunk) [] [lit "one"] [] [] [] []); [done| | |apply exact_end].
    + exists []. split; [done|]. apply not_elem_of_nil.
    + intros j Hj. simpl in Hj. lia.
Defined.

(** Two updates of one file: both are computed from the file as it was, and the
    second is written over the first. *)
Definition same_file_twice : list HunkText :=
  [TextUpdate (lit "a") None [replace_line "one" "1"]; TextUpdate (lit "a") None [replace_line "two" "2"]].

Example first_update_lost :
  files (apply_patch demo_cwd (lit "id") (patch_of same_file_twice) two_files).2 =
    files (demo_disk [(lit "a", nl "one" ++ nl "2"); (lit "b", nl "three")]) ∧
  in_turn demo_cwd (hunk_of <$> same_file_twice) (files two_files) =
    Some (files (demo_disk [(lit "a", nl "1" ++ nl "2"); (lit "b", nl "three")])).
Proof. split; vm_compute; reflexivity. Qed.

(** A move of a file onto itself deletes it, and reports success. *)
Definition onto_itself : list HunkText := [TextUpdate (lit "a") (Some (lit "a")) [replace_line "one" "1"]].

Example moved_onto_itself :
  files (apply_patch demo_cwd (lit "id") (patch_of onto_itself) two_files).2 = files (demo_disk [(lit "b", nl "three")]) ∧
  match (apply_patch demo_cwd (lit "id") (patch_of onto_itself) two_files).1 with OutSuccess _ _ => True | _ => False end.
Proof. split; vm_compute; done. Qed.

(** A byte that is not UTF-8 is replaced wherever in the file it is. *)
Example other_bytes_rewritten :
  let d := mkDisk {[ lit "/w/a" := as_bytes (nl "one") ++ [233; 10] ]} [] [] in
  files (apply_patch demo_cwd (lit "id") (patch_of [TextUpdate (lit "a") None [replace_line "one" "1"]]) d).2 =
    {[ lit "/w/a" := as_bytes (nl "1") ++ [239; 191; 189; 10] ]}.
Proof. vm_compute. reflexivity. Qed.
