(* ===== verification/Confusables.v ===== *)
(** Typography that looks like ASCII
    (src/crates/codegen/intellihelper-tools/src/util/unicode_confusables.rs):
    normalization, and the way back from the normalized text to the text. *)
From S2P Require Import Prelude Str Truncate TextOffsets.

Definition CONFUSABLE_MAP : list (rchar * rstr) :=
  [(8220, [34]); (8221, [34]); (8216, [39]); (8217, [39]); (8212, [45; 45]); (8211, [45]); (8230, [46; 46; 46]); (160, [32])].

(** [lookup]. *)
Definition confusable (c : rchar) : option rstr := snd <$> List.find (λ e, e.1 =? c) CONFUSABLE_MAP.

Definition has_confusables (s : rstr) : bool := existsb (λ c, is_some_and (λ _, true) (confusable c)) s.

Definition normal_of (c : rchar) : rstr := match confusable c with Some replacement => replacement | None => [c] end.
Definition normalize_confusables (s : rstr) : rstr := s ≫= normal_of.

Record ConfusableHit : Type := mkHit {
  byte_offset : Z;
  unicode_char : rchar;
  ascii_replacement : rstr;
  line_number : nat;
}.

Fixpoint detect_from (offset : Z) (line : nat) (s : rstr) : list ConfusableHit :=
  match s with
  | [] => []
  | c :: s =>
      (match confusable c with Some replacement => [mkHit offset c replacement line] | None => [] end)
      ++ detect_from (offset + len_utf8 c) (if c =? 10 then S line else line) s
  end.
Definition detect_confusables (s : rstr) : list ConfusableHit := detect_from 0 1 s.

(** The entries of one character: the start of a confusable for each byte that
    stands for it, its own position for each byte of another. *)
Definition char_offsets (offset : Z) (c : rchar) : list Z :=
  match confusable c with
  | Some replacement => replicate (Z.to_nat (byte_len replacement)) offset
  | None => (λ i, offset + Z.of_nat i) <$> seq 0 (Z.to_nat (len_utf8 c))
  end.
Fixpoint offsets_from (offset : Z) (s : rstr) : list Z :=
  match s with
  | [] => [offset]
  | c :: s => char_offsets offset c ++ offsets_from (offset + len_utf8 c) s
  end.
Definition build_offset_map (s : rstr) : rstr * list Z := (normalize_confusables s, offsets_from 0 s).

(** [offset_map[i]]. *)
Definition offset_at (offset_map : list Z) (i : Z) : option Z := if i <? 0 then None else offset_map !! Z.to_nat i.

(** * The map of offsets *)

Definition is_ascii (c : rchar) : bool := (0 <=? c) && (c <? 128).

(** What a character is normalized to is ASCII, or the character itself. *)
Lemma normal_of_spec c :
  (confusable c = None ∧ normal_of c = [c]) ∨
  (∃ r, confusable c = Some r ∧ normal_of c = r ∧ r ≠ [] ∧ forallb is_ascii r = true).
Proof.
  unfold normal_of. destruct (confusable c) as [r|] eqn:E; [|by left]. right. exists r. split; [done|]. split; [done|].
  unfold confusable in E. destruct (List.find _ _) as [[d r']|] eqn:F; [|done]. simpl in E. simplify_eq.
  apply find_some in F as [F _]. revert F. cbn. intros F. repeat (destruct F as [F|F]; [by simplify_eq|]). done.
Qed.

Lemma normal_of_nonempty c : normal_of c ≠ [].
Proof. destruct (normal_of_spec c) as [[_ ->]|(r & _ & -> & ? & _)]; done. Qed.

Lemma ascii_len c : is_ascii c = true → len_utf8 c = 1.
Proof. unfold is_ascii, len_utf8. intros. case_split; lia. Qed.

Lemma ascii_byte_len s : forallb is_ascii s = true → byte_len s = zlen s.
Proof.
  induction s as [|c s IH]; [done|]. cbn [forallb]. intros [Hc Hs]%andb_prop. rewrite byte_len_cons, zlen_cons, IH, ascii_len by done. lia.
Qed.

Lemma char_offsets_length offset c : Z.of_nat (length (char_offsets offset c)) = byte_len (normal_of c).
Proof.
  unfold char_offsets. destruct (normal_of_spec c) as [[-> ->]|(r & -> & -> & _)].
  - rewrite length_fmap, length_seq. unfold byte_len. simpl. pose proof (len_utf8_bounds c). lia.
  - rewrite length_replicate. pose proof (byte_len_nonneg r). lia.
Qed.

Lemma normalize_cons c s : normalize_confusables (c :: s) = normal_of c ++ normalize_confusables s.
Proof. reflexivity. Qed.

Lemma normalize_app a b : normalize_confusables (a ++ b) = normalize_confusables a ++ normalize_confusables b.
Proof. unfold normalize_confusables. by rewrite bind_app. Qed.

Lemma offsets_length offset s : zlen (offsets_from offset s) = byte_len (normalize_confusables s) + 1.
Proof.
  revert offset. induction s as [|c s IH]; intros offset; [done|].
  cbn [offsets_from]. rewrite zlen_app, IH, normalize_cons, byte_len_app. unfold zlen. rewrite char_offsets_length. lia.
Qed.

Lemma byte_len_ge_zlen s : zlen s ≤ byte_len s.
Proof. induction s as [|c s IH]; [done|]. rewrite byte_len_cons, zlen_cons. pose proof (len_utf8_bounds c). lia. Qed.

(** Inside the characters that one character was normalized to, all offsets are
    its own. *)
Lemma char_offsets_inside offset c x y :
  normal_of c = x ++ y → y ≠ [] → char_offsets offset c !! Z.to_nat (byte_len x) = Some offset.
Proof.
  intros Hx Hy. unfold char_offsets. destruct (normal_of_spec c) as [[-> Hn]|(r & -> & Hn & _ & Ha)]; rewrite Hn in Hx.
  - destruct x as [|d x]; [|destruct x; [|done]; by injection Hx as -> <-].
    simpl. rewrite list_lookup_fmap. pose proof (len_utf8_bounds c).
    rewrite lookup_seq_lt by lia. simpl. f_equal. lia.
  - subst r. rewrite forallb_app in Ha. apply andb_prop in Ha as [Hax Hay]. apply lookup_replicate_2.
    rewrite byte_len_app. destruct y as [|d y]; [done|]. pose proof (byte_len_pos d y). pose proof (byte_len_nonneg x). lia.
Qed.


(** Where the map leads from a boundary of the normalized text: to the start of
    the character that the boundary is in, or at. *)
Lemma offsets_spec offset s x y :
  normalize_confusables s = x ++ y →
  ∃ a b z, s = a ++ b ∧ x = normalize_confusables a ++ z ∧
    offsets_from offset s !! Z.to_nat (byte_len x) = Some (offset + byte_len a) ∧
    (z = [] ∨ ∃ c b' w, b = c :: b' ∧ normal_of c = z ++ w ∧ w ≠ []).
Proof.
  revert offset x. induction s as [|c s IH]; intros offset x H.
  - symmetry in H. apply app_eq_nil in H as [-> ->]. exists [], [], []. split; [done|]. split; [done|]. split; [|by left].
    simpl. f_equal. unfold byte_len. simpl. lia.
  - rewrite normalize_cons in H.
    assert ((∃ x', x = normal_of c ++ x' ∧ normalize_confusables s = x' ++ y) ∨ ∃ w, normal_of c = x ++ w ∧ w ≠ []) as [(x' & -> & Hx)|(w & Hw & Hne)].
    { apply app_eq_app in H as [l [[H1 H2]|[H1 H2]]].
      - destruct l as [|d l]; [|right; by exists (d :: l)]. left. rewrite app_nil_r in H1. subst x. exists [].
        rewrite app_nil_r. split; [done|]. by rewrite H2.
      - left. by exists l. }
    + destruct (IH (offset + len_utf8 c) x' Hx) as (a & b & z & -> & -> & Hl & Hz). exists (c :: a), b, z.
      split; [done|]. split; [by rewrite normalize_cons, <- app_assoc|]. split; [|done].
      cbn [app offsets_from]. pose proof (char_offsets_length offset c) as Hc.
      set (x' := normalize_confusables a ++ z) in *. rewrite byte_len_app.
      pose proof (byte_len_nonneg (normal_of c)). pose proof (byte_len_nonneg x').
      rewrite lookup_app_r by lia. replace (Z.to_nat (byte_len (normal_of c) + byte_len x') - length (char_offsets offset c))%nat
        with (Z.to_nat (byte_len x')) by lia.
      rewrite Hl. f_equal. rewrite byte_len_cons. lia.
    + exists [], (c :: s), x. split; [done|]. split; [done|]. split; [|right; by exists c, s, w].
      cbn [offsets_from]. rewrite lookup_app_l.
      * rewrite (char_offsets_inside offset c x w) by done. f_equal. unfold byte_len. simpl. lia.
      * pose proof (char_offsets_length offset c) as Hc. rewrite Hw, byte_len_app in Hc.
        destruct w as [|d w]; [done|]. pose proof (byte_len_pos d w). pose proof (byte_len_nonneg x). lia.
Qed.

(** A boundary of the text is found again. *)
Lemma offsets_boundary offset a b :
  offsets_from offset (a ++ b) !! Z.to_nat (byte_len (normalize_confusables a)) = Some (offset + byte_len a).
Proof.
  revert offset. induction a as [|c a IH]; intros offset.
  - unfold byte_len. simpl. rewrite Z.add_0_r. destruct b as [|c b]; [done|]. cbn [offsets_from].
    pose proof (char_offsets_inside offset c [] (normal_of c) eq_refl (normal_of_nonempty c)) as H.
    by rewrite lookup_app_l by (by eapply lookup_lt_Some).
  - cbn [app offsets_from]. rewrite normalize_cons, byte_len_app, byte_len_cons.
    pose proof (char_offsets_length offset c) as Hc. pose proof (byte_len_nonneg (normal_of c)).
    pose proof (byte_len_nonneg (normalize_confusables a)). rewrite lookup_app_r by lia.
    replace (_ - _)%nat with (Z.to_nat (byte_len (normalize_confusables a))) by lia. rewrite IH. f_equal. lia.
Qed.

Lemma offset_at_boundary a b : offset_at (offsets_from 0 (a ++ b)) (byte_len (normalize_confusables a)) = Some (byte_len a).
Proof.
  unfold offset_at. rewrite (proj2 (Z.ltb_ge _ _)) by apply byte_len_nonneg. apply offsets_boundary.
Qed.

(** The map of offsets is right at every boundary between characters: the
    text before the boundary, normalized, ends where the map leads back to the
    boundary, whatever confusables stand before it and behind it.  So a region of
    the text that begins and ends at boundaries is found again from its
    normalization, byte for byte. *)
Theorem offset_map_round_trip a m b :
  let text := a ++ m ++ b in
  let '(norm_text, offset_map) := build_offset_map text in
  let norm_start := byte_len (normalize_confusables a) in
  let norm_end := norm_start + byte_len (normalize_confusables m) in
  byte_slice norm_start norm_end norm_text = Some (normalize_confusables m) ∧
  (orig_start ← offset_at offset_map norm_start;
   orig_end ← offset_at offset_map norm_end;
   byte_slice orig_start orig_end text) = Some m.
Proof.
  cbn. rewrite !normalize_app. split; [apply byte_slice_app|].
  rewrite offset_at_boundary. rewrite <- byte_len_app, <- normalize_app, (app_assoc a m b), offset_at_boundary.
  cbn [mbind option_bind]. rewrite byte_len_app, <- app_assoc. apply byte_slice_app.
Qed.

(** The doc of [build_offset_map] promises that a slice found through the map
    normalizes to what was found; inside the characters that stand for one it
    does not. *)
Example partial_dash :
  let text := [8212] in let m := build_offset_map text in
  m.1 = lit "--" ∧ offset_at m.2 0 = Some 0 ∧ offset_at m.2 1 = Some 0 ∧
  (r ← byte_slice 0 0 text; Some (normalize_confusables r)) = Some [] ∧ slice 0 1 m.1 = lit "-".
Proof. vm_compute. done. Qed.
