(* ===== verification/GoalTracker.v ===== *)
(** The goal tracker: the state machine of a long-running goal, with its
    timer, its verification counters and its scratch directory
    (src/crates/codegen/intellihelper-shell/src/session/goal_tracker.rs).

    Operations run in a state monad over the tracker and the calls made to the
    operating system so far.  What the system answers (clocks, identifiers,
    the file system) is given by an environment, indexed by the number of
    questions asked before. *)
From S2P Require Import Prelude Str Path.

Definition GOAL_CLASSIFIER_STALL_THRESHOLD : Z := 2.
Definition GOAL_STRATEGIST_CAP_BONUS : Z := 3.
Definition GOAL_STRATEGIST_STALL_THRESHOLD : Z := GOAL_CLASSIFIER_STALL_THRESHOLD + GOAL_STRATEGIST_CAP_BONUS.
Definition GOAL_HISTORY_MAX : nat := 64.
(** [GOAL_VERIFIER_PANEL_MAX_BYTES] of goal_classifier.rs. *)
Definition GOAL_VERIFIER_PANEL_MAX_BYTES : Z := 512 * 1024.

(** * Data *)

Inductive GoalPhase : Type := Idle | Planning | Executing.

Inductive GoalStatus : Type :=
| Active | UserPaused | BackOffPaused | NoProgressPaused | InfraPaused | Blocked | BudgetLimited | Complete.

#[global] Instance GoalPhase_eq_dec : EqDecision GoalPhase.
Proof. solve_decision. Defined.

#[global] Instance GoalStatus_eq_dec : EqDecision GoalStatus.
Proof. solve_decision. Defined.

(** [#[serde(rename_all = "snake_case")]] on the derived [Serialize]. *)
Definition status_wire (s : GoalStatus) : rstr :=
  match s with
  | Active => lit "active"
  | UserPaused => lit "user_paused"
  | BackOffPaused => lit "back_off_paused"
  | NoProgressPaused => lit "no_progress_paused"
  | InfraPaused => lit "infra_paused"
  | Blocked => lit "blocked"
  | BudgetLimited => lit "budget_limited"
  | Complete => lit "complete"
  end.

(** The arms of [from_wire_str], in order. *)
Definition wire_table : list (list rstr * GoalStatus) :=
  [([lit "active"; lit "Active"], Active);
   ([lit "user_paused"; lit "paused"; lit "Paused"], UserPaused);
   ([lit "doom_loop_paused"], UserPaused);
   ([lit "back_off_paused"], BackOffPaused);
   ([lit "no_progress_paused"], NoProgressPaused);
   ([lit "infra_paused"], InfraPaused);
   ([lit "blocked"], Blocked);
   ([lit "budget_limited"; lit "BudgetLimited"], BudgetLimited);
   ([lit "complete"; lit "Complete"], Complete)].

Definition from_wire_str (s : rstr) : GoalStatus :=
  match List.find (λ arm, bool_decide (s ∈ arm.1)) wire_table with
  | Some (_, status) => status
  | None => UserPaused
  end.

Definition is_paused (s : GoalStatus) : bool :=
  match s with
  | UserPaused | BackOffPaused | NoProgressPaused | InfraPaused | Blocked => true
  | _ => false
  end.

Inductive GoalPauseReason : Type := PUser | PBackOff | PNoProgress | PVerification | PInfra.

Definition to_status (r : GoalPauseReason) : GoalStatus :=
  match r with
  | PUser => UserPaused
  | PBackOff => BackOffPaused
  | PNoProgress => NoProgressPaused
  | PVerification => Blocked
  | PInfra => InfraPaused
  end.

Definition history_detail (r : GoalPauseReason) : rstr :=
  match r with
  | PUser => lit "user"
  | PBackOff => lit "back_off"
  | PNoProgress => lit "no_progress"
  | PVerification => lit "blocked"
  | PInfra => lit "infra"
  end.

Inductive GoalClassifierVerdict : Type := Achieved | NotAchieved.

Inductive GoalEvent : Type :=
| GoalCreated | PlanningStarted | PlanningCompleted | PlanningFailed | WorkerStarted | WorkerCompleted
| WorkerFailed | ContextRotated | GoalPaused | GoalResumed | GoalCompleted | GoalCleared | BudgetExceeded
| PrematureStopDetected | Unknown.

Record GoalHistoryEntry : Type := mkEntry {
  timestamp : rstr;
  event : GoalEvent;
  detail : option rstr;
  round : option Z;
  tokens_used : option Z;
  unmet : list rstr;
}.

Record GoalRoleModel : Type := mkRoleModel { role_model : rstr; role_agent_type : rstr }.

Record GoalOrchestration : Type := mkGoal {
  goal_id : rstr;
  objective : rstr;
  status : GoalStatus;
  phase : GoalPhase;
  token_budget : option Z;
  elapsed_ms : Z;
  created_at : rstr;
  current_subagent_id : option rstr;
  current_subagent_role : option rstr;
  total_worker_rounds : Z;
  total_verify_rounds : Z;
  budget_limit_reported : bool;
  token_baseline : Z;
  tokens_used_high_water : Z;
  parent_tokens_spent : Z;
  last_session_tokens_seen : option Z;
  history : list GoalHistoryEntry;
  pause_message : option rstr;
  evaluator_blocker_key : option rstr;
  evaluator_blocked_streak : Z;
  verifier_id : rstr;
  classifier_runs_attempted : Z;
  rounds_since_verify : Z;
  classifier_max_runs : option Z;
  last_classifier_verdict : option GoalClassifierVerdict;
  last_classifier_details_path : option rstr;
  last_classifier_at : option rstr;
  last_classifier_gaps : option rstr;
  first_final_response : option rstr;
  skeptic0_session_id : option rstr;
  skeptic_model_assignment : list GoalRoleModel;
  last_gap_fingerprint : option rstr;
  classifier_stall_count : Z;
  consecutive_not_achieved : Z;
  last_strategist_fired_at : Z;
  strategist_cap_bonus : Z;
  last_strategy_path : option rstr;
  last_strategy_recommendation : option rstr;
  changes_baseline_commit : option rstr;
  plan_file : option rstr;
  plan_baseline_file : option rstr;
  scratch_dir_ready : bool;
  live_subagent_tokens : Z;
  live_tokens_by_model : list (rstr * Z);
  live_context_window : Z;
  live_context_pct : Z;
  live_turn_count : Z;
  live_tool_call_count : Z;
  planning_in_flight : bool;
  verifying_in_flight : bool;
}.

#[global] Instance goal_eta : Eta GoalOrchestration := λ o,
  mkGoal (goal_id o) (objective o) (status o) (phase o) (token_budget o) (elapsed_ms o) (created_at o)
    (current_subagent_id o) (current_subagent_role o) (total_worker_rounds o) (total_verify_rounds o)
    (budget_limit_reported o) (token_baseline o) (tokens_used_high_water o) (parent_tokens_spent o)
    (last_session_tokens_seen o) (history o) (pause_message o) (evaluator_blocker_key o)
    (evaluator_blocked_streak o) (verifier_id o) (classifier_runs_attempted o) (rounds_since_verify o)
    (classifier_max_runs o) (last_classifier_verdict o) (last_classifier_details_path o)
    (last_classifier_at o) (last_classifier_gaps o) (first_final_response o) (skeptic0_session_id o)
    (skeptic_model_assignment o) (last_gap_fingerprint o) (classifier_stall_count o)
    (consecutive_not_achieved o) (last_strategist_fired_at o) (strategist_cap_bonus o)
    (last_strategy_path o) (last_strategy_recommendation o) (changes_baseline_commit o) (plan_file o)
    (plan_baseline_file o) (scratch_dir_ready o) (live_subagent_tokens o) (live_tokens_by_model o)
    (live_context_window o) (live_context_pct o) (live_turn_count o) (live_tool_call_count o)
    (planning_in_flight o) (verifying_in_flight o).

Definition reset_strategist_fields (o : GoalOrchestration) : GoalOrchestration :=
  o <| consecutive_not_achieved := 0 |>
    <| last_strategist_fired_at := 0 |>
    <| strategist_cap_bonus := 0 |>
    <| last_strategy_path := None |>
    <| last_strategy_recommendation := None |>.

Definition reset_classifier_stall_fields (o : GoalOrchestration) : GoalOrchestration :=
  o <| last_gap_fingerprint := None |> <| classifier_stall_count := 0 |>.

Definition reset_evaluator_blocker_fields (o : GoalOrchestration) : GoalOrchestration :=
  o <| evaluator_blocker_key := None |> <| evaluator_blocked_streak := 0 |>.

Record GoalTracker : Type := mkTracker {
  orchestration : option GoalOrchestration;
  session_dir : rstr;
  active_since : option Z;
}.

#[global] Instance tracker_eta : Eta GoalTracker := λ t,
  mkTracker (orchestration t) (session_dir t) (active_since t).

Definition tracker_new (dir : rstr) : GoalTracker := mkTracker None dir None.

(** * The operating system *)

(** The calls that touch the file system, as they are made. *)
Inductive Call : Type :=
| CCreateDirAll (path : rstr)
| CCreateDir (path : rstr)                (* mode 0700 *)
| CSetPermissions (path : rstr)           (* mode 0700 *)
| CSymlinkMetadata (path : rstr)
| CRemoveDirAll (path : rstr)
| CRename (source dest : rstr)
| COpen (path : rstr)
| CCreateNew (path : rstr)
| CCopy (source dest : rstr)
| CReadDir (path : rstr)
| COpenAppend (path : rstr)
| CReadToString (path : rstr)
| CWriteAll (path text : rstr).

Record Metadata : Type := mkMetadata { meta_is_dir : bool; meta_uid : Z; meta_len : Z }.

Inductive Created : Type := CreatedOk | AlreadyExists | CreateFailed.

Record Env : Type := mkEnv {
  temp_dir : rstr;                        (* std::env::temp_dir *)
  euid : Z;                               (* libc::geteuid *)
  instant_now : nat → Z;                  (* std::time::Instant::now, in ns *)
  utc_now : nat → rstr;                   (* chrono::Utc::now, RFC 3339 *)
  uuid_v4 : nat → rstr;                   (* uuid::Uuid::new_v4, simple form *)
  fs_ok : nat → Call → bool;              (* did this call succeed *)
  fs_create_dir : nat → rstr → Created;
  fs_metadata : nat → rstr → option Metadata;
  fs_read_dir : nat → rstr → option (list rstr);
  fs_read : nat → rstr → option rstr;
}.

Record World : Type := mkWorld { tracker : GoalTracker; asked : nat; calls : list Call }.

#[global] Instance world_eta : Eta World := λ w, mkWorld (tracker w) (asked w) (calls w).

Definition M : Type → Type := St World.

Definition get_tracker : M GoalTracker := λ w, (tracker w, w).
Definition get_goal : M (option GoalOrchestration) := λ w, (orchestration (tracker w), w).
Definition put_goal (o : option GoalOrchestration) : M unit :=
  λ w, (tt, w <| tracker ::= setter orchestration (λ _, o) |>).
Definition put_tracker (t : GoalTracker) : M unit := λ w, (tt, w <| tracker := t |>).
Definition set_active_since (i : option Z) : M unit :=
  λ w, (tt, w <| tracker ::= setter active_since (λ _, i) |>).
(** [if let Some(o) = &mut self.orchestration { *o = f(o) }] *)
Definition with_goal (f : GoalOrchestration → GoalOrchestration) : M unit :=
  λ w, (tt, w <| tracker ::= setter orchestration (fmap f) |>).

Lemma goal_bind_run {A B} (m : M A) (k : A → M B) w : (x ← m; k x) w = k (m w).1 (m w).2.
Proof. apply st_bind_run. Qed.

(** Ask the environment a question, or make a call and take its answer. *)
Definition ask {A} (answer : nat → A) : M A := λ w, (answer (asked w), w <| asked ::= S |>).
Definition perform {A} (c : Call) (answer : nat → A) : M A :=
  λ w, (answer (asked w), w <| asked ::= S |> <| calls ::= λ l, l ++ [c] |>).

(** * Paths *)

Definition goal_dir (t : GoalTracker) : rstr := path_join (session_dir t) (lit "goal").
Definition plan_path (t : GoalTracker) : rstr := path_join (goal_dir t) (lit "plan.md").
Definition plan_baseline_path (t : GoalTracker) : rstr := path_join (goal_dir t) (lit "plan.baseline.md").
Definition strategy_path (t : GoalTracker) : rstr := path_join (goal_dir t) (lit "strategy.md").

Definition scratch_name (verifier_id : rstr) : rstr := lit "intellihelper-goal-" ++ verifier_id.

(** [(attempt, skeptic_idx)] out of [goal-classifier-{vid}-{attempt}-skeptic-{idx}.md];
    both are [u32]. *)
Definition rsplit_once (sep s : rstr) : option (rstr * rstr) :=
  i ← rfind sep s; Some (take i s, drop (i + length sep) s).


Definition parse_skeptic_report_order (name : rstr) : option (Z * Z) :=
  stem ← strip_suffix (lit ".md") name;
  '(hd, idx) ← rsplit_once (lit "-skeptic-") stem;
  '(_, attempt) ← rsplit_once (lit "-") hd;
  a ← parse_uint 32 attempt;
  i ← parse_uint 32 idx;
  Some (a, i).

(** The order of [sort_by_key(|((attempt, idx), _)| (Reverse(attempt), idx))]. *)
Definition report_le (x y : Z * Z * rstr) : Prop :=
  y.1.1 < x.1.1 ∨ (x.1.1 = y.1.1 ∧ x.1.2 ≤ y.1.2).

#[global] Instance report_le_dec : RelDecision report_le.
Proof. intros x y. unfold report_le. apply _. Defined.

(** A stable sort: insertion from the right. *)
Fixpoint insert_report (x : Z * Z * rstr) (l : list (Z * Z * rstr)) : list (Z * Z * rstr) :=
  match l with
  | [] => [x]
  | y :: l' => if decide (report_le x y) then x :: l else y :: insert_report x l'
  end.

Definition sort_reports (l : list (Z * Z * rstr)) : list (Z * Z * rstr) := foldr insert_report [] l.

Definition report_key (name : rstr) : option (Z * Z * rstr) :=
  '(a, i) ← parse_skeptic_report_order name; Some (a, i, name).

Definition is_ascii_hexdigit (c : rchar) : bool :=
  ((48 <=? c) && (c <=? 57)) || ((65 <=? c) && (c <=? 70)) || ((97 <=? c) && (c <=? 102)).

(** The snapshot's id is kept when it has the form of a generated one. *)
Definition canonical_id (s : rstr) : bool := (byte_len s =? 12) && forallb is_ascii_hexdigit s.

Definition report_header (name : rstr) : rstr :=
  [10; 10] ++ lit "---" ++ [10] ++ lit "## Inlined skeptic report: " ++ name ++ [10; 10].

Definition ELISION : rstr :=
  [10; 10] ++ lit "---" ++ [10] ++ lit "(remaining skeptic reports elided: rescue budget reached)" ++ [10].

Section ops.
Context (env : Env).

Definition goal_scratch_root (vid : rstr) : rstr := path_join (temp_dir env) (scratch_name vid).
Definition implementer_scratch_dir (vid : rstr) : rstr := path_join (goal_scratch_root vid) (lit "implementer").
Definition skeptic_scratch_dir (vid : rstr) (idx : Z) : rstr :=
  path_join (goal_scratch_root vid) (lit "skeptic-" ++ fmt_dec idx).

(** * Effects *)

Definition now : M Z := ask (instant_now env).

Definition entry_now (ev : GoalEvent) (det : option rstr) : M GoalHistoryEntry :=
  t ← ask (utc_now env); mret (mkEntry t ev det None None []).

(** [Uuid::new_v4().simple().to_string()], cut to 12. *)
Definition generate_verifier_id : M rstr := s ← ask (uuid_v4 env); mret (take 12 s).

Definition call_ok (c : Call) : M bool := perform c (λ n, fs_ok env n c).
Definition symlink_metadata (p : rstr) : M (option Metadata) :=
  perform (CSymlinkMetadata p) (λ n, fs_metadata env n p).
Definition read_dir (p : rstr) : M (option (list rstr)) := perform (CReadDir p) (λ n, fs_read_dir env n p).
Definition read_to_string (p : rstr) : M (option rstr) := perform (CReadToString p) (λ n, fs_read env n p).

Definition verify_owned_real_dir (p : rstr) : M bool :=
  m ← symlink_metadata p;
  mret (match m with None => false | Some m => meta_is_dir m && (meta_uid m =? euid env) end).

(** The result is [Some root] for [Ok(root)]. *)
Definition ensure_goal_scratch_root (vid : rstr) : M (option rstr) :=
  let root := goal_scratch_root vid in
  r ← perform (CCreateDir root) (λ n, fs_create_dir env n root);
  match r with
  | CreatedOk => mret (Some root)
  | AlreadyExists =>
      ok ← verify_owned_real_dir root;
      if negb ok then mret None
      else
        ok ← call_ok (CSetPermissions root);
        mret (if (ok : bool) then Some root else None)
  | CreateFailed => mret None
  end.

(** The match shared by [create_goal] and [from_snapshot]. *)
Definition prepare_scratch (vid : rstr) : M bool :=
  r ← ensure_goal_scratch_root vid;
  match r with
  | Some _ => call_ok (CCreateDirAll (implementer_scratch_dir vid))
  | None => mret false
  end.

Definition copy_no_follow (source dest : rstr) : M bool :=
  ok ← call_ok (COpen source);
  if negb ok then mret false
  else
    ok ← call_ok (CCreateNew dest);
    if negb ok then mret false else call_ok (CCopy source dest).

(** The loop over the sorted reports, with what is left of the budget. *)
Fixpoint inline_reports (root dest : rstr) (reports : list rstr) (budget : Z) : M unit :=
  match reports with
  | [] => mret tt
  | name :: rest =>
      let header := report_header name in
      m ← symlink_metadata (path_join root name);
      match m with
      | None => inline_reports root dest rest budget
      | Some m =>
          if budget <? byte_len header + meta_len m then
            _ ← call_ok (CWriteAll dest ELISION); mret tt
          else
            b ← read_to_string (path_join root name);
            match b with
            | None => inline_reports root dest rest budget
            | Some body =>
                let budget := sat_sub budget (byte_len header + byte_len body) in
                ok ← call_ok (CWriteAll dest header);
                if negb ok then mret tt
                else
                  ok ← call_ok (CWriteAll dest body);
                  if negb ok then mret tt else inline_reports root dest rest budget
            end
      end
  end.

Definition append_skeptic_reports (root dest : rstr) : M unit :=
  entries ← read_dir root;
  match entries with
  | None => mret tt
  | Some entries =>
      match sort_reports (omap report_key entries) with
      | [] => mret tt
      | reports =>
          ok ← call_ok (COpenAppend dest);
          if negb ok then mret tt
          else inline_reports root dest (snd <$> reports) GOAL_VERIFIER_PANEL_MAX_BYTES
      end
  end.

(** * Transitions *)

(** [rescue_classifier_details]: nothing is done unless the stored path is
    lexically inside this goal's scratch root and the root is a real directory
    of ours. *)
Definition rescue_classifier_details : M unit :=
  t ← get_tracker;
  match orchestration t with
  | None => mret tt
  | Some o =>
      match last_classifier_details_path o with
      | None => mret tt
      | Some src =>
          let root := goal_scratch_root (verifier_id o) in
          if has_parent_dir src then mret tt
          else if negb (path_starts_with src root) then mret tt
          else
            ok ← verify_owned_real_dir root;
            if negb ok then mret tt
            else
              match file_name src with
              | None => mret tt
              | Some name =>
                  let dest := path_join (goal_dir t) name in
                  _ ← call_ok (CCreateDirAll (goal_dir t));
                  moved ← (ok ← call_ok (CRename src dest);
                           if (ok : bool) then mret true else copy_no_follow src dest);
                  if negb moved then mret tt
                  else
                    _ ← append_skeptic_reports root dest;
                    with_goal (λ o, o <| last_classifier_details_path := Some dest |>)
              end
      end
  end.

Definition remove_scratch_root : M unit :=
  g ← get_goal;
  match g with
  | None => mret tt
  | Some o => _ ← call_ok (CRemoveDirAll (goal_scratch_root (verifier_id o))); mret tt
  end.

Definition append_entry (entry : GoalHistoryEntry) (h : list GoalHistoryEntry) : list GoalHistoryEntry :=
  let h := h ++ [entry] in drop (length h - GOAL_HISTORY_MAX) h.

Definition append_history (entry : GoalHistoryEntry) : M unit :=
  with_goal (λ o, o <| history ::= append_entry entry |>).

Definition record_event (ev : GoalEvent) (det : option rstr) : M unit :=
  entry ← entry_now ev det; append_history entry.

(** The goal [create_goal] starts with. *)
Definition fresh_goal (gid obj : rstr) (budget : option Z) (baseline : Z) (created vid : rstr)
    (commit : option rstr) (ready : bool) : GoalOrchestration :=
  {| goal_id := gid; objective := obj; status := Active; phase := Executing; token_budget := budget;
     elapsed_ms := 0; created_at := created; current_subagent_id := None; current_subagent_role := None;
     total_worker_rounds := 0; total_verify_rounds := 0; budget_limit_reported := false;
     token_baseline := baseline; tokens_used_high_water := 0; parent_tokens_spent := 0;
     last_session_tokens_seen := Some baseline; history := []; pause_message := None;
     evaluator_blocker_key := None; evaluator_blocked_streak := 0; verifier_id := vid;
     classifier_runs_attempted := 0; rounds_since_verify := 0; classifier_max_runs := None;
     last_classifier_verdict := None; last_classifier_details_path := None; last_classifier_at := None;
     last_classifier_gaps := None; first_final_response := None; skeptic0_session_id := None;
     skeptic_model_assignment := []; last_gap_fingerprint := None; classifier_stall_count := 0;
     consecutive_not_achieved := 0; last_strategist_fired_at := 0; strategist_cap_bonus := 0;
     last_strategy_path := None; last_strategy_recommendation := None; changes_baseline_commit := commit;
     plan_file := None; plan_baseline_file := None; scratch_dir_ready := ready; live_subagent_tokens := 0;
     live_tokens_by_model := []; live_context_window := 0; live_context_pct := 0; live_turn_count := 0;
     live_tool_call_count := 0; planning_in_flight := false; verifying_in_flight := false |}.

Definition create_goal (gid obj : rstr) (budget : option Z) (baseline : Z) (created : rstr)
    (commit : option rstr) : M unit :=
  t ← get_tracker;
  _ ← call_ok (CCreateDirAll (goal_dir t));
  _ ← (match orchestration t with
       | Some _ => _ ← rescue_classifier_details; remove_scratch_root
       | None => mret tt
       end);
  vid ← generate_verifier_id;
  ready ← prepare_scratch vid;
  _ ← put_goal (Some (fresh_goal gid obj budget baseline created vid commit ready));
  i ← now;
  _ ← set_active_since (Some i);
  record_event GoalCreated None.

(** What [from_snapshot] changes before it touches the file system. *)
Definition restore_fields (s : GoalOrchestration) : GoalOrchestration :=
  let s := match phase s with
           | Idle => s
           | _ => s <| phase := Idle |> <| current_subagent_id := None |> <| current_subagent_role := None |>
           end in
  let s := if decide (status s = Active) then s <| status := UserPaused |> else s in
  s <| planning_in_flight := false |> <| verifying_in_flight := false |> <| skeptic0_session_id := None |>.

Definition is_terminal (s : GoalStatus) : bool := match s with Complete | BudgetLimited => true | _ => false end.

(** The rest of it, once the identifier is canonical. *)
Definition restore (dir : rstr) (s : GoalOrchestration) : M unit :=
  ready ← (if is_terminal (status s) then mret false else prepare_scratch (verifier_id s));
  since ← (if decide (status s = Active) then (i ← now; mret (Some i)) else mret None);
  put_tracker (mkTracker (Some (s <| scratch_dir_ready := ready |>)) dir since).

Definition from_snapshot (dir : rstr) (snapshot : GoalOrchestration) : M unit :=
  let s := restore_fields snapshot in
  vid ← (if canonical_id (verifier_id s) then mret (verifier_id s) else generate_verifier_id);
  restore dir (s <| verifier_id := vid |>).

Definition set_phase (p : GoalPhase) : M unit := with_goal (λ o, o <| phase := p |>).

Definition set_current_subagent (id role : option rstr) : M unit :=
  with_goal (λ o, o <| current_subagent_id := id |> <| current_subagent_role := role |>).

(** [since.elapsed().as_millis() as u64], added with saturation. *)
Definition add_elapsed (since i ms : Z) : Z := sat_add 64 ms (wrap 64 (Z.max 0 (i - since) / 1000000)).

(** [if let Some(since) = self.active_since.take() { … }] *)
Definition flush_timer : M unit :=
  t ← get_tracker;
  match active_since t with
  | None => mret tt
  | Some since =>
      _ ← set_active_since None;
      i ← now;
      with_goal (λ o, o <| elapsed_ms ::= add_elapsed since i |>)
  end.

Definition pause_inner (reason : GoalPauseReason) (message : option rstr) : M bool :=
  g ← get_goal;
  if is_some_and (λ o, bool_decide (status o = Active)) g then
    _ ← flush_timer;
    _ ← with_goal (λ o,
          let o := o <| status := to_status reason |> in
          match message with Some _ => o <| pause_message := message |> | None => o end);
    _ ← record_event GoalPaused (Some (history_detail reason));
    mret true
  else mret false.

Definition pause (reason : GoalPauseReason) : M bool := pause_inner reason None.
Definition pause_with_message (reason : GoalPauseReason) (message : rstr) : M bool :=
  pause_inner reason (Some message).

Definition rearm (o : GoalOrchestration) : GoalOrchestration :=
  reset_evaluator_blocker_fields
    (reset_classifier_stall_fields
       (reset_strategist_fields
          (o <| status := Active |> <| pause_message := None |>
             <| classifier_runs_attempted := 0 |> <| rounds_since_verify := 0 |>))).

Definition resume : M bool :=
  g ← get_goal;
  if is_some_and (λ o, is_paused (status o)) g then
    _ ← with_goal rearm;
    i ← now;
    _ ← set_active_since (Some i);
    _ ← record_event GoalResumed None;
    mret true
  else mret false.

(** The field updates shared by [complete] and [budget_limit]. *)
Definition terminate (s : GoalStatus) (o : GoalOrchestration) : GoalOrchestration :=
  reset_evaluator_blocker_fields
    (reset_strategist_fields
       (o <| status := s |> <| phase := Idle |> <| current_subagent_id := None |>
          <| current_subagent_role := None |> <| pause_message := None |> <| skeptic0_session_id := None |>
          <| skeptic_model_assignment := [] |> <| plan_baseline_file := None |>)).

Definition finish (s : GoalStatus) (ev : GoalEvent) : M bool :=
  g ← get_goal;
  if is_some_and (λ o, bool_decide (status o = Active) || is_paused (status o)) g then
    _ ← flush_timer;
    _ ← with_goal (terminate s);
    _ ← rescue_classifier_details;
    _ ← remove_scratch_root;
    _ ← record_event ev None;
    mret true
  else mret false.

Definition complete : M bool := finish Complete GoalCompleted.
Definition budget_limit : M bool := finish BudgetLimited BudgetExceeded.

Definition clear : M unit :=
  _ ← rescue_classifier_details;
  _ ← remove_scratch_root;
  _ ← put_goal None;
  set_active_since None.

Definition update_live_progress (tokens : Z) (by_model : list (rstr * Z)) (window pct turns tools : Z) : M unit :=
  with_goal (λ o, o <| live_subagent_tokens := tokens |> <| live_tokens_by_model := by_model |>
    <| live_context_window := window |> <| live_context_pct := pct |> <| live_turn_count := turns |>
    <| live_tool_call_count := tools |>).

Definition account_elapsed : M unit :=
  t ← get_tracker;
  match orchestration t, active_since t with
  | Some _, Some since =>
      i ← now;
      _ ← with_goal (λ o, o <| elapsed_ms ::= add_elapsed since i |>);
      i' ← now;
      set_active_since (Some i')
  | _, _ => mret tt
  end.

(** * Counters *)

(** One more occurrence of [key]: the streak it belongs to. *)
Definition bump_streak (prev : option rstr) (count : Z) (key : rstr) : Z :=
  if bool_decide (prev = Some key) then sat_add 32 count 1 else 1.

Definition stall_threshold (o : GoalOrchestration) : Z :=
  if 0 <? strategist_cap_bonus o then GOAL_STRATEGIST_STALL_THRESHOLD else GOAL_CLASSIFIER_STALL_THRESHOLD.

Definition stall_fields (fingerprint : rstr) (o : GoalOrchestration) : GoalOrchestration :=
  o <| classifier_stall_count := bump_streak (last_gap_fingerprint o) (classifier_stall_count o) fingerprint |>
    <| last_gap_fingerprint := Some fingerprint |>.

Definition record_classifier_stall (fingerprint : rstr) : M bool :=
  g ← get_goal;
  match g with
  | None => mret false
  | Some o =>
      let o := stall_fields fingerprint o in
      _ ← put_goal (Some o);
      mret (stall_threshold o <=? classifier_stall_count o)
  end.

Definition blocker_fields (key : rstr) (o : GoalOrchestration) : GoalOrchestration :=
  o <| evaluator_blocked_streak := bump_streak (evaluator_blocker_key o) (evaluator_blocked_streak o) key |>
    <| evaluator_blocker_key := Some key |>.

Definition record_evaluator_blocker (key : rstr) : M Z :=
  g ← get_goal;
  match g with
  | None => mret 0
  | Some o => let o := blocker_fields key o in _ ← put_goal (Some o); mret (evaluator_blocked_streak o)
  end.

Definition reset_evaluator_blocker : M unit := with_goal reset_evaluator_blocker_fields.

Definition rollback_classifier_attempt : M unit :=
  with_goal (λ o, o <| classifier_runs_attempted ::= λ n, sat_sub n 1 |>).

Definition reset_classifier_stall : M unit := with_goal reset_classifier_stall_fields.

Definition record_not_achieved_streak : M Z :=
  g ← get_goal;
  match g with
  | None => mret 0
  | Some o =>
      let o := o <| consecutive_not_achieved ::= λ n, sat_add 32 n 1 |> in
      _ ← put_goal (Some o); mret (consecutive_not_achieved o)
  end.

Definition fire_strategist (o : GoalOrchestration) : GoalOrchestration :=
  reset_classifier_stall_fields
    (o <| last_strategist_fired_at := consecutive_not_achieved o |>
       <| strategist_cap_bonus := GOAL_STRATEGIST_CAP_BONUS |>).

Definition claim_strategist_fire (should_fire : Z → Z → bool) : M (option Z) :=
  g ← get_goal;
  match g with
  | None => mret None
  | Some o =>
      if should_fire (consecutive_not_achieved o) (last_strategist_fired_at o)
      then _ ← put_goal (Some (fire_strategist o)); mret (Some (consecutive_not_achieved o))
      else mret None
  end.

Definition revoke_strategist_cap_bonus : M unit := with_goal (λ o, o <| strategist_cap_bonus := 0 |>).

Definition reset_strategist_state : M unit := with_goal reset_strategist_fields.

Definition record_strategy_recommendation (path recommendation : rstr) : M unit :=
  with_goal (λ o, o <| last_strategy_path := Some path |>
                    <| last_strategy_recommendation := Some recommendation |>).
End ops.
