(* ===== verification/GoalTrackerThms.v ===== *)
(** Theorems about the goal tracker: what its lifecycle is, that its timer and
    messages follow it, and that its file-system calls stay where they
    belong. *)
From S2P Require Import Prelude Str Path GoalTracker.

(** * Operations *)

(** The calls that change a tracker.  [OEdit] stands for the code that goes
    through [snapshot_mut]. *)
Inductive goal_op : Type :=
| OCreate (gid obj : rstr) (budget : option Z) (baseline : Z) (created : rstr) (commit : option rstr)
| ORestore (snapshot : GoalOrchestration)
| OPause (reason : GoalPauseReason) (message : option rstr)
| OResume | OComplete | OBudgetLimit | OClear | OAccount
| OStall (fingerprint : rstr) | OBlocker (key : rstr) | OResetBlocker | ORollback | OResetStall
| OStreak | OClaim (should_fire : Z → Z → bool) | ORevoke | OResetStrategist
| ORecommend (path recommendation : rstr)
| OAppend (entry : GoalHistoryEntry)
| OEdit (f : GoalOrchestration → GoalOrchestration).

(** The operation, its answer as [true] when it says that it was applied. *)
Definition step (env : Env) (dir : rstr) (op : goal_op) : M bool :=
  match op with
  | OCreate gid obj budget baseline created commit =>
      _ ← create_goal env gid obj budget baseline created commit; mret true
  | ORestore s => _ ← from_snapshot env dir s; mret true
  | OPause r None => pause env r
  | OPause r (Some m) => pause_with_message env r m
  | OResume => resume env
  | OComplete => complete env
  | OBudgetLimit => budget_limit env
  | OClear => _ ← clear env; mret true
  | OAccount => _ ← account_elapsed env; mret false
  | OStall fp => record_classifier_stall fp
  | OBlocker k => _ ← record_evaluator_blocker k; mret false
  | OResetBlocker => _ ← reset_evaluator_blocker; mret false
  | ORollback => _ ← rollback_classifier_attempt; mret false
  | OResetStall => _ ← reset_classifier_stall; mret false
  | OStreak => _ ← record_not_achieved_streak; mret false
  | OClaim p => _ ← claim_strategist_fire p; mret false
  | ORevoke => _ ← revoke_strategist_cap_bonus; mret false
  | OResetStrategist => _ ← reset_strategist_state; mret false
  | ORecommend p r => _ ← record_strategy_recommendation p r; mret false
  | OAppend e => _ ← append_history e; mret false
  | OEdit f => _ ← with_goal f; mret false
  end.

Fixpoint run (env : Env) (dir : rstr) (ops : list goal_op) : M unit :=
  match ops with
  | [] => mret tt
  | op :: ops => _ ← step env dir op; run env dir ops
  end.

(** What lives outside the tracker may edit: anything but the status, the
    pause message and the identifier. *)
Definition edit_ok (op : goal_op) : Prop :=
  match op with
  | OEdit f => ∀ o, status (f o) = status o ∧ pause_message (f o) = pause_message o ∧
                    verifier_id (f o) = verifier_id o
  | _ => True
  end.

(** * Confinement *)

Section confinement.
Context (env : Env) (dir : rstr).

Definition goal_home : rstr := path_join dir (lit "goal").

(** Calls that stay inside a scratch root of ours or the session's goal
    directory. *)
Definition confined (c : Call) : Prop :=
  let root p := ∃ vid, canonical_id vid = true ∧ p = goal_scratch_root env vid in
  let in_root p := ∃ r, root r ∧ ((components r `prefix_of` components p) ∧ ParentDir ∉ components p) in
  let in_home p := ∃ name, plain_name name ∧ p = path_join goal_home name in
  match c with
  | CRemoveDirAll p | CCreateDir p | CSetPermissions p | CReadDir p => root p
  | CCreateDirAll p => p = goal_home ∨ ∃ vid, canonical_id vid = true ∧ p = implementer_scratch_dir env vid
  | CRename s d | CCopy s d => in_root s ∧ in_home d
  | COpen p => in_root p
  | CCreateNew p | COpenAppend p | CWriteAll p _ => in_home p
  | CSymlinkMetadata p => root p ∨ ∃ r name, root r ∧ plain_name name ∧ p = path_join r name
  | CReadToString p => ∃ r name, root r ∧ plain_name name ∧ p = path_join r name
  end.

Definition goal_id_ok (o : GoalOrchestration) : Prop := canonical_id (verifier_id o) = true.

(** Every call so far is confined, the goal's identifier is canonical, and
    the session directory is this one. *)
Record safe (w : World) : Prop := {
  safe_calls : Forall confined (calls w);
  safe_id : ∀ o, orchestration (tracker w) = Some o → goal_id_ok o;
  safe_dir : session_dir (tracker w) = dir;
}.

(** The identifiers uuid hands out: 32 hexadecimal digits. *)
Definition uuid_simple_form : Prop :=
  ∀ n, length (uuid_v4 env n) = 32%nat ∧ Forall (λ c, is_ascii_hexdigit c = true) (uuid_v4 env n).

(** What a directory lists: names of its entries, each one component. *)
Definition lists_names : Prop := ∀ n p names, fs_read_dir env n p = Some names → Forall plain_name names.

Lemma insert_report_in x y l : x ∈ insert_report y l → x = y ∨ x ∈ l.
Proof.
  induction l as [|z l IH]; cbn; [by intros ->%list_elem_of_singleton; left|]. case_decide; [by intros [->|Hx]%elem_of_cons; auto|].
  intros [->|Hx]%elem_of_cons; [by right; left|]. destruct (IH Hx) as [->|Hl]; [by left|by right; right].
Qed.

Lemma sort_reports_in x l : x ∈ sort_reports l → x ∈ l.
Proof.
  induction l as [|y l IH]; [done|]. cbn. intros [->|Hx]%insert_report_in; [left|right; by apply IH].
Qed.

(** The reports that are inlined are entries of the directory. *)
Lemma reports_plain entries : Forall plain_name entries → Forall plain_name (snd <$> sort_reports (omap report_key entries)).
Proof.
  rewrite !Forall_forall. intros He name (x & -> & Hx)%list_elem_of_fmap. apply sort_reports_in, list_elem_of_omap in Hx as (e & Hin & Hk).
  unfold report_key in Hk. destruct (parse_skeptic_report_order e) as [[a i]|]; simplify_eq/=. by apply He.
Qed.

Lemma hexdigit_width c : is_ascii_hexdigit c = true → len_utf8 c = 1.
Proof.
  unfold is_ascii_hexdigit, len_utf8. intros Hc. case_match; [done|]. exfalso. lia.
Qed.

Lemma hexdigits_len s : Forall (λ c, is_ascii_hexdigit c = true) s → byte_len s = zlen s.
Proof.
  induction 1 as [|c s Hc _ IH]; [done|].
  by rewrite byte_len_cons, zlen_cons, IH, hexdigit_width; [lia|].
Qed.

Lemma generated_canonical n : uuid_simple_form → canonical_id (take 12 (uuid_v4 env n)) = true.
Proof.
  intros Hu. destruct (Hu n) as [Hl Hh].
  pose proof (Forall_take _ 12 _ Hh) as Ht.
  unfold canonical_id. rewrite hexdigits_len by done. apply andb_true_intro. split.
  - unfold zlen. rewrite length_take, Hl. done.
  - apply forallb_forall. intros c Hc%list_elem_of_In. by eapply Forall_forall in Ht.
Qed.

Lemma safe_ask {A} (f : nat → A) : preserves safe (ask f).
Proof. by intros w []. Qed.

Lemma safe_perform {A} c (f : nat → A) : confined c → preserves safe (perform c f).
Proof. intros Hc w [H1 H2 H3]. split; simpl; [|done..]. apply Forall_app. by split; [|constructor]. Qed.

Lemma safe_with_goal f : (∀ o, verifier_id (f o) = verifier_id o) → preserves safe (with_goal f).
Proof.
  intros Hf w [H1 H2 H3]. split; simpl; [done| |done].
  intros o. destruct (orchestration (tracker w)) as [o'|]; [|done]. simpl. intros [= <-].
  unfold goal_id_ok. rewrite Hf. by apply H2.
Qed.

Lemma safe_put_goal o : (∀ g, o = Some g → goal_id_ok g) → preserves safe (put_goal o).
Proof. by intros Ho w [H1 H2 H3]. Qed.

Lemma safe_set_active i : preserves safe (set_active_since i).
Proof. by intros w []. Qed.

#[local] Hint Resolve safe_ask safe_perform safe_set_active : rust.

Lemma safe_call_ok c : confined c → preserves safe (call_ok env c).
Proof. apply safe_perform. Qed.

Lemma safe_verify p : confined (CSymlinkMetadata p) → preserves safe (verify_owned_real_dir env p).
Proof. intros Hc. apply preserves_bind; [by apply safe_perform|auto with rust]. Qed.

Lemma safe_entry ev det : preserves safe (record_event env ev det).
Proof.
  apply preserves_bind; [apply preserves_bind; auto with rust|]. intros e. by apply safe_with_goal.
Qed.

Lemma safe_flush : preserves safe (flush_timer env).
Proof.
  intros w Hw. unfold flush_timer. rewrite goal_bind_run. simpl.
  destruct (active_since (tracker w)); [|done]. revert w Hw.
  apply preserves_bind; [auto with rust|]. intros _. apply preserves_bind; [apply safe_ask|].
  intros i. by apply safe_with_goal.
Qed.

Lemma root_plain vid : canonical_id vid = true → plain_name (scratch_name vid).
Proof.
  unfold canonical_id. intros [_ Hh]%andb_prop. split_and!; [done..|].
  unfold scratch_name. rewrite not_elem_of_app. split; [by apply (bool_decide_unpack _)|].
  intros Hin. rewrite forallb_forall in Hh. apply list_elem_of_In, Hh in Hin. done.
Qed.

Lemma safe_prepare vid : canonical_id vid = true → preserves safe (prepare_scratch env vid).
Proof.
  intros Hv. assert (∃ v, canonical_id v = true ∧ goal_scratch_root env vid = goal_scratch_root env v) by eauto.
  unfold prepare_scratch, ensure_goal_scratch_root. apply preserves_bind.
  - apply preserves_bind; [by apply safe_perform|]. intros []; auto with rust.
    apply preserves_bind; [by apply safe_verify; left|]. intros []; cbn [negb]; auto with rust.
    apply preserves_bind; [by apply safe_call_ok|]. auto with rust.
  - intros []; auto with rust. apply safe_call_ok. right. eauto.
Qed.

Lemma safe_inline root reports dest budget :
  (∃ vid, canonical_id vid = true ∧ root = goal_scratch_root env vid) →
  (∃ name, plain_name name ∧ dest = path_join goal_home name) → Forall plain_name reports →
  preserves safe (inline_reports env root dest reports budget).
Proof.
  intros Hr Hd Hn. revert budget. induction Hn as [|name reports Hname Hn IH]; intros budget; cbn [inline_reports]; auto with rust.
  apply preserves_bind; [apply safe_perform; right; eauto 6|]. intros [m|]; [|done].
  apply preserves_if; [apply preserves_bind; [by apply safe_call_ok|auto with rust]|].
  apply preserves_bind; [apply safe_perform; simpl; eauto 6|]. intros [body|]; [|done].
  apply preserves_bind; [by apply safe_call_ok|]. intros []; cbn [negb]; auto with rust.
  apply preserves_bind; [by apply safe_call_ok|]. intros []; cbn [negb]; auto with rust.
Qed.

Lemma safe_append_reports root dest :
  lists_names →
  (∃ vid, canonical_id vid = true ∧ root = goal_scratch_root env vid) →
  (∃ name, plain_name name ∧ dest = path_join goal_home name) →
  preserves safe (append_skeptic_reports env root dest).
Proof.
  intros Hls Hr Hd w Hw. unfold append_skeptic_reports. rewrite goal_bind_run.
  assert (safe (read_dir env root w).2) as Hw' by (by apply (safe_perform (CReadDir root))).
  destruct ((read_dir env root w).1) as [entries|] eqn:He; [|done].
  assert (Forall plain_name (snd <$> sort_reports (omap report_key entries))) as Hn by (eapply reports_plain, (Hls (asked w) root), He).
  revert Hw'. generalize (read_dir env root w).2. clear w Hw He. destruct (sort_reports _) as [|x xs]; [done|].
  match goal with |- ∀ w, safe w → safe (?m w).2 => change (preserves safe m) end.
  apply preserves_bind; [by apply safe_call_ok|]. intros []; cbn [negb]; auto with rust. by apply safe_inline.
Qed.

Lemma safe_rescue : lists_names → preserves safe (rescue_classifier_details env).
Proof.
  intros Hls w Hw. pose proof Hw as [_ Hid Hdir]. unfold rescue_classifier_details. rewrite goal_bind_run. simpl.
  destruct (orchestration (tracker w)) as [o|]; [|done]. specialize (Hid o eq_refl).
  destruct (last_classifier_details_path o) as [src|]; [|done].
  destruct (has_parent_dir src) eqn:Hpar; [done|].
  destruct (path_starts_with src _) eqn:Hpre; [|done]. simpl.
  assert (∃ v, canonical_id v = true ∧ goal_scratch_root env (verifier_id o) = goal_scratch_root env v)
    as Hroot by eauto.
  assert (∃ r, (∃ v, canonical_id v = true ∧ r = goal_scratch_root env v) ∧
    ((components r `prefix_of` components src) ∧ ParentDir ∉ components src)) as Hsrc.
  { exists (goal_scratch_root env (verifier_id o)). split_and!; [done|by apply bool_decide_eq_true in Hpre|].
    intros Hin%list_elem_of_In. unfold has_parent_dir in Hpar.
    assert (existsb (λ c, bool_decide (c = ParentDir)) (components src) = true) as Ht
      by (apply existsb_exists; eexists; split; [done|by apply bool_decide_eq_true]).
    congruence. }
  assert (goal_dir (tracker w) = goal_home) as Hhome by (unfold goal_dir; by rewrite Hdir).
  rewrite Hhome. clear Hid Hpre. revert w Hw Hdir Hhome.
  assert (∀ m : M unit, preserves safe m → ∀ w, safe w → session_dir (tracker w) = dir →
    goal_dir (tracker w) = goal_home → safe (m w).2) as Hgo by (intros; by auto).
  apply Hgo. apply preserves_bind; [by apply safe_verify; left|]. intros []; cbn [negb]; [|auto with rust].
  destruct (file_name src) as [name|] eqn:Hn; auto with rust. apply file_name_plain in Hn.
  assert (∃ n, plain_name n ∧ path_join goal_home name = path_join goal_home n) as Hdest by eauto.
  apply preserves_bind; [apply safe_call_ok; by left|]. intros _. apply preserves_bind.
  - apply preserves_bind; [by apply safe_call_ok|]. intros []; auto with rust.
    apply preserves_bind; [by apply safe_call_ok|]. intros []; cbn [negb]; auto with rust.
    apply preserves_bind; [by apply safe_call_ok|]. intros []; cbn [negb]; auto with rust. by apply safe_call_ok.
  - intros []; cbn [negb]; auto with rust. apply preserves_bind; [by apply safe_append_reports|].
    intros _. by apply safe_with_goal.
Qed.

Lemma safe_remove : preserves safe (remove_scratch_root env).
Proof.
  intros w Hw. pose proof Hw as [_ Hid _]. unfold remove_scratch_root. rewrite goal_bind_run. simpl.
  destruct (orchestration (tracker w)) as [o|]; [|done]. specialize (Hid o eq_refl).
  revert w Hw. apply preserves_bind; [apply safe_call_ok; simpl; eauto|auto with rust].
Qed.
End confinement.

Section safe_steps.
Context (env : Env) (dir : rstr) (Huuid : uuid_simple_form env) (Hlist : lists_names env).

Lemma safe_now : preserves (safe env dir) (now env).
Proof. apply safe_ask. Qed.

#[local] Hint Resolve safe_now safe_ask safe_set_active safe_entry safe_flush safe_rescue safe_remove : rust.

Lemma safe_flags f : (∀ o, verifier_id (f o) = verifier_id o) → preserves (safe env dir) (with_goal f).
Proof. apply safe_with_goal. Qed.

(** What follows a reading of the tracker, given the session's directory. *)
Lemma safe_get_tracker {A} (k : GoalTracker → M A) :
  (∀ t, session_dir t = dir → preserves (safe env dir) (k t)) → preserves (safe env dir) (t ← get_tracker; k t).
Proof. intros Hk w Hw. rewrite goal_bind_run. apply Hk; [by destruct Hw|done]. Qed.

Lemma safe_get_goal {A} (k : option GoalOrchestration → M A) :
  (∀ g, (∀ o, g = Some o → goal_id_ok o) → preserves (safe env dir) (k g)) →
  preserves (safe env dir) (g ← get_goal; k g).
Proof. intros Hk w Hw. rewrite goal_bind_run. apply Hk; [by destruct Hw|done]. Qed.

Lemma safe_new_id : preserves (safe env dir) (generate_verifier_id env).
Proof. apply preserves_bind; auto 8 with rust. Qed.

Lemma safe_generate {A} (k : rstr → M A) :
  (∀ vid, canonical_id vid = true → preserves (safe env dir) (k vid)) →
  preserves (safe env dir) (vid ← generate_verifier_id env; k vid).
Proof.
  intros Hk w Hw. rewrite goal_bind_run. apply Hk; [|by apply safe_new_id].
  unfold generate_verifier_id. rewrite goal_bind_run. by apply generated_canonical.
Qed.

Lemma safe_create gid obj budget baseline created commit :
  preserves (safe env dir) (create_goal env gid obj budget baseline created commit).
Proof.
  apply safe_get_tracker. intros t Ht.
  apply preserves_bind; [apply safe_call_ok; left; unfold goal_dir; by rewrite Ht|]. intros _.
  apply preserves_bind; [destruct (orchestration t); auto 8 with rust|]. intros _.
  apply safe_generate. intros vid Hv. apply preserves_bind; [by apply safe_prepare|]. intros ready.
  apply preserves_bind; [by apply safe_put_goal; intros ? [= <-]|]. auto 8 with rust.
Qed.

Lemma safe_restored s : goal_id_ok s → preserves (safe env dir) (restore env dir s).
Proof.
  intros Hv. apply preserves_bind; [apply preserves_if; [auto 8 with rust|by apply safe_prepare]|].
  intros ready. apply preserves_bind; [case_decide; auto 8 with rust|].
  intros since w []. split; [done| |done]. by intros o [= <-].
Qed.

Lemma safe_restore s : preserves (safe env dir) (from_snapshot env dir s).
Proof.
  unfold from_snapshot. generalize (restore_fields s). clear s. intros s. cbv zeta.
  destruct (canonical_id (verifier_id s)) eqn:Hc.
  - intros w Hw. rewrite goal_bind_run. unfold mret, St_ret. cbn [fst snd].
    refine (safe_restored _ _ w Hw). exact Hc.
  - apply safe_generate. intros vid Hv. by apply safe_restored.
Qed.

Lemma safe_pause reason msg : preserves (safe env dir) (pause_inner env reason msg).
Proof.
  apply safe_get_goal. intros g _. apply preserves_if; [|auto 8 with rust].
  apply preserves_bind; [auto 8 with rust|]. intros _.
  apply preserves_bind; [apply safe_flags; intros o; by destruct msg|]. auto 8 with rust.
Qed.

Lemma safe_resume : preserves (safe env dir) (resume env).
Proof.
  apply safe_get_goal. intros g _. apply preserves_if; [|auto 8 with rust].
  apply preserves_bind; [by apply safe_flags|]. auto 8 with rust.
Qed.

Lemma safe_finish s ev : preserves (safe env dir) (finish env s ev).
Proof.
  apply safe_get_goal. intros g _. apply preserves_if; [|auto 8 with rust].
  apply preserves_bind; [auto 8 with rust|]. intros _. apply preserves_bind; [by apply safe_flags|]. auto 8 with rust.
Qed.

Lemma safe_account : preserves (safe env dir) (account_elapsed env).
Proof.
  apply safe_get_tracker. intros t _. destruct (orchestration t), (active_since t); auto 8 with rust.
  apply preserves_bind; [apply safe_ask|]. intros i. apply preserves_bind; [by apply safe_flags|].
  intros _. apply preserves_bind; [apply safe_ask|]. auto 8 with rust.
Qed.

(** Operations that read the goal and write it back changed. *)
Lemma safe_update {A} (k : option GoalOrchestration → M A) :
  (∀ o, ∃ o' a, (k (Some o) = (_ ← put_goal (Some o'); mret a) ∧ verifier_id o' = verifier_id o) ∨
                 k (Some o) = mret a) →
  preserves (safe env dir) (k None) →
  preserves (safe env dir) (g ← get_goal; k g).
Proof.
  intros Hk Hnone. apply safe_get_goal. intros [o|] Hg; [|done].
  destruct (Hk o) as (o' & a & [[-> Hv]| ->]); [|auto 8 with rust].
  apply preserves_bind; [|auto 8 with rust]. apply safe_put_goal. intros ? [= <-].
  unfold goal_id_ok. rewrite Hv. by apply Hg.
Qed.

Lemma safe_stall fp : preserves (safe env dir) (record_classifier_stall fp).
Proof. apply safe_update; [|auto with rust]. intros o. eexists _, _. left. by split. Qed.

Lemma safe_blocker key : preserves (safe env dir) (record_evaluator_blocker key).
Proof. apply safe_update; [|auto with rust]. intros o. eexists _, _. left. by split. Qed.

Lemma safe_streak : preserves (safe env dir) record_not_achieved_streak.
Proof. apply safe_update; [|auto with rust]. intros o. eexists _, _. left. by split. Qed.

Lemma safe_claim f : preserves (safe env dir) (claim_strategist_fire f).
Proof.
  apply safe_update; [|auto with rust]. intros o.
  destruct (f _ _) eqn:E; [exists (fire_strategist o)|exists o]; eexists; [left; by split|by right].
Qed.

Lemma safe_clear : preserves (safe env dir) (clear env).
Proof.
  do 2 (apply preserves_bind; [auto with rust|]; intros _).
  apply preserves_bind; [by apply safe_put_goal|]. auto with rust.
Qed.

#[local] Hint Resolve safe_create safe_restore safe_pause safe_resume safe_finish safe_clear safe_account safe_stall
  safe_blocker safe_streak safe_claim : rust.

Lemma step_safe op : edit_ok op → preserves (safe env dir) (step env dir op).
Proof.
  intros Hop. destruct op as [| |? []| | | | | | | | | | | | | | | | |f]; cbn [step];
    first [solve [unfold pause, pause_with_message, complete, budget_limit; auto with rust]
          |apply preserves_bind; [|auto with rust]; by apply safe_flags
          |apply preserves_bind; [|auto with rust]; apply safe_flags; intros o; by apply Hop].
Qed.

Lemma run_safe ops : Forall edit_ok ops → preserves (safe env dir) (run env dir ops).
Proof.
  induction 1 as [|op ops Hop _ IH]; simpl; [auto 8 with rust|].
  apply preserves_bind; [by apply step_safe|done].
Qed.
End safe_steps.

(** * What leaves the tracker alone *)

(** A computation of the tracker that leaves the tracker alone. *)
Definition untouched {A} (m : M A) : Prop := ∀ w, tracker (m w).2 = tracker w.

Lemma untouched_ret {A} (a : A) : untouched (mret a).
Proof. done. Qed.

Lemma untouched_bind {A B} (m : M A) (k : A → M B) : untouched m → (∀ a, untouched (k a)) → untouched (a ← m; k a).
Proof. intros Hm Hk w. by rewrite goal_bind_run, Hk, Hm. Qed.

Lemma untouched_ask {A} (f : nat → A) : untouched (ask f).
Proof. done. Qed.

Lemma untouched_root env vid : untouched (ensure_goal_scratch_root env vid).
Proof.
  unfold ensure_goal_scratch_root. apply untouched_bind; [done|]. intros []; [done| |done].
  apply untouched_bind; [by apply untouched_bind|]. intros ok. case_match; [done|]. by apply untouched_bind.
Qed.

Section untouched.
Context (env : Env).

Lemma untouched_verify p : untouched (verify_owned_real_dir env p).
Proof. by apply untouched_bind. Qed.

Lemma untouched_inline root dest reports budget : untouched (inline_reports env root dest reports budget).
Proof.
  revert budget. induction reports as [|name rest IH]; intros budget; [done|]. cbn [inline_reports].
  apply untouched_bind; [done|]. intros [m|]; [|apply IH]. case_match; [by apply untouched_bind|].
  apply untouched_bind; [done|]. intros [b|]; [|apply IH]. apply untouched_bind; [done|]. intros [|]; [|done].
  apply untouched_bind; [done|]. intros [|]; [apply IH|done].
Qed.

Lemma untouched_append root dest : untouched (append_skeptic_reports env root dest).
Proof.
  apply untouched_bind; [done|]. intros [l|]; [|done]. destruct (sort_reports _); [done|].
  apply untouched_bind; [done|]. intros [|]; [|done]. apply untouched_inline.
Qed.
End untouched.

(** * Lifecycle *)

(** The part of the state the lifecycle is about. *)
Definition core (w : World) : option (GoalStatus * option rstr) * option Z :=
  ((λ o, (status o, pause_message o)) <$> orchestration (tracker w), active_since (tracker w)).

Definition status_of (w : World) : option GoalStatus := fst <$> (core w).1.

(** The timer runs exactly while the goal is active, and an active goal shows
    no pause message. *)
Definition goal_inv (w : World) : Prop :=
  match core w with
  | (None, since) => since = None
  | (Some (s, msg), since) => (is_Some since ↔ s = Active) ∧ (s = Active → msg = None)
  end.

(** What an operation makes of the status. *)
Definition lifecycle (op : goal_op) (s : option GoalStatus) : option GoalStatus :=
  match op, s with
  | OCreate _ _ _ _ _ _, _ => Some Active
  | ORestore snap, _ => Some (if decide (status snap = Active) then UserPaused else status snap)
  | OPause r _, Some Active => Some (to_status r)
  | OResume, Some s => Some (if is_paused s then Active else s)
  | OComplete, Some s => Some (if is_terminal s then s else Complete)
  | OBudgetLimit, Some s => Some (if is_terminal s then s else BudgetLimited)
  | OClear, _ => None
  | _, s => s
  end.

(** The four guarded transitions, and when they apply. *)
Definition guard (op : goal_op) (s : option GoalStatus) : option Prop :=
  match op with
  | OPause _ _ => Some (s = Some Active)
  | OResume => Some (∃ s', s = Some s' ∧ is_paused s' = true)
  | OComplete | OBudgetLimit => Some (∃ s', s = Some s' ∧ is_terminal s' = false)
  | _ => None
  end.

(** A computation the lifecycle does not see. *)
Definition frame {A} (m : M A) : Prop := ∀ w, core (m w).2 = core w.

Lemma frame_ret {A} (a : A) : frame (mret a).
Proof. done. Qed.

Lemma frame_bind {A B} (m : M A) (k : A → M B) : frame m → (∀ a, frame (k a)) → frame (a ← m; k a).
Proof. intros Hm Hk w. by rewrite goal_bind_run, Hk, Hm. Qed.

Lemma frame_if {A} (b : bool) (m k : M A) : frame m → frame k → frame (if b then m else k).
Proof. by destruct b. Qed.

Lemma frame_ask {A} (f : nat → A) : frame (ask f).
Proof. done. Qed.

Lemma frame_perform {A} c (f : nat → A) : frame (perform c f).
Proof. done. Qed.

Lemma frame_get_tracker {A} (k : GoalTracker → M A) : (∀ t, frame (k t)) → frame (t ← get_tracker; k t).
Proof. intros Hk w. rewrite goal_bind_run. apply Hk. Qed.

Lemma frame_get_goal {A} (k : option GoalOrchestration → M A) : (∀ g, frame (k g)) → frame (g ← get_goal; k g).
Proof. intros Hk w. rewrite goal_bind_run. apply Hk. Qed.

(** The effect of an update of the goal. *)
Lemma core_with_goal f g w :
  (∀ o, (status (f o), pause_message (f o)) = g (status o, pause_message o)) →
  core (with_goal f w).2 = (g <$> (core w).1, (core w).2).
Proof.
  intros Hf. unfold core. simpl. destruct (orchestration (tracker w)); simpl; [by rewrite Hf|done].
Qed.

Lemma frame_with_goal f :
  (∀ o, status (f o) = status o ∧ pause_message (f o) = pause_message o) → frame (with_goal f).
Proof.
  intros Hf w. rewrite (core_with_goal _ id); [destruct (core w) as [[] ]; done|].
  intros o. destruct (Hf o) as [-> ->]. done.
Qed.

#[local] Hint Resolve frame_ret frame_bind frame_if frame_ask frame_perform : rust.

Section frames.
Context (env : Env).

Lemma frame_call_ok c : frame (call_ok env c).
Proof. done. Qed.

Lemma frame_verify p : frame (verify_owned_real_dir env p).
Proof. apply frame_bind; [apply frame_perform|auto with rust]. Qed.

#[local] Hint Resolve frame_call_ok frame_verify : rust.

Lemma frame_event ev det : frame (record_event env ev det).
Proof.
  apply frame_bind; [apply frame_bind; auto with rust|]. intros e. by apply frame_with_goal.
Qed.

Lemma frame_prepare vid : frame (prepare_scratch env vid).
Proof.
  apply frame_bind; [|intros []; auto with rust].
  apply frame_bind; [auto with rust|]. intros []; auto 8 with rust.
Qed.

Lemma frame_inline root dest reports budget : frame (inline_reports env root dest reports budget).
Proof.
  revert budget. induction reports as [|name reports IH]; intros budget; cbn [inline_reports]; auto with rust.
  apply frame_bind; [apply frame_perform|]. intros [m|]; [|done].
  apply frame_if; [auto with rust|]. apply frame_bind; [apply frame_perform|]. intros [body|]; [|done].
  auto 10 with rust.
Qed.

Lemma frame_append root dest : frame (append_skeptic_reports env root dest).
Proof.
  apply frame_bind; [apply frame_perform|]. intros [entries|]; auto with rust.
  destruct (sort_reports _); auto with rust.
  apply frame_bind; [auto with rust|]. intros ok. apply frame_if; [auto with rust|apply frame_inline].
Qed.

Lemma frame_rescue : frame (rescue_classifier_details env).
Proof.
  apply frame_get_tracker. intros t. destruct (orchestration t) as [o|]; auto with rust.
  destruct (last_classifier_details_path o) as [src|]; auto with rust.
  do 2 (apply frame_if; [auto with rust|]). apply frame_bind; [auto with rust|]. intros ok.
  apply frame_if; [auto with rust|]. destruct (file_name src); auto with rust.
  apply frame_bind; [auto with rust|]. intros _. apply frame_bind.
  - apply frame_bind; [auto with rust|]. intros moved. apply frame_if; [auto with rust|].
    unfold copy_no_follow. auto 10 with rust.
  - intros moved. apply frame_if; [auto with rust|]. apply frame_bind; [apply frame_append|].
    intros _. by apply frame_with_goal.
Qed.

Lemma frame_remove : frame (remove_scratch_root env).
Proof. apply frame_get_goal. intros [o|]; auto with rust. Qed.

Lemma core_flush w : core (flush_timer env w).2 = ((core w).1, None).
Proof.
  unfold flush_timer. rewrite goal_bind_run. cbn [fst snd get_tracker].
  destruct (active_since (tracker w)) eqn:E; [|unfold core; simpl; by rewrite E].
  rewrite !goal_bind_run. rewrite (core_with_goal _ id) by done. unfold core. simpl.
  by destruct (orchestration (tracker w)).
Qed.
End frames.

#[local] Hint Resolve frame_call_ok frame_verify frame_event frame_prepare frame_rescue frame_remove : rust.

Section lifecycle.
Context (env : Env) (dir : rstr).

Lemma core_create gid obj budget baseline created commit w :
  ∃ i, core (create_goal env gid obj budget baseline created commit w).2 = (Some (Active, None), Some i).
Proof.
  unfold create_goal. rewrite !goal_bind_run. rewrite frame_event. unfold core, set_active_since, put_goal. simpl. eauto.
Qed.

Lemma core_put_tracker t w :
  core (put_tracker t w).2 = ((λ o, (status o, pause_message o)) <$> orchestration t, active_since t).
Proof. done. Qed.

Lemma core_restored r w :
  status r ≠ Active → core (restore env dir r w).2 = (Some (status r, pause_message r), None).
Proof.
  intros Hr. unfold restore. rewrite !goal_bind_run, core_put_tracker. by rewrite decide_False.
Qed.

Lemma restore_fields_core s :
  status (restore_fields s) = (if decide (status s = Active) then UserPaused else status s) ∧
  pause_message (restore_fields s) = pause_message s.
Proof. unfold restore_fields. destruct (phase s); simpl; by case_decide. Qed.

Lemma core_restore s w :
  core (from_snapshot env dir s w).2 =
    (Some (if decide (status s = Active) then UserPaused else status s, pause_message s), None).
Proof.
  unfold from_snapshot. destruct (restore_fields_core s) as [<- <-].
  assert (status (restore_fields s) ≠ Active) as Hr
    by (destruct (restore_fields_core s) as [-> _]; by case_decide).
  generalize dependent (restore_fields s). intros r Hr. cbv zeta. rewrite goal_bind_run.
  set (vid := _ w). by rewrite core_restored.
Qed.

Lemma status_guard (p : GoalStatus → bool) w :
  is_some_and (λ o, p (status o)) (orchestration (tracker w)) = is_some_and (λ s, p s.1) (core w).1.
Proof. unfold core. simpl. by destruct (orchestration (tracker w)). Qed.

(** Rewrite with [status_guard] for a test given as a function. *)
Ltac use_guard p :=
  let H := fresh in
  match goal with |- context [is_some_and _ (orchestration (tracker ?w))] => pose proof (status_guard p w) as H end;
  cbv beta in H; rewrite H; clear H.

Lemma core_pause r msg w :
  pause_inner env r msg w =
    if decide (status_of w = Some Active) then (true, (pause_inner env r msg w).2) else (false, w).
Proof.
  unfold pause_inner. rewrite goal_bind_run. cbn [fst snd get_goal].
  use_guard (λ s, bool_decide (s = Active)). unfold status_of.
  destruct (core w).1 as [[s m]|]; simpl; [|done].
  repeat case_decide; rewrite ?bool_decide_true, ?bool_decide_false by congruence; simplify_eq; try done.
  by rewrite !goal_bind_run.
Qed.

Lemma core_paused r msg w m since :
  core w = (Some (Active, m), since) →
  core (pause_inner env r msg w).2 = (Some (to_status r, match msg with Some _ => msg | None => m end), None).
Proof.
  intros Hc. unfold pause_inner. rewrite goal_bind_run. cbn [fst snd get_goal].
  use_guard (λ s, bool_decide (s = Active)); rewrite Hc. simpl.
  rewrite !goal_bind_run. cbn [fst snd mret St_ret]. unfold mret, St_ret. cbn [snd]. rewrite frame_event.
  rewrite (core_with_goal _ (λ sm, (to_status r, match msg with Some _ => msg | None => sm.2 end)))
    by (intros o; by destruct msg).
  rewrite core_flush, Hc. done.
Qed.

Lemma core_resume w :
  match (core w).1 with
  | Some (s, _) =>
      if is_paused s then (resume env w).1 = true ∧ ∃ i, core (resume env w).2 = (Some (Active, None), Some i)
      else resume env w = (false, w)
  | None => resume env w = (false, w)
  end.
Proof.
  unfold resume. rewrite goal_bind_run. cbn [fst snd get_goal]. use_guard is_paused.
  destruct (core w).1 as [[s m]|] eqn:Hc; [|done]. cbn [is_some_and fst]. destruct (is_paused s); [|done].
  rewrite !goal_bind_run. unfold mret, St_ret. cbn [fst snd]. split; [done|]. rewrite frame_event.
  eexists. unfold core at 1. cbn -[core]. unfold core in Hc. cbn in Hc.
  by destruct (orchestration (tracker w)).
Qed.

Lemma core_finish s ev w :
  match (core w).1 with
  | Some (s0, _) =>
      if is_terminal s0 then finish env s ev w = (false, w)
      else (finish env s ev w).1 = true ∧ core (finish env s ev w).2 = (Some (s, None), None)
  | None => finish env s ev w = (false, w)
  end.
Proof.
  unfold finish. rewrite goal_bind_run. cbn [fst snd get_goal].
  use_guard (λ s, bool_decide (s = Active) || is_paused s).
  destruct (core w).1 as [[s0 m]|] eqn:Hc; [|done]. cbn [is_some_and fst].
  assert (bool_decide (s0 = Active) || is_paused s0 = negb (is_terminal s0)) as -> by by destruct s0.
  destruct (is_terminal s0); simpl; [done|].
  rewrite !goal_bind_run. unfold mret, St_ret. cbn [fst snd]. split; [done|].
  rewrite frame_event, frame_remove, frame_rescue.
  rewrite (core_with_goal _ (λ _, (s, None))) by done. rewrite core_flush, Hc. done.
Qed.

Lemma core_clear w : core (clear env w).2 = (None, None).
Proof. unfold clear. by rewrite !goal_bind_run. Qed.

Lemma core_account w :
  (core (account_elapsed env w).2).1 = (core w).1 ∧
  (is_Some (core (account_elapsed env w).2).2 ↔ is_Some (core w).2).
Proof.
  unfold account_elapsed. rewrite goal_bind_run. cbn [fst snd get_tracker]. unfold core at 2 4. cbn [fst snd].
  destruct (orchestration (tracker w)) as [o|] eqn:Ho, (active_since (tracker w)) eqn:Ha;
    try (unfold core; simpl; by rewrite Ho, Ha).
  rewrite !goal_bind_run. unfold core. simpl. rewrite Ho. simpl. split; [done|]. split; eauto.
Qed.

(** An update of the goal that is read first. *)
Lemma frame_update {A} (k : option GoalOrchestration → M A) :
  (∀ o, (∃ a, k o = mret a) ∨
        ∃ g o' a, o = Some g ∧ k o = (_ ← put_goal (Some o'); mret a) ∧
                  status o' = status g ∧ pause_message o' = pause_message g) →
  frame (o ← get_goal; k o).
Proof.
  intros Hk w. rewrite goal_bind_run. cbn [fst snd get_goal].
  destruct (Hk (orchestration (tracker w))) as [[a ->]|(g & o' & a & Hg & -> & Hs & Hm)]; [done|].
  rewrite goal_bind_run. unfold core. simpl. by rewrite Hg, Hs, Hm.
Qed.

Lemma frame_stall fp : frame (record_classifier_stall fp).
Proof. apply frame_update. intros [o|]; [right; eexists o, _, _; by split_and!|left; by eexists]. Qed.

Lemma frame_blocker key : frame (record_evaluator_blocker key).
Proof. apply frame_update. intros [o|]; [right; eexists o, _, _; by split_and!|left; by eexists]. Qed.

Lemma frame_streak : frame record_not_achieved_streak.
Proof. apply frame_update. intros [o|]; [right; eexists o, _, _; by split_and!|left; by eexists]. Qed.

Lemma frame_claim f : frame (claim_strategist_fire f).
Proof.
  apply frame_update. intros [o|]; [|left; by eexists]. destruct (f _ _) eqn:E; [right|left].
  - eexists o, _, _. by split_and!.
  - by eexists.
Qed.

Lemma frame_edit f (b : bool) :
  (∀ o, status (f o) = status o ∧ pause_message (f o) = pause_message o) → frame (_ ← with_goal f; mret b).
Proof. intros Hf. apply frame_bind; [by apply frame_with_goal|]. intros _. apply frame_ret. Qed.

Lemma frame_discard {A} (m : M A) (b : bool) : frame m → frame (_ ← m; mret b).
Proof. intros Hm. apply frame_bind; [done|]. intros _. apply frame_ret. Qed.

Definition in_lifecycle (op : goal_op) : bool :=
  match op with
  | OCreate _ _ _ _ _ _ | ORestore _ | OPause _ _ | OResume | OComplete | OBudgetLimit | OClear | OAccount => true
  | _ => false
  end.

(** The operations the lifecycle does not see. *)
Lemma frame_step op : edit_ok op → in_lifecycle op = false → frame (step env dir op).
Proof.
  intros Hop Hin. destruct op; try discriminate Hin; cbn [step]; clear Hin.
  - apply frame_stall.
  - apply frame_discard, frame_blocker.
  - by apply frame_edit.
  - by apply frame_edit.
  - by apply frame_edit.
  - apply frame_discard, frame_streak.
  - apply frame_discard, frame_claim.
  - by apply frame_edit.
  - by apply frame_edit.
  - by apply frame_edit.
  - by apply frame_edit.
  - apply frame_edit. intros o. by destruct (Hop o) as (? & ? & _).
Qed.

(** Reduce the projections of [core], and not [core] itself. *)
Ltac lc_simpl := cbn [fst snd fmap option_fmap option_map lifecycle] in *.

Lemma pause_lifecycle r msg w :
  goal_inv w →
  status_of (pause_inner env r msg w).2 = lifecycle (OPause r msg) (status_of w) ∧
  goal_inv (pause_inner env r msg w).2 ∧
  ((pause_inner env r msg w).1 = true ↔ status_of w = Some Active).
Proof.
  intros HI. pose proof (core_pause r msg w) as Hp. pose proof (core_paused r msg w) as Hq.
  unfold status_of, goal_inv in *.
  destruct (core w) as [[[s m]|] since] eqn:Hc; lc_simpl.
  2: { rewrite decide_False in Hp by done. rewrite Hp; cbn [fst snd]; rewrite Hc. naive_solver. }
  destruct (decide (Some s = Some Active)) as [[= ->]|Hne].
  - rewrite (Hq _ _ eq_refl), Hp; lc_simpl.
    split; [done|split; [|done]]. split; [split; [by intros [? [=]]|by destruct r]|by destruct r].
  - rewrite Hp; cbn [fst snd]; rewrite Hc; lc_simpl.
    split; [by destruct s|split; [tauto|]]. split; [done|congruence].
Qed.

Lemma resume_lifecycle w :
  goal_inv w →
  status_of (resume env w).2 = lifecycle OResume (status_of w) ∧ goal_inv (resume env w).2 ∧
  ((resume env w).1 = true ↔ ∃ s', status_of w = Some s' ∧ is_paused s' = true).
Proof.
  intros HI. pose proof (core_resume w) as Hp. unfold status_of, goal_inv in *.
  destruct (core w) as [[[s m]|] since] eqn:Hc; lc_simpl; [|rewrite Hp; cbn [fst snd]; rewrite Hc; naive_solver].
  destruct (is_paused s) eqn:Hs.
  - destruct Hp as [Hp [i Hi]]. rewrite Hi, Hp; lc_simpl. split; [done|split; [|naive_solver]]. split; [split; eauto|done].
  - rewrite Hp; cbn [fst snd]; rewrite Hc; lc_simpl. naive_solver.
Qed.

Lemma finish_lifecycle s ev w :
  goal_inv w → is_terminal s = true →
  status_of (finish env s ev w).2 =
    match status_of w with Some s0 => Some (if is_terminal s0 then s0 else s) | None => None end ∧
  goal_inv (finish env s ev w).2 ∧
  ((finish env s ev w).1 = true ↔ ∃ s', status_of w = Some s' ∧ is_terminal s' = false).
Proof.
  intros HI Hterm. pose proof (core_finish s ev w) as Hp. unfold status_of, goal_inv in *.
  destruct (core w) as [[[s0 m]|] since] eqn:Hc; lc_simpl; [|rewrite Hp; cbn [fst snd]; rewrite Hc; naive_solver].
  destruct (is_terminal s0) eqn:Hs.
  - rewrite Hp; cbn [fst snd]; rewrite Hc; lc_simpl. naive_solver.
  - destruct Hp as [Hp Hi]. rewrite Hi, Hp; lc_simpl. split; [done|split; [|naive_solver]].
    split; [|done]. split; [by intros [? [=]]|by intros ->].
Qed.

Lemma account_lifecycle w :
  goal_inv w →
  status_of (account_elapsed env w).2 = status_of w ∧ goal_inv (account_elapsed env w).2.
Proof.
  intros HI. destruct (core_account w) as [H1 H2]. unfold status_of, goal_inv in *. rewrite H1.
  destruct (core (account_elapsed env w).2) as [g since'], (core w) as [g' since]. lc_simpl. subst g'.
  destruct g as [[s m]|]; [by rewrite H2|]. subst since. split; [done|].
  destruct since' as [i|]; [|done]. destruct H2 as [[? [=]] _]. eauto.
Qed.

Lemma create_lifecycle gid obj budget baseline created commit w :
  let w' := (create_goal env gid obj budget baseline created commit w).2 in
  status_of w' = Some Active ∧ goal_inv w'.
Proof.
  destruct (core_create gid obj budget baseline created commit w) as [i Hc].
  unfold status_of, goal_inv. rewrite Hc. split; [done|]. split; [split; eauto|done].
Qed.

Lemma restore_lifecycle s w :
  let w' := (from_snapshot env dir s w).2 in
  status_of w' = Some (if decide (status s = Active) then UserPaused else status s) ∧ goal_inv w'.
Proof.
  unfold status_of, goal_inv. rewrite core_restore. split; [done|].
  split; [split; [by intros [? [=]]|by case_decide]|by case_decide].
Qed.

Lemma frame_lifecycle {A} (m : M A) w :
  frame m → goal_inv w → status_of (m w).2 = status_of w ∧ goal_inv (m w).2.
Proof. intros Hm HI. unfold status_of, goal_inv. by rewrite Hm. Qed.

Lemma discard_run {A B} (m : M A) (b : B) w : ((_ ← m; mret b) w).2 = (m w).2.
Proof. by rewrite goal_bind_run. Qed.

(** The transitions, as [step] runs them. *)
Lemma step_create gid obj budget baseline created commit w :
  (step env dir (OCreate gid obj budget baseline created commit) w).2 =
  (create_goal env gid obj budget baseline created commit w).2.
Proof. apply discard_run. Qed.

Lemma step_restore s w : (step env dir (ORestore s) w).2 = (from_snapshot env dir s w).2.
Proof. apply discard_run. Qed.

Lemma step_clear w : (step env dir OClear w).2 = (clear env w).2.
Proof. apply discard_run. Qed.

Lemma step_account w : (step env dir OAccount w).2 = (account_elapsed env w).2.
Proof. apply discard_run. Qed.

Lemma step_pause r msg : step env dir (OPause r msg) = pause_inner env r msg.
Proof. by destruct msg. Qed.

Lemma step_complete : step env dir OComplete = finish env Complete GoalCompleted.
Proof. done. Qed.

Lemma step_budget : step env dir OBudgetLimit = finish env BudgetLimited BudgetExceeded.
Proof. done. Qed.

(** One step: the status is the lifecycle's, and the invariant holds again. *)
Lemma step_lifecycle op w :
  edit_ok op → goal_inv w →
  status_of (step env dir op w).2 = lifecycle op (status_of w) ∧ goal_inv (step env dir op w).2 ∧
  match guard op (status_of w) with Some P => (step env dir op w).1 = true ↔ P | None => True end.
Proof.
  intros Hop HI. destruct (in_lifecycle op) eqn:Hin.
  2: { destruct (frame_lifecycle (step env dir op) w (frame_step op Hop Hin) HI) as [Hs Hi].
       split; [rewrite Hs|split; [exact Hi|by destruct op]].
       destruct op; try discriminate Hin; by destruct (status_of w) as [[]|]. }
  destruct op; try discriminate Hin; clear Hin Hop.
  - rewrite step_create. destruct (create_lifecycle gid obj budget baseline created commit w) as [Hs Hi].
    exact (conj Hs (conj Hi I)).
  - rewrite step_restore. destruct (restore_lifecycle snapshot w) as [Hs Hi]. exact (conj Hs (conj Hi I)).
  - rewrite step_pause. exact (pause_lifecycle _ _ _ HI).
  - exact (resume_lifecycle _ HI).
  - rewrite step_complete. destruct (finish_lifecycle Complete GoalCompleted w HI eq_refl) as (Hs & Hi & Hg).
    split; [rewrite Hs; by destruct (status_of w)|exact (conj Hi Hg)].
  - rewrite step_budget. destruct (finish_lifecycle BudgetLimited BudgetExceeded w HI eq_refl) as (Hs & Hi & Hg).
    split; [rewrite Hs; by destruct (status_of w)|exact (conj Hi Hg)].
  - rewrite step_clear. unfold status_of, goal_inv. rewrite core_clear. done.
  - rewrite step_account. destruct (account_lifecycle w HI) as [Hs Hi].
    split; [rewrite Hs; by destruct (status_of w)|exact (conj Hi I)].
Qed.
End lifecycle.

(** * The stall detector *)

Definition record_stalls (fps : list rstr) (w : World) : World :=
  foldl (λ w fp, (record_classifier_stall fp w).2) w fps.

(** The goal after recording [l], from a fresh streak. *)
Definition recorded (o : GoalOrchestration) (l : list rstr) : GoalOrchestration := foldl (flip stall_fields) o l.

Lemma suffix_replicate_snoc {A} (x : A) n l y :
  replicate (S n) x `suffix_of` l ++ [y] ↔ x = y ∧ replicate n x `suffix_of` l.
Proof.
  rewrite replicate_S_end. split.
  - intros Hs. split; [by eapply suffix_snoc_inv_1|by eapply suffix_snoc_inv_2].
  - intros [-> Hs]. by apply suffix_snoc.
Qed.

Lemma suffix_replicate_last {A} (x : A) n l : replicate (S n) x `suffix_of` l → last l = Some x.
Proof. rewrite replicate_S_end. intros [k ->]. by rewrite app_assoc, last_snoc. Qed.

(** A streak: the key seen last, and how often in a row. *)
Definition streak (s : option rstr * Z) (l : list rstr) : option rstr * Z :=
  foldl (λ s k, (Some k, bump_streak s.1 s.2 k)) s l.

(** What a streak has counted after [l]. *)
Lemma streak_spec l :
  zlen l ≤ umax 32 →
  (streak (None, 0) l).1 = last l ∧ 0 ≤ (streak (None, 0) l).2 ≤ zlen l ∧
  ∀ x n, last l = Some x → (replicate n x `suffix_of` l ↔ Z.of_nat n ≤ (streak (None, 0) l).2).
Proof.
  induction l as [|k l IH] using rev_ind; intros Hlen; [by split_and!|].
  rewrite zlen_app, zlen_cons, zlen_nil in Hlen. destruct IH as (Hlast & Hcount & Hrep); [lia|].
  unfold streak in *. rewrite foldl_app. cbn [foldl fst snd]. set (s' := foldl _ _ l) in *. clearbody s'.
  assert (zlen (l ++ [k]) = zlen l + 1) as -> by (by rewrite zlen_app).
  rewrite last_snoc. unfold bump_streak, sat_add. rewrite Hlast.
  split; [done|]. split; [case_bool_decide; lia|]. intros x n [= <-]. destruct n as [|n].
  { split; [intros _; case_bool_decide; lia|intros _; apply suffix_nil]. }
  rewrite suffix_replicate_snoc. case_bool_decide as Hl.
  - rewrite (Hrep _ _ Hl). split; [intros [_ ?]; lia|intros ?; split; [done|lia]].
  - split; [|intros Hn; assert (n = 0%nat) as -> by lia; split; [done|apply suffix_nil]].
    intros [_ Hs]. destruct n as [|n]; [lia|]. apply suffix_replicate_last in Hs. congruence.
Qed.

Lemma recorded_streak o l :
  (last_gap_fingerprint (recorded o l), classifier_stall_count (recorded o l)) =
    streak (last_gap_fingerprint o, classifier_stall_count o) l ∧
  stall_threshold (recorded o l) = stall_threshold o.
Proof.
  unfold recorded, streak. revert o. induction l as [|k l IH]; intros o; [done|]. cbn [foldl flip].
  destruct (IH (stall_fields k o)) as [-> ->]. done.
Qed.

Lemma recorded_spec o l :
  last_gap_fingerprint o = None → classifier_stall_count o = 0 → zlen l ≤ umax 32 →
  stall_threshold (recorded o l) = stall_threshold o ∧
  ∀ x n, last l = Some x →
    (replicate n x `suffix_of` l ↔ Z.of_nat n ≤ classifier_stall_count (recorded o l)).
Proof.
  intros Hl Hc Hlen. destruct (recorded_streak o l) as [Hs Ht]. split; [exact Ht|].
  rewrite Hl, Hc in Hs. destruct (streak_spec l Hlen) as (_ & _ & Hrep). rewrite <- Hs in Hrep. exact Hrep.
Qed.

Lemma record_stalls_goal fps w o :
  orchestration (tracker w) = Some o → orchestration (tracker (record_stalls fps w)) = Some (recorded o fps).
Proof.
  unfold record_stalls, recorded. revert w o. induction fps as [|fp fps IH]; intros w o Ho; [done|].
  cbn [foldl]. apply IH. unfold record_classifier_stall. rewrite goal_bind_run. cbn [fst snd get_goal]. by rewrite Ho.
Qed.

Lemma stall_answer fp w o :
  orchestration (tracker w) = Some o →
  (record_classifier_stall fp w).1 =
    (stall_threshold (stall_fields fp o) <=? classifier_stall_count (stall_fields fp o)).
Proof. intros Ho. unfold record_classifier_stall. rewrite goal_bind_run. cbn [fst snd get_goal]. by rewrite Ho. Qed.

(** * Properties *)

Definition start (dir : rstr) : World := mkWorld (tracker_new dir) 0 [].

(** A quiet system: a clock that ticks a second, one identifier, no file. *)
Definition demo_env : Env := {|
  temp_dir := lit "/tmp"; euid := 501; instant_now := λ n, Z.of_nat n * 1000000000;
  utc_now := λ _, lit "2025-01-01T00:00:00Z"; uuid_v4 := λ _, lit "0123456789abcdef0123456789abcdef";
  fs_ok := λ _ _, true; fs_create_dir := λ _ _, CreatedOk; fs_metadata := λ _ _, None;
  fs_read_dir := λ _ _, None; fs_read := λ _ _, None |}.

Definition demo_goal : goal_op := OCreate (lit "g1") (lit "ship it") None 0 (lit "now") None.

(** What [run] reaches, and one more step. *)
Lemma run_lifecycle env dir ops w :
  Forall edit_ok ops → goal_inv w →
  goal_inv (run env dir ops w).2 ∧
  status_of (run env dir ops w).2 = foldl (flip lifecycle) (status_of w) ops.
Proof.
  intros Hops. revert w. induction Hops as [|op ops Hop _ IH]; intros w HI; [done|].
  cbn [run foldl flip]. rewrite goal_bind_run.
  destruct (step_lifecycle env dir op w Hop HI) as (Hs & HI' & _).
  rewrite <- Hs. by apply IH.
Qed.

(** C35: the lifecycle.  Whatever is called, in whatever order, from a fresh
    tracker or a restored snapshot (edits from outside leave the status, the pause
    message and the identifier of the goal alone), the status is the one the lifecycle
    prescribes (pausing takes an active goal, resuming a paused one, ending
    any that has not ended; an ended goal stays ended until another is created
    or restored; a restored goal is never active), the guarded transitions
    report whether they applied, the timer runs exactly while the goal is
    active, and an active goal shows no pause message. *)
Theorem goal_lifecycle_refines env dir ops op :
  Forall edit_ok ops → edit_ok op →
  let w := (run env dir ops (start dir)).2 in
  let r := step env dir op w in
  status_of w = foldl (flip lifecycle) None ops ∧ goal_inv w ∧
  status_of r.2 = lifecycle op (status_of w) ∧ goal_inv r.2 ∧
  match guard op (status_of w) with Some P => r.1 = true ↔ P | None => True end.
Proof.
  intros Hops Hop w r.
  destruct (run_lifecycle env dir ops (start dir) Hops) as [HI Hs]; [done|].
  destruct (step_lifecycle env dir op w Hop HI) as (H1 & H2 & H3).
  exact (conj Hs (conj HI (conj H1 (conj H2 H3)))).
Qed.

Lemma goal_lifecycle_refines_witness :
  status_of (step demo_env (lit "/s") OResume
    (run demo_env (lit "/s") [demo_goal; OPause PUser None] (start (lit "/s"))).2).2 = Some Active.
Proof.
  destruct (goal_lifecycle_refines demo_env (lit "/s") [demo_goal; OPause PUser None] OResume)
    as (H1 & _ & H2 & _); [by repeat constructor|done|].
  rewrite H2, H1. reflexivity.
Defined.

(** C36: confinement.  Let the path of the temporary directory not be empty, the
    identifiers of uuid be hexadecimal and the entries that a directory lists be
    names.  Whatever is called (edits from outside leave the status, the pause
    message and the identifier of the goal alone), and whatever snapshots are
    restored, every file-system call stays inside a scratch root of ours or the
    session's goal directory: what is made or listed is a root or the goal directory
    themselves or a fixed name below them, what is read is an entry of a root,
    what is moved out lies lexically in a root, and what is written is an entry of
    the goal directory.  In particular a directory is removed only if it is a
    direct child of the temporary directory, named after a canonical identifier of
    twelve hexadecimal digits. *)
Theorem goal_files_confined env dir ops :
  temp_dir env ≠ [] → uuid_simple_form env → lists_names env → Forall edit_ok ops →
  let trace := calls (run env dir ops (start dir)).2 in
  Forall (confined env dir) trace ∧
  ∀ p, CRemoveDirAll p ∈ trace →
    ∃ vid, canonical_id vid = true ∧
      components p = components (temp_dir env) ++ [Normal (scratch_name vid)].
Proof.
  intros Htmp Hu Hls Hops trace.
  assert (safe env dir (run env dir ops (start dir)).2) as [Hc _ _]
    by (apply run_safe; [done..|by split]).
  split; [exact Hc|]. intros p Hp. rewrite Forall_forall in Hc. destruct (Hc _ Hp) as (vid & Hv & ->).
  exists vid. split; [done|]. apply components_join; [done|by apply root_plain].
Qed.

Lemma goal_files_confined_witness :
  Forall (confined demo_env (lit "/s")) (calls (run demo_env (lit "/s") [demo_goal; OClear] (start (lit "/s"))).2).
Proof.
  apply (goal_files_confined demo_env (lit "/s") [demo_goal; OClear]); [done| | |by repeat constructor].
  2: { intros n p names Hn. vm_compute in Hn. by simplify_eq. }
  intros n. split; [reflexivity|]. apply (bool_decide_unpack _). vm_compute. exact I.
Defined.

(** the stall detector.  After any rejections, of a goal whose streak is
    fresh, recording one more reports a stall exactly when the last ones, as
    many as the threshold says, all have the fingerprint just recorded; and
    the threshold is two, or five while a strategist's bonus is in force. *)
Theorem stall_detects_repeats fps fp w o :
  orchestration (tracker w) = Some o → last_gap_fingerprint o = None → classifier_stall_count o = 0 →
  zlen fps < umax 32 →
  let k := if 0 <? strategist_cap_bonus o then 5%nat else 2%nat in
  (record_classifier_stall fp (record_stalls fps w)).1 = true ↔ replicate k fp `suffix_of` fps ++ [fp].
Proof.
  intros Ho Hl Hc Hlen k.
  rewrite (stall_answer _ _ _ (record_stalls_goal fps w o Ho)).
  assert (stall_fields fp (recorded o fps) = recorded o (fps ++ [fp])) as ->
    by (unfold recorded; by rewrite foldl_app).
  destruct (recorded_spec o (fps ++ [fp]) Hl Hc) as (-> & Hrep).
  { rewrite zlen_app, zlen_cons, zlen_nil. lia. }
  rewrite (Hrep fp k (last_snoc _ _)), Z.leb_le. unfold stall_threshold, k.
  by destruct (0 <? strategist_cap_bonus o).
Qed.

Lemma stall_detects_repeats_witness :
  let w := (step demo_env (lit "/s") demo_goal (start (lit "/s"))).2 in
  (record_classifier_stall (lit "b") (record_stalls [lit "a"; lit "b"] w)).1 = true.
Proof.
  intros w. destruct (orchestration (tracker w)) as [o|] eqn:Ho; [|vm_compute in Ho; discriminate Ho].
  eapply stall_detects_repeats; [exact Ho|..|].
  - vm_compute in Ho. injection Ho as <-. reflexivity.
  - vm_compute in Ho. injection Ho as <-. reflexivity.
  - reflexivity.
  - vm_compute in Ho. injection Ho as <-. exists [lit "a"]. reflexivity.
Defined.

(** The arm of [from_wire_str] that a string takes. *)
Lemma from_wire_arm t :
  (∃ arm, arm ∈ wire_table ∧ t ∈ arm.1 ∧ from_wire_str t = arm.2) ∨
  ((t ∉ (wire_table ≫= fst)) ∧ from_wire_str t = UserPaused).
Proof.
  unfold from_wire_str. destruct (List.find _ _) as [[names st]|] eqn:E.
  - left. apply find_some in E as [Hin Hb]. apply bool_decide_eq_true in Hb.
    eexists. split; [by apply list_elem_of_In|]. by split.
  - right. split; [|done]. rewrite list_elem_of_bind. intros (arm & Ht & Hin).
    eapply List.find_none in E; [|by apply list_elem_of_In]. by apply bool_decide_eq_false in E.
Qed.

Lemma wire_status_iff t s names :
  s ≠ UserPaused → Forall (λ t, from_wire_str t = s) names →
  Forall (λ arm, arm.2 = s → arm.1 = names) wire_table →
  from_wire_str t = s ↔ t ∈ names.
Proof.
  intros Hs Hnames Harms. rewrite Forall_forall in Hnames. split; [|apply Hnames].
  intros Ht. destruct (from_wire_arm t) as [(arm & Hin & Hm & Ha)|[_ ?]]; [|congruence].
  rewrite Forall_forall in Harms. rewrite <- (Harms _ Hin) by congruence. done.
Qed.

(** the persisted status.  Every status is read back as it was written;
    and whatever string is found, it is read as an active goal only if it is
    one of the two spellings of active, as an ended one only if it is a
    spelling of that, so that a status this version does not know restores as
    paused. *)
Theorem wire_status_fail_safe s t :
  from_wire_str (status_wire s) = s ∧
  (from_wire_str t = Active ↔ t ∈ [lit "active"; lit "Active"]) ∧
  (from_wire_str t = Complete ↔ t ∈ [lit "complete"; lit "Complete"]) ∧
  (from_wire_str t = BudgetLimited ↔ t ∈ [lit "budget_limited"; lit "BudgetLimited"]) ∧
  (t ∉ (wire_table ≫= fst) → from_wire_str t = UserPaused).
Proof.
  split; [by destruct s|].
  split_and!; [by apply wire_status_iff; [|apply (bool_decide_unpack _)..]..|].
  intros Ht. destruct (from_wire_arm t) as [(arm & Hin & Hm & _)|[_ ?]]; [|done].
  destruct Ht. apply list_elem_of_bind. eauto.
Qed.
