(* ===== verification/GoalTrackerTypes.v ===== *)
(** The goal tracker's integers: each stays in the range of its type, and the
    counters hold what the calls add up to, cut at the largest value and never
    wrapped around; the clock, what the timer showed. *)
From S2P Require Import Prelude Str Path GoalTracker GoalTrackerThms.

(** * Widths *)

Definition sint64 (x : Z) : Prop := - 2 ^ 63 ≤ x ≤ 2 ^ 63 - 1.

(** An optional integer of a width. *)
Definition opt_in (P : Z → Prop) (x : option Z) : Prop := ∀ n, x = Some n → P n.

Record typed_entry (e : GoalHistoryEntry) : Prop := {
  te_round : opt_in (uint 32) (round e);
  te_tokens : opt_in sint64 (tokens_used e);
}.

Record typed (o : GoalOrchestration) : Prop := {
  t_budget : opt_in sint64 (token_budget o);
  t_elapsed : uint 64 (elapsed_ms o);
  t_worker : uint 32 (total_worker_rounds o);
  t_verify : uint 32 (total_verify_rounds o);
  t_baseline : sint64 (token_baseline o);
  t_high : sint64 (tokens_used_high_water o);
  t_spent : sint64 (parent_tokens_spent o);
  t_seen : opt_in sint64 (last_session_tokens_seen o);
  t_history : Forall typed_entry (history o);
  t_blocked : uint 32 (evaluator_blocked_streak o);
  t_attempts : uint 32 (classifier_runs_attempted o);
  t_since : uint 32 (rounds_since_verify o);
  t_max : opt_in (uint 32) (classifier_max_runs o);
  t_stall : uint 32 (classifier_stall_count o);
  t_rejected : uint 32 (consecutive_not_achieved o);
  t_fired : uint 32 (last_strategist_fired_at o);
  t_bonus : uint 32 (strategist_cap_bonus o);
  t_live : uint 64 (live_subagent_tokens o);
  t_by_model : Forall (λ p, uint 64 p.2) (live_tokens_by_model o);
  t_window : uint 64 (live_context_window o);
  t_pct : uint 8 (live_context_pct o);
  t_turns : uint 32 (live_turn_count o);
  t_tools : uint 32 (live_tool_call_count o);
}.

Lemma uint_0 w : 0 ≤ w → uint w 0.
Proof. intros Hw. unfold uint, umax. pose proof (Z.pow_pos_nonneg 2 w ltac:(lia) Hw). lia. Qed.

Lemma sint64_0 : sint64 0.
Proof. unfold sint64. lia. Qed.

Lemma opt_in_none P : opt_in P None.
Proof. by intros n. Qed.

(** What the program writes into a counter. *)
Lemma bump_range n : uint 32 n → uint 32 (sat_add 32 n 1).
Proof. intros H. by apply sat_add_range. Qed.

Lemma unbump_range n : uint 32 n → uint 32 (sat_sub n 1).
Proof. intros H. apply sat_sub_range; [done|lia]. Qed.

Lemma streak_range prev n key : uint 32 n → uint 32 (bump_streak prev n key).
Proof. intros H. unfold bump_streak. case_match; [by apply bump_range|done]. Qed.

Lemma elapsed_range since i ms : uint 64 ms → uint 64 (add_elapsed since i ms).
Proof. intros H. apply sat_add_range; [done|]. by apply wrap_range. Qed.

Create HintDb widths.
#[export] Hint Resolve uint_0 sint64_0 opt_in_none bump_range unbump_range streak_range elapsed_range : widths.
#[export] Hint Extern 1 (0 ≤ _) => lia : widths.

(** A change that writes nothing but what is allowed. *)
Ltac typed_change := intros ? []; split; simpl; auto with widths.

(** * The operations *)

Definition typed_goal (w : World) : Prop := ∀ o, orchestration (tracker w) = Some o → typed o.

Definition typed_op (op : goal_op) : Prop :=
  match op with
  | OCreate _ _ budget baseline _ _ => opt_in sint64 budget ∧ sint64 baseline
  | ORestore s => typed s
  | OAppend e => typed_entry e
  | OEdit f => ∀ o, typed o → typed (f o)
  | _ => True
  end.

Lemma typed_untouched {A} (m : M A) : untouched m → preserves typed_goal m.
Proof. intros Hm w Hw. unfold typed_goal. by rewrite Hm. Qed.

Lemma typed_with_goal f : (∀ o, typed o → typed (f o)) → preserves typed_goal (with_goal f).
Proof.
  intros Hf w Hw o'. simpl. unfold typed_goal in Hw. destruct (orchestration (tracker w)) as [o|]; [|done].
  cbn. intros Ho. apply (inj Some) in Ho as <-. by apply Hf, Hw.
Qed.

Lemma typed_put o : typed o → preserves typed_goal (put_goal (Some o)).
Proof. intros Ho w _ o' Ho'. cbn in Ho'. apply (inj Some) in Ho' as <-. exact Ho. Qed.

Lemma typed_clear_goal : preserves typed_goal (put_goal None).
Proof. intros w _ o' Ho'. discriminate Ho'. Qed.

Lemma typed_timer i : preserves typed_goal (set_active_since i).
Proof. by intros w Hw. Qed.

Lemma typed_read_goal {A} (k : option GoalOrchestration → M A) :
  (∀ g, (∀ o, g = Some o → typed o) → preserves typed_goal (k g)) → preserves typed_goal (g ← get_goal; k g).
Proof. intros Hk w Hw. rewrite goal_bind_run. by apply Hk. Qed.

Lemma typed_read_tracker {A} (k : GoalTracker → M A) :
  (∀ t, preserves typed_goal (k t)) → preserves typed_goal (t ← get_tracker; k t).
Proof. intros Hk w Hw. rewrite goal_bind_run. by apply Hk. Qed.

Lemma typed_append e o : typed_entry e → typed o → typed (o <| history ::= append_entry e |>).
Proof.
  intros He. revert o. typed_change. apply Forall_drop, Forall_app. by split; [|constructor].
Qed.

Section typed.
Context (env : Env) (dir : rstr).

Lemma typed_event ev det : preserves typed_goal (record_event env ev det).
Proof.
  intros w Hw. unfold record_event. rewrite goal_bind_run. apply typed_with_goal; [|exact Hw].
  intros o. apply typed_append. split; apply opt_in_none.
Qed.

Lemma typed_flush : preserves typed_goal (flush_timer env).
Proof.
  apply typed_read_tracker. intros t. destruct (active_since t); [|apply preserves_ret].
  apply preserves_bind; [apply typed_timer|]. intros _. apply preserves_bind; [by apply typed_untouched|].
  intros i. apply typed_with_goal. typed_change.
Qed.

Lemma typed_rescue : preserves typed_goal (rescue_classifier_details env).
Proof.
  apply typed_read_tracker. intros t. destruct (orchestration t) as [o|]; [|apply preserves_ret].
  destruct (last_classifier_details_path o) as [src|]; [|apply preserves_ret]. cbn zeta.
  case_match; [apply preserves_ret|]. case_match; [apply preserves_ret|].
  apply preserves_bind; [apply typed_untouched, untouched_verify|]. intros ok. case_match; [apply preserves_ret|].
  destruct (file_name src) as [name|]; [|apply preserves_ret].
  apply preserves_bind; [by apply typed_untouched|]. intros _. apply preserves_bind.
  { apply typed_untouched, untouched_bind; [done|]. intros [|]; [done|].
    apply untouched_bind; [done|]. intros [|]; [|done]. apply untouched_bind; [done|]. by intros [|]. }
  intros moved. case_match; [apply preserves_ret|].
  apply preserves_bind; [apply typed_untouched, untouched_append|]. intros _. apply typed_with_goal. typed_change.
Qed.

Lemma typed_remove : preserves typed_goal (remove_scratch_root env).
Proof. apply typed_untouched. intros w. unfold remove_scratch_root. rewrite goal_bind_run. by destruct (get_goal w).1. Qed.

Lemma typed_prepare vid : preserves typed_goal (prepare_scratch env vid).
Proof. apply typed_untouched, untouched_bind; [apply untouched_root|]. by intros [?|]. Qed.

Lemma typed_pause r msg : preserves typed_goal (pause_inner env r msg).
Proof.
  apply typed_read_goal. intros g _. case_match; [|apply preserves_ret].
  apply preserves_bind; [apply typed_flush|]. intros _.
  apply preserves_bind; [apply typed_with_goal; destruct msg; typed_change|]. intros _.
  apply preserves_bind; [apply typed_event|]. intros _. apply preserves_ret.
Qed.

Lemma typed_resume : preserves typed_goal (resume env).
Proof.
  apply typed_read_goal. intros g _. case_match; [|apply preserves_ret].
  apply preserves_bind; [apply typed_with_goal; typed_change|]. intros _.
  apply preserves_bind; [by apply typed_untouched|]. intros i. apply preserves_bind; [apply typed_timer|]. intros _.
  apply preserves_bind; [apply typed_event|]. intros _. apply preserves_ret.
Qed.

Lemma typed_finish s ev : preserves typed_goal (finish env s ev).
Proof.
  apply typed_read_goal. intros g _. case_match; [|apply preserves_ret].
  apply preserves_bind; [apply typed_flush|]. intros _. apply preserves_bind; [apply typed_with_goal; typed_change|].
  intros _. apply preserves_bind; [apply typed_rescue|]. intros _. apply preserves_bind; [apply typed_remove|]. intros _.
  apply preserves_bind; [apply typed_event|]. intros _. apply preserves_ret.
Qed.

Lemma typed_clear : preserves typed_goal (clear env).
Proof.
  apply preserves_bind; [apply typed_rescue|]. intros _. apply preserves_bind; [apply typed_remove|]. intros _.
  apply preserves_bind; [apply typed_clear_goal|]. intros _. apply typed_timer.
Qed.

Lemma typed_account : preserves typed_goal (account_elapsed env).
Proof.
  apply typed_read_tracker. intros t. destruct (orchestration t), (active_since t); try apply preserves_ret.
  apply preserves_bind; [by apply typed_untouched|]. intros i. apply preserves_bind.
  { apply typed_with_goal. typed_change. }
  intros _. apply preserves_bind; [by apply typed_untouched|]. intros j. apply typed_timer.
Qed.

Lemma fresh_typed gid obj budget baseline created vid commit ready :
  opt_in sint64 budget → sint64 baseline → typed (fresh_goal gid obj budget baseline created vid commit ready).
Proof. intros Hb Hl. split; cbn -[uint sint64]; auto with widths. intros n Hn. by apply (inj Some) in Hn as <-. Qed.

Lemma typed_create gid obj budget baseline created commit :
  opt_in sint64 budget → sint64 baseline → preserves typed_goal (create_goal env gid obj budget baseline created commit).
Proof.
  intros Hb Hl. apply typed_read_tracker. intros t. apply preserves_bind; [by apply typed_untouched|]. intros _.
  apply preserves_bind.
  { destruct (orchestration t); [|apply preserves_ret]. apply preserves_bind; [apply typed_rescue|]. intros _. apply typed_remove. }
  intros _. apply preserves_bind; [by apply typed_untouched|]. intros vid.
  apply preserves_bind; [apply typed_prepare|]. intros ready.
  apply preserves_bind; [by apply typed_put, fresh_typed|]. intros _. apply preserves_bind; [by apply typed_untouched|].
  intros i. apply preserves_bind; [apply typed_timer|]. intros _. apply typed_event.
Qed.

Lemma restore_fields_typed s : typed s → typed (restore_fields s).
Proof. intros []. unfold restore_fields. destruct (phase s); cbn zeta; case_decide; split; simpl; auto. Qed.

Lemma typed_restore s : typed s → preserves typed_goal (from_snapshot env dir s).
Proof.
  intros Hs. unfold from_snapshot. pose proof (restore_fields_typed s Hs) as Hr. revert Hr.
  generalize (restore_fields s). clear s Hs. intros s Hs. cbn zeta.
  apply preserves_bind; [case_match; [apply preserves_ret|by apply typed_untouched]|]. intros vid.
  assert (∀ b, typed (s <| verifier_id := vid |> <| scratch_dir_ready := b |>)) as Hb
    by (intros b; revert s Hs; typed_change).
  apply preserves_bind; [case_match; [apply preserves_ret|apply typed_prepare]|]. intros ready.
  apply preserves_bind; [case_decide; [by apply typed_untouched|apply preserves_ret]|]. intros since w _ o' Ho'.
  apply (inj Some) in Ho' as <-. apply Hb.
Qed.

(** The operations that read the goal, change it and put it back. *)
Lemma typed_update {A} (k : option GoalOrchestration → M A) :
  (∀ o, (∃ a, k o = mret a) ∨
        ∃ g o' a, o = Some g ∧ k o = (_ ← put_goal (Some o'); mret a) ∧ (typed g → typed o')) →
  preserves typed_goal (o ← get_goal; k o).
Proof.
  intros Hk. apply typed_read_goal. intros g Hg. destruct (Hk g) as [[a ->]|(g' & o' & a & -> & -> & Ho)].
  - apply preserves_ret.
  - apply preserves_bind; [apply typed_put; auto|]. intros _. apply preserves_ret.
Qed.

Ltac typed_rewrite :=
  apply typed_update; intros [o|]; [right; eexists o, _, _; split_and!; [done|done|revert o; typed_change]|left; by eexists].

Lemma typed_discard {A} (m : M A) (b : bool) : preserves typed_goal m → preserves typed_goal (_ ← m; mret b).
Proof. intros Hm. apply preserves_bind; [done|]. intros _. apply preserves_ret. Qed.

Lemma typed_claim f : preserves typed_goal (claim_strategist_fire f).
Proof.
  apply typed_update. intros [o|]; [|left; by eexists]. destruct (f _ _) eqn:E; [right|left; by eexists].
  eexists o, _, _. split_and!; [done|done|]. revert o E. intros o _. revert o. typed_change. by vm_compute.
Qed.

Lemma typed_step op : typed_op op → preserves typed_goal (step env dir op).
Proof.
  intros Hop. destruct op; cbn [step]; try apply typed_discard.
  - destruct Hop. by apply typed_create.
  - by apply typed_restore.
  - destruct message; apply typed_pause.
  - apply typed_resume.
  - apply typed_finish.
  - apply typed_finish.
  - apply typed_clear.
  - apply typed_account.
  - typed_rewrite.
  - typed_rewrite.
  - apply typed_with_goal. typed_change.
  - apply typed_with_goal. typed_change.
  - apply typed_with_goal. typed_change.
  - typed_rewrite.
  - apply typed_claim.
  - apply typed_with_goal. typed_change.
  - apply typed_with_goal. typed_change.
  - apply typed_with_goal. typed_change.
  - apply typed_with_goal. intros o. by apply typed_append.
  - by apply typed_with_goal.
Qed.
End typed.

(** * What the counters count

    The counters as a reader of the log of calls would keep them, in integers
    without bounds. *)

Record Tally : Type := mkTally {
  gap : option rstr; stalls : Z;
  blocker : option rstr; blocks : Z;
  rejections : Z; fired_at : Z; bonus : Z;
}.

Definition no_tally : Tally := mkTally None 0 None 0 0 0 0.

(** What a goal shows, and what stands in its counters for a tally. *)
Definition counts (o : GoalOrchestration) : Tally :=
  mkTally (last_gap_fingerprint o) (classifier_stall_count o) (evaluator_blocker_key o) (evaluator_blocked_streak o)
    (consecutive_not_achieved o) (last_strategist_fired_at o) (strategist_cap_bonus o).

Definition capped (n : Z) : Z := Z.min n (2 ^ 32 - 1).
Definition shown (l : Tally) : Tally :=
  mkTally (gap l) (capped (stalls l)) (blocker l) (capped (blocks l)) (capped (rejections l)) (fired_at l) (bonus l).

(** The same key as before, or another one. *)
Definition again (prev : option rstr) (n : Z) (key : rstr) : Z := if decide (prev = Some key) then n + 1 else 1.

Definition entered (op : goal_op) (s : GoalStatus) (l : Tally) : Tally :=
  match op with
  | OResume => if is_paused s then no_tally else l
  | OComplete | OBudgetLimit =>
      if is_terminal s then l else mkTally (gap l) (stalls l) None 0 0 0 0
  | OStall fp => mkTally (Some fp) (again (gap l) (stalls l) fp) (blocker l) (blocks l) (rejections l) (fired_at l) (bonus l)
  | OResetStall => mkTally None 0 (blocker l) (blocks l) (rejections l) (fired_at l) (bonus l)
  | OBlocker k => mkTally (gap l) (stalls l) (Some k) (again (blocker l) (blocks l) k) (rejections l) (fired_at l) (bonus l)
  | OResetBlocker => mkTally (gap l) (stalls l) None 0 (rejections l) (fired_at l) (bonus l)
  | OStreak => mkTally (gap l) (stalls l) (blocker l) (blocks l) (rejections l + 1) (fired_at l) (bonus l)
  | OClaim due =>
      if due (capped (rejections l)) (fired_at l)
      then mkTally None 0 (blocker l) (blocks l) (rejections l) (capped (rejections l)) GOAL_STRATEGIST_CAP_BONUS
      else l
  | ORevoke => mkTally (gap l) (stalls l) (blocker l) (blocks l) (rejections l) (fired_at l) 0
  | OResetStrategist => mkTally (gap l) (stalls l) (blocker l) (blocks l) 0 0 0
  | _ => l
  end.

(** The log is read with the status the lifecycle gives. *)
Definition tallied (op : goal_op) (s : option (GoalStatus * Tally)) : option (GoalStatus * Tally) :=
  match op with
  | OCreate _ _ _ _ _ _ => Some (Active, no_tally)
  | ORestore snap => Some (if decide (status snap = Active) then UserPaused else status snap, counts snap)
  | OClear => None
  | _ => '(st, l) ← s; st' ← lifecycle op (Some st); Some (st', entered op st l)
  end.

Definition tally (ops : list goal_op) : option (GoalStatus * Tally) := foldl (flip tallied) None ops.

(** What lives outside the tracker leaves those counters to it. *)
Definition edit_leaves_counts (op : goal_op) : Prop :=
  match op with OEdit f => ∀ o, counts (f o) = counts o | _ => True end.

Definition logged (op : goal_op) : Prop := edit_ok op ∧ typed_op op ∧ edit_leaves_counts op.

Definition total (l : Tally) : Prop := 0 ≤ stalls l ∧ 0 ≤ blocks l ∧ 0 ≤ rejections l.

(** The calls that read the timer, and what the clock shows then. *)
Definition reads_timer (op : goal_op) : bool :=
  match op with OPause _ _ | OComplete | OBudgetLimit | OAccount => true | _ => false end.
Definition replaces_goal (op : goal_op) : bool :=
  match op with OCreate _ _ _ _ _ _ | ORestore _ | OEdit _ => true | _ => false end.

(** The milliseconds on the timer. *)
Definition on_timer (env : Env) (w : World) : Z :=
  match active_since (tracker w) with
  | Some since => Z.max 0 (instant_now env (asked w) - since) / 1000000
  | None => 0
  end.

Definition elapsed_after (env : Env) (op : goal_op) (w : World) (ms : Z) : Z :=
  if reads_timer op then Z.min (ms + on_timer env w) (2 ^ 64 - 1) else ms.

(** ** What a computation leaves alone *)

Section silent.
Context {T : Type} (view : GoalOrchestration → T) (env : Env).

Definition seen (w : World) : option T := view <$> orchestration (tracker w).
Definition silent {A} (m : M A) : Prop := ∀ w, seen (m w).2 = seen w.

Lemma silent_ret {A} (a : A) : silent (mret a).
Proof. done. Qed.

Lemma silent_bind {A B} (m : M A) (k : A → M B) : silent m → (∀ a, silent (k a)) → silent (a ← m; k a).
Proof. intros Hm Hk w. by rewrite goal_bind_run, Hk, Hm. Qed.

Lemma silent_untouched {A} (m : M A) : untouched m → silent m.
Proof. intros Hm w. unfold seen. by rewrite Hm. Qed.

Lemma seen_with_goal f w : seen (with_goal f w).2 = (λ o, view (f o)) <$> orchestration (tracker w).
Proof. unfold seen. simpl. by destruct (orchestration (tracker w)). Qed.

Lemma silent_with_goal f : (∀ o, view (f o) = view o) → silent (with_goal f).
Proof. intros Hf w. rewrite seen_with_goal. unfold seen. destruct (orchestration _); simpl; by rewrite ?Hf. Qed.

Lemma silent_discard {A} (m : M A) (b : bool) : silent m → silent (_ ← m; mret b).
Proof. intros Hm. apply silent_bind; [done|]. intros _. apply silent_ret. Qed.

Lemma silent_read_goal {A} (k : option GoalOrchestration → M A) : (∀ g, silent (k g)) → silent (g ← get_goal; k g).
Proof. intros Hk w. rewrite goal_bind_run. apply Hk. Qed.

Lemma silent_read_tracker {A} (k : GoalTracker → M A) : (∀ t, silent (k t)) → silent (t ← get_tracker; k t).
Proof. intros Hk w. rewrite goal_bind_run. apply Hk. Qed.

Context (Hhistory : ∀ e o, view (o <| history ::= append_entry e |>) = view o).
Context (Hpath : ∀ p o, view (o <| last_classifier_details_path := p |>) = view o).

Lemma silent_event ev det : silent (record_event env ev det).
Proof using Hhistory. apply silent_bind; [by apply silent_untouched|]. intros e. by apply silent_with_goal. Qed.

Lemma silent_remove : silent (remove_scratch_root env).
Proof. apply silent_read_goal. intros [o|]; by apply silent_untouched. Qed.

Lemma silent_rescue : silent (rescue_classifier_details env).
Proof using Hpath.
  apply silent_read_tracker. intros t. destruct (orchestration t) as [o|]; [|done].
  destruct (last_classifier_details_path o) as [src|]; [|done]. cbn zeta.
  case_match; [done|]. case_match; [done|].
  apply silent_bind; [apply silent_untouched, untouched_verify|]. intros ok. case_match; [done|].
  destruct (file_name src) as [name|]; [|done].
  apply silent_bind; [by apply silent_untouched|]. intros _. apply silent_bind.
  { apply silent_untouched, untouched_bind; [done|]. intros [|]; [done|].
    apply untouched_bind; [done|]. intros [|]; [|done]. apply untouched_bind; [done|]. by intros [|]. }
  intros moved. case_match; [done|].
  apply silent_bind; [apply silent_untouched, untouched_append|]. intros _. by apply silent_with_goal.
Qed.
End silent.

(** The tracker shows what the log says. *)
Definition agrees (w : World) (s : option (GoalStatus * Tally)) : Prop :=
  status_of w = fst <$> s ∧ seen counts w = (λ sl, shown sl.2) <$> s ∧ ∀ sl, s = Some sl → total sl.2.

Lemma capped_again prev n key : 0 ≤ n → bump_streak prev (capped n) key = capped (again prev n key).
Proof. intros Hn. unfold bump_streak, again, capped, sat_add, umax. case_bool_decide; case_decide; try done; lia. Qed.

Lemma capped_succ n : 0 ≤ n → sat_add 32 (capped n) 1 = capped (n + 1).
Proof. unfold sat_add, capped, umax. lia. Qed.

(** Read the counters off an equation between two tallies. *)
Ltac fields E :=
  let E1 := fresh in let E2 := fresh in let E3 := fresh in let E4 := fresh in let E5 := fresh in
  let E6 := fresh in let E7 := fresh in
  injection E as E1 E2 E3 E4 E5 E6 E7; unfold counts, shown; cbn -[capped bump_streak sat_add];
  rewrite ?E1, ?E2, ?E3, ?E4, ?E5, ?E6, ?E7, ?capped_again, ?capped_succ by assumption.

Section tallies.
Context (env : Env) (dir : rstr).

(** Without a goal only two calls make one. *)
Lemma step_no_goal {T} (view : GoalOrchestration → T) op w :
  orchestration (tracker w) = None →
  match op with OCreate _ _ _ _ _ _ | ORestore _ => True | _ => seen view (step env dir op w).2 = None end.
Proof.
  intros Ho. unfold seen.
  assert (∀ f, orchestration (tracker (with_goal f w).2) = None) as Hf by (intros f; simpl; by rewrite Ho).
  destruct op; try done; rewrite ?step_pause; cbn [step]; rewrite ?discard_run;
    try (unfold reset_evaluator_blocker, rollback_classifier_attempt, reset_classifier_stall,
           revoke_strategist_cap_bonus, reset_strategist_state, record_strategy_recommendation, append_history;
         by rewrite Hf).
  all: try (unfold pause_inner, resume, complete, budget_limit, finish, record_classifier_stall,
              record_evaluator_blocker, record_not_achieved_streak, claim_strategist_fire, account_elapsed;
            rewrite goal_bind_run; cbn [fst snd get_goal get_tracker]; rewrite Ho; unfold mret, St_ret;
            cbn [is_some_and fst snd]; by rewrite Ho).
  unfold clear. by rewrite !goal_bind_run.
Qed.

Lemma silent_flush : silent counts (flush_timer env).
Proof.
  apply silent_read_tracker. intros t. destruct (active_since t); [|done].
  apply silent_bind; [done|]. intros _. apply silent_bind; [done|]. intros i. by apply silent_with_goal.
Qed.

Lemma silent_pause r msg : silent counts (pause_inner env r msg).
Proof.
  apply silent_read_goal. intros g. case_match; [|done].
  apply silent_bind; [apply silent_flush|]. intros _.
  apply silent_bind; [apply silent_with_goal; by destruct msg|]. intros _. by apply silent_discard, silent_event.
Qed.

Lemma silent_account : silent counts (account_elapsed env).
Proof.
  apply silent_read_tracker. intros t. destruct (orchestration t), (active_since t); try done.
  apply silent_bind; [by apply silent_untouched|]. intros i. apply silent_bind; [by apply silent_with_goal|].
  intros _. by apply silent_bind.
Qed.

(** The two transitions that clear counters. *)
Lemma resume_counts w o :
  orchestration (tracker w) = Some o →
  seen counts (resume env w).2 = Some (if is_paused (status o) then no_tally else counts o).
Proof.
  intros Ho. unfold resume. rewrite goal_bind_run. cbn [fst snd get_goal]. rewrite Ho. cbn [is_some_and].
  destruct (is_paused (status o)); [|unfold seen; simpl; by rewrite Ho].
  rewrite !goal_bind_run. unfold mret at 1, St_ret at 1. cbn [snd]. rewrite silent_event by done.
  unfold seen. simpl. by rewrite Ho.
Qed.

Lemma finish_counts s ev w o :
  orchestration (tracker w) = Some o →
  seen counts (finish env s ev w).2 =
    Some (if is_terminal (status o) then counts o
          else mkTally (last_gap_fingerprint o) (classifier_stall_count o) None 0 0 0 0).
Proof.
  intros Ho. unfold finish. rewrite goal_bind_run. cbn [fst snd get_goal]. rewrite Ho. cbn [is_some_and].
  assert (bool_decide (status o = Active) || is_paused (status o) = negb (is_terminal (status o))) as ->
    by by destruct (status o).
  destruct (is_terminal (status o)); cbn [negb]; [unfold seen; simpl; by rewrite Ho|].
  rewrite !goal_bind_run. unfold mret at 1, St_ret at 1. cbn [snd]. rewrite silent_event by done.
  rewrite silent_remove by done. rewrite silent_rescue by done. rewrite seen_with_goal.
  pose proof (silent_flush w) as Hf. unfold seen in Hf. rewrite Ho in Hf.
  destruct (orchestration (tracker (flush_timer env w).2)) as [o'|]; [|done].
  injection Hf as H1 H2 _ _ _ _ _. cbn. unfold counts. cbn. by rewrite H1, H2.
Qed.

(** A call, seen through the counters. *)
Lemma step_counts op w o l :
  edit_leaves_counts op → orchestration (tracker w) = Some o → total l → counts o = shown l →
  match op with
  | OCreate _ _ _ _ _ _ | ORestore _ | OClear => True
  | _ => seen counts (step env dir op w).2 = Some (shown (entered op (status o) l))
  end.
Proof.
  intros Hedit Ho (H1 & H2 & H3) Hc. pose proof Hc as E. unfold counts, shown in E. assert (seen counts w = Some (shown l)) as Hw by (unfold seen; by rewrite Ho, <- Hc).
  assert (∀ f, seen counts (with_goal f w).2 = Some (counts (f o))) as Hf by (intros f; by rewrite seen_with_goal, Ho).
  destruct op; try done; rewrite ?step_pause; cbn [step entered]; rewrite ?discard_run.
  - by rewrite silent_pause.
  - rewrite (resume_counts w o Ho), Hc. by destruct (is_paused _).
  - unfold complete. rewrite (finish_counts _ _ w o Ho), Hc. unfold counts in Hc. injection Hc as -> -> _ _ _ _ _. by destruct (is_terminal _).
  - unfold budget_limit. rewrite (finish_counts _ _ w o Ho), Hc. unfold counts in Hc. injection Hc as -> -> _ _ _ _ _. by destruct (is_terminal _).
  - by rewrite silent_account.
  - unfold record_classifier_stall. rewrite goal_bind_run. cbn [fst snd get_goal]. rewrite Ho.
    enough (counts (stall_fields fingerprint o) = shown (entered (OStall fingerprint) (status o) l)) as Hs by exact (f_equal Some Hs).
    by fields E.
  - unfold record_evaluator_blocker. rewrite goal_bind_run. cbn [fst snd get_goal]. rewrite Ho.
    enough (counts (blocker_fields key o) = shown (entered (OBlocker key) (status o) l)) as Hs by exact (f_equal Some Hs).
    by fields E.
  - unfold reset_evaluator_blocker. rewrite Hf. by fields E.
  - unfold rollback_classifier_attempt. by rewrite Hf, <- Hc.
  - unfold reset_classifier_stall. rewrite Hf. by fields E.
  - unfold record_not_achieved_streak. rewrite goal_bind_run. cbn [fst snd get_goal]. rewrite Ho.
    enough (counts (o <| consecutive_not_achieved ::= λ n, sat_add 32 n 1 |>) = shown (entered OStreak (status o) l)) as Hs
      by exact (f_equal Some Hs).
    by fields E.
  - unfold claim_strategist_fire. rewrite goal_bind_run. cbn [fst snd get_goal]. rewrite Ho.
    pose proof E as E'. injection E' as _ _ _ _ E5 E6 _. rewrite E5, E6. destruct (should_fire _ _); [|exact Hw].
    enough (counts (fire_strategist o) = mkTally None 0 (blocker l) (capped (blocks l)) (capped (rejections l)) (capped (rejections l)) 3)
      as Hs by exact (f_equal Some Hs).
    by fields E.
  - unfold revoke_strategist_cap_bonus. rewrite Hf. by fields E.
  - unfold reset_strategist_state. rewrite Hf. by fields E.
  - unfold record_strategy_recommendation. by rewrite Hf, <- Hc.
  - unfold append_history. by rewrite Hf, <- Hc.
  - by rewrite Hf, Hedit, Hc.
Qed.

Lemma create_counts gid obj budget baseline created commit w :
  seen counts (create_goal env gid obj budget baseline created commit w).2 = Some no_tally.
Proof. unfold create_goal. rewrite !goal_bind_run. by rewrite silent_event. Qed.

Lemma restore_fields_counts s : counts (restore_fields s) = counts s.
Proof. unfold restore_fields. destruct (phase s); cbn zeta; by case_decide. Qed.

Lemma restore_counts s w : seen counts (from_snapshot env dir s w).2 = Some (counts s).
Proof.
  unfold from_snapshot. rewrite <- (restore_fields_counts s). generalize (restore_fields s). clear s. intros s.
  cbv zeta. rewrite goal_bind_run. generalize (fst ((if canonical_id (verifier_id s) then mret (verifier_id s) else generate_verifier_id env) w)).
  intros vid. unfold restore. by rewrite !goal_bind_run.
Qed.

Lemma capped_fits n : n ≤ umax 32 → capped n = n.
Proof. unfold capped, umax. lia. Qed.

Lemma typed_shown s : typed s → shown (counts s) = counts s ∧ total (counts s).
Proof.
  intros []. unfold uint, shown, total, counts in *. cbn -[capped]. rewrite !capped_fits by lia. split; [done|lia].
Qed.

Lemma entered_total op s l : total l → total (entered op s l).
Proof.
  intros (H1 & H2 & H3). assert (∀ p n k, 0 ≤ n → 0 ≤ again p n k) as Ha by (intros; unfold again; case_decide; lia).
  pose proof (Ha (gap l) (stalls l)). pose proof (Ha (blocker l) (blocks l)). unfold total.
  destruct op; cbn -[Z.add]; repeat case_match; cbn -[Z.add]; auto with lia.
Qed.

Lemma tallied_alive op st l :
  match op with
  | OCreate _ _ _ _ _ _ | ORestore _ | OClear => True
  | _ => ∃ st', lifecycle op (Some st) = Some st' ∧ tallied op (Some (st, l)) = Some (st', entered op st l)
  end.
Proof. destruct op; try done; by destruct st; eexists. Qed.

Lemma step_agrees op w s :
  logged op → goal_inv w → agrees w s → agrees (step env dir op w).2 (tallied op s).
Proof.
  intros (Hedit & Htyped & Hleave) HI (Hs & Hc & Ht).
  destruct (step_lifecycle env dir op w Hedit HI) as (Hs' & _ & _). unfold agrees. rewrite Hs'. clear Hs'.
  destruct (orchestration (tracker w)) as [o|] eqn:Ho.
  - assert (status_of w = Some (status o)) as Hst by (unfold status_of, core; by rewrite Ho).
    destruct s as [[st l]|]; [|by rewrite Hst in Hs]. rewrite Hst in Hs. injection Hs as Hso.
    unfold seen in Hc. rewrite Ho in Hc. injection Hc as Hco. specialize (Ht _ eq_refl). cbn [fst snd] in *.
    pose proof (step_counts op w o l Hleave Ho Ht) as Hstep.
    assert (counts o = shown l) as Heq by (unfold counts, shown; congruence). specialize (Hstep Heq). subst st.
    pose proof (entered_total op (status o) l Ht) as Hp. rewrite Hst.
    pose proof (tallied_alive op (status o) l) as Hl. set (st' := lifecycle op (Some (status o))) in *.
    destruct op; try (destruct Hl as (s' & -> & ->); rewrite Hstep; split_and!; [done|done|by intros ? [= <-]]);
      clear Hl Hstep Hp; subst st'.
    + rewrite step_create, create_counts. split_and!; [done|done|]. by intros ? [= <-].
    + rewrite step_restore, restore_counts. destruct (typed_shown snapshot Htyped) as [Hn Hp]. cbn [tallied lifecycle].
      split_and!; [done|simpl; by rewrite Hn|by intros ? [= <-]].
    + rewrite step_clear. split_and!; [done| |done]. unfold clear. by rewrite !goal_bind_run.
  - assert (status_of w = None) as Hst by (unfold status_of, core; by rewrite Ho).
    destruct s as [sl|]; [by rewrite Hst in Hs|]. rewrite Hst.
    pose proof (step_no_goal counts op w Ho) as Hn.
    destruct op; try (rewrite Hn; by split_and!); clear Hn.
    + rewrite step_create, create_counts. split_and!; [done|done|]. by intros ? [= <-].
    + rewrite step_restore, restore_counts. destruct (typed_shown snapshot Htyped) as [Hn Hp]. cbn [tallied lifecycle].
      split_and!; [done|simpl; by rewrite Hn|by intros ? [= <-]].
Qed.

Lemma run_agrees ops w s :
  Forall logged ops → goal_inv w → agrees w s → agrees (run env dir ops w).2 (foldl (flip tallied) s ops).
Proof.
  intros Hops. revert w s. induction Hops as [|op ops Hop _ IH]; intros w s HI Hw; [done|].
  cbn [run foldl flip]. rewrite goal_bind_run. apply IH; [|by apply step_agrees].
  destruct Hop as (Hedit & _ & _). by destruct (step_lifecycle env dir op w Hedit HI) as (_ & ? & _).
Qed.
End tallies.

(** ** The clock *)

Section clock.
Context (env : Env) (dir : rstr).

Definition added (w : World) (ms : Z) : Z := Z.min (ms + on_timer env w) (2 ^ 64 - 1).

Lemma add_elapsed_timer w since ms :
  active_since (tracker w) = Some since → on_timer env w ≤ umax 64 →
  add_elapsed since (instant_now env (asked w)) ms = added w ms.
Proof.
  intros Hs. unfold on_timer, added, add_elapsed, on_timer. rewrite Hs. intros Hfit.
  rewrite wrap_id; [done|]. split; [|done]. apply Z.div_pos; lia.
Qed.

Lemma added_idle w ms : active_since (tracker w) = None → uint 64 ms → added w ms = ms.
Proof. intros Hs [? Hms]. unfold added, on_timer. rewrite Hs. unfold umax in Hms. lia. Qed.

Lemma flush_elapsed w o :
  orchestration (tracker w) = Some o → uint 64 (elapsed_ms o) → on_timer env w ≤ umax 64 →
  seen elapsed_ms (flush_timer env w).2 = Some (added w (elapsed_ms o)).
Proof.
  intros Ho Hu Hfit. unfold flush_timer. rewrite goal_bind_run. cbn [fst snd get_tracker].
  destruct (active_since (tracker w)) as [since|] eqn:Hs.
  - rewrite !goal_bind_run, seen_with_goal. rewrite <- (add_elapsed_timer w since) by done. cbn. by rewrite Ho.
  - rewrite added_idle by done. unfold seen. cbn. by rewrite Ho.
Qed.

Lemma pause_elapsed r msg w o :
  goal_inv w → orchestration (tracker w) = Some o → uint 64 (elapsed_ms o) → on_timer env w ≤ umax 64 →
  seen elapsed_ms (pause_inner env r msg w).2 = Some (added w (elapsed_ms o)).
Proof.
  intros HI Ho Hu Hfit. unfold pause_inner. rewrite goal_bind_run. cbn [fst snd get_goal]. rewrite Ho. cbn [is_some_and].
  case_bool_decide as Hact.
  - rewrite !goal_bind_run. unfold mret at 1, St_ret at 1. cbn [snd]. rewrite silent_event by done.
    rewrite silent_with_goal by (intros; by destruct msg). by apply flush_elapsed.
  - unfold goal_inv, core in HI. rewrite Ho in HI. cbn in HI. rewrite added_idle; [unfold seen; cbn; by rewrite Ho| |done].
    destruct (active_since (tracker w)); [|done]. destruct Hact. by apply HI.
Qed.

Lemma finish_elapsed s ev w o :
  goal_inv w → orchestration (tracker w) = Some o → uint 64 (elapsed_ms o) → on_timer env w ≤ umax 64 →
  seen elapsed_ms (finish env s ev w).2 = Some (added w (elapsed_ms o)).
Proof.
  intros HI Ho Hu Hfit. unfold finish. rewrite goal_bind_run. cbn [fst snd get_goal]. rewrite Ho. cbn [is_some_and].
  case_match eqn:Hlive.
  - rewrite !goal_bind_run. unfold mret at 1, St_ret at 1. cbn [snd]. rewrite silent_event by done.
    rewrite silent_remove by done. rewrite silent_rescue by done. rewrite silent_with_goal by done. by apply flush_elapsed.
  - unfold goal_inv, core in HI. rewrite Ho in HI. cbn in HI. rewrite added_idle; [unfold seen; cbn; by rewrite Ho| |done].
    destruct (active_since (tracker w)); [|done]. apply orb_false_iff in Hlive as [Hact%bool_decide_eq_false _].
    destruct Hact. by apply HI.
Qed.

Lemma account_elapsed_spec w o :
  orchestration (tracker w) = Some o → uint 64 (elapsed_ms o) → on_timer env w ≤ umax 64 →
  seen elapsed_ms (account_elapsed env w).2 = Some (added w (elapsed_ms o)).
Proof.
  intros Ho Hu Hfit. unfold account_elapsed. rewrite goal_bind_run. cbn [fst snd get_tracker]. rewrite Ho.
  destruct (active_since (tracker w)) as [since|] eqn:Hs.
  - rewrite !goal_bind_run. rewrite <- (add_elapsed_timer w since) by done. unfold seen. cbn. by rewrite Ho.
  - rewrite added_idle by done. unfold seen. cbn. by rewrite Ho.
Qed.

Lemma silent_update {A} (k : option GoalOrchestration → M A) :
  (∀ o, (∃ a, k o = mret a) ∨
        ∃ g o' a, o = Some g ∧ k o = (_ ← put_goal (Some o'); mret a) ∧ elapsed_ms o' = elapsed_ms g) →
  silent elapsed_ms (o ← get_goal; k o).
Proof.
  intros Hk w. rewrite goal_bind_run. cbn [fst snd get_goal].
  destruct (Hk (orchestration (tracker w))) as [[a ->]|(g & o' & a & Hg & -> & Hs)]; [done|].
  rewrite goal_bind_run. unfold seen. simpl. by rewrite Hg, Hs.
Qed.

(** A call that does not replace the goal, seen through its clock. *)
Lemma step_elapsed op w o :
  goal_inv w → replaces_goal op = false → orchestration (tracker w) = Some o →
  uint 64 (elapsed_ms o) → on_timer env w ≤ umax 64 →
  seen elapsed_ms (step env dir op w).2 = Some (elapsed_after env op w (elapsed_ms o)) ∨ op = OClear.
Proof.
  intros HI Hop Ho Hu Hfit. assert (seen elapsed_ms w = Some (elapsed_ms o)) as Hw by (unfold seen; by rewrite Ho).
  destruct op; try discriminate Hop; try (by right); left; unfold elapsed_after; cbn [reads_timer];
    fold (added w (elapsed_ms o)); rewrite ?step_pause; cbn [step]; rewrite ?discard_run; rewrite <- ?Hw;
    try by apply silent_with_goal.
  - by apply pause_elapsed.
  - apply silent_read_goal. intros g. case_match; [|done].
    apply silent_bind; [by apply silent_with_goal|]. intros _. apply silent_bind; [done|]. intros i.
    apply silent_bind; [done|]. intros _. by apply silent_discard, silent_event.
  - by apply finish_elapsed.
  - by apply finish_elapsed.
  - by apply account_elapsed_spec.
  - apply silent_update. intros [g|]; [right; eexists g, _, _; by split_and!|left; by eexists].
  - apply silent_update. intros [g|]; [right; eexists g, _, _; by split_and!|left; by eexists].
  - apply silent_update. intros [g|]; [right; eexists g, _, _; by split_and!|left; by eexists].
  - apply silent_update. intros [g|]; [|left; by eexists].
    destruct (should_fire _ _) eqn:E; [right; eexists g, _, _; by split_and!|left; by eexists].
Qed.
End clock.

(** The stall detector gives up: after two refusals in a row for the same gaps,
    or five while the strategist has a bonus. *)
Definition stalled (l : Tally) : Prop := (if 0 <? bonus l then 5 else 2) ≤ stalls l.

Lemma stall_spec env dir fp w s :
  agrees w s →
  (step env dir (OStall fp) w).1 = true ↔ ∃ st l, tallied (OStall fp) s = Some (st, l) ∧ stalled l.
Proof.
  intros (Hs & Hc & Ht). destruct (orchestration (tracker w)) as [o|] eqn:Ho.
  - destruct s as [[st l]|]; [|unfold status_of, core in Hs; by rewrite Ho in Hs].
    unfold seen in Hc. rewrite Ho in Hc. assert (counts o = shown l) as E by (apply (inj Some); exact Hc). clear Hc.
    specialize (Ht _ eq_refl) as (H1 & H2 & H3). cbn [fst snd] in *.
    assert (counts (stall_fields fp o) = shown (entered (OStall fp) st l)) as Hn
      by (unfold counts, shown in E; by fields E).
    cbn [step]. rewrite (stall_answer fp w o Ho). unfold stall_threshold.
    pose proof (f_equal stalls Hn) as Hstalls. pose proof (f_equal bonus Hn) as Hbonus.
    cbn -[stall_fields capped again] in Hstalls, Hbonus. rewrite Hstalls, Hbonus. rewrite Z.leb_le.
    transitivity (stalled (entered (OStall fp) st l)).
    + unfold stalled, capped, GOAL_STRATEGIST_STALL_THRESHOLD, GOAL_CLASSIFIER_STALL_THRESHOLD, GOAL_STRATEGIST_CAP_BONUS.
      cbn -[again]. case_match; lia.
    + split; [intros Hst; eexists _, _; split; [by destruct st|exact Hst]|]. intros (st' & l' & Hl & Hst).
      destruct st; by simplify_eq/=.
  - cbn [step]. unfold record_classifier_stall. rewrite goal_bind_run. cbn [fst snd get_goal]. rewrite Ho.
    unfold status_of, core in Hs. rewrite Ho in Hs. destruct s as [[st l]|]; [done|].
    split; [done|]. by intros (st & l & Hl & _).
Qed.

Lemma typed_run env dir ops w : Forall typed_op ops → typed_goal w → typed_goal (run env dir ops w).2.
Proof.
  intros Hops. revert w. induction Hops as [|op ops Hop _ IH]; intros w Hw; [done|]. cbn [run].
  rewrite goal_bind_run. by apply IH, typed_step.
Qed.

Lemma logged_split ops : Forall logged ops → Forall edit_ok ops ∧ Forall typed_op ops.
Proof. intros H. split; eapply Forall_impl; [exact H| |exact H|]; by intros op (? & ? & ?). Qed.

(** C38: counting.  Whatever is called, in whatever order, on a fresh tracker
    (goals created or restored with integers in the range of their types, edits
    from outside that stay in range and leave the status, the pause message, the
    identifier and the counters named here alone), every integer of the goal is in the range of its type, and the
    counters of stalls, blockers and refusals, with their keys, the round the
    strategist last fired in and its bonus, are those a reader of the log of
    calls finds counting without bounds, cut at the largest 32-bit integer:
    they saturate and never wrap around.  Recording a stall answers that the
    goal is stuck exactly when the log has the same gaps twice in a row, five
    times while the strategist's bonus stands.  A call that does not replace
    the goal or edit it leaves its clock as it was, or, where it reads the
    timer, adds to it the milliseconds the timer shows (if they fit 64 bits),
    cut at the largest 64-bit integer. *)
Theorem tracker_counts env dir ops op :
  Forall logged (ops ++ [op]) →
  let w := (run env dir ops (start dir)).2 in
  let r := step env dir op w in
  typed_goal r.2 ∧ agrees r.2 (tally (ops ++ [op])) ∧
  (∀ fp, op = OStall fp → r.1 = true ↔ ∃ st l, tally (ops ++ [op]) = Some (st, l) ∧ stalled l) ∧
  (∀ o o', replaces_goal op = false → on_timer env w ≤ 2 ^ 64 - 1 →
     orchestration (tracker w) = Some o → orchestration (tracker r.2) = Some o' →
     elapsed_ms o' = elapsed_after env op w (elapsed_ms o)).
Proof.
  intros [Hops Hall]%Forall_app w r. pose proof (Forall_inv Hall) as Hop. destruct (logged_split ops Hops) as [Hedits Htypes].
  destruct (run_lifecycle env dir ops (start dir) Hedits) as [HI _]; [done|].
  assert (typed_goal w) as Hw by (by apply typed_run).
  assert (agrees w (tally ops)) as Ha by (by apply run_agrees).
  pose proof (step_agrees env dir op w _ Hop HI Ha) as Ha'.
  unfold tally in *. rewrite foldl_app. cbn [foldl flip]. subst r. pose proof Hop as (_ & Htyped & _). split_and!.
  - by apply typed_step.
  - exact Ha'.
  - intros fp ->. by apply stall_spec.
  - intros o o' Hrep Hfit Ho Ho'.
    destruct (step_elapsed env dir op w o HI Hrep Ho (t_elapsed _ (Hw o Ho)) Hfit) as [Hs| ->].
    + unfold seen in Hs. rewrite Ho' in Hs. by injection Hs.
    + rewrite step_clear in Ho'. unfold clear in Ho'. by rewrite !goal_bind_run in Ho'.
Qed.

(** The same gaps twice in a row. *)
Lemma tracker_counts_witness :
  let r := step demo_env (lit "/s") (OStall (lit "a")) (run demo_env (lit "/s") [demo_goal; OStall (lit "a")] (start (lit "/s"))).2 in
  typed_goal r.2 ∧ r.1 = true.
Proof.
  destruct (tracker_counts demo_env (lit "/s") [demo_goal; OStall (lit "a")] (OStall (lit "a"))) as (H & _ & Ha & _).
  - apply Forall_cons. split; [|repeat constructor]. split_and!; [done| |done].
    split; [intros n Hn; discriminate Hn|split; vm_compute; discriminate].
  - intros r. split; [exact H|]. apply (Ha _ eq_refl). eexists _, _. split; [vm_compute; reflexivity|].
    vm_compute. discriminate.
Defined.

(** A counter at its end, in a restored goal, stays there. *)
Example full_counter_stays :
  let full := (fresh_goal (lit "g") (lit "x") None 0 (lit "now") (lit "0123456789ab") None false)
              <| last_gap_fingerprint := Some (lit "a") |> <| classifier_stall_count := umax 32 |> in
  (λ o, classifier_stall_count o) <$> orchestration (tracker (run demo_env (lit "/s") [ORestore full; OStall (lit "a")] (start (lit "/s"))).2)
  = Some (umax 32).
Proof. vm_compute. reflexivity. Qed.
