(* ===== verification/GoalPanel.v ===== *)
(** The verification panel: the skeptics that judge whether a goal has been
    reached, how their verdicts are read and counted, and what is made of the
    count (src/crates/codegen/intellihelper-shell/src/session/goal_classifier.rs).

    The panel runs over the goal tracker's world, the files of the scratch
    directory and the list of the skeptics spawned.  The text of the prompts
    and the latencies are not modelled.  The skeptics of one panel run
    concurrently; they are taken in the order of their index here, and what a
    skeptic finds in a file is whatever the environment wrote before, so that
    writes of its peers can be attributed to it or to an earlier one. *)
From stdpp Require Import sorting.
From S2P Require Import Prelude Str Truncate Path GoalTracker.

Definition GOAL_VERIFIER_SKEPTIC_COUNT : Z := 3.
Definition GOAL_VERIFIER_SKEPTIC_MIN : Z := 1.
Definition GOAL_VERIFIER_SKEPTIC_MAX : Z := 5.
Definition GAPS_EVIDENCE_MAX_CHARS : nat := 800.
Definition GAPS_MAX_FINDINGS : nat := 12.

(** * Data *)

Inductive GoalClassifierFailOpenReason : Type :=
| FTimeout | FSamplerError | FAborted | FFileWriteFailed | FGoalNotActiveAtResolve.

Definition fail_open_str (r : GoalClassifierFailOpenReason) : rstr :=
  match r with
  | FTimeout => lit "timeout"
  | FSamplerError => lit "sampler_error"
  | FAborted => lit "aborted"
  | FFileWriteFailed => lit "file_write_failed"
  | FGoalNotActiveAtResolve => lit "goal_not_active_at_resolve"
  end.

Inductive GoalClassifierOutcome : Type :=
| OAchieved (details_path : rstr)
| ONotAchieved (details_path gaps_summary pause_summary gap_fingerprint : rstr)
| OBlocked (details_path pause_summary : rstr)
| OFailOpenAchieved (reason : GoalClassifierFailOpenReason) (details_path : rstr).

Inductive SkepticConfidence : Type := CHigh | CMedium | CLow | CUnknown.
Inductive SkepticBlocking : Type := BNone | BContradiction | BUnverifiable.

#[global] Instance SkepticConfidence_eq_dec : EqDecision SkepticConfidence.
Proof. solve_decision. Defined.

#[global] Instance SkepticBlocking_eq_dec : EqDecision SkepticBlocking.
Proof. solve_decision. Defined.

Definition confidence_parse (s : rstr) : SkepticConfidence :=
  let s := to_ascii_lowercase (trim s) in
  if decide (s = lit "high") then CHigh
  else if decide (s = lit "medium") then CMedium
  else if decide (s = lit "low") then CLow
  else CUnknown.

Definition confidence_str (c : SkepticConfidence) : rstr :=
  match c with CHigh => lit "high" | CMedium => lit "medium" | CLow => lit "low" | CUnknown => lit "unknown" end.

Definition confidence_rank (c : SkepticConfidence) : Z :=
  match c with CHigh => 0 | CMedium => 1 | CLow => 2 | CUnknown => 3 end.

Definition blocking_parse (s : rstr) : SkepticBlocking :=
  let s := to_ascii_lowercase (trim s) in
  if decide (s = lit "contradiction") then BContradiction
  else if decide (s = lit "unverifiable") then BUnverifiable
  else BNone.

Definition is_blocking (b : SkepticBlocking) : bool := match b with BNone => false | _ => true end.

Record Finding : Type := mkFinding { f_kind : rstr; f_location : rstr; f_detail : rstr }.

Definition finding_is_empty (f : Finding) : bool :=
  is_empty (trim (f_kind f)) && is_empty (trim (f_location f)) && is_empty (trim (f_detail f)).

Record SkepticVerdict : Type := mkVerdict {
  v_refuted : bool;
  v_evidence : rstr;
  v_confidence : SkepticConfidence;
  v_blocking : SkepticBlocking;
  v_details_md : rstr;
  v_findings : list Finding;
}.

Record SkepticVerdictRaw : Type := mkRaw {
  raw_refuted : option bool;
  raw_evidence : option rstr;
  raw_confidence : option rstr;
  raw_blocking : option rstr;
  raw_details_md : option rstr;
  raw_findings : option (list Finding);
}.

Record SkepticResult : Type := mkResult {
  skeptic_idx : Z;
  refuted : bool;
  confidence : SkepticConfidence;
  blocking : SkepticBlocking;
  evidence : rstr;
  findings : list Finding;
  fallback_note : option rstr;
}.

(** * Reading a verdict *)

Definition NL : rchar := 10.

(** What is left of a response line once fences, backticks and final stops are
    gone. *)
Definition terminal_line (l : rstr) : rstr :=
  trim (trim_end_matches (λ c, (c =? 46) || (c =? 33)) (trim_matches (λ c, c =? 96) l)).

Definition parse_skeptic_terminal_response (text : rstr) : option bool :=
  let ls := trim <$> lines text in
  let ls := List.filter (λ l, negb (starts_with [96; 96; 96] l)) ls in
  let ls := List.filter (λ l, negb (is_empty l)) (terminal_line <$> ls) in
  match ls with
  | [t] => if decide (t = lit "Refuted") then Some true
           else if decide (t = lit "Not Refuted") then Some false else None
  | _ => None
  end.

Section verdict.
(** [serde_json::from_str] into a [SkepticVerdictRaw]. *)
Context (verdict_of_json : rstr → option SkepticVerdictRaw).

Definition parse_verdict_json (body : rstr) : option SkepticVerdict :=
  raw ← verdict_of_json (trim body);
  refuted ← raw_refuted raw;
  evidence ← raw_evidence raw;
  if is_empty (trim evidence) then None
  else
    confidence ← raw_confidence raw;
    Some (mkVerdict refuted evidence (confidence_parse confidence)
            (default BNone (blocking_parse <$> raw_blocking raw))
            (default [] (raw_details_md raw))
            (List.filter (λ f, negb (finding_is_empty f)) (default [] (raw_findings raw)))).
End verdict.

(** * Counting *)

Definition cold (r : SkepticResult) : bool := 1 <=? skeptic_idx r.

(** [(refuted_count, total, quorum_achieved)]. *)
Definition aggregate_skeptic_verdicts (results : list SkepticResult) : Z * Z * bool :=
  let total := wrap 32 (zlen results) in
  if total =? 0 then (0, 0, false)
  else
    let refuted_count := wrap 32 (countb refuted results) in
    let '(needed, not_refuted) :=
      if total <=? 1 then (1, total - refuted_count)
      else
        let cold_count := wrap 32 (countb cold results) in
        let cold_not_refuted := wrap 32 (countb (λ r, cold r && negb (refuted r)) results) in
        (cold_count / 2 + 1, cold_not_refuted) in
    (refuted_count, total, needed <=? not_refuted).

(** The per-index assignment of models, the committed prefix kept. *)
Definition expand_skeptic_assignment {A} (existing pool : list A) (n : nat) : list A :=
  match pool with
  | [] => existing
  | d :: _ =>
      if (n <=? length existing)%nat then existing
      else existing ++ ((λ i, nth (i mod length pool) pool d) <$> seq (length existing) (n - length existing))
  end.

(** * The gaps *)

Definition cap_chars (text : rstr) (max_chars : nat) : rstr :=
  if (max_chars <? length text)%nat then take max_chars text ++ [8230] else text.

(** The four frames of the reminder, in the order they are broken. *)
Definition REMINDER_TAILS : list rstr :=
  [lit "/system-reminder>"; lit "system-reminder>"; lit "/goal-state>"; lit "goal-state>"].

Definition neutralize_reminder_tags (text : rstr) : rstr := neutralize_tags REMINDER_TAILS text.

Definition sanitize_evidence (evidence : rstr) : rstr :=
  neutralize_reminder_tags (cap_chars (trim evidence) GAPS_EVIDENCE_MAX_CHARS).

Definition DOT_SEP : rstr := [32; 183; 32].
Definition DASH_SEP : rstr := [32; 8212; 32].

Definition render_finding (f : Finding) : rstr :=
  let kind := trim (f_kind f) in
  let loc := trim (f_location f) in
  let detail := trim (f_detail f) in
  let head := if is_empty kind then lit "finding" else kind in
  let body :=
    match is_empty loc, is_empty detail with
    | false, false => head ++ DOT_SEP ++ loc ++ DASH_SEP ++ detail
    | false, true => head ++ DOT_SEP ++ loc
    | true, false => head ++ DASH_SEP ++ detail
    | true, true => head
    end in
  sanitize_evidence body.

Definition render_refuter_bullet (r : SkepticResult) : rstr :=
  let header := lit "- [skeptic " ++ fmt_dec (skeptic_idx r) ++ lit ", " ++ confidence_str (confidence r) ++ lit "]" in
  match findings r with
  | _ :: _ =>
      header ++ [NL] ++ join [NL] ((λ f, lit "  - " ++ render_finding f) <$> take GAPS_MAX_FINDINGS (findings r))
  | [] =>
      let evidence := trim (evidence r) in
      if negb (is_empty evidence) then header ++ lit " " ++ sanitize_evidence evidence
      else match fallback_note r with
           | Some note =>
               lit "- [skeptic " ++ fmt_dec (skeptic_idx r) ++ lit "] no verdict produced: " ++ sanitize_evidence note
           | None => lit "- [skeptic " ++ fmt_dec (skeptic_idx r) ++ lit "] refuted (no evidence)"
           end
  end.

(** [sort_by_key(rank)] is stable: the refuters of each rank, in order. *)
Definition refuters_by_confidence (results : list SkepticResult) : list SkepticResult :=
  let refuters := List.filter refuted results in
  [0; 1; 2; 3] ≫= λ k, List.filter (λ r, confidence_rank (confidence r) =? k) refuters.

Definition build_gaps_summary (results : list SkepticResult) : rstr :=
  join [NL] (render_refuter_bullet <$> refuters_by_confidence results).

Definition PAUSE_GROUP_FIXABLE : rstr := lit "Model-fixable gaps".
Definition PAUSE_GROUP_CONTRADICTION : rstr := lit "Contradictions (objective/plan conflict)".
Definition PAUSE_GROUP_UNVERIFIABLE : rstr := lit "Unverifiable in this environment".

Definition build_pause_summary (results : list SkepticResult) : rstr :=
  let refuters := refuters_by_confidence results in
  let group class header :=
    match List.filter (λ r, bool_decide (blocking r = class)) refuters with
    | [] => None
    | rs => Some (header ++ lit ":" ++ [NL] ++ join [NL] (render_refuter_bullet <$> rs))
    end in
  join [NL] (omap (λ g, group g.1 g.2)
    [(BNone, PAUSE_GROUP_FIXABLE); (BContradiction, PAUSE_GROUP_CONTRADICTION);
     (BUnverifiable, PAUSE_GROUP_UNVERIFIABLE)]).

(** * The fingerprint of a rejection *)

Definition SCRATCH_MARKERS : list rstr := [lit "/tmp/"; lit "/var/folders/"; lit "/private/tmp/"].

Definition has_scratch_marker (s : rstr) : bool := existsb (λ m, contains_str m s) SCRATCH_MARKERS.

Definition normalize_scratch_paths (text : rstr) : rstr :=
  if negb (has_scratch_marker text) then text
  else join [32] ((λ tok, if has_scratch_marker tok then lit "<scratch>" else tok) <$> split_whitespace text).

(** One word of the text, when it cites a line of a file. *)
Definition path_line_token (raw : rstr) : option rstr :=
  let word := trim_matches (λ c, negb (is_ascii_alphanumeric c) && negb (bool_decide (c ∈ lit "./_-:"))) raw in
  '(path, rest) ← split_once 58 word;
  let line := default [] (head (split_char 58 rest)) in
  let path_ok := negb (is_empty path) && (bool_decide (47 ∈ path) || bool_decide (46 ∈ path)) in
  let line_ok := negb (is_empty line) && forallb is_ascii_digit line in
  if path_ok && line_ok then Some (to_ascii_lowercase path ++ lit ":" ++ line) else None.

Definition extract_path_line_tokens (text : rstr) : list rstr :=
  omap path_line_token (split_where is_whitespace text).

(** [Vec::dedup]. *)
Fixpoint dedup (l : list rstr) : list rstr :=
  match l with
  | x :: (y :: _) as l' => if decide (x = y) then dedup l' else x :: dedup l'
  | _ => l
  end.

Definition fingerprint_tokens (raw_evidence : list rstr) : list rstr :=
  let normalized := normalize_scratch_paths <$> raw_evidence in
  match normalized ≫= extract_path_line_tokens with
  | [] => List.filter (λ e, negb (is_empty e)) ((λ e, to_ascii_lowercase (trim e)) <$> normalized)
  | tokens => tokens
  end.

Definition gap_fingerprint (raw_evidence : list rstr) : rstr :=
  join [NL] (dedup (merge_sort str_le (fingerprint_tokens raw_evidence))).

Definition refuter_fingerprint_source (r : SkepticResult) : rstr :=
  if is_empty (trim (evidence r)) then default [] (fallback_note r) else evidence r.

(** * Files and spawns *)

Inductive SpawnError : Type := Transport (detail : rstr) | Runtime (message : rstr) (cancelled : bool).

Record Spawn : Type := mkSpawn { spawn_id : rstr; spawn_idx : Z; resume_from : option rstr }.

(** What is reported about a panel, but for the latencies and the model. *)
Inductive PanelEvent : Type :=
| GoalClassifierFired (attempt max_runs : Z)
| GoalVerifierSkepticVerdict (attempt idx : Z) (refuted : bool) (confidence : SkepticConfidence)
| GoalVerifierAggregateVerdict (attempt refuted_count total : Z) (achieved : bool)
| GoalClassifierVerdictEvent (verdict : GoalClassifierVerdict) (attempt : Z)
| GoalClassifierFailOpen (reason : GoalClassifierFailOpenReason) (attempt : Z).

Record PanelEnv : Type := mkPanelEnv {
  penv : Env;
  verdict_of_json : rstr → option SkepticVerdictRaw;         (* serde_json *)
  (* a skeptic's answer, and the files it leaves behind *)
  spawn_classifier : nat → Spawn → (rstr + SpawnError) * list (rstr * rstr);
  uuid_v7 : nat → rstr;
  write_ok : nat → rstr → bool;                              (* tokio::fs::write, rename *)
  capture_changes_diff : nat → option rstr;                  (* git *)
  scratch_error : nat → rstr;                                (* an io::Error, displayed *)
}.

Record PWorld : Type := mkPWorld {
  base : World;
  files : gmap rstr rstr;                                    (* the readable ones *)
  spawns : list Spawn;
  panel_events : list PanelEvent;
}.

#[global] Instance pworld_eta : Eta PWorld := λ w, mkPWorld (base w) (files w) (spawns w) (panel_events w).

Definition P : Type → Type := St PWorld.

(** A computation of the tracker. *)
Definition on_base {A} (m : M A) : P A := λ w, let '(a, b) := m (base w) in (a, w <| base := b |>).
Definition emit_event (e : PanelEvent) : P unit := λ w, (tt, w <| panel_events ::= λ l, l ++ [e] |>).
Definition read_file (p : rstr) : P (option rstr) := λ w, (files w !! p, w).

(** Run [k] on each element, and collect. *)
Fixpoint traverse {S A B} (k : A → St S B) (l : list A) : St S (list B) :=
  match l with
  | [] => mret []
  | a :: l => b ← k a; bs ← traverse k l; mret (b :: bs)
  end.

Definition idx_le (x y : SkepticResult) : Prop := skeptic_idx x ≤ skeptic_idx y.

#[global] Instance idx_le_dec : RelDecision idx_le.
Proof. intros x y. unfold idx_le. apply _. Defined.

Section stage.
Context (pe : PanelEnv).

Definition ask_panel {A} (answer : nat → A) : P A := on_base (ask answer).

Definition store (p body : rstr) : P unit := λ w, (tt, w <| files ::= λ fs, <[p := body]> fs |>).

Definition write_file (p body : rstr) : P bool :=
  ok ← ask_panel (λ n, write_ok pe n p);
  _ ← (if (ok : bool) then store p body else mret tt);
  mret ok.

Definition spawn (s : Spawn) : P (rstr + SpawnError) := λ w,
  let '(answer, writes) := spawn_classifier pe (length (spawns w)) s in
  (answer, w <| spawns ::= λ l, l ++ [s] |>
             <| files ::= λ fs, foldl (λ fs pb, <[pb.1 := pb.2]> fs) fs writes |>).

(** * Paths *)

Definition scratch_rooted (verifier_id name : rstr) : rstr := path_join (goal_scratch_root (penv pe) verifier_id) name.

Definition GOAL_CLASSIFIER_DETAILS_PATH_TEMPLATE : rstr := lit "goal-classifier-{verifier_id}-{attempt}.md".
Definition GOAL_CLASSIFIER_CHANGES_PATH_TEMPLATE : rstr := lit "goal-classifier-{verifier_id}-{attempt}.patch".
Definition GOAL_VERIFIER_VERDICT_PATH_TEMPLATE : rstr := lit "goal-verdict-{verifier_id}-{attempt}-{skeptic_idx}.json".
Definition GOAL_VERIFIER_DETAILS_PATH_TEMPLATE : rstr :=
  lit "goal-classifier-{verifier_id}-{attempt}-skeptic-{skeptic_idx}.md".

Definition fill_attempt (template verifier_id : rstr) (attempt : Z) : rstr :=
  replace (lit "{attempt}") (fmt_dec attempt) (replace (lit "{verifier_id}") verifier_id template).
Definition fill_skeptic (template verifier_id : rstr) (attempt idx : Z) : rstr :=
  replace (lit "{skeptic_idx}") (fmt_dec idx) (fill_attempt template verifier_id attempt).

Definition format_details_path (verifier_id : rstr) (attempt : Z) : rstr :=
  scratch_rooted verifier_id (fill_attempt GOAL_CLASSIFIER_DETAILS_PATH_TEMPLATE verifier_id attempt).
Definition format_changes_path (verifier_id : rstr) (attempt : Z) : rstr :=
  scratch_rooted verifier_id (fill_attempt GOAL_CLASSIFIER_CHANGES_PATH_TEMPLATE verifier_id attempt).
Definition format_verdict_path (verifier_id : rstr) (attempt idx : Z) : rstr :=
  scratch_rooted verifier_id (fill_skeptic GOAL_VERIFIER_VERDICT_PATH_TEMPLATE verifier_id attempt idx).
Definition format_verifier_details_path (verifier_id : rstr) (attempt idx : Z) : rstr :=
  scratch_rooted verifier_id (fill_skeptic GOAL_VERIFIER_DETAILS_PATH_TEMPLATE verifier_id attempt idx).

(** [Ok(())] as [true]: no [..], no NUL, no system prefix, no placeholder left,
    and inside the temporary directory. *)
Definition validate_details_path (s : rstr) : bool :=
  if contains_str (lit "..") s || bool_decide (0 ∈ s) then false
  else if existsb (λ p, starts_with p s) [lit "/etc"; lit "/proc"; lit "/sys"; lit "/dev"] then false
  else if starts_with (lit "~") s then false
  else if contains_str (lit "${") s || bool_decide (123 ∈ s) || bool_decide (125 ∈ s) then false
  else path_starts_with s (temp_dir (penv pe)).

(** * One skeptic *)

Definition skeptic_failure (idx : Z) (note : rstr) : SkepticResult :=
  mkResult idx true CUnknown BNone [] [] (Some note).

Definition read_skeptic_verdict (idx : Z) (details_raw verdict_raw terminal : rstr) : P SkepticResult :=
  json_body ← read_file verdict_raw;
  match (body ← json_body; parse_verdict_json (verdict_of_json pe) body) with
  | Some v =>
      report ← read_file details_raw;
      let file_empty := default true ((λ s, is_empty (trim s)) <$> report) in
      _ ← (if file_empty && negb (is_empty (trim (v_details_md v)))
           then write_file details_raw (v_details_md v) else mret false);
      mret (mkResult idx (v_refuted v) (v_confidence v) (v_blocking v) (v_evidence v) (v_findings v) None)
  | None =>
      mret (match parse_skeptic_terminal_response terminal with
            | Some r =>
                mkResult idx r CUnknown BNone [] [] (Some (lit "verdict JSON missing/malformed; used terminal token"))
            | None =>
                skeptic_failure idx
                  (lit "verdict JSON missing/malformed AND terminal token unrecognised: " ++ take 120 terminal)
            end)
  end.

Definition fmt_bool (b : bool) : rstr := if b then lit "true" else lit "false".

Definition cold_spawn (idx : Z) (id details_raw verdict_raw : rstr) : P SkepticResult :=
  answer ← spawn (mkSpawn id idx None);
  match answer with
  | inl terminal => read_skeptic_verdict idx details_raw verdict_raw terminal
  | inr (Transport d) => mret (skeptic_failure idx (lit "transport error: " ++ d))
  | inr (Runtime message cancelled) =>
      mret (skeptic_failure idx (lit "runtime error (cancelled=" ++ fmt_bool cancelled ++ lit "): " ++ message))
  end.

Definition run_one_skeptic (verifier_id : rstr) (attempt idx : Z) (id : rstr) (resume : option rstr)
    : P SkepticResult :=
  root ← on_base (ensure_goal_scratch_root (penv pe) verifier_id);
  match root with
  | None =>
      err ← ask_panel (scratch_error pe);
      mret (skeptic_failure idx (lit "internal: could not secure the goal scratch root: " ++ err))
  | Some _ =>
      _ ← on_base (call_ok (penv pe) (CCreateDirAll (skeptic_scratch_dir (penv pe) verifier_id idx)));
      let details_raw := format_verifier_details_path verifier_id attempt idx in
      let verdict_raw := format_verdict_path verifier_id attempt idx in
      if negb (validate_details_path details_raw) || negb (validate_details_path verdict_raw) then
        mret (skeptic_failure idx (lit "internal: unsafe per-skeptic file path"))
      else
        match resume with
        | Some prior =>
            answer ← spawn (mkSpawn id idx (Some prior));
            match answer with
            | inl terminal => read_skeptic_verdict idx details_raw verdict_raw terminal
            | inr _ => cold_spawn idx id details_raw verdict_raw
            end
        | None => cold_spawn idx id details_raw verdict_raw
        end
  end.

(** * The stage *)

Record VerificationStageInputs : Type := mkInputs {
  in_verifier_id : rstr;
  in_attempt : Z;
  in_skeptic_count : Z;
  in_max_runs : Z;
  in_prior_skeptic0 : option rstr;
}.

Record VerificationStageResult : Type := mkStage {
  outcome : GoalClassifierOutcome;
  stage_skeptic0 : option rstr;
  panel_ran : bool;
}.

Definition early_exit (o : GoalClassifierOutcome) : VerificationStageResult := mkStage o None false.

(** [true] when a nonempty file stands at the path afterwards. *)
Definition maybe_write_classifier_placeholder (path headline body : rstr) : P bool :=
  existing ← read_file path;
  match existing with
  | Some (_ :: _) => mret true
  | _ => write_file path (lit "# " ++ headline ++ [NL; NL] ++ body ++ [NL])
  end.

Definition maybe_write_fail_open_placeholder (path : rstr) (reason : GoalClassifierFailOpenReason) : P bool :=
  maybe_write_classifier_placeholder path (lit "Verification fail-open: " ++ fail_open_str reason)
    (lit "The verification stage did not produce a verdict (infra-class failure). The harness treated the goal as Achieved as a fail-open fallback. No skeptic analysis was captured."
     ++ [NL; NL] ++ lit "## Reason" ++ [NL; NL] ++ fail_open_str reason).

Definition record_fail_open (reason : GoalClassifierFailOpenReason) (attempt : Z)
    (details_path : option rstr) (details_raw : rstr) : P GoalClassifierOutcome :=
  _ ← emit_event (GoalClassifierFailOpen reason attempt);
  resolved ← (match details_path with
              | Some p =>
                  ok ← maybe_write_fail_open_placeholder p reason;
                  mret (if (ok : bool) then details_raw else [])
              | None => mret []
              end);
  mret (OFailOpenAchieved reason resolved).

(** A temporary file beside the target, renamed onto it; the path ends with
    its file name. *)
Definition write_patch_file_atomic (path body : rstr) : P bool :=
  id ← ask_panel (uuid_v7 pe);
  let name := default (lit "goal-classifier.patch") (file_name path) in
  let tmp := take (length path - length name) path ++ lit "." ++ name ++ lit "." ++ id ++ lit ".tmp" in
  ok ← ask_panel (λ n, write_ok pe n tmp);
  if negb ok then mret false else write_file path body.

Definition render_skeptic_panel_details (results : list SkepticResult) (refuted_count total : Z) (achieved : bool)
    (verifier_id : rstr) (attempt : Z) : rstr :=
  let headline :=
    (if achieved then lit "# Goal verification " ++ [8212] ++ lit " Achieved"
     else lit "# Goal verification " ++ [8212] ++ lit " Not Achieved") ++ [NL; NL]
    ++ fmt_dec refuted_count ++ lit " of " ++ fmt_dec total ++ lit " skeptics refuted; "
    ++ (if achieved then lit "survives the panel." else lit "panel rejected the claim.") ++ [NL; NL] in
  let by_idx := merge_sort idx_le results in
  let paths := (λ r, format_verifier_details_path verifier_id attempt (skeptic_idx r)) <$> by_idx in
  let gaps :=
    if achieved then []
    else
      let gaps := build_gaps_summary results in
      if is_empty gaps then [] else lit "## Gaps to fix" ++ [NL; NL] ++ gaps ++ [NL; NL] in
  let pointers :=
    match paths with
    | [] => []
    | _ =>
        (if achieved then lit "Per-skeptic reports: "
         else lit "Fix the gaps above " ++ [8212] ++ lit " they are what matters. For the full reasoning behind each, open the per-skeptic report files: ")
        ++ join (lit ", ") paths ++ [NL]
    end in
  headline ++ gaps ++ pointers.

Definition cap_panel_details (body : rstr) : rstr :=
  if byte_len body <=? GOAL_VERIFIER_PANEL_MAX_BYTES then body
  else
    let kept := byte_prefix GOAL_VERIFIER_PANEL_MAX_BYTES body in
    kept ++ [NL] ++ lit "... (panel details truncated, " ++ fmt_dec (byte_len body - byte_len kept)
         ++ lit " bytes elided) ..." ++ [NL].

(** Skeptics with cold ids, in the order of their index. *)
Definition run_cold (vid : rstr) (attempt : Z) (idxs : list Z) : P (list SkepticResult) :=
  ids ← traverse (λ _, ask_panel (uuid_v7 pe)) idxs;
  traverse (λ ii, run_one_skeptic vid attempt ii.1 ii.2 None) (zip idxs ids).

Definition is_high_refute (r : SkepticResult) : bool := refuted r && bool_decide (confidence r = CHigh).

(** The results, whether skeptic 0 refuted decisively, and its session. *)
Definition run_panel (vid : rstr) (attempt : Z) (n : Z) (prior : option rstr)
    : P (list SkepticResult * bool * option rstr) :=
  if 1 <? n then
    skeptic0_id ← ask_panel (uuid_v7 pe);
    first ← run_one_skeptic vid attempt 0 skeptic0_id prior;
    let high_refute := is_high_refute first in
    if high_refute && negb (is_blocking (blocking first)) then mret ([first], true, Some skeptic0_id)
    else
      rest ← run_cold vid attempt (seqZ 1 (n - 1));
      mret (first :: rest, high_refute, Some skeptic0_id)
  else
    results ← run_cold vid attempt (seqZ 0 n);
    mret (results, false, None).

Definition clamp (x lo hi : Z) : Z := Z.min (Z.max x lo) hi.

(** What is made of the results, the votes counted. *)
Definition conclude (results : list SkepticResult) (achieved : bool) (details_raw : rstr) : GoalClassifierOutcome :=
  if achieved then OAchieved details_raw
  else
    let refuters := List.filter refuted results in
    if existsb refuted results && forallb (λ r, is_blocking (blocking r)) refuters
    then OBlocked details_raw (build_pause_summary results)
    else ONotAchieved details_raw (build_gaps_summary results) (build_pause_summary results)
           (gap_fingerprint (refuter_fingerprint_source <$> refuters)).

Definition run_verification_stage (i : VerificationStageInputs) : P VerificationStageResult :=
  let vid := in_verifier_id i in
  let attempt := in_attempt i in
  _ ← emit_event (GoalClassifierFired attempt (in_max_runs i));
  let details_raw := format_details_path vid attempt in
  let changes_raw := format_changes_path vid attempt in
  if negb (validate_details_path details_raw) then
    o ← record_fail_open FFileWriteFailed attempt None []; mret (early_exit o)
  else
    root ← on_base (ensure_goal_scratch_root (penv pe) vid);
    match root with
    | None => o ← record_fail_open FFileWriteFailed attempt None []; mret (early_exit o)
    | Some _ =>
        if negb (validate_details_path changes_raw) then
          o ← record_fail_open FFileWriteFailed attempt (Some details_raw) details_raw; mret (early_exit o)
        else
          captured ← ask_panel (capture_changes_diff pe);
          patched ← (match captured with
                     | Some diff => write_patch_file_atomic changes_raw diff
                     | None => mret true
                     end);
          if negb patched then
            o ← record_fail_open FFileWriteFailed attempt (Some details_raw) details_raw; mret (early_exit o)
          else
            let n := clamp (in_skeptic_count i) GOAL_VERIFIER_SKEPTIC_MIN GOAL_VERIFIER_SKEPTIC_MAX in
            '(results, decisive_refute, skeptic0) ← run_panel vid attempt n (in_prior_skeptic0 i);
            _ ← traverse (λ r, emit_event
                   (GoalVerifierSkepticVerdict attempt (skeptic_idx r) (refuted r) (confidence r))) results;
            let '(refuted_count, total, quorum_achieved) := aggregate_skeptic_verdicts results in
            let achieved := quorum_achieved && negb decisive_refute in
            _ ← emit_event (GoalVerifierAggregateVerdict attempt refuted_count total achieved);
            _ ← write_file details_raw
                  (cap_panel_details (render_skeptic_panel_details results refuted_count total achieved vid attempt));
            _ ← emit_event (GoalClassifierVerdictEvent (if achieved then Achieved else NotAchieved) attempt);
            mret (mkStage (conclude results achieved details_raw) skeptic0 true)
    end.
End stage.
