(* ===== verification/GoalPanelThms.v ===== *)
(** Theorems about the verification panel: when it approves, what an approving
    vote rests on, that what it reports cannot close the frame it is put in,
    when two rejections are the same, and that a verdict file left behind
    outranks an answer. *)
From stdpp Require Import sorting.
From S2P Require Import Prelude Str Path GoalTracker GoalTrackerThms GoalPanel.

Lemma panel_bind_run {A B} (m : P A) (k : A → P B) w : (x ← m; k x) w = k (m w).1 (m w).2.
Proof. apply st_bind_run. Qed.

(** * What the panel keeps *)

(** An invariant of the panel: what its primitive steps keep. *)
Class PanelInv (pe : PanelEnv) (I : PWorld → Prop) : Prop := {
  pi_base {A} (m : M A) : untouched m → preserves I (on_base m);
  pi_store p b : preserves I (store p b);
  pi_spawn s : preserves I (spawn pe s);
}.

(** ... and what an event does not touch either. *)
Class EventInv (pe : PanelEnv) (I : PWorld → Prop) : Prop := {
  #[global] ei_panel :: PanelInv pe I;
  pi_emit e : preserves I (emit_event e);
}.

Create HintDb panel.
#[export] Hint Resolve preserves_ret preserves_bind pi_base pi_emit pi_store pi_spawn
  untouched_ask untouched_root : panel.

Section kept.
Context (pe : PanelEnv) (I : PWorld → Prop).

Section steps.
Context `{!PanelInv pe I}.

Lemma kept_ask {A} (f : nat → A) : preserves I (ask_panel f).
Proof. apply (pi_base (pe := pe)), untouched_ask. Qed.

Lemma kept_read p : preserves I (read_file p).
Proof. by intros w H. Qed.

Lemma kept_traverse {A B} (k : A → P B) l : (∀ a, preserves I (k a)) → preserves I (traverse k l).
Proof.
  intros Hk. induction l as [|a l IH]; cbn [traverse]; [apply preserves_ret|].
  apply preserves_bind; [done|]. intros b. apply preserves_bind; [done|]. intros bs. apply preserves_ret.
Qed.

Lemma kept_write p b : preserves I (write_file pe p b).
Proof.
  unfold write_file. apply preserves_bind; [apply kept_ask|]. intros ok.
  apply preserves_bind; [destruct ok; eauto with panel|auto with panel].
Qed.

Lemma kept_read_verdict idx d v t : preserves I (read_skeptic_verdict pe idx d v t).
Proof.
  unfold read_skeptic_verdict. apply preserves_bind; [apply kept_read|]. intros body.
  destruct (b ← body; _); [|apply preserves_ret].
  apply preserves_bind; [apply kept_read|]. intros report. apply preserves_bind; [|intros; apply preserves_ret].
  case_match; [apply kept_write|apply preserves_ret].
Qed.

Lemma kept_cold idx id d v : preserves I (cold_spawn pe idx id d v).
Proof.
  unfold cold_spawn. apply preserves_bind; [apply pi_spawn|]. intros [t|[d'|m c]];
    [apply kept_read_verdict|apply preserves_ret..].
Qed.

Lemma kept_skeptic vid attempt idx id resume : preserves I (run_one_skeptic pe vid attempt idx id resume).
Proof.
  unfold run_one_skeptic. apply preserves_bind; [eauto with panel|]. intros [root|].
  2: { apply preserves_bind; [apply kept_ask|]. intros; apply preserves_ret. }
  apply preserves_bind; [by apply (pi_base (pe := pe))|]. intros ok. case_match; [apply preserves_ret|].
  destruct resume as [prior|]; [|apply kept_cold].
  apply preserves_bind; [apply pi_spawn|]. intros [t|e]; [apply kept_read_verdict|apply kept_cold].
Qed.

Lemma kept_run_cold vid attempt idxs : preserves I (run_cold pe vid attempt idxs).
Proof.
  unfold run_cold. apply preserves_bind; [apply kept_traverse; intros; apply kept_ask|].
  intros ids. apply kept_traverse. intros [i d]. apply kept_skeptic.
Qed.

Lemma kept_panel vid attempt n prior : preserves I (run_panel pe vid attempt n prior).
Proof.
  unfold run_panel. case_match.
  - apply preserves_bind; [apply kept_ask|]. intros id. apply preserves_bind; [apply kept_skeptic|].
    intros first. case_match; [apply preserves_ret|].
    apply preserves_bind; [apply kept_run_cold|intros; apply preserves_ret].
  - apply preserves_bind; [apply kept_run_cold|intros; apply preserves_ret].
Qed.

Lemma kept_patch p b : preserves I (write_patch_file_atomic pe p b).
Proof.
  unfold write_patch_file_atomic. apply preserves_bind; [apply kept_ask|]. intros id.
  apply preserves_bind; [apply kept_ask|]. intros ok. case_match; [apply preserves_ret|apply kept_write].
Qed.

End steps.

Context `{!EventInv pe I}.

Lemma kept_fail_open reason a dp d : preserves I (record_fail_open pe reason a dp d).
Proof.
  unfold record_fail_open. apply preserves_bind; [apply (pi_emit (pe := pe))|]. intros _.
  apply preserves_bind; [|intros; apply preserves_ret].
  destruct dp as [p|]; [|apply preserves_ret]. apply preserves_bind; [|intros; apply preserves_ret].
  unfold maybe_write_fail_open_placeholder, maybe_write_classifier_placeholder.
  apply preserves_bind; [apply kept_read|]. intros [[|]|]; [apply kept_write|apply preserves_ret|apply kept_write].
Qed.

Lemma kept_stage i : preserves I (run_verification_stage pe i).
Proof.
  pose proof (λ r a dp d, preserves_bind I _ (λ o, mret (early_exit o)) (kept_fail_open r a dp d)
    (λ o, preserves_ret I _)) as Hearly.
  unfold run_verification_stage. apply preserves_bind; [apply (pi_emit (pe := pe))|]. intros _.
  case_match; [apply Hearly|]. apply preserves_bind; [apply (pi_base (pe := pe)), untouched_root|]. intros [root|]; [|apply Hearly].
  case_match; [apply Hearly|]. apply preserves_bind; [apply kept_ask|]. intros captured.
  apply preserves_bind; [destruct captured; [apply kept_patch|apply preserves_ret]|]. intros patched.
  case_match; [apply Hearly|]. apply preserves_bind; [apply kept_panel|]. intros [[results dec] s0].
  apply preserves_bind; [apply kept_traverse; intros; apply (pi_emit (pe := pe))|]. intros _.
  destruct (aggregate_skeptic_verdicts results) as [[rc total] q].
  apply preserves_bind; [apply (pi_emit (pe := pe))|]. intros _.
  apply preserves_bind; [apply kept_write|]. intros _.
  apply preserves_bind; [apply (pi_emit (pe := pe))|]. intros _. apply preserves_ret.
Qed.
End kept.

(** Spawns are only added. *)
#[export] Instance spawned_inv pe l : EventInv pe (λ w, l `prefix_of` spawns w).
Proof.
  split; [split|]; intros; intros w Hw; [|done| |done].
  - unfold on_base. by destruct (m (base w)).
  - unfold spawn. destruct (spawn_classifier pe _ s) as [a ws]. cbn -[prefix]. by apply prefix_app_r.
Qed.

(** The tracker stays as it is. *)
#[export] Instance tracker_inv pe t : EventInv pe (λ w, tracker (base w) = t).
Proof.
  split; [split|]; intros; intros w Hw; [|done| |done].
  - unfold on_base. pose proof (H (base w)) as Hm. destruct (m (base w)) as [a b]. cbn in *. congruence.
  - unfold spawn. by destruct (spawn_classifier pe _ s).
Qed.

(** Only the stage itself speaks. *)
#[export] Instance silent_inv pe l : PanelInv pe (λ w, panel_events w = l).
Proof.
  split; intros; intros w Hw; [|done|].
  - unfold on_base. by destruct (m (base w)).
  - unfold spawn. by destruct (spawn_classifier pe _ s).
Qed.

Definition extends {A} (m : P A) : Prop := ∀ l, preserves (λ w, l `prefix_of` spawns w) m.

(** From a world where at least [n0] have been spawned, [m] ends in [Q]. *)
Definition since {A} (n0 : nat) (Q : A → PWorld → Prop) (m : P A) : Prop :=
  ∀ w, (n0 ≤ length (spawns w))%nat → Q (m w).1 (m w).2.

Lemma extends_length {A} (m : P A) n0 w :
  extends m → (n0 ≤ length (spawns w))%nat → (n0 ≤ length (spawns (m w).2))%nat.
Proof. intros Hm Hl. etrans; [exact Hl|]. by apply prefix_length, Hm. Qed.

Lemma since_bind {A B} n0 (Q : B → PWorld → Prop) (m : P A) (k : A → P B) :
  extends m → (∀ a, since n0 Q (k a)) → since n0 Q (a ← m; k a).
Proof. intros Hm Hk w Hw. rewrite panel_bind_run. by apply Hk, extends_length. Qed.

Lemma since_ret {A} n0 (Q : A → PWorld → Prop) (a : A) : (∀ w, Q a w) → since n0 Q (mret a).
Proof. intros H w _. apply H. Qed.

Lemma extends_on_base {A} (m : M A) : extends (on_base m).
Proof. intros l w H. unfold on_base. by destruct (m (base w)). Qed.

Section panel.
Context (pe : PanelEnv) (n0 : nat).

(** * Votes *)

(** A skeptic of this index was spawned, not among the first [n0], and came
    back with an answer. *)
Definition answered (idx : Z) (w : PWorld) : Prop :=
  ∃ k s terminal, (n0 ≤ k)%nat ∧ spawns w !! k = Some s ∧ spawn_idx s = idx ∧
    (spawn_classifier pe k s).1 = inl terminal.

Lemma answered_extends {A} (m : P A) idx w : extends m → answered idx w → answered idx (m w).2.
Proof.
  intros Hm (k & s & t & Hn & Hk & Hs & Ht). exists k, s, t. split; [exact Hn|]. split; [|done].
  eapply prefix_lookup_Some; [exact Hk|]. by apply Hm.
Qed.

(** A skeptic's index, and that approval has an answer behind it. *)
Definition reply_ok (idx : Z) (r : SkepticResult) (w : PWorld) : Prop :=
  skeptic_idx r = idx ∧ (refuted r = false → answered idx w).

Lemma read_verdict_idx idx d v t w : skeptic_idx (read_skeptic_verdict pe idx d v t w).1 = idx.
Proof.
  unfold read_skeptic_verdict. rewrite panel_bind_run. case_match.
  - rewrite !panel_bind_run. done.
  - cbn [fst mret St_ret]. by destruct (parse_skeptic_terminal_response t).
Qed.

Lemma spawn_answered s w t :
  (n0 ≤ length (spawns w))%nat → (spawn pe s w).1 = inl t → answered (spawn_idx s) (spawn pe s w).2.
Proof.
  unfold spawn, answered. intros Hn Ht. exists (length (spawns w)), s, t.
  destruct (spawn_classifier pe _ s) as [a ws] eqn:E. cbn in *. split_and!; [exact Hn| |done|exact Ht].
  apply list_lookup_middle. done.
Qed.

Lemma reply_read idx d v t w : answered idx w → reply_ok idx (read_skeptic_verdict pe idx d v t w).1
                                                  (read_skeptic_verdict pe idx d v t w).2.
Proof.
  intros H. split; [apply read_verdict_idx|]. intros _. by apply answered_extends, H; intros l; apply (kept_read_verdict pe _).
Qed.

Lemma reply_cold idx id d v : since n0 (reply_ok idx) (cold_spawn pe idx id d v).
Proof.
  intros w Hw. unfold cold_spawn. rewrite panel_bind_run.
  destruct (spawn pe (mkSpawn id idx None) w).1 as [t|[d'|m c]] eqn:E; [|done..].
  apply reply_read. apply (spawn_answered _ _ _ Hw E).
Qed.

Lemma reply_skeptic vid attempt idx id resume : since n0 (reply_ok idx) (run_one_skeptic pe vid attempt idx id resume).
Proof.
  pose proof (@extends_on_base) as Hb. unfold run_one_skeptic.
  apply since_bind; [apply Hb|]. intros [root|]; [|by apply since_bind; [apply Hb|]; intros; apply since_ret].
  apply since_bind; [apply Hb|]. intros ok. case_match; [by apply since_ret|].
  destruct resume as [prior|]; [|apply reply_cold].
  intros w Hw. rewrite panel_bind_run. destruct (spawn pe (mkSpawn id idx (Some prior)) w).1 as [t|e] eqn:E.
  - apply reply_read. apply (spawn_answered _ _ _ Hw E).
  - apply reply_cold, extends_length; [|done]. intros l. apply (pi_spawn (pe := pe)).
Qed.

(** The vote of a skeptic is what it is judged to say when it is run: in this
    panel, after [n0] spawns, with a resumed session for skeptic 0 at most. *)
Context (vid : rstr) (attempt : Z) (prior : option rstr).

Definition judged (idx : Z) (r : SkepticResult) (w : PWorld) : Prop :=
  ∃ id resume w0, (n0 ≤ length (spawns w0))%nat ∧ (resume = None ∨ idx = 0 ∧ resume = prior) ∧
    (run_one_skeptic pe vid attempt idx id resume w0).1 = r ∧
    spawns (run_one_skeptic pe vid attempt idx id resume w0).2 `prefix_of` spawns w.

Definition vote_ok (idx : Z) (r : SkepticResult) (w : PWorld) : Prop := skeptic_idx r = idx ∧ judged idx r w.

Lemma judged_reply idx r w : judged idx r w → reply_ok idx r w.
Proof.
  intros (id & resume & w0 & Hn & _ & <- & Hp). destruct (reply_skeptic vid attempt idx id resume w0 Hn) as [Hi Ha].
  split; [exact Hi|]. intros Hr. destruct (Ha Hr) as (k & s & t & Hk & Hs & Hx & Ht). exists k, s, t.
  split_and!; [done|by eapply prefix_lookup_Some|done|done].
Qed.

Lemma judged_extends {A} (m : P A) idx r w : extends m → judged idx r w → judged idx r (m w).2.
Proof.
  intros Hm (id & resume & w0 & Hn & Hr & He & Hp). exists id, resume, w0. split_and!; [done..|].
  by apply Hm.
Qed.

Lemma vote_skeptic idx id resume :
  resume = None ∨ idx = 0 ∧ resume = prior → since n0 (vote_ok idx) (run_one_skeptic pe vid attempt idx id resume).
Proof.
  intros Hr w Hw. split; [by apply reply_skeptic|]. exists id, resume, w. by split_and!.
Qed.

(** A list of votes, one for each index. *)
Definition votes_ok (idxs : list Z) (rs : list SkepticResult) (w : PWorld) : Prop :=
  Forall2 (λ idx r, vote_ok idx r w) idxs rs.

Lemma votes_extends {A} (m : P A) idxs rs w : extends m → votes_ok idxs rs w → votes_ok idxs rs (m w).2.
Proof.
  intros Hm Hv. eapply Forall2_impl; [exact Hv|]. intros idx r [Hi Ha]. split; [done|]. by apply judged_extends.
Qed.

Lemma votes_traverse (l : list (Z * rstr)) :
  since n0 (votes_ok (fst <$> l)) (traverse (λ ii, run_one_skeptic pe vid attempt ii.1 ii.2 None) l).
Proof.
  induction l as [|[idx id] l IH]; intros w Hw; cbn [traverse fmap list_fmap fst snd]; [constructor|].
  rewrite !panel_bind_run. cbn [fst snd mret St_ret].
  constructor; [|apply IH, extends_length; [intros l0; apply (kept_skeptic pe _)|done]].
  destruct (vote_skeptic idx id None (or_introl eq_refl) w Hw) as [Hi Ha]. split; [exact Hi|].
  apply judged_extends; [|exact Ha]. intros l0. apply (kept_traverse _). intros [i d]. apply (kept_skeptic pe _).
Qed.

Lemma traverse_length {A B} (k : A → P B) l w : length (traverse k l w).1 = length l.
Proof.
  revert w. induction l as [|a l IH]; intros w; [done|]. cbn [traverse]. rewrite !panel_bind_run.
  cbn [fst mret St_ret length]. by rewrite IH.
Qed.

Lemma votes_run_cold idxs : since n0 (votes_ok idxs) (run_cold pe vid attempt idxs).
Proof.
  intros w Hw. unfold run_cold. rewrite panel_bind_run.
  set (ids := (traverse _ idxs w).1). assert (length ids = length idxs) as Hl by apply traverse_length.
  pose proof (votes_traverse (zip idxs ids) (traverse (λ _, ask_panel (uuid_v7 pe)) idxs w).2) as H.
  rewrite fst_zip in H by lia. apply H, extends_length; [|done].
  intros l0. apply (kept_traverse _). intros i. apply (kept_ask pe _).
Qed.

(** The panel: either every index has voted, or only skeptic 0 has, and it
    refuted decisively. *)
Definition panel_ok (n : Z) (rs : list SkepticResult) (decisive : bool) (w : PWorld) : Prop :=
  (votes_ok (seqZ 0 n) rs w ∧
   decisive = (1 <? n) && is_some_and is_high_refute (head rs)) ∨
  (1 < n ∧ decisive = true ∧ ∃ r, rs = [r] ∧ vote_ok 0 r w ∧ is_high_refute r = true ∧ blocking r = BNone).

Lemma panel_run_ok n :
  1 ≤ n → since n0 (λ r w, panel_ok n r.1.1 r.1.2 w) (run_panel pe vid attempt n prior).
Proof.
  intros Hn. unfold run_panel. destruct (Z.ltb_spec 1 n) as [H1|H1].
  2: { intros w Hw. rewrite panel_bind_run. cbn [fst snd mret St_ret]. left. split; [by apply votes_run_cold|].
       destruct (Z.ltb_spec 1 n); [lia|done]. }
  apply since_bind; [apply extends_on_base|]. intros id0 w Hw. rewrite panel_bind_run.
  pose proof (vote_skeptic 0 id0 prior (or_intror (conj eq_refl eq_refl)) w Hw) as Hv.
  assert (n0 ≤ length (spawns (run_one_skeptic pe vid attempt 0 id0 prior w).2))%nat as Hw'
    by (apply extends_length; [intros l0; apply (kept_skeptic pe _)|done]).
  destruct (run_one_skeptic pe vid attempt 0 id0 prior w) as [first w1]. cbn [fst snd] in *.
  destruct (is_high_refute first && negb (is_blocking (blocking first))) eqn:Hb.
  - right. apply andb_prop in Hb as [Hh Hb]. split_and!; [done|done|]. exists first. split_and!; [done|done|done|].
    by destruct (blocking first).
  - rewrite panel_bind_run. cbn [fst snd mret St_ret]. left. split.
    + assert (seqZ 0 n = 0 :: seqZ 1 (n - 1)) as -> by (rewrite seqZ_cons by lia; f_equal; f_equal; lia).
      constructor; [|by apply votes_run_cold].
      destruct Hv as [Hi Ha]. split; [done|]. apply judged_extends; [intros l; apply (kept_run_cold pe _)|done].
    + cbn. destruct (Z.ltb_spec 1 n); [done|lia].
Qed.
End panel.

(** * The count *)

(** The panel approves: it is complete, and a sole judge does not refute, or
    skeptic 0 does not refute with high confidence and more than half of the
    others do not refute. *)
Definition approved (n : Z) (rs : list SkepticResult) : Prop :=
  zlen rs = n ∧
  (n = 1 → ∀ r, r ∈ rs → refuted r = false) ∧
  (1 < n → (∀ r, head rs = Some r → is_high_refute r = false) ∧
           n - 1 < 2 * countb (λ r, cold r && negb (refuted r)) rs).

Lemma votes_idx pe n0 vid attempt prior idxs rs w : votes_ok pe n0 vid attempt prior idxs rs w → skeptic_idx <$> rs = idxs.
Proof. induction 1 as [|idx r idxs rs [Hi _] _ IH]; [done|]. rewrite fmap_cons. by f_equal. Qed.

Lemma cold_seqZ n : 1 ≤ n ≤ 5 → countb (λ i, 1 <=? i) (seqZ 0 n) = n - 1.
Proof.
  intros Hn. assert (n = 1 ∨ n = 2 ∨ n = 3 ∨ n = 4 ∨ n = 5) as Hc by lia.
  by destruct Hc as [-> |[-> |[-> |[-> | ->]]]].
Qed.

Lemma countb_small {A} (p : A → bool) l : zlen l ≤ 5 → wrap 32 (countb p l) = countb p l.
Proof. intros Hl. apply wrap_id. pose proof (countb_bounds p l). unfold uint. rewrite umax_32. lia. Qed.

Lemma half_majority k a : (k / 2 + 1 <=? a) = true ↔ k < 2 * a.
Proof. rewrite Z.leb_le. pose proof (Z.div_mod k 2). pose proof (Z.mod_pos_bound k 2). lia. Qed.

Lemma countb_zero {A} (p : A → bool) l : countb p l = 0 ↔ ∀ a, a ∈ l → p a = false.
Proof.
  induction l as [|a l IH]; [by split; [intros _ ? ?%elem_of_nil|]|].
  rewrite countb_cons. pose proof (countb_bounds p l). split.
  - intros H0. destruct (p a) eqn:Ha; [lia|]. intros b [-> |Hb]%elem_of_cons; [done|]. by apply IH; [lia|].
  - intros Hall. rewrite (Hall a) by left. assert (countb p l = 0) by (apply IH; intros; apply Hall; by right). lia.
Qed.

(** On a panel of 1 to 5, in any order but for skeptic 0. *)
Lemma aggregate_spec n rs :
  1 ≤ n ≤ 5 → skeptic_idx <$> rs = seqZ 0 n →
  ∃ total, aggregate_skeptic_verdicts rs =
    (countb refuted rs, total,
     if n =? 1 then countb refuted rs =? 0
     else n - 1 <? 2 * countb (λ r, cold r && negb (refuted r)) rs).
Proof.
  intros Hn Hidx. assert (Hl : zlen rs = n).
  { unfold zlen. rewrite <- (length_fmap skeptic_idx), Hidx, length_seqZ. lia. }
  assert (countb cold rs = n - 1) as Hc.
  { rewrite <- (cold_seqZ n Hn), <- Hidx, countb_fmap. done. }
  assert (wrap 32 (zlen rs) = n) as Hw by (rewrite Hl; apply wrap_id; unfold uint; rewrite umax_32; lia).
  unfold aggregate_skeptic_verdicts. rewrite Hw, !countb_small, Hc by lia.
  pose proof (countb_bounds refuted rs). exists n.
  destruct (Z.eqb_spec n 0); [lia|]. destruct (Z.leb_spec n 1), (Z.eqb_spec n 1); try lia.
  - f_equal. apply eq_true_iff_eq. rewrite Z.leb_le, Z.eqb_eq. lia.
  - f_equal. apply eq_true_iff_eq. rewrite half_majority, Z.ltb_lt. done.
Qed.

Lemma sole_refuter r n :
  1 < n → is_high_refute r = true → skeptic_idx r = 0 → ¬ approved n [r] ∧ refuted r = true.
Proof.
  intros Hn Hh Hi. split; [|by apply andb_prop in Hh as [? _]].
  intros (Hl & _ & _). rewrite zlen_cons, zlen_nil in Hl. lia.
Qed.

(** What the stage makes of the panel is its approval. *)
Lemma decision_spec pe n0 vid attempt prior n rs decisive w :
  1 ≤ n ≤ 5 → panel_ok pe n0 vid attempt prior n rs decisive w →
  ((aggregate_skeptic_verdicts rs).2 && negb decisive = true ↔ approved n rs) ∧
  (¬ approved n rs → ∃ r, r ∈ rs ∧ refuted r = true).
Proof.
  intros Hn [[Hv Hd]|(H1 & -> & r & -> & [Hi _] & Hh & _)].
  2: { destruct (sole_refuter r n H1 Hh Hi) as [Hna Hr]. rewrite andb_false_r. split; [by split|].
       intros _. exists r. split; [left|done]. }
  pose proof (votes_idx _ _ _ _ _ _ _ _ Hv) as Hidx.
  assert (Hl : zlen rs = n).
  { unfold zlen. rewrite <- (length_fmap skeptic_idx), Hidx, length_seqZ. lia. }
  destruct (aggregate_spec n rs Hn Hidx) as [total ->]. cbn [snd]. subst decisive. unfold approved.
  destruct (Z.eqb_spec n 1) as [-> |Hn1].
  - replace (1 <? 1) with false by done. cbn [andb negb]. rewrite andb_true_r, Z.eqb_eq, countb_zero. split.
    + split; [intros Hall; split_and!; [done|done|lia]|]. intros (_ & Hall & _). by apply Hall.
    + intros Hna. destruct (decide (Exists (λ r, refuted r = true) rs)) as [Hex|Hno].
      { apply Exists_exists in Hex as (r & ? & ?). by exists r. }
      destruct Hna. split_and!; [done| |lia]. intros _ r Hr. rewrite <- Forall_Exists_neg, Forall_forall in Hno.
      specialize (Hno r Hr). by destruct (refuted r).
  - assert (1 < n) as H1 by lia. replace (1 <? n) with true by lia. cbn [andb].
    split.
    + rewrite andb_true_iff, Z.ltb_lt, negb_true_iff. split.
      * intros [Hq Hh]. split_and!; [done|lia|]. intros _. split; [|done]. intros r Hr. by rewrite Hr in Hh.
      * intros (_ & _ & Hx). destruct (Hx H1) as [Hh Hq]. split; [done|].
        destruct (head rs) as [r|]; [by apply Hh|done].
    + intros Hna. destruct (decide (Exists (λ r, refuted r = true) rs)) as [Hex|Hno].
      { apply Exists_exists in Hex as (r & ? & ?). by exists r. }
      exfalso. apply Hna. rewrite <- Forall_Exists_neg, Forall_forall in Hno.
      split_and!; [done|lia|]. intros _. split.
      * intros r Hr. apply head_Some_elem_of in Hr. specialize (Hno r Hr). unfold is_high_refute.
        by destruct (refuted r).
      * assert (countb (λ r, cold r && negb (refuted r)) rs = countb cold rs) as ->.
        { apply countb_ext. intros r Hr. specialize (Hno r Hr). destruct (refuted r); [done|by rewrite andb_true_r]. }
        assert (countb cold rs = n - 1) as ->; [|lia].
        rewrite <- (cold_seqZ n Hn), <- Hidx, countb_fmap. done.
Qed.

(** * The stage *)

(** [m] spawns nobody. *)
Definition quiet {A} (m : P A) : Prop := ∀ l, preserves (λ w, spawns w = l) m.

Lemma quiet_ret {A} (a : A) : quiet (mret a).
Proof. intros l. apply preserves_ret. Qed.

Lemma quiet_bind {A B} (m : P A) (k : A → P B) : quiet m → (∀ a, quiet (k a)) → quiet (a ← m; k a).
Proof. intros Hm Hk l. apply preserves_bind; [apply Hm|intros a; apply Hk]. Qed.

Lemma quiet_on_base {A} (m : M A) : quiet (on_base m).
Proof. intros l w H. unfold on_base. by destruct (m (base w)). Qed.

Lemma quiet_emit e : quiet (emit_event e).
Proof. by intros l w H. Qed.

Lemma quiet_read p : quiet (read_file p).
Proof. by intros l w H. Qed.

Lemma quiet_store p b : quiet (store p b).
Proof. by intros l w H. Qed.

#[export] Hint Resolve quiet_ret quiet_bind quiet_on_base quiet_emit quiet_read quiet_store : panel.

Definition mute {A} (m : P A) : Prop := ∀ l, preserves (λ w, panel_events w = l) m.

(** From a world where [l] has been spawned and [e] been told, [m] ends in [Q]. *)
Definition from {A} (l : list Spawn) (e : list PanelEvent) (Q : A → PWorld → Prop) (m : P A) : Prop :=
  ∀ w, spawns w = l → panel_events w = e → Q (m w).1 (m w).2.

Lemma from_bind {A B} l e (Q : B → PWorld → Prop) (m : P A) (k : A → P B) :
  quiet m → mute m → (∀ a, from l e Q (k a)) → from l e Q (a ← m; k a).
Proof. intros Hm He Hk w Hw Hv. rewrite panel_bind_run. apply Hk; [by apply Hm|by apply He]. Qed.

Lemma from_emit {B} l e ev (Q : B → PWorld → Prop) (k : unit → P B) :
  from l (e ++ [ev]) Q (k tt) → from l e Q (a ← emit_event ev; k a).
Proof. intros Hk w Hw Hv. rewrite panel_bind_run. apply Hk; [done|]. cbn. by rewrite Hv. Qed.

Lemma from_ret {A} l e (Q : A → PWorld → Prop) (a : A) : (∀ w, spawns w = l → panel_events w = e → Q a w) → from l e Q (mret a).
Proof. intros H w Hw. by apply H. Qed.

(** The events of a panel's votes. *)
Definition vote_events (attempt : Z) (rs : list SkepticResult) : list PanelEvent :=
  (λ r, GoalVerifierSkepticVerdict attempt (skeptic_idx r) (refuted r) (confidence r)) <$> rs.

Lemma vote_events_run attempt rs w :
  spawns (traverse (λ r, emit_event (GoalVerifierSkepticVerdict attempt (skeptic_idx r) (refuted r) (confidence r))) rs w).2 = spawns w ∧
  panel_events (traverse (λ r, emit_event (GoalVerifierSkepticVerdict attempt (skeptic_idx r) (refuted r) (confidence r))) rs w).2
    = panel_events w ++ vote_events attempt rs.
Proof.
  revert w. induction rs as [|r rs IH]; intros w; [by rewrite app_nil_r|]. cbn [traverse]. rewrite !panel_bind_run.
  cbn [snd mret St_ret]. match goal with |- context [traverse _ rs ?w1] => destruct (IH w1) as [-> ->] end.
  split; [done|]. cbn. by rewrite <- app_assoc.
Qed.

(** Who votes: every index in turn, unless skeptic 0 refutes with high confidence
    something that can be fixed. *)
Definition voters (n : Z) (rs : list SkepticResult) : Prop :=
  skeptic_idx <$> rs = seqZ 0 n ∨
  1 < n ∧ ∃ r, rs = [r] ∧ skeptic_idx r = 0 ∧ is_high_refute r = true ∧ blocking r = BNone.

(** What a stage says and tells, given what the panel ran to. *)
Definition stage_ok (pe : PanelEnv) (i : VerificationStageInputs) (w0 : PWorld) (r : VerificationStageResult) (w : PWorld) : Prop :=
  let n := clamp (in_skeptic_count i) 1 5 in
  let attempt := in_attempt i in
  let d := format_details_path pe (in_verifier_id i) attempt in
  let n0 := length (spawns w0) in
  let told := panel_events w0 ++ [GoalClassifierFired attempt (in_max_runs i)] in
  if panel_ran r then
    ∃ rs achieved, voters n rs ∧
      (∀ x, x ∈ rs → judged pe n0 (in_verifier_id i) attempt (in_prior_skeptic0 i) (skeptic_idx x) x w ∧
                     (refuted x = false → answered pe n0 (skeptic_idx x) w)) ∧
      (achieved = true ↔ approved n rs) ∧
      panel_events w = told ++ vote_events attempt rs ++
        [GoalVerifierAggregateVerdict attempt (countb refuted rs) (zlen rs) achieved;
         GoalClassifierVerdictEvent (if achieved then Achieved else NotAchieved) attempt] ∧
      match outcome r with
      | OAchieved d' => d' = d ∧ approved n rs
      | OBlocked d' _ =>
          d' = d ∧ ¬ approved n rs ∧ (∃ x, x ∈ rs ∧ refuted x = true) ∧
          ∀ x, x ∈ rs → refuted x = true → blocking x ≠ BNone
      | ONotAchieved d' gaps pause fp =>
          d' = d ∧ ¬ approved n rs ∧ (∃ x, x ∈ rs ∧ refuted x = true ∧ blocking x = BNone) ∧
          gaps = build_gaps_summary rs ∧ pause = build_pause_summary rs ∧
          fp = gap_fingerprint (refuter_fingerprint_source <$> List.filter refuted rs)
      | OFailOpenAchieved _ _ => False
      end
  else spawns w = spawns w0 ∧ panel_events w = told ++ [GoalClassifierFailOpen FFileWriteFailed attempt] ∧
       ∃ d', outcome r = OFailOpenAchieved FFileWriteFailed d'.

(** The counts that a panel of at most five tells. *)
Lemma aggregate_counts rs : 1 ≤ zlen rs ≤ 5 → (aggregate_skeptic_verdicts rs).1 = (countb refuted rs, zlen rs).
Proof.
  intros Hl. assert (wrap 32 (zlen rs) = zlen rs) as Hw by (apply wrap_id; unfold uint; rewrite umax_32; lia).
  unfold aggregate_skeptic_verdicts. rewrite Hw, countb_small by lia.
  destruct (Z.eqb_spec (zlen rs) 0); [lia|]. by destruct (zlen rs <=? 1).
Qed.

Lemma voters_length n rs : 1 ≤ n ≤ 5 → voters n rs → 1 ≤ zlen rs ≤ 5.
Proof.
  intros Hn [Hi|(_ & r & -> & _)]; [|unfold zlen; cbn; lia].
  unfold zlen. rewrite <- (length_fmap skeptic_idx), Hi, length_seqZ. lia.
Qed.

Lemma panel_voters pe n0 vid attempt prior n rs dec w :
  panel_ok pe n0 vid attempt prior n rs dec w →
  voters n rs ∧ ∀ x, x ∈ rs → judged pe n0 vid attempt prior (skeptic_idx x) x w.
Proof.
  intros [[Hv _]|(H1 & _ & r & -> & [Hi Hj] & Hh & Hb)].
  - split; [left; by apply (votes_idx _ _ _ _ _ _ _ _ Hv)|]. intros x [i Hx]%list_elem_of_lookup.
    eapply Forall2_lookup_r in Hv as (j & _ & <- & Hj); [exact Hj|exact Hx].
  - split; [right; split; [done|by exists r]|]. intros x ->%list_elem_of_singleton. by rewrite Hi.
Qed.

Lemma conclude_ok pe n0 vid attempt prior n rs w d dec :
  1 ≤ n ≤ 5 → panel_ok pe n0 vid attempt prior n rs dec w →
  match conclude rs ((aggregate_skeptic_verdicts rs).2 && negb dec) d with
  | OAchieved d' => d' = d ∧ approved n rs
  | OBlocked d' _ =>
      d' = d ∧ ¬ approved n rs ∧ (∃ x, x ∈ rs ∧ refuted x = true) ∧
      ∀ x, x ∈ rs → refuted x = true → blocking x ≠ BNone
  | ONotAchieved d' gaps pause fp =>
      d' = d ∧ ¬ approved n rs ∧ (∃ x, x ∈ rs ∧ refuted x = true ∧ blocking x = BNone) ∧
      gaps = build_gaps_summary rs ∧ pause = build_pause_summary rs ∧
      fp = gap_fingerprint (refuter_fingerprint_source <$> List.filter refuted rs)
  | OFailOpenAchieved _ _ => False
  end.
Proof.
  intros Hn Hp. destruct (decision_spec pe n0 vid attempt prior n rs dec w Hn Hp) as [Ha Hr].
  destruct ((aggregate_skeptic_verdicts rs).2 && negb dec); cbn [conclude].
  { split; [done|by apply Ha]. }
  assert (¬ approved n rs) as Hna by (by intros ?%Ha).
  unfold conclude. destruct (existsb refuted rs && _) eqn:E.
  - apply andb_prop in E as [_ Hall]. rewrite forallb_forall in Hall.
    split_and!; [done|done|by apply Hr|]. intros x Hx Hxr Hb.
    specialize (Hall x). rewrite filter_In, <- list_elem_of_In, Hb in Hall. by specialize (Hall (conj Hx Hxr)).
  - destruct (Hr Hna) as (x & Hx & Hxr).
    assert (existsb refuted rs = true) as Hex by (apply existsb_exists; exists x; by rewrite <- list_elem_of_In).
    rewrite Hex in E. cbn [andb] in E. split_and!; [done|done| |done|done|done].
    clear x Hx Hxr. assert (Exists (λ y, blocking y = BNone) (List.filter refuted rs)) as Hy.
    { apply dec_stable. rewrite <- Forall_Exists_neg. intros Hf. apply not_true_iff_false in E. apply E.
      apply forallb_forall. intros y Hy%list_elem_of_In. rewrite Forall_forall in Hf. specialize (Hf y Hy).
      by destruct (blocking y). }
    apply Exists_exists in Hy as (y & Hy & Hb). apply list_elem_of_In, filter_In in Hy as [Hy Hyr].
    exists y. by rewrite list_elem_of_In.
Qed.

Section stage.
Context (pe : PanelEnv).

Lemma quiet_ask {A} (f : nat → A) : quiet (ask_panel f).
Proof. apply quiet_on_base. Qed.

Lemma quiet_write p b : quiet (write_file pe p b).
Proof.
  unfold write_file. apply quiet_bind; [apply quiet_ask|]. intros ok.
  apply quiet_bind; [destruct ok; auto with panel|auto with panel].
Qed.

Lemma quiet_patch p b : quiet (write_patch_file_atomic pe p b).
Proof.
  unfold write_patch_file_atomic. apply quiet_bind; [apply quiet_ask|]. intros id.
  apply quiet_bind; [apply quiet_ask|]. intros ok. case_match; [apply quiet_ret|apply quiet_write].
Qed.

Lemma mute_write p b : mute (write_file pe p b).
Proof. intros l. apply (kept_write pe _). Qed.

Lemma mute_patch p b : mute (write_patch_file_atomic pe p b).
Proof. intros l. apply (kept_patch pe _). Qed.

Lemma mute_ret {A} (a : A) : mute (mret a).
Proof. intros l. apply preserves_ret. Qed.

Lemma mute_base {A} (m : M A) : mute (on_base m).
Proof. intros l w H. unfold on_base. by destruct (m (base w)). Qed.

Lemma fail_open_run l e reason a dp d :
  from l e (λ o w, spawns w = l ∧ panel_events w = e ++ [GoalClassifierFailOpen reason a] ∧ ∃ d', o = OFailOpenAchieved reason d')
    (record_fail_open pe reason a dp d).
Proof.
  unfold record_fail_open. apply from_emit. destruct dp as [p|].
  2: { apply from_ret. intros w Hw He. split_and!; [done|done|by eexists]. }
  assert (quiet (maybe_write_fail_open_placeholder pe p reason) ∧ mute (maybe_write_fail_open_placeholder pe p reason)) as [Hq Hm].
  { unfold maybe_write_fail_open_placeholder, maybe_write_classifier_placeholder. split; intros l0;
      (apply preserves_bind; [apply kept_read|]); intros [[|]|];
      first [apply preserves_ret|apply quiet_write|apply mute_write]. }
  apply from_bind; [..|intros d'; apply from_ret; intros w Hw He; split_and!; [done|done|by eexists]].
  - apply quiet_bind; [exact Hq|intros; apply quiet_ret].
  - intros l0. apply preserves_bind; [apply Hm|intros; apply preserves_ret].
Qed.

Section inputs.
Context (i : VerificationStageInputs) (w0 : PWorld).
Notation n := (clamp (in_skeptic_count i) 1 5).
Notation d := (format_details_path pe (in_verifier_id i) (in_attempt i)).
Notation told := (panel_events w0 ++ [GoalClassifierFired (in_attempt i) (in_max_runs i)]).

Lemma early_run dp d0 :
  from (spawns w0) told (stage_ok pe i w0)
    (o ← record_fail_open pe FFileWriteFailed (in_attempt i) dp d0; mret (early_exit o)).
Proof.
  intros w Hw He. rewrite panel_bind_run.
  destruct (fail_open_run _ _ FFileWriteFailed (in_attempt i) dp d0 w Hw He) as (Hs & Hv & d' & Ho).
  split_and!; [exact Hs|exact Hv|]. exists d'. exact Ho.
Qed.

Lemma panel_tail :
  from (spawns w0) told (stage_ok pe i w0)
    ('(results, decisive_refute, skeptic0) ← run_panel pe (in_verifier_id i) (in_attempt i) n (in_prior_skeptic0 i);
     _ ← traverse (λ r, emit_event
           (GoalVerifierSkepticVerdict (in_attempt i) (skeptic_idx r) (refuted r) (confidence r))) results;
     let '(refuted_count, total, quorum_achieved) := aggregate_skeptic_verdicts results in
     let achieved := quorum_achieved && negb decisive_refute in
     _ ← emit_event (GoalVerifierAggregateVerdict (in_attempt i) refuted_count total achieved);
     _ ← write_file pe d
           (cap_panel_details (render_skeptic_panel_details pe results refuted_count total achieved (in_verifier_id i) (in_attempt i)));
     _ ← emit_event (GoalClassifierVerdictEvent (if achieved then Achieved else NotAchieved) (in_attempt i));
     mret (mkStage (conclude results achieved d) skeptic0 true)).
Proof.
  assert (1 ≤ n ≤ 5) as Hn by (unfold clamp; lia).
  intros w Hl He. rewrite panel_bind_run.
  pose proof (panel_run_ok pe (length (spawns w0)) (in_verifier_id i) (in_attempt i) (in_prior_skeptic0 i) n ltac:(lia) w ltac:(by rewrite Hl)) as Hp.
  pose proof (kept_panel pe (λ w, panel_events w = told) (in_verifier_id i) (in_attempt i) n (in_prior_skeptic0 i) w He) as He1.
  destruct (run_panel pe _ _ _ _ w) as [[[rs dec] s0] w1]. cbn [fst snd] in *.
  destruct (panel_voters _ _ _ _ _ _ _ _ _ Hp) as [Hvs Hj].
  destruct (decision_spec _ _ _ _ _ _ _ _ _ Hn Hp) as [Hach _].
  pose proof (conclude_ok _ _ _ _ _ _ _ _ d _ Hn Hp) as Hc.
  pose proof (aggregate_counts rs (voters_length _ _ Hn Hvs)) as Hcounts.
  rewrite panel_bind_run.
  destruct (vote_events_run (in_attempt i) rs w1) as [Hs2 He2].
  match goal with |- context [traverse ?f rs w1] => set (w2 := (traverse f rs w1).2) in * end. clearbody w2.
  destruct (aggregate_skeptic_verdicts rs) as [[rc total] q]. cbn [fst snd] in Hc, Hcounts, Hach. injection Hcounts as -> ->.
  rewrite !panel_bind_run. cbn [fst snd mret St_ret].
  match goal with |- context [write_file pe d ?b ?w3] => 
    pose proof (mute_write d b _ w3 eq_refl) as Hev; pose proof (quiet_write d b _ w3 eq_refl) as Hsp;
    set (w4 := (write_file pe d b w3).2) in * end. clearbody w4. cbn in Hev, Hsp.
  unfold stage_ok. cbn [panel_ran outcome]. exists rs, (q && negb dec). split_and!; [exact Hvs| |exact Hach| |exact Hc].
  - intros x Hx.
    assert (judged pe (length (spawns w0)) (in_verifier_id i) (in_attempt i) (in_prior_skeptic0 i) (skeptic_idx x) x
      (w4 <| panel_events ::= λ l, l ++ [GoalClassifierVerdictEvent (if q && negb dec then Achieved else NotAchieved) (in_attempt i)] |>)) as Hjx.
    { destruct (Hj x Hx) as (id & resume & w' & H1 & H2 & H3 & H4). exists id, resume, w'. split_and!; [done..|].
      cbn. by rewrite Hsp, Hs2. }
    split; [exact Hjx|]. by apply judged_reply in Hjx as [_ Ha].
  - cbn. rewrite Hev, He2, He1. rewrite <- !app_assoc. done.
Qed.

Lemma stage_spec : stage_ok pe i w0 (run_verification_stage pe i w0).1 (run_verification_stage pe i w0).2.
Proof.
  assert (from (spawns w0) (panel_events w0) (stage_ok pe i w0) (run_verification_stage pe i)) as H; [|by apply H].
  unfold run_verification_stage. apply from_emit. case_match; [by apply early_run|].
  apply from_bind; [apply quiet_on_base|apply mute_base|]. intros [root|]; [|by apply early_run].
  case_match; [by apply early_run|].
  apply from_bind; [apply quiet_ask|apply mute_base|]. intros captured.
  apply from_bind; [destruct captured; [apply quiet_patch|apply quiet_ret]|destruct captured; [apply mute_patch|apply mute_ret]|].
  intros patched. case_match; [by apply early_run|]. by apply panel_tail.
Qed.
End inputs.

(** An approving panel has a skeptic that does not refute. *)
Lemma approved_voter n rs : 1 ≤ n → approved n rs → ∃ x, x ∈ rs ∧ refuted x = false.
Proof.
  intros Hn (Hl & H1 & Hm). destruct (Z.eqb_spec n 1) as [-> |Hne].
  - destruct rs as [|x rs]; [done|]. exists x. split; [left|]. apply H1; [done|left].
  - destruct Hm as [_ Hm]; [lia|].
    destruct (decide (Exists (λ x, refuted x = false) rs)) as [Hx|Hx]; [by apply Exists_exists in Hx|].
    rewrite <- Forall_Exists_neg, Forall_forall in Hx.
    rewrite (proj2 (countb_zero _ rs)) in Hm; [lia|]. intros x Hr. specialize (Hx x Hr).
    destruct (refuted x); [by rewrite andb_false_r|done].
Qed.

(** An approval is somebody's answer. *)
Lemma approval_answered i w d :
  outcome (run_verification_stage pe i w).1 = OAchieved d →
  ∃ idx, answered pe (length (spawns w)) idx (run_verification_stage pe i w).2.
Proof.
  intros Ho. pose proof (stage_spec i w) as Hs. unfold stage_ok in Hs. rewrite Ho in Hs.
  destruct (panel_ran _); [|by destruct Hs as (_ & _ & d' & ?)].
  destruct Hs as (rs & b & _ & Ha & _ & _ & _ & Happ). apply approved_voter in Happ as (x & Hx & Hr); [|unfold clamp; lia].
  exists (skeptic_idx x). by apply (Ha x Hx).
Qed.

(** C3: what the panel decides.  The stage either gives up before anyone is
    spawned, and says so, or every index of the panel votes, in turn, unless
    skeptic 0 refutes with high confidence something fixable.  A vote is what that
    skeptic, run in this stage for its index, is judged to say, and one event is
    told for each, with the count of the refuters and the verdict behind them.  The
    goal is achieved exactly when a sole judge does not refute, or skeptic 0 does
    not refute with high confidence and more than half of the others do not
    refute; every vote against refutation comes from a skeptic that was
    spawned in this stage and answered; a rejection is blocked exactly when every refuter
    calls its gap a contradiction or unverifiable, and otherwise carries the gaps
    and the fingerprint of these refuters. *)
Theorem verification_stage_spec i w :
  stage_ok pe i w (run_verification_stage pe i w).1 (run_verification_stage pe i w).2.
Proof. apply stage_spec. Qed.
End stage.

(** * What a vote rests on *)

Lemma fill_skeptic_prefix pre rest vid attempt idx :
  123 ∉ pre → ∃ t, fill_skeptic (pre ++ rest) vid attempt idx = pre ++ t.
Proof.
  intros Hp. unfold fill_skeptic, fill_attempt.
  destruct (replace_keeps_prefix 123 (lit "verifier_id}") vid pre rest Hp) as [t1 H1].
  change (123 :: lit "verifier_id}") with (lit "{verifier_id}") in H1. rewrite H1.
  destruct (replace_keeps_prefix 123 (lit "attempt}") (fmt_dec attempt) pre t1 Hp) as [t2 H2].
  change (123 :: lit "attempt}") with (lit "{attempt}") in H2. rewrite H2.
  apply (replace_keeps_prefix 123 (lit "skeptic_idx}")). done.
Qed.

(** The report of a skeptic is not its verdict. *)
Lemma report_not_verdict pe vid attempt idx :
  format_verifier_details_path pe vid attempt idx ≠ format_verdict_path pe vid attempt idx.
Proof.
  unfold format_verifier_details_path, format_verdict_path, scratch_rooted.
  destruct (fill_skeptic_prefix (lit "goal-classifier-") (lit "{verifier_id}-{attempt}-skeptic-{skeptic_idx}.md")
              vid attempt idx) as [t1 H1]; [by apply (bool_decide_unpack (_ ∉ _))|].
  destruct (fill_skeptic_prefix (lit "goal-verdict-") (lit "{verifier_id}-{attempt}-{skeptic_idx}.json")
              vid attempt idx) as [t2 H2]; [by apply (bool_decide_unpack (_ ∉ _))|].
  change (lit "goal-classifier-" ++ lit "{verifier_id}-{attempt}-skeptic-{skeptic_idx}.md") with GOAL_VERIFIER_DETAILS_PATH_TEMPLATE in H1.
  change (lit "goal-verdict-" ++ lit "{verifier_id}-{attempt}-{skeptic_idx}.json") with GOAL_VERIFIER_VERDICT_PATH_TEMPLATE in H2.
  rewrite H1, H2. intros H%path_join_inj; [|done..]. discriminate H.
Qed.

Section votes.
Context (pe : PanelEnv) (n0 : nat).

(** What stands behind a vote: the verdict file, or else the one word that the
    skeptic's answer consists of. *)
Definition backed (verdict_raw : rstr) (idx : Z) (vote : bool) (w : PWorld) : Prop :=
  ∃ k s terminal, (n0 ≤ k)%nat ∧ spawns w !! k = Some s ∧ spawn_idx s = idx ∧
    (spawn_classifier pe k s).1 = inl terminal ∧
    ((∃ body v, files w !! verdict_raw = Some body ∧ parse_verdict_json (verdict_of_json pe) body = Some v ∧
                v_refuted v = vote ∧ trim (v_evidence v) ≠ []) ∨
     parse_skeptic_terminal_response terminal = Some vote).

Lemma verdict_has_evidence body v :
  parse_verdict_json (verdict_of_json pe) body = Some v → trim (v_evidence v) ≠ [].
Proof.
  unfold parse_verdict_json. intros H. apply bind_Some in H as (raw & _ & H). apply bind_Some in H as (r & _ & H).
  apply bind_Some in H as (e & _ & H). destruct (is_empty (trim e)) eqn:E; [done|].
  apply bind_Some in H as (c & _ & H). simplify_eq/=. by destruct (trim e).
Qed.

Lemma files_write p q b w : p ≠ q → files (write_file pe p b w).2 !! q = files w !! q.
Proof.
  intros Hpq. unfold write_file. rewrite !panel_bind_run. cbn [fst snd mret St_ret].
  unfold ask_panel, on_base. destruct (ask (λ n, write_ok pe n p) (base w)) as [[] b']; cbn; [|done].
  by rewrite lookup_insert_ne.
Qed.

Lemma backed_read d v t k s w idx :
  d ≠ v → (n0 ≤ k)%nat → spawns w !! k = Some s → spawn_idx s = idx → (spawn_classifier pe k s).1 = inl t →
  let r := read_skeptic_verdict pe idx d v t w in
  refuted r.1 = false → backed v idx false r.2.
Proof.
  intros Hdv Hn Hk Hs Ht r. subst r. unfold read_skeptic_verdict. rewrite panel_bind_run. cbn [fst snd read_file].
  destruct (body ← files w !! v; parse_verdict_json _ body) as [vd|] eqn:E.
  - rewrite panel_bind_run. cbn [fst snd read_file]. rewrite panel_bind_run. cbn [fst snd mret St_ret refuted].
    intros Hr. apply bind_Some in E as (body & Hb & Hv). exists k, s, t.
    case_match.
    + split_and!; [exact Hn| |done|done|].
      * pose proof (prefix_lookup_Some _ (spawns (write_file pe d (v_details_md vd) w).2) k s Hk) as Hp.
        apply Hp. by apply (kept_write pe (λ w0, spawns w `prefix_of` spawns w0)).
      * left. exists body, vd. split_and!; [by rewrite files_write|done|done|by eapply verdict_has_evidence].
    + split_and!; [exact Hn|done|done|done|]. left. exists body, vd.
      split_and!; [done|done|done|by eapply verdict_has_evidence].
  - cbn [fst snd mret St_ret]. destruct (parse_skeptic_terminal_response t) as [b|] eqn:Ep; cbn [refuted]; [|done].
    intros ->. exists k, s, t. split_and!; [exact Hn|done|done|done|by right].
Qed.

Lemma spawn_lookup s w : spawns (spawn pe s w).2 !! length (spawns w) = Some s.
Proof. unfold spawn. destruct (spawn_classifier pe _ s). cbn. by apply list_lookup_middle. Qed.

Lemma spawn_answer s w : (spawn pe s w).1 = (spawn_classifier pe (length (spawns w)) s).1.
Proof. unfold spawn. by destruct (spawn_classifier pe _ s). Qed.

Lemma backed_cold idx id d v :
  d ≠ v → since n0 (λ r w, refuted r = false → backed v idx false w) (cold_spawn pe idx id d v).
Proof.
  intros Hdv w Hw. unfold cold_spawn. rewrite panel_bind_run.
  destruct (spawn pe (mkSpawn id idx None) w).1 as [t|[x|m c]] eqn:E; [|done..].
  rewrite spawn_answer in E. by eapply backed_read; [done|exact Hw|apply spawn_lookup|done|exact E].
Qed.

Lemma backed_skeptic vid attempt idx id resume :
  since n0 (λ r w, refuted r = false → backed (format_verdict_path pe vid attempt idx) idx false w)
    (run_one_skeptic pe vid attempt idx id resume).
Proof.
  pose proof (@extends_on_base) as Hb. unfold run_one_skeptic.
  apply since_bind; [apply Hb|]. intros [root|]; [|by apply since_bind; [apply Hb|]; intros; apply since_ret].
  apply since_bind; [apply Hb|]. intros ok. case_match; [by apply since_ret|].
  pose proof (report_not_verdict pe vid attempt idx) as Hdv.
  destruct resume as [prior|]; [|by apply backed_cold].
  intros w Hw. rewrite panel_bind_run. destruct (spawn pe (mkSpawn id idx (Some prior)) w).1 as [t|e] eqn:E.
  - rewrite spawn_answer in E. by eapply backed_read; [done|exact Hw|apply spawn_lookup|done|exact E].
  - apply backed_cold, extends_length; [done| |done]. intros l. apply (pi_spawn (pe := pe)).
Qed.
End votes.

(** C33: what a vote rests on.  A skeptic is counted as not refuting only if a
    subagent was spawned for its index just now and answered, and either the
    verdict file at its path says so in the full form, with evidence that is
    not blank, or its answer is nothing but the two words; every failure
    counts as a refutation. *)
Theorem approval_is_backed pe vid attempt idx id resume w :
  let r := run_one_skeptic pe vid attempt idx id resume w in
  skeptic_idx r.1 = idx ∧
  (refuted r.1 = false → backed pe (length (spawns w)) (format_verdict_path pe vid attempt idx) idx false r.2).
Proof. split; [by eapply (reply_skeptic pe)|]. by apply backed_skeptic. Qed.

(** * Reports are inert *)

(** No tag of a reminder frame occurs. *)
Definition inert (s : rstr) : Prop := ∀ tl, tl ∈ REMINDER_TAILS → ¬ infix (control_token tl) s.

Lemma reminder_tails_ok : Forall (λ tl, tail_ok tl ∧ (32 ∉ control_token tl) ∧ (NL ∉ control_token tl)) REMINDER_TAILS.
Proof.
  apply (bool_decide_unpack (Forall (λ tl, ((LT ∉ tl) ∧ (ZWSP ∉ tl) ∧ tl ≠ []) ∧
    (32 ∉ LT :: tl) ∧ (NL ∉ LT :: tl)) REMINDER_TAILS)).
  vm_compute. exact I.
Qed.

Lemma inert_sanitized s : inert (sanitize_evidence s).
Proof.
  intros tl Hin. apply neutralize_tags_clean; [|done].
  eapply Forall_impl; [exact reminder_tails_ok|by intros ? []].
Qed.

Lemma inert_plain s : LT ∉ s → inert s.
Proof. intros Hs tl _ (a & b & ->). apply Hs. set_solver. Qed.

Lemma inert_break c x y : c = 32 ∨ c = NL → inert x → inert y → inert (x ++ c :: y).
Proof.
  intros Hc Hx Hy tl Hin. pose proof reminder_tails_ok as Hall. rewrite Forall_forall in Hall.
  destruct (Hall tl Hin) as (_ & Hsp & Hnl). intros [Hi|Hi]%infix_break;
    [by apply (Hx tl)|by apply (Hy tl)|by destruct Hc as [-> | ->]].
Qed.

Lemma inert_join l : Forall inert l → inert (join [NL] l).
Proof.
  induction 1 as [|s [|s' l] Hs _ IH]; [by apply inert_plain, not_elem_of_nil|done|].
  apply inert_break; [by right|done|done].
Qed.

Lemma fmt_dec_plain n : LT ∉ fmt_dec n.
Proof. intros H. pose proof (fmt_dec_digits n) as Hd. rewrite Forall_forall in Hd. by destruct (Hd _ H). Qed.

Lemma confidence_plain c : LT ∉ confidence_str c.
Proof. apply (bool_decide_unpack (LT ∉ _)). by destruct c. Qed.

Lemma header_plain r :
  LT ∉ lit "- [skeptic " ++ fmt_dec (skeptic_idx r) ++ lit ", " ++ confidence_str (confidence r) ++ lit "]".
Proof.
  rewrite !elem_of_app. intros [H|[H|[H|[H|H]]]]; revert H;
    [|apply fmt_dec_plain| |apply confidence_plain|]; by apply (bool_decide_unpack (LT ∉ _)).
Qed.

Lemma inert_bullet r : inert (render_refuter_bullet r).
Proof.
  unfold render_refuter_bullet. destruct (findings r) as [|f fs].
  - case_match.
    + apply inert_break; [by left|by apply inert_plain, header_plain|apply inert_sanitized].
    + destruct (fallback_note r) as [note|].
      * change (lit "] no verdict produced: ") with (lit "] no verdict produced:" ++ [32]).
        rewrite <- app_assoc, app_assoc, app_assoc. apply inert_break; [by left| |apply inert_sanitized].
        apply inert_plain. rewrite !elem_of_app. intros [[Hi|Hi]|Hi]; revert Hi;
          [|apply fmt_dec_plain|]; by apply (bool_decide_unpack (LT ∉ _)).
      * apply inert_plain. rewrite !elem_of_app. intros [Hi|[Hi|Hi]]; revert Hi;
          [|apply fmt_dec_plain|]; by apply (bool_decide_unpack (LT ∉ _)).
  - cbn [app]. apply inert_break; [by right|by apply inert_plain, header_plain|].
    apply inert_join, Forall_fmap, Forall_true. intros g. unfold compose.
    change (lit "  - ") with (lit "  -" ++ [32]). rewrite <- app_assoc.
    apply inert_break; [by left| |apply inert_sanitized]. by apply inert_plain, (bool_decide_unpack (LT ∉ _)).
Qed.

(** reports are inert.  Whatever the skeptics write, neither the gaps
    inlined in the next instruction nor the summary shown when the goal pauses
    contains a tag that opens or closes the frames they are put in. *)
Theorem summaries_inert results : inert (build_gaps_summary results) ∧ inert (build_pause_summary results).
Proof.
  split.
  - apply inert_join, Forall_fmap, Forall_true. apply inert_bullet.
  - apply inert_join. apply Forall_forall. intros s (g & Hg & Hs)%list_elem_of_omap.
    destruct (List.filter _ _) as [|r rs] in Hs; [done|]. apply (inj Some) in Hs as <-.
    rewrite app_assoc. apply inert_break; [by right| |].
    + apply inert_plain. apply (bool_decide_unpack (LT ∉ _)).
      repeat (apply elem_of_cons in Hg as [-> |Hg]; [vm_compute; exact I|]). by apply elem_of_nil in Hg.
    + apply inert_join, Forall_fmap, Forall_true. apply inert_bullet.
Qed.

(** * The fingerprint *)

Lemma dedup_elem x l : x ∈ dedup l ↔ x ∈ l.
Proof.
  induction l as [|y [|z l] IH]; [done|done|]. cbn [dedup]. case_decide as Hyz; [subst z|].
  - rewrite IH. set_solver.
  - rewrite elem_of_cons, IH, !elem_of_cons. done.
Qed.

Lemma dedup_sorted l : StronglySorted str_le l → StronglySorted str_le (dedup l) ∧ NoDup (dedup l).
Proof.
  induction 1 as [|x [|y l] Hs IH Hx]; [by split; constructor|by split; repeat constructor; apply not_elem_of_nil|].
  cbn [dedup]. case_decide as Hxy; [done|]. destruct IH as [IHs IHn]. split.
  - constructor; [done|]. apply Forall_forall. intros z Hz. apply (dedup_elem z (y :: l)) in Hz. by eapply Forall_forall in Hx.
  - constructor; [|done]. intros Hd. apply (dedup_elem x (y :: l)), elem_of_cons in Hd as [-> |Hd]; [done|].
    apply Hxy. apply (anti_symm str_le).
    + apply Forall_inv in Hx. done.
    + inversion Hs as [|? ? _ Hy]; subst. by eapply Forall_forall in Hy.
Qed.

(** Sorted and without repetition, a list is its elements. *)
Definition normal (l : list rstr) : list rstr := dedup (merge_sort str_le l).

Lemma normal_elem x l : x ∈ normal l ↔ x ∈ l.
Proof. unfold normal. rewrite dedup_elem. by rewrite (merge_sort_Permutation str_le l). Qed.

Lemma normal_ext l l' : (∀ x, x ∈ l ↔ x ∈ l') → normal l = normal l'.
Proof.
  intros Hl. destruct (dedup_sorted (merge_sort str_le l)) as [Hs Hn].
  { by apply StronglySorted_merge_sort; apply _. }
  destruct (dedup_sorted (merge_sort str_le l')) as [Hs' Hn'].
  { by apply StronglySorted_merge_sort; apply _. }
  apply (StronglySorted_unique str_le); [done..|]. apply NoDup_Permutation; [done..|].
  intros x. fold (normal l) (normal l'). by rewrite !normal_elem.
Qed.

(** The citations of a rejection. *)
Definition citations (l : list rstr) : list rstr := (normalize_scratch_paths <$> l) ≫= extract_path_line_tokens.

Lemma fingerprint_cites l : citations l ≠ [] → fingerprint_tokens l = citations l.
Proof. unfold fingerprint_tokens, citations. by case_match. Qed.

Lemma fingerprint_tokens_ext l l' :
  (∀ e, e ∈ l ↔ e ∈ l') → ∀ x, x ∈ fingerprint_tokens l ↔ x ∈ fingerprint_tokens l'.
Proof.
  intros Hl. assert (Hc : ∀ x, x ∈ citations l ↔ x ∈ citations l').
  { intros x. unfold citations. rewrite !list_elem_of_bind. by setoid_rewrite list_elem_of_fmap; setoid_rewrite Hl. }
  unfold fingerprint_tokens. fold (citations l) (citations l').
  destruct (citations l) as [|t ts], (citations l') as [|t' ts'].
  - intros x. rewrite !list_elem_of_In, !filter_In, <- !list_elem_of_In. rewrite !list_elem_of_fmap.
    setoid_rewrite list_elem_of_fmap. by setoid_rewrite Hl.
  - destruct (Hc t') as [_ H]. by destruct (elem_of_nil t') as [[] _]; apply H; left.
  - destruct (Hc t) as [H _]. by destruct (elem_of_nil t) as [[] _]; apply H; left.
  - exact Hc.
Qed.

Lemma trim_start_matches_suffix p s : ∃ a, s = a ++ trim_start_matches p s.
Proof.
  induction s as [|c s [a IH]]; [by exists []|]. cbn. destruct (p c); [|by exists []].
  exists (c :: a). cbn. by f_equal.
Qed.

Lemma trim_matches_split p s : ∃ a b, s = a ++ trim_matches p s ++ b.
Proof.
  unfold trim_matches, trim_end_matches. destruct (trim_start_matches_suffix p s) as [a Ha].
  destruct (trim_start_matches_suffix p (reverse (trim_start_matches p s))) as [b Hb].
  exists a, (reverse b). rewrite <- reverse_app, <- Hb, reverse_involutive. exact Ha.
Qed.

Lemma split_where_free p s piece c : piece ∈ split_where p s → c ∈ piece → p c = false.
Proof.
  revert piece. induction s as [|d s IH]; intros piece; cbn.
  - intros ->%list_elem_of_singleton ?%elem_of_nil. done.
  - destruct (p d) eqn:Hd.
    + intros [-> |Hp]%elem_of_cons; [by intros ?%elem_of_nil|by apply IH].
    + destruct (split_where p s) as [|x xs].
      * intros ->%list_elem_of_singleton ->%list_elem_of_singleton. done.
      * intros [-> |Hp]%elem_of_cons; [|by apply IH; right].
        intros [-> |Hc]%elem_of_cons; [done|]. by apply (IH x); [left|].
Qed.

Lemma lowercase_nl s : NL ∈ to_ascii_lowercase s → NL ∈ s.
Proof.
  unfold to_ascii_lowercase, NL. intros (c & Hc & Hin)%list_elem_of_fmap. destruct (_ && _) eqn:E; [|by subst].
  apply andb_prop in E. exfalso. lia.
Qed.

Lemma citation_one_line t l : t ∈ citations l → NL ∉ t.
Proof.
  unfold citations. intros (e & Ht & _)%list_elem_of_bind. unfold extract_path_line_tokens in Ht.
  apply list_elem_of_omap in Ht as (raw & Hraw & Ht). unfold path_line_token in Ht.
  assert (Hfree : NL ∉ raw) by (intros Hn; by apply (split_where_free _ _ _ _ Hraw) in Hn).
  set (word := trim_matches _ raw) in Ht. assert (Hw : NL ∉ word).
  { destruct (trim_matches_split (λ c, negb (is_ascii_alphanumeric c) && negb (bool_decide (c ∈ lit "./_-:"))) raw)
      as (a & b & Hr). intros Hn. apply Hfree. rewrite Hr. fold word. set_solver. }
  clearbody word. apply bind_Some in Ht as ([path rest] & Hs & Ht).
  apply split_at_first_spec in Hs. destruct (_ && _) eqn:E; [|done]. apply (inj Some) in Ht as <-.
  apply andb_prop in E as [_ E]. apply andb_prop in E as [_ Hline]. rewrite forallb_forall in Hline.
  rewrite !elem_of_app. intros [Hn|[Hn|Hn]].
  - apply Hw. rewrite Hs. apply lowercase_nl in Hn. set_solver.
  - by apply (list_elem_of_singleton NL 58) in Hn.
  - apply list_elem_of_In in Hn. by apply Hline in Hn.
Qed.

Lemma join_inj l l' :
  l ≠ [] → l' ≠ [] → (∀ t, t ∈ l → NL ∉ t) → (∀ t, t ∈ l' → NL ∉ t) → join [NL] l = join [NL] l' → l = l'.
Proof.
  intros Hl Hl' Hn Hn' Hj. rewrite <- (split_join NL l), <- (split_join NL l'), Hj; [done|done| |done|].
  - apply Forall_forall. intros t Ht. apply Forall_forall. intros c Hc ->. by apply (Hn' t).
  - apply Forall_forall. intros t Ht. apply Forall_forall. intros c Hc ->. by apply (Hn t).
Qed.

(** the fingerprint.  It depends on which evidence the refuters gave, not
    on their order or on who repeats whom; and two rejections that cite lines
    of files have the same fingerprint exactly when they cite the same
    ones. *)
Theorem gap_fingerprint_spec l l' :
  ((∀ e, e ∈ l ↔ e ∈ l') → gap_fingerprint l = gap_fingerprint l') ∧
  (citations l ≠ [] → citations l' ≠ [] →
   gap_fingerprint l = gap_fingerprint l' ↔ ∀ t, t ∈ citations l ↔ t ∈ citations l').
Proof.
  unfold gap_fingerprint. fold (normal (fingerprint_tokens l)) (normal (fingerprint_tokens l')). split.
  - intros Hl. f_equal. apply normal_ext. by apply fingerprint_tokens_ext.
  - intros Hc Hc'. rewrite !fingerprint_cites by done. split.
    + assert (∀ k, citations k ≠ [] → normal (citations k) ≠ []) as Hne.
      { intros k Hk Hn. destruct (citations k) as [|t ts]; [done|].
        apply (elem_of_nil t). rewrite <- Hn. apply normal_elem. left. }
      intros Hj%join_inj; [|by apply Hne|by apply Hne|..].
      * intros t. by rewrite <- (normal_elem t (citations l)), <- (normal_elem t (citations l')), Hj.
      * intros t Ht. eapply citation_one_line, (proj1 (normal_elem t _)), Ht.
      * intros t Ht. eapply citation_one_line, (proj1 (normal_elem t _)), Ht.
    + intros Hl. f_equal. by apply normal_ext.
Qed.

(** * The frozen assignment *)

(** the assignment of models.  What has been committed is never rewritten;
    a nonempty pool fills the rest, index by index, in turn; growing the panel
    in two steps or in one makes no difference. *)
Theorem expand_assignment_stable {A} (existing pool : list A) n m :
  existing `prefix_of` expand_skeptic_assignment existing pool n ∧
  (pool ≠ [] → length (expand_skeptic_assignment existing pool n) = Nat.max (length existing) n) ∧
  (∀ i, (length existing ≤ i < n)%nat →
    expand_skeptic_assignment existing pool n !! i = pool !! (i mod length pool)%nat) ∧
  ((n ≤ m)%nat →
    expand_skeptic_assignment (expand_skeptic_assignment existing pool n) pool m =
    expand_skeptic_assignment existing pool m).
Proof.
  destruct pool as [|d pool]; cbn [expand_skeptic_assignment].
  { split_and!; [done|done| |done]. intros i Hi. rewrite lookup_nil. by apply lookup_ge_None; lia. }
  set (f := λ i : nat, nth (i mod length (d :: pool)) (d :: pool) d).
  assert (Hlen : ∀ a b : nat, length (f <$> seq a b) = b) by (intros; by rewrite length_fmap, length_seq).
  split_and!.
  - case_match; [done|]. by apply prefix_app_r.
  - intros _. destruct (Nat.leb_spec n (length existing)); [lia|]. rewrite length_app, Hlen. lia.
  - intros i Hi. destruct (Nat.leb_spec n (length existing)); [lia|].
    rewrite lookup_app_r, list_lookup_fmap, lookup_seq_lt by lia. cbn [fmap option_fmap option_map].
    replace (length existing + (i - length existing))%nat with i by lia. unfold f. symmetry.
    rewrite nth_lookup. pose proof (Nat.mod_upper_bound i (length (d :: pool)) ltac:(done)) as Hb.
    destruct (lookup_lt_is_Some_2 _ _ Hb) as [x Hx]. by rewrite Hx.
  - intros Hnm. destruct (Nat.leb_spec n (length existing)); [done|].
    rewrite length_app, Hlen. replace (length existing + (n - length existing))%nat with n by lia.
    destruct (Nat.leb_spec m (length existing)); [lia|]. destruct (Nat.leb_spec m n).
    + by replace m with n by lia.
    + rewrite <- app_assoc. f_equal. rewrite <- fmap_app.
      replace (m - length existing)%nat with ((n - length existing) + (m - n))%nat by lia.
      rewrite seq_app. by replace (length existing + (n - length existing))%nat with n by lia.
Qed.

(** the default panel of three.  Against what is said of the default, that
    a lone false refutation cannot decide the outcome, one cold refutation of
    any confidence keeps the panel from approving. *)
Theorem lone_cold_refuter_decides i r0 r1 r2 :
  skeptic_idx r0 = 0 → skeptic_idx r1 = 1 → skeptic_idx r2 = 2 →
  GOAL_VERIFIER_SKEPTIC_COUNT = 3 ∧
  (refuted (if (i : bool) then r1 else r2) = true → (aggregate_skeptic_verdicts [r0; r1; r2]).2 = false).
Proof.
  intros H0 H1 H2. split; [done|]. intros Hr.
  destruct (aggregate_spec 3 [r0; r1; r2]) as [t ->]; [lia|cbn; by rewrite H0, H1, H2|].
  cbn [snd]. rewrite !countb_cons, countb_nil. unfold cold. rewrite H0, H1, H2.
  destruct i; rewrite Hr; by destruct (refuted r1), (refuted r2).
Qed.

Lemma lone_cold_refuter_decides_witness :
  (aggregate_skeptic_verdicts [mkResult 0 false CHigh BNone [1] [] None; mkResult 1 false CHigh BNone [1] [] None;
                               mkResult 2 true CLow BNone [1] [] None]).2 = false.
Proof. eapply (lone_cold_refuter_decides false); reflexivity. Defined.

(** * A verdict left behind *)

(** a verdict file outranks the answer.  The file's name is made of the
    goal's identifier, the attempt and the skeptic's index.  A resumed goal
    counts its attempts from one again, under the same identifier; so the
    skeptic spawned for its next attempt one is taken to say what a file that
    an earlier attempt one left says, even if its own answer is the
    opposite. *)
Theorem verdict_file_outranks_answer pe o idx details answer w body v :
  classifier_runs_attempted (rearm o) = 0 ∧
  verifier_id (rearm o) = verifier_id o ∧
  let path := format_verdict_path pe (verifier_id o) 1 idx in
  (files w !! path = Some body → parse_verdict_json (verdict_of_json pe) body = Some v →
   refuted (read_skeptic_verdict pe idx details path answer w).1 = v_refuted v).
Proof.
  split_and!; [done|done|]. intros path Hf Hv. unfold read_skeptic_verdict. rewrite panel_bind_run.
  cbn [fst snd read_file]. rewrite Hf. cbn [mbind option_bind]. rewrite Hv. by rewrite !panel_bind_run.
Qed.

(** The file approves, the skeptic refutes, and counts as approving. *)
Lemma verdict_file_outranks_answer_witness :
  let pe := mkPanelEnv demo_env
    (λ _, Some (mkRaw (Some false) (Some (lit "ran the tests")) (Some (lit "high")) None None None))
    (λ _ _, (inl [], [])) (λ _, []) (λ _ _, true) (λ _, None) (λ _, []) in
  let o := fresh_goal (lit "g") [] None 0 [] (lit "0123456789ab") None true in
  let path := format_verdict_path pe (verifier_id o) 1 1 in
  let w := mkPWorld (start (lit "/s")) {[path := lit "{}"]} [] [] in
  parse_skeptic_terminal_response (lit "Refuted") = Some true ∧
  refuted (read_skeptic_verdict pe 1 (lit "/r") path (lit "Refuted") w).1 = false.
Proof.
  intros pe o path w. split; [reflexivity|].
  destruct (verdict_file_outranks_answer pe o 1 (lit "/r") (lit "Refuted") w (lit "{}")
    (mkVerdict false (lit "ran the tests") CHigh BNone [] [])) as (_ & _ & H).
  apply H; [|vm_compute; reflexivity]. apply lookup_singleton_Some. split; reflexivity.
Defined.
