(* ===== verification/GoalNextStep.v ===== *)
(** The next step of a plan: the item that the continuation of a goal inlines,
    mined from the plan file
    (src/crates/codegen/intellihelper-shell/src/session/goal_next_step.rs, and
    [resolve_goal_next_step] of acp_session_impl/goal_support.rs).

    A file is its bytes; reading it fails or gives them. *)
From S2P Require Import Prelude Str Utf8 GoalPanel.

Definition MAX_READ_BYTES : nat := Z.to_nat 8192.

(** [rposition]: what stands before and after the last byte [c]. *)
Fixpoint split_at_last (c : Z) (bs : list Z) : option (list Z * list Z) :=
  match bs with
  | [] => None
  | b :: bs =>
      match split_at_last c bs with
      | Some (x, y) => Some (b :: x, y)
      | None => if b =? c then Some ([], bs) else None
      end
  end.

(** The buffer when the reading stops, then without the line it may have cut. *)
Definition read_capped (file : option (list Z)) : option rstr :=
  (λ bs,
    let buf := take MAX_READ_BYTES bs in
    let buf := if (MAX_READ_BYTES <=? length buf)%nat
               then match split_at_last 10 buf with Some (kept, _) => kept | None => buf end
               else buf in
    from_utf8_lossy buf) <$> file.

(** * Headers *)

Definition HASH : rchar := 35.
Definition hash (c : rchar) : bool := c =? HASH.

Definition is_any_header (line : rstr) : bool := starts_with [HASH] (trim_start line).

(** [name] is in lower case, so [eq_ignore_ascii_case] lowers the title only. *)
Definition is_section_header (line name : rstr) : bool :=
  let trimmed := trim_start line in
  if negb (starts_with [HASH] trimmed) then false
  else bool_decide (to_ascii_lowercase (trim (trim_start_matches hash trimmed)) = name).

(** [take_while(..).count()]. *)
Fixpoint count_while (p : rchar → bool) (s : rstr) : nat :=
  match s with
  | [] => 0
  | c :: s => if p c then S (count_while p s) else 0
  end.

Definition header_level (line : rstr) : nat := count_while hash (trim_start line).

(** * Items *)

Definition strip_bullet_marker (trimmed : rstr) : option rstr :=
  trim_start <$> match strip_prefix (lit "- ") trimmed with
                 | Some rest => Some rest
                 | None => match strip_prefix (lit "* ") trimmed with
                           | Some rest => Some rest
                           | None => strip_prefix (lit "+ ") trimmed
                           end
                 end.

Definition parse_checkbox_item (trimmed : rstr) : option rstr :=
  after_marker ← strip_bullet_marker trimmed;
  after_checkbox ← strip_prefix (lit "[ ]") after_marker;
  let text := trim after_checkbox in
  if is_empty text then None else Some text.

(** * Scanning *)

Definition TASK_CHECKLIST : rstr := lit "task checklist".

(** The loop over the lines, in a section of that level when there is one. *)
Fixpoint checklist_from (section_level : option nat) (ls : list rstr) : option rstr :=
  match ls with
  | [] => None
  | line :: ls =>
      if is_section_header line TASK_CHECKLIST then checklist_from (Some (header_level line)) ls
      else
        match section_level with
        | None => checklist_from section_level ls
        | Some level =>
            if is_any_header line && (header_level line <=? level)%nat then None
            else
              match parse_checkbox_item (trim_start line) with
              | Some item => Some item
              | None => checklist_from section_level ls
              end
        end
  end.

Definition first_unchecked_in_checklist (body : rstr) : option rstr := checklist_from None (lines body).

Definition EXCLUDED_SECTIONS : list rstr := [lit "non-goals"; lit "deviations"].

Definition is_excluded (line : rstr) : bool := existsb (is_section_header line) EXCLUDED_SECTIONS.

Fixpoint unchecked_from (excluded : bool) (ls : list rstr) : option rstr :=
  match ls with
  | [] => None
  | line :: ls =>
      if is_any_header line then unchecked_from (is_excluded line) ls
      else if excluded then unchecked_from excluded ls
      else
        match parse_checkbox_item (trim_start line) with
        | Some item => Some item
        | None => unchecked_from excluded ls
        end
  end.

Definition extract_first_unchecked (body : rstr) : option rstr :=
  let has_checklist := existsb (λ l, is_section_header l TASK_CHECKLIST) (lines body) in
  if has_checklist then first_unchecked_in_checklist body else unchecked_from false (lines body).

Definition first_unchecked_plan_item (file : option (list Z)) : option rstr :=
  body ← read_capped file; extract_first_unchecked body.

Definition GOAL_NEXT_STEP_MAX_CHARS : nat := 400.

(** [fs] gives the bytes at a path. *)
Definition resolve_goal_next_step (fs : rstr → option (list Z)) (plan_path : option rstr) : option rstr :=
  item ← (path ← plan_path; first_unchecked_plan_item (fs path));
  Some (neutralize_reminder_tags (cap_chars item GOAL_NEXT_STEP_MAX_CHARS)).

(** * Which lines are mined

    The specification says of each line whether it counts; the code keeps that
    in the state of one pass. *)

Section visible.
Context (ls : list rstr).

Definition checklist_header (i : nat) : Prop := ∃ l, ls !! i = Some l ∧ is_section_header l TASK_CHECKLIST = true.
Definition header (i : nat) : Prop := ∃ l, ls !! i = Some l ∧ is_any_header l = true.
Definition level_at (i : nat) : nat := match ls !! i with Some l => header_level l | None => 0%nat end.

(** [j] is the last line before [i] such that [P]. *)
Definition last_before (P : nat → Prop) (i j : nat) : Prop :=
  (j < i)%nat ∧ P j ∧ ∀ k, (j < k < i)%nat → ¬ P k.

(** Line [i] closes the section it is in: a header no deeper than the heading
    of the checklist above it, and not the heading of another checklist. *)
Definition closes (i : nat) : Prop :=
  header i ∧ ¬ checklist_header i ∧ ∃ j, last_before checklist_header i j ∧ (level_at i ≤ level_at j)%nat.

Definition in_checklist (i : nat) : Prop :=
  ¬ checklist_header i ∧ (∃ j, (j < i)%nat ∧ checklist_header j) ∧ ∀ k, (k ≤ i)%nat → ¬ closes k.

(** Where there is no checklist: outside of what the nearest header excludes. *)
Definition not_excluded (i : nat) : Prop :=
  ¬ header i ∧ ∀ j l, last_before header i j → ls !! j = Some l → is_excluded l = false.

Definition visible (i : nat) : Prop :=
  ((∃ j, checklist_header j) ∧ in_checklist i) ∨ ((∀ j, ¬ checklist_header j) ∧ not_excluded i).

Definition item_at (i : nat) : option rstr := l ← ls !! i; parse_checkbox_item (trim_start l).

(** The answer is the item of the first line of [V] that has one. *)
Definition first_item (V : nat → Prop) (answer : option rstr) : Prop :=
  match answer with
  | Some item => ∃ i, V i ∧ item_at i = Some item ∧ ∀ k, (k < i)%nat → V k → item_at k = None
  | None => ∀ i, V i → item_at i = None
  end.
End visible.

Lemma lookup_of_drop {A} (l : list A) n x rest : drop n l = x :: rest → l !! n = Some x ∧ drop (S n) l = rest.
Proof.
  intros H. split; [by rewrite <- (Nat.add_0_r n), <- lookup_drop, H|].
  by rewrite <- (Nat.add_1_r n), <- drop_drop, H.
Qed.

Section visible_lemmas.
Context (ls : list rstr).

Lemma last_before_unique P i j k : last_before P i j → last_before P i k → j = k.
Proof.
  intros (Hj & Pj & Nj) (Hk & Pk & Nk). destruct (Nat.lt_trichotomy j k) as [H|[H|H]]; [|done|].
  - by destruct (Nj k ltac:(lia)).
  - by destruct (Nk j ltac:(lia)).
Qed.

Lemma last_before_here (P : nat → Prop) n : P n → last_before P (S n) n.
Proof. intros H. split_and!; [lia|done|lia]. Qed.

Lemma last_before_next (P : nat → Prop) n j : ¬ P n → last_before P n j → last_before P (S n) j.
Proof.
  intros Hn (Hj & Pj & Nj). split_and!; [lia|done|]. intros k Hk. destruct (decide (k = n)) as [->|]; [done|].
  apply Nj. lia.
Qed.

(** One line further, nothing found so far. *)
Lemma none_next (Q : nat → Prop) n : (∀ k, (k < n)%nat → Q k) → Q n → ∀ k, (k < S n)%nat → Q k.
Proof. intros H Hn k Hk. destruct (decide (k = n)) as [->|]; [done|]. apply H. lia. Qed.

Lemma checklist_header_at n l :
  ls !! n = Some l → checklist_header ls n ↔ is_section_header l TASK_CHECKLIST = true.
Proof. intros Hl. unfold checklist_header. rewrite Hl. naive_solver. Qed.

Lemma header_at n l : ls !! n = Some l → header ls n ↔ is_any_header l = true.
Proof. intros Hl. unfold header. rewrite Hl. naive_solver. Qed.

Lemma item_at_line n l : ls !! n = Some l → item_at ls n = parse_checkbox_item (trim_start l).
Proof. intros Hl. unfold item_at. by rewrite Hl. Qed.

(** After the last line. *)
Lemma first_item_end V n :
  drop n ls = [] → (∀ k, (k < n)%nat → V k → item_at ls k = None) → first_item ls V None.
Proof.
  intros Hd Hnone i Hi. destruct (decide (i < n)%nat); [by apply Hnone|].
  apply drop_nil_inv in Hd. unfold item_at. rewrite lookup_ge_None_2; [done|lia].
Qed.

(** The section that is open before line [n]. *)
Definition open_section (n : nat) (level : option nat) : Prop :=
  match level with
  | None => ∀ j, (j < n)%nat → ¬ checklist_header ls j
  | Some lv => ∃ j, last_before (checklist_header ls) n j ∧ level_at ls j = lv
  end.

Lemma open_next n level : ¬ checklist_header ls n → open_section n level → open_section (S n) level.
Proof.
  intros Hn. destruct level as [lv|]; simpl; [|intros H; by apply (none_next _ _ H)].
  intros (j & Hj & Hlv). exists j. split; [by apply last_before_next|done].
Qed.

Lemma checklist_from_spec rest : ∀ n level,
  drop n ls = rest → open_section n level →
  (∀ k, (k < n)%nat → ¬ closes ls k) → (∀ k, (k < n)%nat → in_checklist ls k → item_at ls k = None) →
  first_item ls (in_checklist ls) (checklist_from level rest).
Proof.
  induction rest as [|line rest IH]; intros n level Hd Ho Hc Hnone; [by apply (first_item_end _ n)|].
  destruct (lookup_of_drop _ _ _ _ Hd) as [Hl Hd']. cbn [checklist_from].
  pose proof (checklist_header_at n line Hl) as Hch. pose proof (header_at n line Hl) as Hh.
  destruct (is_section_header line TASK_CHECKLIST).
  { apply (IH (S n)); [done| | |].
    - exists n. split; [apply last_before_here; naive_solver|]. unfold level_at. by rewrite Hl.
    - apply (none_next _ _ Hc). intros (_ & Hno & _). naive_solver.
    - apply (none_next _ _ Hnone). intros (Hno & _). naive_solver. }
  assert (¬ checklist_header ls n) as Hno by naive_solver.
  pose proof (open_next n level Hno Ho) as Ho'.
  destruct level as [lv|]; simpl in Ho.
  - destruct Ho as (j & Hj & Hlv).
    assert (closes ls n ↔ is_any_header line && (header_level line <=? lv)%nat = true) as Hcl.
    { rewrite andb_true_iff, Nat.leb_le, <- Hh, <- Hlv. unfold closes.
      replace (header_level line) with (level_at ls n) by (unfold level_at; by rewrite Hl). split.
      - intros (? & _ & j' & Hj' & ?). by rewrite (last_before_unique _ _ _ _ Hj Hj').
      - intros [? ?]. split_and!; [done|done|by exists j]. }
    destruct (_ && _).
    + intros i Hi. destruct (decide (i < n)%nat); [by apply Hnone|]. destruct Hi as (_ & _ & Hi).
      destruct (Hi n ltac:(lia)). by apply Hcl.
    + assert (¬ closes ls n) as Hc' by naive_solver. pose proof (none_next _ _ Hc Hc') as Hcs.
      assert (in_checklist ls n) as Hin.
      { split_and!; [done|exists j; destruct Hj as (? & ? & _); done|]. intros k Hk. apply Hcs. lia. }
      destruct (parse_checkbox_item (trim_start line)) as [item|] eqn:Hi.
      * exists n. rewrite (item_at_line n line Hl). split_and!; done.
      * apply (IH (S n)); [done..|]. apply (none_next _ _ Hnone). intros _. by rewrite (item_at_line n line Hl).
  - apply (IH (S n)); [done|done|apply (none_next _ _ Hc)|apply (none_next _ _ Hnone)].
    + intros (_ & _ & j & (? & ? & _) & _). by eapply Ho.
    + intros (_ & (j & ? & ?) & _). exfalso. by eapply Ho.
Qed.

(** Whether the nearest header above line [n] excludes what follows it. *)
Definition nearest_header (n : nat) (excluded : bool) : Prop :=
  (∃ j l, last_before (header ls) n j ∧ ls !! j = Some l ∧ is_excluded l = excluded) ∨
  ((∀ j, (j < n)%nat → ¬ header ls j) ∧ excluded = false).

Lemma unchecked_from_spec rest : ∀ n excluded,
  drop n ls = rest → nearest_header n excluded →
  (∀ k, (k < n)%nat → not_excluded ls k → item_at ls k = None) →
  first_item ls (not_excluded ls) (unchecked_from excluded rest).
Proof.
  induction rest as [|line rest IH]; intros n ex Hd Ho Hnone; [by apply (first_item_end _ n)|].
  destruct (lookup_of_drop _ _ _ _ Hd) as [Hl Hd']. cbn [unchecked_from].
  pose proof (header_at n line Hl) as Hh. destruct (is_any_header line).
  { apply (IH (S n)); [done| |].
    - left. exists n, line. split_and!; [apply last_before_here; naive_solver|done..].
    - apply (none_next _ _ Hnone). intros (Hno & _). naive_solver. }
  assert (¬ header ls n) as Hno by naive_solver.
  assert (nearest_header (S n) ex) as Ho'.
  { destruct Ho as [(j & l & Hj & ? & ?)|[Ho ->]]; [left|right].
    - exists j, l. split_and!; [by apply last_before_next|done..].
    - split; [by apply (none_next _ _ Ho)|done]. }
  assert (not_excluded ls n ↔ ex = false) as Hv.
  { destruct Ho as [(j & l & Hj & Hlj & <-)|[Ho ->]]; split.
    - intros (_ & H). by eapply H.
    - intros H. split; [done|]. intros j' l' Hj'. rewrite <- (last_before_unique _ _ _ _ Hj Hj'). naive_solver.
    - done.
    - intros _. split; [done|]. intros j' l' (? & ? & _). exfalso. by eapply Ho. }
  destruct ex.
  - apply (IH (S n)); [done..|]. apply (none_next _ _ Hnone). naive_solver.
  - destruct (parse_checkbox_item (trim_start line)) as [item|] eqn:Hi.
    + exists n. rewrite (item_at_line n line Hl). naive_solver.
    + apply (IH (S n)); [done..|]. apply (none_next _ _ Hnone). intros _. by rewrite (item_at_line n line Hl).
Qed.

Lemma first_item_ext V W a : (∀ i, V i ↔ W i) → first_item ls V a → first_item ls W a.
Proof. intros H. destruct a; simpl; [|naive_solver]. intros (i & ? & ? & ?). exists i. naive_solver. Qed.
End visible_lemmas.

Lemma extract_spec body :
  first_item (lines body) (visible (lines body)) (extract_first_unchecked body).
Proof.
  unfold extract_first_unchecked, first_unchecked_in_checklist. set (ls := lines body).
  destruct (existsb _ ls) eqn:He.
  - apply existsb_exists in He as (l & Hl & Hc). apply list_elem_of_In, list_elem_of_lookup in Hl as [j Hj].
    assert (checklist_header ls j) by (by exists l).
    apply (first_item_ext ls (in_checklist ls)); [|apply (checklist_from_spec ls ls 0); simpl; done || lia].
    intros i. unfold visible. naive_solver.
  - assert (∀ j, ¬ checklist_header ls j) as Hno.
    { intros j (l & Hj & Hc). apply not_true_iff_false in He. apply He, existsb_exists. exists l. split; [|done].
      apply list_elem_of_In, list_elem_of_lookup. by exists j. }
    apply (first_item_ext ls (not_excluded ls)).
    { intros i. unfold visible. naive_solver. }
    apply (unchecked_from_spec ls ls 0); [done| |lia]. right. split; [lia|done].
Qed.

(** What is mined.  The answer is the item of the first line that counts
    and holds an unchecked box with a text.  Where the plan has a checklist,
    the lines that count are those after its heading and before a header that
    is no deeper; where it has none, those whose nearest header is not the
    heading of the non-goals or of the deviations.  No answer means that no
    such line has an item. *)
Theorem extract_first_unchecked_spec body :
  first_item (lines body) (visible (lines body)) (extract_first_unchecked body).
Proof. exact (extract_spec body). Qed.

(** * What the cap leaves *)

Lemma split_at_last_spec c bs :
  match split_at_last c bs with Some (x, y) => bs = x ++ c :: y | None => c ∉ bs end.
Proof.
  induction bs as [|b bs IH]; simpl; [set_solver|]. destruct (split_at_last c bs) as [[x y]|]; [by rewrite IH|].
  destruct (Z.eqb_spec b c) as [->|]; [done|set_solver].
Qed.

Lemma trim_start_snoc s w :
  is_whitespace w = true → trim_start (s ++ [w]) = if is_empty (trim_start s) then [] else trim_start s ++ [w].
Proof. intros Hw. induction s as [|c s IH]; simpl; [by rewrite Hw|]. by destruct (is_whitespace c). Qed.

Lemma trim_snoc s w : is_whitespace w = true → trim (s ++ [w]) = trim s.
Proof.
  intros Hw. unfold trim. rewrite trim_start_snoc by done.
  destruct (trim_start s) as [|c t] eqn:E; [done|]. cbn [is_empty]. unfold trim_end. by rewrite reverse_snoc; simpl; rewrite Hw.
Qed.

Lemma strip_prefix_snoc p s w : w ∉ p → strip_prefix p (s ++ [w]) = (λ r, r ++ [w]) <$> strip_prefix p s.
Proof.
  revert s. induction p as [|a p IH]; intros s Hw; [by destruct s|].
  destruct s as [|b s]; cbn [app strip_prefix].
  - rewrite (proj2 (Z.eqb_neq a w)); [done|set_solver].
  - destruct (a =? b); [apply IH; set_solver|done].
Qed.

(** The carriage return that a line keeps where the text was cut. *)
Lemma item_of_cr l : parse_checkbox_item (trim_start (l ++ [13])) = parse_checkbox_item (trim_start l).
Proof.
  rewrite trim_start_snoc by done. destruct (trim_start l) as [|c t]; [done|]. cbn [is_empty].
  set (box := λ r, x ← strip_prefix (lit "[ ]") (trim_start r); if is_empty (trim x) then None else Some (trim x)).
  assert (∀ r, box (r ++ [13]) = box r) as Hbox.
  { intros r. unfold box. rewrite trim_start_snoc by done. destruct (trim_start r) as [|d u]; [done|]. cbn [is_empty].
    rewrite strip_prefix_snoc by (intros H; vm_compute in H; set_solver).
    destruct (strip_prefix _ (d :: u)) as [x|]; [|done].
    change ((if is_empty (trim (x ++ [13])) then None else Some (trim (x ++ [13])))
            = (if is_empty (trim x) then None else Some (trim x))). by rewrite trim_snoc. }
  unfold parse_checkbox_item, strip_bullet_marker.
  rewrite !strip_prefix_snoc by (intros H; vm_compute in H; set_solver).
  destruct (strip_prefix (lit "- ") _) as [r|]; [exact (Hbox r)|].
  destruct (strip_prefix (lit "* ") _) as [r|]; [exact (Hbox r)|].
  destruct (strip_prefix (lit "+ ") _) as [r|]; [exact (Hbox r)|done].
Qed.

(** [lines] without the last piece of the text. *)
Definition drop_cr (l : rstr) : rstr :=
  match last l with Some c => if c =? 13 then removelast l else l | None => l end.

Lemma drop_cr_item l : parse_checkbox_item (trim_start (drop_cr l)) = parse_checkbox_item (trim_start l).
Proof.
  unfold drop_cr. destruct (last l) as [c|] eqn:Hl; [|done]. destruct (Z.eqb_spec c 13) as [->|]; [|done].
  apply last_Some in Hl as [l' ->]. by rewrite removelast_last, item_of_cr.
Qed.

Lemma unterminated_pieces ps l : l ∈ unterminated ps → ∃ p, p ∈ ps ∧ (l = p ∨ l = drop_cr p).
Proof.
  induction ps as [|p ps IH]; [set_solver|]. destruct ps as [|p' ps].
  - simpl. destruct (is_empty p); [set_solver|]. intros ->%list_elem_of_singleton. exists p. set_solver.
  - change (unterminated (p :: p' :: ps)) with (drop_cr p :: unterminated (p' :: ps)). intros [->|H]%elem_of_cons.
    + exists p. set_solver.
    + destruct (IH H) as (q & ? & ?). exists q. set_solver.
Qed.

Lemma unterminated_front ps qs p : qs ≠ [] → p ∈ ps → drop_cr p ∈ unterminated (ps ++ qs).
Proof.
  intros Hqs. induction ps as [|q ps IH]; [set_solver|]. intros Hp. destruct (ps ++ qs) as [|r rs] eqn:E.
  { by apply app_eq_nil in E as [_ ?]. }
  change (unterminated ((q :: ps) ++ qs)) with (unterminated (q :: (ps ++ qs))). rewrite E.
  change (drop_cr p ∈ drop_cr q :: unterminated (r :: rs)). apply elem_of_cons in Hp as [->|Hp]; [by left|].
  right. by apply IH.
Qed.

Lemma split_char_break sep x y : split_char sep (x ++ sep :: y) = split_char sep x ++ split_char sep y.
Proof.
  induction x as [|c x IH]; simpl; [by rewrite Z.eqb_refl|]. destruct (c =? sep); [by rewrite IH|].
  rewrite IH. destruct (split_char sep x) eqn:E; [|done]. destruct x; simpl in E; repeat case_match; done.
Qed.

(** A line before a line feed is a line of the whole, up to its carriage return. *)
Lemma whole_line_item x y l item :
  l ∈ lines x → parse_checkbox_item (trim_start l) = Some item →
  ∃ l', l' ∈ lines (x ++ 10 :: y) ∧ parse_checkbox_item (trim_start l') = Some item.
Proof.
  unfold lines. intros (p & Hp & Hl)%unterminated_pieces Hi. exists (drop_cr p). split.
  - rewrite split_char_break. apply unterminated_front; [|done]. destruct y as [|c y]; simpl; [done|]. by repeat case_match.
  - rewrite drop_cr_item. destruct Hl as [->| ->]; [done|]. by rewrite <- drop_cr_item.
Qed.

Lemma extracted_line body item :
  extract_first_unchecked body = Some item → ∃ l, l ∈ lines body ∧ parse_checkbox_item (trim_start l) = Some item.
Proof.
  intros H. pose proof (extract_spec body) as Hs. rewrite H in Hs. destruct Hs as (i & _ & Hi & _).
  unfold item_at in Hi. destruct (lines body !! i) as [l|] eqn:Hl; [|done]. exists l.
  split; [by eapply list_elem_of_lookup_2|done].
Qed.

(** The cap.  A text of less than 8 KiB is mined whole.  Of any file
    whose first 8 KiB hold the end of a line, the item is that of a whole line
    of the file, never of one that the cap cut. *)
Theorem plan_item_whole_line :
  (∀ s, Forall scalar s → byte_len s < 8192 →
     first_unchecked_plan_item (Some (as_bytes s)) = extract_first_unchecked s) ∧
  (∀ bs item, (length bs < MAX_READ_BYTES)%nat ∨ 10 ∈ take MAX_READ_BYTES bs →
     first_unchecked_plan_item (Some bs) = Some item →
     ∃ l, l ∈ lines (from_utf8_lossy bs) ∧ parse_checkbox_item (trim_start l) = Some item).
Proof.
  unfold first_unchecked_plan_item, read_capped. split.
  - intros s Hs Hlen. cbn. assert (length (as_bytes s) < MAX_READ_BYTES)%nat as Hl.
    { pose proof (as_bytes_length s). unfold zlen, MAX_READ_BYTES in *. lia. }
    rewrite take_ge by lia. rewrite (proj2 (Nat.leb_gt _ _)) by done.
    rewrite <- (app_nil_r (as_bytes s)), lossy_as_bytes by done. by rewrite app_nil_r.
  - intros bs item Hcap. cbn. rewrite length_take. destruct (Nat.leb_spec MAX_READ_BYTES (MAX_READ_BYTES `min` length bs)).
    + destruct Hcap as [?|Hin]; [lia|]. pose proof (split_at_last_spec 10 (take MAX_READ_BYTES bs)) as Hsp.
      destruct (split_at_last 10 _) as [[x y]|]; [|done]. intros (l & Hl & Hi)%extracted_line.
      rewrite <- (take_drop MAX_READ_BYTES bs), Hsp, <- app_assoc. cbn [app]. rewrite lossy_newline.
      by apply (whole_line_item _ _ l).
    + rewrite take_ge by lia. apply extracted_line.
Qed.

Definition demo_plan : rstr :=
  lit "# Plan" ++ [10] ++ lit "- [x] scaffold" ++ [10] ++ lit "- [ ] wire input" ++ [13; 10] ++ lit "- [ ] ship it" ++ [10].

Lemma plan_item_whole_line_witness :
  first_unchecked_plan_item (Some (as_bytes demo_plan)) = Some (lit "wire input") ∧
  ∃ l, l ∈ lines (from_utf8_lossy (as_bytes demo_plan)) ∧ parse_checkbox_item (trim_start l) = Some (lit "wire input").
Proof.
  assert (first_unchecked_plan_item (Some (as_bytes demo_plan)) = Some (lit "wire input")) as H by reflexivity.
  split; [exact H|]. apply (proj2 plan_item_whole_line); [|exact H]. left. apply Nat.ltb_lt. reflexivity.
Defined.

(** * What the code does against its comments *)

(** A header under the heading of the non-goals ends their exclusion, though
    in a checklist a deeper header does not end the section. *)
Lemma non_goal_subsection_mined :
  extract_first_unchecked (lit "## Non-goals" ++ [10] ++ lit "### Later" ++ [10] ++ lit "- [ ] rewrite the backend" ++ [10])
  = Some (lit "rewrite the backend").
Proof. reflexivity. Qed.

(** A line longer than the cap is surfaced cut. *)
Lemma long_line_cut :
  first_unchecked_plan_item (Some (lit "- [ ] " ++ replicate (Z.to_nat 9000) 121)) = Some (replicate (Z.to_nat 8186) 121).
Proof. vm_compute. reflexivity. Qed.
