(* ===== verification/GoalLoopThms.v ===== *)
(** Relations that the goal loop keeps.  A relation between the world before
    and the world after is an instance of [LoopRel] when the loop's primitive
    steps keep it; then every operation of the loop does, but for the few that
    the lemmas name as premises.  [GoalLoopBounds] and [GoalLoopSafety] are
    instances. *)
From S2P Require Import Prelude Str Path GoalTracker GoalTrackerThms GoalPanel GoalPanelThms GoalLoop.

Lemma loop_bind_run {A B} (m : L A) (k : A → L B) w : (x ← m; k x) w = k (m w).1 (m w).2.
Proof. apply st_bind_run. Qed.

Definition goal_of (w : LWorld) : option GoalOrchestration := orchestration (tracker (base (lpanel w))).

(** * Relations kept by the loop *)

(** [m] relates the world before to the world after. *)
Definition keeps {A} (R : relation LWorld) (m : L A) : Prop := ∀ w, R w (m w).2.

(** A change of the goal that the lifecycle and the limits do not see: it can
    only take the bonus away and raise the high-water mark. *)
Record minor (o o' : GoalOrchestration) : Prop := {
  minor_status : status o' = status o;
  minor_message : pause_message o' = pause_message o;
  minor_budget : token_budget o' = token_budget o;
  minor_attempts : classifier_runs_attempted o' = classifier_runs_attempted o;
  minor_bonus : strategist_cap_bonus o' = strategist_cap_bonus o ∨ strategist_cap_bonus o' = 0;
  minor_tokens : tokens_used_high_water o ≤ tokens_used_high_water o';
}.

Lemma minor_refl o : minor o o.
Proof. split; [done..|by left|done]. Qed.

(** A change of fields that are none of these. *)
Ltac minor := by split; [..|left|].

(** Two trackers that differ by a minor change; the timer runs or does not. *)
Definition minor_tracker (t t' : GoalTracker) : Prop :=
  option_Forall2 minor (orchestration t) (orchestration t') ∧ (is_Some (active_since t') ↔ is_Some (active_since t)).

Lemma minor_tracker_refl t : minor_tracker t t.
Proof. split; [|done]. destruct (orchestration t); constructor. apply minor_refl. Qed.

Lemma minor_trans o1 o2 o3 : minor o1 o2 → minor o2 o3 → minor o1 o3.
Proof. intros [] []. split; try congruence; [|lia]. naive_solver congruence. Qed.

Lemma minor_tracker_trans t1 t2 t3 : minor_tracker t1 t2 → minor_tracker t2 t3 → minor_tracker t1 t3.
Proof.
  intros [H1 I1] [H2 I2]. split; [|by rewrite I2].
  destruct H1 as [a b Hab|]; inversion H2; subst; constructor. by eapply minor_trans.
Qed.

(** A computation of the tracker that makes at most a minor change. *)
Definition minor_step {A} (m : M A) : Prop := ∀ w, minor_tracker (tracker w) (tracker (m w).2).

(** What the loop says without a panel. *)
Definition not_panel (e : LoopEvent) : Prop := match e with LPanel _ _ => False | _ => True end.

Abbreviation tracker_of w := (tracker (base (lpanel w))).

(** A relation that the primitive steps of the loop keep. *)
Class LoopRel (le : LoopEnv) (R : relation LWorld) : Prop := {
  lr_refl : Reflexive R;
  lr_trans : Transitive R;
  lr_query w : R w (w <| ticks ::= S |>);
  lr_say e : not_panel e → keeps R (say e);
  lr_await : keeps R (await le);
  lr_minor w p :
    spawns (lpanel w) `prefix_of` spawns p → minor_tracker (tracker_of w) (tracker (base p)) →
    R w (w <| lpanel := p |>);
  lr_stop op : match op with OPause _ _ | OBudgetLimit => True | _ => False end →
               keeps R (on_tracker (step (penv (lpe le)) (ldir le) op));
}.

Lemma minor_with_goal f : (∀ o, minor o (f o)) → minor_step (with_goal f).
Proof. intros Hf w. simpl. split; [|done]. destruct (orchestration (tracker w)); simpl; constructor. apply Hf. Qed.

Lemma untouched_minor {A} (m : M A) : untouched m → minor_step m.
Proof. intros Hm w. rewrite Hm. apply minor_tracker_refl. Qed.

Lemma minor_bind {A B} (m : M A) (k : A → M B) : minor_step m → (∀ a, minor_step (k a)) → minor_step (a ← m; k a).
Proof. intros Hm Hk w. rewrite goal_bind_run. eapply minor_tracker_trans; [apply Hm|apply Hk]. Qed.

Lemma minor_account env : minor_step (account_elapsed env).
Proof.
  unfold account_elapsed. intros w. rewrite goal_bind_run. cbn [fst snd get_tracker].
  destruct (orchestration (tracker w)) as [o|] eqn:Eo; [|apply minor_tracker_refl].
  destruct (active_since (tracker w)) as [i|] eqn:Ea; [|apply minor_tracker_refl].
  unfold minor_tracker. simpl. rewrite Eo, Ea. split; [|by split; eauto]. constructor. by split; [..|left|].
Qed.

Section kept.
Context (le : LoopEnv) (R : relation LWorld) `{!LoopRel le R}.
#[local] Existing Instance lr_refl.
#[local] Existing Instance lr_trans.

Lemma keeps_ret {A} (a : A) : keeps R (mret a).
Proof. intros w. apply (lr_refl (le := le)). Qed.

Lemma keeps_bind {A B} (m : L A) (k : A → L B) : keeps R m → (∀ a, keeps R (k a)) → keeps R (a ← m; k a).
Proof. intros Hm Hk w. rewrite loop_bind_run. etrans; [apply Hm|apply Hk]. Qed.

Lemma keeps_query {A} (f : nat → A) : keeps R (query f).
Proof. intros w. apply (lr_query (le := le)). Qed.

Lemma keeps_say e : not_panel e → keeps R (say e).
Proof. apply lr_say. Qed.

Lemma on_panel_world {A} (m : P A) w : (on_panel m w).2 = w <| lpanel := (m (lpanel w)).2 |>.
Proof. unfold on_panel. by destruct (m (lpanel w)). Qed.

Lemma on_panel_answer {A} (m : P A) w : (on_panel m w).1 = (m (lpanel w)).1.
Proof. unfold on_panel. by destruct (m (lpanel w)). Qed.

Lemma on_tracker_world {A} (m : M A) w : tracker_of (on_tracker m w).2 = tracker (m (base (lpanel w))).2.
Proof. unfold on_tracker. rewrite on_panel_world. unfold on_base. by destruct (m _). Qed.

Lemma on_tracker_base {A} (m : M A) w : base (lpanel (on_tracker m w).2) = (m (base (lpanel w))).2.
Proof. unfold on_tracker. rewrite on_panel_world. cbn. unfold on_base. by destruct (m _). Qed.

Lemma goal_of_with f w : goal_of (on_tracker (with_goal f) w).2 = f <$> goal_of w.
Proof. unfold goal_of. by rewrite on_tracker_world. Qed.

Lemma goal_of_untouched {A} (m : M A) w : untouched m → goal_of (on_tracker m w).2 = goal_of w.
Proof. intros Hm. unfold goal_of. by rewrite on_tracker_world, Hm. Qed.

Lemma keeps_panel {A} (m : P A) :
  extends m → (∀ w, tracker (base (m w).2) = tracker (base w)) → keeps R (on_panel m).
Proof.
  intros He Hm w. rewrite on_panel_world. apply (lr_minor (le := le)); [by apply He|].
  rewrite Hm. apply minor_tracker_refl.
Qed.

Lemma on_base_spawns {A} (m : M A) p : spawns (on_base m p).2 = spawns p.
Proof. unfold on_base. by destruct (m (base p)). Qed.

Lemma keeps_minor {A} (m : M A) : minor_step m → keeps R (on_tracker m).
Proof.
  intros Hm w. unfold on_tracker. rewrite on_panel_world. apply (lr_minor (le := le)); [by rewrite on_base_spawns|].
  unfold on_base. pose proof (Hm (base (lpanel w))) as Ht. by destruct (m _).
Qed.

Lemma keeps_untouched {A} (m : M A) : untouched m → keeps R (on_tracker m).
Proof. intros Hm. by apply keeps_minor, untouched_minor. Qed.

Lemma keeps_get : keeps R (on_tracker get_goal).
Proof. by apply keeps_untouched. Qed.

Lemma keeps_with_goal f : (∀ o, minor o (f o)) → keeps R (on_tracker (with_goal f)).
Proof. intros Hf. by apply keeps_minor, minor_with_goal. Qed.

Lemma keeps_put o o' w :
  goal_of w = Some o → minor o o' → R w (on_tracker (put_goal (Some o')) w).2.
Proof.
  intros Ho Hm. unfold on_tracker. rewrite on_panel_world. apply (lr_minor (le := le)); [done|].
  unfold goal_of in Ho. split; [|done]. simpl. rewrite Ho. by constructor.
Qed.

Lemma keeps_status : keeps R goal_status.
Proof. apply keeps_bind; [apply keeps_get|]. intros g. apply keeps_ret. Qed.

Lemma keeps_total : keeps R (get_total_tokens le).
Proof. apply keeps_bind; [apply (lr_await (le := le))|]. intros _. apply keeps_query. Qed.

Lemma keeps_persist : keeps R persist_goal_state.
Proof. apply keeps_bind; [apply keeps_get|]. intros [o|]; [by apply keeps_say|apply keeps_ret]. Qed.

Lemma keeps_emit t f : keeps R (emit_goal_updated le t f).
Proof.
  apply keeps_bind; [by apply keeps_minor, minor_account|]. intros _.
  apply keeps_bind; [apply keeps_get|]. intros [o|]; [|apply keeps_ret].
  apply keeps_bind; [by apply keeps_say|]. intros _. by apply keeps_say.
Qed.

(** What is done with the goal that is read. *)
Lemma get_goal_run {A} (k : option GoalOrchestration → L A) w : (g ← on_tracker get_goal; k g) w = k (goal_of w) w.
Proof. rewrite loop_bind_run. by destruct w as [[[] ? ? ?] ? ?]. Qed.

Lemma minor_ratchet c s o : minor o (ratchet c s o).
Proof. unfold ratchet. case_match; (split; [done..|by left|]); simpl; lia. Qed.

(** Reading the tokens puts back what it read, but for the ratchet. *)
Lemma goal_tokens_run c w :
  goal_tokens le c w =
    match goal_of w with
    | None => ((0, 0), w)
    | Some o =>
        let '(sum, fin) := fold_records (goal_id o) (token_records le (ticks w)) in
        let o' := ratchet c sum o in
        ((tokens_used_high_water o', fin), (on_tracker (put_goal (Some o')) (w <| ticks ::= S |>)).2)
    end.
Proof.
  unfold goal_tokens. rewrite get_goal_run. destruct (goal_of w) as [o|]; [|done]. rewrite loop_bind_run. cbn [fst snd query].
  destruct (fold_records _ _) as [sum fin]. by rewrite loop_bind_run.
Qed.

Lemma keeps_tokens c : keeps R (goal_tokens le c).
Proof.
  intros w. rewrite goal_tokens_run. destruct (goal_of w) as [o|] eqn:Ho; [|apply (lr_refl (le := le))].
  destruct (fold_records _ _) as [sum fin]. cbn [snd].
  etrans; [apply (lr_query (le := le))|]. by eapply keeps_put, minor_ratchet.
Qed.

Lemma keeps_enforce c : keeps R (enforce_goal_token_budget le c).
Proof.
  apply keeps_bind; [apply keeps_tokens|]. intros [t f]. apply keeps_bind; [apply keeps_get|]. intros g.
  destruct (o ← g; token_budget o) as [b|]; [|apply keeps_ret]. case_match; [apply keeps_ret|].
  apply keeps_bind; [by apply (lr_stop OBudgetLimit)|]. intros _. apply keeps_bind; [by apply keeps_say|]. intros _.
  apply keeps_bind; [apply keeps_emit|]. intros _. apply keeps_bind; [by apply keeps_say|]. intros _.
  apply keeps_bind; [apply (lr_await (le := le))|]. intros _. apply keeps_ret.
Qed.

Lemma keeps_pause r msg : keeps R (auto_pause_goal_if_active_inner le r msg).
Proof.
  apply keeps_bind; [apply keeps_total|]. intros c. apply keeps_bind; [apply keeps_status|]. intros s.
  case_match; [apply keeps_ret|]. apply keeps_bind.
  { pose proof (lr_stop (le := le) (R := R) (OPause r msg) I) as Hp. by destruct msg. }
  intros _. apply keeps_bind; [by apply keeps_say|]. intros _. apply keeps_bind; [apply keeps_tokens|]. intros [t f].
  apply keeps_bind; [apply keeps_emit|]. intros _. apply keeps_bind; [by apply keeps_say|]. intros _. apply keeps_ret.
Qed.

Lemma keeps_cap a d p : keeps R (auto_pause_for_classifier_cap le a d p).
Proof.
  apply keeps_bind; [by apply keeps_say|]. intros _. apply keeps_bind; [apply keeps_pause|]. intros _. apply keeps_ret.
Qed.

Lemma keeps_stall d p : keeps R (auto_pause_for_classifier_stall le d p).
Proof. apply keeps_bind; [apply keeps_pause|]. intros _. apply keeps_ret. Qed.

Lemma keeps_blocked d p : keeps R (auto_pause_for_classifier_blocked le d p).
Proof. apply keeps_bind; [apply keeps_pause|]. intros _. apply keeps_ret. Qed.

Lemma keeps_attempts tries attempt e : keeps R (evaluate_attempts le tries attempt e).
Proof.
  revert attempt e. induction tries as [|tries IH]; intros attempt e; [apply keeps_ret|]. cbn [evaluate_attempts].
  apply keeps_bind; [apply keeps_query|]. intros reply. apply keeps_bind; [apply (lr_await (le := le))|]. intros _.
  destruct reply; try (apply keeps_bind; [by apply keeps_say|intros _]; apply IH); [apply IH|].
  destruct (parse_goal_evaluator_verdict le text); [apply keeps_ret|apply IH].
Qed.

Lemma keeps_evaluate : keeps R (evaluate_goal_round le).
Proof.
  apply keeps_bind; [apply keeps_get|]. intros [o|]; [|apply keeps_ret].
  apply keeps_bind; [apply (lr_await (le := le))|]. intros _. apply keeps_attempts.
Qed.

Lemma keeps_progress det f : keeps R (record_goal_round_progress le det f).
Proof.
  apply keeps_bind; [apply keeps_get|]. intros g.
  apply keeps_bind; [apply keeps_with_goal; intros ?; minor|]. intros _.
  apply keeps_bind; [by apply keeps_untouched|]. intros e. apply keeps_with_goal. intros ?. minor.
Qed.

Lemma keeps_verdict v d g : keeps R (record_verdict_on_orchestration le v d g).
Proof.
  apply keeps_bind; [apply keeps_get|]. intros [o|]; [|apply keeps_ret].
  apply keeps_bind; [by apply keeps_untouched|]. intros t. apply keeps_with_goal. intros o'.
  destruct d, g; minor.
Qed.

Lemma keeps_policy : keeps R (resolve_goal_classifier_policy le).
Proof. apply keeps_bind; [apply keeps_get|]. intros g. apply keeps_ret. Qed.

Lemma keeps_verifying c : keeps R (emit_goal_verifying le c).
Proof.
  apply keeps_bind; [apply keeps_query|]. intros h. case_match; [apply keeps_ret|].
  apply keeps_bind; [apply keeps_tokens|]. intros [t f].
  apply keeps_bind; [by apply keeps_minor, minor_account|]. intros _.
  apply keeps_bind; [apply keeps_with_goal; intros ?; minor|]. intros _.
  apply keeps_bind; [apply keeps_get|]. intros [o|]; [by apply keeps_say|apply keeps_ret].
Qed.

Lemma keeps_stage attempt m : keeps R (run_verification_stage_for_drain le attempt m).
Proof.
  pose proof (lr_await (le := le) (R := R)) as Ha.
  apply keeps_bind; [apply keeps_get|]. intros [o|]; [|apply keeps_ret].
  apply keeps_bind; [done|]. intros _. apply keeps_bind; [apply keeps_query|]. intros cur.
  apply keeps_bind; [done|]. intros _. case_match; [apply keeps_ret|].
  apply keeps_bind; [done|]. intros _. apply keeps_bind.
  { case_match; [apply keeps_ret|]. apply keeps_bind; [|done]. apply keeps_with_goal. intros ?. minor. }
  intros _. apply keeps_bind.
  { apply keeps_panel; [intros l; apply (kept_stage (lpe le) _)|]. intros w.
    by apply (kept_stage (lpe le) (λ w', tracker (base w') = tracker (base w))). }
  intros r. apply keeps_bind; [done|]. intros _. apply keeps_bind; [|intros; apply keeps_ret].
  case_match; [|apply keeps_ret]. apply keeps_with_goal. intros o'. case_match; minor.
Qed.

Lemma keeps_revoke : keeps R (on_tracker revoke_strategist_cap_bonus).
Proof. apply keeps_with_goal. by split; [..|right|]. Qed.

Lemma keeps_strategist a c : keeps R (maybe_run_goal_strategist le a c).
Proof.
  unfold maybe_run_goal_strategist. case_match; [apply keeps_revoke|].
  apply keeps_bind; [apply keeps_get|]. intros [o|]; [|apply keeps_revoke].
  apply keeps_bind; [by apply keeps_say|]. intros _. apply keeps_bind; [apply (lr_await (le := le))|]. intros _.
  apply keeps_bind; [apply keeps_query|]. intros [[f r]|]; [|apply keeps_revoke].
  apply keeps_with_goal. intros ?. minor.
Qed.

Lemma keeps_summarizer : keeps R (maybe_run_goal_summarizer le).
Proof.
  unfold maybe_run_goal_summarizer. case_match; [apply keeps_ret|].
  apply keeps_bind; [apply keeps_get|]. intros [o|]; [|apply keeps_ret].
  apply keeps_bind; [apply (lr_await (le := le))|]. intros _.
  apply keeps_bind; [apply keeps_query|]. intros [t|]; [|apply keeps_ret].
  apply keeps_bind; [by apply keeps_say|]. intros _. apply (lr_await (le := le)).
Qed.

Lemma keeps_laziness : keeps R (laziness_injection_active le).
Proof.
  apply keeps_bind; [apply keeps_query|]. intros h. apply keeps_bind; [apply keeps_status|]. intros s. apply keeps_ret.
Qed.

Lemma keeps_premature p : keeps R (record_and_emit_premature_stop le p).
Proof.
  apply keeps_bind; [by apply keeps_untouched|]. intros e.
  apply keeps_bind; [apply keeps_with_goal; intros ?; minor|]. intros _. by apply keeps_say.
Qed.

Lemma keeps_consume r : keeps R (consume_strategist_note r).
Proof. apply keeps_with_goal. intros o. case_match; minor. Qed.

Lemma keeps_get_then {A} (k : option GoalOrchestration → L A) :
  (∀ w, R w (k (goal_of w) w).2) → keeps R (g ← on_tracker get_goal; k g).
Proof. intros Hk w. rewrite get_goal_run. apply Hk. Qed.

Lemma minor_update {A} (k : option GoalOrchestration → M A) :
  (∀ o, (∃ a, k o = mret a) ∨ ∃ g o' a, o = Some g ∧ k o = (_ ← put_goal (Some o'); mret a) ∧ minor g o') →
  minor_step (o ← get_goal; k o).
Proof.
  intros Hk w. rewrite goal_bind_run. cbn [fst snd get_goal].
  destruct (Hk (orchestration (tracker w))) as [[a ->]|(g & o' & a & Hg & -> & Ho)]; [apply minor_tracker_refl|].
  rewrite goal_bind_run. unfold minor_tracker. simpl. rewrite Hg. split; [by constructor|done].
Qed.

Lemma keeps_blocker_streak key : keeps R (on_tracker (record_evaluator_blocker key)).
Proof.
  apply keeps_minor, minor_update. intros [o|]; [right|left; by eexists]. eexists o, _, _. split_and!; [done|done|]. minor.
Qed.

Lemma keeps_reset_blocker : keeps R (on_tracker reset_evaluator_blocker).
Proof. apply keeps_with_goal. intros o. minor. Qed.

Lemma keeps_prepare c : keeps R (prepare_goal_continuation le c).
Proof.
  pose proof (lr_await (le := le) (R := R)) as Ha.
  apply keeps_bind; [apply keeps_laziness|]. intros b. case_match; [apply keeps_ret|].
  apply keeps_bind; [done|]. intros _. apply keeps_bind; [apply keeps_query|]. intros p.
  apply keeps_bind.
  { destruct p; [|apply keeps_ret]. apply keeps_bind; [done|]. intros _.
    apply keeps_bind; [apply keeps_query|]. intros t. apply keeps_ret. }
  intros p'. apply keeps_bind; [apply keeps_tokens|]. intros [t f]. apply keeps_bind; [apply keeps_enforce|].
  intros over. case_match; [apply keeps_ret|]. apply keeps_bind; [apply keeps_emit|]. intros _.
  apply keeps_bind; [done|]. intros _. apply keeps_bind; [apply keeps_minor, minor_account|]. intros _.
  apply keeps_get_then. intros w. destruct (goal_of w) as [o|] eqn:Ho; [|apply keeps_ret].
  rewrite loop_bind_run. etrans; [apply (keeps_put o (o <| rounds_since_verify ::= λ n, sat_add 32 n 1 |>) w Ho); minor|].
  rewrite loop_bind_run. apply keeps_query.
Qed.

(** ** What is made of the outcome *)

Lemma keeps_streak : keeps R (on_tracker record_not_achieved_streak).
Proof. apply keeps_minor, minor_update. intros [o|]; [right|left; by eexists]. eexists o, _, _. split_and!; [done|done|]. minor. Qed.

Lemma keeps_stalled fp : keeps R (on_tracker (record_classifier_stall fp)).
Proof. apply keeps_minor, minor_update. intros [o|]; [right|left; by eexists]. eexists o, _, _. split_and!; [done|done|]. minor. Qed.

Lemma keeps_reset_strategist : keeps R (on_tracker reset_strategist_state).
Proof. apply keeps_with_goal. intros o. by split; [..|right|]. Qed.

Lemma keeps_rejected policy attempt d g p f :
  (∀ fire, keeps R (on_tracker (claim_strategist_fire fire))) →
  keeps R (apply_classifier_outcome le policy attempt (ONotAchieved d g p f)).
Proof.
  intros Hclaim. unfold apply_classifier_outcome. apply keeps_bind; [apply keeps_total|]. intros c.
  apply keeps_bind; [apply keeps_tokens|]. intros [t fin]. apply keeps_bind; [apply keeps_verdict|]. intros _.
  apply keeps_bind; [apply keeps_streak|]. intros n. case_match; [apply keeps_cap|].
  apply keeps_bind; [case_match; [apply keeps_ret|apply keeps_stalled]|]. intros b.
  case_match; [apply keeps_stall|]. apply keeps_bind; [apply Hclaim|]. intros claimed.
  apply keeps_bind; [|intros _; apply keeps_emit]. destruct claimed; [apply keeps_strategist|apply keeps_ret].
Qed.

Lemma keeps_impasse policy attempt d p :
  keeps R (on_tracker rollback_classifier_attempt) →
  keeps R (apply_classifier_outcome le policy attempt (OBlocked d p)).
Proof.
  intros Hback. unfold apply_classifier_outcome. apply keeps_bind; [apply keeps_total|]. intros c.
  apply keeps_bind; [apply keeps_tokens|]. intros [t fin]. apply keeps_bind; [apply keeps_verdict|]. intros _.
  apply keeps_bind; [exact Hback|]. intros _. apply keeps_bind; [apply keeps_with_goal; intros o; minor|]. intros _.
  apply keeps_bind; [apply keeps_reset_strategist|]. intros _. apply keeps_blocked.
Qed.

Lemma keeps_achieved policy attempt d :
  keeps R (on_tracker (complete (penv (lpe le)))) →
  keeps R (apply_classifier_outcome le policy attempt (OAchieved d)).
Proof.
  intros Hdone. unfold apply_classifier_outcome. apply keeps_bind; [apply keeps_total|]. intros c.
  apply keeps_bind; [apply keeps_tokens|]. intros [t fin]. apply keeps_bind; [apply keeps_verdict|]. intros _.
  apply keeps_bind; [apply keeps_reset_strategist|]. intros _. apply keeps_bind; [exact Hdone|]. intros _.
  apply keeps_bind; [apply keeps_emit|]. intros _. apply keeps_summarizer.
Qed.

Lemma keeps_failed_open policy attempt r d : keeps R (apply_classifier_outcome le policy attempt (OFailOpenAchieved r d)).
Proof.
  unfold apply_classifier_outcome. apply keeps_bind; [apply keeps_total|]. intros c.
  apply keeps_bind; [apply keeps_tokens|]. intros [t f]. apply keeps_ret.
Qed.

(** ** Given that verification keeps the relation *)


Section verified.
Hypothesis keeps_verify : keeps R (verify_goal_candidate le).

Lemma keeps_decision v : keeps R (apply_decision le v).
Proof.
  unfold apply_decision. destruct (decision v).
  - apply keeps_bind; [apply keeps_reset_blocker|]. intros _. apply keeps_bind; [apply keeps_persist|].
    intros _. apply keeps_progress.
  - apply keeps_bind; [apply keeps_reset_blocker|]. intros _. apply keeps_bind; [apply keeps_persist|].
    intros _. apply keeps_bind; [apply keeps_progress|]. done.
  - apply keeps_bind; [apply keeps_progress|]. intros _. apply keeps_bind; [apply keeps_blocker_streak|].
    intros n. apply keeps_bind; [apply keeps_persist|]. intros _. case_match; [apply keeps_ret|].
    apply keeps_bind; [apply keeps_pause|]. intros b. case_match; [|apply keeps_ret].
    apply keeps_bind; [by apply keeps_say|]. intros _. apply (lr_await (le := le)).
Qed.

Lemma keeps_round_end : keeps R (run_goal_round_end le).
Proof.
  apply keeps_bind; [apply keeps_laziness|]. intros b. case_match; [apply keeps_ret|].
  apply keeps_bind; [apply keeps_evaluate|]. intros [v|e].
  - apply keeps_bind; [apply keeps_total|]. intros c. apply keeps_bind; [apply keeps_enforce|].
    intros over. case_match; [apply keeps_ret|]. apply keeps_bind; [apply keeps_decision|]. intros _.
    apply keeps_bind; [apply keeps_status|]. intros s. case_match; [apply keeps_ret|].
    apply keeps_bind; [apply keeps_total|]. intros c'. apply keeps_bind; [apply keeps_prepare|].
    intros [p|]; [|apply keeps_ret].
    apply keeps_bind; [case_match; [apply keeps_consume|apply keeps_ret]|]. intros _.
    apply keeps_bind; [case_match; [apply keeps_premature|apply keeps_ret]|]. intros _. apply keeps_ret.
  - apply keeps_bind; [apply keeps_progress|]. intros _. apply keeps_bind; [apply keeps_pause|]. intros _. apply keeps_ret.
Qed.

End verified.

Lemma keeps_turn fuel : keeps R (run_goal_round_end le) → keeps R (goal_turn le fuel).
Proof.
  intros Hround. induction fuel as [|fuel IH]; [apply keeps_ret|]. cbn [goal_turn].
  apply keeps_bind; [apply (lr_await (le := le))|]. intros _. apply keeps_bind; [apply keeps_query|]. intros [].
  - apply keeps_bind; [apply keeps_laziness|]. intros b.
    apply keeps_bind; [case_match; [apply Hround|apply keeps_ret]|]. intros [d|].
    + apply keeps_bind; [by apply keeps_say|]. intros _. apply IH.
    + apply keeps_bind; [apply (lr_await (le := le))|]. intros _. apply keeps_bind; [apply keeps_query|].
      intros allow. case_match; [apply keeps_ret|apply IH].
  - apply keeps_bind; [apply keeps_pause|]. intros _. apply keeps_ret.
  - apply keeps_ret.
Qed.
End kept.
