(* ===== verification/GoalLoopBounds.v ===== *)
(** Bounds of the goal loop, and what its counters count.  While the rest of
    the session is calm, that is, it neither sets, restores nor resumes a goal,
    a turn puts a goal before a bounded number of panels, an instruction is only
    given out while the goal is under its token budget, and a blocker met three
    rounds in a row pauses. *)
From S2P Require Import Prelude Str Path GoalTracker GoalTrackerThms GoalPanel GoalPanelThms GoalLoop GoalLoopThms.

(** * Calm operations *)

(** What a calm change of the goal keeps: the attempts and the budget; it does
    not make the goal active, the bonus stays within what is ever granted, and
    the count of tokens does not fall. *)
Record calm_goal (o o' : GoalOrchestration) : Prop := {
  calm_attempts : classifier_runs_attempted o' = classifier_runs_attempted o;
  calm_active : status o' = Active → status o = Active;
  calm_bonus : strategist_cap_bonus o ≤ GOAL_STRATEGIST_CAP_BONUS → strategist_cap_bonus o' ≤ GOAL_STRATEGIST_CAP_BONUS;
  calm_budget : token_budget o' = token_budget o;
  calm_tokens : tokens_used_high_water o ≤ tokens_used_high_water o';
}.

Lemma calm_refl o : calm_goal o o.
Proof. by split. Qed.

Lemma calm_trans o1 o2 o3 : calm_goal o1 o2 → calm_goal o2 o3 → calm_goal o1 o3.
Proof. intros [] []. split; [congruence|auto|auto|congruence|lia]. Qed.

Lemma minor_calm o o' : minor o o' → calm_goal o o'.
Proof.
  intros [Hs _ Hb Ha Hn Ht]. split; [done|by rewrite Hs| |done|done]. unfold GOAL_STRATEGIST_CAP_BONUS.
  destruct Hn as [-> | ->]; lia.
Qed.

(** A goal may go away. *)
Definition calm_opt (g g' : option GoalOrchestration) : Prop := ∀ o', g' = Some o' → ∃ o, g = Some o ∧ calm_goal o o'.

Lemma calm_opt_refl g : calm_opt g g.
Proof. intros o ->. exists o. split; [done|apply calm_refl]. Qed.

Lemma calm_opt_trans g1 g2 g3 : calm_opt g1 g2 → calm_opt g2 g3 → calm_opt g1 g3.
Proof.
  intros H1 H2 o3 Ho3. destruct (H2 o3 Ho3) as (o2 & Ho2 & ?). destruct (H1 o2 Ho2) as (o1 & ? & ?).
  exists o1. split; [done|by eapply calm_trans].
Qed.

Definition calmly {A} (m : M A) : Prop := ∀ w, calm_opt (orchestration (tracker w)) (orchestration (tracker (m w).2)).

Lemma calmly_ret {A} (a : A) : calmly (mret a).
Proof. intros w. apply calm_opt_refl. Qed.

Lemma calmly_bind {A B} (m : M A) (k : A → M B) : calmly m → (∀ a, calmly (k a)) → calmly (a ← m; k a).
Proof. intros Hm Hk w. rewrite goal_bind_run. eapply calm_opt_trans; [apply Hm|apply Hk]. Qed.

Lemma calmly_untouched {A} (m : M A) : untouched m → calmly m.
Proof. intros Hm w. rewrite Hm. apply calm_opt_refl. Qed.

Lemma calmly_with_goal f : (∀ o, calm_goal o (f o)) → calmly (with_goal f).
Proof. intros Hf w o'. simpl. destruct (orchestration (tracker w)); intros [= <-]. eauto. Qed.

Lemma calmly_update {A} (k : option GoalOrchestration → M A) :
  (∀ o, (∃ a, k o = mret a) ∨
        ∃ g o' a, o = Some g ∧ k o = (_ ← put_goal (Some o'); mret a) ∧ calm_goal g o') →
  calmly (o ← get_goal; k o).
Proof.
  intros Hk w. rewrite goal_bind_run. cbn [fst snd get_goal].
  destruct (Hk (orchestration (tracker w))) as [[a ->]|(g & o' & a & Hg & -> & Ho)]; [apply calm_opt_refl|].
  rewrite goal_bind_run. cbn. intros o0 [= <-]. eauto.
Qed.

Lemma calmly_get_tracker {A} (k : GoalTracker → M A) : (∀ t, calmly (k t)) → calmly (t ← get_tracker; k t).
Proof. intros Hk w. rewrite goal_bind_run. apply Hk. Qed.

Lemma calmly_get_goal {A} (k : option GoalOrchestration → M A) : (∀ g, calmly (k g)) → calmly (g ← get_goal; k g).
Proof. intros Hk w. rewrite goal_bind_run. apply Hk. Qed.

(** A change of other fields. *)
Ltac calm := by split.

Section calm.
Context (env : Env) (dir : rstr).

Lemma calmly_event ev det : calmly (record_event env ev det).
Proof. apply calmly_bind; [by apply calmly_untouched|]. intros e. apply calmly_with_goal. intros o. calm. Qed.

Lemma calmly_flush : calmly (flush_timer env).
Proof.
  apply calmly_get_tracker. intros t. destruct (active_since t); [|apply calmly_ret].
  apply calmly_bind; [intros w; apply calm_opt_refl|]. intros _.
  apply calmly_bind; [by apply calmly_untouched|]. intros i. apply calmly_with_goal. intros o. calm.
Qed.

Lemma calmly_rescue : calmly (rescue_classifier_details env).
Proof.
  apply calmly_get_tracker. intros t. destruct (orchestration t) as [o|]; [|apply calmly_ret].
  destruct (last_classifier_details_path o) as [src|]; [|apply calmly_ret]. cbn zeta.
  case_match; [apply calmly_ret|]. case_match; [apply calmly_ret|].
  apply calmly_bind; [apply calmly_untouched, untouched_verify|]. intros ok. case_match; [apply calmly_ret|].
  destruct (file_name src) as [name|]; [|apply calmly_ret].
  apply calmly_bind; [by apply calmly_untouched|]. intros _.
  apply calmly_bind.
  { apply calmly_untouched. apply untouched_bind; [done|]. intros [|]; [done|].
    apply untouched_bind; [done|]. intros [|]; [|done]. apply untouched_bind; [done|]. by intros [|]. }
  intros moved. case_match; [apply calmly_ret|].
  apply calmly_bind; [apply calmly_untouched, untouched_append|]. intros _. apply calmly_with_goal. intros o'. calm.
Qed.

Lemma calmly_remove : calmly (remove_scratch_root env).
Proof. apply calmly_get_goal. intros [o|]; [|apply calmly_ret]. by apply calmly_untouched, untouched_bind. Qed.

Lemma calmly_pause r msg : calmly (pause_inner env r msg).
Proof.
  apply calmly_get_goal. intros g. case_match; [|apply calmly_ret].
  apply calmly_bind; [apply calmly_flush|]. intros _. apply calmly_bind.
  { apply calmly_with_goal. intros o. destruct msg, r; by split. }
  intros _. apply calmly_bind; [apply calmly_event|]. intros _. apply calmly_ret.
Qed.

Lemma calmly_finish s ev : s ≠ Active → calmly (finish env s ev).
Proof.
  intros Hs. apply calmly_get_goal. intros g. case_match; [|apply calmly_ret].
  apply calmly_bind; [apply calmly_flush|]. intros _.
  apply calmly_bind; [apply calmly_with_goal; by split|]. intros _.
  apply calmly_bind; [apply calmly_rescue|]. intros _. apply calmly_bind; [apply calmly_remove|]. intros _.
  apply calmly_bind; [apply calmly_event|]. intros _. apply calmly_ret.
Qed.

Lemma calmly_clear : calmly (clear env).
Proof.
  apply calmly_bind; [apply calmly_rescue|]. intros _. apply calmly_bind; [apply calmly_remove|]. intros _.
  apply calmly_bind; [by intros w o'|]. intros _ w. apply calm_opt_refl.
Qed.

Lemma calmly_account : calmly (account_elapsed env).
Proof.
  intros w o' Ho'. destruct (minor_account env w) as [Hm _]. rewrite Ho' in Hm.
  inversion Hm as [o ? Ho|]; subst. exists o. split; [done|by apply minor_calm].
Qed.

Lemma calmly_claim f : calmly (claim_strategist_fire f).
Proof.
  apply calmly_update. intros [o|]; [|left; by eexists]. destruct (f _ _) eqn:E; [right|left; by eexists].
  eexists o, _, _. by split_and!.
Qed.

(** ** What the rest of the session may do *)

Definition calm_op (op : goal_op) : Prop :=
  match op with
  | OCreate _ _ _ _ _ _ | ORestore _ | OResume | ORollback => False
  | OEdit f => ∀ o, calm_goal o (f o)
  | _ => True
  end.

Lemma calmly_discard {A} (m : M A) (b : bool) : calmly m → calmly (_ ← m; mret b).
Proof. intros Hm. apply calmly_bind; [done|]. intros _. apply calmly_ret. Qed.

Lemma calmly_step op : calm_op op → calmly (step env dir op).
Proof.
  intros Hop. destruct op; try done; cbn [step].
  - destruct message; apply calmly_pause.
  - by apply calmly_finish.
  - by apply calmly_finish.
  - apply calmly_discard, calmly_clear.
  - apply calmly_discard, calmly_account.
  - apply calmly_update. intros [o|]; [right; eexists o, _, _; by split_and!|left; by eexists].
  - apply calmly_discard, calmly_update. intros [o|]; [right; eexists o, _, _; by split_and!|left; by eexists].
  - by apply calmly_discard, calmly_with_goal.
  - by apply calmly_discard, calmly_with_goal.
  - apply calmly_discard, calmly_update. intros [o|]; [right; eexists o, _, _; by split_and!|left; by eexists].
  - apply calmly_discard, calmly_claim.
  - by apply calmly_discard, calmly_with_goal.
  - by apply calmly_discard, calmly_with_goal.
  - by apply calmly_discard, calmly_with_goal.
  - by apply calmly_discard, calmly_with_goal.
  - by apply calmly_discard, calmly_with_goal.
Qed.

Lemma calmly_run ops : Forall calm_op ops → calmly (run env dir ops).
Proof.
  induction 1 as [|op ops Hop _ IH]; [apply calmly_ret|]. cbn [run].
  apply calmly_bind; [by apply calmly_step|]. intros _. exact IH.
Qed.
End calm.

(** * Calm steps of the loop *)

Definition is_panel (e : LoopEvent) : bool := match e with LPanel _ _ => true | _ => false end.

(** How many panels have judged. *)
Definition panels (w : LWorld) : Z := countb is_panel (log w).

Lemma panels_say e w : panels (say e w).2 = panels w + (if is_panel e then 1 else 0).
Proof.
  unfold panels. change (log (say e w).2) with (log w ++ [e]). rewrite countb_app, countb_cons, countb_nil.
  destruct (is_panel e); cbn; lia.
Qed.

Definition calm_rel (w w' : LWorld) : Prop := panels w' = panels w ∧ calm_opt (goal_of w) (goal_of w').

Lemma calm_rel_tracker {A} (m : M A) w : calmly m → calm_rel w (on_tracker m w).2.
Proof.
  intros Hm. unfold calm_rel, goal_of, panels. rewrite on_tracker_world. split; [|apply Hm].
  unfold on_tracker. by rewrite on_panel_world.
Qed.

Lemma calm_rel_trans w1 w2 w3 : calm_rel w1 w2 → calm_rel w2 w3 → calm_rel w1 w3.
Proof. intros [P1 G1] [P2 G2]. split; [congruence|by eapply calm_opt_trans]. Qed.

Definition calm_session (le : LoopEnv) : Prop := ∀ n, Forall calm_op (meddle le n).

Lemma calm_loop le : calm_session le → LoopRel le calm_rel.
Proof.
  intros Hc. split.
  - intros w. split; [done|apply calm_opt_refl].
  - intros w1 w2 w3. apply calm_rel_trans.
  - intros w. split; [done|apply calm_opt_refl].
  - intros e He w. split; [|apply calm_opt_refl]. rewrite panels_say. destruct e; cbn; try lia. by destruct He.
  - intros w. unfold await. rewrite loop_bind_run.
    apply (calm_rel_trans _ (w <| ticks ::= S |>)); [split; [done|apply calm_opt_refl]|].
    apply calm_rel_tracker, calmly_run, Hc.
  - intros w p _ [Hm _]. split; [done|]. intros o' Ho'. unfold goal_of in Ho'. cbn in Ho'. rewrite Ho' in Hm.
    inversion Hm as [o ? Ho|]; subst. exists o. split; [done|by apply minor_calm].
  - intros op Hop w. apply calm_rel_tracker, calmly_step. by destruct op.
Qed.

(** The same environment when nothing else runs. *)
Definition alone (le : LoopEnv) : LoopEnv := {|
  lpe := lpe le; ldir := ldir le; meddle := λ _, []; goal_harness_enabled := goal_harness_enabled le;
  goal_classifier_enabled := goal_classifier_enabled le; goal_classifier_max_runs := goal_classifier_max_runs le;
  goal_verifier_skeptic_count := goal_verifier_skeptic_count le; goal_strategist_every := goal_strategist_every le;
  goal_reverify_after := goal_reverify_after le; goal_planner_enabled := goal_planner_enabled le;
  goal_summary_enabled := goal_summary_enabled le; goal_use_current_model_only := goal_use_current_model_only le;
  skeptic_pool := skeptic_pool le; has_coordinator := has_coordinator le; total_tokens := total_tokens le;
  token_records := token_records le; final_response := final_response le; small_model := small_model le;
  active_model := active_model le; eval_reply := eval_reply le; goal_verdict_of_json := goal_verdict_of_json le;
  run_strategist := run_strategist le; run_summarizer := run_summarizer le; premature_stop := premature_stop le;
  pending_todos := pending_todos le; read_plan := read_plan le; round_of := round_of le;
  stop_gate := stop_gate le |}.

Definition active_in (w : LWorld) : bool := is_active (status <$> goal_of w).

Lemma calm_inactive w w' : calm_rel w w' → active_in w = false → active_in w' = false.
Proof.
  intros [_ Hg] Ha. unfold active_in in *. destruct (goal_of w') as [o'|]; [|done].
  destruct (Hg o' eq_refl) as (o & Ho & Hco). rewrite Ho in Ha. unfold is_active in *. cbn in *.
  apply bool_decide_eq_false. apply bool_decide_eq_false in Ha. intros [= Hs]. apply Ha. f_equal. by apply Hco.
Qed.

Lemma goal_status_run w : goal_status w = (status <$> goal_of w, w).
Proof. unfold goal_status. by rewrite get_goal_run. Qed.

Lemma paused_inactive env r msg w o :
  orchestration (tracker (pause_inner env r msg w).2) = Some o → status o ≠ Active.
Proof.
  pose proof (core_pause env r msg w) as Hp. case_decide as Hs.
  - unfold status_of in Hs. destruct (core w) as [[[s m]|] since] eqn:Hc; [|done]. cbn in Hs. injection Hs as ->.
    pose proof (core_paused env r msg w m since Hc) as Hq. unfold core in Hq. intros Ho. rewrite Ho in Hq.
    injection Hq as Hst _ _. rewrite Hst. by destruct r.
  - rewrite Hp. cbn [snd]. unfold status_of, core in Hs. cbn in Hs. intros Ho. rewrite Ho in Hs. cbn in Hs. congruence.
Qed.

(** After an automatic pause the goal does not run, whatever else goes on. *)
Lemma pause_stops le r msg w : active_in (auto_pause_goal_if_active_inner le r msg w).2 = false.
Proof.
  pose proof (calm_loop (alone le) (λ _, Forall_nil_2 _)) as HR.
  unfold auto_pause_goal_if_active_inner. rewrite loop_bind_run.
  generalize (get_total_tokens le w).1 as c. generalize (get_total_tokens le w).2 as w1. intros w1 c.
  rewrite loop_bind_run, goal_status_run. cbn [fst snd]. fold (active_in w1).
  destruct (active_in w1) eqn:Ha; cbn [negb]; [|exact Ha].
  rewrite loop_bind_run.
  assert (on_tracker (match msg with Some m => pause_with_message (penv (lpe le)) r m | None => pause (penv (lpe le)) r end)
          = on_tracker (pause_inner (penv (lpe le)) r msg)) as -> by (by destruct msg).
  set (w2 := (on_tracker _ w1).2). apply (calm_inactive w2).
  - cut (keeps calm_rel (_ ← say LClearPending; '(t, f) ← goal_tokens (alone le) c; _ ← emit_goal_updated (alone le) t f;
                        _ ← say (LAutoPaused r); mret true)).
    { intros Hk. apply (Hk w2). }
    apply (keeps_bind (alone le) _); [by apply (keeps_say (alone le) _)|]. intros _.
    apply (keeps_bind (alone le) _); [apply (keeps_tokens (alone le) _)|]. intros [t f].
    apply (keeps_bind (alone le) _); [apply (keeps_emit (alone le) _)|]. intros _.
    apply (keeps_bind (alone le) _); [by apply (keeps_say (alone le) _)|]. intros _. apply (keeps_ret (alone le) _).
  - unfold active_in, goal_of. subst w2. rewrite on_tracker_world.
    destruct (orchestration _) as [o|] eqn:Ho; [|done]. apply bool_decide_eq_false. intros [= Hs].
    by eapply paused_inactive.
Qed.

(** [m] leaves no active goal. *)
Definition stops {A} (m : L A) : Prop := ∀ w, active_in (m w).2 = false.

Lemma stops_bind {A B} (m : L A) (k : A → L B) : (∀ a, stops (k a)) → stops (a ← m; k a).
Proof. intros Hk w. rewrite loop_bind_run. apply Hk. Qed.

Lemma stops_pause {B} le r msg (b : B) : stops (_ ← auto_pause_goal_if_active_inner le r msg; mret b).
Proof. intros w. rewrite loop_bind_run. apply pause_stops. Qed.

(** * The panels of a turn *)

Section bound.
Context (le : LoopEnv) (Hc : calm_session le).
#[local] Instance calm_here : LoopRel le calm_rel := calm_loop le Hc.

Definition cap : Z := sat_add 32 (goal_classifier_max_runs le) GOAL_STRATEGIST_CAP_BONUS.

(** The attempts that are left, bonus included. *)
Definition room (w : LWorld) : Z :=
  match goal_of w with Some o => Z.max 0 (cap - classifier_runs_attempted o) | None => 0 end.

(** The panels still to come. *)
Definition to_come (w : LWorld) : Z := if active_in w then room w else 0.

Definition bonus_ok (w : LWorld) : Prop :=
  ∀ o, goal_of w = Some o → strategist_cap_bonus o ≤ GOAL_STRATEGIST_CAP_BONUS.

(** A round spends room; whoever starts it active has that room. *)
Definition spends (w w' : LWorld) : Prop := bonus_ok w →
  bonus_ok w' ∧ panels w' + to_come w' ≤ panels w + room w ∧ (active_in w' = true → active_in w = true).

Definition pays (w w' : LWorld) : Prop := bonus_ok w → bonus_ok w' ∧ panels w' + to_come w' ≤ panels w + to_come w.

(** No panel, and the bonus stays within bounds. *)
Definition mild (w w' : LWorld) : Prop := bonus_ok w → bonus_ok w' ∧ panels w' = panels w.

Lemma room_nonneg w : 0 ≤ room w.
Proof. unfold room. destruct (goal_of w); lia. Qed.

Lemma to_come_room w : 0 ≤ to_come w ≤ room w.
Proof. unfold to_come. pose proof (room_nonneg w). destruct (active_in w); lia. Qed.

Lemma calm_facts w w' : calm_rel w w' →
  panels w' = panels w ∧ room w' ≤ room w ∧ (bonus_ok w → bonus_ok w') ∧ (active_in w' = true → active_in w = true).
Proof.
  intros H. pose proof (calm_inactive w w' H) as Hi. destruct H as [Hp Hg]. split_and!; [done|..].
  - unfold room. destruct (goal_of w') as [o'|]; [|apply room_nonneg].
    destruct (Hg o' eq_refl) as (o & -> & [Ha _ _ _ _]). rewrite Ha. lia.
  - intros Hb o' Ho'. destruct (Hg o' Ho') as (o & Ho & [_ _ Hbo _ _]). by apply Hbo, Hb.
  - intros Ha. by destruct (active_in w); [|rewrite Hi in Ha].
Qed.

Lemma calm_mild w w' : calm_rel w w' → mild w w'.
Proof. intros (Hp & _ & Hb & _)%calm_facts Hw. auto. Qed.

Lemma calm_spends w w' : calm_rel w w' → spends w w'.
Proof.
  intros (Hp & Hr & Hb & Ha)%calm_facts Hw. split_and!; [auto|pose proof (to_come_room w'); lia|done].
Qed.

Lemma calm_pays w w' : calm_rel w w' → pays w w'.
Proof.
  intros (Hp & Hr & Hb & Ha)%calm_facts Hw. split; [auto|]. unfold to_come. pose proof (room_nonneg w).
  destruct (active_in w') eqn:E; [rewrite Ha by done; lia|]. destruct (active_in w); lia.
Qed.

Lemma calm_then_spends w1 w2 w3 : calm_rel w1 w2 → spends w2 w3 → spends w1 w3.
Proof.
  intros (Hp & Hr & Hb & Ha)%calm_facts H Hw. destruct (H (Hb Hw)) as (Hb3 & Hp3 & Ha3). split_and!; [done|lia|auto].
Qed.

Lemma spends_then_calm w1 w2 w3 : spends w1 w2 → calm_rel w2 w3 → spends w1 w3.
Proof.
  intros H Hcalm Hw. destruct (H Hw) as (Hb2 & Hp2 & Ha2). destruct (calm_pays _ _ Hcalm Hb2) as [Hb3 Hp3].
  apply calm_facts in Hcalm as (_ & _ & _ & Ha). split_and!; [done|lia|auto].
Qed.

Lemma spends_pays w w' : spends w w' → active_in w = true → pays w w'.
Proof. intros H Ha Hw. destruct (H Hw) as (Hb & Hp & _). split; [done|]. unfold to_come at 2. rewrite Ha. exact Hp. Qed.

Lemma mild_stop w w' : mild w w' → active_in w' = false → spends w w'.
Proof.
  intros H Ha Hw. destruct (H Hw) as [Hb Hp]. split_and!; [done| |by rewrite Ha]. unfold to_come. rewrite Ha, Hp.
  pose proof (room_nonneg w). lia.
Qed.

Lemma pays_trans w1 w2 w3 : pays w1 w2 → pays w2 w3 → pays w1 w3.
Proof. intros H1 H2 Hw. destruct (H1 Hw) as [Hb Hp]. destruct (H2 Hb) as [Hb' Hp']. split; [done|lia]. Qed.

#[local] Instance mild_rel : LoopRel le mild.
Proof.
  pose proof calm_here as [Hr Ht Hq Hs Ha Hm Hp].
  split; [intros w; by apply calm_mild| |intros; try intros w; apply calm_mild; auto..]; cycle 1.
  - by apply Hs.
  - by apply Hp.
  - intros w1 w2 w3 H1 H2 Hw. destruct (H1 Hw) as [Hb Hp1]. destruct (H2 Hb) as [Hb' Hp2]. split; [done|congruence].
Qed.

Lemma calm_keeps_mild {A} (m : L A) : keeps calm_rel m → keeps mild m.
Proof. intros Hm w. apply calm_mild, Hm. Qed.

Lemma calm_bind_spends {A B} (m : L A) (k : A → L B) :
  keeps calm_rel m → (∀ a, keeps spends (k a)) → keeps spends (a ← m; k a).
Proof. intros Hm Hk w. rewrite loop_bind_run. eapply calm_then_spends; [apply Hm|apply Hk]. Qed.

Lemma spends_bind_calm {A B} (m : L A) (k : A → L B) :
  keeps spends m → (∀ a, keeps calm_rel (k a)) → keeps spends (a ← m; k a).
Proof. intros Hm Hk w. rewrite loop_bind_run. eapply spends_then_calm; [apply Hm|apply Hk]. Qed.

Lemma calm_keeps_spends {A} (m : L A) : keeps calm_rel m → keeps spends m.
Proof. intros Hm w. apply calm_spends, Hm. Qed.

Lemma keeps_calm_tracker {A} (m : M A) : calmly m → keeps calm_rel (on_tracker m).
Proof. intros Hm w. by apply calm_rel_tracker. Qed.

Lemma mild_rollback : keeps mild (on_tracker rollback_classifier_attempt).
Proof.
  intros w Hw. split; [|unfold on_tracker; by rewrite on_panel_world].
  unfold bonus_ok, goal_of. rewrite on_tracker_world. unfold bonus_ok, goal_of in Hw. cbn.
  destruct (orchestration _) as [o|]; intros o'; [|done]. cbn. intros [= <-]. exact (Hw o eq_refl).
Qed.

(** ** What is made of the outcome *)

Lemma outcome_spends policy attempt oc : keeps spends (apply_classifier_outcome le policy attempt oc).
Proof.
  destruct oc as [d|d g p f|d p|r d]; cycle 2.
  - intros w. apply mild_stop; [|apply stops_bind; intros c; apply stops_bind; intros [t fin]; do 4 (apply stops_bind; intros _); apply stops_pause].
    by apply (keeps_impasse le mild), mild_rollback.
  - apply calm_keeps_spends, (keeps_failed_open le _).
  - apply calm_keeps_spends, (keeps_achieved le _), keeps_calm_tracker. unfold complete.
    apply calmly_finish. discriminate.
  - apply calm_keeps_spends, (keeps_rejected le _). intros fire. apply keeps_calm_tracker, calmly_claim.
Qed.

(** Taking a slot pays for the panel. *)
Lemma reserve_spends policy o w w' :
  goal_of w = Some o → max_runs policy = sat_add 32 (goal_classifier_max_runs le) (strategist_cap_bonus o) →
  classifier_runs_attempted o < max_runs policy →
  goal_of w' = Some (reserve_fields policy o) → panels w' = panels w + 1 →
  spends w w'.
Proof.
  intros Ho Hm Hlt Ho' Hp Hw. specialize (Hw o Ho). rewrite Hm in Hlt.
  assert (classifier_runs_attempted o < cap ∧ cap ≤ umax 32) as [Hcap Hmax]
    by (unfold cap, sat_add, GOAL_STRATEGIST_CAP_BONUS in *; lia).
  split_and!.
  - intros o2. rewrite Ho'. intros [= <-]. exact Hw.
  - unfold to_come, active_in, room. rewrite Ho', Ho, Hp. cbn -[is_active umax].
    rewrite (sat_add_exact 32) by lia. destruct (is_active _); lia.
  - unfold active_in. by rewrite Ho', Ho.
Qed.

Lemma say_panel_spends attempt oc w w0 w1 :
  calm_rel w0 w1 → (∀ w', goal_of w' = goal_of w0 → panels w' = panels w0 + 1 → spends w w') →
  spends w (say (LPanel attempt oc) w1).2.
Proof.
  intros [Hp Hg] Hs.
  set (w0' := (say (LPanel attempt oc) w0).2).
  apply (spends_then_calm w w0'); [apply Hs; [done|apply panels_say]|]. split; [|exact Hg].
  subst w0'. rewrite !panels_say. lia.
Qed.

Lemma spends_after w w1 w2 : spends w w1 → spends w1 w2 → active_in w1 = true → spends w w2.
Proof.
  intros H1 H2 Ha Hw. destruct (H1 Hw) as (Hb1 & Hp1 & Ha1). destruct (H2 Hb1) as (Hb2 & Hp2 & Ha2).
  split_and!; [done| |auto]. unfold to_come at 1 in Hp1. rewrite Ha in Hp1. lia.
Qed.

Lemma verify_spends : keeps spends (verify_goal_candidate le).
Proof.
  intros w. unfold verify_goal_candidate, resolve_goal_classifier_policy.
  rewrite loop_bind_run, get_goal_run. cbn [fst snd mret St_ret].
  set (policy := mkPolicy _ _). case_match.
  { apply calm_spends. apply (keeps_bind le _); [apply (keeps_pause le _)|]. intros _. apply (keeps_ret le _). }
  rewrite get_goal_run. destruct (Z.leb_spec (max_runs policy) (match goal_of w with Some o => classifier_runs_attempted o | None => 0 end)) as [Hge|Hlt].
  { apply calm_spends, (keeps_cap le _). }
  unfold reserve_classifier_attempt_slot. rewrite loop_bind_run, get_goal_run.
  destruct (goal_of w) as [o|] eqn:Ho; cbn [fst snd mret St_ret].
  2: { by apply calm_spends, (keeps_ret le _ tt). }
  rewrite loop_bind_run. cbn [fst snd mret St_ret].
  set (w0 := (on_tracker (put_goal _) w).2).
  assert (goal_of w0 = Some (reserve_fields policy o)) as Ho0 by done.
  assert (∀ w', goal_of w' = goal_of w0 → panels w' = panels w0 + 1 → spends w w') as Hs.
  { intros w' Hg' Hp'. apply (reserve_spends policy o); [exact Ho|done|exact Hlt|by rewrite Hg'|exact Hp']. }
  generalize (classifier_runs_attempted (reserve_fields policy o)) as attempt. intros attempt.
  clearbody w0. rewrite loop_bind_run, loop_bind_run, loop_bind_run, loop_bind_run.
  set (c := (get_total_tokens le w0).1). set (w1 := (get_total_tokens le w0).2).
  set (w2 := (emit_goal_verifying le c w1).2). set (r := run_verification_stage_for_drain le attempt (max_runs policy) w2).
  assert (calm_rel w0 (on_tracker (with_goal (λ o, o <| verifying_in_flight := false |>)) r.2).2) as Hcalm.
  { apply (calm_rel_trans _ r.2); [|by apply calm_rel_tracker, calmly_with_goal].
    apply (calm_rel_trans _ w2); [|apply (keeps_stage le calm_rel)].
    apply (calm_rel_trans _ w1); [apply (keeps_total le calm_rel)|apply (keeps_verifying le calm_rel)]. }
  clearbody r. destruct r as [oc w3]. cbn [fst snd] in *. rewrite loop_bind_run.
  pose proof (say_panel_spends attempt oc w w0 _ Hcalm Hs) as Hsp.
  set (w4 := (say _ _).2) in *. clearbody w4. rewrite loop_bind_run, goal_status_run. cbn [fst snd].
  fold (active_in w4). destruct (active_in w4) eqn:Ha; cbn [negb]; [|exact Hsp].
  apply (spends_after w w4); [exact Hsp| |exact Ha].
  destruct oc as [d|d gs ps fp|d ps|reason d]; [apply outcome_spends..|].
  apply mild_stop.
  - apply (keeps_bind le mild (on_tracker rollback_classifier_attempt)); [apply mild_rollback|]. intros _.
    apply calm_keeps_mild. apply (keeps_bind le _); [apply (keeps_pause le _)|]. intros _. apply (keeps_ret le _).
  - apply (stops_bind (on_tracker rollback_classifier_attempt)). intros _. apply stops_pause.
Qed.

Lemma decision_spends v : keeps spends (apply_decision le v).
Proof.
  unfold apply_decision. destruct (decision v); cycle 1.
  - apply calm_bind_spends; [apply (keeps_reset_blocker le _)|]. intros _.
    apply calm_bind_spends; [apply (keeps_persist le _)|]. intros _.
    apply calm_bind_spends; [apply (keeps_progress le _)|]. intros _. apply verify_spends.
  - apply calm_keeps_spends. apply (keeps_bind le _); [apply (keeps_progress le _)|]. intros _.
    apply (keeps_bind le _); [apply (keeps_blocker_streak le _)|]. intros n.
    apply (keeps_bind le _); [apply (keeps_persist le _)|]. intros _. case_match; [apply (keeps_ret le _)|].
    apply (keeps_bind le _); [apply (keeps_pause le _)|]. intros b. case_match; [|apply (keeps_ret le _)].
    apply (keeps_bind le _); [by apply (keeps_say le _)|]. intros _. apply (lr_await (le := le)).
  - apply calm_keeps_spends. apply (keeps_bind le _); [apply (keeps_reset_blocker le _)|]. intros _.
    apply (keeps_bind le _); [apply (keeps_persist le _)|]. intros _. apply (keeps_progress le _).
Qed.

Lemma laziness_run w : (laziness_injection_active le w).1 = true → active_in w = true.
Proof. unfold laziness_injection_active. rewrite !loop_bind_run, goal_status_run. cbn. by intros [_ H]%andb_prop. Qed.

Lemma round_pays : keeps pays (run_goal_round_end le).
Proof.
  intros w. unfold run_goal_round_end. rewrite loop_bind_run.
  pose proof (keeps_laziness le calm_rel w) as Hl. pose proof (laziness_run w) as Ha.
  destruct (laziness_injection_active le w) as [b w0]. cbn [fst snd] in *.
  destruct b; cbn [negb]; [|by apply calm_pays].
  apply spends_pays; [|by apply Ha]. apply (calm_then_spends w w0); [exact Hl|]. clear Hl Ha w. rename w0 into w. revert w.
  match goal with |- ∀ w, spends w (?m w).2 => change (keeps spends m) end.
  apply calm_bind_spends; [apply (keeps_evaluate le _)|]. intros [v|e].
  2: { apply calm_keeps_spends. apply (keeps_bind le _); [apply (keeps_progress le _)|]. intros _.
       apply (keeps_bind le _); [apply (keeps_pause le _)|]. intros _. apply (keeps_ret le _). }
  apply calm_bind_spends; [apply (keeps_total le _)|]. intros c. apply calm_bind_spends; [apply (keeps_enforce le _)|].
  intros over. case_match; [apply calm_keeps_spends, (keeps_ret le _)|].
  apply spends_bind_calm; [apply decision_spends|]. intros _.
  apply (keeps_bind le _); [apply (keeps_status le _)|]. intros s. case_match; [apply (keeps_ret le _)|].
  apply (keeps_bind le _); [apply (keeps_total le _)|]. intros c'. apply (keeps_bind le _); [apply (keeps_prepare le _)|].
  intros [p|]; [|apply (keeps_ret le _)].
  apply (keeps_bind le _); [case_match; [apply (keeps_consume le _)|apply (keeps_ret le _)]|]. intros _.
  apply (keeps_bind le _); [case_match; [apply (keeps_premature le _)|apply (keeps_ret le _)]|]. intros _. apply (keeps_ret le _).
Qed.

#[local] Instance pays_rel : LoopRel le pays.
Proof.
  pose proof calm_here as [Hr Ht Hq Hs Ha Hm Hp].
  split; [intros w; by apply calm_pays|exact pays_trans|..]; intros; try intros w; apply calm_pays; auto.
  - by apply Hs.
  - by apply Hp.
Qed.

Lemma turn_pays fuel : keeps pays (goal_turn le fuel).
Proof. apply (keeps_turn le pays), round_pays. Qed.
End bound.

(** C31: the panels of a turn are bounded.  However long the turn, whatever is
    claimed and whatever the skeptics say, while nobody else sets, restores or
    resumes a goal, the panels convened are at most the configured attempts
    and the strategist's bonus, less those made before; and none at all if the
    goal is not active. *)
Theorem panels_bounded le fuel w :
  calm_session le → (∀ o, goal_of w = Some o → strategist_cap_bonus o ≤ GOAL_STRATEGIST_CAP_BONUS) →
  panels (goal_turn le fuel w).2 - panels w ≤
    match goal_of w with
    | Some o =>
        if bool_decide (status o = Active)
        then Z.max 0 (sat_add 32 (goal_classifier_max_runs le) GOAL_STRATEGIST_CAP_BONUS - classifier_runs_attempted o)
        else 0
    | None => 0
    end.
Proof.
  intros Hc Hb. destruct (turn_pays le Hc fuel w Hb) as [_ Hp].
  pose proof (to_come_room le (goal_turn le fuel w).2) as Hr.
  assert (to_come le w = match goal_of w with
    | Some o => if bool_decide (status o = Active) then Z.max 0 (cap le - classifier_runs_attempted o) else 0
    | None => 0 end) as Ht.
  { unfold to_come, active_in, room, is_active. destruct (goal_of w) as [o|]; [|by case_match]. cbn.
    repeat case_bool_decide; try done; congruence. }
  unfold cap in Ht. rewrite <- Ht. lia.
Qed.

Lemma panels_bounded_witness :
  panels (goal_turn (demo_loop (lit "Refuted") (lit "complete")) 20 (demo_start None)).2 ≤ 5.
Proof.
  pose proof (panels_bounded (demo_loop (lit "Refuted") (lit "complete")) 20 (demo_start None)) as H.
  specialize (H (λ _, Forall_nil_2 _)).
  assert (Hb : ∀ o, goal_of (demo_start None) = Some o → strategist_cap_bonus o ≤ GOAL_STRATEGIST_CAP_BONUS).
  { intros o Ho. assert (E : strategist_cap_bonus <$> goal_of (demo_start None) = Some 0) by (vm_compute; reflexivity).
    rewrite Ho in E. apply (inj Some) in E. rewrite E. vm_compute. discriminate. }
  specialize (H Hb). change (panels (demo_start None)) with 0 in H.
  rewrite Z.sub_0_r in H. etrans; [exact H|]. vm_compute. discriminate.
Defined.

(** * The budget *)

Section budget.
Context (le : LoopEnv) (Hc : calm_session le) (b : Z).
#[local] Instance calm_budget_loop : LoopRel le calm_rel := calm_loop le Hc.

(** The goal, if there is one, has this budget. *)
Definition has_budget (w : LWorld) : Prop := ∀ o, goal_of w = Some o → token_budget o = Some b.

Lemma budget_calm w w' : calm_rel w w' → has_budget w → has_budget w'.
Proof.
  intros [_ Hg] Hb o' Ho'. destruct (Hg o' Ho') as (o & Ho & [_ _ _ Hbo _]). rewrite Hbo. by apply Hb.
Qed.

(** Reading the tokens tells the high-water mark it leaves. *)
Lemma tokens_answer c w :
  (goal_tokens le c w).1.1 = match goal_of (goal_tokens le c w).2 with Some o => tokens_used_high_water o | None => 0 end.
Proof.
  rewrite goal_tokens_run. destruct (goal_of w) as [o|] eqn:Ho; [|cbn; by rewrite Ho].
  by destruct (fold_records _ _).
Qed.

Lemma tokens_mono w w' :
  calm_rel w w' → is_Some (goal_of w') →
  match goal_of w with Some o => tokens_used_high_water o | None => 0 end ≤
  match goal_of w' with Some o => tokens_used_high_water o | None => 0 end.
Proof.
  intros [_ Hg] [o' Ho']. rewrite Ho'. destruct (Hg o' Ho') as (o & -> & [_ _ _ _ Ht]). exact Ht.
Qed.

(** The check: what it answers, and that the goal it stops does not run. *)
Lemma enforce_spec c w :
  has_budget w →
  ((enforce_goal_token_budget le c w).1 = true ↔
   is_Some (goal_of w) ∧ b ≤ (goal_tokens le c w).1.1) ∧
  ((enforce_goal_token_budget le c w).1 = true → active_in (enforce_goal_token_budget le c w).2 = false).
Proof.
  intros Hb. unfold enforce_goal_token_budget. rewrite loop_bind_run.
  pose proof (keeps_tokens le calm_rel c w) as Hcw. pose proof (budget_calm _ _ Hcw Hb) as Hb'.
  assert (is_Some (goal_of (goal_tokens le c w).2) ↔ is_Some (goal_of w)) as Hsome.
  { rewrite goal_tokens_run. destruct (goal_of w) as [o|] eqn:Ho; [|cbn; by rewrite Ho].
    destruct (fold_records _ _). cbn. split; eauto. }
  destruct (goal_tokens le c w) as [[t f] w1]. cbn [fst snd] in *.
  rewrite get_goal_run. rewrite <- Hsome. clear Hsome.
  destruct (goal_of w1) as [o1|] eqn:Ho1; cbn [mbind option_bind].
  2: { split; [|done]. split; [done|]. by intros [[? ?] _]. }
  rewrite (Hb' o1 Ho1). destruct (Z.ltb_spec t b); [split; [split; [done|lia]|done]|].
  rewrite loop_bind_run. set (w2 := (on_tracker (budget_limit _) w1).2).
  rewrite !loop_bind_run. cbn [fst snd mret St_ret].
  split; [split; [intros _; by split; eauto|done]|]. intros _. apply (calm_inactive w2).
  - cut (keeps calm_rel (_ ← say LClearPending; _ ← emit_goal_updated le t f;
        _ ← say (LOutput (lit "Goal token budget reached (" ++ fmt_int t ++ lit " of " ++ fmt_int b
                 ++ lit " tokens) " ++ [8212]
                 ++ lit " goal stopped. Use /goal clear, then /goal <objective> to start a new one.")); await le)).
    { intros Hk. specialize (Hk w2). by rewrite !loop_bind_run in Hk. }
    apply (keeps_bind le _); [by apply (keeps_say le _)|]. intros _.
    apply (keeps_bind le _); [apply (keeps_emit le _)|]. intros _.
    apply (keeps_bind le _); [by apply (keeps_say le _)|]. intros _. apply (lr_await (le := le)).
  - unfold active_in, goal_of. subst w2. rewrite on_tracker_world.
    pose proof (core_finish (penv (lpe le)) BudgetLimited BudgetExceeded (base (lpanel w1))) as Hf.
    fold (budget_limit (penv (lpe le))) in Hf. unfold core in Hf. cbn [fst snd] in Hf. unfold goal_of in Ho1.
    rewrite Ho1 in Hf. cbn in Hf. destruct (is_terminal (status o1)) eqn:Ht.
    + rewrite Hf. cbn [snd]. rewrite Ho1. cbn. by destruct (status o1).
    + destruct Hf as [_ Hf]. apply (f_equal fst) in Hf. cbn [fst] in Hf. revert Hf.
      generalize (orchestration (tracker (budget_limit (penv (lpe le)) (base (lpanel w1))).2)).
      intros [o2|] Hf; [|done]. apply (inj Some) in Hf. cbn. by injection Hf as -> _.
Qed.
End budget.

Section budget_round.
Context (le : LoopEnv) (Hc : calm_session le) (b : Z).
#[local] Instance calm_round : LoopRel le calm_rel := calm_loop le Hc.

(** What a computation that continues answers is below the budget. *)
Definition frugal {A} (tokens : A → option Z) (m : L A) : Prop := ∀ w t,
  has_budget b w → tokens (m w).1 = Some t → t < b.

Lemma frugal_bind {A B} (tokens : B → option Z) (m : L A) (k : A → L B) :
  keeps calm_rel m → (∀ a, frugal tokens (k a)) → frugal tokens (a ← m; k a).
Proof. intros Hm Hk w t Hb. rewrite loop_bind_run. apply Hk. eapply budget_calm; [apply Hm|exact Hb]. Qed.

Lemma frugal_ret {A} (tokens : A → option Z) (a : A) : tokens a = None → frugal tokens (mret a).
Proof. intros Ha w t _. cbn. by rewrite Ha. Qed.

Lemma prepare_frugal c :
  0 < b → frugal (λ p, (λ p, d_tokens (directive p)) <$> p) (prepare_goal_continuation le c).
Proof.
  intros H0. pose proof (lr_await (le := le) (R := calm_rel)) as Ha.
  apply frugal_bind; [apply (keeps_laziness le _)|]. intros act. case_match; [by apply frugal_ret|].
  apply frugal_bind; [done|]. intros _. apply frugal_bind; [apply (keeps_query le _)|]. intros p.
  apply frugal_bind.
  { destruct p; [|apply (keeps_ret le _)]. apply (keeps_bind le _); [done|]. intros _.
    apply (keeps_bind le _); [apply (keeps_query le _)|]. intros t. apply (keeps_ret le _). }
  intros p' w t Hb. rewrite loop_bind_run.
  pose proof (tokens_answer le c w) as Ht. pose proof (keeps_tokens le calm_rel c w) as Hcw.
  destruct (goal_tokens le c w) as [[tok fin] w1]. cbn [fst snd] in *. rewrite loop_bind_run.
  pose proof (budget_calm b _ _ Hcw Hb) as Hb1.
  pose proof (enforce_spec le Hc b c w1 Hb1) as [He _].
  pose proof (tokens_answer le c w1) as Ht1. pose proof (keeps_tokens le calm_rel c w1) as Hc1.
  assert (is_Some (goal_of w1) → is_Some (goal_of (goal_tokens le c w1).2)) as Hsome.
  { rewrite goal_tokens_run. intros [o Ho]. rewrite Ho. destruct (fold_records _ _). by eexists. }
  destruct (enforce_goal_token_budget le c w1) as [over w2]. cbn [fst snd] in *.
  destruct over; [done|]. do 3 rewrite loop_bind_run. rewrite get_goal_run.
  match goal with |- context [match goal_of ?x with _ => _ end] => destruct (goal_of x) as [o2|] end; [|discriminate]. rewrite !loop_bind_run. cbn. intros Hd. apply (inj Some) in Hd as <-.
  apply Z.max_lub_lt; [done|]. rewrite Ht.
  destruct (goal_of w1) as [o1|] eqn:Ho1; [|done].
  pose proof (tokens_mono w1 _ Hc1 (Hsome ltac:(by eexists))) as Hm. rewrite Ho1, <- Ht1 in Hm.
  destruct (Z.lt_ge_cases (goal_tokens le c w1).1.1 b) as [Hlt|Hge]; [lia|].
  assert (false = true) as Hx by (apply He; split; [by eexists|exact Hge]). discriminate Hx.
Qed.

(** Nothing in a round takes the budget away. *)
Definition same_budget (w w' : LWorld) : Prop := has_budget b w → has_budget b w'.

#[local] Instance budget_rel : LoopRel le same_budget.
Proof.
  pose proof calm_round as [Hr Ht Hq Hs Ha Hm Hp].
  assert (∀ w w', calm_rel w w' → same_budget w w') as Hsame by (intros w w' H Hw; by eapply budget_calm).
  split; [intros w; by apply Hsame| |intros; try intros w; apply Hsame; auto..]; cycle 1.
  - by apply Hs.
  - by apply Hp.
  - intros w1 w2 w3 H1 H2 Hw. by apply H2, H1.
Qed.

Lemma verify_budget : keeps same_budget (verify_goal_candidate le).
Proof.
  assert (∀ A (m : M A), calmly m → keeps same_budget (on_tracker m)) as Hcalm.
  { intros A m Hm w Hw. eapply budget_calm; [|exact Hw]. by apply calm_rel_tracker. }
  assert (keeps same_budget (on_tracker rollback_classifier_attempt)) as Hback.
  { intros w Hw. unfold has_budget, goal_of in *. rewrite on_tracker_world. cbn.
    destruct (orchestration _) as [o|]; intros o'; [|done]. cbn. intros Ho. apply (inj Some) in Ho as <-. exact (Hw o eq_refl). }
  apply (keeps_bind le _); [apply (keeps_policy le _)|]. intros policy. case_match.
  { apply (keeps_bind le _); [apply (keeps_pause le _)|]. intros _. apply (keeps_ret le _). }
  apply (keeps_bind le _); [apply (keeps_get le _)|]. intros g. destruct (max_runs policy <=? _); [apply (keeps_cap le _)|].
  apply (keeps_bind le _).
  { apply (keeps_get_then same_budget). intros w. destruct (goal_of w) as [o|] eqn:Ho; [|by intros Hw].
    rewrite loop_bind_run. intros Hw o' Ho'. cbn in Ho'. apply (inj Some) in Ho' as <-. exact (Hw o Ho). }
  intros [attempt|]; [|apply (keeps_ret le _)].
  apply (keeps_bind le _); [apply (keeps_total le _)|]. intros c. apply (keeps_bind le _); [apply (keeps_verifying le _)|].
  intros _. apply (keeps_bind le _); [apply (keeps_stage le _)|]. intros oc.
  apply (keeps_bind le _); [apply (keeps_with_goal le _); intros o; minor|]. intros _.
  apply (keeps_bind le _); [by intros w Hw|]. intros _. apply (keeps_bind le _); [apply (keeps_status le _)|].
  intros s. case_match; [apply (keeps_ret le _)|]. destruct oc as [d|d gs ps fp|d ps|r d].
  - apply (keeps_achieved le _), Hcalm. unfold complete. apply calmly_finish. discriminate.
  - apply (keeps_rejected le _). intros fire. apply Hcalm, calmly_claim.
  - by apply (keeps_impasse le _).
  - apply (keeps_bind le _); [exact Hback|]. intros _. apply (keeps_bind le _); [apply (keeps_pause le _)|].
    intros _. apply (keeps_ret le _).
Qed.

Lemma frugal_after {A B} (tokens : B → option Z) (m : L A) (k : A → L B) :
  keeps same_budget m → (∀ a, frugal tokens (k a)) → frugal tokens (a ← m; k a).
Proof. intros Hm Hk w t Hb. rewrite loop_bind_run. by apply Hk, Hm. Qed.

Lemma round_frugal :
  0 < b → frugal (λ r, match r with RContinue d => Some (d_tokens d) | REndTurn => None end) (run_goal_round_end le).
Proof.
  intros H0. apply frugal_after; [apply (keeps_laziness le _)|]. intros act. case_match; [by apply frugal_ret|].
  apply frugal_after; [apply (keeps_evaluate le _)|]. intros [v|e].
  2: { apply frugal_after; [apply (keeps_progress le _)|]. intros _. apply frugal_after; [apply (keeps_pause le _)|].
       intros _. by apply frugal_ret. }
  apply frugal_after; [apply (keeps_total le _)|]. intros c. apply frugal_after; [apply (keeps_enforce le _)|].
  intros over. case_match; [by apply frugal_ret|].
  apply frugal_after; [apply (keeps_decision le _), verify_budget|]. intros _.
  apply frugal_after; [apply (keeps_status le _)|]. intros s. case_match; [by apply frugal_ret|].
  apply frugal_after; [apply (keeps_total le _)|]. intros c' w t Hb. rewrite loop_bind_run.
  pose proof (prepare_frugal c' H0 w) as Hp. destruct (prepare_goal_continuation le c' w) as [[p|] w1]; [|discriminate].
  cbn [fst snd fmap option_fmap option_map] in *. rewrite !loop_bind_run. cbn. intros Ht. by apply Hp.
Qed.
End budget_round.

(** C34: the budget.  While nobody else replaces the goal or its budget: the
    check stops a goal exactly when the tokens counted have reached the budget,
    and a goal it stops does not run; and a round hands out another
    instruction only with fewer tokens counted than the budget. *)
Theorem budget_respected le c w b :
  calm_session le → has_budget b w → 0 < b →
  ((enforce_goal_token_budget le c w).1 = true ↔ is_Some (goal_of w) ∧ b ≤ (goal_tokens le c w).1.1) ∧
  ((enforce_goal_token_budget le c w).1 = true → active_in (enforce_goal_token_budget le c w).2 = false) ∧
  (∀ d, (run_goal_round_end le w).1 = RContinue d → d_tokens d < b).
Proof.
  intros Hc Hb H0. destruct (enforce_spec le Hc b c w Hb) as [H1 H2]. split_and!; [done|done|].
  intros d Hd. apply (round_frugal le Hc b H0 w); [done|]. by rewrite Hd.
Qed.

(** A goal of 1000 tokens, of which 100 are used, goes on; one of 50 stops. *)
Lemma budget_respected_witness :
  d_tokens (match (run_goal_round_end (demo_loop [] (lit "continue")) (demo_start (Some 1000))).1 with
            | RContinue d => d | REndTurn => mkDirective [] 0 0 false None None None None [] None [] false [] end) < 1000 ∧
  (enforce_goal_token_budget (demo_loop [] (lit "continue")) 100 (demo_start (Some 50))).1 = true.
Proof.
  assert (Hb : ∀ b, has_budget b (demo_start (Some b))).
  { intros b o Ho. assert (E : token_budget <$> goal_of (demo_start (Some b)) = Some (Some b)) by (vm_compute; reflexivity).
    rewrite Ho in E. by apply (inj Some) in E. }
  split.
  - destruct (run_goal_round_end (demo_loop [] (lit "continue")) (demo_start (Some 1000))) as [[d|] w'] eqn:E; [|reflexivity].
    apply (budget_respected (demo_loop [] (lit "continue")) 0 (demo_start (Some 1000)) 1000);
      [intros n; constructor|apply Hb|reflexivity|by rewrite E].
  - apply (budget_respected (demo_loop [] (lit "continue")) 100 (demo_start (Some 50)) 50);
      [intros n; constructor|apply Hb|reflexivity|]. split; [|vm_compute; discriminate].
    eexists. vm_compute. reflexivity.
Defined.

(** * Blockers *)

(** Recording the progress of a round changes the history and the number of
    rounds, nothing else. *)
Lemma progress_goal le det f w :
  ∃ g, goal_of (record_goal_round_progress le det f w).2 = g <$> goal_of w ∧
       ∀ o, status (g o) = status o ∧ evaluator_blocker_key (g o) = evaluator_blocker_key o ∧
            evaluator_blocked_streak (g o) = evaluator_blocked_streak o.
Proof.
  unfold record_goal_round_progress. cbn zeta. rewrite get_goal_run, !loop_bind_run.
  match goal with |- context [append_history ?e] => set (entry := e) end. clearbody entry.
  exists (λ o, o <| total_worker_rounds ::= λ n, sat_add 32 n 1 |> <| history ::= append_entry entry |>).
  split; [|done]. unfold append_history. rewrite goal_of_with, goal_of_untouched by done.
  rewrite goal_of_with. by destruct (goal_of w).
Qed.

Lemma blocker_goal key w :
  goal_of (on_tracker (record_evaluator_blocker key) w).2 = blocker_fields key <$> goal_of w ∧
  (on_tracker (record_evaluator_blocker key) w).1 =
    match goal_of w with Some o => evaluator_blocked_streak (blocker_fields key o) | None => 0 end.
Proof.
  unfold goal_of. rewrite on_tracker_world. unfold on_tracker. rewrite on_panel_answer. unfold on_base.
  unfold record_evaluator_blocker. rewrite goal_bind_run. cbn [fst snd get_goal].
  by destruct (orchestration (tracker_of w)) as [o|] eqn:Ho; cbn; rewrite ?Ho.
Qed.

Lemma persist_goal w : goal_of (persist_goal_state w).2 = goal_of w.
Proof. unfold persist_goal_state. rewrite get_goal_run. by destruct (goal_of w) eqn:Ho. Qed.

(** blockers.  A verdict that the round is blocked continues the streak of
    its key.  When the last three verdicts all named the same blocker the goal
    is paused: it does not run when the verdict has been applied.  Otherwise
    its status is what it was, and the streak is carried on. *)
Theorem third_blocker_pauses le v w o keys :
  calm_session le → decision v = DBlocked → goal_of w = Some o → zlen keys < umax 32 →
  (evaluator_blocker_key o, evaluator_blocked_streak o) = streak (None, 0) keys →
  let k := trim (blocker_key v) in
  let w' := (apply_decision le v w).2 in
  (replicate 3 k `suffix_of` keys ++ [k] → active_in w' = false) ∧
  (¬ replicate 3 k `suffix_of` keys ++ [k] →
   ∃ o', goal_of w' = Some o' ∧ status o' = status o ∧
         (evaluator_blocker_key o', evaluator_blocked_streak o') = streak (None, 0) (keys ++ [k])).
Proof.
  intros Hc Hv Ho Hlen Hs k w'. subst w'. unfold apply_decision. rewrite Hv. rewrite loop_bind_run.
  destruct (progress_goal le (ev_evidence v) false w) as (g & Hg & Hgs). rewrite Ho in Hg. cbn in Hg.
  set (w1 := (record_goal_round_progress _ _ _ w).2) in *. clearbody w1. destruct (Hgs o) as (Hst & Hk & Hn).
  rewrite loop_bind_run. destruct (blocker_goal k w1) as [Hg2 Ha2]. fold k. rewrite Ha2, Hg. rewrite Hg in Hg2.
  set (w2 := (on_tracker (record_evaluator_blocker k) w1).2) in *. clearbody w2. cbn in Hg2.
  rewrite loop_bind_run. pose proof (persist_goal w2) as Hg3. rewrite Hg2 in Hg3.
  set (w3 := (persist_goal_state w2).2) in *. clearbody w3.
  assert ((evaluator_blocker_key (blocker_fields k (g o)), evaluator_blocked_streak (blocker_fields k (g o))) =
          streak (None, 0) (keys ++ [k])) as Hs'.
  { unfold streak in *. rewrite foldl_app, <- Hs. cbn. by rewrite Hk, Hn. }
  destruct (streak_spec (keys ++ [k])) as (_ & _ & Hrep); [rewrite zlen_app, zlen_cons, zlen_nil; lia|].
  specialize (Hrep k 3%nat (last_snoc _ _)). rewrite Hrep, <- Hs'. cbn [fst snd].
  destruct (Z.ltb_spec (evaluator_blocked_streak (blocker_fields k (g o))) 3) as [Hlt|Hge].
  - split; [lia|]. intros _. exists (blocker_fields k (g o)). split; [exact Hg3|]. split; [exact Hst|done].
  - split; [|lia]. intros _. rewrite loop_bind_run.
    pose proof (pause_stops le PVerification (Some (ev_evidence v ++ [NL] ++ lit "Next user action: " ++ next_step v)) w3) as Hp.
    unfold auto_pause_goal_if_active_with_message. set (r := auto_pause_goal_if_active_inner _ _ _ w3) in *. clearbody r.
    destruct r as [paused w4]. cbn [fst snd] in *. destruct paused; [|exact Hp].
    pose proof (calm_loop le Hc) as HR. apply (calm_inactive w4); [|exact Hp]. rewrite loop_bind_run.
    match goal with |- calm_rel _ (await _ (say ?e _).2).2 => apply (calm_rel_trans _ (say e w4).2) end.
    + by apply (keeps_say le calm_rel).
    + apply (lr_await (le := le) (R := calm_rel)).
Qed.

Lemma third_blocker_pauses_witness :
  let le := demo_loop [] (lit "blocked") in
  let v := mkEvalVerdict DBlocked (lit "no key") (lit "ask for one") (lit "key") in
  let w := (apply_decision le v (apply_decision le v (demo_start None)).2).2 in
  active_in (apply_decision le v w).2 = false.
Proof.
  intros le v w. assert (Hk : (λ o, (evaluator_blocker_key o, evaluator_blocked_streak o)) <$> goal_of w
    = Some (streak (None, 0) [lit "key"; lit "key"])) by (vm_compute; reflexivity).
  destruct (goal_of w) as [o|] eqn:Ho; [|discriminate Hk]. apply (inj Some) in Hk.
  apply (third_blocker_pauses le v w o [lit "key"; lit "key"]);
    [intros n; constructor|reflexivity|exact Ho|reflexivity|exact Hk|exists []; reflexivity].
Defined.

(** * The count of tokens *)

(** What a counter that can be reset has risen, reading by reading. *)
Fixpoint rises (last : Z) (l : list Z) : Z :=
  match l with [] => 0 | c :: l => Z.max 0 (c - last) + rises c l end.

(** The totals after each reading: what the session has spent so far, and what
    its subagents are known to have used by then. *)
Fixpoint totals (last spent : Z) (l : list (Z * Z)) : list Z :=
  match l with
  | [] => []
  | (c, sub) :: l => let spent := spent + Z.max 0 (c - last) in sat_add_i64 spent sub :: totals c spent l
  end.

Lemma ratchet_fields c s o :
  let last := default (token_baseline o) (last_session_tokens_seen o) in
  0 ≤ last ≤ i64_max → 0 ≤ c ≤ i64_max → 0 ≤ parent_tokens_spent o →
  parent_tokens_spent o + Z.max 0 (c - last) ≤ i64_max →
  let o' := ratchet c s o in
  last_session_tokens_seen o' = Some c ∧
  parent_tokens_spent o' = parent_tokens_spent o + Z.max 0 (c - last) ∧
  tokens_used_high_water o' = Z.max (tokens_used_high_water o) (sat_add_i64 (parent_tokens_spent o') s).
Proof.
  intros last Hl Hc Hs Hmax. unfold ratchet. fold last. cbn zeta.
  assert (last < c → wrap_i64 (c - last) = c - last) as Hw.
  { intros Hlt. unfold wrap_i64, i64_max in *. rewrite Z.mod_small; lia. }
  destruct (Z.ltb_spec last c) as [Hlt|Hge]; cbn -[Z.pow sat_add_i64]; split_and!; try done.
  - rewrite Hw by done. unfold sat_add_i64, i64_min. lia.
  - lia.
Qed.

(** the count of tokens.  Through any sequence of readings, the session's
    counter falling back to nothing whenever it is compacted, the goal has
    been charged every rise and no fall; and what is held against its budget
    is the highest total any reading has given. *)
Theorem tokens_count_rises o l :
  let last := default (token_baseline o) (last_session_tokens_seen o) in
  0 ≤ last ≤ i64_max → Forall (λ r : Z * Z, 0 ≤ r.1 ≤ i64_max) l →
  0 ≤ parent_tokens_spent o → parent_tokens_spent o + rises last l.*1 ≤ i64_max →
  let o' := foldl (λ o r, ratchet r.1 r.2 o) o l in
  parent_tokens_spent o' = parent_tokens_spent o + rises last l.*1 ∧
  tokens_used_high_water o' = foldl Z.max (tokens_used_high_water o) (totals last (parent_tokens_spent o) l).
Proof.
  assert (∀ last l, 0 ≤ rises last l) as Hpos by (intros last k; revert last; induction k as [|c k IH]; intros last; cbn; [lia|]; specialize (IH c); lia).
  intros last Hlast Hl. revert o last Hlast. induction Hl as [|[c s] l Hc _ IH]; intros o last Hlast Hs Hmax; cbn; [split; [lia|done]|].
  cbn in Hmax, Hc. pose proof (Hpos c l.*1) as Hr.
  destruct (ratchet_fields c s o Hlast Hc Hs) as (H1 & H2 & H3); [fold last; lia|]. fold last in H2.
  destruct (IH (ratchet c s o)) as [IH1 IH2]; rewrite ?H1; cbn [default from_option id] in *; [done|lia|lia|].
  rewrite H1 in IH1, IH2. cbn [default from_option id] in *. split; [rewrite IH1; lia|]. rewrite IH2, H3, H2. done.
Qed.

(** Two compactions: 100 and then 40 more, then 30 after each. *)
Lemma tokens_count_rises_witness :
  let o := fresh_goal [] [] None 0 [] [] None true in
  let o' := foldl (λ o r, ratchet r.1 r.2 o) o [(100, 0); (140, 5); (0, 5); (30, 5); (0, 9); (30, 9)] in
  parent_tokens_spent o' = 200 ∧ tokens_used_high_water o' = 209.
Proof.
  intros o o'. destruct (tokens_count_rises o [(100, 0); (140, 5); (0, 5); (30, 5); (0, 9); (30, 9)]) as [H1 H2].
  - vm_compute. split; discriminate.
  - repeat constructor; vm_compute; discriminate.
  - vm_compute. discriminate.
  - vm_compute. discriminate.
  - split; [exact H1|exact H2].
Defined.
