(* ===== verification/GoalLoopSafety.v ===== *)
(** Safety of the goal loop: a turn completes a goal only when a panel
    approved it in that turn, and whatever goes wrong pauses the goal. *)
From S2P Require Import Prelude Str Path GoalTracker GoalTrackerThms GoalPanel GoalPanelThms GoalLoop GoalLoopThms GoalLoopBounds.

(** * The rest of the session *)

(** It does not complete goals itself and does not restore completed ones. *)
Definition honest (op : goal_op) : Prop :=
  edit_ok op ∧ match op with OComplete => False | ORestore s => status s ≠ Complete | _ => True end.

Definition honest_session (le : LoopEnv) : Prop := ∀ n, Forall honest (meddle le n).

Lemma honest_step op s : honest op → lifecycle op s = Some Complete → s = Some Complete.
Proof.
  intros [_ Hop]. destruct op, s as [s|]; cbn [lifecycle]; try done.
  all: try (case_decide; [done|]; by intros [= Hs]).
  all: by destruct s; try destruct reason.
Qed.

Lemma honest_run env dir ops w :
  Forall honest ops → goal_inv w →
  goal_inv (run env dir ops w).2 ∧
  (status_of (run env dir ops w).2 = Some Complete → status_of w = Some Complete).
Proof.
  intros Hops HI. destruct (run_lifecycle env dir ops w) as [HI' ->]; [|done|split; [done|]].
  { eapply Forall_impl; [exact Hops|]. by intros op [? _]. }
  clear HI HI'. generalize (status_of w). induction Hops as [|op ops Hop _ IH]; intros s; [done|].
  cbn [foldl flip]. intros Hs%IH. by eapply honest_step.
Qed.

(** * What a turn does to the status *)

Definition status_in (w : LWorld) : option GoalStatus := status_of (base (lpanel w)).
Definition inv_in (w : LWorld) : Prop := goal_inv (base (lpanel w)).

(** Nothing said is unsaid, nobody spawned is forgotten. *)
Definition grows (w w' : LWorld) : Prop :=
  log w `prefix_of` log w' ∧ spawns (lpanel w) `prefix_of` spawns (lpanel w').

(** Between the two, a panel approved, on somebody's answer. *)
Definition approved_between (le : LoopEnv) (w w' : LWorld) : Prop :=
  (∃ a d, LPanel a (OAchieved d) ∈ drop (length (log w)) (log w')) ∧
  ∃ idx, answered (lpe le) (length (spawns (lpanel w))) idx (lpanel w').

Lemma drop_prefix {A} (n : nat) (l l' : list A) : l `prefix_of` l' → drop n l `prefix_of` drop n l'.
Proof. intros [k ->]. rewrite drop_app. by apply prefix_app_r. Qed.

Lemma elem_of_prefix {A} (x : A) l l' : l `prefix_of` l' → x ∈ l → x ∈ l'.
Proof. intros [k ->] Hx. apply elem_of_app. by left. Qed.

Lemma approved_later le w1 w2 w3 : approved_between le w1 w2 → grows w2 w3 → approved_between le w1 w3.
Proof.
  intros [(a & d & Hl) (i & k & s & t & Hk & Hs & Hi)] [Hg Hp]. split.
  - exists a, d. eapply elem_of_prefix; [|exact Hl]. by apply drop_prefix.
  - exists i, k, s, t. split; [done|]. split; [|done]. by eapply prefix_lookup_Some.
Qed.

Lemma approved_earlier le w1 w2 w3 : grows w1 w2 → approved_between le w2 w3 → approved_between le w1 w3.
Proof.
  intros [Hg Hp] [(a & d & Hl) (i & k & s & t & Hk & Hs & Hi)].
  apply prefix_length in Hg, Hp. split.
  - exists a, d. replace (length (log w2)) with (length (log w1) + (length (log w2) - length (log w1)))%nat in Hl by lia.
    rewrite <- drop_drop in Hl. rewrite <- (take_drop (length (log w2) - length (log w1)) (drop _ _)), elem_of_app. by right.
  - exists i, k, s, t. split; [lia|done].
Qed.

(** With [lax] set, completion is not asked about. *)
Definition vouched (le : LoopEnv) (lax : bool) (w w' : LWorld) : Prop :=
  grows w w' ∧
  (inv_in w → inv_in w' ∧
   (lax = false → status_in w' = Some Complete → status_in w = Some Complete ∨ approved_between le w w')).

Lemma grows_refl w : grows w w.
Proof. done. Qed.

Lemma grows_trans w1 w2 w3 : grows w1 w2 → grows w2 w3 → grows w1 w3.
Proof. intros [? ?] [? ?]. split; by etrans. Qed.

#[local] Hint Resolve grows_refl : core.

Lemma vouched_same le lax w w' :
  grows w w' → core (base (lpanel w')) = core (base (lpanel w)) → vouched le lax w w'.
Proof.
  intros Hg Hc. split; [done|]. unfold inv_in, status_in, goal_inv, status_of. rewrite Hc. auto.
Qed.

Lemma minor_core t t' w w' :
  tracker w = t → tracker w' = t' → minor_tracker t t' →
  status_of w' = status_of w ∧ (goal_inv w → goal_inv w').
Proof.
  intros <- <- [Hm Ha]. unfold status_of, goal_inv, core. cbn [fst snd].
  destruct Hm as [o o' Hm|]; cbn.
  - destruct Hm as [-> -> _ _ _ _]. split; [done|]. intros [H1 H2]. split; [|done]. by rewrite Ha.
  - split; [done|]. intros Hn. rewrite Hn in Ha. destruct (active_since (tracker w')); [|done].
    by destruct (proj1 Ha ltac:(by eexists)).
Qed.

Lemma on_tracker_grows {A} (m : M A) w : grows w (on_tracker m w).2.
Proof. unfold on_tracker. rewrite on_panel_world. split; [done|]. cbn. by rewrite on_base_spawns. Qed.

#[export] Instance grows_rel le : LoopRel le grows.
Proof.
  split.
  - intros w. by apply grows_refl.
  - intros w1 w2 w3. apply grows_trans.
  - intros w. by split.
  - intros e _ w. split; [by apply prefix_app_r|done].
  - intros w. unfold await. rewrite loop_bind_run.
    apply (grows_trans _ (w <| ticks ::= S |>)); [by split|apply on_tracker_grows].
  - intros w p Hp _. by split.
  - intros op _ w. apply on_tracker_grows.
Qed.

Lemma vouched_step le lax op w :
  edit_ok op → (lax = false → honest op) →
  vouched le lax w (on_tracker (step (penv (lpe le)) (ldir le) op) w).2.
Proof.
  intros Hop Hh. split; [apply on_tracker_grows|]. intros HI. unfold inv_in, status_in. rewrite on_tracker_base.
  destruct (step_lifecycle (penv (lpe le)) (ldir le) op _ Hop HI) as (Hs & Hi & _). split; [done|].
  intros Hl Hc. rewrite Hs in Hc. left. by eapply honest_step; [apply Hh|].
Qed.

Lemma vouched_rel le lax : honest_session le → LoopRel le (vouched le lax).
Proof.
  intros Hhon. split.
  - intros w. by apply vouched_same.
  - intros w1 w2 w3 [G1 H1] [G2 H2]. split; [by eapply grows_trans|]. intros HI.
    destruct (H1 HI) as [HI2 Hs1]. destruct (H2 HI2) as [HI3 Hs2]. split; [done|]. intros Hl Hc.
    destruct (Hs2 Hl Hc) as [Hc2|Ha]; [|right; by eapply approved_earlier].
    destruct (Hs1 Hl Hc2) as [|Ha]; [by left|right; by eapply approved_later].
  - intros w. by apply vouched_same; [split|].
  - intros e _ w. apply vouched_same; [|done]. split; [by apply prefix_app_r|done].
  - intros w. unfold await. rewrite loop_bind_run. cbn [query fst snd].
    split; [apply (grows_trans _ (w <| ticks ::= S |>)); [by split|apply on_tracker_grows]|]. intros HI. unfold inv_in, status_in. rewrite on_tracker_base.
    destruct (honest_run (penv (lpe le)) (ldir le) _ _ (Hhon (ticks w)) HI) as [HI' Hs].
    split; [exact HI'|]. intros _ Hc. left. by apply Hs.
  - intros w p Hp Hm. split; [split; done|]. intros HI.
    destruct (minor_core _ _ (base (lpanel w)) (base p) eq_refl eq_refl Hm) as [Hs Hi].
    split; [by apply Hi|]. intros _ Hc. left. unfold status_in. rewrite <- Hs. exact Hc.
  - intros op Hop w. apply vouched_step; [by destruct op|]. intros _. by destruct op; try done; split.
Qed.

(** * Verification *)

Section safety.
Context (le : LoopEnv) (Hhon : honest_session le).
#[local] Existing Instance lr_trans.
#[local] Instance vouched_loop lax : LoopRel le (vouched le lax) := vouched_rel le lax Hhon.

Lemma vouched_frame lax {A} (m : M A) : frame m → keeps (vouched le lax) (on_tracker m).
Proof.
  intros Hm w. apply vouched_same; [apply on_tracker_grows|]. by rewrite on_tracker_base, Hm.
Qed.

Lemma vouched_say lax e : keeps (vouched le lax) (say e).
Proof. intros w. apply vouched_same; [|done]. split; [by apply prefix_app_r|done]. Qed.

Lemma vouched_goal lax f :
  (∀ o, status (f o) = status o ∧ pause_message (f o) = pause_message o) →
  keeps (vouched le lax) (on_tracker (with_goal f)).
Proof. intros Hf. by apply vouched_frame, frame_with_goal. Qed.

Lemma vouched_put lax o o' w :
  goal_of w = Some o → status o' = status o → pause_message o' = pause_message o →
  vouched le lax w (on_tracker (put_goal (Some o')) w).2.
Proof.
  intros Ho Hs Hm. apply vouched_same; [apply on_tracker_grows|]. rewrite on_tracker_base.
  unfold core. cbn. unfold goal_of in Ho. rewrite Ho. cbn. by rewrite Hs, Hm.
Qed.

#[local] Abbreviation V := (vouched le false).
#[local] Abbreviation W := (vouched le true).

(** Only an approval completes. *)
Lemma vouched_applied lax policy attempt oc :
  match oc with OAchieved _ => lax = true | _ => True end →
  keeps (vouched le lax) (apply_classifier_outcome le policy attempt oc).
Proof.
  intros Hoc. destruct oc as [d|d g p f|d p|r d].
  - subst lax. apply (keeps_achieved le W). intros w. by apply (vouched_step le true OComplete).
  - apply (keeps_rejected le _). intros fire. apply vouched_frame, frame_claim.
  - apply (keeps_impasse le _). by apply vouched_goal.
  - apply (keeps_failed_open le _).
Qed.

(** An approving stage spawned somebody who answered. *)
Definition approves (m : L GoalClassifierOutcome) : Prop := ∀ w d,
  (m w).1 = OAchieved d → ∃ idx, answered (lpe le) (length (spawns (lpanel w))) idx (lpanel (m w).2).

Lemma approves_bind {A} (m : L A) k : keeps grows m → (∀ a, approves (k a)) → approves (a ← m; k a).
Proof.
  intros Hm Hk w d. rewrite loop_bind_run. intros Hd. destruct (Hk _ _ _ Hd) as (i & n & s & t & Hn & Hi).
  destruct (Hm w) as [_ Hp%prefix_length]. exists i, n, s, t. split; [lia|exact Hi].
Qed.

Lemma stage_approves attempt m : approves (run_verification_stage_for_drain le attempt m).
Proof.
  pose proof (lr_await (le := le) (R := grows)) as Ha.
  apply approves_bind; [apply (keeps_get le grows)|]. intros [o|]; [|done].
  apply approves_bind; [done|]. intros _. apply approves_bind; [apply (keeps_query le grows)|]. intros cur.
  apply approves_bind; [done|]. intros _. case_match; [done|].
  apply approves_bind; [done|]. intros _. apply approves_bind.
  { case_match; [apply (keeps_ret le grows)|]. apply (keeps_bind le grows); [|done].
    apply (keeps_with_goal le grows). intros o'. minor. }
  intros _ w d. rewrite loop_bind_run.
  match goal with |- context [run_verification_stage ?p ?i] => set (inp := i) end.
  pose proof (approval_answered (lpe le) inp (lpanel w) d) as Hd.
  rewrite on_panel_answer, on_panel_world, !loop_bind_run. cbn [fst snd mret St_ret]. intros Ho.
  destruct (Hd Ho) as (i & n & s & t & Hn & Hs & Hi).
  exists i, n, s, t. split; [exact Hn|]. split; [|exact Hi]. eapply prefix_lookup_Some; [exact Hs|].
  set (w2 := w <| lpanel := _ |>). apply (grows_trans w2 (await le w2).2); [apply Ha|].
  case_match; [apply on_tracker_grows|done].
Qed.

(** ** A candidate *)

Lemma vouched_reserve policy : keeps V (reserve_classifier_attempt_slot policy).
Proof.
  apply (keeps_get_then V). intros w. destruct (goal_of w) as [o|] eqn:Ho; [|apply (keeps_ret le V)].
  rewrite loop_bind_run. by apply (vouched_put false o).
Qed.

(** What is done with the outcome, once it has been said. *)
Lemma vouched_outcome attempt w w1 w2 oc :
  V w w1 → (∀ d, oc = OAchieved d → ∃ idx, answered (lpe le) (length (spawns (lpanel w))) idx (lpanel w1)) →
  w2 = (say (LPanel attempt oc) (on_tracker (with_goal (λ o, o <| verifying_in_flight := false |>)) w1).2).2 →
  V w w2 ∧ (∀ d, oc = OAchieved d → approved_between le w w2).
Proof.
  intros HV Ha ->. set (w1' := (on_tracker _ w1).2).
  assert (V w w1') as HV'.
  { etrans; [exact HV|]. by apply vouched_goal. }
  split; [etrans; [exact HV'|apply vouched_say]|]. intros d ->. destruct HV' as [[Hl _] _]. split.
  - exists attempt, d. cbn. rewrite drop_app_le by (by apply prefix_length). apply elem_of_app. right. left.
  - destruct (Ha d eq_refl) as (i & k & s & t & Hk & Hs & Hi). exists i, k, s, t. split; [exact Hk|]. split; [|exact Hi].
    eapply prefix_lookup_Some; [exact Hs|]. apply (on_tracker_grows (with_goal _) w1).
Qed.

Lemma approved_vouched w w1 w2 : V w w1 → approved_between le w w1 → W w1 w2 → V w w2.
Proof.
  intros [Hg Hi] Ha [Hg' Hi']. split; [by eapply grows_trans|]. intros HI. destruct (Hi HI) as [HI1 _].
  destruct (Hi' HI1) as [HI2 _]. split; [done|]. intros _ _. right. by eapply approved_later.
Qed.

Lemma keeps_verify : keeps V (verify_goal_candidate le).
Proof.
  apply (keeps_bind le V); [apply (keeps_policy le V)|]. intros policy. case_match.
  { apply (keeps_bind le V); [apply (keeps_pause le V)|]. intros _. apply (keeps_ret le V). }
  apply (keeps_bind le V); [apply (keeps_get le V)|]. intros g. case_match; [apply (keeps_cap le V)|].
  apply (keeps_bind le V); [apply vouched_reserve|]. intros [attempt|]; [|apply (keeps_ret le V)].
  apply (keeps_bind le V); [apply (keeps_total le V)|]. intros c.
  apply (keeps_bind le V); [apply (keeps_verifying le V)|]. intros _.
  intros w. rewrite loop_bind_run.
  pose proof (keeps_stage le V attempt (max_runs policy) w) as HV.
  pose proof (stage_approves attempt (max_runs policy) w) as Ha.
  destruct (run_verification_stage_for_drain le attempt (max_runs policy) w) as [oc w1]. cbn [fst snd] in *.
  rewrite loop_bind_run, loop_bind_run.
  match goal with |- context [say _ ?x] => set (w2 := (say (LPanel attempt oc) x).2) end.
  destruct (vouched_outcome attempt w w1 w2 oc HV Ha eq_refl) as [HV2 Hap]. clearbody w2.
  rewrite loop_bind_run, goal_status_run. cbn [fst snd]. destruct (is_active _); cbn [negb]; [|exact HV2]. destruct oc as [d|d gs ps fp|d ps|r d].
  - eapply approved_vouched; [exact HV2|by apply (Hap d)|]. by apply vouched_applied.
  - etrans; [exact HV2|]. by apply vouched_applied.
  - etrans; [exact HV2|]. by apply vouched_applied.
  - etrans; [exact HV2|]. apply (keeps_bind le V); [by apply vouched_goal|]. intros _.
    apply (keeps_bind le V); [apply (keeps_pause le V)|]. intros _. apply (keeps_ret le V).
Qed.
End safety.

(** C2: a goal is completed by an approving panel.  Whatever the model, the
    evaluator, the skeptics and the strategist answer, and whatever else the
    session does to the tracker meanwhile short of completing the goal itself,
    a turn of any length ends with the goal complete only if it began that
    way, or a panel approved during the turn, on the answer of a skeptic that
    was spawned during the turn.  The tracker's invariant holds throughout. *)
Theorem completion_needs_approval le fuel w :
  honest_session le → inv_in w →
  let w' := (goal_turn le fuel w).2 in
  inv_in w' ∧ (status_in w' = Some Complete → status_in w = Some Complete ∨ approved_between le w w').
Proof.
  intros Hhon HI w'. pose proof (vouched_rel le false Hhon) as HR.
  destruct (keeps_turn le _ fuel (keeps_round_end le (vouched le false) (keeps_verify le Hhon)) w) as [_ Hv].
  destruct (Hv HI) as [HI' Hs]. split; [exact HI'|by apply Hs].
Qed.

Lemma completion_needs_approval_witness :
  let w' := (goal_turn (demo_loop (lit "Not Refuted") (lit "complete")) 1 (demo_start None)).2 in
  status_in w' = Some Complete ∧
  approved_between (demo_loop (lit "Not Refuted") (lit "complete")) (demo_start None) w'.
Proof.
  assert (Hs : status_in (goal_turn (demo_loop (lit "Not Refuted") (lit "complete")) 1 (demo_start None)).2
               = Some Complete) by (vm_compute; reflexivity).
  split; [exact Hs|].
  destruct (completion_needs_approval (demo_loop (lit "Not Refuted") (lit "complete")) 1 (demo_start None))
    as [_ Hc].
  - intros n. constructor.
  - apply (proj1 (run_lifecycle demo_env (lit "/s") [OCreate (lit "g1") (lit "ship it") None 0 (lit "now") None]
             (start (lit "/s")) ltac:(by repeat constructor) eq_refl)).
  - destruct (Hc Hs) as [H|H]; [|exact H]. vm_compute in H. discriminate H.
Defined.

(** * Failures *)

Section failures.
Context (le : LoopEnv) (Hhon : honest_session le).
#[local] Instance failures_loop lax : LoopRel le (vouched le lax) := vouched_rel le lax Hhon.

Lemma inv_kept {A} (m : L A) w : keeps (vouched le true) m → inv_in w → inv_in (m w).2.
Proof. intros Hm HI. by apply Hm. Qed.

(** A panel judged between the two. *)
Definition judged_between (w w' : LWorld) : Prop :=
  ∃ a oc, LPanel a oc ∈ drop (length (log w)) (log w') ∧
          match oc with OFailOpenAchieved _ _ => False | _ => True end.

Lemma judged_later w w1 w2 : judged_between w w1 → grows w1 w2 → judged_between w w2.
Proof.
  intros (a & oc & Hl & Ho) [Hg _]. exists a, oc. split; [|done]. eapply elem_of_prefix; [|exact Hl]. by apply drop_prefix.
Qed.

Lemma bind_stops {A B} (m : L A) (k : A → L B) w :
  keeps (vouched le true) m → (∀ a w1, inv_in w1 → active_in (k a w1).2 = false) → inv_in w →
  active_in ((a ← m; k a) w).2 = false.
Proof. intros Hm Hk HI. rewrite loop_bind_run. apply Hk. by apply inv_kept. Qed.

Lemma failed_round_pauses e w :
  inv_in w → active_in
    ((_ ← record_goal_round_progress le e true;
      _ ← auto_pause_goal_if_active_with_message le PInfra
            (lit "Goal evaluation failed after a bounded retry: " ++ e
             ++ lit ". The goal was paused rather than treated as complete. Use /goal resume to retry.");
      mret REndTurn) w).2 = false.
Proof.
  intros HI. apply (bind_stops (record_goal_round_progress le e true)); [apply (keeps_progress le _)| |exact HI].
  intros _ w1 HI1. rewrite loop_bind_run. by apply pause_stops.
Qed.

(** Who is still active has been judged. *)
Definition judges {A} (m : L A) : Prop := ∀ w, inv_in w → active_in (m w).2 = true → judged_between w (m w).2.

Lemma judged_earlier w1 w2 w3 : grows w1 w2 → judged_between w2 w3 → judged_between w1 w3.
Proof.
  intros [Hg%prefix_length _] (a & oc & Hl & Ho). exists a, oc. split; [|done].
  replace (length (log w2)) with (length (log w1) + (length (log w2) - length (log w1)))%nat in Hl by lia.
  rewrite <- drop_drop in Hl. rewrite <- (take_drop (length (log w2) - length (log w1)) (drop _ _)), elem_of_app. by right.
Qed.

Lemma judges_bind {A B} (m : L A) (k : A → L B) :
  keeps (vouched le true) m → (∀ a, judges (k a)) → judges (a ← m; k a).
Proof.
  intros Hm Hk w HI. rewrite loop_bind_run. intros Ha.
  eapply judged_earlier; [apply (proj1 (Hm w))|]. apply Hk; [by apply inv_kept|exact Ha].
Qed.

Lemma judges_pause {B} r msg (b : B) : judges (_ ← auto_pause_goal_if_active_inner le r msg; mret b).
Proof. intros w HI. rewrite loop_bind_run. cbn [snd mret St_ret]. by rewrite pause_stops. Qed.

Lemma inactive_none w : goal_of w = None → active_in w = false.
Proof. unfold active_in. by intros ->. Qed.

Lemma candidate_judges : judges (verify_goal_candidate le).
Proof.
  apply judges_bind; [apply (keeps_policy le _)|]. intros policy. case_match; [apply judges_pause|].
  apply judges_bind; [apply (keeps_get le _)|]. intros g.
  destruct (max_runs policy <=? _).
  { apply judges_bind; [by apply (keeps_say le _)|]. intros _. apply judges_pause. }
  intros w HI. unfold reserve_classifier_attempt_slot. rewrite loop_bind_run, get_goal_run.
  destruct (goal_of w) as [o|] eqn:Ho; cbn [fst snd mret St_ret].
  2: { by rewrite inactive_none. }
  rewrite loop_bind_run. cbn [fst snd mret St_ret].
  pose proof (vouched_put le true o (reserve_fields policy o) w Ho eq_refl eq_refl) as [Hg Hi].
  set (w0 := (on_tracker (put_goal _) w).2) in *. destruct (Hi HI) as [HI0 _].
  intros Ha. eapply judged_earlier; [exact Hg|]. clear Hg Hi. clearbody w0. revert w0 HI0 Ha.
  change (judges (current ← get_total_tokens le; _ ← emit_goal_verifying le current;
    outcome ← run_verification_stage_for_drain le (classifier_runs_attempted (reserve_fields policy o)) (max_runs policy);
    _ ← on_tracker (with_goal (λ o, o <| verifying_in_flight := false |>));
    _ ← say (LPanel (classifier_runs_attempted (reserve_fields policy o)) outcome);
    s ← goal_status;
    if negb (is_active s) then mret tt
    else match outcome with
         | OFailOpenAchieved reason _ =>
             _ ← on_tracker rollback_classifier_attempt;
             _ ← auto_pause_goal_if_active_with_message le PInfra
                   (lit "Goal verification infrastructure failed (" ++ fail_open_str reason
                    ++ lit "). Resume with /goal to retry.");
             mret tt
         | _ => apply_classifier_outcome le policy (classifier_runs_attempted (reserve_fields policy o)) outcome
         end)).
  apply judges_bind; [apply (keeps_total le _)|]. intros c. apply judges_bind; [apply (keeps_verifying le _)|]. intros _.
  apply judges_bind; [apply (keeps_stage le _)|]. intros oc. apply judges_bind; [by apply vouched_goal|]. intros _.
  intros w1 HI1. rewrite loop_bind_run. set (w2 := (say _ w1).2). rewrite loop_bind_run.
  assert (inv_in w2) as HI2 by exact HI1. assert ((∀ r d, oc ≠ OFailOpenAchieved r d) → judged_between w1 w2) as Hj.
  { intros Hoc. exists (classifier_runs_attempted (reserve_fields policy o)), oc. cbn. rewrite drop_app_length. split; [left|].
    by destruct oc as [| | |r d]; try destruct (Hoc r d). }
  assert (grows w1 w2) as Hg by (split; [by apply prefix_app_r|done]).
  rewrite goal_status_run. cbn [fst snd]. fold (active_in w2). clearbody w2.
  destruct (active_in w2) eqn:Ha2; cbn [negb]; [|cbn [snd mret St_ret]; by rewrite Ha2].
  destruct oc as [d|d gs ps fp|d ps|r d].
  1-3: intros _; eapply judged_later; [by apply Hj|]; by apply (vouched_applied le Hhon true).
  intros Ha. eapply judged_earlier; [exact Hg|]. clear Hj Hg Ha2. revert w2 HI2 Ha.
  apply (judges_bind (on_tracker rollback_classifier_attempt)); [by apply vouched_goal|]. intros _. apply judges_pause.
Qed.
End failures.

(** C32: what goes wrong pauses the goal.  If the evaluator cannot be reached or
    understood, the round ends the turn, and the goal does not run any more.
    And a goal that still runs after a claim of completion was examined has
    been judged by a panel: with verification switched off, the attempts used
    up, or the panel's machinery broken, it does not run any more. *)
Theorem failures_pause le w :
  honest_session le → inv_in w →
  (∀ e, let w0 := (laziness_injection_active le w).2 in
        (laziness_injection_active le w).1 = true → (evaluate_goal_round le w0).1 = inr e →
        (run_goal_round_end le w).1 = REndTurn ∧ active_in (run_goal_round_end le w).2 = false) ∧
  (active_in (verify_goal_candidate le w).2 = true → judged_between w (verify_goal_candidate le w).2).
Proof.
  intros Hhon HI. split; [|by apply candidate_judges]. intros e w0 Hl He. pose proof (vouched_rel le true Hhon) as HR.
  unfold run_goal_round_end. rewrite loop_bind_run, Hl. cbn [negb]. fold w0. rewrite loop_bind_run.
  assert (inv_in (evaluate_goal_round le w0).2) as HI1
    by apply (inv_kept le _ w0 (keeps_evaluate le _)), (inv_kept le _ w (keeps_laziness le _)), HI.
  destruct (evaluate_goal_round le w0) as [r w1]. cbn [fst snd] in *. subst r.
  split; [by rewrite !loop_bind_run|]. by apply failed_round_pauses.
Qed.

Lemma failures_pause_witness :
  let w' := (run_goal_round_end (demo_loop (lit "Refuted") (lit "???")) (demo_start None)).2 in active_in w' = false.
Proof.
  eapply (failures_pause (demo_loop (lit "Refuted") (lit "???")) (demo_start None)).
  - intros n. constructor.
  - apply (proj1 (run_lifecycle demo_env (lit "/s") [OCreate (lit "g1") (lit "ship it") None 0 (lit "now") None]
             (start (lit "/s")) ltac:(by repeat constructor) eq_refl)).
  - vm_compute. reflexivity.
  - vm_compute. reflexivity.
Defined.
