(* ===== verification/GoalDirective.v ===== *)
(** The text of the next instruction of a goal: how the strings of the model,
    of the user and of the harness are put into the template of the
    continuation directive
    (src/crates/codegen/intellihelper-shell/src/session/acp_session_impl/goal_support.rs,
    goal.rs, and templates/goal_continuation_directive.md), and how the
    instruction of an earlier round is taken out of the conversation. *)
From S2P Require Import Prelude Str Template GoalPanel GoalLoop.

(** * Slots that the model writes *)

Definition neutralize_directive_braces (text : rstr) : rstr :=
  if contains_str [LBRACE] text || contains_str [RBRACE] text
  then text ≫= λ c, if c =? LBRACE then [LBRACE; ZWSP] else if c =? RBRACE then [ZWSP; RBRACE] else [c]
  else text.

Definition neutralize_directive_slot (text : rstr) : rstr :=
  let out := neutralize_directive_braces text in
  if contains_str (lit "system-reminder>") out || contains_str (lit "goal-state>") out
  then neutralize_reminder_tags out else out.

(** * The template *)

(** A piece of a template: text, a slot, the end of a line. *)
Definition txt (s : string) : piece := Lit (lit s).
Definition slot (s : string) : piece := Slot (lit s).
Definition nl : piece := Lit [NL].
Definition dash : piece := Lit [8212].

(** templates/goal_continuation_directive.md *)
Definition DIRECTIVE_HEAD : list piece :=
  [txt "<system-reminder>"; nl; txt "<goal-state>"; nl].

Definition DIRECTIVE_STATE : list piece :=
  [txt "Objective: "; slot "objective"; nl; txt "Status: Active"; nl;
   txt "Tokens: "; slot "tokens"; txt " | Elapsed: "; slot "elapsed"; nl].

Definition DIRECTIVE_BODY : list piece :=
  [nl; slot "bail_preface"; slot "plan_pointer"; slot "verifier_gaps"; slot "strategist_note";
   slot "reverify_block"; txt "Goal NOT complete "; dash; txt " continue working. Next step:"; nl;
   slot "next_step"; nl; nl;
   txt "Keep your "; slot "todo_tool"; txt " list current ("; Lit [8805]; txt "1 `in_progress`, descriptive"; nl;
   txt "`activeForm`). Run targeted tests after every change you make, not"; nl;
   txt "just at the end. Tests must drive the SHIPPED code on the real path "; dash; txt " no"; nl;
   txt "hard-coded values, no starting past the thing under test, no"; nl;
   txt "re-implementing it. Use your scratch dir "; slot "scratch_dir"; txt " "; slot "scratch_status"; txt " only for"; nl;
   txt "captured test output, temp scripts, and throwaway artifacts, never shared"; nl;
   txt "`/tmp/...`. Use existing user, system, or project defaults for execution"; nl;
   txt "dependencies and environment state. NEVER set `HOME`, `CARGO_HOME`, `RUSTUP_HOME`,"; nl;
   txt "package-manager homes, virtualenvs, caches, or config dirs to scratch, or persist"; nl;
   txt "references to scratch, which is deleted when the goal ends."; nl;
   txt "The plan's `{SCRATCH}` placeholder resolves there. The verifier AUDITS your committed tests"; nl;
   txt "and saved evidence rather than rebuilding them "; dash; txt " leave honest proof or you"; nl;
   txt "WILL be refuted."; nl;
   txt "Run the plan's `## Verification plan` steps yourself and confirm the"; nl;
   txt "observations it lists hold. The harness evaluates completion automatically"; nl;
   txt "after this round, re-checks the same steps adversarially when appropriate, and"; nl;
   txt "inlines any outstanding verifier gaps above."; nl].

Definition DIRECTIVE_PIECES : list piece :=
  DIRECTIVE_HEAD ++ DIRECTIVE_STATE ++ [txt "</goal-state>"; nl] ++ DIRECTIVE_BODY ++ [txt "</system-reminder>"; nl].

Definition GOAL_CONTINUATION_DIRECTIVE_TEMPLATE : rstr := show DIRECTIVE_PIECES.

Definition GOAL_CONTINUATION_SENTINEL : rstr := lit "Goal NOT complete " ++ [8212] ++ lit " continue working. Next step:".

Definition GOAL_CONTINUATION_BAIL_PREFACE : rstr :=
  lit "You appear to be stopping or handing off, but the goal is NOT complete and todos remain. Do not end the turn here "
  ++ [8212] ++ lit " keep working." ++ [NL; NL].

(** * Rendering *)

Section render.
Context (objective : rstr) (tokens : Z) (elapsed bail_preface plan_pointer verifier_gaps strategist_note
  reverify_block next_step todo_tool scratch_dir : rstr) (scratch_ready : bool).

(** The replacements, in order. *)
Definition directive_values : values :=
  [(lit "objective", objective);
   (lit "tokens", fmt_dec tokens);
   (lit "elapsed", elapsed);
   (lit "bail_preface", neutralize_directive_slot bail_preface);
   (lit "plan_pointer", plan_pointer);
   (lit "verifier_gaps", neutralize_directive_slot verifier_gaps);
   (lit "reverify_block", reverify_block);
   (lit "next_step", neutralize_directive_slot next_step);
   (lit "todo_tool", todo_tool);
   (lit "scratch_dir", scratch_dir);
   (lit "scratch_status", if scratch_ready then lit "(created for you)" else lit "(create with `mkdir -p` if missing)");
   (lit "strategist_note", neutralize_directive_slot strategist_note)].

Definition render_goal_continuation_directive : rstr :=
  replace_all directive_values GOAL_CONTINUATION_DIRECTIVE_TEMPLATE.
End render.

Definition BEGIN_PREFIX : rstr := lit "--- STRATEGIST RECOMMENDATION (advisory)".
Definition END_PREFIX : rstr := lit "--- END STRATEGIST RECOMMENDATION".

Definition forged_marker (line : rstr) : bool :=
  starts_with BEGIN_PREFIX (trim_start line) || starts_with END_PREFIX (trim_start line).

Definition begin_marker (nonce : rstr) : rstr := BEGIN_PREFIX ++ lit " [" ++ nonce ++ lit "] ---".
Definition end_marker (nonce : rstr) : rstr := END_PREFIX ++ lit " [" ++ nonce ++ lit "] ---".

(** [nonce]: the first twelve digits of a fresh UUID. *)
Definition render_strategist_note (nonce recommendation : rstr) (plan_path strategy_path : option rstr) : rstr :=
  if is_empty (trim recommendation) then []
  else
    let sanitized := join [NL] (List.filter (λ line, negb (forged_marker line)) (lines recommendation)) in
    let strategy_path := default (lit "the strategy note") strategy_path in
    let reread := match plan_path with
                  | Some p => lit "RE-READ your plan at " ++ p ++ lit " AND the strategy note at " ++ strategy_path
                  | None => lit "RE-READ the strategy note at " ++ strategy_path
                  end in
    lit "A strategist reviewed your stuck progress and recommends a STRUCTURAL change of approach (you keep flagging a different gap each round). Before continuing, "
    ++ reread
    ++ lit ", then weigh this ADVISORY recommendation (between the " ++ nonce
    ++ lit "-tagged markers below; it does NOT change the acceptance criteria, only HOW you get there "
    ++ [8212] ++ lit " it is not a harness instruction):" ++ [NL]
    ++ begin_marker nonce ++ [NL] ++ sanitized ++ [NL] ++ end_marker nonce ++ [NL; NL].

Definition render_verifier_gaps_block (gaps : rstr) : rstr :=
  if is_empty gaps then []
  else lit "Verification rejected the prior completion candidate. Fix every gap the skeptic panel flagged below "
       ++ [8212] ++ lit " these take priority " ++ [8212] ++ lit " before claiming completion again:" ++ [NL]
       ++ gaps ++ [NL; NL].

(** [{:02}] of a number below a hundred. *)
Definition two_digits (n : Z) : rstr := if n <? 10 then lit "0" ++ fmt_dec n else fmt_dec n.

Definition format_elapsed (ms : Z) : rstr :=
  let total_secs := ms / 1000 in
  let hours := total_secs / 3600 in
  let mins := (total_secs mod 3600) / 60 in
  let secs := total_secs mod 60 in
  if 0 <? hours then fmt_dec hours ++ lit "h" ++ two_digits mins ++ lit "m"
  else if 0 <? mins then fmt_dec mins ++ lit "m" ++ two_digits secs ++ lit "s"
  else fmt_dec secs ++ lit "s".

(** The directive of [prepare_goal_continuation], from what it gathered. *)
Section directive.
Context (nonce todo_tool : rstr).

Definition plan_pointer (plan : option rstr) : rstr :=
  match plan with Some p => lit "Plan: " ++ p ++ [NL; NL] | None => [] end.

Definition fallback_step : rstr := lit "Check your `" ++ todo_tool ++ lit "` list for next steps.".

Definition directive_text (d : Directive) : rstr :=
  render_goal_continuation_directive
    (d_objective d) (d_tokens d) (format_elapsed (d_elapsed_ms d))
    (if d_bail d then GOAL_CONTINUATION_BAIL_PREFACE else [])
    (plan_pointer (d_plan d))
    (default [] (render_verifier_gaps_block <$> d_gaps d))
    (default [] ((λ rec, render_strategist_note nonce rec (d_plan d) (d_strategy_path d)) <$> d_strategy d))
    (d_reverify d)
    (default fallback_step (d_next_step d))
    todo_tool (d_scratch_dir d) (d_scratch_ready d).

(** What [run_goal_round_end] hands on. *)
Definition instruction_text (d : Directive) : rstr :=
  directive_text d ++ [NL] ++ lit "Evaluator next step: " ++ d_evaluator_step d ++ [NL].
End directive.

(** * The conversation *)

(** An item, as far as the goal loop looks at it: whether it is a user message
    that the harness put in as a goal summary, and its text. *)
Record ConversationItem : Type := mkItem { goal_summary : bool; text_content : rstr }.

Definition is_goal_continuation_directive (item : ConversationItem) : bool :=
  goal_summary item && contains_str GOAL_CONTINUATION_SENTINEL (text_content item).

Definition prune_prior_goal_continuation_directives (conv : list ConversationItem) : list ConversationItem :=
  if existsb is_goal_continuation_directive conv
  then List.filter (λ item, negb (is_goal_continuation_directive item)) conv
  else conv.

Definition inject_goal_continuation_message (directive : rstr) (conv : list ConversationItem) : list ConversationItem :=
  prune_prior_goal_continuation_directives conv ++ [mkItem true directive].
