(* ===== verification/ShellSplit.v ===== *)
(** A shell script as the commands it runs
    (src/crates/codegen/intellihelper-workspace/src/permission/bash_command_splitting.rs).

    tree-sitter is third-party: what the code sees of it is a tree of nodes with
    a kind, byte offsets and children, or no tree.  A script is accepted only
    when every node of its tree is of a kind on a list; then it is the commands
    of the tree, in the order of the text, each as its words. *)
From S2P Require Import Prelude Str.

(** * Trees *)

Inductive Node : Type :=
  mkNode (kind : rstr) (is_named : bool) (field_name : rstr) (start_byte end_byte : Z) (children : list Node).

Definition kind (n : Node) : rstr := let 'mkNode k _ _ _ _ _ := n in k.
Definition is_named (n : Node) : bool := let 'mkNode _ b _ _ _ _ := n in b.
(** The field of its parent that the node fills, or nothing. *)
Definition field_name (n : Node) : rstr := let 'mkNode _ _ f _ _ _ := n in f.
Definition start_byte (n : Node) : Z := let 'mkNode _ _ _ s _ _ := n in s.
Definition end_byte (n : Node) : Z := let 'mkNode _ _ _ _ e _ := n in e.
Definition children (n : Node) : list Node := let 'mkNode _ _ _ _ _ l := n in l.
Definition named_children (n : Node) : list Node := List.filter is_named (children n).

(** The nodes of a tree in the order in which a walk with a stack of nodes pops
    them: a node, then its children from the last to the first ([walk_spec] of
    [ShellThms]). *)
Fixpoint visited (n : Node) : list Node :=
  n :: (fix go l := match l with [] => [] | c :: l => go l ++ visited c end) (children n).

Record Tree : Type := mkTree { root_node : Node; has_error : bool }.

(** [try_parse_shell]. *)
Class ShellParser : Type := try_parse_shell : rstr → option Tree.

Definition of_kind (k : string) (n : Node) : bool := bool_decide (kind n = lit k).

(** The bytes from [a] to [b], when both are boundaries of characters. *)
Fixpoint byte_drop (a : Z) (s : rstr) : option rstr :=
  if a =? 0 then Some s
  else match s with [] => None | c :: s => if len_utf8 c <=? a then byte_drop (a - len_utf8 c) s else None end.

Fixpoint byte_take (b : Z) (s : rstr) : option rstr :=
  if b =? 0 then Some []
  else match s with [] => None | c :: s => if len_utf8 c <=? b then (c ::.) <$> byte_take (b - len_utf8 c) s else None end.

Definition byte_slice (a b : Z) (s : rstr) : option rstr := if b <? a then None else s ← byte_drop a s; byte_take (b - a) s.

Definition utf8_text (n : Node) (src : rstr) : option rstr := byte_slice (start_byte n) (end_byte n) src.

(** * Plain commands *)

Record PlainCommand : Type := mkPlain { words : list rstr; span_start : Z; span_end : Z }.

Definition ALLOWED_KINDS : list rstr := lit <$>
  ["program"; "list"; "pipeline"; "command"; "command_name"; "word"; "string"; "string_content"; "raw_string";
   "number"; "concatenation"; "variable_assignment"; "variable_name"; "redirected_statement"; "file_redirect";
   "file_descriptor"; "comment"; "heredoc_redirect"; "heredoc_start"; "heredoc_body"; "heredoc_content";
   "heredoc_end"]%string.

Definition DQUOTE : rchar := 34.
Definition SQUOTE : rchar := 39.
Definition BACKSLASH : rchar := 92.

Definition ALLOWED_PUNCT_TOKENS : list rstr :=
  (lit <$> ["&&"; "||"; ";"; "|"]%string) ++ [[DQUOTE]; [SQUOTE]] ++
  (lit <$> ["="; ">"; ">>"; "<"; "<<"; ">&"; "&>"; "&>>"]%string).

Definition among (l : list rstr) (k : rstr) : bool := existsb (λ x, bool_decide (x = k)) l.

Definition node_allowed (n : Node) : bool :=
  if is_named n then among ALLOWED_KINDS (kind n)
  else
    negb (existsb (λ c, (c =? 38) || (c =? 59) || (c =? 124)) (kind n) && negb (among ALLOWED_PUNCT_TOKENS (kind n)))
    && (among ALLOWED_PUNCT_TOKENS (kind n) || is_empty (trim (kind n))).

Definition is_command (n : Node) : bool := is_named n && of_kind "command" n.

(** What a child of a command adds to it: its word and its span, nothing, or
    no plain command. *)
Definition child_part (src : rstr) (child : Node) : option (option (rstr * Z * Z)) :=
  if of_kind "variable_assignment" child then Some None
  else if of_kind "command_name" child then
    word ← head (named_children child);
    if of_kind "word" word then text ← utf8_text word src; Some (Some (text, start_byte word, end_byte word)) else None
  else if of_kind "word" child || of_kind "number" child || of_kind "concatenation" child then
    text ← utf8_text child src; Some (Some (text, start_byte child, end_byte child))
  else if of_kind "string" child then
    match children child with
    | [open; content; close] =>
        if bool_decide (kind open = [DQUOTE]) && of_kind "string_content" content && bool_decide (kind close = [DQUOTE])
        then text ← utf8_text content src; Some (Some (text, start_byte child, end_byte child))
        else None
    | _ => None
    end
  else if of_kind "raw_string" child then
    raw ← utf8_text child src;
    s ← strip_prefix [SQUOTE] raw;
    if bool_decide (last s = Some SQUOTE) then Some (Some (removelast s, start_byte child, end_byte child)) else None
  else None.

Definition parse_plain_command_from_node (cmd : Node) (src : rstr) : option PlainCommand :=
  if negb (of_kind "command" cmd) then None
  else
    parts ← mapM (child_part src) (named_children cmd);
    let parts := omap id parts in
    Some (mkPlain ((λ p, p.1.1) <$> parts)
            (default (start_byte cmd) ((λ p, p.1.2) <$> head parts))
            (default (end_byte cmd) (snd <$> last parts))).

(** [sort_by_key], which is stable. *)
Fixpoint insert_by_start (n : Node) (l : list Node) : list Node :=
  match l with
  | [] => [n]
  | m :: l => if start_byte m <=? start_byte n then m :: insert_by_start n l else n :: m :: l
  end.
Definition sort_by_start (l : list Node) : list Node := foldl (λ acc n, insert_by_start n acc) [] l.

(** The walk: the top of the stack stands first.  Nothing when a node is not
    allowed, or the fuel runs out. *)
Fixpoint walk (fuel : nat) (stack command_nodes : list Node) : option (list Node) :=
  match stack with
  | [] => Some command_nodes
  | n :: stack =>
      match fuel with
      | O => None
      | S fuel =>
          if node_allowed n
          then walk fuel (rev (children n) ++ stack) (if is_command n then command_nodes ++ [n] else command_nodes)
          else None
      end
  end.

Fixpoint tree_size (n : Node) : nat :=
  S ((fix go l := match l with [] => 0 | c :: l => tree_size c + go l end) (children n))%nat.

Definition try_parse_word_only_commands_sequence (tree : Tree) (src : rstr) : option (list PlainCommand) :=
  if has_error tree then None
  else
    command_nodes ← walk (tree_size (root_node tree)) [root_node tree] [];
    mapM (λ n, parse_plain_command_from_node n src) (sort_by_start command_nodes).

Definition all_commands_from_script `{ShellParser} (script : rstr) : option (list PlainCommand) :=
  tree ← try_parse_shell script; try_parse_word_only_commands_sequence tree script.

(** ** The command shown to the user *)

Definition is_setup_command (cmd : list rstr) : bool :=
  match cmd with
  | [] => true
  | c :: _ => among (lit <$> ["cd"; "pushd"; "popd"; "export"; "unset"; "set"; "sleep"; "timeout"]%string) c
  end.

Fixpoint sh_split_from (in_single in_double : bool) (current s : rstr) : list rstr :=
  match s with
  | [] => if is_empty current then [] else [current]
  | c :: s =>
      if (c =? SQUOTE) && negb in_double then sh_split_from (negb in_single) in_double current s
      else if (c =? DQUOTE) && negb in_single then sh_split_from in_single (negb in_double) current s
      else if c =? BACKSLASH then
        match s with
        | [] => if is_empty current then [] else [current]
        | next :: s => sh_split_from in_single in_double (current ++ [next]) s
        end
      else if is_whitespace c && negb in_single && negb in_double then
        (if is_empty current then [] else [current]) ++ sh_split_from in_single in_double [] s
      else sh_split_from in_single in_double (current ++ [c]) s
  end.
Definition sh_split_simple (s : rstr) : list rstr := sh_split_from false false [] s.

Record BashCommandHighlights : Type := mkHighlights {
  h_prefix : list rstr; highlighted_words : list rstr; h_suffix : list rstr }.

Definition primary_command_from_script `{ShellParser} (script : rstr) : option BashCommandHighlights :=
  commands ← all_commands_from_script script;
  primary ← head (List.filter (λ c, negb (is_setup_command (words c))) commands);
  before ← byte_take (span_start primary) script;
  after ← byte_drop (span_end primary) script;
  Some (mkHighlights (sh_split_simple before) (words primary) (sh_split_simple after)).
