(* ===== verification/ShellPeel.v ===== *)
(** What a command runs: wrappers ([timeout], [env], ...) and prefixes that the
    shell sees through ([exec], [command], [builtin]) are peeled off its words
    (src/crates/codegen/intellihelper-workspace/src/permission/bash_command_splitting.rs).
    What is left is always an end of the words, so indices into them are the
    ends here; a scan is a recursion on the words that remain. *)
From S2P Require Import Prelude Str ShellSplit.

(** [rsplit(['/', '\\']).next()]. *)
Definition basename (w : rstr) : rstr := default w (last (split_where (λ c, (c =? 47) || (c =? BACKSLASH)) w)).

Definition starts_dash (w : rstr) : bool := match w with c :: _ => c =? 45 | [] => false end.

Definition word_is (s : string) (w : rstr) : bool := bool_decide (w = lit s).
Definition one_of (l : list string) (w : rstr) : bool := among (lit <$> l) w.

(** * [env] *)

Definition is_ascii_alphabetic (c : rchar) : bool := is_ascii_lowercase c || ((65 <=? c) && (c <=? 90)).

Definition is_env_assignment (tok : rstr) : bool :=
  match split_once 61 tok with
  | None => false
  | Some (name, _) =>
      match name with
      | [] => false
      | c :: _ => (is_ascii_alphabetic c || (c =? 95)) && forallb (λ b, is_ascii_alphanumeric b || (b =? 95)) name
      end
  end.

(** [quote] is the quote that is open. *)
Fixpoint decode_spelling (quote : option rchar) (out raw : rstr) : option rstr :=
  match raw with
  | [] => if quote is Some _ then None else Some out
  | ch :: raw =>
      match quote with
      | None =>
          if (ch =? SQUOTE) || (ch =? DQUOTE) then decode_spelling (Some ch) out raw
          else if ch =? BACKSLASH then
            match raw with [] => None | n :: raw => decode_spelling None (out ++ [n]) raw end
          else decode_spelling None (out ++ [ch]) raw
      | Some q =>
          if q =? ch then decode_spelling None out raw
          else if (q =? DQUOTE) && (ch =? BACKSLASH) then
            match raw with
            | [] => None
            | n :: raw =>
                decode_spelling quote
                  (if existsb (Z.eqb n) [36; 96; DQUOTE; BACKSLASH; 10] then out ++ [n] else out ++ [BACKSLASH; n]) raw
            end
          else decode_spelling quote (out ++ [ch]) raw
      end
  end.
Definition decode_shell_literal_spelling (raw : rstr) : option rstr := decode_spelling None [] raw.

Definition decode_env_option_token (raw : rstr) : rstr :=
  if existsb (λ c, (c =? SQUOTE) || (c =? DQUOTE)) raw then default raw (decode_shell_literal_spelling raw) else raw.

Definition is_high_confidence_env_s_payload (s : rstr) : bool :=
  negb (is_empty s) && negb (existsb (Z.eqb 0) s)
  && negb (existsb (λ c, existsb (Z.eqb c) [SQUOTE; DQUOTE; BACKSLASH; 35; 96; 36; 10; 13]) s).

Definition take_high_confidence_payload (raw : rstr) : option rstr :=
  if is_high_confidence_env_s_payload raw then Some raw else None.

Inductive EnvShort : Type :=
| SplitStringNext
| SplitStringGlued (payload : rstr)
| SplitStringDetect
| NoArg
| ArgNeedNext (kind : rchar)
| ArgGlued (kind : rchar)
| Uncertain.

Fixpoint short_cluster (body : rstr) : EnvShort :=
  match body with
  | [] => NoArg
  | c :: rest =>
      if existsb (Z.eqb c) [105; 118; 48] then short_cluster rest                          (* i v 0 *)
      else if c =? 83 then SplitStringDetect                                               (* S *)
      else if existsb (Z.eqb c) [117; 67; 80; 97] then if is_empty rest then ArgNeedNext c else ArgGlued c   (* u C P a *)
      else Uncertain
  end.

Definition classify_env_short (tok : rstr) : EnvShort :=
  if negb (starts_dash tok) || starts_with (lit "--") tok || word_is "-" tok then Uncertain
  else
    match drop 1 tok with
    | [] => Uncertain
    | 83 :: rest => if is_empty rest then SplitStringNext else SplitStringGlued rest
    | body => short_cluster body
    end.

Record EnvScan : Type := mkEnvScan {
  chdir : option rstr;
  has_split_string : bool;
  options_uncertain : bool;
  split_string_script : option rstr;
  command : list rstr;                      (* from [command_start] on *)
}.

Definition CHAR_C : rchar := 67.

(** The target of the directory change that a token with its operand glued on
    names; the token is taken as it is spelled. *)
Definition glued_chdir (tok_raw : rstr) : rstr := default [] (strip_prefix (lit "-C") tok_raw).

(** What follows the word [env], a token at a time. *)
Fixpoint env_scan_from (dir : option rstr) (toks : list rstr) : EnvScan :=
  let uncertain := mkEnvScan dir false true None toks in
  let split script := mkEnvScan dir true false script toks in
  match toks with
  | [] => mkEnvScan dir false false None []
  | tok_raw :: rest =>
      if word_is "--" tok_raw then mkEnvScan dir false false None rest
      else if word_is "-" tok_raw then env_scan_from dir rest
      else if negb (starts_dash tok_raw) then
        if is_env_assignment tok_raw then env_scan_from dir rest else mkEnvScan dir false false None toks
      else if starts_with (lit "--") tok_raw then
        if word_is "--chdir" tok_raw then
          match rest with operand :: rest => env_scan_from (Some operand) rest | [] => uncertain end
        else if starts_with (lit "--chdir=") tok_raw then env_scan_from (strip_prefix (lit "--chdir=") tok_raw) rest
        else if one_of ["--unset"; "--path"; "--argv0"] tok_raw then
          match rest with _ :: rest => env_scan_from dir rest | [] => uncertain end
        else if starts_with (lit "--unset=") tok_raw || starts_with (lit "--path=") tok_raw
                || starts_with (lit "--argv0=") tok_raw then env_scan_from dir rest
        else if one_of ["--ignore-environment"; "--null"; "--debug"; "--version"; "--help"] tok_raw then
          env_scan_from dir rest
        else if word_is "--split-string" tok_raw then split (raw ← head rest; take_high_confidence_payload raw)
        else match strip_prefix (lit "--split-string=") tok_raw with
             | Some payload =>
                 split (take_high_confidence_payload
                   (default payload (strip_prefix (lit "--split-string=") (decode_env_option_token tok_raw))))
             | None => uncertain
             end
      else
        match classify_env_short (decode_env_option_token tok_raw) with
        | SplitStringNext => split (raw ← head rest; take_high_confidence_payload raw)
        | SplitStringGlued payload => split (take_high_confidence_payload payload)
        | SplitStringDetect => split None
        | NoArg => env_scan_from dir rest
        | ArgNeedNext k =>
            match rest with
            | operand :: rest => env_scan_from (if k =? CHAR_C then Some operand else dir) rest
            | [] => uncertain
            end
        | ArgGlued k => env_scan_from (if k =? CHAR_C then Some (glued_chdir tok_raw) else dir) rest
        | Uncertain => uncertain
        end
  end.

Definition env_scan (cmd : list rstr) : EnvScan := env_scan_from None (drop 1 cmd).

Definition env_split_string_script (words : list rstr) : option rstr :=
  w ← head words;
  if negb (word_is "env" (basename w)) then None
  else
    let scan := env_scan words in
    if has_split_string scan then split_string_script scan else None.

(** * Wrappers *)

(** Options, some of which take the next word. *)
Fixpoint skip_options (takes_next : rstr → bool) (cmd : list rstr) : list rstr :=
  match cmd with
  | w :: rest =>
      if starts_dash w then
        if takes_next w then match rest with _ :: rest => skip_options takes_next rest | [] => [] end
        else skip_options takes_next rest
      else cmd
  | [] => []
  end.

Definition non_empty (l : list rstr) : option (list rstr) := match l with [] => None | _ => Some l end.

(** One word that has to be there. *)
Definition mandatory (l : list rstr) : option (list rstr) := match l with [] => None | _ :: l => Some l end.

Definition strip_wrapper_command (cmd : list rstr) : option (list rstr) :=
  w ← head cmd;
  let args := drop 1 cmd in
  let h := basename w in
  if word_is "timeout" h then
    inner ← mandatory (skip_options (one_of ["-k"; "-s"; "--kill-after"; "--signal"]) args); non_empty inner
  else if word_is "nice" h then non_empty (skip_options (one_of ["-n"; "--adjustment"]) args)
  else if word_is "ionice" h then
    non_empty (skip_options (one_of ["-c"; "-n"; "-p"; "-P"; "-u"; "--class"; "--classdata"; "--pid"; "--pgid"; "--uid"]) args)
  else if word_is "chrt" h then inner ← mandatory (skip_options (λ _, false) args); non_empty inner
  else if word_is "stdbuf" h then non_empty (skip_options (one_of ["-i"; "-o"; "-e"]) args)
  else if word_is "env" h then
    let scan := env_scan cmd in
    if has_split_string scan || options_uncertain scan then None else non_empty (command scan)
  else None.

Definition head_is (names : list string) (words : list rstr) : bool :=
  match words with w :: _ => one_of names (basename w) | [] => false end.

Definition is_wrapper_command (words : list rstr) : bool :=
  head_is ["timeout"; "nice"; "ionice"; "chrt"; "stdbuf"; "env"] words.

Definition MAX_WRAPPER_DEPTH : nat := 8.
Definition MAX_INLINE_SHELL_DEPTH : nat := 8.
Definition MAX_TRANSPARENT_PREFIX_DEPTH : nat := 8.
Definition MAX_NORMALIZE_ROUNDS : nat := MAX_WRAPPER_DEPTH + MAX_TRANSPARENT_PREFIX_DEPTH.

Record Peel : Type := mkPeel {
  p_words : list rstr;
  p_has_chdir : bool;
  p_has_split_string : bool;
  p_env_options_uncertain : bool;
  p_exhausted : bool;
  p_ambiguous : bool;
}.

Definition can_strip (words : list rstr) : bool := match strip_wrapper_command words with Some _ => true | None => false end.

(** The rounds of [unwrap_wrappers_checked] that are left. *)
Fixpoint unwrap_rounds (n : nat) (cd split uncertain : bool) (current : list rstr) : Peel :=
  match n with
  | O => mkPeel current cd split uncertain (is_wrapper_command current && can_strip current) false
  | S n =>
      let scan := if head_is ["env"] current then env_scan current else mkEnvScan None false false None [] in
      let cd := cd || is_some_and (λ _, true) (chdir scan) in
      let split := split || has_split_string scan in
      let uncertain := uncertain || options_uncertain scan in
      match strip_wrapper_command current with
      | Some inner => unwrap_rounds n cd split uncertain inner
      | None => mkPeel current cd split uncertain false false
      end
  end.
Definition unwrap_wrappers_checked (words : list rstr) : Peel := unwrap_rounds MAX_WRAPPER_DEPTH false false false words.

(** * Prefixes the shell sees through *)

Inductive TransparentStrip : Type := NotPrefix | Peeled (inner : list rstr) | Ambiguous.

Definition peeled (inner : list rstr) : TransparentStrip := match inner with [] => NotPrefix | _ => Peeled inner end.

Definition NUL : rstr := [0].
Definition is_nul (w : rstr) : bool := bool_decide (w = NUL).
Definition letters_in (letters : list rchar) (w : rstr) : bool := forallb (λ c, existsb (Z.eqb c) letters) w.

Fixpoint strip_exec_prefix (args : list rstr) : TransparentStrip :=
  match args with
  | [] => NotPrefix
  | tok :: rest =>
      if word_is "--" tok then peeled rest
      else if word_is "-" tok || negb (starts_dash tok) then peeled args
      else if one_of ["-c"; "-l"; "-cl"; "-lc"] tok then strip_exec_prefix rest
      else if word_is "-a" tok then
        match rest with
        | v :: rest => if negb (is_nul v) && negb (is_empty v) then strip_exec_prefix rest else Ambiguous
        | [] => Ambiguous
        end
      else if starts_with (lit "-a") tok then
        if is_nul (drop 2 tok) then Ambiguous else strip_exec_prefix rest
      else if negb (starts_with (lit "--") tok) && letters_in [99; 108] (drop 1 tok) then strip_exec_prefix rest
      else Ambiguous
  end.

Fixpoint strip_command_prefix (args : list rstr) : TransparentStrip :=
  match args with
  | [] => NotPrefix
  | tok :: rest =>
      if word_is "--" tok then peeled rest
      else if word_is "-" tok || negb (starts_dash tok) then peeled args
      else if one_of ["-v"; "-V"; "--help"; "--version"] tok
           || (negb (starts_with (lit "--") tok) && existsb (λ c, (c =? 118) || (c =? 86)) (drop 1 tok)) then NotPrefix
      else if word_is "-p" tok || (negb (starts_with (lit "--") tok) && letters_in [112] (drop 1 tok)) then strip_command_prefix rest
      else Ambiguous
  end.

Definition strip_builtin_prefix (args : list rstr) : TransparentStrip :=
  match args with
  | [] => NotPrefix
  | tok :: _ => if starts_dash tok && negb (word_is "-" tok) then Ambiguous else peeled args
  end.

Definition strip_transparent_prefix (cmd : list rstr) : TransparentStrip :=
  match cmd with
  | [] => NotPrefix
  | w :: args =>
      if is_empty w || is_nul w then NotPrefix
      else
        let h := basename w in
        if word_is "exec" h then strip_exec_prefix args
        else if word_is "command" h then strip_command_prefix args
        else if word_is "builtin" h then strip_builtin_prefix args
        else NotPrefix
  end.

(** Nothing when it is ambiguous. *)
Fixpoint peel_rounds (n : nat) (current : list rstr) : option (list rstr) :=
  match strip_transparent_prefix current with
  | NotPrefix => Some current
  | Peeled inner => match n with O => None | S n => peel_rounds n inner end
  | Ambiguous => None
  end.
Definition peel_transparent_prefixes (words : list rstr) : option (list rstr) := peel_rounds MAX_TRANSPARENT_PREFIX_DEPTH words.

(** * Both, in turn *)

(** The loop; [fuel] is the rounds that are left.  An end of the words is known
    by its length. *)
Fixpoint normalize_rounds (fuel : nat) (p : Peel) : Peel :=
  match fuel with
  | O => p
  | S fuel =>
      let wrapped := unwrap_wrappers_checked (p_words p) in
      let split := p_has_split_string p || p_has_split_string wrapped in
      let uncertain := p_env_options_uncertain p || p_env_options_uncertain wrapped in
      let q := mkPeel (p_words wrapped) (p_has_chdir p || p_has_chdir wrapped) split uncertain
                 (p_exhausted p || p_exhausted wrapped) (p_ambiguous p) in
      if split || uncertain then q
      else
        match peel_transparent_prefixes (p_words wrapped) with
        | None => mkPeel (p_words q) (p_has_chdir q) split uncertain (p_exhausted q) true
        | Some inner =>
            let q := mkPeel inner (p_has_chdir q) split uncertain (p_exhausted q) (p_ambiguous q) in
            if (length inner =? length (p_words p))%nat then q else normalize_rounds fuel q
        end
  end.

Definition still_peelable (words : list rstr) : bool :=
  (is_wrapper_command words && can_strip words)
  || match strip_transparent_prefix words with NotPrefix => false | _ => true end.

Definition normalize_command_words (words : list rstr) : Peel :=
  let p := normalize_rounds MAX_NORMALIZE_ROUNDS (mkPeel words false false false false false) in
  if negb (p_ambiguous p) && negb (p_has_split_string p) && negb (p_env_options_uncertain p) && still_peelable (p_words p)
  then mkPeel (p_words p) (p_has_chdir p) (p_has_split_string p) (p_env_options_uncertain p) true (p_ambiguous p)
  else p.
