(* ===== verification/ExecRisk.v ===== *)
(** Commands that may run other programs: flags of [git] and [sort], and the
    configuration of the repositories that git would read
    (src/crates/codegen/intellihelper-workspace/src/permission/exec_risk.rs).

    libgit2 and the file system are parameters: what a directory's repository
    is, what its configuration holds, how a file opens. *)
From S2P Require Import Prelude Str Path ShellSplit ShellPeel.

Inductive ConfigLevel : Type := LevelLocal | LevelWorktree | LevelOther.

Record ConfigEntry : Type := mkEntry { ce_level : ConfigLevel; ce_name : option rstr; ce_value : option rstr }.

Record RepoFacts : Type := mkRepo {
  git_dir : rstr;
  commondir : rstr;
  (** Nothing when the configuration or its entries cannot be had; an entry is
      nothing when it cannot be read. *)
  config_entries : option (list (option ConfigEntry));
}.

Inductive Discovery : Type := RepoNotFound | RepoFails | RepoFound (r : RepoFacts).
Inductive FileProbe : Type := ProbeFile | ProbeNotFile | ProbeNotFound | ProbeFails.

Class GitLibs : Type := {
  discover : rstr → Discovery;
  probe : rstr → FileProbe;
  (** [git2::Config::parse_bool] of a text: whether it is one. *)
  parses_as_bool : rstr → bool;
}.

(** * The words that run *)

(** Nothing when it fails closed. *)
Fixpoint exec_rounds (fuel : nat) (current : list rstr) : option (list rstr) :=
  match fuel with
  | O => None
  | S fuel =>
      let checked := unwrap_wrappers_checked current in
      if p_exhausted checked || p_has_split_string checked || p_has_chdir checked then None
      else
        match peel_transparent_prefixes (p_words checked) with
        | None => None
        | Some after_trans =>
            if (length after_trans =? length current)%nat then Some after_trans
            else if (length after_trans =? length (p_words checked))%nat then Some after_trans
            else exec_rounds fuel after_trans
        end
  end.
Definition normalize_for_exec_risk (words : list rstr) : option (list rstr) := exec_rounds MAX_NORMALIZE_ROUNDS words.

Definition is_accepted_long_option_prefix (flag : rstr) (full : string) (min_len : Z) : bool :=
  starts_with (lit "--") flag && (min_len <=? byte_len flag) && starts_with flag (lit full)
  && forallb (λ b, is_ascii_alphanumeric b || (b =? 45)) flag.

Definition normalized_token_basename (token : rstr) : rstr :=
  let name := to_ascii_lowercase (basename token) in
  default name (strip_suffix (lit ".exe") name).

Definition normalized_program_name (words : list rstr) : option rstr :=
  raw ← head words;
  if is_empty (basename raw) then None else Some (normalized_token_basename raw).

Definition is_git_program (words : list rstr) : bool := bool_decide (normalized_program_name words = Some (lit "git")).
Definition is_sort_program (words : list rstr) : bool := bool_decide (normalized_program_name words = Some (lit "sort")).

(** What stands before the first equals sign. *)
Definition flag_name (w : rstr) : rstr := match split_once 61 w with Some (f, _) => f | None => w end.

Fixpoint compress_flag_in (ws : list rstr) : bool :=
  match ws with
  | [] => false
  | w :: ws =>
      if word_is "--" w then false
      else if word_is "--compress-program" w || starts_with (lit "--compress-program=") w then true
      else if is_accepted_long_option_prefix (flag_name w) "--compress-program" 4 then true
      else compress_flag_in ws
  end.
Definition sort_has_compress_program_flag (words : list rstr) : bool := compress_flag_in (drop 1 words).

(** * Options of git before its verb *)

Definition is_git_config_env_flag (tok : rstr) : bool :=
  word_is "--config-env" tok || starts_with (lit "--config-env=") tok
  || is_accepted_long_option_prefix (flag_name tok) "--config-env" 4.

Definition is_git_repo_retarget_flag (tok : rstr) : bool :=
  word_is "--git-dir" tok || starts_with (lit "--git-dir=") tok || word_is "--work-tree" tok
  || starts_with (lit "--work-tree=") tok
  || is_accepted_long_option_prefix (flag_name tok) "--git-dir" 4
  || is_accepted_long_option_prefix (flag_name tok) "--work-tree" 4.

Definition is_attached_git_config_c (tok : rstr) : bool :=
  starts_with (lit "-c") tok && (2 <? byte_len tok) && negb (starts_with (lit "--") tok).

Definition attached_git_c_path (tok : rstr) : option rstr :=
  rest ← strip_prefix (lit "-C") tok; if negb (is_empty rest) && negb (starts_with (lit "--") tok) then Some rest else None.

Definition git_global_option_takes_value (tok : rstr) : bool :=
  one_of ["-C"; "-c"; "--git-dir"; "--work-tree"; "--namespace"; "--super-prefix"; "--exec-path"; "--list-cmds";
          "--attr-source"; "--config-env"] tok
  || is_accepted_long_option_prefix tok "--config-env" 4
  || is_accepted_long_option_prefix tok "--git-dir" 4
  || is_accepted_long_option_prefix tok "--work-tree" 4
  || is_accepted_long_option_prefix tok "--namespace" 7
  || is_accepted_long_option_prefix tok "--super-prefix" 8
  || is_accepted_long_option_prefix tok "--exec-path" 7
  || is_accepted_long_option_prefix tok "--list-cmds" 7
  || is_accepted_long_option_prefix tok "--attr-source" 8.

Definition has_char (c : rchar) (w : rstr) : bool := existsb (Z.eqb c) w.

(** The next word is the value of an option that takes one. *)
Definition value_follows (tok : rstr) (rest : list rstr) : bool :=
  negb (has_char 61 tok) && git_global_option_takes_value tok
  && match rest with n :: _ => negb (starts_dash n) || word_is "-" n | [] => false end.

(** The words behind [git], of which the value of an option is skipped. *)
Fixpoint exec_risk_global (skip : bool) (toks : list rstr) : bool :=
  match toks with
  | [] => false
  | tok :: rest =>
      if skip then exec_risk_global false rest
      else if word_is "--" tok then false
      else if negb (starts_dash tok) || word_is "-" tok then false
      else if word_is "-c" tok || is_attached_git_config_c tok || is_git_config_env_flag tok || is_git_repo_retarget_flag tok
      then true
      else if is_some_and (λ _, true) (attached_git_c_path tok) then exec_risk_global false rest
      else exec_risk_global (value_follows tok rest) rest
  end.
Definition git_has_exec_risk_global (words : list rstr) : bool := exec_risk_global false (drop 1 words).

Definition segment_has_exec_risk_flag (words : list rstr) : bool :=
  if is_sort_program words then sort_has_compress_program_flag words
  else if is_git_program words then git_has_exec_risk_global words
  else false.

Record SegmentExecFacts : Type := mkFacts { exec_risk : bool; has_git : bool }.

Definition segment_exec_facts (words : list rstr) : SegmentExecFacts :=
  match normalize_for_exec_risk words with
  | None => mkFacts true false
  | Some inner => mkFacts (segment_has_exec_risk_flag inner) (is_git_program inner)
  end.

(** * Queries of git *)

Definition SAFE_GIT_SUBCOMMANDS : list string :=
  ["status"; "branch"; "log"; "diff"; "ls-files"; "show"; "rev-parse"; "blame"; "grep"; "describe"; "merge-base";
   "check-ignore"; "check-attr"; "cat-file"; "ls-tree"; "show-ref"; "for-each-ref"; "rev-list"; "name-rev";
   "count-objects"; "shortlog"]%string.

Definition GIT_QUERY_UNSAFE_OPTIONS : list string :=
  ["--filters"; "--textconv"; "--output"; "--ext-diff"; "--open-files-in-pager"]%string.

Definition git_query_option_is_unsafe (word : rstr) : bool :=
  let flag := flag_name word in
  (2 <? byte_len flag) && existsb (λ full, starts_with flag (lit full)) GIT_QUERY_UNSAFE_OPTIONS.

(** The words from the verb on; [skip] as above. *)
Fixpoint safe_query_from (skip : bool) (toks : list rstr) : option (list rstr) :=
  match toks with
  | [] => None
  | tok :: rest =>
      if skip then safe_query_from false rest
      else if word_is "-" tok || word_is "--" tok then None
      else if negb (starts_dash tok) then Some toks
      else if word_is "-C" tok then safe_query_from true rest
      else if is_some_and (λ _, true) (attached_git_c_path tok) || word_is "--no-pager" tok || word_is "-P" tok
      then safe_query_from false rest
      else None
  end.
Definition git_safe_query_verb (words : list rstr) : option rstr := from ← safe_query_from false (drop 1 words); head from.

Definition heads_git (words : list rstr) : bool := match words with w :: _ => word_is "git" w | [] => false end.

Definition git_words_have_unsafe_query_option (words : list rstr) : bool :=
  if negb (heads_git words) then false
  else if existsb git_query_option_is_unsafe (drop 1 words) then true
  else bool_decide (git_safe_query_verb words = Some (lit "grep")) && existsb (starts_with (lit "-O")) (drop 1 words).

Definition git_words_are_read_only_query (words : list rstr) : bool :=
  if negb (heads_git words) then false
  else if git_has_exec_risk_global words then false
  else
    match git_safe_query_verb words with
    | None => false
    | Some verb => if negb (one_of SAFE_GIT_SUBCOMMANDS verb) then false else negb (git_words_have_unsafe_query_option words)
    end.

(** * The configuration that git would read *)

Section ambient.
Context `{!GitLibs}.

Definition local_git_config_entry_is_exec (name value : rstr) : bool :=
  let name := to_ascii_lowercase name in
  let value := trim value in
  if is_empty value then false
  else if word_is "core.fsmonitor" name then negb (parses_as_bool value)
  else if word_is "diff.external" name then true
  else if match strip_prefix (lit "diff.") name with
          | Some rest => ends_with (lit ".command") rest || ends_with (lit ".textconv") rest || ends_with (lit ".external") rest
          | None => false
          end then true
  else match strip_prefix (lit "alias.") name with
       | Some alias => one_of SAFE_GIT_SUBCOMMANDS alias && starts_with (lit "!") value
       | None => false
       end.

Definition path_unreadable (path : rstr) : bool :=
  match probe path with ProbeFile => false | ProbeNotFile => true | ProbeNotFound => false | ProbeFails => true end.

Fixpoint entries_have_exec (l : list (option ConfigEntry)) : bool :=
  match l with
  | [] => false
  | None :: _ => true
  | Some e :: l =>
      match ce_level e with
      | LevelOther => entries_have_exec l
      | _ => if local_git_config_entry_is_exec (default [] (ce_name e)) (default [] (ce_value e)) then true else entries_have_exec l
      end
  end.

Definition local_repo_config_has_exec_risk (cwd : rstr) : bool :=
  match discover cwd with
  | RepoNotFound => false
  | RepoFails => true
  | RepoFound r =>
      path_unreadable (path_join (commondir r) (lit "config"))
      || path_unreadable (path_join (git_dir r) (lit "config"))
      || path_unreadable (path_join (git_dir r) (lit "config.worktree"))
      || match config_entries r with None => true | Some entries => entries_have_exec entries end
  end.

Definition is_static_path_operand (p : rstr) : bool :=
  negb (is_empty p) && negb (word_is "-" p) && negb (starts_dash p) && negb (has_char 36 p) && negb (has_char 96 p)
  && negb (contains_str (lit "$(") p).

Definition join_cwd (base operand : rstr) : rstr := if is_absolute operand then operand else path_join base operand.

(** The operand of [cd]: the arguments, and the target so far. *)
Fixpoint chdir_target (target : option rstr) (args : list rstr) : option rstr :=
  match args with
  | [] => target
  | tok :: args =>
      if word_is "--" tok then head args
      else if starts_dash tok then None
      else match target with Some _ => None | None => chdir_target (Some tok) args end
  end.

Definition apply_literal_chdir (cwd : rstr) (words : list rstr) : option rstr :=
  target ← chdir_target None (drop 1 words);
  if is_static_path_operand target then Some (join_cwd cwd target) else None.

Inductive ChdirNext : Type := NextToken | NextIsPath | NextSkipped.

Fixpoint effective_cwd_from (next : ChdirNext) (cwd : rstr) (toks : list rstr) : option rstr :=
  match toks with
  | [] => match next with NextIsPath => None | _ => Some cwd end
  | tok :: rest =>
      match next with
      | NextIsPath => if is_static_path_operand tok then effective_cwd_from NextToken (join_cwd cwd tok) rest else None
      | NextSkipped => effective_cwd_from NextToken cwd rest
      | NextToken =>
          if word_is "--" tok || negb (starts_dash tok) || word_is "-" tok then Some cwd
          else if is_git_repo_retarget_flag tok then None
          else if word_is "-C" tok then effective_cwd_from NextIsPath cwd rest
          else match attached_git_c_path tok with
               | Some path =>
                   if is_static_path_operand path then effective_cwd_from NextToken (join_cwd cwd path) rest else None
               | None => effective_cwd_from (if value_follows tok rest then NextSkipped else NextToken) cwd rest
               end
      end
  end.
Definition git_effective_cwd (words : list rstr) (start_cwd : rstr) : option rstr :=
  effective_cwd_from NextToken start_cwd (drop 1 words).

Inductive AmbientScanPlan : Type := PlanFailClosed | CheckDirs (dirs : list rstr).

Fixpoint plan_from (cwd : rstr) (git_cwds : list rstr) (raw_segments : list (list rstr)) : AmbientScanPlan :=
  match raw_segments with
  | [] => match git_cwds with [] => PlanFailClosed | _ => CheckDirs git_cwds end
  | raw :: segments =>
      match normalize_for_exec_risk raw with
      | None => PlanFailClosed
      | Some words =>
          match normalized_program_name words with
          | None => plan_from cwd git_cwds segments
          | Some name =>
              if one_of ["cd"; "pushd"] name then
                match apply_literal_chdir cwd words with
                | Some next => plan_from next git_cwds segments
                | None => PlanFailClosed
                end
              else if word_is "popd" name then PlanFailClosed
              else if word_is "git" name then
                match git_effective_cwd words cwd with
                | Some effective => plan_from cwd (git_cwds ++ [effective]) segments
                | None => PlanFailClosed
                end
              else plan_from cwd git_cwds segments
          end
      end
  end.
Definition ambient_scan_plan_from_segments (raw_segments : list (list rstr)) (session_cwd : rstr) : AmbientScanPlan :=
  plan_from session_cwd [] raw_segments.

Definition ambient_exec_risk_from_plan (plan : AmbientScanPlan) : bool :=
  match plan with PlanFailClosed => true | CheckDirs dirs => existsb local_repo_config_has_exec_risk dirs end.
End ambient.

(** * Scripts that cannot be taken apart *)

Definition splits_token (c : rchar) : bool := is_whitespace c || existsb (Z.eqb c) [124; 38; 59; 40; 41; 96; 10; 60; 62].
Definition is_quote (c : rchar) : bool := existsb (Z.eqb c) [SQUOTE; DQUOTE; 96].

Definition script_may_invoke_git (cmd : rstr) : bool :=
  existsb (λ token,
    let trimmed := trim_matches is_quote token in
    negb (is_empty trimmed) && word_is "git" (normalized_token_basename trimmed)) (split_where splits_token cmd).
