(* ===== verification/ShellAccess.v ===== *)
(** The files a shell command reads and writes, and the gate that holds the rules
    on files against them
    (src/crates/codegen/intellihelper-workspace/src/permission/shell_access.rs).

    The file system is a parameter: what a path resolves to, what its entry is,
    where a link points, as they stand while one command is judged. *)
From S2P Require Import Prelude Str Path ShellSplit ShellPeel PermissionPolicy.

Inductive Metadata : Type := MetaLink | MetaOther | MetaNotFound | MetaFails.

Class ShellFs : Type := {
  canonicalize : rstr → option rstr;
  symlink_metadata : rstr → Metadata;
  read_link : rstr → option rstr;
}.

Inductive ShellFileMode : Type := ModeRead | ModeWrite.

Definition shell_file_mode (program : rstr) : option ShellFileMode :=
  if one_of ["cat"; "tac"; "nl"; "head"; "tail"; "grep"; "egrep"; "fgrep"; "rg"; "sed"; "awk"; "less"; "more"; "bat";
             "strings"; "xxd"; "od"; "hexdump"; "base64"; "base32"; "cut"; "sort"; "uniq"; "wc"; "type"; "get-content";
             "gc"; "diff"; "comm"; "rev"; "jq"; "yq"; "select-string"; "sls"; "ag"; "ack"; "zcat"; "zless"; "zmore";
             "zgrep"; "zegrep"; "zfgrep"; "bzcat"; "bzgrep"; "xzcat"; "xzgrep"; "zstdcat"; "lz4cat"] program
  then Some ModeRead
  else if one_of ["tee"; "set-content"; "out-file"; "add-content"; "tee-object"; "truncate"] program then Some ModeWrite
  else None.

(** * Nodes in their place *)

(** The parents of a node, the nearest first, each with the sibling that
    follows the node, or the parent below, in it. *)
Definition Place : Type := list (Node * option Node).

(** [visited], with the places. *)
Fixpoint visited_in (up : Place) (n : Node) : list (Node * Place) :=
  (n, up) :: (fix go l := match l with [] => [] | c :: l => go l ++ visited_in ((n, head l) :: up) c end) (children n).

Record ExecutionScope : Type := mkScope { sc_start : Z; sc_end : Z }.

#[global] Instance ExecutionScope_eq_dec : EqDecision ExecutionScope.
Proof. solve_decision. Defined.

Definition scope_contains (a b : ExecutionScope) : bool := (sc_start a <=? sc_start b) && (sc_end b <=? sc_end a).

Definition scope_of (n : Node) : ExecutionScope := mkScope (start_byte n) (end_byte n).

Fixpoint execution_scope (current : Node) (up : Place) : ExecutionScope :=
  match up with
  | [] => mkScope 0 (umax 64)
  | (parent, next) :: up =>
      if is_some_and (of_kind "&") next then scope_of (if of_kind "list" current then current else parent)
      else if of_kind "subshell" parent || of_kind "command_substitution" parent || of_kind "process_substitution" parent
      then scope_of parent
      else if of_kind "pipeline" parent then scope_of current
      else execution_scope parent up
  end.

(** [child_by_field_name]. *)
Definition child_by_field (f : string) (n : Node) : option Node :=
  List.find (λ c, bool_decide (field_name c = lit f)) (children n).

Record CwdPoison : Type := mkPoison { cp_at : Z; cp_scope : ExecutionScope }.

Definition changes_cwd (n : Node) (src : rstr) : bool :=
  of_kind "command" n &&
  match name ← child_by_field "name" n; utf8_text name src with
  | Some program => one_of ["cd"; "pushd"; "popd"] (basename program)
  | None => false
  end.

Definition cwd_poison_positions (root : Node) (src : rstr) : list CwdPoison :=
  (λ np, mkPoison (start_byte np.1) (execution_scope np.1 np.2)) <$> List.filter (λ np, changes_cwd np.1 src) (visited_in [] root).

Definition cwd_unpinned_before (positions : list CwdPoison) (at_ : Z) (scope : ExecutionScope) : bool :=
  existsb (λ poison, (cp_at poison <? at_)
    && (bool_decide (cp_scope poison = scope) || scope_contains (cp_scope poison) scope)) positions.

(** * Words *)

(** Some descendant expands when the command runs. *)
Definition is_expansion (n : Node) : bool :=
  existsb (λ k, of_kind k n)
    ["expansion"; "simple_expansion"; "command_substitution"; "arithmetic_expansion"; "process_substitution"]%string.
Definition node_has_expansion (n : Node) : bool := existsb is_expansion (drop 1 (visited n)).

Definition is_windows_path_like (raw : rstr) : bool :=
  starts_with [BACKSLASH; BACKSLASH] raw
  || match raw with c :: d :: _ => is_ascii_alphabetic c && (d =? 58) | _ => false end.

Fixpoint fold_backslashes (out s : rstr) : option rstr :=
  match s with
  | [] => Some out
  | c :: s =>
      if c =? BACKSLASH then match s with [] => None | n :: s => fold_backslashes (out ++ [n]) s end
      else fold_backslashes (out ++ [c]) s
  end.

Definition has_backslash (s : rstr) : bool := existsb (Z.eqb BACKSLASH) s.

Definition decode_unquoted_word (raw : rstr) : option rstr :=
  if negb (has_backslash raw) then Some raw
  else if is_windows_path_like raw then Some raw
  else fold_backslashes [] raw.

Fixpoint fold_double_quoted (out s : rstr) : option rstr :=
  match s with
  | [] => Some out
  | c :: s =>
      if negb (c =? BACKSLASH) then fold_double_quoted (out ++ [c]) s
      else match s with
           | [] => None
           | n :: s =>
               fold_double_quoted
                 (if existsb (Z.eqb n) [36; 96; DQUOTE; BACKSLASH; 10] then out ++ [n] else out ++ [BACKSLASH; n]) s
           end
  end.

Definition decode_double_quoted_content (content : rstr) : option rstr :=
  if negb (has_backslash content) then Some content else fold_double_quoted [] content.

(** A word of an invocation; [Untrusted] where it is not known before it runs. *)
Definition as_word (o : option rstr) : ShellWord := match o with Some w => Literal w | None => Untrusted end.

(** The text between two quotes, or all of it. *)
Definition unquote (q : rchar) (raw : rstr) : rstr := default raw (s ← strip_prefix [q] raw; strip_suffix [q] s).

Definition shell_node_arg (n : Node) (src : rstr) : option ShellWord :=
  if of_kind "variable_assignment" n then None
  else if of_kind "word" n || of_kind "number" n then Some (as_word (raw ← utf8_text n src; decode_unquoted_word raw))
  else if of_kind "raw_string" n then raw ← utf8_text n src; Some (Literal (unquote SQUOTE raw))
  else if of_kind "string" n then
    if node_has_expansion n then Some Untrusted
    else raw ← utf8_text n src; Some (as_word (decode_double_quoted_content (unquote DQUOTE raw)))
  else if of_kind "concatenation" n then
    if node_has_expansion n then Some Untrusted
    else Some (as_word (raw ← utf8_text n src; decode_shell_literal_spelling raw))
  else Some Untrusted.

(** * Invocations *)

Record ShellInvocation : Type := mkInvocation { iv_start : Z; iv_scope : ExecutionScope; iv_words : list ShellWord }.

Definition invocation_words (n : Node) (src : rstr) : list ShellWord :=
  omap (λ child,
    if of_kind "command_name" child then inner ← head (named_children child); shell_node_arg inner src
    else shell_node_arg child src) (named_children n).

(** [sort_by_key] on where they start. *)
Fixpoint insert_invocation (x : ShellInvocation) (l : list ShellInvocation) : list ShellInvocation :=
  match l with
  | [] => [x]
  | y :: l => if iv_start y <=? iv_start x then y :: insert_invocation x l else x :: y :: l
  end.

Definition shell_command_invocations (root : Node) (src : rstr) : list ShellInvocation :=
  foldl (λ acc x, insert_invocation x acc) []
    ((λ np, mkInvocation (start_byte np.1) (execution_scope np.1 np.2) (invocation_words np.1 src))
       <$> List.filter (λ np, of_kind "command" np.1) (visited_in [] root)).

(** The placeholder of an untrusted word is a word that no program has. *)
Definition wrapper_word (w : ShellWord) : rstr := match w with Literal w => w | Untrusted => NUL end.

Definition literal_words (ws : list ShellWord) : list rstr := omap (λ w, match w with Literal w => Some w | Untrusted => None end) ws.

(** The words of the invocation that are left, with what the peeling found. *)
Definition unwrap_invocation_checked (iv : ShellInvocation) : list ShellWord * Peel :=
  let wrapper_words := wrapper_word <$> iv_words iv in
  let norm := normalize_command_words wrapper_words in
  (drop (length wrapper_words - length (p_words norm)) (iv_words iv), norm).

Definition words_are_opaque_shell (ws : list ShellWord) : bool :=
  is_potential_inline (shell_dash_c_script ws)
  || match ws with Literal program :: _ => word_is "eval" (basename program) | _ => false end.

Definition tree_has_opaque_shell (root : Node) (src : rstr) : bool :=
  existsb (λ iv, words_are_opaque_shell (unwrap_invocation_checked iv).1) (shell_command_invocations root src).

(** * Redirects *)

Record ShellRedirectTarget : Type := mkRedirect {
  rd_path : option rstr; rd_mode : ShellFileMode; rd_ambiguous : bool; rd_start : Z; rd_scope : ExecutionScope }.

Definition shell_arg_is_ambiguous (token : rstr) : bool := existsb (λ c, existsb (Z.eqb c) [42; 63; 91]) token.

(** The operator; nothing for text that stands in the script. *)
Fixpoint redirect_operator (l : list Node) : option rstr :=
  match l with
  | [] => None
  | n :: l =>
      if contains_str (lit "<<") (kind n) then None
      else if existsb (λ c, (c =? 62) || (c =? 60)) (kind n) then Some (kind n)
      else redirect_operator l
  end.

Definition shell_redirect_one (n : Node) (src : rstr) : option (option rstr * ShellFileMode * bool) :=
  redirect ← redirect_operator (children n);
  let mode := if existsb (Z.eqb 62) redirect then ModeWrite else ModeRead in
  let duplicates_fd := one_of [">&"; "<&"] redirect in
  dest ← child_by_field "destination" n;
  word ← shell_node_arg dest src;
  match word with
  | Literal s =>
      if is_empty s || starts_with (lit "&") s || (duplicates_fd && (word_is "-" s || forallb is_ascii_digit s)) then None
      else Some (Some s, mode, shell_arg_is_ambiguous s)
  | Untrusted => Some (None, mode, true)
  end.

Definition shell_redirect_targets (root : Node) (src : rstr) : list ShellRedirectTarget :=
  omap (λ np,
    if of_kind "file_redirect" np.1 then
      '(path, mode, ambiguous) ← shell_redirect_one np.1 src;
      Some (mkRedirect path mode ambiguous (start_byte np.1) (execution_scope np.1 np.2))
    else None) (visited_in [] root).

(** * Operands *)

Definition is_short_flag (w : rstr) : bool := starts_dash w && negb (starts_with (lit "--") w).

Definition shell_sed_in_place (words : list rstr) : bool :=
  existsb (λ w, word_is "--in-place" w || starts_with (lit "--in-place=") w || (is_short_flag w && existsb (Z.eqb 105) w))
    (drop 1 words).

(** Each word with the words behind it. *)
Fixpoint with_rest {A} (f : rstr → list rstr → option A) (ws : list rstr) : list A :=
  match ws with [] => [] | w :: ws => match f w ws with Some x => x :: with_rest f ws | None => with_rest f ws end end.

Definition some_nonempty (o : option rstr) : option rstr := v ← o; not_empty v.

Definition shell_output_flag_values (words : list rstr) : list rstr :=
  with_rest (λ token rest,
    match strip_prefix (lit "--output=") token with
    | Some v => Some v
    | None =>
        match some_nonempty (strip_prefix (lit "-o") token) with
        | Some v => Some v
        | None => if word_is "--output" token || word_is "-o" token then head rest else None
        end
    end) words.

Definition value_flag_values (words : list rstr) (flag : string) : list rstr :=
  with_rest (λ token rest,
    match strip_prefix (lit flag ++ lit "=") token with
    | Some v => Some v
    | None =>
        if word_is flag token then head rest
        else if negb (starts_with (lit "--") (lit flag)) then some_nonempty (strip_prefix (lit flag) token)
        else None
    end) words.

Fixpoint candidates_from (end_of_options : bool) (ws : list rstr) : list rstr :=
  match ws with
  | [] => []
  | token :: ws =>
      if negb end_of_options && word_is "--" token then candidates_from true ws
      else if end_of_options || (negb (word_is "-" token) && negb (starts_dash token)) then token :: candidates_from end_of_options ws
      else candidates_from end_of_options ws
  end.
Definition shell_file_candidates (words : list rstr) : list rstr := candidates_from false (drop 1 words).

Definition writes (paths : list rstr) : list (rstr * ShellFileMode) := (λ p, (p, ModeWrite)) <$> paths.

Definition special_file_operands (program : rstr) (words : list rstr) : list (rstr * ShellFileMode) :=
  if word_is "dd" program then
    omap (λ token,
      match strip_prefix (lit "if=") token with
      | Some path => Some (path, ModeRead)
      | None => path ← strip_prefix (lit "of=") token; Some (path, ModeWrite)
      end) (drop 1 words)
  else if one_of ["sort"; "go"; "git"] program then writes (shell_output_flag_values words)
  else if word_is "rustc" program then writes (shell_output_flag_values words ++ value_flag_values words "--out-dir")
  else if word_is "rustfmt" program then writes (shell_file_candidates words)
  else [].

Definition shell_path_command_operands (program : rstr) (words : list rstr) : option (list (rstr * ShellFileMode)) :=
  if one_of ["cp"; "mv"; "ln"; "install"] program then
    dest ← last (shell_file_candidates words);
    Some (((λ s, (s, ModeRead)) <$> removelast (shell_file_candidates words)) ++ [(dest, ModeWrite)])
  else if one_of ["rm"; "rmdir"; "mkdir"; "touch"] program then Some (writes (shell_file_candidates words))
  else if word_is "uniq" program then
    match shell_file_candidates words with
    | input :: output :: _ => Some [(input, ModeRead); (output, ModeWrite)]
    | _ => None
    end
  else None.

Definition is_directory_operand (token : rstr) : bool := word_is "." token || word_is ".." token || ends_with [SEP] token.

Definition shell_reader_can_recurse (program : rstr) (words candidates : list rstr) : bool :=
  (one_of ["grep"; "egrep"; "fgrep"] program
   && existsb (λ w, word_is "--recursive" w || word_is "--dereference-recursive" w
        || (is_short_flag w && existsb (λ c, (c =? 114) || (c =? 82)) w)) words)
  || (one_of ["rg"; "ag"; "ack"] program
      && ((length candidates <=? 1)%nat || existsb is_directory_operand (drop 1 candidates))).

Definition program_lower (word : rstr) : rstr := to_ascii_lowercase (basename word).

(** * What a command writes *)

Definition paths_of (mode : ShellFileMode) (l : list (rstr * ShellFileMode)) : list rstr :=
  omap (λ pm, match mode, pm.2 with ModeRead, ModeRead | ModeWrite, ModeWrite => Some pm.1 | _, _ => None end) l.

Definition command_words_write_paths (words : list rstr) : list rstr :=
  let inner := p_words (unwrap_wrappers_checked words) in
  match inner with
  | [] => []
  | w :: _ =>
      let program := program_lower w in
      paths_of ModeWrite (special_file_operands program inner)
      ++ match shell_path_command_operands program inner with
         | Some operands => paths_of ModeWrite operands
         | None =>
             if match shell_file_mode program with Some ModeWrite => true | _ => false end
                || (word_is "sed" program && shell_sed_in_place inner)
             then shell_file_candidates inner else []
         end
  end.

Definition command_write_paths_in_tree (root : Node) (src : rstr) : list rstr :=
  omap (λ rd, match rd_mode rd with ModeWrite => rd_path rd | ModeRead => None end) (shell_redirect_targets root src)
  ++ concat ((λ iv, command_words_write_paths (literal_words (iv_words iv))) <$> shell_command_invocations root src).

Definition is_safe_write_sink (path : rstr) : bool := one_of ["/dev/null"; "/dev/stdout"; "/dev/stderr"] path.

(** * Paths as the shell spells them *)

(** A colon behind one byte: a drive. *)
Definition has_drive (p : rstr) : bool := match p with c :: d :: _ => (len_utf8 c =? 1) && (d =? 58) | _ => false end.

Definition is_absolute_shell_path (path : rstr) : bool :=
  starts_with [SEP] path || starts_with (lit "~/") path || has_drive path.

Definition normalize_shell_path_raw (path : rstr) : rstr :=
  let p := replace [BACKSLASH] [SEP] (trim_matches (λ c, (c =? DQUOTE) || (c =? SQUOTE)) path) in
  match strip_prefix (lit "/c/") p with Some rest => lit "C:/" ++ rest | None => p end.

(** The segments so far, the last one first. *)
Definition push_segment (absolute : bool) (out : list rstr) (segment : rstr) : list rstr :=
  if is_empty segment || word_is "." segment then out
  else if word_is ".." segment then
    match out with
    | s :: rest => if negb (word_is ".." s) then rest else if absolute then out else segment :: out
    | [] => if absolute then out else [segment]
    end
  else segment :: out.

Definition lexical_normalize (path : rstr) : rstr :=
  let drive := has_drive path in
  let prefix := if drive then take 2 path else [] in
  let rest := if drive then drop 2 path else path in
  let absolute := starts_with [SEP] rest in
  let body := join [SEP] (reverse (foldl (push_segment absolute) [] (split_char SEP rest))) in
  match drive, absolute, is_empty body with
  | true, true, false => prefix ++ [SEP] ++ body
  | true, true, true => prefix ++ [SEP]
  | true, false, _ => prefix ++ body
  | false, true, false => [SEP] ++ body
  | false, true, true => [SEP]
  | false, false, _ => body
  end.

Definition normalize_shell_path (path : rstr) : rstr := lexical_normalize (normalize_shell_path_raw path).

(** ** Links *)

Section fs.
Context `{!ShellFs}.

(** The prefixes of a path, component by component. *)
Definition prefixes_of (path : rstr) : list rstr :=
  (λ i, from_components (take i (components path))) <$> seq 1 (length (components path)).

Definition is_link (p : rstr) : bool := match symlink_metadata p with MetaLink => true | _ => false end.

Definition path_has_symlink (absolute : rstr) : bool :=
  if negb (is_absolute absolute) then false else existsb is_link (prefixes_of absolute).

Definition MAX_SYMLINK_DEPTH : nat := 40.

(** [Path::parent]. *)
Definition path_parent (p : rstr) : option rstr :=
  match reverse (components p) with
  | (Normal _ | CurDir | ParentDir) :: rest => Some (from_components (reverse rest))
  | _ => None
  end.

(** The depths that are left. *)
Fixpoint resolve_following_symlinks (depths : nat) (path : rstr) : option rstr :=
  match depths with
  | O => None
  | S depths =>
      match canonicalize path with
      | Some canonical => Some canonical
      | None =>
          parent ← path_parent path;
          name ← file_name path;
          resolved_parent ← resolve_following_symlinks depths parent;
          let candidate := path_join resolved_parent name in
          match symlink_metadata candidate with
          | MetaFails => None
          | MetaLink =>
              target ← read_link candidate;
              resolve_following_symlinks depths (if is_absolute target then target else path_join resolved_parent target)
          | MetaOther | MetaNotFound => Some candidate
          end
      end
  end.
Definition resolve_from_top (path : rstr) : option rstr := resolve_following_symlinks (S MAX_SYMLINK_DEPTH) path.

Definition resolve_symlink_target (absolute : rstr) : option rstr :=
  if negb (is_absolute absolute) then None else normalize_shell_path <$> resolve_from_top absolute.

(** * The gate on files *)

Context `{!PolicyLibs} `{!ShellParser}.

Definition shell_access (mode : ShellFileMode) (path : rstr) : AccessKind :=
  match mode with ModeRead => AccRead (Some path) | ModeWrite => AccEdit path end.

Section gate.
Context (cp : CompiledPolicy) (cwd : rstr).

Definition escalate_file (rule_cwd : option rstr) (access : AccessKind) : option GateDecision :=
  match evaluate_with_cwd cp access rule_cwd with
  | Some (Reject reason) => Some (GateReject reason)
  | Some Ask => Some AskRuleMatch
  | _ => None
  end.

Definition evaluate_shell_path (token : rstr) (mode : ShellFileMode) (cwd_unpinned : bool) : option GateDecision :=
  let path := normalize_shell_path token in
  let absolute := is_absolute_shell_path path in
  let escalate := escalate_file (if absolute || negb cwd_unpinned then Some cwd else None) in
  let anchored := if absolute then path else normalize_shell_path (path_join cwd path) in
  let raw := normalize_shell_path_raw token in
  let raw_absolute :=
    if is_absolute_shell_path raw then Some raw
    else if cwd_unpinned then None
    else Some (normalize_shell_path_raw (path_join cwd raw)) in
  let resolved_decision :=
    raw_absolute ← raw_absolute;
    match resolve_symlink_target raw_absolute with
    | Some resolved => if bool_decide (resolved = anchored) then None else escalate (shell_access mode resolved)
    | None => fail_closed_if (path_has_symlink raw_absolute)
    end in
  let path_decision := escalate (shell_access mode path) in
  let anchored_decision :=
    if cwd_unpinned && negb absolute then None
    else combine_gate_decisions (escalate (shell_access mode anchored)) resolved_decision in
  combine_gate_decisions (combine_gate_decisions path_decision anchored_decision)
    (fail_closed_if (cwd_unpinned && negb absolute)).

(** The paths that an invocation names, with what they are opened for, and
    whether the words force a question. *)
Definition named_files (program : rstr) (words : list rstr) : list (rstr * ShellFileMode) * bool :=
  let special := special_file_operands program words in
  let candidates := shell_file_candidates words in
  let plain :=
    if word_is "dd" program then ([], false)
    else match shell_path_command_operands program words with
         | Some operands => (operands, false)
         | None =>
             let modes :=
               match shell_file_mode program with
               | None => None
               | Some m => Some (if word_is "sed" program && shell_sed_in_place words then [ModeRead; ModeWrite] else [m])
               end in
             match modes with
             | None => ([], false)
             | Some modes =>
                 (concat ((λ token, (λ m, (token, m)) <$> modes) <$> candidates),
                  shell_reader_can_recurse program words candidates)
             end
         end in
  (special ++ plain.1, existsb shell_arg_is_ambiguous (fst <$> special ++ plain.1) || plain.2).

Definition is_known_program (program : rstr) (words : list rstr) : bool :=
  word_is "dd" program || is_some_and (λ _, true) (shell_file_mode program)
  || is_some_and (λ _, true) (shell_path_command_operands program words).

(** [deeper] judges an inline script, when one more is within the depth; the
    second result is whether a question is forced. *)
Definition evaluate_invocation (deeper : option (rstr → bool → option GateDecision)) (parse_failed : bool)
    (cwd_unpinned : bool) (changes : list CwdPoison) (iv : ShellInvocation) : option GateDecision * bool :=
  let '(ws, norm) := unwrap_invocation_checked iv in
  let unpinned := cwd_unpinned || cwd_unpinned_before changes (iv_start iv) (iv_scope iv) || p_has_chdir norm in
  let forced := p_exhausted norm || p_has_split_string norm || p_env_options_uncertain norm || p_ambiguous norm in
  let inline := shell_dash_c_script ws in
  let forced := forced || (parse_failed && negb (match inline with NotInline => true | _ => false end)) in
  let '(d, forced) :=
    match inline with
    | InlineLiteral index =>
        match deeper with
        | None => (None, true)
        | Some judge => match ws !! index with Some (Literal inner) => (judge inner unpinned, forced) | _ => (None, forced) end
        end
    | InlineUntrusted | Unrecognized => (None, true)
    | NotInline => (None, forced)
    end in
  match ws with
  | Literal program :: _ =>
      let program := program_lower program in
      if one_of ["cd"; "pushd"; "popd"] program then (d, forced)
      else
        let words := literal_words ws in
        let unsure := is_known_program program words
          && (unpinned || existsb (λ w, match w with Untrusted => true | Literal _ => false end) ws || parse_failed) in
        let '(files, ask) := named_files program words in
        (foldl combine_gate_decisions d ((λ pm, evaluate_shell_path pm.1 pm.2 unpinned) <$> files),
         forced || unsure || ask)
  | _ => (d, forced)
  end.

Definition evaluate_redirect (cwd_unpinned : bool) (changes : list CwdPoison) (rd : ShellRedirectTarget) : option GateDecision :=
  path ← rd_path rd;
  evaluate_shell_path path (rd_mode rd) (cwd_unpinned || cwd_unpinned_before changes (rd_start rd) (rd_scope rd)).

Fixpoint evaluate_shell_file_access_inner (inline_depth_remaining : nat) (cmd : rstr) (cwd_unpinned entered_inline : bool)
    : option GateDecision :=
  match try_parse_shell cmd with
  | None => fail_closed_if entered_inline
  | Some tree =>
      let root := root_node tree in
      let parse_failed := has_error tree in
      let changes := cwd_poison_positions root cmd in
      let redirects := shell_redirect_targets root cmd in
      let deeper :=
        match inline_depth_remaining with
        | O => None
        | S depth => Some (λ inner unpinned, evaluate_shell_file_access_inner depth inner unpinned true)
        end in
      let judged := evaluate_invocation deeper parse_failed cwd_unpinned changes <$> shell_command_invocations root cmd in
      let forced := (entered_inline && parse_failed) || existsb rd_ambiguous redirects || existsb snd judged in
      combine_gate_decisions (combine_all ((evaluate_redirect cwd_unpinned changes <$> redirects) ++ (fst <$> judged)))
        (fail_closed_if forced)
  end.

Definition evaluate_shell_file_access_gate (cmd : rstr) : option GateDecision :=
  if negb (has_file_restrictions cp) then None
  else evaluate_shell_file_access_inner MAX_INLINE_SHELL_DEPTH cmd false false.

Definition evaluate_shell_file_access (cmd : rstr) : option Decision := into_decision <$> evaluate_shell_file_access_gate cmd.
End gate.
End fs.

(** * Decisions, combined *)

Definition decision_rank (d : Decision) : Z :=
  match d with Reject _ | PolicyDeny _ => 3 | Ask => 2 | Allow => 1 | _ => 0 end.

Definition combine_decisions (a b : option Decision) : option Decision :=
  match a, b with
  | None, other => other
  | other, None => other
  | Some a, Some b => Some (if decision_rank b <=? decision_rank a then a else b)
  end.
