(* ===== verification/BashRoutine.v ===== *)
(** What auto mode knows of a command without asking a model: the risk of the
    environment it sets, whether it is a chain of routine commands, the
    heuristic classifier, the accesses that need no classifier
    (src/crates/codegen/intellihelper-workspace/src/permission/auto_mode/mod.rs,
    auto_mode/security_findings.rs). *)
From S2P Require Import Prelude Str Path ShellSplit ShellPeel PermissionPolicy ExecRisk ShellAccess.

(** * Findings *)

Inductive ClassifierSecurityFinding : Type :=
| FailClosedPolicy | UnparseableShell | OpaqueShell | ExecOrAmbientGit | EnvInjection | UnvettedEnv | FileWrite
| DangerousCommand | SpecialExecSurface.

#[global] Instance ClassifierSecurityFinding_eq_dec : EqDecision ClassifierSecurityFinding.
Proof. solve_decision. Defined.

Definition finding_token (f : ClassifierSecurityFinding) : rstr :=
  lit match f with
      | FailClosedPolicy => "fail_closed_policy" | UnparseableShell => "unparseable_shell" | OpaqueShell => "opaque_shell"
      | ExecOrAmbientGit => "exec_or_ambient_git" | EnvInjection => "env_injection" | UnvettedEnv => "unvetted_env"
      | FileWrite => "file_write" | DangerousCommand => "dangerous_command" | SpecialExecSurface => "special_exec_surface"
      end.

Definition is_grant_floor (f : ClassifierSecurityFinding) : bool :=
  match f with
  | FileWrite | UnvettedEnv | EnvInjection | OpaqueShell | ExecOrAmbientGit | SpecialExecSurface => true
  | FailClosedPolicy | UnparseableShell | DangerousCommand => false
  end.

(** A set, by its members. *)
Definition BashSecurityAssessment : Type := list ClassifierSecurityFinding.
Definition has_finding (f : ClassifierSecurityFinding) (a : BashSecurityAssessment) : bool := bool_decide (f ∈ a).
Definition insert_finding (f : ClassifierSecurityFinding) (a : BashSecurityAssessment) : BashSecurityAssessment :=
  if has_finding f a then a else f :: a.
Definition constrains_broad_grant (a : BashSecurityAssessment) : bool := existsb is_grant_floor a.

(** * The environment of a command *)

Inductive EnvRisk : Type := EnvSafe | EnvUnvetted | EnvInjected.

#[global] Instance EnvRisk_eq_dec : EqDecision EnvRisk.
Proof. solve_decision. Defined.

Definition env_rank (r : EnvRisk) : Z := match r with EnvSafe => 0 | EnvUnvetted => 1 | EnvInjected => 2 end.
Definition env_max (a b : EnvRisk) : EnvRisk := if env_rank a <? env_rank b then b else a.

Definition SAFE_ENV_KEYS : list string :=
  ["CARGO_TERM_COLOR"; "CARGO_TERM_PROGRESS_WHEN"; "RUST_LOG"; "RUST_LOG_STYLE"; "RUST_BACKTRACE"; "RUST_TEST_THREADS";
   "RUST_MIN_STACK"; "NO_COLOR"; "CLICOLOR"; "CLICOLOR_FORCE"; "FORCE_COLOR"; "COLORTERM"]%string.

Definition INJECTION_ENV_KEYS : list string :=
  ["LD_PRELOAD"; "LD_AUDIT"; "BASH_ENV"; "ENV"; "IFS"; "PATH"; "GIT_EXTERNAL_DIFF"; "GIT_PROXY_COMMAND";
   "PROMPT_COMMAND"]%string.

Definition INJECTION_ENV_KEY_PREFIXES : list string := ["DYLD_"; "GIT_CONFIG"]%string.

Definition is_safe_env_key (key : rstr) : bool := one_of SAFE_ENV_KEYS key.

Definition env_key_risk (key : rstr) : EnvRisk :=
  if is_safe_env_key key then EnvSafe
  else if one_of INJECTION_ENV_KEYS key || existsb (λ p, starts_with (lit p) key) INJECTION_ENV_KEY_PREFIXES then EnvInjected
  else EnvUnvetted.

Definition assignment_key (n : Node) (src : rstr) : rstr :=
  match head (omap (λ c, if of_kind "variable_name" c then utf8_text c src else None) (children n)) with
  | Some text => text
  | None => flag_name (default [] (utf8_text n src))
  end.

(** The arguments of [env], with the risk so far; the second result is whether
    an option was met. *)
Fixpoint env_args_risk (options_done : bool) (risk : EnvRisk) (args : list rstr) : EnvRisk * bool :=
  match args with
  | [] => (risk, false)
  | arg :: args =>
      if word_is "--" arg then env_args_risk true risk args
      else if negb options_done && starts_dash arg then (risk, true)
      else match split_once 61 arg with
           | Some (key, _) => env_args_risk options_done (env_max risk (env_key_risk key)) args
           | None => (risk, false)
           end
  end.

Fixpoint env_risk_rounds (n : nat) (risk : EnvRisk) (current : list rstr) : EnvRisk :=
  match n with
  | O => risk
  | S n =>
      let '(risk, option_met) := if head_is ["env"] current then env_args_risk false risk (drop 1 current) else (risk, false) in
      if (option_met : bool) then EnvInjected
      else match strip_wrapper_command current with Some inner => env_risk_rounds n risk inner | None => risk end
  end.
Definition command_env_risk (words : list rstr) : EnvRisk := env_risk_rounds 8 EnvSafe words.

Definition script_env_risk (root : Node) (src : rstr) (cmds : list PlainCommand) : EnvRisk :=
  let inline := foldl (λ risk n, if of_kind "variable_assignment" n then env_max risk (env_key_risk (assignment_key n src)) else risk)
                  EnvSafe (visited root) in
  foldl (λ risk c, env_max risk (command_env_risk (words c))) inline cmds.

(** * Routine commands *)

Definition ROUTINE_PREFIXES : list string :=
  ["cargo "; "git add"; "git commit"; "git checkout"; "git switch"; "git stash"; "git pull"; "git fetch";
   "git worktree list"; "pytest"; "python "; "python3 "; "node "; "rustc "; "rustfmt"; "clippy"; "make "; "cmake "; "cd";
   "pushd"; "popd"; "ls"; "pwd"; "echo "; "printf "; "cat "; "head "; "tail "; "wc "; "rg "; "grep "; "which "; "type ";
   "true"; "false"; "test "; "sort "; "uniq "; "tr "; "cut "; "diff "; "jq "; "date"; "whoami"; "hostname"; "uname";
   "nproc"; "printenv"; "stat "; "file "; "tree"; "basename "; "dirname "; "realpath "; "readlink "; "strings "; "sleep ";
   "df "; "du "; "ps "; "top"; "htop"; "bazel "; "just "; "go "; "kubectl get"; "kubectl logs"; "kubectl describe";
   "set"]%string.

Definition KUBECTL_UNSAFE_FLAGS : list string :=
  ["--kubeconfig"; "--context"; "--cluster"; "--server"; "-s"; "--token"; "--user"; "--as"; "--as-group"; "--as-uid";
   "--as-user-extra"; "--username"; "--password"; "--client-certificate"; "--client-key"; "--certificate-authority"]%string.

Definition NPM_SAFE_SUBCOMMANDS : list string :=
  ["install"; "i"; "ci"; "add"; "remove"; "rm"; "uninstall"; "update"; "up"; "upgrade"; "test"; "t"; "run"; "run-script";
   "start"; "build"; "audit"; "list"; "ls"; "ll"; "outdated"; "why"; "view"; "info"; "dedupe"; "prune"; "version"; "pack";
   "config"; "link"; "unlink"; "rebuild"; "store"; "fetch"; "import"]%string.

Definition UV_SAFE_SUBCOMMANDS : list string :=
  ["sync"; "pip"; "lock"; "venv"; "add"; "remove"; "tree"; "export"; "build"; "version"; "python"; "cache"; "init"; "self";
   "help"]%string.

Definition RUSTUP_SAFE_SUBCOMMANDS : list string :=
  ["show"; "toolchain"; "component"; "target"; "default"; "update"; "which"; "doc"; "self"; "completions"; "set";
   "override"]%string.

Definition find_is_read_only (words : list rstr) : bool :=
  negb (existsb (one_of ["-delete"; "-exec"; "-execdir"; "-ok"; "-okdir"; "-fprint"; "-fprint0"; "-fprintf"; "-fls"]) words).

Definition is_lone_wrapper (words : list rstr) : bool := (length words =? 1)%nat && is_wrapper_command words.

Definition nonflag_tokens (inner : list rstr) (n : nat) : list rstr := take n (List.filter (λ w, negb (starts_dash w)) (drop 1 inner)).

Definition gh_subcommand_is_read_only (inner : list rstr) : bool :=
  match nonflag_tokens inner 2 with
  | [group; sub] =>
      (one_of ["pr"; "issue"; "release"; "run"; "workflow"; "repo"; "gist"] group
       && one_of ["view"; "list"; "status"; "checks"; "diff"] sub)
      || (word_is "auth" group && word_is "status" sub)
  | [one] => word_is "status" one
  | _ => false
  end.

Definition is_npm (h : rstr) : bool := one_of ["npm"; "pnpm"; "yarn"] h.

Definition launcher_subcommand (h : rstr) (inner : list rstr) : option rstr :=
  sub ← inner !! 1%nat;
  Some (if is_npm h && word_is "x" sub then lit "exec" else if is_npm h && word_is "innit" sub then lit "init" else sub).

Definition nth_is (n : nat) (s : string) (l : list rstr) : bool := bool_decide (l !! n = Some (lit s)).

Definition is_remote_launcher (h : rstr) (inner : list rstr) : bool :=
  if one_of ["npx"; "uvx"] h then true
  else if word_is "uv" h && nth_is 1 "tool" inner && nth_is 2 "run" inner then true
  else match launcher_subcommand h inner with
       | None => false
       | Some sub =>
           is_npm h && (one_of ["dlx"; "create"; "explore"] sub
             || (word_is "init" sub && is_some_and (λ a, negb (starts_dash a)) (inner !! 2%nat)))
       end.

Inductive LaunchTarget : Type := NotLauncher | LaunchInner (words : list rstr) | Unresolved.

Definition explicit_launch_target (h : rstr) (inner : list rstr) : LaunchTarget :=
  match launcher_subcommand h inner with
  | None => NotLauncher
  | Some sub =>
      let from (start : nat) :=
        match inner !! start with
        | Some tok => if negb (starts_dash tok) then LaunchInner (drop start inner) else Unresolved
        | None => Unresolved
        end in
      if word_is "uv" h && word_is "run" sub then from 2%nat
      else if word_is "rustup" h && word_is "run" sub then
        match inner !! 2%nat with Some toolchain => if negb (starts_dash toolchain) then from 3%nat else Unresolved | None => Unresolved end
      else if is_npm h && word_is "exec" sub then if nth_is 2 "--" inner then from 3%nat else from 2%nat
      else NotLauncher
  end.

Definition launched_writes_nonsink (words : list rstr) : bool :=
  existsb (λ p, negb (is_safe_write_sink p)) (command_words_write_paths words).

(** [again] judges the command that a launcher runs. *)
Definition package_manager_subcommand_is_routine (again : list rstr → bool) (prog : rstr) (inner : list rstr) : option bool :=
  if negb (one_of ["uv"; "uvx"; "npm"; "npx"; "pnpm"; "yarn"; "rustup"] prog) then None
  else if is_remote_launcher prog inner then Some false
  else match explicit_launch_target prog inner with
       | Unresolved => Some false
       | LaunchInner launched =>
           Some (bool_decide (command_env_risk launched = EnvSafe) && negb (launched_writes_nonsink launched) && again launched)
       | NotLauncher =>
           let sub_in l := is_some_and (one_of l) (launcher_subcommand prog inner) in
           Some (if is_npm prog then sub_in NPM_SAFE_SUBCOMMANDS
                 else if word_is "uv" prog then sub_in UV_SAFE_SUBCOMMANDS
                 else if word_is "rustup" prog then sub_in RUSTUP_SAFE_SUBCOMMANDS
                 else false)
       end.

Definition has_pre_flag (words : list rstr) : bool := existsb (λ w, word_is "--pre" w || starts_with (lit "--pre=") w) words.
Definition has_kubectl_flag (words : list rstr) : bool := existsb (λ w, one_of KUBECTL_UNSAFE_FLAGS (flag_name w)) (drop 1 words).

(** [str::trim] of a prefix of the table. *)
Definition prefix_base (p : string) : rstr := trim (lit p).

(** The fuel is the length of the words: what a launcher runs is shorter. *)
Fixpoint routine_within (fuel : nat) (words : list rstr) : bool :=
  let inner := p_words (unwrap_wrappers_checked words) in
  match inner with
  | [] => true
  | w :: _ =>
      if is_lone_wrapper inner then true
      else
        let h := to_ascii_lowercase (basename w) in
        match package_manager_subcommand_is_routine
                (λ launched, match fuel with O => false | S fuel => routine_within fuel launched end) h inner with
        | Some routine => routine
        | None =>
            if word_is "find" h then find_is_read_only inner
            else if word_is "git" h && git_words_are_read_only_query inner then true
            else if word_is "git" h && git_words_have_unsafe_query_option inner then false
            else if word_is "tree" h
                 && existsb (λ w, (is_short_flag w && has_char 111 w) || starts_with (lit "--output") w) inner then false
            else if word_is "rg" h && has_pre_flag inner then false
            else if word_is "kubectl" h && has_kubectl_flag inner then false
            else if word_is "gh" h then gh_subcommand_is_read_only inner
            else
              let joined := to_ascii_lowercase (join [32] inner) in
              existsb (λ p, matches_command_prefix joined (prefix_base p)) ROUTINE_PREFIXES
        end
  end.
Definition bash_command_is_routine (words : list rstr) : bool := routine_within (length words) words.

Inductive ClassifierVerdict : Type := VAllow | VBlock | VUnavailable.

Section classify.
Context `{!ShellParser}.

Definition classify_bash (cmd : rstr) : ClassifierVerdict :=
  match try_parse_shell cmd with
  | None => VBlock
  | Some tree =>
      match try_parse_word_only_commands_sequence tree cmd with
      | None => VBlock
      | Some cmds =>
          if negb (bool_decide (script_env_risk (root_node tree) cmd cmds = EnvSafe)) then VBlock
          else if existsb (λ p, negb (is_safe_write_sink p)) (command_write_paths_in_tree (root_node tree) cmd) then VBlock
          else match cmds with
               | [] => VBlock
               | _ => if forallb (λ c, bash_command_is_routine (words c)) cmds then VAllow else VBlock
               end
      end
  end.

(** ** The heuristic classifier *)

Inductive ClassifierTurn : Type :=
| UserText (text : rstr)
| AssistantToolUse (tool_name args : rstr)
| PermissionDecision (tool_name args : rstr) (approved : bool).

Definition neutralize_line (line : rstr) : rstr :=
  let heading := trim_start line in
  if starts_with (lit "#") heading then take (length line - length heading) line ++ [BACKSLASH] ++ heading else line.
Definition neutralize_headings (text : rstr) : rstr := join [10] (neutralize_line <$> lines text).

Definition render_untrusted (t : ClassifierTurn) : option rstr :=
  match t with
  | UserText text => Some (lit "User: " ++ neutralize_headings text)
  | AssistantToolUse tool_name args => Some (neutralize_headings tool_name ++ [32] ++ neutralize_headings args)
  | PermissionDecision _ _ _ => None
  end.
Definition transcript_text (turns : list ClassifierTurn) : rstr := join [10] (omap render_untrusted turns).

Definition DANGEROUS_PATTERNS : list string :=
  ["rm -rf /"; "rm -rf /*"; "mkfs"; "dd if="; ":(){ :|:& };:"; "curl | sh"; "curl|sh"; "curl | bash"; "curl|bash";
   "wget | sh"; "wget|sh"; "wget | bash"; "wget|bash"; "chmod 777"; "chmod -r 777"; "chmod +x /tmp"; "base64 -d";
   "base64 --decode"; "nc -e"; "ncat -e"; "/dev/tcp/"; "shutdown"; "reboot"; "useradd"; "userdel"; "passwd "; "chown -r /";
   "iptables -f"; "kill -9 1"; "sudo rm"; "sudo dd"; "sudo mkfs"; "exfiltrat"; "steal credential"; "send secrets"]%string.

Definition HOSTILE_INTENT : list string :=
  ["delete all files"; "wipe the disk"; "exfiltrate"; "steal secrets"; "send my credentials"; "ignore safety";
   "bypass permission"]%string.

Definition mentions (l : list string) (text : rstr) : bool := existsb (λ p, contains_str (lit p) text) l.

Definition classify_sync (tool_name : rstr) (access : AccessKind) (access_detail : option rstr) (turns : list ClassifierTurn)
    : ClassifierVerdict :=
  let detail := to_ascii_lowercase (default [] access_detail) in
  let tool := to_ascii_lowercase tool_name in
  let transcript := to_ascii_lowercase (transcript_text turns) in
  let blob := tool ++ [32] ++ detail ++ [32] ++ transcript in
  if mentions ["ask_user"; "askuserquestion"] tool then VBlock
  else if mentions DANGEROUS_PATTERNS blob then VBlock
  else if mentions ["curl"; "wget"; "fetch"] blob && mentions ["| sh"; "|sh"; "| bash"; "|bash"; "| zsh"; "|zsh"] blob then VBlock
  else if mentions HOSTILE_INTENT transcript then VBlock
  else match access with
       | AccBash cmd => classify_bash cmd
       | AccWebFetch _ | AccEdit _ | AccMCPTool _ => VBlock
       | AccRead _ | AccGrep _ _ | AccWebSearch _ => VAllow
       end.
End classify.

(** * Without a classifier *)

Definition access_requires_user_interaction (tool_name : rstr) (access : AccessKind) : bool :=
  let t := to_ascii_lowercase tool_name in
  mentions ["ask_user"; "askuserquestion"; "user_question"] t || word_is "ask_user_question" t
  || match access with
     | AccMCPTool name =>
         let n := to_ascii_lowercase name in
         mentions ["ask_user"] n || (mentions ["confirm"] n && mentions ["human"] n)
     | _ => false
     end.

Definition is_auto_mode_allowlisted_access (access : AccessKind) : bool :=
  match access with AccRead _ | AccGrep _ _ | AccWebSearch _ => true | _ => false end.

Definition is_auto_mode_allowlisted_tool_name : rstr → bool :=
  one_of ["todo_write"; "TodoWrite"; "task_output"; "TaskOutput"; "wait_tasks"; "WaitTasks"; "ask_user_question";
          "AskUserQuestion"; "enter_plan_mode"; "EnterPlanMode"; "exit_plan_mode"; "ExitPlanMode"; "switch_mode"; "SwitchMode";
          "create_plan"; "CreatePlan"; "update_plan"; "UpdatePlan"; "list_mcp_resources"; "ListMcpResources";
          "read_mcp_resource"; "ReadMcpResource"; "tool_search"; "ToolSearch"; "sleep"; "Sleep"].

Inductive AutoFastPath : Type := FastAllow | FastPromptUser | FastClassify.

Definition auto_mode_fast_path (access : AccessKind) (tool_name : rstr) (requires_user_interaction : bool) : AutoFastPath :=
  if requires_user_interaction then FastPromptUser
  else if is_auto_mode_allowlisted_access access || is_auto_mode_allowlisted_tool_name tool_name then FastAllow
  else match access with
       | AccEdit _ => FastAllow
       | AccBash cmd => if one_of ["true"; ":"; "false"] (trim cmd) then FastAllow else FastClassify
       | _ => FastClassify
       end.
