(* ===== verification/BashEval.v ===== *)
(** A Bash request judged once against the safe lists and the grants of the
    session, and what a grant may wave through
    (src/crates/codegen/intellihelper-workspace/src/permission/manager.rs,
    state.rs). *)
From S2P Require Import Prelude Str Path ShellSplit ShellPeel PermissionPolicy ExecRisk ShellAccess BashRoutine.

(** * The grants of a session *)

Inductive EditPolicy : Type := EditAsk | EditAllow | EditReject.

(** Sets of texts, by their members; their order is that in which they would be
    walked. *)
Record PermissionState : Type := mkState {
  edit_policy : EditPolicy;
  allow_bash_execute : bool;
  allowed_bash_commands : list rstr;
  disallowed_bash_commands : list rstr;
  allowed_bash_globs : list rstr;
  allowed_web_fetch_domains : list rstr;
  allowed_mcp_tools : list rstr;
  allowed_mcp_servers : list rstr;
}.

Definition default_state : PermissionState := mkState EditAsk false [] [] [] [] [] [].

Definition insert_text (t : rstr) (l : list rstr) : list rstr := if among l t then l else t :: l.

(** * Safe and dangerous commands *)

Definition head_word_is (s : string) (words : list rstr) : bool := match words with w :: _ => word_is s w | [] => false end.

Definition rg_has_pre_flag (words : list rstr) : bool := head_word_is "rg" words && has_pre_flag words.
Definition kubectl_has_unsafe_flag (words : list rstr) : bool := head_word_is "kubectl" words && has_kubectl_flag words.

(** The options of [ps] whose value is the next word. *)
Definition ps_skips_next (s : rstr) : bool :=
  one_of ["-o"; "-O"; "--format"; "--sort"; "-p"; "-q"; "-t"; "-u"; "-U"; "-g"; "-G"; "-C"; "-s"; "--pid"; "--ppid"; "--sid";
          "--tty"; "--user"; "--group"; "--cols"; "--columns"; "--width"; "o"; "O"] s.

Fixpoint ps_dumps_in (skip_next : bool) (ws : list rstr) : bool :=
  match ws with
  | [] => false
  | s :: ws =>
      if skip_next then ps_dumps_in false ws
      else if starts_with (lit "--format=") s || starts_with (lit "--sort=") s then ps_dumps_in false ws
      else if ps_skips_next s then ps_dumps_in true ws
      else if starts_with (lit "-o") s || starts_with (lit "-O") s then ps_dumps_in false ws
      else
        let dashless := negb (starts_dash s) in
        let bsd_selector_cluster := is_short_flag s && existsb (λ c, (c =? 97) || (c =? 120)) s in
        if has_char 69 s || (has_char 101 s && (dashless || bsd_selector_cluster)) then true
        else ps_dumps_in (is_short_flag s && (ends_with (lit "o") s || ends_with (lit "O") s)) ws
  end.
Definition ps_dumps_environment (words : list rstr) : bool := head_word_is "ps" words && ps_dumps_in false (drop 1 words).

Definition is_safe_git_query_prefix (cmd : rstr) : bool :=
  match strip_prefix (lit "git ") cmd with
  | Some rest => existsb (λ verb, matches_command_prefix rest (lit verb)) SAFE_GIT_SUBCOMMANDS
  | None => false
  end.

Definition prefixed_by (l : list string) (cmd : rstr) : bool := existsb (λ p, matches_command_prefix cmd (lit p)) l.

Definition is_safe_command_words_str (cmd : rstr) : bool :=
  prefixed_by ["ls"; "cat"; "pwd"; "date"] cmd || is_safe_git_query_prefix cmd
  || prefixed_by ["whoami"; "hostname"; "uptime"; "grep"; "rg"; "kubectl get"; "kubectl logs"; "kubectl describe"; "ps";
                  "bin/explorer ls"; "head"; "tail"; "wc"; "sort"; "uniq"; "tr"; "cut"] cmd.

Definition ALWAYS_SAFE_COMMANDS : list string :=
  ["ls"; "cat"; "pwd"; "date"; "whoami"; "hostname"; "uptime"; "ps"; "grep"; "rg"; "kubectl get"; "kubectl logs";
   "kubectl describe"; "bin/explorer ls"]%string.

(** The tests that both lists begin with. *)
Definition special_exec_words (words : list rstr) : bool :=
  rg_has_pre_flag words || kubectl_has_unsafe_flag words || ps_dumps_environment words.

Definition is_safe_command_words (words : list rstr) : bool :=
  match words with
  | [] => false
  | _ =>
      if special_exec_words words then false
      else if heads_git words then git_words_are_read_only_query words
      else is_safe_command_words_str (join [32] words)
  end.

Definition is_always_safe_command_words (words : list rstr) : bool :=
  match words with
  | [] => false
  | _ =>
      if special_exec_words words then false
      else if heads_git words then git_words_are_read_only_query words
      else prefixed_by ALWAYS_SAFE_COMMANDS (join [32] words)
  end.

(** The flags behind the words that count. *)
Fixpoint flags_behind (ws : list rstr) : nat := match ws with w :: ws => if starts_dash w then S (flags_behind ws) else O | [] => O end.

Definition default_always_allow_scope (words : list rstr) : nat :=
  match words with
  | [] => 0
  | w :: _ =>
      let by_length := Nat.min (length words) 2 in
      let default := (by_length + flags_behind (drop by_length words))%nat in
      if is_safe_command_words words then
        if is_safe_command_words_str w then 1
        else if (2 <=? length words)%nat && is_safe_command_words_str (join [32%Z] (take 2 words)) then 2
        else default
      else default
  end%nat.

Definition is_dangerous_command_words (words : list rstr) : bool :=
  match words with
  | [] => false
  | _ => prefixed_by ["rm"; "chmod"; "chown"; "chgrp"; "chattr"; "pkill"; "kill"; "killall"; "git push"] (join [32] words)
  end.

Section eval.
Context `{!PolicyLibs} `{!ShellParser}.

Definition matches_whitelist_prefix (segment allowed_prefix : rstr) : bool := matches_command_prefix segment allowed_prefix.
Definition matches_bash_glob (segment pattern : rstr) : bool := bash_pattern_matches_command pattern segment.

(** * One request *)

Inductive SegmentEvaluation : Type :=
| SegAutoAllow (via_session_grant : bool)
| SegReject (reason : rstr)
| SegNeedsPrompts (segments : list rstr)
| SegUnparseable.

Record BashEvaluation : Type := mkEvaluation {
  be_segments : SegmentEvaluation;
  exact_grant : bool;
  all_segments_granted : bool;
  assessment : BashSecurityAssessment;
  ambient_segments : option (list (list rstr));
}.

Definition env_risk_finding (r : EnvRisk) : option ClassifierSecurityFinding :=
  match r with EnvInjected => Some EnvInjection | EnvUnvetted => Some UnvettedEnv | EnvSafe => None end.

Definition insert_if (b : bool) (f : ClassifierSecurityFinding) (a : BashSecurityAssessment) : BashSecurityAssessment :=
  if b then insert_finding f a else a.
Definition insert_opt (f : option ClassifierSecurityFinding) (a : BashSecurityAssessment) : BashSecurityAssessment :=
  match f with Some f => insert_finding f a | None => a end.

(** What the loop over the commands has found so far. *)
Record SegAcc : Type := mkAcc {
  acc_needs : list rstr;
  acc_via_grant : bool;
  acc_all_granted : bool;
  acc_exec_risk : bool;
  acc_git : bool;
  acc_findings : BashSecurityAssessment;
}.

Section state.
Context (state : PermissionState) (honor_safe_lists : bool).

Definition granted_by (s : rstr) : bool :=
  existsb (matches_whitelist_prefix s) (allowed_bash_commands state) || existsb (matches_bash_glob s) (allowed_bash_globs state).

Definition opaque_words (ws : list rstr) : bool := words_are_opaque_shell (Literal <$> ws).

(** The facts that every command adds, before it is judged. *)
Definition segment_facts (raw_words : list rstr) (acc : SegAcc) : SegAcc :=
  let inner := p_words (unwrap_wrappers_checked raw_words) in
  let facts := segment_exec_facts raw_words in
  mkAcc (acc_needs acc) (acc_via_grant acc) (acc_all_granted acc) (acc_exec_risk acc || exec_risk facts)
    (acc_git acc || has_git facts)
    (insert_if (exec_risk facts) ExecOrAmbientGit (insert_if (opaque_words inner) OpaqueShell (acc_findings acc))).

(** The prompt that a command needs, with the finding it leaves. *)
Definition needs_prompt (s : rstr) (f : option ClassifierSecurityFinding) (acc : SegAcc) : SegAcc :=
  mkAcc (acc_needs acc ++ [s]) (acc_via_grant acc) (acc_all_granted acc) (acc_exec_risk acc) (acc_git acc)
    (insert_opt f (acc_findings acc)).

Definition with_grant (matched : bool) (acc : SegAcc) : SegAcc :=
  mkAcc (acc_needs acc) (acc_via_grant acc) (acc_all_granted acc && matched) (acc_exec_risk acc) (acc_git acc) (acc_findings acc).

Definition segment_step (raw_words : list rstr) (acc : SegAcc) : SegAcc + rstr * SegAcc :=
  let inner := p_words (unwrap_wrappers_checked raw_words) in
  let acc := segment_facts raw_words acc in
  if is_setup_command inner then inl acc
  else
    let s := join [32] inner in
    match List.find (matches_whitelist_prefix s) (disallowed_bash_commands state) with
    | Some d => inr (lit "User previously rejected `" ++ d ++ lit "` for this session", acc)
    | None =>
        let matched_grant := granted_by s in
        let acc := with_grant matched_grant acc in
        if is_dangerous_command_words inner then inl (needs_prompt s (Some DangerousCommand) acc)
        else if (special_exec_words inner || git_words_have_unsafe_query_option inner) && negb (among (allowed_bash_commands state) s)
        then inl (needs_prompt s (Some SpecialExecSurface) acc)
        else
          let matched_safe := honor_safe_lists && (is_safe_command_words inner || is_always_safe_command_words inner) in
          if matched_grant || matched_safe then
            inl (mkAcc (acc_needs acc) (acc_via_grant acc || matched_grant) (acc_all_granted acc) (acc_exec_risk acc) (acc_git acc)
                   (acc_findings acc))
          else inl (needs_prompt s None acc)
    end.

Fixpoint segment_loop (segments : list PlainCommand) (acc : SegAcc) : SegAcc + rstr * SegAcc :=
  match segments with
  | [] => inl acc
  | parsed :: segments =>
      match segment_step (words parsed) acc with inl acc => segment_loop segments acc | inr stop => inr stop end
  end.

Definition evaluate_bash (cmd : rstr) : BashEvaluation :=
  let exact := among (allowed_bash_commands state) cmd in
  match try_parse_shell cmd with
  | None =>
      mkEvaluation SegUnparseable exact false (insert_if (script_may_invoke_git cmd) ExecOrAmbientGit [UnparseableShell]) None
  | Some tree =>
      let root := root_node tree in
      let file_write := existsb (λ p, negb (is_safe_write_sink p)) (command_write_paths_in_tree root cmd) in
      let segments := try_parse_word_only_commands_sequence tree cmd in
      let findings :=
        insert_opt (env_risk_finding (script_env_risk root cmd (default [] segments))) (insert_if file_write FileWrite []) in
      match segments with
      | None =>
          mkEvaluation SegUnparseable exact false
            (insert_if (script_may_invoke_git cmd) ExecOrAmbientGit
               (insert_if (tree_has_opaque_shell root cmd) OpaqueShell (insert_finding UnparseableShell findings))) None
      | Some segments =>
          match segment_loop segments (mkAcc [] false true false false findings) with
          | inr (reason, acc) => mkEvaluation (SegReject reason) exact (acc_all_granted acc) (acc_findings acc) None
          | inl acc =>
              mkEvaluation
                (match acc_needs acc with [] => SegAutoAllow (acc_via_grant acc) | needs => SegNeedsPrompts needs end)
                exact (acc_all_granted acc) (acc_findings acc)
                (if acc_git acc && negb (acc_exec_risk acc) then Some (words <$> segments) else None)
          end
      end
  end.
End state.

(** * What a grant may wave through *)

Definition persisted_bash_auto_allows (state : PermissionState) (cmd : rstr) (yolo_pin : option rstr) : bool :=
  (allow_bash_execute state && negb (is_some_and (λ _, true) yolo_pin)) || among (allowed_bash_commands state) cmd.

Definition bash_request_floor_requires_prompt (e : option BashEvaluation) : bool :=
  match e with Some e => negb (exact_grant e) && constrains_broad_grant (assessment e) | None => false end.

Definition bash_assessment_is_clear (e : option BashEvaluation) : bool :=
  match e with Some e => match assessment e with [] => true | _ => false end | None => true end.

Definition classifier_assessment (e : option BashEvaluation) (fail_closed_policy : bool) : BashSecurityAssessment :=
  insert_if fail_closed_policy FailClosedPolicy (match e with Some e => assessment e | None => [] end).

Definition sandbox_may_auto_allow_bash (e : option BashEvaluation) (sandbox_active : bool) : bool :=
  sandbox_active && negb (bash_request_floor_requires_prompt e).

Record BashGrantOpts : Type := mkOpts { bg_honor_safe_lists : bool; bg_allow_blanket : bool; bg_conservative_blanket : bool }.

Definition PRE_CLASSIFIER : BashGrantOpts := mkOpts true true true.
Definition ASK_FLOOR_REMEMBER : BashGrantOpts := mkOpts false false false.
Definition post_classify (auto_forced_prompt : bool) : BashGrantOpts := mkOpts true (negb auto_forced_prompt) false.

(** Why a decision was taken. *)
Inductive Reason : Type :=
| YOLO | POLICY_ALLOW | POLICY_DENY | POLICY_ASK | BASH_COMMAND_GATE_ASK | SHELL_FILE_GATE_ASK | AUTO_FAST_PATH
| AUTO_CLASSIFIER_ALLOW | AUTO_CLASSIFIER_DENY | AUTO_CLASSIFIER_TIMEOUT | AUTO_CLASSIFIER_UNAVAILABLE | AUTO_DENIAL_LIMIT
| SANDBOX_AUTO | PERSISTED_GRANT | SESSION_GRANT | STATIC_ALLOWLIST | SAFE_COMMAND | SESSION_DENY | PROMPT_DENY | NEEDS_USER
| BASH_REQUEST_FLOOR | OPAQUE_SHELL | REQUESTER_GONE.

Definition grant_allow (r : Reason) : option (Decision * Reason) := Some (Allow, r).
Definition allow_if (b : bool) (r : Reason) : option (Decision * Reason) := if b then grant_allow r else None.

Definition bash_grant_pre_decision (cmd : rstr) (e : BashEvaluation) (state : PermissionState) (yolo_pin : option rstr)
    (opts : BashGrantOpts) : option (Decision * Reason) :=
  match be_segments e with
  | SegReject reason => Some (Reject reason, SESSION_DENY)
  | segments =>
      if bash_request_floor_requires_prompt (Some e) then None
      else
        match segments with
        | SegReject _ => None
        | SegAutoAllow via =>
            if negb (bg_honor_safe_lists opts) && negb (all_segments_granted e) then None
            else grant_allow (if (via : bool) then SESSION_GRANT else SAFE_COMMAND)
        | SegNeedsPrompts _ =>
            if negb (bg_allow_blanket opts) || (bg_conservative_blanket opts && has_finding DangerousCommand (assessment e)) then None
            else allow_if (persisted_bash_auto_allows state cmd yolo_pin) SESSION_GRANT
        | SegUnparseable =>
            if negb (bg_allow_blanket opts) then None
            else allow_if (if bg_conservative_blanket opts then exact_grant e else persisted_bash_auto_allows state cmd yolo_pin)
                   SESSION_GRANT
        end
  end.
End eval.

Lemma allow_if_inv (b : bool) r d r' : allow_if b r = Some (d, r') → b = true.
Proof. by destruct b. Qed.
