(* ===== verification/AccessTarget.v ===== *)
(** What an access names: the file behind the path that a model wrote
    (intellihelper-tools/src/types/resources.rs), whether editing it needs a
    confirmation (intellihelper-workspace/src/permission/shell_access.rs), the
    server of an MCP tool (intellihelper-mcp/src/servers.rs,
    tool-protocol/src/ids.rs), the domains that may be fetched
    (intellihelper-tools web_fetch/domain.rs). *)
From stdpp Require Import gmap.
From S2P Require Import Prelude Str Path ShellSplit ShellPeel PermissionPolicy ShellAccess.

(** The environment of the process: the home of the program, if it has one, and
    shellexpand's tilde. *)
Class Homes : Type := { user_intellihelper_home : option rstr; tilde : rstr → rstr }.

(** * Paths that a model wrote *)

Definition is_path_quote (c : rchar) : bool := (c =? DQUOTE) || (c =? SQUOTE).

Definition strip_escape (s : rstr) : option rstr :=
  match strip_suffix [BACKSLASH; 110] s with
  | Some r => Some r
  | None => match strip_suffix [BACKSLASH; 114] s with Some r => Some r | None => strip_suffix [BACKSLASH; 116] s end
  end.

(** The loop; a round takes two characters off. *)
Fixpoint strip_escapes (fuel : nat) (s : rstr) : rstr :=
  match fuel with
  | O => s
  | S fuel => match strip_escape s with Some r => strip_escapes fuel (trim_end r) | None => s end
  end.

Definition sanitize_model_path_arg (input : rstr) : rstr :=
  let trimmed := trim input in
  let quote_wrapped :=
    (2 <=? byte_len trimmed) && is_some_and is_path_quote (head trimmed) && is_some_and is_path_quote (last trimmed) in
  let unquoted := trim (trim_matches is_path_quote trimmed) in
  if quote_wrapped then strip_escapes (length unquoted) unquoted else unquoted.

Definition resolve_model_path `{!Homes} (cwd : rstr) (display_cwd : option rstr) (input : rstr) : rstr :=
  let expanded := tilde (sanitize_model_path_arg input) in
  match display_cwd, is_absolute expanded with
  | Some display, true => match path_strip_prefix expanded display with Some suffix => path_join cwd suffix | None => expanded end
  | _, true => path_join cwd expanded
  | _, false =>
      if is_empty expanded then path_join cwd expanded
      else match path_strip_prefix ([SEP] ++ expanded) (default cwd display_cwd) with
           | Some suffix => path_join cwd suffix
           | None => path_join cwd expanded
           end
  end.

(** * Edits that need a confirmation *)

Inductive ProtectedEditReason : Type :=
| HookRoot | GitHooks | Ssh | StartupFile | Etc | IntelliHelperConfig | IntelliHelperSandbox | ClaudeSettings | CursorHooks
| Sensitive.

Definition protected_kind (r : ProtectedEditReason) : rstr :=
  lit match r with
      | HookRoot => "hook_root" | GitHooks => "git_hooks" | Ssh => "ssh" | StartupFile => "startup_file" | Etc => "etc"
      | IntelliHelperConfig => "intellihelper_config" | IntelliHelperSandbox => "intellihelper_sandbox"
      | ClaudeSettings => "claude_settings" | CursorHooks => "cursor_hooks" | Sensitive => "sensitive"
      end.

Definition STARTUP_FILES : list string :=
  [".bashrc"; ".bash_profile"; ".bash_login"; ".bash_logout"; ".profile"; ".zshrc"; ".zshenv"; ".zprofile"; ".zlogin";
   ".zlogout"; ".kshrc"; ".cshrc"; ".tcshrc"; ".login"; ".logout"; ".inputrc"; ".xprofile"]%string.

(** The names of a path, in lower case. *)
Definition lower_names (path : rstr) : list rstr :=
  omap (λ c, match c with Normal s => Some (to_ascii_lowercase s) | _ => None end) (components path).

Fixpoint has_pair (a b : string) (l : list rstr) : bool :=
  match l with
  | x :: (y :: _) as tl => (word_is a x && word_is b y) || has_pair a b tl
  | _ => false
  end.

Definition ends_with_pair (a b : string) (l : list rstr) : bool :=
  match reverse l with y :: x :: _ => word_is a x && word_is b y | _ => false end.

(** Paths are equal component by component. *)
Definition same_path (p q : rstr) : bool := bool_decide (components p = components q).

Fixpoint git_modules_hooks (l : list rstr) : bool :=
  match l with
  | x :: tl =>
      (word_is ".git" x && match tl with m :: rest => word_is "modules" m && existsb (word_is "hooks") (drop 1 rest) | [] => false end)
      || git_modules_hooks tl
  | [] => false
  end.

Definition protected_git_hooks_path (names : list rstr) : bool := has_pair ".git" "hooks" names || git_modules_hooks names.

Section protection.
Context `{!ShellFs} `{!Homes}.

Definition intellihelper_home_matches (home : option rstr) (pred : rstr → bool) : bool :=
  match home with
  | Some home =>
      let lexical := normalize_lexically home in
      pred lexical || is_some_and pred (resolve_from_top lexical)
  | None => false
  end.

Definition path_is_under_user_intellihelper_hook_root (path home : rstr) : bool :=
  path_starts_with path (path_join home (lit "hooks")) || same_path path (path_join home (lit "hooks-paths")).

Definition protected_intellihelper_hook_root (path : rstr) (names : list rstr) : bool :=
  has_pair ".intellihelper" "hooks" names || ends_with_pair ".intellihelper" "hooks-paths" names
  || intellihelper_home_matches user_intellihelper_home (path_is_under_user_intellihelper_hook_root path).

Definition protected_intellihelper_config_file (path : rstr) (names : list rstr) : option ProtectedEditReason :=
  file ← last names;
  reason ← (if one_of ["config.toml"; "managed_config.toml"; "requirements.toml"] file then Some IntelliHelperConfig
            else if word_is "sandbox.toml" file then Some IntelliHelperSandbox else None);
  let in_dot := match reverse names with _ :: d :: _ => word_is ".intellihelper" d | _ => false end in
  let in_home := intellihelper_home_matches user_intellihelper_home
                   (λ home, match path_parent path with Some parent => same_path parent home | None => false end) in
  if in_dot || in_home then Some reason else None.

Definition protected_edit_reason (path : rstr) : option ProtectedEditReason :=
  let names := lower_names path in
  let file := default [] (last names) in
  if protected_intellihelper_hook_root path names then Some HookRoot
  else if ends_with_pair ".claude" "settings.json" names || ends_with_pair ".claude" "settings.local.json" names
  then Some ClaudeSettings
  else if ends_with_pair ".cursor" "hooks.json" names then Some CursorHooks
  else if protected_git_hooks_path names then Some GitHooks
  else if existsb (word_is ".ssh") names then Some Ssh
  else if one_of STARTUP_FILES file then Some StartupFile
  else match protected_intellihelper_config_file path names with
       | Some reason => Some reason
       | None => if path_starts_with path (lit "/etc") then Some Etc else None
       end.

Definition resolved_path_is_within_root (resolved_path root : rstr) : bool :=
  match resolve_from_top root with Some resolved_root => path_starts_with resolved_path resolved_root | None => true end.

Definition edit_target_protection (path : rstr) : option ProtectedEditReason :=
  if negb (is_absolute path) then Some Sensitive
  else match protected_edit_reason (normalize_lexically path) with
       | Some reason => Some reason
       | None =>
           match resolve_from_top path with
           | None => Some Sensitive
           | Some resolved =>
               match protected_edit_reason resolved with
               | Some reason => Some reason
               | None => if resolved_path_is_within_root resolved (lit "/etc") then Some Sensitive else None
               end
           end
       end.
End protection.

(** * The server of an MCP tool *)

Definition is_id_char (c : rchar) : bool := is_ascii_alphanumeric c || (c =? 95) || (c =? 45).
Definition is_valid_segment (s : rstr) : bool := negb (is_empty s) && forallb is_id_char s.

Definition is_well_formed_tool_id (s : rstr) : bool :=
  match split_char 58 s with
  | [first] => is_valid_segment first
  | [first; second] => is_valid_segment first && is_valid_segment second
  | _ => false
  end.

(** The places of two underscores, which may overlap; each with what stands
    before it and behind it. *)
Fixpoint delimiters (before s : rstr) : list (rstr * rstr) :=
  match s with
  | [] => []
  | c :: tl =>
      match strip_prefix (lit "__") s with
      | Some rest => (before, rest) :: delimiters (before ++ [c]) tl
      | None => delimiters (before ++ [c]) tl
      end
  end.

Definition parse_mcp_qualified_name (name : rstr) : option (rstr * rstr) :=
  match delimiters [] name with
  | [(server, tool_part)] =>
      if is_empty server || is_empty tool_part then None
      else if is_well_formed_tool_id name then Some (server, tool_part) else None
  | _ => None
  end.

(** * Domains that may be fetched *)

Definition DEFAULT_ALLOWED_DOMAINS : list string :=
  ["x.ai"; "console.x.ai"; "docs.x.ai"; "api.x.ai"; "docs.python.org"; "en.cppreference.com"; "docs.oracle.com";
   "learn.microsoft.com"; "developer.mozilla.org"; "go.dev"; "pkg.go.dev"; "www.php.net"; "docs.swift.org";
   "kotlinlang.org"; "ruby-doc.org"; "doc.rust-lang.org"; "docs.rs"; "www.typescriptlang.org"; "react.dev";
   "angular.io"; "vuejs.org"; "nextjs.org"; "expressjs.com"; "nodejs.org"; "bun.sh"; "jquery.com";
   "getbootstrap.com"; "tailwindcss.com"; "d3js.org"; "threejs.org"; "redux.js.org"; "webpack.js.org"; "jestjs.io";
   "reactrouter.com"; "docs.djangoproject.com"; "flask.palletsprojects.com"; "fastapi.tiangolo.com";
   "pandas.pydata.org"; "numpy.org"; "www.tensorflow.org"; "pytorch.org"; "scikit-learn.org"; "matplotlib.org";
   "requests.readthedocs.io"; "jupyter.org"; "laravel.com"; "symfony.com"; "wordpress.org"; "docs.spring.io";
   "hibernate.org"; "tomcat.apache.org"; "gradle.org"; "maven.apache.org"; "asp.net"; "dotnet.microsoft.com";
   "nuget.org"; "blazor.net"; "reactnative.dev"; "docs.flutter.dev"; "developer.apple.com";
   "developer.android.com"; "keras.io"; "spark.apache.org"; "huggingface.co"; "www.kaggle.com"; "redis.io";
   "www.postgresql.org"; "dev.mysql.com"; "www.sqlite.org"; "graphql.org"; "prisma.io"; "docs.aws.amazon.com";
   "cloud.google.com"; "kubernetes.io"; "www.docker.com"; "www.terraform.io"; "www.ansible.com"; "vercel.com/docs";
   "docs.netlify.com"; "devcenter.heroku.com"; "cypress.io"; "selenium.dev"; "docs.unity.com";
   "docs.unrealengine.com"; "git-scm.com"; "nginx.org"; "httpd.apache.org"]%string.

Inductive HostEntry : Type := AnyPath | PathPrefixes (prefixes : list rstr).

Definition DomainMatcher : Type := gmap rstr HostEntry.

Section domains.
Context `{!PolicyLibs}.

Definition add_entry (entries : DomainMatcher) (raw : rstr) : DomainMatcher :=
  let normalized := normalize_domain raw in
  if is_empty normalized then entries
  else match split_once SEP normalized with
       | None => <[normalized := AnyPath]> entries
       | Some (host, behind) =>
           match entries !! host with
           | Some AnyPath => entries
           | found =>
               let prefix := trim_end_matches (Z.eqb SEP) (SEP :: behind) in
               if is_empty prefix then <[host := AnyPath]> entries
               else match found with
                    | Some (PathPrefixes v) => if among v prefix then entries else <[host := PathPrefixes (v ++ [prefix])]> entries
                    | _ => <[host := PathPrefixes [prefix]]> entries
                    end
           end
       end.
Definition matcher_new (raw_entries : list rstr) : DomainMatcher := foldl add_entry ∅ raw_entries.

(** Whether the url may be fetched; [path] is the path of the url. *)
Definition permits (m : DomainMatcher) (raw_host : option rstr) (path : rstr) : bool :=
  match raw_host with
  | None => false
  | Some raw_host =>
      match m !! normalize_domain raw_host with
      | Some AnyPath => true
      | Some (PathPrefixes prefixes) =>
          let url_path := to_lowercase path in
          existsb (λ prefix, bool_decide (url_path = prefix)
            || match strip_prefix prefix url_path with Some (c :: _) => c =? SEP | _ => false end) prefixes
      | None => false
      end
  end.
End domains.
