(* ===== verification/SearchReplace.v ===== *)
(** The tool that replaces a string in a file
    (src/crates/codegen/intellihelper-tools/src/implementations/intellihelper_build/search_replace:
    helpers.rs, mod.rs, versions/legacy_0_4_10.rs).

    What surrounds a call is an argument ([SearchEnv]): the names of tools and
    parameters that a template renders, the parameters of the tool, what
    canonicalization finds, whether the path is a directory or ignored by git.
    Line counts for telemetry are left out. *)
From S2P Require Import Prelude Str Utf8 Path Truncate TextOffsets ToolDisk Confusables AccessTarget.

(** * Edits of a text (helpers.rs) *)

Definition CONTEXT_LINES : nat := 3.

(** Zero-based, inclusive. *)
Record LineRange : Type := mkLineRange { start_line : nat; end_line : nat }.

Definition compute_line_range (text : rstr) (start_pos : Z) (inserted_text : rstr) : option LineRange :=
  before ← byte_to start_pos text;
  let start_line := newlines before in
  let lines_in_inserted := Nat.max (length (split_inclusive inserted_text)) 1 in
  Some (mkLineRange start_line (start_line + lines_in_inserted - 1)).

(** [join] with nothing between. *)
Definition join_lines (ls : list rstr) : rstr := concat ls.

Definition ARROW : rchar := 8594.
Definition numbered_line (i : nat) (l : rstr) : rstr := fmt_dec (Z.of_nat (i + 1)) ++ [ARROW] ++ l.

(** The snippet, what is before it and what is behind it; [None] is a panic. *)
Definition render_snippet (new_text new_string : rstr) (start_pos : Z) (context_size : nat) : option (rstr * rstr * rstr) :=
  range ← compute_line_range new_text start_pos new_string;
  let ls := split_inclusive new_text in
  let total_lines_count := length ls in
  let snippet_start := (start_line range - context_size)%nat in
  let snippet_end := Nat.min (end_line range + context_size) (total_lines_count - 1) in
  before_context ←
    (if (snippet_start <? start_line range)%nat then join_lines <$> list_slice snippet_start (start_line range) ls else Some []);
  after_context ←
    (if (end_line range <? snippet_end)%nat then join_lines <$> list_slice (end_line range + 1) (snippet_end + 1) ls else Some []);
  if (snippet_end <? snippet_start)%nat then None
  else
    let snippet := join_lines (take (snippet_end - snippet_start + 1) (drop snippet_start (imap numbered_line ls))) in
    Some (snippet, before_context, after_context).

(** The loop over the positions: the text so far, the new positions, the end of
    the match before. *)
Fixpoint replace_at (text : rstr) (match_positions : list Z) (old_len : Z) (new_string : rstr) (last_end : Z)
    (new_text : rstr) (new_positions : list Z) : option (rstr * list Z) :=
  match match_positions with
  | [] => rest ← byte_from last_end text; Some (new_text ++ rest, new_positions)
  | pos :: match_positions =>
      gap ← byte_slice last_end pos text;
      replace_at text match_positions old_len new_string (pos + old_len) (new_text ++ gap ++ new_string)
        (new_positions ++ [byte_len (new_text ++ gap)])
  end.
Definition replace_using_positions (text : rstr) (match_positions : list Z) (old_string new_string : rstr)
    : option (rstr * list Z) :=
  replace_at text match_positions (byte_len old_string) new_string 0 [] [].

Record SearchReplaceEditDetail : Type := mkDetail {
  ed_old_string : rstr;
  old_line_number : nat;
  ed_new_string : rstr;
  new_line_number : nat;
  context_before : rstr;
  context_after : rstr;
  line_prefix : rstr;
}.

Definition build_edit_detail (new_text old_string new_string : rstr) (context_lines : nat) (start_pos : Z)
    : option SearchReplaceEditDetail :=
  snippet ← render_snippet new_text new_string start_pos context_lines;
  let '(_, before, after) := snippet in
  line_range_new ← compute_line_range new_text start_pos new_string;
  head_text ← byte_to start_pos new_text;
  let line_start := match rfind_newline head_text with Some i => i + 1 | None => 0 end in
  line_prefix ← byte_slice line_start start_pos new_text;
  Some (mkDetail old_string (start_line line_range_new + 1) new_string (start_line line_range_new + 1) before after line_prefix).

Definition build_edit_details (new_text old_string new_string : rstr) (new_positions : list Z) (context_lines : nat)
    : option (list SearchReplaceEditDetail) :=
  mapM (build_edit_detail new_text old_string new_string context_lines) new_positions.

(** ** Matches up to typography *)

Record NormalizedMatch : Type := mkMatch { original_start : Z; original_len : Z }.
Inductive NormalizedMatchResult : Type := NoMatch | Matches (ms : list NormalizedMatch) | Ambiguous.

(** One candidate: [Some None] is a rejected one. *)
Definition validate_candidate (text norm_pattern : rstr) (offset_map : list Z) (norm_start : Z)
    : option (option NormalizedMatch) :=
  let norm_end := norm_start + byte_len norm_pattern in
  orig_start ← offset_at offset_map norm_start;
  orig_end ← offset_at offset_map norm_end;
  if orig_end <=? orig_start then Some None
  else
    orig_slice ← byte_slice orig_start orig_end text;
    if bool_decide (normalize_confusables orig_slice ≠ norm_pattern) then Some None
    else Some (Some (mkMatch orig_start (orig_end - orig_start))).

(** [windows(2)]. *)
Fixpoint overlapping (ms : list NormalizedMatch) : bool :=
  match ms with
  | [] => false
  | m :: ms =>
      match ms with [] => false | m' :: _ => original_start m' <? original_start m + original_len m end || overlapping ms
  end.

Definition find_normalized_match_positions (text pattern : rstr) : option NormalizedMatchResult :=
  let '(norm_text, offset_map) := build_offset_map text in
  let norm_pattern := normalize_confusables pattern in
  if is_empty norm_pattern then Some NoMatch
  else
    candidates ← mapM (validate_candidate text norm_pattern offset_map) (match_indices norm_pattern norm_text);
    let validated := omap id candidates in
    let had_rejected_candidates := existsb (λ c, match c with None => true | Some _ => false end) candidates in
    match validated with
    | [] => Some (if had_rejected_candidates then Ambiguous else NoMatch)
    | _ :: _ => Some (if overlapping validated then Ambiguous else Matches validated)
    end.

Fixpoint replace_matches_at (text : rstr) (ms : list NormalizedMatch) (new_string : rstr) (last_end : Z)
    (result : rstr) (new_positions : list Z) : option (rstr * list Z) :=
  match ms with
  | [] => rest ← byte_from last_end text; Some (result ++ rest, new_positions)
  | m :: ms =>
      gap ← byte_slice last_end (original_start m) text;
      replace_matches_at text ms new_string (original_start m + original_len m) (result ++ gap ++ new_string)
        (new_positions ++ [byte_len (result ++ gap)])
  end.
Definition replace_normalized_matches (text : rstr) (ms : list NormalizedMatch) (new_string : rstr) : option (rstr * list Z) :=
  replace_matches_at text ms new_string 0 [] [].

(** * The tool (mod.rs) *)

Record SearchReplaceInput : Type := mkSearchInput {
  in_file_path : rstr;
  in_old_string : rstr;
  in_new_string : rstr;
  replace_all : bool;
}.

Record SearchReplaceParams : Type := mkSearchParams {
  empty_old_string_does_not_override : bool;
  unicode_normalized_fallback : bool;
  include_user_edit_hint : bool;
}.

Record SearchReplaceEditsApplied : Type := mkApplied {
  ap_old_string : rstr;
  ap_new_string : rstr;
  tool_output_for_prompt : rstr;
  tool_output_for_prompt_concise : rstr;
  ap_absolute_path : rstr;
  ap_details : list SearchReplaceEditDetail;
  unicode_normalized : bool;
}.

Inductive SearchReplaceOutput : Type :=
| SrFileAlreadyExists (message : rstr)
| SrEditsApplied (applied : SearchReplaceEditsApplied)
| SrMultipleMatchesFound (message : rstr)
| SrNoMatchesFound (message file_path : rstr)
| SrInvalidInput (message : rstr)
| SrFileNotFound (message : rstr)
| SrFilenameTooLong (message : rstr).

(** [path_hint] is what path_suggestions.rs adds, [render] the template
    renderer ([inr] its error), [edit_tools] the programs of [QueryTools]. *)
Class SearchEnv : Type := {
  sr_cwd : rstr;
  sr_display_cwd : option rstr;
  hints_enabled : bool;
  path_hint : rstr → rstr;
  render : rstr → rstr + rstr;
  sr_params : option SearchReplaceParams;
  try_canonicalize : rstr → rstr + ErrorKind;
  try_resolve_unicode_filename : rstr → option rstr;
  is_dir : rstr → bool;
  respect_gitignore : option bool;
  gitignore_filter : option (rstr → bool);
  edit_tools : list rstr;
}.

Definition NAME_MAX : Z := 255.

Definition too_long (c : Component) : option rstr :=
  match c with
  | Normal name =>
      if NAME_MAX <? byte_len name then
        Some (lit "Error: file name exceeds the " ++ fmt_dec NAME_MAX ++ lit "-character limit (" ++ fmt_dec (byte_len name)
              ++ lit " characters). Please use a shorter file name.")
      else None
  | _ => None
  end.
Definition validate_path_length (file_path : rstr) : option SearchReplaceOutput :=
  SrFilenameTooLong <$> head (omap too_long (components file_path)).

(** [max_by_key(|w| w.len())]: the last of the longest. *)
Definition longer (best : option rstr) (w : rstr) : option rstr :=
  match best with Some b => if byte_len w <? byte_len b then Some b else Some w | None => Some w end.

Definition find_line (keyword : rstr) (ls : list rstr) : option (nat * rstr) :=
  List.find (λ e, contains_str keyword e.2) (imap pair ls).

Definition build_nearest_match_hint (file old_string : rstr) : rstr :=
  let keyword := default [] (foldl longer None (split_whitespace (default [] (head (lines old_string))))) in
  if is_empty keyword then []
  else
    match find_line keyword (lines file) with
    | Some (i, l) =>
        truncate_str_with_marker
          ([10; 10] ++ lit "Nearest match: line " ++ fmt_dec (Z.of_nat (i + 1)) ++ lit ": " ++ trim_end l) 200
    | None => []
    end.

(** [Vec::dedup]. *)
Fixpoint dedup_nat (l : list nat) : list nat :=
  match l with
  | [] => []
  | x :: l =>
      match l with
      | y :: _ => if (x =? y)%nat then dedup_nat l else x :: dedup_nat l
      | [] => [x]
      end
  end.

Definition MAX_LISTED_LINES : nat := 8.

Definition examples_clause (tools : list rstr) : rstr :=
  match tools with
  | [] => []
  | [a] => lit " (e.g. " ++ a ++ lit ")"
  | [a; b] => lit " (e.g. " ++ a ++ lit " or " ++ b ++ lit ")"
  | _ => lit " (e.g. " ++ join (lit ", ") (removelast tools) ++ lit ", or " ++ default [] (last tools) ++ lit ")"
  end.

Definition line_summary_of (affected_lines : list nat) : rstr :=
  let show n := fmt_dec (Z.of_nat n) in
  if (length affected_lines <=? MAX_LISTED_LINES)%nat then join (lit ", ") (show <$> affected_lines)
  else join (lit ", ") (show <$> take MAX_LISTED_LINES affected_lines) ++ lit " (and "
       ++ show (length affected_lines - MAX_LISTED_LINES)%nat ++ lit " more)".

(** The outer [None] is a panic, the inner one no hint. *)
Definition build_confusable_hint (file old_string : rstr) (tools : list rstr)
    (read_tool_name old_string_param execute_tool_name : rstr) : option (option rstr) :=
  if negb (has_confusables file) then Some None
  else
    let '(norm_file, offset_map) := build_offset_map file in
    let norm_old := normalize_confusables old_string in
    match split_at_first norm_old norm_file with
    | None => Some None
    | Some (before, _) =>
        let norm_start := byte_len before in
        orig_start ← offset_at offset_map norm_start;
        orig_end ← offset_at offset_map (norm_start + byte_len norm_old);
        to_start ← byte_to orig_start file;
        to_end ← byte_to orig_end file;
        let match_start_line := (newlines to_start + 1)%nat in
        let match_end_line := (newlines to_end + 1)%nat in
        let inside h := (match_start_line <=? line_number h)%nat && (line_number h <=? match_end_line)%nat in
        let affected_lines := dedup_nat (line_number <$> List.filter inside (detect_confusables file)) in
        match affected_lines with
        | [] => Some None
        | _ :: _ =>
            let read_qualifier := if is_empty read_tool_name then [] else lit " in " ++ read_tool_name ++ lit " output" in
            let old_string_param := if is_empty old_string_param then lit "old_string" else old_string_param in
            let terminal_fallback :=
              if bool_decide (tools = []) || is_empty execute_tool_name then []
              else lit ", or use " ++ execute_tool_name ++ lit " with a short script" ++ examples_clause tools
                   ++ lit " to edit the file directly" in
            Some (Some ([10; 10] ++ lit "The nearest matching region contains Unicode typography characters (smart quotes, em-dashes, etc.) on lines "
              ++ line_summary_of affected_lines ++ lit " that look identical to ASCII" ++ read_qualifier
              ++ lit " but differ at the byte level. Re-read the file and use a shorter " ++ old_string_param
              ++ lit " anchored on nearby ASCII-only context" ++ terminal_fallback ++ lit "."))
        end
    end.

Section Handlers.
Context `{!System, !SearchEnv, !Homes}.

Definition display_cwd_or_cwd : rstr := default sr_cwd sr_display_cwd.

Definition format_not_found_error (display_path resolved_path : rstr) : rstr :=
  let base := lit "Error: " ++ display_path ++ lit " does not exist." in
  if hints_enabled then base ++ path_hint resolved_path else base.

(** [TemplateRenderer::resolve] and [render]: a failure is a [ToolError]. *)
Definition rendered (template : rstr) : St Disk (Result rstr) :=
  mret match render template with inl s => inl s | inr e => inr (Some e) end.

(** What cannot panic here may end the run: [None] is a panic. *)
Definition or_panic {A} (o : option A) : St Disk (Result A) :=
  mret match o with Some a => inl a | None => inr None end.

(** The answer of the tool when a write fails. *)
Definition creation_failure (input : SearchReplaceInput) (path : rstr) (e : ComputerError) : SearchReplaceOutput :=
  match io_error_kind e with
  | Some NotFound => SrFileNotFound (format_not_found_error (path_join display_cwd_or_cwd (in_file_path input)) path)
  | Some AlreadyExists =>
      SrInvalidInput (lit "Error: cannot create " ++ in_file_path input
        ++ lit ". A component of the path already exists as a file where a directory is expected.")
  | Some InvalidFilename =>
      SrFilenameTooLong (lit "Error: file name exceeds the " ++ fmt_dec NAME_MAX ++ lit "-character limit. Please use a shorter file name.")
  | _ => SrInvalidInput (lit "Error: failed to write " ++ in_file_path input ++ lit ": " ++ ce_text e)
  end.

Definition write_failure (input : SearchReplaceInput) (e : ComputerError) : SearchReplaceOutput :=
  match io_error_kind e with
  | Some AlreadyExists =>
      SrInvalidInput (lit "Error: cannot write " ++ in_file_path input
        ++ lit ". A component of the path already exists as a file where a directory is expected.")
  | Some InvalidFilename =>
      SrFilenameTooLong (lit "Error: file name exceeds the " ++ fmt_dec NAME_MAX ++ lit "-character limit. Please use a shorter file name.")
  | _ => SrInvalidInput (lit "Error: failed to write " ++ in_file_path input ++ lit ": " ++ ce_text e)
  end.

(** [None]: the run ends with a [ToolError]. *)
Definition read_failure (input : SearchReplaceInput) (path : rstr) (e : ComputerError) : option SearchReplaceOutput :=
  match io_error_kind e with
  | Some NotFound => Some (SrFileNotFound (format_not_found_error (path_join display_cwd_or_cwd (in_file_path input)) path))
  | Some IsADirectory => Some (SrInvalidInput (lit "Error: " ++ in_file_path input ++ lit " is a directory, not a file."))
  | Some InvalidFilename =>
      Some (SrFilenameTooLong (lit "Error: file name exceeds the " ++ fmt_dec NAME_MAX ++ lit "-character limit. Please use a shorter file name."))
  | Some PermissionDenied => Some (SrInvalidInput (lit "Error: permission denied reading " ++ in_file_path input ++ lit "."))
  | _ => None
  end.

Definition handle_new_file_creation (input : SearchReplaceInput) (id path : rstr) (does_not_override : bool)
    : St Disk (Result SearchReplaceOutput) :=
  first_read ← fs_read_file path;
  let file_exists := match first_read with inl bytes => negb (bool_decide (bytes = [])) | inr _ => false end in
  second_read ← fs_read_file path;
  let old_text := match second_read with inl bytes => Some (from_utf8_lossy bytes) | inr _ => None end in
  if file_exists && does_not_override then
    old_string_name ←? rendered (lit "${{ params.edit.old_string }}");
    mret (inl (SrFileAlreadyExists
      (old_string_name ++ lit " is empty, which is only allowed when creating a new file or when the file is empty.")))
  else
    outcome ← fs_write_file path (as_bytes (in_new_string input));
    match outcome with
    | inr e => mret (inl (creation_failure input path e))
    | inl _ =>
        _ ← match old_text with
            | Some old_text =>
                if file_exists && negb does_not_override
                then send_file_written (mkWritten id path (in_new_string input) (Some old_text) false)
                else send_file_written (mkWritten id path (in_new_string input) None true)
            | None => send_file_written (mkWritten id path (in_new_string input) None true)
            end;
        mret (inl (SrEditsApplied
          (mkApplied (in_old_string input) (in_new_string input)
             (lit "The file " ++ in_file_path input ++ lit " has been created successfully.")
             (lit "The file " ++ in_file_path input ++ lit " has been created.") path
             [mkDetail (in_old_string input) 1 (in_new_string input) 1 [] [] []] false)))
    end.

Definition CRLF : rstr := [13; 10].

(** [input]'s string in the text, exactly or up to typography: the positions,
    and whether they are of the second kind; [inr] is an answer. *)
Definition find_positions (input : SearchReplaceInput) (match_text : rstr)
    : St Disk (Result ((list Z * bool) + SearchReplaceOutput)) :=
  let positions := match_indices (in_old_string input) match_text in
  match positions with
  | _ :: _ => mret (inl (inl (positions, false)))
  | [] =>
      if is_some_and unicode_normalized_fallback sr_params then
        found ←? or_panic (find_normalized_match_positions match_text (in_old_string input));
        match found with
        | Matches ms =>
            if (1 <? length ms)%nat && negb (replace_all input) then
              replace_all_name ←? rendered (lit "${{ params.edit.replace_all }}");
              mret (inl (inr (SrMultipleMatchesFound
                (lit "The string to replace was found multiple times in the file (via Unicode normalization). Use "
                 ++ replace_all_name ++ lit " to replace all occurrences, or include more context to only edit one occurrence."))))
            else mret (inl (inl (original_start <$> ms, true)))
        | Ambiguous =>
            old_string_name ←? rendered (lit "${{ params.edit.old_string }}");
            mret (inl (inr (SrMultipleMatchesFound
              (lit "The string to replace was found via Unicode normalization but the match is ambiguous (partial or overlapping). Use a more specific "
               ++ old_string_name ++ lit " that avoids lines with Unicode typography characters."))))
        | NoMatch => mret (inl (inl ([], false)))
        end
      else mret (inl (inl ([], false)))
  end.

Definition no_match_answer (input : SearchReplaceInput) (path match_text : rstr) (is_legacy user_edit_hint : bool)
    : St Disk (Result SearchReplaceOutput) :=
  read_name ←? rendered (lit "${{ tools.by_kind.read }}");
  old_string_param ←? rendered (lit "${{ params.edit.old_string }}");
  execute_name ←? rendered (lit "${{ tools.by_kind.execute }}");
  let hint := if is_legacy then [] else build_nearest_match_hint match_text (in_old_string input) in
  confusable_hint ←?
    (if is_legacy then mret (inl [])
     else h ←? or_panic (build_confusable_hint match_text (in_old_string input) edit_tools read_name old_string_param execute_name);
          mret (inl (default [] h)));
  let edit_hint := if user_edit_hint then lit " The user may have changed the file since you last read it." else [] in
  mret (inl (SrNoMatchesFound
    (lit "The string to replace was not found in the file, use the " ++ read_name ++ lit " tool to see the correct string."
     ++ edit_hint ++ hint ++ confusable_hint) path)).

(** The new text with the positions of what was put in; [inr] is an answer. *)
Definition replaced_text (input : SearchReplaceInput) (path match_text : rstr) (positions : list Z) (normalized : bool)
    : option ((rstr * list Z) + SearchReplaceOutput) :=
  if normalized then
    found ← find_normalized_match_positions match_text (in_old_string input);
    match found with
    | Matches ms => r ← replace_normalized_matches match_text ms (in_new_string input); Some (inl r)
    | _ => Some (inr (SrNoMatchesFound (lit "Internal error: normalized match disappeared on re-evaluation") path))
    end
  else r ← replace_using_positions match_text positions (in_old_string input) (in_new_string input); Some (inl r).

Definition handle_replacement (input : SearchReplaceInput) (id path : rstr) (is_legacy user_edit_hint : bool)
    : St Disk (Result SearchReplaceOutput) :=
  contents ← fs_read_file path;
  match contents with
  | inr e => mret match read_failure input path e with Some answer => inl answer | None => inr (Some (ce_text e)) end
  | inl bytes =>
      let old_text := from_utf8_lossy bytes in
      let has_crlf := contains_str CRLF old_text in
      let match_text := if has_crlf then replace CRLF [10] old_text else old_text in
      found ←? find_positions input match_text;
      match found with
      | inr answer => mret (inl answer)
      | inl ([], _) => no_match_answer input path match_text is_legacy user_edit_hint
      | inl (positions, normalized) =>
          if (1 <? length positions)%nat && negb (replace_all input) then
            replace_all_name ←? rendered (lit "${{ params.edit.replace_all }}");
            mret (inl (SrMultipleMatchesFound
              (lit "The string to replace was found multiple times in the file. Use " ++ replace_all_name
               ++ lit " to replace all occurrences, or include more context to only edit one occurrence.")))
          else
            edited ←? or_panic (replaced_text input path match_text positions normalized);
            match edited with
            | inr answer => mret (inl answer)
            | inl (new_text, new_positions) =>
                let write_text := if has_crlf then replace [10] CRLF (replace CRLF [10] new_text) else new_text in
                outcome ← fs_write_file path (as_bytes write_text);
                match outcome with
                | inr e => mret (inl (write_failure input e))
                | inl _ =>
                    _ ← send_file_written (mkWritten id path write_text (Some old_text) false);
                    details ←? or_panic (build_edit_details new_text (in_old_string input) (in_new_string input) new_positions CONTEXT_LINES);
                    let '(message, concise) :=
                      if (length new_positions =? 1)%nat then
                        (lit "The file " ++ in_file_path input ++ lit " has been updated successfully.",
                         lit "The file " ++ in_file_path input ++ lit " has been updated.")
                      else
                        (lit "The file " ++ in_file_path input ++ lit " has been updated. All occurrences were successfully replaced.",
                         lit "The file " ++ in_file_path input ++ lit " has been updated. All occurrences were replaced.") in
                    mret (inl (SrEditsApplied
                      (mkApplied (in_old_string input) (in_new_string input) message concise path details normalized)))
                end
            end
      end
  end.

(** The file that a call is about. *)
Definition edited_path (input : SearchReplaceInput) : rstr :=
  let resolved := resolve_model_path sr_cwd sr_display_cwd (in_file_path input) in
  match try_canonicalize resolved with
  | inl p => p
  | inr NotFound => default resolved (try_resolve_unicode_filename resolved)
  | inr _ => resolved
  end.

Definition run_search_replace (input : SearchReplaceInput) (id : rstr) (is_legacy : bool) : St Disk (Result SearchReplaceOutput) :=
  let path := edited_path input in
  match validate_path_length (in_file_path input) with
  | Some err => mret (inl err)
  | None =>
      if is_dir path then mret (inl (SrInvalidInput (lit "File path is a directory")))
      else if negb is_legacy && match respect_gitignore with Some b => b | None => true end
              && is_some_and (λ ignored, ignored path) gitignore_filter
      then mret (inl (SrInvalidInput (lit "Error: " ++ in_file_path input ++ lit " is ignored by .gitignore and cannot be edited.")))
      else if bool_decide (in_old_string input = in_new_string input)
      then mret (inl (SrInvalidInput (lit "Old string and new string are the same")))
      else
        let does_not_override := match sr_params with Some p => empty_old_string_does_not_override p | None => false end in
        let user_edit_hint := match sr_params with Some p => include_user_edit_hint p | None => true end in
        if is_empty (in_old_string input) then handle_new_file_creation input id path does_not_override
        else handle_replacement input id path is_legacy user_edit_hint
  end.

(** ** The wording of version 0.4.10 (versions/legacy_0_4_10.rs) *)

Record RenderContext : Type := mkRenderContext {
  rc_file_path : rstr;
  read_tool_name : rstr;
  replace_all_param_name : rstr;
  old_string_param_name : rstr;
}.

Definition build_render_context (file_path : rstr) : St Disk (Result RenderContext) :=
  read_tool_name ←? rendered (lit "${{ tools.by_kind.read }}");
  replace_all_param_name ←? rendered (lit "${{ params.edit.replace_all }}");
  old_string_param_name ←? rendered (lit "${{ params.edit.old_string }}");
  mret (inl (mkRenderContext file_path read_tool_name replace_all_param_name old_string_param_name)).

(** [downgrade_structured_errors], with [render_error] on each kind. *)
Definition downgraded (output : SearchReplaceOutput) (ctx : RenderContext) : SearchReplaceOutput :=
  match output with
  | SrFileAlreadyExists _ =>
      SrInvalidInput (old_string_param_name ctx ++ lit " is empty, which is only allowed when creating a new file or when the file is empty.")
  | SrFileNotFound _ => SrInvalidInput (lit "File not found: " ++ rc_file_path ctx ++ lit ". Please check the path and try again.")
  | SrFilenameTooLong msg => SrInvalidInput msg
  | SrMultipleMatchesFound _ =>
      SrInvalidInput (lit "The string to replace was found multiple times in the file. Use " ++ replace_all_param_name ctx
        ++ lit " to replace all occurrences, or include more context to only edit one occurrence.")
  | SrNoMatchesFound _ _ =>
      SrInvalidInput (lit "The string to replace was not found in the file, use the " ++ read_tool_name ctx ++ lit " tool to see the correct string.")
  | other => other
  end.

Definition downgrade_structured_errors (output : SearchReplaceOutput) (file_path : rstr) : St Disk (Result SearchReplaceOutput) :=
  ctx ←? build_render_context file_path;
  mret (inl (downgraded output ctx)).

(** [SearchReplaceTool::run]. *)
Definition search_replace (input : SearchReplaceInput) (id : rstr) (is_legacy : bool) : St Disk (Result SearchReplaceOutput) :=
  result ←? run_search_replace input id is_legacy;
  if is_legacy then downgrade_structured_errors result (in_file_path input) else mret (inl result).
End Handlers.
