(* ===== verification/SearchReplaceThms.v ===== *)
(** What the search-and-replace tool writes: the text with the occurrences of
    the old string replaced, exactly as [str::replace] does it, or the regions
    that look like it; and nothing when it refuses. *)
From S2P Require Import Prelude Str Utf8 Path Truncate TextOffsets ToolDisk Confusables AccessTarget SearchReplace.

(** * Replacing at positions *)

(** [new] stands in the text at the byte offset [pos]. *)
Definition stands_at (new text : rstr) (pos : Z) : Prop := ∃ x y, text = x ++ new ++ y ∧ pos = byte_len x.

Lemma stands_at_app new text more pos : stands_at new text pos → stands_at new (text ++ more) pos.
Proof. intros (x & y & -> & ->). exists x, (y ++ more). by rewrite <- !app_assoc. Qed.

Lemma stands_at_grow new text more ps : Forall (stands_at new text) ps → Forall (stands_at new (text ++ more)) ps.
Proof. intros H. eapply Forall_impl; [exact H|]. intros p. apply stands_at_app. Qed.

Lemma stands_at_here new text : stands_at new (text ++ new) (byte_len text).
Proof. exists text, []. by rewrite app_nil_r. Qed.

Lemma replace_at_matches fuel p new pre s acc ps :
  Forall (stands_at new acc) ps →
  ∃ ps', replace_at (pre ++ s) (match_indices_from fuel (byte_len pre) p s) (byte_len p) new (byte_len pre) acc ps
    = Some (acc ++ replace_fuel fuel p new s, ps') ∧
    Forall (stands_at new (acc ++ replace_fuel fuel p new s)) ps' ∧
    length ps' = (length ps + length (match_indices_from fuel (byte_len pre) p s))%nat.
Proof.
  revert pre s acc ps. induction fuel as [|fuel IH]; intros pre s acc ps Hps; cbn [match_indices_from replace_fuel replace_at].
  - rewrite byte_from_app. eexists. split; [done|]. split; [by apply stands_at_grow|]. simpl. lia.
  - destruct (split_at_first p s) as [[before after]|] eqn:Hs; cbn [replace_at].
    + apply split_at_first_spec in Hs as ->. rewrite byte_slice_app. cbn [mbind option_bind].
      assert (byte_len pre + byte_len before + byte_len p = byte_len (pre ++ before ++ p)) as -> by (rewrite !byte_len_app; lia).
      assert (pre ++ before ++ p ++ after = (pre ++ before ++ p) ++ after) as -> by (by rewrite <- !app_assoc).
      destruct (IH (pre ++ before ++ p) after (acc ++ before ++ new) (ps ++ [byte_len (acc ++ before)])) as (ps' & -> & Hps' & Hlen).
      { apply Forall_app. split; [by apply stands_at_grow|]. constructor; [|done].
        rewrite app_assoc. apply stands_at_here. }
      exists ps'. rewrite <- !app_assoc in *. split; [done|]. split; [done|]. rewrite Hlen, length_app. simpl. lia.
    + rewrite byte_from_app. eexists. split; [done|]. split; [by apply stands_at_grow|]. simpl. lia.
Qed.

(** The replacement is [str::replace]. *)
Lemma replace_using_positions_spec text old new :
  ∃ ps, replace_using_positions text (match_indices old text) old new = Some (replace old new text, ps) ∧
    Forall (stands_at new (replace old new text)) ps ∧ length ps = length (match_indices old text).
Proof.
  destruct (replace_at_matches (length text) old new [] text [] [] ltac:(constructor)) as (ps & H & Hps & Hlen). eauto.
Qed.

(** * Details of an edit *)

Lemma newlines_app a b : newlines (a ++ b) = (newlines a + newlines b)%nat.
Proof. unfold newlines. by rewrite List.filter_app, length_app. Qed.

Lemma newlines_lines s : (newlines s ≤ length (split_inclusive s))%nat.
Proof.
  induction s as [|c s IH]; [done|]. unfold newlines in *. cbn [List.filter split_inclusive].
  rewrite (Z.eqb_sym 10 c). destruct (c =? 10); simpl; [lia|]. destruct (split_inclusive s); simpl in *; lia.
Qed.

Lemma list_slice_total {A} (a b : nat) (l : list A) : (a ≤ b ≤ length l)%nat → ∃ r, list_slice a b l = Some r.
Proof. intros. unfold list_slice. rewrite !(proj2 (Nat.leb_le _ _)) by lia. by eexists. Qed.

Lemma compute_line_range_total text new pos :
  stands_at new text pos →
  ∃ r, compute_line_range text pos new = Some r ∧ (start_line r ≤ length (split_inclusive text))%nat ∧ (start_line r ≤ end_line r)%nat.
Proof.
  intros (x & y & -> & ->). unfold compute_line_range. rewrite byte_to_app. eexists. split; [done|]. cbn [start_line end_line].
  pose proof (newlines_lines (x ++ new ++ y)) as H. rewrite newlines_app in H. lia.
Qed.

Lemma render_snippet_total text new pos n : (1 ≤ n)%nat → stands_at new text pos → ∃ r, render_snippet text new pos n = Some r.
Proof.
  intros Hn Hs. unfold render_snippet. destruct (compute_line_range_total _ _ _ Hs) as (r & -> & Hl & He). cbn [mbind option_bind].
  set (ls := split_inclusive text) in *. set (a := (start_line r - n)%nat).
  set (b := ((end_line r + n) `min` (length ls - 1))%nat).
  assert (∃ before, (if (a <? start_line r)%nat then join_lines <$> list_slice a (start_line r) ls else Some []) = Some before) as [before ->].
  { destruct (Nat.ltb_spec a (start_line r)); [|by eexists].
    destruct (list_slice_total a (start_line r) ls) as [x ->]; [lia|]. by eexists. }
  assert (∃ after, (if (end_line r <? b)%nat then join_lines <$> list_slice (end_line r + 1) (b + 1) ls else Some []) = Some after) as [after ->].
  { destruct (Nat.ltb_spec (end_line r) b); [|by eexists].
    destruct (list_slice_total (end_line r + 1) (b + 1) ls) as [x ->]; [lia|]. by eexists. }
  cbn [mbind option_bind]. rewrite (proj2 (Nat.ltb_ge _ _)) by lia. by eexists.
Qed.

Lemma rfind_newline_from_spec offset s i :
  rfind_newline_from offset s = Some i → ∃ a b, s = a ++ 10 :: b ∧ i = offset + byte_len a.
Proof.
  revert offset. induction s as [|c s IH]; intros offset H; simpl in H; [done|].
  destruct (rfind_newline_from (offset + len_utf8 c) s) as [j|] eqn:E.
  - simplify_eq. destruct (IH _ E) as (a & b & -> & ->). exists (c :: a), b. split; [done|]. rewrite byte_len_cons. lia.
  - destruct (Z.eqb_spec c 10) as [->|]; [|done]. simplify_eq. exists [], s. split; [done|]. unfold byte_len. simpl. lia.
Qed.

Lemma byte_len_newline : byte_len [10] = 1.
Proof. done. Qed.

Lemma build_edit_detail_total text old new pos : stands_at new text pos → ∃ r, build_edit_detail text old new CONTEXT_LINES pos = Some r.
Proof.
  intros Hs. unfold build_edit_detail. destruct (render_snippet_total text new pos CONTEXT_LINES ltac:(unfold CONTEXT_LINES; lia) Hs) as [[[s b] a] ->].
  destruct (compute_line_range_total _ _ _ Hs) as (r & -> & _). cbn [mbind option_bind].
  destruct Hs as (x & y & -> & ->). rewrite byte_to_app. cbn [mbind option_bind].
  assert (∃ p, byte_slice (match rfind_newline x with Some i => i + 1 | None => 0 end) (byte_len x) (x ++ new ++ y) = Some p) as [p ->].
  { unfold rfind_newline. destruct (rfind_newline_from 0 x) as [i|] eqn:Hi.
    - apply rfind_newline_from_spec in Hi as (a' & b' & -> & ->). exists b'.
      rewrite (cons_middle 10 a' b'), (app_assoc a' [10] b').
      replace (0 + byte_len a' + 1) with (byte_len (a' ++ [10])) by (rewrite byte_len_app, byte_len_newline; lia).
      set (h := a' ++ [10]). etrans; [|exact (byte_slice_app h b' (new ++ y))].
      rewrite byte_len_app. by rewrite <- app_assoc.
    - exists x. apply (byte_slice_app [] x (new ++ y)). }
  by eexists.
Qed.

Lemma build_edit_details_total text old new ps :
  Forall (stands_at new text) ps → ∃ ds, build_edit_details text old new ps CONTEXT_LINES = Some ds ∧ length ds = length ps.
Proof.
  unfold build_edit_details. induction 1 as [|p ps Hp _ (ds & IH & Hl)]; [by exists []|].
  destruct (build_edit_detail_total text old new p Hp) as [d Hd]. exists (d :: ds). cbn [mapM]. rewrite Hd. cbn. rewrite IH.
  split; [done|]. simpl. by rewrite Hl.
Qed.

(** * Matches up to typography *)

Lemma match_indices_in fuel p pre s i :
  In i (match_indices_from fuel (byte_len pre) p s) → ∃ x y, pre ++ s = x ++ p ++ y ∧ i = byte_len x.
Proof.
  revert pre s. induction fuel as [|fuel IH]; intros pre s H; cbn [match_indices_from] in H; [done|].
  destruct (split_at_first p s) as [[before after]|] eqn:Hs; [|done].
  apply split_at_first_spec in Hs as ->. destruct H as [<-|H].
  - exists (pre ++ before), after. rewrite byte_len_app, <- app_assoc. done.
  - rewrite <- !byte_len_app in H. apply IH in H as (x & y & H & ->). exists x, y. split; [|done].
    by rewrite <- H, <- !app_assoc.
Qed.

(** A region of [text] that looks like [norm_pattern]. *)
Definition looks_like (text norm_pattern : rstr) (m : NormalizedMatch) : Prop :=
  ∃ a seg b, text = a ++ seg ++ b ∧ original_start m = byte_len a ∧ original_len m = byte_len seg ∧
    normalize_confusables seg = norm_pattern.

Lemma offset_at_spec text x y :
  normalize_confusables text = x ++ y → ∃ a b, text = a ++ b ∧ offset_at (offsets_from 0 text) (byte_len x) = Some (byte_len a).
Proof.
  intros H. destruct (offsets_spec 0 text x y H) as (a & b & z & -> & _ & Hl & _). exists a, b. split; [done|].
  unfold offset_at. by rewrite (proj2 (Z.ltb_ge _ _)) by apply byte_len_nonneg.
Qed.

(** No candidate panics, and one that is taken looks like the pattern. *)
Lemma validate_candidate_spec text np x y :
  normalize_confusables text = x ++ np ++ y →
  ∃ c, validate_candidate text np (offsets_from 0 text) (byte_len x) = Some c ∧ ∀ m, c = Some m → looks_like text np m.
Proof.
  intros H. unfold validate_candidate.
  destruct (offset_at_spec text x (np ++ y) H) as (a & b & Hab & ->). cbn [mbind option_bind].
  rewrite <- byte_len_app, app_assoc in *. destruct (offset_at_spec text (x ++ np) y H) as (a' & b' & Hab' & ->). cbn [mbind option_bind].
  destruct (Z.leb_spec (byte_len a') (byte_len a)); [by eexists|].
  destruct (byte_prefixes a b a' b') as [m ->]; [by rewrite <- Hab|lia|].
  assert (byte_slice (byte_len a) (byte_len (a ++ m)) text = Some m) as ->
    by (rewrite Hab', byte_len_app, <- app_assoc; apply byte_slice_app).
  cbn [mbind option_bind]. case_bool_decide as Hm; [by eexists|]. eexists. split; [done|]. intros _ [= <-].
  exists a, m, b'. rewrite app_assoc. split; [done|]. cbn. rewrite byte_len_app. split; [done|]. split; [lia|].
  by destruct (decide (normalize_confusables m = np)).
Qed.

Lemma validate_candidates_spec text np ix :
  (∀ i, In i ix → ∃ x y, normalize_confusables text = x ++ np ++ y ∧ i = byte_len x) →
  ∃ cs, mapM (validate_candidate text np (offsets_from 0 text)) ix = Some cs ∧ Forall (looks_like text np) (omap id cs).
Proof.
  induction ix as [|i ix IH]; intros H; [by exists []|].
  destruct (H i ltac:(by left)) as (x & y & Hx & ->). destruct (validate_candidate_spec text np x y Hx) as (c & Hc & Hm).
  destruct (IH ltac:(intros j Hj; apply H; by right)) as (cs & Hcs & Hf).
  exists (c :: cs). cbn [mapM]. rewrite Hc. cbn. rewrite Hcs. split; [done|]. destruct c as [m|]; simpl; [|done].
  constructor; [by apply Hm|done].
Qed.

(** The search never panics; what it finds looks like the pattern and does not
    overlap. *)
Lemma find_normalized_spec text pattern :
  ∃ r, find_normalized_match_positions text pattern = Some r ∧
    ∀ ms, r = Matches ms → ms ≠ [] ∧ Forall (looks_like text (normalize_confusables pattern)) ms ∧ overlapping ms = false.
Proof.
  unfold find_normalized_match_positions, build_offset_map. case_match; [by eexists|].
  destruct (validate_candidates_spec text (normalize_confusables pattern) (match_indices (normalize_confusables pattern) (normalize_confusables text)))
    as (cs & -> & Hf); [intros i Hi; by apply (match_indices_in _ _ [] _ _ Hi)|].
  cbn [mbind option_bind]. destruct (omap id cs) as [|m ms] eqn:Hms; [by destruct (existsb _ _); eexists|].
  destruct (overlapping (m :: ms)) eqn:Ho; eexists; (split; [done|]); [done|]. by intros ? [= <-].
Qed.

(** ** Replacing them *)

(** The text cut at regions: before each one what stays, then what is behind. *)
Fixpoint cut_text (cuts : list (rstr * rstr)) (rest : rstr) : rstr :=
  match cuts with [] => rest | (gap, seg) :: cuts => gap ++ seg ++ cut_text cuts rest end.
Fixpoint put_text (cuts : list (rstr * rstr)) (new rest : rstr) : rstr :=
  match cuts with [] => rest | (gap, _) :: cuts => gap ++ new ++ put_text cuts new rest end.

(** The matches begin behind what is done. *)
Definition behind (last_end : Z) (ms : list NormalizedMatch) : Prop :=
  match ms with [] => True | m :: _ => last_end ≤ original_start m end.

Lemma not_overlapping m ms :
  overlapping (m :: ms) = false → behind (original_start m + original_len m) ms ∧ overlapping ms = false.
Proof. destruct ms as [|m' ms]; cbn [overlapping behind]; [done|]. intros [H Ho]%orb_false_elim. split; [lia|done]. Qed.

Lemma replace_matches_at_spec np new ms pre s acc ps :
  Forall (looks_like (pre ++ s) np) ms → overlapping ms = false → behind (byte_len pre) ms → Forall (stands_at new acc) ps →
  ∃ cuts rest ps',
    replace_matches_at (pre ++ s) ms new (byte_len pre) acc ps = Some (acc ++ put_text cuts new rest, ps') ∧
    s = cut_text cuts rest ∧ Forall (λ c, normalize_confusables c.2 = np) cuts ∧
    Forall (stands_at new (acc ++ put_text cuts new rest)) ps' ∧ length cuts = length ms ∧ length ps' = (length ps + length ms)%nat.
Proof.
  revert pre s acc ps. induction ms as [|m ms IH]; intros pre s acc ps Hm Ho Hb Hps; cbn [replace_matches_at].
  - rewrite byte_from_app. exists [], s, ps. cbn. split; [done|]. split; [done|]. split; [constructor|].
    split; [by apply stands_at_grow|]. split; [done|lia].
  - apply not_overlapping in Ho as [Hb' Ho]. apply Forall_cons in Hm as [(a & seg & b & Heq & Hstart & Hlen & Hseg) Hm].
    cbn [behind] in Hb. rewrite Hstart, Hlen in *.
    destruct (byte_prefixes pre s a (seg ++ b) Heq Hb) as [gap ->].
    rewrite <- app_assoc in Heq. apply app_inv_head in Heq as ->.
    rewrite byte_len_app, byte_slice_app. cbn [mbind option_bind].
    rewrite <- !byte_len_app in *. rewrite <- app_assoc in *.
    assert (pre ++ gap ++ seg ++ b = (pre ++ gap ++ seg) ++ b) as E by (by rewrite <- !app_assoc). rewrite E in *.
    destruct (IH (pre ++ gap ++ seg) b (acc ++ gap ++ new) (ps ++ [byte_len (acc ++ gap)]) Hm Ho Hb') as (cuts & rest & ps' & -> & -> & Hcuts & Hps' & Hl & Hl').
    { apply Forall_app. split; [by apply stands_at_grow|]. constructor; [|done]. rewrite app_assoc. apply stands_at_here. }
    exists ((gap, seg) :: cuts), rest, ps'. cbn [cut_text put_text]. rewrite <- !app_assoc in *.
    split; [done|]. split; [done|]. split; [by constructor|]. split; [done|]. rewrite length_app in Hl'. simpl in *. split; lia.
Qed.

Lemma replace_normalized_spec text np new ms :
  Forall (looks_like text np) ms → overlapping ms = false →
  ∃ cuts rest ps,
    replace_normalized_matches text ms new = Some (put_text cuts new rest, ps) ∧
    text = cut_text cuts rest ∧ Forall (λ c, normalize_confusables c.2 = np) cuts ∧
    Forall (stands_at new (put_text cuts new rest)) ps ∧ length cuts = length ms ∧ length ps = length ms.
Proof.
  intros Hm Ho. apply (replace_matches_at_spec np new ms [] text [] []); [done|done| |constructor].
  destruct ms as [|m ms]; [done|]. apply Forall_cons in Hm as [(a & seg & b & _ & H & _) _].
  cbn. rewrite H. apply byte_len_nonneg.
Qed.

(** * Line endings *)

(** A text whose lines end in LF, with CRLF instead. *)
Definition with_crlf (s : rstr) : rstr := s ≫= (λ c, if c =? 10 then CRLF else [c]).

Lemma to_crlf s : replace [10] CRLF s = with_crlf s.
Proof.
  induction s as [|c s IH]; [done|]. rewrite replace_step by done. cbn [strip_prefix].
  change (with_crlf (c :: s)) with ((if c =? 10 then CRLF else [c]) ++ with_crlf s).
  rewrite (Z.eqb_sym 10 c). destruct (c =? 10); by rewrite IH.
Qed.

Lemma no_cr_no_crlf s : 13 ∉ s → ¬ infix CRLF s.
Proof. intros Hs (a & b & ->). apply Hs. unfold CRLF. set_solver. Qed.

Lemma from_crlf s : 13 ∉ s → replace CRLF [10] (with_crlf s) = s.
Proof.
  induction s as [|c s IH]; intros Hs; [done|]. apply not_elem_of_cons in Hs as [Hc Hs].
  change (with_crlf (c :: s)) with ((if c =? 10 then CRLF else [c]) ++ with_crlf s).
  destruct (Z.eqb_spec c 10) as [->|Hn].
  - cbn [app CRLF]. rewrite replace_step by done. cbn [strip_prefix CRLF]. rewrite !Z.eqb_refl. by rewrite IH.
  - cbn [app]. rewrite replace_step by done. cbn [strip_prefix CRLF].
    rewrite (proj2 (Z.eqb_neq 13 c)) by congruence. by rewrite IH.
Qed.

(** A text without CR is cut at CRLFs nowhere. *)
Lemma with_crlf_has s : 10 ∈ s → infix CRLF (with_crlf s).
Proof.
  intros (a & b & ->)%list_elem_of_split. exists (with_crlf a), (with_crlf b).
  unfold with_crlf. by rewrite bind_app.
Qed.
