(* ===== verification/SearchReplaceRun.v ===== *)
(** What a run of the search-and-replace tool does to the disk, whatever fails:
    the edit that was asked for, told once, or nothing. *)
From S2P Require Import Prelude Str Utf8 Path Truncate TextOffsets ToolDisk Confusables AccessTarget SearchReplace SearchReplaceThms.

#[local] Arguments lit : simpl never.

(** * What an edit is *)

(** The text that the old string is looked for in, and the text that is written:
    a file with one CRLF is edited with LF and written with CRLF. *)
Definition has_crlf (old_text : rstr) : bool := contains_str CRLF old_text.
Definition matched_text (old_text : rstr) : rstr := if has_crlf old_text then replace CRLF [10] old_text else old_text.
Definition written_text (old_text new_text : rstr) : rstr :=
  if has_crlf old_text then replace [10] CRLF (replace CRLF [10] new_text) else new_text.

Section Edit.
Context `{!SearchEnv}.

Definition fallback : bool := is_some_and unicode_normalized_fallback sr_params.
Definition does_not_override : bool := is_some_and empty_old_string_does_not_override sr_params.

(** One place, or all of them when all are asked for. *)
Definition one_or_all (input : SearchReplaceInput) (n : nat) : Prop := n = 1%nat ∨ (1 < n)%nat ∧ replace_all input = true.

(** The texts that an edit of [text] may give, exactly and up to typography. *)
Inductive edited (input : SearchReplaceInput) (text : rstr) : bool → rstr → Prop :=
| edited_exactly n :
    let old := in_old_string input in
    text = join old (pieces old text) → length (pieces old text) = S n → one_or_all input n →
    edited input text false (join (in_new_string input) (pieces old text))
| edited_alike cuts rest :
    fallback = true → ¬ infix (in_old_string input) text → text = cut_text cuts rest →
    Forall (λ c, normalize_confusables c.2 = normalize_confusables (in_old_string input)) cuts →
    one_or_all input (length cuts) →
    edited input text true (put_text cuts (in_new_string input) rest).

End Edit.

(** * The stages of an edit *)

Section Stages.
Context `{!System, !SearchEnv, !Homes}.

(** Any answer but that an edit was made. *)
Definition refuses (o : SearchReplaceOutput) : Prop := match o with SrEditsApplied _ => False | _ => True end.

(** A stage that leaves the disk alone and does not panic. *)
Definition stage {A} (Q : A → Prop) (m : St Disk (Result A)) : Prop :=
  ∀ d, match m d with (inl a, d') => d' = d ∧ Q a | (inr (Some _), d') => d' = d | (inr None, _) => False end.

Lemma stage_ret {A} (Q : A → Prop) a : Q a → stage Q (mret (inl a)).
Proof. by intros HQ d. Qed.

Lemma stage_bind {A B} (P : A → Prop) (Q : B → Prop) m (k : A → St Disk (Result B)) :
  stage P m → (∀ a, P a → stage Q (k a)) → stage Q (a ←? m; k a).
Proof.
  intros Hm Hk d. unfold try_bind. specialize (Hm d). destruct (m d) as [[a|[e|]] d']; [|done|done].
  destruct Hm as [-> Ha]. apply (Hk a Ha d).
Qed.

Lemma stage_rendered template : stage (λ _, True) (rendered template).
Proof. intros d. unfold rendered. by destruct (render template). Qed.

Lemma stage_or_panic {A} (Q : A → Prop) o a : o = Some a → Q a → stage Q (or_panic o).
Proof. by intros -> HQ d. Qed.

Lemma stage_weaken {A} (P Q : A → Prop) m : stage P m → (∀ a, P a → Q a) → stage Q m.
Proof. intros Hm HPQ d. specialize (Hm d). destruct (m d) as [[a|[e|]] d']; [|done|done]. split; [by destruct Hm|]. apply HPQ. by destruct Hm. Qed.

(** ** Finding *)

Definition found_spec (input : SearchReplaceInput) (text : rstr) (f : (list Z * bool) + SearchReplaceOutput) : Prop :=
  match f with
  | inr answer => refuses answer
  | inl (ps, false) => ps = match_indices (in_old_string input) text
  | inl (ps, true) =>
      fallback = true ∧ match_indices (in_old_string input) text = [] ∧
      ∃ ms, find_normalized_match_positions text (in_old_string input) = Some (Matches ms) ∧ length ps = length ms ∧ ps ≠ []
  end.

Lemma find_positions_stage input text : stage (found_spec input text) (find_positions input text).
Proof.
  unfold find_positions. destruct (match_indices (in_old_string input) text) as [|p ps] eqn:Hp.
  2: { apply stage_ret. cbn. by rewrite Hp. }
  destruct (is_some_and unicode_normalized_fallback sr_params) eqn:Hf; [|apply stage_ret; cbn; by rewrite Hp].
  destruct (find_normalized_spec text (in_old_string input)) as (r & Hr & Hms).
  eapply (stage_bind (λ r', r' = r)); [by apply (stage_or_panic _ _ r)|]. intros _ ->.
  destruct r as [|ms|]; [apply stage_ret; cbn; by rewrite Hp| |].
  - destruct (Hms ms eq_refl) as (Hne & _). destruct ((1 <? length ms)%nat && negb (replace_all input)).
    + eapply stage_bind; [apply stage_rendered|]. intros. by apply stage_ret.
    + apply stage_ret. cbn. split; [done|]. split; [done|]. exists ms. rewrite length_fmap. split; [done|]. split; [done|].
      by destruct ms.
  - eapply stage_bind; [apply stage_rendered|]. intros. by apply stage_ret.
Qed.

(** ** Hints *)

Lemma build_confusable_hint_total file old tools r o e : ∃ h, build_confusable_hint file old tools r o e = Some h.
Proof.
  unfold build_confusable_hint, build_offset_map. case_match; [by eexists|].
  destruct (split_at_first _ _) as [[x y]|] eqn:Hs; [|by eexists]. apply split_at_first_spec in Hs.
  destruct (offset_at_spec file x _ Hs) as (a & b & Hab & ->). cbn [mbind option_bind].
  rewrite <- byte_len_app. rewrite app_assoc in Hs.
  destruct (offset_at_spec file _ y Hs) as (a' & b' & Hab' & ->). cbn [mbind option_bind].
  assert (byte_to (byte_len a) file = Some a) as -> by (rewrite Hab; apply byte_to_app).
  assert (byte_to (byte_len a') file = Some a') as -> by (rewrite Hab'; apply byte_to_app).
  cbn [mbind option_bind]. case_match; by eexists.
Qed.

Lemma no_match_answer_stage input path text is_legacy hint : stage refuses (no_match_answer input path text is_legacy hint).
Proof.
  unfold no_match_answer. repeat (eapply stage_bind; [apply stage_rendered|]; intros).
  eapply (stage_bind (λ _, True)); [|intros; by apply stage_ret].
  destruct is_legacy; [by apply stage_ret|]. destruct (build_confusable_hint_total text (in_old_string input) edit_tools a a0 a1) as [h Hh].
  eapply (stage_bind (λ _, True)); [by apply (stage_or_panic _ _ h)|]. intros. by apply stage_ret.
Qed.

(** ** Replacing *)

Lemma no_match_indices p s : match_indices p s = [] → p ≠ [] → ¬ infix p s.
Proof.
  unfold match_indices. intros Hmi Hp. apply split_at_first_none. destruct s as [|c s]; [by destruct p|].
  cbn [length match_indices_from] in Hmi. by destruct (split_at_first p (c :: s)) as [[]|].
Qed.

Lemma replaced_text_spec input path text ps normalized :
  in_old_string input ≠ [] → ps ≠ [] → found_spec input text (inl (ps, normalized)) →
  ((1 <? length ps)%nat && negb (replace_all input)) = false →
  ∃ new nps, replaced_text input path text ps normalized = Some (inl (new, nps)) ∧ edited input text normalized new ∧
    Forall (stands_at (in_new_string input) new) nps ∧ length nps = length ps.
Proof.
  intros Hold Hne Hf Hone.
  assert (one_or_all input (length ps)) as Hn.
  { destruct (Nat.ltb_spec 1 (length ps)); [right; by destruct (replace_all input)|]. left. destruct ps; [done|]. simpl in *. lia. }
  unfold replaced_text. destruct normalized; cbn [found_spec] in Hf.
  - destruct Hf as (Hfb & Hno & ms & Hms & Hl & _). rewrite Hms. cbn [mbind option_bind].
    destruct (find_normalized_spec text (in_old_string input)) as (r & Hr & Hspec). rewrite Hms in Hr.
    destruct (Hspec ms ltac:(congruence)) as (_ & Hlook & Ho).
    destruct (replace_normalized_spec text _ (in_new_string input) ms Hlook Ho) as (cuts & rest & nps & -> & Ht & Hc & Hs & Hlc & Hlp).
    exists (put_text cuts (in_new_string input) rest), nps. split; [done|]. split; [|split; [done|congruence]].
    apply edited_alike; [done| |done|done|by rewrite Hlc, <- Hl]. by apply no_match_indices.
  - subst ps. destruct (replace_using_positions_spec text (in_old_string input) (in_new_string input)) as (nps & -> & Hs & Hl).
    exists (replace (in_old_string input) (in_new_string input) text), nps. split; [done|]. split; [|done].
    unfold replace. rewrite pieces_from_replace. eapply edited_exactly; [symmetry; apply pieces_from_join| |exact Hn].
    apply pieces_from_count.
Qed.
End Stages.

(** * The runs *)

Section Runs.
Context `{!System, !SearchEnv, !Homes}.

(** An edit that was made, as [Made] tells it; otherwise no panic, no
    notification, and only a failing write touches the file. *)
Definition run_spec (Made : SearchReplaceEditsApplied → Disk → Prop) (path : rstr) (d : Disk)
    (out : Result SearchReplaceOutput * Disk) : Prop :=
  match out with
  | (inl (SrEditsApplied ap), d') => Made ap d'
  | (inr None, _) => False
  | (_, d') => same_but [locate path] (files d) (files d') ∧ written d' = written d ∧ (reliable → files d' = files d)
  end.

Lemma run_refuses Made path d o : refuses o → run_spec Made path d (inl o, d).
Proof. by destruct o. Qed.

Lemma run_stage {A} (Q : A → Prop) Made path d d0 (m : St Disk (Result A)) k :
  stage Q m → files d0 = files d → written d0 = written d →
  (∀ a, Q a → run_spec Made path d (k a d0)) → run_spec Made path d ((a ←? m; k a) d0).
Proof.
  intros Hm Hf Hw Hk. unfold try_bind. specialize (Hm d0). destruct (m d0) as [[a|[e|]] d1]; [|subst; cbn; by rewrite Hf|done].
  destruct Hm as [-> Ha]. by apply Hk.
Qed.

Lemma run_of_stage Made path d d0 m :
  stage refuses m → files d0 = files d → written d0 = written d → run_spec Made path d (m d0).
Proof.
  intros Hm Hf Hw. specialize (Hm d0). destruct (m d0) as [[o|[e|]] d1]; [|subst; cbn; by rewrite Hf|done].
  destruct Hm as [-> Ho]. destruct o; cbn; by rewrite ?Hf.
Qed.

(** What a failing write leaves. *)
Lemma run_write_failed Made path data d d0 o e d1 :
  refuses o → files d0 = files d → written d0 = written d → fs_write_file path data d0 = (inr e, d1) → run_spec Made path d (inl o, d1).
Proof.
  intros Ho Hf Hw Hwr. pose proof (fs_write_file_spec path data d0) as Hs. rewrite Hwr, Hf, Hw in Hs. destruct Hs as [Hs Hs'].
  assert (reliable → files d1 = files d) as Hr.
  { intros Hr. unfold fs_write_file in Hwr. by rewrite Hr in Hwr. }
  by destruct o.
Qed.

Lemma creation_failure_refuses input path e : refuses (creation_failure input path e).
Proof. unfold creation_failure. by destruct (io_error_kind e) as [[]|]. Qed.

Lemma write_failure_refuses input e : refuses (write_failure input e).
Proof. unfold write_failure. by destruct (io_error_kind e) as [[]|]. Qed.

(** The edit of a file that is there. *)
Definition replaced (input : SearchReplaceInput) (id path : rstr) (d : Disk) (ap : SearchReplaceEditsApplied) (d' : Disk) : Prop :=
  ∃ bytes new_text,
    let old_text := from_utf8_lossy bytes in
    files d !! locate path = Some bytes ∧
    edited input (matched_text old_text) (unicode_normalized ap) new_text ∧
    files d' = <[locate path := as_bytes (written_text old_text new_text)]> (files d) ∧
    written d' = written d ++ [mkWritten id path (written_text old_text new_text) (Some old_text) false] ∧
    ap_absolute_path ap = path ∧
    one_or_all input (length (ap_details ap)).

Lemma fs_read_file_spec path d :
  match fs_read_file path d with
  | (inl bytes, d') => unchanged d d' ∧ files d !! locate path = Some bytes
  | (inr _, d') => unchanged d d'
  end.
Proof. unfold fs_read_file. destruct (fails _ _); [done|]. by destruct (files d !! locate path). Qed.

Lemma handle_replacement_spec input id path is_legacy hint d :
  in_old_string input ≠ [] →
  run_spec (replaced input id path d) path d (handle_replacement input id path is_legacy hint d).
Proof.
  intros Hold. unfold handle_replacement, mbind at 1, St_bind at 1. pose proof (fs_read_file_spec path d) as Hr.
  destruct (fs_read_file path d) as [[bytes|e] d0].
  2: { destruct Hr as [Hf Hw]. cbn. unfold read_failure. destruct (io_error_kind e) as [[]|]; cbn; by rewrite Hf. }
  destruct Hr as [[Hf Hw] Hb]. cbv zeta. fold (has_crlf (from_utf8_lossy bytes)). fold (matched_text (from_utf8_lossy bytes)).
  set (old_text := from_utf8_lossy bytes) in *. set (text := matched_text old_text).
  eapply run_stage; [apply find_positions_stage|done|done|]. intros [[ps normalized]|answer] Hfound.
  2: { eapply (run_of_stage _ _ _ _ (mret (inl answer))); [by apply stage_ret|done|done]. }
  destruct ps as [|p ps]; [by eapply run_of_stage; [apply no_match_answer_stage| |]|].
  destruct ((1 <? length (p :: ps))%nat && negb (replace_all input)) eqn:Hone.
  { eapply run_stage; [apply stage_rendered|done|done|]. intros a _. cbn. by rewrite Hf. }
  destruct (replaced_text_spec input path text (p :: ps) normalized Hold ltac:(done) Hfound Hone) as (new & nps & Hnew & He & Hs & Hl).
  eapply (run_stage (λ r, r = inl (new, nps))); [by eapply stage_or_panic|done|done|]. intros _ ->.
  fold (written_text old_text new). unfold mbind at 1, St_bind at 1.
  destruct (fs_write_file path (as_bytes (written_text old_text new)) d0) as [[u|e] d1] eqn:Hwr.
  2: { apply (run_write_failed _ path _ d d0 _ e d1 (write_failure_refuses input e) Hf Hw Hwr). }
  pose proof (fs_write_file_spec path (as_bytes (written_text old_text new)) d0) as Hws. rewrite Hwr, Hf, Hw in Hws. destruct Hws as [Hf1 Hw1].
  destruct (build_edit_details_total new (in_old_string input) (in_new_string input) nps Hs) as (ds & Hds & Hld).
  unfold mbind, St_bind, send_file_written, st_modify, try_bind, or_panic, mret, St_ret. rewrite Hds.
  set (said := if (length nps =? 1)%nat then _ else _). destruct said as [message concise]. cbn.
  exists bytes, new. split; [done|]. split; [done|]. split; [done|]. split; [by rewrite Hw1|]. split; [done|].
  cbn [ap_details]. rewrite Hld, Hl. destruct (Nat.ltb_spec 1 (length (p :: ps))); [right; by destruct (replace_all input)|]. left. simpl in *. lia.
Qed.

(** The file that an empty old string makes. *)
Definition created (input : SearchReplaceInput) (id path : rstr) (d : Disk) (ap : SearchReplaceEditsApplied) (d' : Disk) : Prop :=
  files d' = <[locate path := as_bytes (in_new_string input)]> (files d) ∧
  (reliable → does_not_override = true → default [] (files d !! locate path) = []) ∧
  ∃ previous is_new,
    written d' = written d ++ [mkWritten id path (in_new_string input) previous is_new] ∧
    match previous with
    | None => is_new = true ∧ (reliable → default [] (files d !! locate path) = [])
    | Some old => is_new = false ∧ ∃ bytes, files d !! locate path = Some bytes ∧ bytes ≠ [] ∧ old = from_utf8_lossy bytes
    end.

Lemma handle_new_file_creation_spec input id path d :
  run_spec (created input id path d) path d (handle_new_file_creation input id path does_not_override d).
Proof.
  unfold handle_new_file_creation, mbind at 1, St_bind at 1. pose proof (fs_read_file_spec path d) as Hr1.
  assert (reliable → default [] (files d !! locate path) ≠ [] → ∃ bytes, (fs_read_file path d).1 = inl bytes ∧ bytes ≠ []) as Hrel.
  { intros Hrel. unfold fs_read_file. rewrite Hrel. cbn. destruct (files d !! locate path); [by eexists|done]. }
  destruct (fs_read_file path d) as [first_read d0]. set (exists' := match first_read with inl _ => _ | inr _ => _ end).
  assert (unchanged d d0 ∧ (exists' = true → ∃ bytes, files d !! locate path = Some bytes ∧ bytes ≠ [])) as [[Hf Hw] Hex].
  { destruct first_read as [bytes|e]; [|done]. destruct Hr1 as [Hu Hb]. split; [done|]. subst exists'. intros He.
    exists bytes. split; [done|]. by case_bool_decide. }
  assert (reliable → exists' = false → default [] (files d !! locate path) = []) as Hno.
  { intros Hr He. destruct (decide (default [] (files d !! locate path) = [])) as [|Hd]; [done|].
    destruct (Hrel Hr Hd) as (bytes & Heq & Hb). cbn in Heq. subst first_read exists'. by case_bool_decide. }
  unfold mbind at 1, St_bind at 1. pose proof (fs_read_file_spec path d0) as Hr2.
  assert (reliable → ∀ bytes, files d !! locate path = Some bytes → (fs_read_file path d0).1 = inl bytes) as Hread2.
  { intros Hrl bytes Hb. unfold fs_read_file. rewrite Hrl, Hf. cbn. by rewrite Hb. }
  destruct (fs_read_file path d0) as [second_read d1]. cbn [fst] in Hread2. set (old_text := match second_read with inl _ => _ | inr _ => _ end). cbv zeta.
  assert (files d1 = files d ∧ written d1 = written d ∧ ∀ old, old_text = Some old →
    ∃ bytes, files d !! locate path = Some bytes ∧ old = from_utf8_lossy bytes) as (Hf1 & Hw1 & Hold).
  { destruct second_read as [bytes|e]; [destruct Hr2 as [[-> ->] Hb]|destruct Hr2 as [-> ->]]; rewrite ?Hf in *; (split; [done|]; split; [done|]).
    - intros ? [= <-]. by exists bytes.
    - done. }
  assert (old_text = None → reliable → default [] (files d !! locate path) = []) as Hnone.
  { intros Hn Hr. destruct (files d !! locate path) as [bytes|] eqn:Hb; [|done]. exfalso.
    specialize (Hread2 Hr bytes eq_refl). by subst second_read old_text. }
  clearbody exists' old_text. destruct (exists' && does_not_override) eqn:Hguard.
  { eapply run_stage; [apply stage_rendered|done|done|]. intros a _. cbn. by rewrite Hf1. }
  unfold mbind at 1, St_bind at 1. destruct (fs_write_file path (as_bytes (in_new_string input)) d1) as [[u|e] d2] eqn:Hwr.
  2: { apply (run_write_failed _ path _ d d1 _ e d2 (creation_failure_refuses input path e) Hf1 Hw1 Hwr). }
  pose proof (fs_write_file_spec path (as_bytes (in_new_string input)) d1) as Hws. rewrite Hwr, Hf1, Hw1 in Hws. destruct Hws as [Hf2 Hw2].
  unfold send_file_written, st_modify, mbind, St_bind, mret, St_ret.
  assert (reliable → does_not_override = true → default [] (files d !! locate path) = []) as Hov.
  { intros Hr Hd. apply Hno; [done|]. rewrite Hd in Hguard. by destruct exists'. }
  destruct old_text as [old|]; [destruct (exists' && negb does_not_override) eqn:Hprev|]; cbn;
    (split; [done|]; split; [done|]; do 2 eexists; split; [by rewrite Hw2|]).
  2: { split; [done|]. intros Hr. destruct exists'; [|by apply Hno]. apply Hov; [done|]. by destruct does_not_override. }
  2: { split; [done|]. by apply Hnone. }
  split; [done|]. destruct (Hold old eq_refl) as (bytes & Hb & ->). exists bytes. split; [done|]. split; [|done].
  destruct (Hex ltac:(by destruct exists')) as (bytes' & Hb' & Hne). congruence.
Qed.

Lemma run_search_replace_spec input id is_legacy d :
  let path := edited_path input in
  run_spec (if is_empty (in_old_string input) then created input id path d else replaced input id path d) path d
    (run_search_replace input id is_legacy d).
Proof.
  cbv zeta. unfold run_search_replace, mret, St_ret. cbv zeta.
  destruct (validate_path_length (in_file_path input)) as [err|] eqn:Hv.
  { apply run_refuses. unfold validate_path_length in Hv. destruct (head _); [|done]. by simplify_eq/=. }
  repeat (match goal with |- run_spec _ _ _ ((if ?b then λ s, (inl (SrInvalidInput _), s) else _) _) => destruct b; [by apply run_refuses|] end).
  destruct (is_empty (in_old_string input)) eqn:He; [apply handle_new_file_creation_spec|].
  apply handle_replacement_spec. by destruct (in_old_string input).
Qed.
End Runs.

(** * What holds of a run *)




Section Properties.
Context `{!System, !SearchEnv, !Homes}.




Lemma downgrade_stage o file_path :
  stage (λ o', match o with SrEditsApplied _ => o' = o | _ => refuses o' end) (downgrade_structured_errors o file_path).
Proof.
  unfold downgrade_structured_errors, build_render_context.
  apply (stage_bind (λ _, True)); [|intros ctx _; apply stage_ret; by destruct o].
  do 3 (apply (stage_bind (λ _, True)); [apply stage_rendered|intros ? _]). by apply stage_ret.
Qed.

(** What an answer of the tool that tells of edits says of the disk. *)
Definition made (input : SearchReplaceInput) (id : rstr) (d : Disk) (ap : SearchReplaceEditsApplied) (d' : Disk) : Prop :=
  if is_empty (in_old_string input) then created input id (edited_path input) d ap d' else replaced input id (edited_path input) d ap d'.

(** C23: A run of the search-and-replace tool never panics, whatever the file
    holds and whatever calls of the system fail.  When it answers that edits were applied, the file it resolved to
    holds what was asked for, every other file is as before, and one notification
    tells the text written and the text that was read before it: with an empty old
    string the new string, in a file that is told to be new unless something was
    read from it; otherwise the text of the file, cut at every place where the old
    string stands (one place, unless all are asked for), with the new string in
    those places; or, where it stands nowhere and the fallback is on, cut at
    regions that normalize to what the old string normalizes to.  A file with CRLF
    is written with CRLF.  On any other answer nothing is told, other files are as
    before, and the file is too unless a write failed; but under version 0.4.10 an
    error may also come behind an edit that was made and told: the names of tools for
    its wording are looked up last. *)
Theorem search_replace_spec input id is_legacy d :
  match search_replace input id is_legacy d with
  | (inl (SrEditsApplied ap), d') => made input id d ap d'
  | (inr None, _) => False
  | (answer, d') =>
      same_but [locate (edited_path input)] (files d) (files d') ∧ written d' = written d ∧ (reliable → files d' = files d)
      ∨ is_legacy = true ∧ (∃ e, answer = inr (Some e)) ∧ ∃ ap, made input id d ap d'
  end.
Proof.
  pose proof (run_search_replace_spec input id is_legacy d) as Hr. cbv zeta in *. unfold run_spec in Hr.
  unfold search_replace, try_bind. destruct (run_search_replace input id is_legacy d) as [[o|[e|]] d1]; [|by left|done].
  assert (match o with SrEditsApplied ap => made input id d ap d1 | _ =>
    same_but [locate (edited_path input)] (files d) (files d1) ∧ written d1 = written d ∧ (reliable → files d1 = files d) end) as Ho.
  { destruct o; try exact Hr. unfold made. by destruct (is_empty (in_old_string input)). }
  clear Hr. destruct is_legacy; [|by destruct o; [left| |left..]].
  pose proof (downgrade_stage o (in_file_path input) d1) as Hd.
  destruct (downgrade_structured_errors o _ d1) as [[o'|[e|]] d2]; [destruct Hd as [-> Ho']|subst d2|done].
  - destruct o; [by destruct o'; [left| |left..]|by subst o'|by destruct o'; [left| |left..]..].
  - destruct o; try (by left). right. split; [done|]. split; [by exists e|by eexists].
Qed.

End Properties.

(** * On a small disk *)

#[local] Instance demo_system : System := {| locate p := p; fails _ _ := None; missing _ := lit "not found" |}.
#[local] Instance demo_homes : Homes := {| user_intellihelper_home := None; tilde := id |}.
#[local] Instance demo_env : SearchEnv := {|
  sr_cwd := lit "/w";
  sr_display_cwd := None;
  hints_enabled := false;
  path_hint _ := [];
  render t := inl t;
  sr_params := Some (mkSearchParams true true true);
  try_canonicalize p := inl p;
  try_resolve_unicode_filename _ := None;
  is_dir _ := false;
  respect_gitignore := None;
  gitignore_filter := None;
  edit_tools := [];
|}.

Definition disk_of (bytes : list Z) : Disk := mkDisk {[ lit "/w/a" := bytes ]} [] [].
Definition swap (old new : rstr) : SearchReplaceInput := mkSearchInput (lit "a") old new false.
(** What the file holds after a run. *)
Definition held (input : SearchReplaceInput) (bytes : list Z) : option (list Z) :=
  files (search_replace input (lit "id") false (disk_of bytes)).2 !! lit "/w/a".

Definition two_lines : rstr := lit "one" ++ [10] ++ lit "two" ++ [10].



(** A region that only looks like the old string is found through the map and
    replaced whole: "a" and an em dash for "a--". *)
Example looks_alike :
  held (swap (lit "a--b") (lit "c")) (as_bytes ([97; 8212; 98; 10])) = Some (as_bytes (lit "c" ++ [10])).
Proof. vm_compute. reflexivity. Qed.

(** ... and not when the pattern ends inside the dash. *)
Example half_a_dash : held (swap (lit "a-") (lit "c")) (as_bytes ([97; 8212; 98; 10])) = Some (as_bytes [97; 8212; 98; 10]).
Proof. vm_compute. reflexivity. Qed.

(** Bytes far from the edit that are no UTF-8 are lost. *)
Example stray_byte_rewritten :
  held (swap (lit "two") (lit "2")) ([255; 10] ++ as_bytes two_lines) =
    Some ([239; 191; 189; 10] ++ as_bytes (lit "one" ++ [10] ++ lit "2" ++ [10])).
Proof. vm_compute. reflexivity. Qed.

Definition details_of (out : Result SearchReplaceOutput * Disk) : list SearchReplaceEditDetail :=
  match out.1 with inl (SrEditsApplied ap) => ap_details ap | _ => [] end.

(** The old line of an edit is its line in the new text: the second edit is at
    line 2 of the file, and told to be at line 3. *)
Example old_line_is_new :
  old_line_number <$> details_of (search_replace (mkSearchInput (lit "a") (lit "x") (lit "y" ++ [10] ++ lit "y") true) (lit "id") false
                             (disk_of (as_bytes (lit "x" ++ [10] ++ lit "x" ++ [10])))) = [1; 3]%nat.
Proof. vm_compute. reflexivity. Qed.

(** The old string of an edit is what was asked for, not what stood there. *)
Example old_string_not_matched_text :
  ed_old_string <$> details_of (search_replace (swap (lit "a--b") (lit "c")) (lit "id") false (disk_of (as_bytes [97; 8212; 98]))) = [lit "a--b"].
Proof. vm_compute. reflexivity. Qed.

Section Legacy.
(** A toolset without a tool that reads. *)
Definition no_read_tool : SearchEnv := {|
  sr_cwd := lit "/w";
  sr_display_cwd := None;
  hints_enabled := false;
  path_hint _ := [];
  render t := if contains_str (lit "by_kind.read") t then inr (lit "no tool of this kind") else inl t;
  sr_params := None;
  try_canonicalize p := inl p;
  try_resolve_unicode_filename _ := None;
  is_dir _ := false;
  respect_gitignore := None;
  gitignore_filter := None;
  edit_tools := [];
|}.

(** Version 0.4.10 renders its context after the run: the file is written, and
    the answer is an error. *)
Example written_and_refused :
  let r := @search_replace _ no_read_tool _ (swap (lit "two") (lit "2")) (lit "id") true (disk_of (as_bytes two_lines)) in
  r.1 = inr (Some (lit "no tool of this kind")) ∧ files r.2 !! lit "/w/a" = Some (as_bytes (lit "one" ++ [10] ++ lit "2" ++ [10])).
Proof. vm_compute. split; reflexivity. Qed.
End Legacy.
