(* ===== verification/WorkflowJournal.v ===== *)
(** The journal of a workflow run
    (src/crates/codegen/workflow/src/journal.rs): one line of JSON for every
    answer that the host gave, read back when the run is resumed.

    serde_json is a parameter ([Json]): how an entry is printed and read, what a
    number is.  The disk is the one file of the journal; how a call of the system
    fails, and how much of a write it leaves, is a parameter ([Storage]). *)
From stdpp Require Import sorting.
From S2P Require Import Prelude Str Utf8.

Definition MAX_JOURNAL_BYTES : Z := 64 * 1024 * 1024.
Definition MAX_HOST_CALLS : Z := 10000.
Definition MAX_JOURNAL_ENTRIES : Z := MAX_HOST_CALLS.
Definition HOST_ERROR_KEY : rstr := lit "__workflow_host_error".

(** [serde_json::Value]; an object is its entries in the order of iteration. *)
Inductive Value {Number : Type} : Type :=
| VNull
| VBool (b : bool)
| VNumber (n : Number)
| VString (s : rstr)
| VArray (items : list Value)
| VObject (entries : list (rstr * Value)).
Arguments Value : clear implicits.

Section Values.
Context {Number : Type}.

(** [value.get(key)] and [value.as_str()]. *)
Definition value_get (key : rstr) (v : Value Number) : option (Value Number) :=
  match v with VObject entries => snd <$> List.find (λ e, bool_decide (e.1 = key)) entries | _ => None end.
Definition as_str (v : Value Number) : option rstr := match v with VString s => Some s | _ => None end.

Record JournalEntry : Type := mkEntry {
  je_seq : Z;
  je_kind : rstr;
  je_req_hash : rstr;
  je_result : Value Number;
  je_at_ms : Z;
}.
End Values.
Arguments JournalEntry : clear implicits.

(** [to_string] and [to_vec] of serde_json, [from_slice], the text of their
    errors, and SHA-256. *)
Class Json : Type := {
  Number : Type;
  entry_line : JournalEntry Number → list Z + rstr;
  read_entry : list Z → JournalEntry Number + rstr;
  value_text : Value Number → rstr;
  sha256 : list Z → list Z;
}.

Inductive JournalError : Type :=
| JIo (text : rstr)
| JParse (line : Z) (error : rstr)
| JUnsafeRestore (limit : Z) (reason : rstr)
| JFull (seq limit : Z)
| JSequence (index expected actual : Z)
| JDivergence (seq : Z) (kind : rstr).

Definition journal_error_text (e : JournalError) : rstr :=
  match e with
  | JIo text => lit "journal io: " ++ text
  | JParse line error => lit "journal parse at line " ++ fmt_dec line ++ lit ": " ++ error
  | JUnsafeRestore limit reason => lit "journal restore rejected (limit " ++ fmt_dec limit ++ lit "): " ++ reason
  | JFull seq limit =>
      lit "journal full: appending seq " ++ fmt_dec seq ++ lit " would exceed the " ++ fmt_dec limit
      ++ lit "-byte cap that restore enforces, which would strand the run unresumable"
  | JSequence index expected actual =>
      lit "journal is not dense at entry " ++ fmt_dec index ++ lit ": expected sequence " ++ fmt_dec expected
      ++ lit ", found " ++ fmt_dec actual
  | JDivergence seq kind =>
      lit "replay divergence at seq " ++ fmt_dec seq ++ lit " (" ++ kind
      ++ lit "): the script issued a different call than the recorded run " ++ [8212]
      ++ lit " the workflow script is nondeterministic or was edited mid-run"
  end.

(** * The file *)

Inductive IoCall : Type := IoRead | IoAppend (data : list Z) | IoTerminate | IoSetLen (len : Z).

(** A failing call: its text, and how many bytes of an append, or whether the new
    length, reached the file. *)
Record IoFault : Type := mkIoFault { io_text : rstr; io_kept : nat; io_cut : bool }.

Record Store : Type := mkStore { file : option (list Z); io_log : list IoCall }.
#[global] Instance Store_eta : Eta Store := λ s, mkStore (file s) (io_log s).

(** [regular]: no link and no directory stands where the journal is. *)
Class Storage : Type := {
  io_fails : list IoCall → IoCall → option IoFault;
  regular : bool;
  no_file : rstr;
}.

Inductive ReadError : Type := ReadNotFound | ReadInvalidData (text : rstr) | ReadOther (text : rstr).

Open Scope record_scope.

Section Journal.
Context `{!Json, !Storage}.

Notation Value := (Value Number).
Notation JournalEntry := (JournalEntry Number).

Definition log_io (c : IoCall) (s : Store) : Store := s <| io_log := io_log s ++ [c] |>.

(** [read_journal_bounded]; what it checks before and behind [open] is one check
    here. *)
Definition read_journal_bounded (path : rstr) : St Store (list Z + ReadError) := λ s,
  (match io_fails (io_log s) IoRead with
   | Some f => inr (ReadOther (io_text f))
   | None =>
       match file s with
       | None => inr ReadNotFound
       | Some content =>
           if negb regular then inr (ReadInvalidData (lit "journal is not a regular file: " ++ path))
           else if MAX_JOURNAL_BYTES <? zlen content
           then inr (ReadInvalidData (lit "journal exceeds " ++ fmt_dec MAX_JOURNAL_BYTES ++ lit " bytes"))
           else inl content
       end
   end, log_io IoRead s).

(** [set_len]: cut, or filled with zeros. *)
Definition with_len (len : Z) (content : list Z) : list Z :=
  take (Z.to_nat len) content ++ replicate (Z.to_nat len - length content) 0.

Definition truncate_tail (len : Z) : St Store (unit + rstr) := λ s,
  let c := IoSetLen len in
  match file s with
  | None => (inr no_file, log_io c s)
  | Some content =>
      match io_fails (io_log s) c with
      | Some f => (inr (io_text f), log_io c (if io_cut f then s <| file := Some (with_len len content) |> else s))
      | None => (inl tt, log_io c (s <| file := Some (with_len len content) |>))
      end
  end.

Definition terminate_line : St Store (unit + rstr) := λ s,
  match file s with
  | None => (inr no_file, log_io IoTerminate s)
  | Some content =>
      match io_fails (io_log s) IoTerminate with
      | Some f => (inr (io_text f), log_io IoTerminate (s <| file := Some (content ++ take (io_kept f) [10]) |>))
      | None => (inl tt, log_io IoTerminate (s <| file := Some (content ++ [10]) |>))
      end
  end.

Definition append_line (line : list Z) : St Store (unit + rstr) := λ s,
  let c := IoAppend line in
  let content := default [] (file s) in
  match io_fails (io_log s) c with
  | Some f =>
      (inr (io_text f),
       log_io c (if (0 <? io_kept f)%nat then s <| file := Some (content ++ take (io_kept f) line) |> else s))
  | None => (inl tt, log_io c (s <| file := Some (content ++ line) |>))
  end.

(** * The journal *)

Record Journal : Type := mkJournal {
  entries : list JournalEntry;
  path : option rstr;
  bytes : Z;
  last_line_start : option Z;
}.
#[global] Instance Journal_eta : Eta Journal := λ j, mkJournal (entries j) (path j) (bytes j) (last_line_start j).

Definition journal_new (path : option rstr) : Journal := mkJournal [] path 0 None.

Definition validate_sequence (entries : list JournalEntry) (entry : JournalEntry) : unit + JournalError :=
  let expected := zlen entries in
  if je_seq entry =? expected then inl tt else inr (JSequence expected expected (je_seq entry)).

Definition is_ascii_whitespace (b : Z) : bool := (b =? 32) || (b =? 9) || (b =? 10) || (b =? 12) || (b =? 13).
Definition blank (line : list Z) : bool := forallb is_ascii_whitespace line.

Definition map_io {A} (m : St Store (A + rstr)) : St Store (A + JournalError) :=
  r ← m; mret match r with inl a => inl a | inr text => inr (JIo text) end.

(** An entry more, unless there are too many or it is out of order. *)
Definition push_entry (es : list JournalEntry) (entry : JournalEntry) : list JournalEntry + JournalError :=
  if MAX_JOURNAL_ENTRIES <=? zlen es
  then inr (JUnsafeRestore MAX_JOURNAL_ENTRIES (lit "too many journal entries"))
  else match validate_sequence es entry with inl _ => inl (es ++ [entry]) | inr e => inr e end.

(** The loop of [load] over what is left of the file from [offset]: the entries,
    the bytes, the start of the last line.  A line takes a byte at least, so the
    length of the rest bounds the rounds. *)
Fixpoint load_lines (fuel : nat) (rest : list Z) (offset line_number : Z) (es : list JournalEntry)
    (bytes : Z) (last_start : option Z) : St Store ((list JournalEntry * Z * option Z) + JournalError) :=
  match fuel, rest with
  | O, _ | _, [] => mret (inl (es, bytes, last_start))
  | S fuel, _ =>
      let line_number := line_number + 1 in
      match split_once 10 rest with
      | None =>
          if blank rest then
            _ ←? map_io (truncate_tail offset);
            mret (inl (es, offset, last_start))
          else
            match read_entry rest with
            | inl entry =>
                match push_entry es entry with
                | inr e => mret (inr e)
                | inl es =>
                    _ ←? map_io terminate_line;
                    mret (inl (es, sat_add 64 bytes 1, Some offset))
                end
            | inr _ =>
                _ ←? map_io (truncate_tail offset);
                mret (inl (es, offset, last_start))
            end
      | Some (line, rest) =>
          let next := offset + zlen line + 1 in
          if blank line then load_lines fuel rest next line_number es bytes last_start
          else
            match read_entry line with
            | inr error => mret (inr (JParse line_number error))
            | inl entry =>
                match push_entry es entry with
                | inr e => mret (inr e)
                | inl es => load_lines fuel rest next line_number es bytes (Some offset)
                end
            end
      end
  end.

Definition journal_load (path : rstr) : St Store (Journal + JournalError) :=
  content ← read_journal_bounded path;
  match content with
  | inr (ReadInvalidData reason) => mret (inr (JUnsafeRestore MAX_JOURNAL_BYTES reason))
  | inr (ReadOther text) => mret (inr (JIo text))
  | inr ReadNotFound => mret (inl (mkJournal [] (Some path) 0 None))
  | inl content =>
      loaded ←? load_lines (length content) content 0 0 [] (zlen content) None;
      let '(es, bytes, last_start) := loaded in
      mret (inl (mkJournal es (Some path) bytes last_start))
  end.

Definition journal_len (j : Journal) : Z := zlen (entries j).
Definition agent_reservation_count (j : Journal) : Z :=
  countb (λ e, bool_decide (je_kind e = lit "spawn_agent")) (entries j).
Definition covers (j : Journal) (seq : Z) : bool := seq <? zlen (entries j).

Definition journal_get (j : Journal) (seq : Z) : option JournalEntry :=
  if seq <? 0 then None else entries j !! Z.to_nat seq.

Definition replay (j : Journal) (seq : Z) (kind req_hash : rstr) : option Value + JournalError :=
  match journal_get j seq with
  | None => inl None
  | Some entry =>
      if negb (je_seq entry =? seq) || bool_decide (je_kind entry ≠ kind) || bool_decide (je_req_hash entry ≠ req_hash)
      then inr (JDivergence seq kind)
      else inl (Some (je_result entry))
  end.

(** [now] is the clock. *)
Definition journal_record (now seq : Z) (kind req_hash : rstr) (result : Value) (j : Journal)
    : St Store ((unit + JournalError) * Journal) :=
  let entry := mkEntry seq kind req_hash result now in
  match validate_sequence (entries j) entry with
  | inr e => mret (inr e, j)
  | inl _ =>
      match entry_line entry with
      | inr text => mret (inr (JIo text), j)
      | inl line =>
          let line := line ++ [10] in
          if MAX_JOURNAL_BYTES <? sat_add 64 (bytes j) (zlen line)
          then mret (inr (JFull seq MAX_JOURNAL_BYTES), j)
          else
            written ← match path j with Some _ => map_io (append_line line) | None => mret (inl tt) end;
            match written with
            | inr e => mret (inr e, j)
            | inl _ =>
                mret (inl tt, mkJournal (entries j ++ [entry]) (path j) (sat_add 64 (bytes j) (zlen line)) (Some (bytes j)))
            end
      end
  end.

(** The message of a recorded failure of the host. *)
Definition host_error_message (v : Value) : option rstr := m ← value_get HOST_ERROR_KEY v; as_str m.

Definition prune_trailing_host_error (failure_detail : rstr) (j : Journal) : St Store ((bool + JournalError) * Journal) :=
  match m ← last (entries j); host_error_message (je_result m) with
  | None => mret (inl false, j)
  | Some message =>
      if is_empty message || negb (contains_str message failure_detail) then mret (inl false, j)
      else
        match last_line_start j with
        | None => mret (inr (JIo (lit "journal cannot locate the trailing entry's byte offset")), j)
        | Some new_len =>
            cut ← match path j with Some _ => map_io (truncate_tail new_len) | None => mret (inl tt) end;
            match cut with
            | inr e => mret (inr e, j)
            | inl _ => mret (inl true, mkJournal (removelast (entries j)) (path j) new_len None)
            end
        end
  end.

(** ** The hash of a request *)

Definition key_le (a b : rstr * Value) : Prop := str_le a.1 b.1.
#[global] Instance key_le_dec : RelDecision key_le := λ a b, decide (str_le a.1 b.1).

Fixpoint canonical_json (v : Value) : Value :=
  match v with
  | VObject entries => VObject (merge_sort key_le ((λ e, (e.1, canonical_json e.2)) <$> entries))
  | VArray items => VArray (canonical_json <$> items)
  | other => other
  end.

Definition hex_digit (n : Z) : rchar := if n <? 10 then 48 + n else 87 + n.
Definition hex_byte (b : Z) : rstr := [hex_digit (b / 16); hex_digit (b mod 16)].

Definition request_hash (kind : rstr) (payload : Value) : rstr :=
  let digest := sha256 (as_bytes kind ++ [0] ++ as_bytes (value_text (canonical_json payload))) in
  take 16 digest ≫= hex_byte.
End Journal.
