(* ===== verification/WorkflowJournalThms.v ===== *)
(** What the journal of a workflow promises: it describes its file, and what a
    crash leaves of the file, cut at any byte, is read back as the entries that
    were recorded, up to the one that was being written. *)
From stdpp Require Import sorting.
From S2P Require Import Prelude Str Utf8 WorkflowJournal.

(** What serde_json is relied on for: a line holds no line feed, begins with a
    brace, is read back as what was printed (but for numbers that lose digits),
    and is no JSON before its last byte. *)
Class JsonLaws `{!Json} : Type := {
  exact : JournalEntry Number → Prop;
  line_read e line : exact e → entry_line e = inl line → read_entry line = inl e;
  line_plain e line : entry_line e = inl line → (10 ∉ line) ∧ blank line = false;
  line_torn e line p q : entry_line e = inl line → line = p ++ q → q ≠ [] → ∃ error, read_entry p = inr error;
}.

Section Journal.
Context `{!Json, !JsonLaws, !Storage}.

Notation JournalEntry := (JournalEntry Number).

(** No call of the system fails. *)
Definition io_reliable : Prop := ∀ log c, io_fails log c = None.

(** * The file of a journal *)

(** [content] is the lines of the entries. *)
Inductive image : list JournalEntry → list Z → Prop :=
| image_nil : image [] []
| image_snoc es content e line :
    image es content → entry_line e = inl line → image (es ++ [e]) (content ++ line ++ [10]).

(** Entry [i] has the sequence number [i]. *)
Definition dense (es : list JournalEntry) : Prop := ∀ i e, es !! i = Some e → je_seq e = Z.of_nat i.

Lemma dense_snoc es e : dense es → je_seq e = zlen es → dense (es ++ [e]).
Proof.
  intros Hd He i e' Hi. destruct (decide (i < length es)%nat) as [|Hge].
  - rewrite lookup_app_l in Hi by done. by apply Hd.
  - rewrite lookup_app_r in Hi by lia. destruct (i - length es)%nat eqn:Hn; simpl in Hi; [|by rewrite lookup_nil in Hi].
    simplify_eq. rewrite He. unfold zlen. lia.
Qed.

Lemma dense_prefix es es' : dense (es ++ es') → dense es.
Proof. intros Hd i e Hi. apply Hd. by apply lookup_app_l_Some. Qed.

Lemma dense_last es e : dense (es ++ [e]) → je_seq e = zlen es.
Proof. intros Hd. apply (Hd (length es) e). by rewrite lookup_app_r, Nat.sub_diag by lia. Qed.

(** The journal in memory and the content of its file. *)
Record describes (j : Journal) (content : list Z) : Prop := {
  d_image : image (entries j) content;
  d_dense : dense (entries j);
  d_exact : Forall exact (entries j);
  d_count : zlen (entries j) ≤ MAX_JOURNAL_ENTRIES;
  d_bytes : bytes j = zlen content;
  d_small : zlen content ≤ MAX_JOURNAL_BYTES;
  d_last : ∀ start, last_line_start j = Some start →
    ∃ es e before, entries j = es ++ [e] ∧ image es before ∧ start = zlen before ∧ before `prefix_of` content;
}.

Lemma image_newline_free es content e line :
  image es content → entry_line e = inl line → split_once 10 (line ++ [10]) = Some (line, []).
Proof. intros _ Hl. apply (split_at_first_skip 10 [] line []). by apply (line_plain e line). Qed.

Lemma image_empty es : image es [] → es = [].
Proof. inversion 1 as [|es' content e line Hi Hl Hes Hc]; [done|]. exfalso. by destruct content; destruct line. Qed.

(** * Loading *)

Lemma split_no_newline t : 10 ∉ t → split_once 10 t = None.
Proof. intros Ht. apply split_at_first_none. intros (a & b & ->). apply Ht. set_solver. Qed.

Lemma push_entry_next es e : je_seq e = zlen es → zlen es < MAX_JOURNAL_ENTRIES → push_entry es e = inl (es ++ [e]).
Proof.
  intros He Hn. unfold push_entry, validate_sequence. rewrite (proj2 (Z.leb_gt _ _)) by done.
  by rewrite He, Z.eqb_refl.
Qed.

(** One line is read as its entry. *)
Lemma load_line fuel e line rest offset n es total last_start :
  entry_line e = inl line → exact e → je_seq e = zlen es → zlen es < MAX_JOURNAL_ENTRIES →
  load_lines (S fuel) (line ++ 10 :: rest) offset n es total last_start =
    load_lines fuel rest (offset + zlen line + 1) (n + 1) (es ++ [e]) total (Some offset).
Proof.
  intros Hl He Hs Hn. destruct (line_plain _ _ Hl) as [Hnl Hb]. cbn [load_lines].
  assert (split_once 10 (line ++ 10 :: rest) = Some (line, rest)) as -> by (by apply (split_at_first_skip 10 [] line rest)).
  rewrite Hb, (line_read _ _ He Hl), push_entry_next by done. by destruct line.
Qed.

(** All the lines of an image are read. *)
Lemma load_image es content : image es content → dense es → Forall exact es → zlen es ≤ MAX_JOURNAL_ENTRIES →
  ∀ fuel rest, (length content + length rest ≤ fuel)%nat →
  ∃ fuel' n last_start, (length rest ≤ fuel')%nat ∧
    (∀ total, load_lines fuel (content ++ rest) 0 0 [] total None = load_lines fuel' rest (zlen content) n es total last_start) ∧
    (∀ start, last_start = Some start → ∃ es' e before, es = es' ++ [e] ∧ image es' before ∧ start = zlen before ∧ before `prefix_of` content).
Proof.
  induction 1 as [|es content e line Hi IH Hl]; intros Hd He Hn fuel rest Hf.
  - exists fuel, 0, None. done.
  - apply Forall_app in He as [He He1]. apply Forall_cons in He1 as [He1 _]. rewrite zlen_app, zlen_cons, zlen_nil in Hn.
    rewrite !length_app in Hf. simpl in Hf.
    destruct (IH (dense_prefix _ _ Hd) He ltac:(lia) fuel (line ++ 10 :: rest)) as (fuel' & n & last_start & Hf' & Heq & _).
    { rewrite length_app. simpl. lia. }
    rewrite length_app in Hf'. simpl in Hf'. destruct fuel' as [|fuel']; [lia|].
    exists fuel', (n + 1), (Some (zlen content)). split; [lia|]. split.
    + intros total. rewrite <- app_assoc.
      rewrite <- (app_assoc line [10] rest). change ([10] ++ rest) with (10 :: rest). rewrite Heq.
      rewrite (load_line _ e) by (done || by apply dense_last || lia).
      rewrite !zlen_app, zlen_cons, zlen_nil. by replace (zlen content + (zlen line + (0 + 1))) with (zlen content + zlen line + 1) by lia.
    + intros start [= <-]. exists es, e, content. split; [done|]. split; [done|]. split; [done|]. by exists (line ++ [10]).
Qed.

Lemma with_len_app content t : with_len (zlen content) (content ++ t) = content.
Proof.
  unfold with_len, zlen. rewrite Nat2Z.id, take_app_length, length_app.
  replace (length content - (length content + length t))%nat with 0%nat by lia. simpl. apply app_nil_r.
Qed.

(** What a crash may leave behind the lines of [es] when [e] was being written:
    nothing, a part of its line, or all of it but the line feed. *)
Definition torn_line (e : JournalEntry) (t : list Z) : Prop := ∃ line, entry_line e = inl line ∧ t `prefix_of` line.

(** A file of whole lines is read as its entries. *)
Lemma load_whole path0 es content s :
  io_reliable → regular = true → image es content → dense es → Forall exact es →
  zlen es ≤ MAX_JOURNAL_ENTRIES → zlen content ≤ MAX_JOURNAL_BYTES → default [] (file s) = content →
  ∃ j s', journal_load path0 s = (inl j, s') ∧ path j = Some path0 ∧ describes j (default [] (file s')) ∧ entries j = es.
Proof.
  intros Hio Hreg Hi Hd He Hn Hsmall Hfile. unfold journal_load, mbind at 1, St_bind at 1, read_journal_bounded. rewrite Hio.
  destruct (file s) as [c|] eqn:Hfs; simpl in Hfile; subst content.
  2: { eexists _, _. split; [done|]. split; [done|]. cbn. rewrite Hfs. cbn. split; [|symmetry; by apply image_empty].
       split; cbn; try done. constructor. }
  rewrite Hreg. cbn [negb]. rewrite (proj2 (Z.ltb_ge _ _)) by lia. unfold try_bind at 1.
  destruct (load_image es c Hi Hd He Hn (length c) [] ltac:(apply Nat.eq_le_incl, Nat.add_0_r)) as (fuel & n & last_start & _ & Heq & Hlast).
  rewrite app_nil_r in Heq. rewrite Heq.
  exists (mkJournal es (Some path0) (zlen c) last_start), (log_io IoRead s). split; [by destruct fuel|]. split; [done|].
  cbn. rewrite Hfs. cbn. split; [|done]. split; cbn; try done; lia.
Qed.

(** A file with a torn end is read as [es], or with [e] when its line is whole;
    and it is repaired. *)
Lemma load_torn path0 es content e t s :
  io_reliable → regular = true → image es content → dense (es ++ [e]) → Forall exact (es ++ [e]) →
  zlen (es ++ [e]) ≤ MAX_JOURNAL_ENTRIES → zlen (content ++ t) < MAX_JOURNAL_BYTES → torn_line e t → t ≠ [] →
  file s = Some (content ++ t) →
  ∃ j s', journal_load path0 s = (inl j, s') ∧ path j = Some path0 ∧ describes j (default [] (file s')) ∧
    (entries j = es ∨ entries j = es ++ [e] ∧ entry_line e = inl t).
Proof.
  intros Hio Hreg Hi Hd He Hn Hsmall (line & Hl & Ht) Htne Hfile.
  pose proof Hd as Hd'. apply dense_prefix in Hd'. pose proof He as He'. apply Forall_app in He' as [He' He1]. apply Forall_cons in He1 as [He1 _].
  rewrite zlen_app, zlen_cons, zlen_nil in Hn.
  destruct (load_image es content Hi Hd' He' ltac:(lia) (length (content ++ t)) t ltac:(rewrite length_app; lia)) as (fuel & n & last_start & Hf & Heq & Hlast).
  unfold journal_load, mbind at 1, St_bind at 1, read_journal_bounded. rewrite Hio, Hfile, Hreg. cbn [negb].
  rewrite (proj2 (Z.ltb_ge _ _)) by lia. unfold try_bind at 1. rewrite Heq.
  rewrite zlen_app in Hsmall. pose proof (zlen_nonneg t). pose proof (zlen_nonneg content).
  assert (describes (mkJournal es (Some path0) (zlen content) last_start) content) as Hsound.
  { split; cbn; try done; lia. }
  destruct (line_plain _ _ Hl) as [Hnl Hb].
  destruct t as [|b t]; [done|].
  destruct fuel as [|fuel]; [simpl in Hf; lia|]. cbn [load_lines].
  assert (10 ∉ b :: t) as Hnt. { destruct Ht as [q ->]. set_solver. }
  rewrite split_no_newline by done.
  assert (∀ s0, io_log s0 = io_log s ++ [IoRead] → file s0 = file s →
    ∃ s', truncate_tail (zlen content) s0 = (inl tt, s') ∧ file s' = Some content) as Hcut.
  { intros s0 _ Hf0. unfold truncate_tail. rewrite Hf0, Hfile, Hio. eexists. split; [done|]. cbn. by rewrite with_len_app. }
  destruct (Hcut (log_io IoRead s) eq_refl eq_refl) as (s' & Htr & Hfs'). clear Hcut.
  assert (∀ k : unit → St Store ((list JournalEntry * Z * option Z) + JournalError),
    try_bind (map_io (truncate_tail (zlen content))) k (log_io IoRead s) = k tt s') as Hbind.
  { intros k. unfold try_bind, map_io, mbind, St_bind, mret, St_ret. by rewrite Htr. }
  destruct (blank (b :: t)) eqn:Hbl.
  { rewrite Hbind. unfold mret, St_ret. eexists _, s'. split; [done|]. split; [done|]. rewrite Hfs'. cbn. split; [exact Hsound|by left]. }
  destruct Ht as [q Hq]. destruct (decide (q = [])) as [->|Hne].
  - rewrite app_nil_r in Hq. subst line. rewrite (line_read _ _ He1 Hl).
    rewrite push_entry_next by (by apply dense_last || lia).
    unfold try_bind, map_io, mbind, St_bind, mret, St_ret, terminate_line. cbn [file log_io]. rewrite Hio.
    cbn. rewrite Hfile. eexists _, _. split; [done|]. split; [done|]. split; [|by right].
    cbn. rewrite sat_add_exact by (unfold MAX_JOURNAL_BYTES, umax in *; rewrite zlen_app; lia).
    assert ((content ++ b :: t) ++ [10] = content ++ (b :: t) ++ [10]) as -> by (by rewrite <- app_assoc).
    split; cbn.
    + exact (image_snoc es content e (b :: t) Hi Hl).
    + done.
    + done.
    + autorewrite with rust. lia.
    + autorewrite with rust. lia.
    + autorewrite with rust in *. lia.
    + intros start [= <-]. exists es, e, content. split; [done|]. split; [done|]. split; [done|]. by exists ((b :: t) ++ [10]).
  - destruct (line_torn _ _ _ _ Hl Hq Hne) as [error ->]. rewrite Hbind. unfold mret, St_ret.
    eexists _, s'. split; [done|]. split; [done|]. rewrite Hfs'. cbn. split; [exact Hsound|by left].
Qed.

(** * Recording and pruning *)

(** What reaches the file when a line is appended, whatever fails. *)
Lemma append_line_spec line s :
  ∃ t, default [] (file (append_line line s).2) = default [] (file s) ++ t ∧ t `prefix_of` line ∧
    ((append_line line s).1 = inl tt → t = line) ∧ (io_reliable → (append_line line s).1 = inl tt).
Proof.
  unfold append_line. destruct (io_fails _ _) as [f|] eqn:Hf; cbn.
  - exists (take (io_kept f) line). split; [|split; [|split; [done|]]].
    + destruct (io_kept f) as [|n]; cbn; [by rewrite app_nil_r|done].
    + exists (drop (io_kept f) line). by rewrite take_drop.
    + intros Hr. by rewrite Hr in Hf.
  - exists line. split; [done|]. split; [done|]. by split.
Qed.

(** A record appends its line or is refused; a refused one leaves the journal and,
    when nothing failed, the file. *)
Lemma journal_record_spec now seq kind hash v j s p r j' s' :
  let e := mkEntry seq kind hash v now in
  path j = Some p → describes j (default [] (file s)) → exact e → seq < MAX_JOURNAL_ENTRIES →
  journal_record now seq kind hash v j s = ((r, j'), s') →
  match r with
  | inl _ =>
      seq = zlen (entries j) ∧ path j' = Some p ∧ entries j' = entries j ++ [e] ∧ describes j' (default [] (file s')) ∧
      ∃ line, entry_line e = inl line ∧ default [] (file s') = default [] (file s) ++ line ++ [10]
  | inr _ =>
      j' = j ∧ (s' = s ∨ seq = zlen (entries j) ∧ ∃ line t, entry_line e = inl line ∧ t `prefix_of` line ++ [10] ∧
                  default [] (file s') = default [] (file s) ++ t ∧ zlen (default [] (file s) ++ line ++ [10]) ≤ MAX_JOURNAL_BYTES ∧ ¬ io_reliable)
  end.
Proof.
  intros e Hp [Hi Hd He Hc Hb Hsm Hls] Hex Hseq. unfold journal_record, validate_sequence, mret, St_ret. cbn [je_seq].
  fold e. destruct (Z.eqb_spec seq (zlen (entries j))) as [Hsq|]; [|intros; simplify_eq/=; by split; [|left]].
  destruct (entry_line e) as [line|text] eqn:Hl; [|intros; simplify_eq/=; by split; [|left]].
  destruct (Z.ltb_spec MAX_JOURNAL_BYTES (sat_add 64 (bytes j) (zlen (line ++ [10])))) as [|Hle]; [intros; simplify_eq/=; by split; [|left]|].
  rewrite Hp. pose proof (append_line_spec (line ++ [10]) s) as (t & Hf & Ht & Hok & Hrel).
  assert (sat_add 64 (bytes j) (zlen (line ++ [10])) = zlen (default [] (file s) ++ line ++ [10])) as Hsat.
  { revert Hle. rewrite Hb. unfold sat_add, umax, MAX_JOURNAL_BYTES. rewrite !zlen_app. lia. }
  unfold mbind at 1, St_bind at 1, map_io, mbind at 1, St_bind at 1.
  destruct (append_line (line ++ [10]) s) as [[[]|text] s1] eqn:Ha; cbn in *; intros; simplify_eq/=.
  - rewrite (Hok eq_refl) in Hf. split; [done|]. split; [done|]. split; [done|]. split; [|by exists line].
    rewrite Hf. split; cbn.
    + exact (image_snoc _ _ e line Hi Hl).
    + by apply dense_snoc.
    + apply Forall_app. by split; [|constructor].
    + autorewrite with rust. lia.
    + done.
    + by rewrite <- Hsat.
    + intros start [= <-]. exists (entries j), e, (default [] (file s)). rewrite Hb. split; [done|]. split; [done|]. split; [done|].
      by exists (line ++ [10]).
  - split; [done|]. right. split; [done|]. exists line, t. split; [done|]. split; [done|]. split; [done|]. split; [by rewrite <- Hsat|].
    intros Hr. by specialize (Hrel Hr).
Qed.

(** Pruning takes the last entry from the journal and its line from the file. *)
Lemma prune_spec detail j s p r j' s' :
  path j = Some p → describes j (default [] (file s)) → file s ≠ None →
  prune_trailing_host_error detail j s = ((r, j'), s') →
  match r with
  | inl true =>
      ∃ e message, entries j = entries j' ++ [e] ∧ host_error_message (je_result e) = Some message ∧ message ≠ [] ∧
        infix message detail ∧ describes j' (default [] (file s')) ∧ path j' = Some p
  | inl false => j' = j ∧ s' = s
  | inr _ => j' = j
  end.
Proof.
  intros Hp Hdes Hfile. unfold prune_trailing_host_error, mret, St_ret, mbind at 1, option_bind.
  destruct (last (entries j)) as [e|] eqn:Hlast; [|intros; by simplify_eq/=].
  destruct (host_error_message (je_result e)) as [message|] eqn:Hm; [|intros; by simplify_eq/=].
  destruct (is_empty message || negb (contains_str message detail)) eqn:Hg; [intros; by simplify_eq/=|].
  apply orb_false_elim in Hg as [Hne Hin]. apply negb_false_iff, contains_str_spec in Hin.
  destruct (last_line_start j) as [start|] eqn:Hst; [|intros; by simplify_eq/=].
  destruct (d_last _ _ Hdes start Hst) as (es & e' & before & Hes & Hi & -> & [t Ht]).
  rewrite Hp. unfold mbind at 1, St_bind at 1, map_io, mbind at 1, St_bind at 1, truncate_tail.
  destruct (file s) as [content|] eqn:Hc; [|done]. simpl in Hdes, Ht. subst content.
  destruct (io_fails _ _) as [f|]; cbn; intros; simplify_eq/=; [done|].
  rewrite Hes, removelast_last in *. rewrite last_snoc in Hlast. simplify_eq.
  exists e, message. split; [done|]. split; [done|]. split; [by destruct message|]. split; [done|]. split; [|done].
  rewrite with_len_app. destruct Hdes as [Hi' Hd He Hn Hb Hsm _]. rewrite Hes in *. split; cbn; try done.
  - by eapply dense_prefix.
  - by apply Forall_app in He as [? _].
  - autorewrite with rust in Hn. lia.
  - rewrite zlen_app in Hsm. pose proof (zlen_nonneg t). lia.
Qed.

(** * Crashes *)

Lemma prefix_of_snoc {A} (t l : list A) x : t `prefix_of` l ++ [x] → t `prefix_of` l ∨ t = l ++ [x].
Proof.
  intros [q Hq]. destruct q as [|y q _] using rev_ind; [right; by rewrite app_nil_r in Hq|].
  left. rewrite app_assoc in Hq. apply app_inj_tail in Hq as [-> _]. by exists q.
Qed.

(** Whatever part of a line and its line feed reached the file, it is read as the
    entries before, or with the entry. *)
Lemma load_part path0 es content e line t s :
  io_reliable → regular = true → image es content → dense (es ++ [e]) → Forall exact (es ++ [e]) →
  zlen (es ++ [e]) ≤ MAX_JOURNAL_ENTRIES → entry_line e = inl line → zlen (content ++ line ++ [10]) ≤ MAX_JOURNAL_BYTES →
  t `prefix_of` line ++ [10] → default [] (file s) = content ++ t →
  ∃ j s', journal_load path0 s = (inl j, s') ∧ path j = Some path0 ∧ describes j (default [] (file s')) ∧
    (entries j = es ∨ entries j = es ++ [e]) ∧ (t = line ++ [10] → entries j = es ++ [e]).
Proof.
  intros Hio Hreg Hi Hd He Hn Hl Hsm Ht Hfile. rewrite zlen_app in Hsm. autorewrite with rust in Hsm.
  pose proof Hd as Hd'. apply dense_prefix in Hd'. pose proof He as He'. apply Forall_app in He' as [He' _].
  assert (zlen es ≤ MAX_JOURNAL_ENTRIES) as Hn' by (autorewrite with rust in Hn; lia).
  pose proof (zlen_nonneg line). pose proof (zlen_nonneg content).
  destruct (prefix_of_snoc _ _ _ Ht) as [Hpre|Hall]; [|subst t].
  2: { destruct (load_whole path0 (es ++ [e]) (content ++ line ++ [10]) s Hio Hreg) as (j & s' & Hload & Hp & Hdes & Hes);
         [by constructor|done|done|done|autorewrite with rust; lia|done|].
       exists j, s'. eauto 10. }
  destruct (decide (t = [])) as [->|Hne].
  { rewrite app_nil_r in Hfile. destruct (load_whole path0 es content s Hio Hreg) as (j & s' & Hload & Hp & Hdes & Hes); [done..|lia|done|].
    exists j, s'. split; [done|]. split; [done|]. split; [done|]. split; [by left|]. intros Heq. by destruct line. }
  assert (file s = Some (content ++ t)) as Hfs.
  { destruct (file s); simpl in Hfile; [by f_equal|]. symmetry in Hfile. by apply app_eq_nil in Hfile as [_ ->]. }
  destruct (load_torn path0 es content e t s Hio Hreg) as (j & s' & Hload & Hp & Hdes & Hes);
    [done|done|done|done| |by exists line|done|done|].
  { apply prefix_length in Hpre. rewrite zlen_app. unfold zlen in *. lia. }
  exists j, s'. split; [done|]. split; [done|]. split; [done|]. split; [destruct Hes as [Hes|[Hes _]]; auto|].
  intros ->. apply prefix_length in Hpre. rewrite length_app in Hpre. simpl in Hpre. lia.
Qed.
End Journal.

(** * The hash of a request *)

Section Hash.
Context `{!Json}.

Notation Value := (Value Number).

(** Values that differ in the order of the keys of their objects at most. *)
Inductive alike : Value → Value → Prop :=
| alike_refl v : alike v v
| alike_array vs ws : Forall2 alike vs ws → alike (VArray vs) (VArray ws)
| alike_object fs gs hs :
    NoDup (fst <$> fs) → Forall2 (λ f g, f.1 = g.1 ∧ alike f.2 g.2) fs gs → gs ≡ₚ hs → alike (VObject fs) (VObject hs).

#[local] Instance key_le_total : Total key_le.
Proof. intros a b. apply (str_le_total a.1 b.1). Qed.
#[local] Instance key_le_trans : Transitive key_le.
Proof. intros a b c. apply (str_le_trans a.1 b.1 c.1). Qed.

Lemma sorted_keys (fs gs : list (rstr * Value)) : NoDup (fst <$> fs) → fs ≡ₚ gs → merge_sort key_le fs = merge_sort key_le gs.
Proof.
  intros Hnd Hp. apply (Sorted_unique_strong key_le); [|apply (Sorted_merge_sort key_le)..|].
  2: { etrans; [apply merge_sort_Permutation|]. etrans; [exact Hp|]. symmetry. apply merge_sort_Permutation. }
  intros a b Ha Hb Hab Hba. rewrite merge_sort_Permutation in Ha. rewrite merge_sort_Permutation, <- Hp in Hb.
  pose proof (str_le_antisymm a.1 b.1 Hab Hba) as Hk.
  apply list_elem_of_lookup in Ha as [i Hi], Hb as [k Hk'].
  assert (i = k) as ->; [|congruence]. eapply NoDup_lookup; [exact Hnd| |]; rewrite list_lookup_fmap; [by rewrite Hi|].
  by rewrite Hk', Hk.
Qed.

Lemma canonical_alike : ∀ v w, alike v w → canonical_json v = canonical_json w.
Proof.
  fix IH 3. intros v w [u|vs ws Hvs|fs gs hs Hnd Hfs Hp]; [reflexivity| |]; cbn [canonical_json]; f_equal.
  - induction Hvs as [|a b vs ws Hab _ IHl]; [reflexivity|]. rewrite !fmap_cons. by rewrite (IH a b Hab), IHl.
  - assert ((λ e, (e.1, canonical_json e.2)) <$> fs = (λ e, (e.1, canonical_json e.2)) <$> gs) as Heq.
    { clear Hnd Hp. induction Hfs as [|a b fs gs [Hk Hab] _ IHl]; [reflexivity|]. rewrite !fmap_cons. by rewrite IHl, Hk, (IH _ _ Hab). }
    apply sorted_keys; [|by rewrite Heq, Hp]. rewrite <- list_fmap_compose. exact Hnd.
Qed.

(** The hash of a request does not depend on the order of keys. *)
Theorem request_hash_alike kind v w : alike v w → request_hash kind v = request_hash kind w.
Proof. intros Hvw. unfold request_hash. by rewrite (canonical_alike v w Hvw). Qed.
End Hash.
