(* ===== verification/WorkflowEngine.v ===== *)
(** The host calls of a workflow script
    (src/crates/codegen/workflow/src/engine.rs, host.rs, run.rs).

    A script runs in the Rhai interpreter, which is a parameter here: what it does
    between two calls of the host is a tree ([Script]).  A node is a call of one of
    the functions that [register_host_fns] registers; what follows depends on the
    value that comes back, or on the error, which the script may catch.  A
    terminated script catches nothing and ends.

    The host is a function of the requests sent so far.  The answers to the agents
    of a parallel block are taken when they are waited for. *)
From S2P Require Import Prelude Str WorkflowJournal.

Definition MAX_PARALLEL : Z := 1024.

(** * The host (host.rs) *)

Record AgentOpts {V : Type} : Type := mkOpts {
  ao_prompt : rstr;
  ao_label : option rstr;
  ao_model : option rstr;
  ao_max_output_tokens : option Z;
  ao_agent_type : option rstr;
  ao_capability_mode : option rstr;
  ao_isolation_worktree : bool;
  ao_fork_context : bool;
  ao_resume_from : option rstr;
  ao_output_schema : option V;
  ao_phase : option rstr;
}.
Arguments AgentOpts : clear implicits.

Record AgentResult {V : Type} : Type := mkAgentResult {
  agent_id : rstr;
  ar_success : bool;
  ar_output : V;
  ar_cancelled : bool;
  ar_tokens_used : Z;
  ar_duration_ms : Z;
}.
Arguments AgentResult : clear implicits.

Record BudgetState : Type := mkBudget { bs_total : option Z; bs_spent : Z; bs_reserved : Z; bs_remaining : option Z }.

Inductive HostError : Type :=
| AgentCallQuotaExceeded (requested maximum : Z)
| HostBudgetExceeded
| HostCancelled
| HostUnsupported (msg : rstr)
| HostFailed (msg : rstr).

(** [WorkflowHostRequest], without the channels that bring the replies. *)
Inductive Request {V : Type} : Type :=
| ReserveAgentCalls (count : Z)
| ReleaseAgentCalls (count : Z)
| SpawnAgent (opts : AgentOpts V)
| PhaseRequest (title : rstr) (replayed : bool)
| LogRequest (message : rstr) (replayed : bool)
| TelemetryRequest (name : rstr) (fields : V) (replayed : bool)
| BudgetQuery
| RenderTemplate (name : rstr) (vars : V)
| WriteScratchFile (name content : rstr)
| ReadScratchFile (name : rstr)
| GitDiffSince (commit : rstr).
Arguments Request : clear implicits.

(** What comes through the reply channel of a request. *)
Inductive Reply {V : Type} : Type :=
| ReplyUnit
| ReplyAgent (result : AgentResult V)
| ReplyBudget (state : BudgetState)
| ReplyText (text : rstr).
Arguments Reply : clear implicits.

(** * Outcomes (run.rs) *)

Inductive PauseKind : Type := PkUser | PkBackOff | PkNoProgress | PkVerification | PkInfra.

Definition pause_kind_as_str (k : PauseKind) : rstr :=
  match k with
  | PkUser => lit "user" | PkBackOff => lit "back_off" | PkNoProgress => lit "no_progress"
  | PkVerification => lit "verification" | PkInfra => lit "infra"
  end.

Definition pause_kind_from_str (s : rstr) : PauseKind + rstr :=
  if bool_decide (s = lit "user") then inl PkUser
  else if bool_decide (s = lit "back_off") || bool_decide (s = lit "backoff") then inl PkBackOff
  else if bool_decide (s = lit "no_progress") then inl PkNoProgress
  else if bool_decide (s = lit "verification") || bool_decide (s = lit "blocked") then inl PkVerification
  else if bool_decide (s = lit "infra") then inl PkInfra
  else inr (lit "unknown pause kind: " ++ s).

Inductive WorkflowOutcome {V : Type} : Type :=
| WfCompleted (result : V)
| WfPaused (kind : PauseKind) (message : rstr)
| WfBudgetExceeded (message : rstr)
| WfCancelled
| WfFailed (error : rstr).
Arguments WorkflowOutcome : clear implicits.

Inductive ControlToken {V : Type} : Type :=
| TkComplete (result : V)
| TkPause (kind : PauseKind) (message : rstr)
| TkBudget (message : rstr)
| TkCancelled
| TkFatal (error : rstr).
Arguments ControlToken : clear implicits.

(** [outcome_from_error] of a token. *)
Definition outcome_of_token {V} (t : ControlToken V) : WorkflowOutcome V :=
  match t with
  | TkComplete result => WfCompleted result
  | TkPause kind message => WfPaused kind message
  | TkBudget message => WfBudgetExceeded message
  | TkCancelled => WfCancelled
  | TkFatal error => WfFailed error
  end.

(** An error that a script can catch, or the end of it. *)
Inductive ScriptError {V : Type} : Type := Caught (message : rstr) | Terminated (token : ControlToken V).
Arguments ScriptError : clear implicits.

(** * The interpreter *)

(** The conversions of Rhai and serde: dynamic values to and from JSON, option maps
    to [AgentOpts] and back. *)
Class Rhai `{!Json} : Type := {
  Dynamic : Type;
  unit_dynamic : Dynamic;
  to_dynamic : Value Number → Dynamic + rstr;
  from_dynamic : Dynamic → option (Value Number);
  map_to_value : Dynamic → Value Number + rstr;
  is_map : Dynamic → bool;
  read_opts : Value Number → AgentOpts (Value Number) + rstr;
  opts_value : AgentOpts (Value Number) → Value Number + rstr;
  number : Z → Number;
}.

(** A call of a registered function. *)
Inductive HostFn {D : Type} : Type :=
| FnAgent (prompt : rstr) (opts : option D)
| FnParallel (items : list D)
| FnPhase (title : rstr)
| FnLog (message : rstr)
| FnTelemetry (name : rstr) (fields : D)
| FnComplete (value : option D)
| FnPause (kind message : rstr)
| FnAwaitUser (kind message : rstr)
| FnBudget
| FnRenderTemplate (name : rstr) (vars : D)
| FnWriteScratch (name content : rstr)
| FnReadScratch (name : rstr)
| FnGitDiff (commit : rstr).
Arguments HostFn : clear implicits.

(** What a function hands back: a value, an array, or the message of an error. *)
Inductive Given {D : Type} : Type := GivenValue (d : D) | GivenArray (ds : list D) | GivenError (message : rstr).
Arguments Given : clear implicits.

Inductive Script {D : Type} : Type :=
| Finish (value : D)
| Throw (message : rstr)
| Call (f : HostFn D) (k : Given D → Script).
Arguments Script : clear implicits.

(** The host: the reply to request number [n] when it is waited for (an error, or
    [None] for a dropped channel), whether it is gone, when the run is cancelled;
    and the clock. *)
Class Host `{!Json} : Type := {
  answer : list (Request (Value Number)) → nat → option (Reply (Value Number) + HostError);
  host_gone : list (Request (Value Number)) → bool;
  cancelled : nat → bool;
  clock : list IoCall → Z;
}.

Record Run `{!Json} : Type := mkRun {
  journal : Journal;
  seq : Z;
  store : Store;
  sent : list (Request (Value Number));
  steps : nat;
}.
#[global] Instance Run_eta `{!Json} : Eta Run := λ r, mkRun _ (journal r) (seq r) (store r) (sent r) (steps r).

Section Engine.
Context `{!Json, !Storage, !Rhai, !Host}.

Notation Value := (Value Number).
Notation ScriptError := (ScriptError Value).
Notation Request := (Request Value).
Notation Reply := (Reply Value).
Notation AgentOpts := (AgentOpts Value).

Notation ScriptResult A := (St Run (A + ScriptError)).

Definition runtime_error {A} (message : rstr) : ScriptResult A := mret (inr (Caught message)).
Definition terminate {A} (t : ControlToken Value) : ScriptResult A := mret (inr (Terminated t)).
Definition journal_fatal {A} (e : JournalError) : ScriptResult A := terminate (TkFatal (journal_error_text e)).

(** ** The context *)

Definition replaying : St Run bool := λ r, (covers (journal r) (seq r), r).

Definition reserve_seqs (count : Z) : ScriptResult Z := λ r,
  let stop := seq r + count in
  if umax 64 <? stop then (inr (Terminated (TkFatal (lit "workflow host-call count overflowed"))), r)
  else if MAX_HOST_CALLS <? stop
  then (inr (Terminated (TkFatal (lit "workflow exceeded the maximum of " ++ fmt_dec MAX_HOST_CALLS ++ lit " result-bearing host calls"))), r)
  else (inl (seq r), r <| seq := stop |>).
Definition next_seq : ScriptResult Z := reserve_seqs 1.

Definition record (seq : Z) (kind hash : rstr) (value : Value) : ScriptResult unit := λ r,
  let '((res, j), s) := journal_record (clock (io_log (store r))) seq kind hash value (journal r) (store r) in
  let r := r <| journal := j |> <| store := s |> in
  match res with inl u => (inl u, r) | inr e => journal_fatal e r end.

Definition replay_at (seq : Z) (kind hash : rstr) : St Run (option Value + JournalError) :=
  λ r, (replay (journal r) seq kind hash, r).

(** ** Requests *)

(** Send, and wait for the reply; the sender may be gone. *)
Definition send (req : Request) : ScriptResult nat := λ r,
  if host_gone (sent r) then (inr (Terminated (TkFatal (lit "workflow host channel closed"))), r)
  else (inl (length (sent r)), r <| sent := sent r ++ [req] |>).

Definition await_reply (n : nat) : St Run (option (Reply + HostError)) := λ r, (answer (sent r) n, r).

Definition request (req : Request) : ScriptResult (Reply + HostError) :=
  n ←? send req;
  reply ← await_reply n;
  match reply with
  | Some x => mret (inl x)
  | None => terminate (TkFatal (lit "workflow host dropped reply"))
  end.

Definition host_emit (build : bool → Request) : St Run unit := λ r,
  let replayed := covers (journal r) (seq r) in
  (tt, if host_gone (sent r) then r else r <| sent := sent r ++ [build replayed] |>).

(** ** Sentinels *)

Definition HOST_TERMINAL_KEY : rstr := lit "__workflow_parallel_terminal".
Definition TERMINAL_BUDGET : rstr := lit "budget_exceeded".
Definition TERMINAL_CANCELLED : rstr := lit "cancelled".
Definition TERMINAL_DROPPED_REPLY : rstr := lit "dropped_reply".

Definition host_error_sentinel (message : rstr) : Value := VObject [(HOST_ERROR_KEY, VString message)].
Definition replay_host_error (recorded : Value) : option rstr := host_error_message recorded.
Definition host_terminal_sentinel (kind : rstr) : Value := VObject [(HOST_TERMINAL_KEY, VString kind)].
Definition is_host_terminal_sentinel (recorded : Value) : bool := is_some_and (λ _, true) (value_get HOST_TERMINAL_KEY recorded).

Definition host_terminal_error (kind : rstr) : ControlToken Value :=
  if bool_decide (kind = TERMINAL_BUDGET) then TkBudget (lit "workflow agent budget exceeded")
  else if bool_decide (kind = TERMINAL_CANCELLED) then TkCancelled
  else if bool_decide (kind = TERMINAL_DROPPED_REPLY) then TkFatal (lit "workflow host dropped reply")
  else TkFatal (lit "workflow journal contains an unknown terminal marker").

(** ** Calls *)

Definition quota_text (prefix : rstr) (requested maximum : Z) : rstr :=
  prefix ++ lit "requested " ++ fmt_dec requested ++ lit ", maximum " ++ fmt_dec maximum.

Definition host_call (kind : rstr) (payload : Value) (req : Request) (to_result : Reply → Value) : ScriptResult Value :=
  let hash := request_hash kind payload in
  n ←? next_seq;
  recorded ← replay_at n kind hash;
  match recorded with
  | inr error => journal_fatal error
  | inl (Some recorded) =>
      match replay_host_error recorded with
      | Some message => runtime_error message
      | None => mret (inl recorded)
      end
  | inl None =>
      reply ←? request req;
      match reply with
      | inl v => _ ←? record n kind hash (to_result v); mret (inl (to_result v))
      | inr (AgentCallQuotaExceeded requested maximum) =>
          runtime_error (quota_text (lit "workflow agent-call quota exceeded: ") requested maximum)
      | inr HostBudgetExceeded => terminate (TkBudget (lit "workflow agent budget exceeded"))
      | inr HostCancelled => terminate TkCancelled
      | inr (HostUnsupported msg) => _ ←? record n kind hash (host_error_sentinel msg); runtime_error msg
      | inr (HostFailed msg) => _ ←? record n kind hash (host_error_sentinel msg); runtime_error msg
      end
  end.

Definition reserve_agent_calls (count : Z) : ScriptResult unit :=
  if count =? 0 then mret (inl tt)
  else
    reply ←? request (ReserveAgentCalls count);
    match reply with
    | inl _ => mret (inl tt)
    | inr (AgentCallQuotaExceeded requested maximum) =>
        terminate (TkBudget (quota_text (lit "workflow agent budget exceeded: ") requested maximum))
    | inr HostCancelled => terminate TkCancelled
    | inr HostBudgetExceeded => terminate (TkBudget (lit "workflow agent budget exceeded"))
    | inr (HostUnsupported message) => runtime_error message
    | inr (HostFailed message) => runtime_error message
    end.

Definition release_agent_calls (count : Z) : St Run unit :=
  if count =? 0 then mret tt else _ ← send (ReleaseAgentCalls count); mret tt.

Definition is_resumable_unjournaled_terminal (e : ScriptError) : bool :=
  match e with Terminated TkCancelled => true | Terminated (TkBudget _) => true | _ => false end.

(** ** Values of replies *)

Definition number_value (n : Z) : Value := VNumber (number n).
Definition option_number (n : option Z) : Value := match n with Some n => number_value n | None => VNull end.

Definition agent_value (a : AgentResult Value) : Value :=
  VObject [(lit "agent_id", VString (agent_id a)); (lit "success", VBool (ar_success a)); (lit "output", ar_output a);
           (lit "cancelled", VBool (ar_cancelled a)); (lit "tokens_used", number_value (ar_tokens_used a));
           (lit "duration_ms", number_value (ar_duration_ms a))].
Definition budget_value (b : BudgetState) : Value :=
  VObject [(lit "total", option_number (bs_total b)); (lit "spent", number_value (bs_spent b));
           (lit "reserved", number_value (bs_reserved b)); (lit "remaining", option_number (bs_remaining b))].

(** The reply channel of a request carries one type: the other cases do not
    occur. *)
Definition value_of_reply (r : Reply) : Value :=
  match r with
  | ReplyUnit => VNull
  | ReplyAgent a => agent_value a
  | ReplyBudget b => budget_value b
  | ReplyText s => VString s
  end.

(** ** Agents *)

Definition value_to_dynamic (v : Value) : Dynamic + rstr :=
  match to_dynamic v with inl d => inl d | inr e => inr (lit "host result conversion: " ++ e) end.

Definition opts_payload (opts : AgentOpts) : Value + rstr :=
  match opts_value opts with inl v => inl v | inr e => inr (lit "invalid agent options: " ++ e) end.

Definition spawn_payload (opts : AgentOpts) (payload : Value) : ScriptResult Dynamic :=
  let hash := request_hash (lit "spawn_agent") payload in
  known ← (λ r, (replay (journal r) (seq r) (lit "spawn_agent") hash, r));
  match known with
  | inr error => journal_fatal error
  | inl recorded =>
      let is_live := negb (is_some_and (λ _, true) recorded) in
      _ ←? (if is_live then reserve_agent_calls 1 else mret (inl tt));
      value ← host_call (lit "spawn_agent") payload (SpawnAgent opts) value_of_reply;
      match value with
      | inl v => match value_to_dynamic v with inl d => mret (inl d) | inr e => runtime_error e end
      | inr err =>
          _ ← (if is_live && is_resumable_unjournaled_terminal err then release_agent_calls 1 else mret tt);
          mret (inr err)
      end
  end.

Definition spawn_agent_call (opts : AgentOpts) : ScriptResult Dynamic :=
  match opts_payload opts with inr e => runtime_error e | inl payload => spawn_payload opts payload end.

Definition no_opts (prompt : rstr) : AgentOpts := mkOpts _ prompt None None None None None false false None None None.

Definition agent_opts_from_map (prompt : option rstr) (map : Dynamic) : AgentOpts + rstr :=
  match map_to_value map with
  | inr e => inr (lit "invalid options map: " ++ e)
  | inl v =>
      match read_opts v with
      | inr e => inr (lit "invalid agent options: " ++ e)
      | inl opts =>
          let opts := match prompt with
                      | Some p => mkOpts _ p (ao_label opts) (ao_model opts) (ao_max_output_tokens opts) (ao_agent_type opts)
                                    (ao_capability_mode opts) (ao_isolation_worktree opts) (ao_fork_context opts)
                                    (ao_resume_from opts) (ao_output_schema opts) (ao_phase opts)
                      | None => opts
                      end in
          if is_empty (trim (ao_prompt opts)) then inr (lit "agent prompt must not be empty") else inl opts
      end
  end.

(** ** Parallel agents *)

Inductive PendingAgent : Type := PaReplayed (v : Value) | PaLive (seq : Z) (hash : rstr) (n : nat).

Definition parallel_opts (items : list Dynamic) : list AgentOpts + rstr :=
  foldr (λ item acc,
    if negb (is_map item) then inr (lit "parallel() items must be option maps")
    else match agent_opts_from_map None item with
         | inr e => inr e
         | inl opts => match acc with inl l => inl (opts :: l) | inr e => inr e end
         end) (inl []) items.

Definition parallel_requests (opts_list : list AgentOpts) : list (AgentOpts * rstr) + rstr :=
  foldr (λ opts acc,
    match opts_payload opts with
    | inr e => inr e
    | inl payload => match acc with inl l => inl ((opts, request_hash (lit "spawn_agent") payload) :: l) | inr e => inr e end
    end) (inl []) opts_list.

(** How many of the requests the journal does not hold. *)
Fixpoint live_count_from (j : Journal) (seq : Z) (requests : list (AgentOpts * rstr)) (live : Z) : Z + ControlToken Value :=
  match requests with
  | [] => inl live
  | (_, hash) :: requests =>
      match replay j seq (lit "spawn_agent") hash with
      | inr error => inr (TkFatal (journal_error_text error))
      | inl recorded =>
          if umax 64 <? seq + 1 then inr (TkFatal (lit "workflow host-call count overflowed"))
          else live_count_from j (seq + 1) requests (match recorded with Some _ => live | None => live + 1 end)
      end
  end.

(** Waiting for what was sent changes nothing here; the agents run on. *)
Fixpoint start_agents (requests : list (AgentOpts * rstr)) (pending : list PendingAgent) : ScriptResult (list PendingAgent) :=
  match requests with
  | [] => mret (inl pending)
  | (opts, hash) :: requests =>
      n ←? next_seq;
      recorded ← replay_at n (lit "spawn_agent") hash;
      match recorded with
      | inr error => journal_fatal error
      | inl (Some value) => start_agents requests (pending ++ [PaReplayed value])
      | inl None =>
          i ←? send (SpawnAgent opts);
          start_agents requests (pending ++ [PaLive n hash i])
      end
  end.

(** What the replies add up to: the values with where they are to be recorded, the
    first terminal kind, the first error, whether the run may be resumed. *)
Record Resolved : Type := mkResolved {
  rs_values : list (option (Z * rstr) * Value);
  rs_terminal : option rstr;
  rs_error : option ScriptError;
  rs_resumable : bool;
}.
#[global] Instance Resolved_eta : Eta Resolved := λ x, mkResolved (rs_values x) (rs_terminal x) (rs_error x) (rs_resumable x).

Definition or_first {A} (o : option A) (a : A) : option A := Some (default a o).

Definition resolve_replayed (value : Value) (x : Resolved) : Resolved :=
  if is_host_terminal_sentinel value then
    let kind := default (lit "unknown") (v ← value_get HOST_TERMINAL_KEY value; as_str v) in
    let x := x <| rs_terminal := or_first (rs_terminal x) kind |> in
    if bool_decide (kind = TERMINAL_BUDGET) || bool_decide (kind = TERMINAL_CANCELLED) then x <| rs_resumable := true |> else x
  else match replay_host_error value with
       | Some message => x <| rs_error := or_first (rs_error x) (Caught message) |>
       | None => x <| rs_values := rs_values x ++ [(None, value)] |>
       end.

Definition resolve_live (seq : Z) (hash : rstr) (reply : option (Reply + HostError)) (x : Resolved) : Resolved :=
  let put value x := x <| rs_values := rs_values x ++ [(Some (seq, hash), value)] |> in
  let ended kind x := put (host_terminal_sentinel kind) (x <| rs_terminal := or_first (rs_terminal x) kind |>) in
  match reply with
  | Some (inl r) => put (value_of_reply r) x
  | Some (inr HostBudgetExceeded) => ended TERMINAL_BUDGET (x <| rs_resumable := true |>)
  | Some (inr HostCancelled) => ended TERMINAL_CANCELLED (x <| rs_resumable := true |>)
  | Some (inr _) => put VNull x
  | None => ended TERMINAL_DROPPED_REPLY x
  end.

Fixpoint resolve_all (pending : list PendingAgent) (x : Resolved) : St Run Resolved :=
  match pending with
  | [] => mret x
  | PaReplayed value :: pending => resolve_all pending (resolve_replayed value x)
  | PaLive seq hash n :: pending => reply ← await_reply n; resolve_all pending (resolve_live seq hash reply x)
  end.

(** The results of a block go into the journal in their order, up to the first
    that does not. *)
Fixpoint record_all (values : list (option (Z * rstr) * Value)) : ScriptResult unit :=
  match values with
  | [] => mret (inl tt)
  | (None, _) :: values => record_all values
  | (Some (seq, hash), value) :: values => _ ←? record seq (lit "spawn_agent") hash value; record_all values
  end.

Fixpoint dynamics (values : list (option (Z * rstr) * Value)) : list Dynamic + rstr :=
  match values with
  | [] => inl []
  | (_, value) :: values =>
      match value_to_dynamic value with
      | inr e => inr e
      | inl d => match dynamics values with inl ds => inl (d :: ds) | inr e => inr e end
      end
  end.

Definition run_agents (requests : list (AgentOpts * rstr)) : ScriptResult (list Dynamic) :=
  live ← (λ r, (live_count_from (journal r) (seq r) requests 0, r));
  match live with
  | inr t => terminate t
  | inl live_count =>
      _ ←? reserve_agent_calls live_count;
      pending ←? start_agents requests [];
      x ← resolve_all pending (mkResolved [] None None false);
      recorded ← (if rs_resumable x then _ ← release_agent_calls live_count; mret (inl tt) else record_all (rs_values x));
      let error := match recorded with inl _ => rs_error x | inr e => or_first (rs_error x) e end in
      match rs_terminal x, error with
      | Some kind, _ => terminate (host_terminal_error kind)
      | None, Some e => mret (inr e)
      | None, None => match dynamics (rs_values x) with inl ds => mret (inl ds) | inr e => runtime_error e end
      end
  end.

Definition parallel (items : list Dynamic) : ScriptResult (list Dynamic) :=
  if MAX_PARALLEL <? zlen items then
    runtime_error (lit "parallel() accepts at most " ++ fmt_dec MAX_PARALLEL ++ lit " items per call (got " ++ fmt_dec (zlen items) ++ lit ")")
  else
    match parallel_opts items with
    | inr e => runtime_error e
    | inl opts_list =>
        match parallel_requests opts_list with inr e => runtime_error e | inl requests => run_agents requests end
    end.

(** ** The registered functions *)

Definition given_unit (m : St Run unit) : ScriptResult (Given Dynamic) := _ ← m; mret (inl (GivenValue unit_dynamic)).

Definition text_call (kind : rstr) (payload : Value) (req : Request) : ScriptResult (Given Dynamic) :=
  value ←? host_call kind payload req value_of_reply;
  match value_to_dynamic value with inl d => mret (inl (GivenValue d)) | inr e => runtime_error e end.

Definition await_user (kind message : rstr) : ScriptResult (Given Dynamic) :=
  match pause_kind_from_str kind with
  | inr e => runtime_error e
  | inl parsed =>
      let hash := request_hash (lit "await_user") (VObject [(lit "kind", VString kind); (lit "message", VString message)]) in
      n ←? next_seq;
      replayed ← replay_at n (lit "await_user") hash;
      match replayed with
      | inl (Some _) => mret (inl (GivenValue unit_dynamic))
      | inl None => _ ←? record n (lit "await_user") hash VNull; terminate (TkPause parsed message)
      | inr error => journal_fatal error
      end
  end.

Definition dynamic_to_value (d : Dynamic) : Value := default VNull (from_dynamic d).

Definition call_fn (f : HostFn Dynamic) : ScriptResult (Given Dynamic) :=
  match f with
  | FnAgent prompt None => d ←? spawn_agent_call (no_opts prompt); mret (inl (GivenValue d))
  | FnAgent prompt (Some map) =>
      match agent_opts_from_map (Some prompt) map with
      | inr e => runtime_error e
      | inl opts => d ←? spawn_agent_call opts; mret (inl (GivenValue d))
      end
  | FnParallel items => ds ←? parallel items; mret (inl (GivenArray ds))
  | FnPhase title => given_unit (host_emit (PhaseRequest title))
  | FnLog message => given_unit (host_emit (LogRequest message))
  | FnTelemetry name fields =>
      match map_to_value fields with
      | inr e => runtime_error (lit "invalid options map: " ++ e)
      | inl v => given_unit (host_emit (TelemetryRequest name v))
      end
  | FnComplete (Some d) => terminate (TkComplete (dynamic_to_value d))
  | FnComplete None => terminate (TkComplete VNull)
  | FnPause kind message =>
      match pause_kind_from_str kind with inl k => terminate (TkPause k message) | inr e => runtime_error e end
  | FnAwaitUser kind message => await_user kind message
  | FnBudget => text_call (lit "budget") VNull BudgetQuery
  | FnRenderTemplate name vars =>
      match map_to_value vars with
      | inr e => runtime_error (lit "invalid options map: " ++ e)
      | inl v => text_call (lit "render_template") (VObject [(lit "name", VString name); (lit "vars", v)]) (RenderTemplate name v)
      end
  | FnWriteScratch name content =>
      text_call (lit "write_scratch_file") (VObject [(lit "name", VString name); (lit "content", VString content)]) (WriteScratchFile name content)
  | FnReadScratch name => text_call (lit "read_scratch_file") (VObject [(lit "name", VString name)]) (ReadScratchFile name)
  | FnGitDiff commit => text_call (lit "git_diff_since") (VObject [(lit "commit", VString commit)]) (GitDiffSince commit)
  end.

(** The functions [fingerprint] and [json_encode] of a script ask for nothing: what
    they give is part of the script. *)
Definition fingerprint (text : rstr) : rstr := request_hash (lit "fingerprint") (VString text).

(** ** A run *)

(** The text of a Rhai error, with the hint for its author. *)
Definition with_rhai_hint (msg : rstr) : rstr :=
  if contains_str (lit "Expression exceeds maximum complexity") msg then
    msg ++ [10] ++ lit "hint: a single expression nests too deep " ++ [8212]
    ++ lit " usually one long chained `+` string concatenation. Split it into multiple `+=` statements."
  else if contains_str (lit "reserved keyword") msg then
    msg ++ [10] ++ lit "hint: Rhai reserves identifiers it doesn't use " ++ [8212]
    ++ lit " `shared`, `sync`, `async`, `await`, `spawn`, `go`, `thread`, `new`, `match`, `case`, `default`, `void`, `null`, `nil`, `exit`, `static`, `var` "
    ++ [8212] ++ lit " rename the variable (`shared` " ++ [8594] ++ lit " `has_shared`)."
  else if contains_str (lit "getter is not registered for type 'char'") msg then
    msg ++ [10] ++ lit "hint: indexing a string yields a `char`, so field access on it fails " ++ [8212]
    ++ lit " you likely indexed a string you expected to be an array (e.g. unparsed JSON in an agent output). Check with `type_of(x)`; slice strings with `s.sub_string(start, len)`."
  else msg.

(** Cancellation is looked for all the time; here, before each call and the end. *)
Fixpoint eval (s : Script Dynamic) : St Run (WorkflowOutcome Value) := λ r,
  if cancelled (steps r) then (WfCancelled, r)
  else
    let r := r <| steps := S (steps r) |> in
    match s with
    | Finish value => (WfCompleted (dynamic_to_value value), r)
    | Throw message => (WfFailed (with_rhai_hint message), r)
    | Call f k =>
        match call_fn f r with
        | (inl given, r) => eval (k given) r
        | (inr (Caught message), r) => eval (k (GivenError message)) r
        | (inr (Terminated t), r) => (outcome_of_token t, r)
        end
    end.

(** [compile]: what the interpreter makes of the text of a script and its
    arguments; [inr] is the error of the compiler or of the arguments. *)
Definition run_workflow (compile : rstr → Value → Script Dynamic + rstr) (script : rstr) (args : Value) (j : Journal) (s : Store)
    : WorkflowOutcome Value * Run :=
  let r := mkRun _ j 0 s [] 0 in
  match compile script args with
  | inr error => (WfFailed error, r)
  | inl tree => eval tree r
  end.
End Engine.
