(* ===== verification/WorkflowResume.v ===== *)
(** A workflow that is resumed replays its journal: the script is given what it
    was given before, nothing is asked of the host a second time, and the run goes
    on from where the journal ends. *)
From S2P Require Import Prelude Str WorkflowJournal WorkflowJournalThms WorkflowEngine.

(** * What a call does with the journal *)

Section Plans.
Context `{!Json, !Rhai}.

Notation Value := (Value Number).
Notation JournalEntry := (JournalEntry Number).
Notation Request := (Request Value).
Notation AgentOpts := (AgentOpts Value).

(** A call is answered by itself, or ends the script, or takes one answer of the
    host, or one for each of its agents, or waits for the user. *)
Inductive Plan : Type :=
| PlLocal (res : Given Dynamic + rstr) (emit : option (bool → Request))
| PlEnd (t : ControlToken Value)
| PlSpawn (opts : AgentOpts) (payload : Value)
| PlOne (kind : rstr) (payload : Value) (req : Request)
| PlMany (requests : list (AgentOpts * rstr))
| PlUser (kind : PauseKind) (message hash : rstr).

Definition spawn_plan (opts : AgentOpts) : Plan :=
  match opts_payload opts with inl payload => PlSpawn opts payload | inr e => PlLocal (inr e) None end.

Definition parallel_plan (items : list Dynamic) : Plan :=
  if MAX_PARALLEL <? zlen items then
    PlLocal (inr (lit "parallel() accepts at most " ++ fmt_dec MAX_PARALLEL ++ lit " items per call (got " ++ fmt_dec (zlen items) ++ lit ")")) None
  else match parallel_opts items with
       | inr e => PlLocal (inr e) None
       | inl opts => match parallel_requests opts with inr e => PlLocal (inr e) None | inl requests => PlMany requests end
       end.

Definition unit_plan (emit : bool → Request) : Plan := PlLocal (inl (GivenValue unit_dynamic)) (Some emit).

Definition plan_of (f : HostFn Dynamic) : Plan :=
  match f with
  | FnAgent prompt None => spawn_plan (no_opts prompt)
  | FnAgent prompt (Some map) =>
      match agent_opts_from_map (Some prompt) map with inr e => PlLocal (inr e) None | inl opts => spawn_plan opts end
  | FnParallel items => parallel_plan items
  | FnPhase title => unit_plan (PhaseRequest title)
  | FnLog message => unit_plan (LogRequest message)
  | FnTelemetry name fields =>
      match map_to_value fields with
      | inr e => PlLocal (inr (lit "invalid options map: " ++ e)) None
      | inl v => unit_plan (TelemetryRequest name v)
      end
  | FnComplete (Some d) => PlEnd (TkComplete (dynamic_to_value d))
  | FnComplete None => PlEnd (TkComplete VNull)
  | FnPause kind message =>
      match pause_kind_from_str kind with inl k => PlEnd (TkPause k message) | inr e => PlLocal (inr e) None end
  | FnAwaitUser kind message =>
      match pause_kind_from_str kind with
      | inr e => PlLocal (inr e) None
      | inl k => PlUser k message (request_hash (lit "await_user") (VObject [(lit "kind", VString kind); (lit "message", VString message)]))
      end
  | FnBudget => PlOne (lit "budget") VNull BudgetQuery
  | FnRenderTemplate name vars =>
      match map_to_value vars with
      | inr e => PlLocal (inr (lit "invalid options map: " ++ e)) None
      | inl v => PlOne (lit "render_template") (VObject [(lit "name", VString name); (lit "vars", v)]) (RenderTemplate name v)
      end
  | FnWriteScratch name content =>
      PlOne (lit "write_scratch_file") (VObject [(lit "name", VString name); (lit "content", VString content)]) (WriteScratchFile name content)
  | FnReadScratch name => PlOne (lit "read_scratch_file") (VObject [(lit "name", VString name)]) (ReadScratchFile name)
  | FnGitDiff commit => PlOne (lit "git_diff_since") (VObject [(lit "commit", VString commit)]) (GitDiffSince commit)
  end.

(** What a recorded value gives the script. *)
Definition given_of (v : Value) : Given Dynamic + rstr :=
  match replay_host_error v with
  | Some message => inr message
  | None => match value_to_dynamic v with inl d => inl (GivenValue d) | inr e => inr e end
  end.

(** No sentinel. *)
Definition plain (v : Value) : Prop := replay_host_error v = None ∧ is_host_terminal_sentinel v = false.

(** The entries of a block of agents. *)
Fixpoint agent_entries (n : Z) (requests : list (AgentOpts * rstr)) (vs : list Value) (ats : list Z) : list JournalEntry :=
  match requests, vs, ats with
  | (_, hash) :: requests, v :: vs, a :: ats => mkEntry n (lit "spawn_agent") hash v a :: agent_entries (n + 1) requests vs ats
  | _, _, _ => []
  end.

Lemma agent_entries_length n requests vs ats :
  length vs = length requests → length ats = length requests → zlen (agent_entries n requests vs ats) = zlen requests.
Proof.
  revert n vs ats. induction requests as [|[opts hash] requests IH]; intros n [|v vs] [|a ats]; try done. cbn [length agent_entries].
  intros [= Hv] [= Ha]. by rewrite !zlen_cons, IH.
Qed.

(** The entries that a call of plan [p] leaves from sequence number [n] on, when
    it gives [res]. *)
Inductive recorded (n : Z) : Plan → list JournalEntry → Given Dynamic + rstr → Prop :=
| rec_local res emit : recorded n (PlLocal res emit) [] res
| rec_spawn opts payload v at_ms :
    recorded n (PlSpawn opts payload) [mkEntry n (lit "spawn_agent") (request_hash (lit "spawn_agent") payload) v at_ms] (given_of v)
| rec_one kind payload req v at_ms :
    recorded n (PlOne kind payload req) [mkEntry n kind (request_hash kind payload) v at_ms] (given_of v)
| rec_many requests vs ats :
    length vs = length requests → length ats = length requests → Forall plain vs →
    recorded n (PlMany requests)
      (agent_entries n requests vs ats)
      (match dynamics ((λ v, (@None (Z * rstr), v)) <$> vs) with inl ds => inl (GivenArray ds) | inr e => inr e end)
| rec_user kind message hash v at_ms :
    recorded n (PlUser kind message hash) [mkEntry n (lit "await_user") hash v at_ms] (inl (GivenValue unit_dynamic)).

(** The requests that tell the host something and wait for nothing. *)
Definition emission (r : Request) : Prop :=
  match r with PhaseRequest _ _ | LogRequest _ _ | TelemetryRequest _ _ _ => True | _ => False end.
End Plans.

Section Emissions.
Context `{!Json, !Rhai}.
Lemma plan_emission f res e : plan_of f = PlLocal res (Some e) → ∀ b, emission (e b).
Proof.
  destruct f as [prompt [map|]|items|title|message|name fields|[d|]|kind message|kind message| |name vars|name content|name|commit];
    cbn [plan_of]; unfold spawn_plan, parallel_plan, unit_plan; repeat case_match; intros; simplify_eq; done.
Qed.
End Emissions.

(** * Calls on a journal *)

Section Calls.
Context `{!Json, !Storage, !Rhai, !Host}.

Notation Value := (Value Number).
Notation JournalEntry := (JournalEntry Number).
Notation Request := (Request Value).
Notation ScriptError := (ScriptError Value).

Definition result_of_call (res : Given Dynamic + rstr) : Given Dynamic + ScriptError :=
  match res with inl g => inl g | inr message => inr (Caught message) end.

(** [run_plan]: what [call_fn] does, by its plan. *)
Definition run_plan (p : Plan) : St Run (Given Dynamic + ScriptError) :=
  match p with
  | PlLocal res emit => _ ← match emit with Some e => host_emit e | None => mret tt end; mret (result_of_call res)
  | PlEnd t => terminate t
  | PlSpawn opts payload => d ←? spawn_payload opts payload; mret (inl (GivenValue d))
  | PlOne kind payload req => text_call kind payload req
  | PlMany requests => ds ←? run_agents requests; mret (inl (GivenArray ds))
  | PlUser parsed message hash =>
      n ←? next_seq;
      replayed ← replay_at n (lit "await_user") hash;
      match replayed with
      | inl (Some _) => mret (inl (GivenValue unit_dynamic))
      | inl None => _ ←? record n (lit "await_user") hash VNull; terminate (TkPause parsed message)
      | inr error => journal_fatal error
      end
  end.

Lemma call_fn_plan f r : call_fn f r = run_plan (plan_of f) r.
Proof.
  destruct f as [prompt [map|]|items|title|message|name fields|[d|]|kind message|kind message| |name vars|name content|name|commit];
    cbn [call_fn plan_of]; unfold given_unit, unit_plan, await_user, runtime_error; try done.
  - destruct (agent_opts_from_map (Some prompt) map) as [opts|e]; [|done]. unfold spawn_agent_call, spawn_plan.
    by destruct (opts_payload opts).
  - unfold spawn_agent_call, spawn_plan. by destruct (opts_payload (no_opts prompt)).
  - unfold parallel, parallel_plan. destruct (MAX_PARALLEL <? zlen items); [done|]. destruct (parallel_opts items) as [opts|e]; [|done].
    by destruct (parallel_requests opts).
  - by destruct (map_to_value fields).
  - by destruct (pause_kind_from_str kind).
  - by destruct (pause_kind_from_str kind).
  - by destruct (map_to_value vars).
Qed.

(** ** Replaying *)

(** [n] sequence numbers further, with [em] sent. *)
Definition ahead (n : Z) (em : list Request) (r : Run) : Run :=
  r <| seq := seq r + n |> <| sent := sent r ++ em |>.

Lemma ahead_0 r : ahead 0 [] r = r.
Proof. destruct r. unfold ahead. cbn. by rewrite Z.add_0_r, app_nil_r. Qed.

Lemma ahead_ahead n m em em' r : ahead n em (ahead m em' r) = ahead (m + n) (em' ++ em) r.
Proof. destruct r. unfold ahead. cbn. by rewrite Z.add_assoc, app_assoc. Qed.

Lemma replay_hit j before n kind hash v at_ms rest :
  entries j = before ++ mkEntry n kind hash v at_ms :: rest → n = zlen before →
  replay j (zlen before) kind hash = inl (Some v).
Proof.
  intros He ->. unfold replay, journal_get. rewrite (proj2 (Z.ltb_ge _ _)) by apply zlen_nonneg.
  unfold zlen at 1. rewrite Nat2Z.id, He, list_lookup_middle by done. cbn [je_seq je_kind je_req_hash je_result].
  by rewrite Z.eqb_refl, !bool_decide_eq_false_2 by naive_solver.
Qed.

Lemma replay_miss j kind hash : replay j (zlen (entries j)) kind hash = inl None.
Proof.
  unfold replay, journal_get. rewrite (proj2 (Z.ltb_ge _ _)) by apply zlen_nonneg.
  unfold zlen. by rewrite Nat2Z.id, lookup_ge_None_2 by done.
Qed.

Lemma next_seq_ok r : 0 ≤ seq r → seq r + 1 ≤ MAX_HOST_CALLS → next_seq r = (inl (seq r), ahead 1 [] r).
Proof.
  intros Hpos Hr. unfold next_seq, reserve_seqs, ahead. unfold MAX_HOST_CALLS in *.
  rewrite (proj2 (Z.ltb_ge (umax 64) _)) by (unfold umax; lia). rewrite (proj2 (Z.ltb_ge 10000 _)) by lia.
  destruct r. cbn. by rewrite app_nil_r.
Qed.

(** A call that takes one answer finds it. *)
Lemma host_call_replay kind payload req to_result r before v at_ms rest :
  entries (journal r) = before ++ mkEntry (zlen before) kind (request_hash kind payload) v at_ms :: rest →
  seq r = zlen before → zlen before + 1 ≤ MAX_HOST_CALLS →
  host_call kind payload req to_result r =
    (match replay_host_error v with Some m => inr (Caught m) | None => inl v end, ahead 1 [] r).
Proof.
  intros He Hs Hn. unfold host_call, try_bind at 1. rewrite next_seq_ok by (rewrite Hs; auto using zlen_nonneg with lia).
  unfold mbind at 1, St_bind at 1, replay_at. rewrite Hs.
  rewrite (replay_hit _ before (zlen before) kind _ v at_ms rest) by (by destruct r). by destruct (replay_host_error v).
Qed.

Lemma live_count_replay j requests before vs ats rest live :
  length vs = length requests → length ats = length requests → zlen before + zlen requests ≤ MAX_HOST_CALLS →
  entries j = before ++ agent_entries (zlen before) requests vs ats ++ rest →
  live_count_from j (zlen before) requests live = inl live.
Proof.
  revert before vs ats. induction requests as [|[opts hash] requests IH]; intros before vs ats Hv Ha Hn He; [done|].
  destruct vs as [|v vs]; [done|]. destruct ats as [|a ats]; [done|]. simpl in Hv, Ha. rewrite zlen_cons in Hn.
  cbn [agent_entries app] in He. cbn [live_count_from].
  rewrite (replay_hit j before (zlen before) _ hash v a _ He eq_refl).
  pose proof (zlen_nonneg requests). rewrite (proj2 (Z.ltb_ge _ _)) by (unfold umax, MAX_HOST_CALLS in *; lia).
  set (e := mkEntry _ _ _ _ _) in He.
  replace (zlen before + 1) with (zlen (before ++ [e])) by (autorewrite with rust; lia).
  apply (IH (before ++ [e]) vs ats); [lia|lia|autorewrite with rust; lia|].
  rewrite He, <- app_assoc. cbn [app]. by replace (zlen (before ++ [e])) with (zlen before + 1) by (autorewrite with rust; lia).
Qed.

Lemma start_agents_replay r requests before vs ats rest pending :
  length vs = length requests → length ats = length requests → zlen before + zlen requests ≤ MAX_HOST_CALLS →
  entries (journal r) = before ++ agent_entries (zlen before) requests vs ats ++ rest →
  seq r = zlen before →
  start_agents requests pending r = (inl (pending ++ (PaReplayed <$> vs)), ahead (zlen requests) [] r).
Proof.
  revert r before vs ats pending. induction requests as [|[opts hash] requests IH]; intros r before vs ats pending Hv Ha Hn He Hs.
  { destruct vs; [|done]. cbn. by rewrite app_nil_r, ahead_0. }
  destruct vs as [|v vs]; [done|]. destruct ats as [|a ats]; [done|]. simpl in Hv, Ha. rewrite zlen_cons in Hn.
  cbn [agent_entries app] in He. cbn [start_agents]. pose proof (zlen_nonneg requests). unfold try_bind at 1.
  rewrite next_seq_ok by (rewrite Hs; auto using zlen_nonneg with lia).
  unfold mbind at 1, St_bind at 1, replay_at. rewrite Hs.
  set (e := mkEntry (zlen before) (lit "spawn_agent") hash v a) in *.
  erewrite (replay_hit (journal (ahead 1 [] r)) before (zlen before) _ hash v a); [|destruct r; exact He|done].
  rewrite (IH (ahead 1 [] r) (before ++ [e]) vs ats (pending ++ [PaReplayed v])); [|lia|lia|autorewrite with rust; lia| |].
  - rewrite ahead_ahead. rewrite <- app_assoc. cbn [app fmap list_fmap]. do 2 f_equal. rewrite zlen_cons. lia.
  - destruct r. cbn in *. rewrite He, <- app_assoc. cbn [app]. by replace (zlen (before ++ [e])) with (zlen before + 1) by (autorewrite with rust; lia).
  - destruct r. cbn in *. autorewrite with rust. lia.
Qed.

Lemma resolve_replay vs acc r :
  Forall plain vs →
  resolve_all (PaReplayed <$> vs) acc r = (acc <| rs_values := rs_values acc ++ ((λ v, (None, v)) <$> vs) |>, r).
Proof.
  intros Hvs. revert acc. induction Hvs as [|v vs [He Ht] _ IH]; intros acc; cbn [fmap list_fmap resolve_all].
  - destruct acc. cbn. by rewrite app_nil_r.
  - rewrite IH. unfold resolve_replayed. rewrite Ht, He. destruct acc. cbn. by rewrite <- app_assoc.
Qed.

Lemma record_all_replayed vs r : record_all ((λ v, (None, v)) <$> vs) r = (inl tt, r).
Proof. induction vs as [|v vs IH]; [done|]. apply IH. Qed.

(** A call whose answers are in the journal is given them, and asks for nothing. *)
Lemma replay_call p before N rest res r :
  (∀ res' e, p = PlLocal res' (Some e) → ∀ b, emission (e b)) →
  recorded (zlen before) p N res → entries (journal r) = before ++ N ++ rest → seq r = zlen before →
  zlen (before ++ N) ≤ MAX_HOST_CALLS →
  ∃ em, run_plan p r = (result_of_call res, ahead (zlen N) em r) ∧ Forall emission em.
Proof.
  intros Hem Hrec He Hs Hn. destruct Hrec as [res emit|opts payload v at_ms|kind payload req v at_ms|requests vs ats Hv Ha Hplain|kind message hash v at_ms];
    cbn [run_plan].
  - destruct emit as [emit|]; unfold mbind, St_bind, mret, St_ret; [|exists []; by rewrite ahead_0].
    unfold host_emit. destruct (host_gone (sent r)); [exists []; by rewrite ahead_0|].
    exists [emit (covers (journal r) (seq r))]. split; [|constructor; [by eapply Hem|done]].
    unfold ahead. destruct r. cbn. by rewrite Z.add_0_r.
  - exists []. autorewrite with rust in Hn. cbn [app] in He. unfold try_bind at 1, spawn_payload. unfold mbind at 1, St_bind at 1.
    rewrite Hs, (replay_hit _ _ _ _ _ _ _ _ He eq_refl). cbn [is_some_and negb]. unfold try_bind at 1, mret at 1, St_ret at 1.
    unfold mbind at 1, St_bind at 1. rewrite (host_call_replay _ _ _ _ _ _ _ _ _ He Hs) by lia.
    unfold given_of. destruct (replay_host_error v); cbn; [done|]. by destruct (value_to_dynamic v).
  - exists []. autorewrite with rust in Hn. cbn [app] in He. unfold text_call, try_bind.
    rewrite (host_call_replay _ _ _ _ _ _ _ _ _ He Hs) by lia.
    unfold given_of. destruct (replay_host_error v); cbn; [done|]. by destruct (value_to_dynamic v).
  - exists []. split; [|done]. rewrite zlen_app, agent_entries_length in Hn by done.
    unfold try_bind at 1, run_agents. unfold mbind at 1, St_bind at 1. rewrite Hs, (live_count_replay _ _ _ _ _ _ _ Hv Ha Hn He).
    unfold try_bind at 1. cbn [reserve_agent_calls Z.eqb]. unfold try_bind at 1, mret at 1, St_ret at 1.
    rewrite (start_agents_replay r requests before vs ats rest [] Hv Ha Hn He Hs). cbn [app].
    unfold mbind at 1, St_bind at 1. rewrite resolve_replay by done. cbn [rs_resumable rs_values app].
    unfold mbind at 1, St_bind at 1. cbn. rewrite record_all_replayed.
    rewrite agent_entries_length by done.
    by destruct (dynamics _).
  - exists []. autorewrite with rust in Hn. cbn [app] in He. unfold try_bind at 1. rewrite next_seq_ok by (rewrite Hs; auto using zlen_nonneg with lia).
    unfold mbind at 1, St_bind at 1, replay_at. rewrite Hs.
    rewrite (replay_hit (journal (ahead 1 [] r)) before (zlen before) _ hash v at_ms rest); [done|by destruct r|done].
Qed.
End Calls.

(** * A run writes what it can replay *)

Section Live.
Context `{!Json, !Storage, !Rhai, !Host}.

Notation Value := (Value Number).
Notation JournalEntry := (JournalEntry Number).
Notation Request := (Request Value).
Notation ScriptError := (ScriptError Value).

(** The host reports a quota only when calls are reserved, and fails a reservation
    for no other reason: the two errors that a script can catch and that no journal
    holds do not occur. *)
Definition candid : Prop := ∀ log n,
  match log !! n, answer log n with
  | Some (ReserveAgentCalls _), Some (inr (HostUnsupported _ | HostFailed _)) => False
  | Some (ReserveAgentCalls _), _ => True
  | Some _, Some (inr (AgentCallQuotaExceeded _ _)) => False
  | _, _ => True
  end.

Definition es (r : Run) : list JournalEntry := entries (journal r).

(** A terminal that is not of the script's making. *)
Definition broken_off (t : ControlToken Value) : Prop := match t with TkComplete _ | TkPause _ _ => False | _ => True end.

Lemma request_spec req r res r' :
  request req r = (res, r') →
  journal r' = journal r ∧ seq r' = seq r ∧
  match res with
  | inl reply => ∃ log n, log !! n = Some req ∧ answer log n = Some reply
  | inr e => ∃ t, e = Terminated t ∧ broken_off t
  end.
Proof.
  unfold request, send, try_bind. destruct (host_gone (sent r)); [intros [= <- <-]; split_and!; [done|done|by eexists]|].
  unfold mbind, St_bind, await_reply. cbn. destruct (answer _ _) as [reply|] eqn:Ha; intros [= <- <-]; cbn; (split; [done|]; split; [done|]).
  - eexists _, _. split; [|exact Ha]. by rewrite lookup_app_r, Nat.sub_diag by done.
  - by eexists.
Qed.

Lemma record_spec n kind hash v r res r' :
  record n kind hash v r = (res, r') →
  seq r' = seq r ∧
  match res with
  | inl _ => n = zlen (es r) ∧ ∃ at_ms, es r' = es r ++ [mkEntry n kind hash v at_ms]
  | inr e => es r' = es r ∧ ∃ t, e = Terminated t ∧ broken_off t
  end.
Proof.
  unfold record, journal_record, validate_sequence, es. cbn [je_seq].
  destruct (Z.eqb_spec n (zlen (entries (journal r)))) as [Hn|]; [|intros [= <- <-]; split_and!; [done|done|by eexists]].
  destruct (entry_line _) as [line|text]; [|intros [= <- <-]; split_and!; [done|done|by eexists]].
  destruct (MAX_JOURNAL_BYTES <? _); [intros [= <- <-]; split_and!; [done|done|by eexists]|].
  unfold mbind, St_bind. destruct (path (journal r)) as [p|].
  - unfold map_io, mbind, St_bind, mret, St_ret. destruct (append_line _ _) as [[[]|text] s]; intros [= <- <-]; (split_and!; [done|done|by eexists]).
  - unfold mret, St_ret. intros [= <- <-]. split_and!; [done|done|by eexists].
Qed.

Lemma plain_agent a : plain (agent_value a).
Proof. by split. Qed.

Lemma plain_reply reply : plain (value_of_reply reply).
Proof. by destruct reply. Qed.

Lemma sentinel_message m : replay_host_error (host_error_sentinel m) = Some m.
Proof. done. Qed.

(** One entry, which gives what was given; or the end of the run. *)
Definition one_entry (kind : rstr) (payload : Value) (r : Run) (res : Value + ScriptError) (r' : Run) : Prop :=
  match res with
  | inr (Terminated t) => es r' = es r ∧ broken_off t
  | _ => ∃ v at_ms, es r' = es r ++ [mkEntry (zlen (es r)) kind (request_hash kind payload) v at_ms] ∧ seq r' = seq r + 1 ∧
           res = match replay_host_error v with Some m => inr (Caught m) | None => inl v end
  end.

(** A call of the host on a journal that ends here. *)
Lemma host_call_live kind payload req r res r' :
  candid → (∀ n, req ≠ ReserveAgentCalls n) → seq r = zlen (es r) →
  host_call kind payload req value_of_reply r = (res, r') → one_entry kind payload r res r'.
Proof.
  intros Hcandid Hreq Hs. unfold host_call, try_bind at 1, next_seq, reserve_seqs.
  destruct (umax 64 <? seq r + 1); [by intros [= <- <-]|]. destruct (MAX_HOST_CALLS <? seq r + 1); [by intros [= <- <-]|].
  unfold mbind at 1, St_bind at 1, replay_at. change (journal (_ : Run)) with (journal r) at 1. rewrite Hs. unfold es at 1. rewrite replay_miss.
  unfold try_bind at 1. destruct (request req _) as [reply r1] eqn:Hrq. apply request_spec in Hrq as (Hj & Hq & Hrep). cbn in Hj, Hq.
  destruct reply as [reply|e]; [|destruct Hrep as (t & -> & Ht); intros [= <- <-]; split; [by unfold es; rewrite Hj|done]].
  assert (es r1 = es r) as Hes by (by unfold es; rewrite Hj).
  destruct Hrep as (log & n & Hlog & Hans).
  assert (∀ v (k : Value + ScriptError), (match replay_host_error v with Some m => inr (Caught m) | None => inl v end) = k →
    (_ ←? record (zlen (es r)) kind (request_hash kind payload) v; mret k) r1 = (res, r') → one_entry kind payload r res r') as Hrec.
  { intros v k Hk. unfold try_bind. destruct (record _ _ _ _ r1) as [u r2] eqn:Hr. apply record_spec in Hr as [Hq2 Hr].
    rewrite Hes in Hr. destruct u as [[]|e].
    - destruct Hr as (_ & at_ms & Hr). intros [= <- <-].
      destruct (replay_host_error v) as [m|] eqn:Hv; subst k; exists v, at_ms; rewrite Hv; (split; [done|]; split; [lia|done]).
    - destruct Hr as (Hr & t & -> & Ht). by intros [= <- <-]. }
  destruct reply as [rep|err].
  - intros Hrun. apply (Hrec (value_of_reply rep) (inl (value_of_reply rep))); [by destruct (plain_reply rep) as [-> _]|exact Hrun].
  - specialize (Hcandid log n). rewrite Hlog, Hans in Hcandid. destruct err as [q m| | |m|m].
    + destruct req; try done. by destruct (Hreq count).
    + by intros [= <- <-].
    + by intros [= <- <-].
    + intros Hrun. by apply (Hrec (host_error_sentinel m) (inr (Caught m))).
    + intros Hrun. by apply (Hrec (host_error_sentinel m) (inr (Caught m))).
Qed.

Lemma reserve_spec count r res r' :
  candid → reserve_agent_calls count r = (res, r') →
  journal r' = journal r ∧ seq r' = seq r ∧ match res with inl _ => True | inr e => ∃ t, e = Terminated t ∧ broken_off t end.
Proof.
  intros Hcandid. unfold reserve_agent_calls. destruct (count =? 0); [by intros [= <- <-]|].
  unfold try_bind. destruct (request _ r) as [reply r1] eqn:Hrq. apply request_spec in Hrq as (Hj & Hq & Hrep).
  destruct reply as [reply|e]; [|intros [= <- <-]; done]. destruct Hrep as (log & n & Hlog & Hans).
  specialize (Hcandid log n). rewrite Hlog, Hans in Hcandid. destruct reply as [rep|[q m| | |m|m]]; try done;
    intros [= <- <-]; (split; [done|]; split; [done|]); try done; by eexists.
Qed.

(** ** Blocks of agents *)

Lemma replay_beyond j n kind hash : zlen (entries j) ≤ n → replay j n kind hash = inl None.
Proof.
  intros Hn. unfold replay, journal_get. pose proof (zlen_nonneg (entries j)). rewrite (proj2 (Z.ltb_ge _ _)) by lia.
  rewrite lookup_ge_None_2; [done|]. unfold zlen in *. lia.
Qed.

Lemma live_count_live j requests n live :
  zlen (entries j) ≤ n →
  match live_count_from j n requests live with inl k => k = live + zlen requests | inr t => broken_off t end.
Proof.
  revert n live. induction requests as [|[opts hash] requests IH]; intros n live Hn; cbn [live_count_from]; [rewrite zlen_nil; lia|].
  rewrite replay_beyond by done. destruct (umax 64 <? n + 1); [done|]. specialize (IH (n + 1) (live + 1) ltac:(lia)).
  destruct (live_count_from _ _ _ _); [|done]. rewrite zlen_cons. lia.
Qed.

Fixpoint live_pending (n : Z) (requests : list (AgentOpts Value * rstr)) (ids : list nat) : list PendingAgent :=
  match requests, ids with
  | (_, hash) :: requests, i :: ids => PaLive n hash i :: live_pending (n + 1) requests ids
  | _, _ => []
  end.
Fixpoint live_values (n : Z) (requests : list (AgentOpts Value * rstr)) (vs : list Value) : list (option (Z * rstr) * Value) :=
  match requests, vs with
  | (_, hash) :: requests, v :: vs => (Some (n, hash), v) :: live_values (n + 1) requests vs
  | _, _ => []
  end.

Lemma start_agents_live requests pending r res r' :
  zlen (es r) ≤ seq r → start_agents requests pending r = (res, r') →
  journal r' = journal r ∧
  match res with
  | inl out => seq r' = seq r + zlen requests ∧ ∃ ids, length ids = length requests ∧ out = pending ++ live_pending (seq r) requests ids
  | inr e => ∃ t, e = Terminated t ∧ broken_off t
  end.
Proof.
  revert pending r. induction requests as [|[opts hash] requests IH]; intros pending r Hs; cbn [start_agents].
  { intros [= <- <-]. split; [done|]. rewrite zlen_nil, Z.add_0_r. split; [done|]. exists []. by rewrite app_nil_r. }
  unfold try_bind at 1, next_seq, reserve_seqs.
  destruct (umax 64 <? seq r + 1); [intros [= <- <-]; split; [done|by eexists]|].
  destruct (MAX_HOST_CALLS <? seq r + 1); [intros [= <- <-]; split; [done|by eexists]|].
  unfold mbind at 1, St_bind at 1, replay_at. change (journal (_ : Run)) with (journal r) at 1. rewrite replay_beyond by done.
  unfold try_bind at 1, send. change (sent (_ : Run)) with (sent r) at 1.
  destruct (host_gone (sent r)); [intros [= <- <-]; split; [done|by eexists]|].
  intros Hrun. apply IH in Hrun as [Hj Hres]; [|unfold es in *; cbn; lia]. split; [by rewrite Hj|].
  destruct res as [out|e]; [|done]. destruct Hres as (Hq & ids & Hl & ->). cbn in Hq. split; [rewrite zlen_cons; lia|].
  exists (length (sent r) :: ids). split; [simpl; by rewrite Hl|]. cbn [live_pending seq]. by rewrite <- app_assoc.
Qed.

Lemma resolve_live_spec n hash reply x :
  let x' := resolve_live n hash reply x in
  ∃ v, rs_values x' = rs_values x ++ [(Some (n, hash), v)] ∧ rs_error x' = rs_error x ∧
    (rs_terminal x' = None → rs_terminal x = None ∧ plain v) ∧
    (rs_resumable x' = true → rs_resumable x = true ∨ rs_terminal x' ≠ None) ∧ (rs_terminal x ≠ None → rs_terminal x' ≠ None).
Proof.
  destruct x as [vals term err resum]. unfold resolve_live, or_first. destruct reply as [[rep|[q m| | |m|m]]|]; cbn; eexists; (split; [done|]; split; [done|]).
  all: split_and!; try done; try (by left); try (by right).
  intros Ht. split; [done|]. apply plain_reply.
Qed.

Lemma resolve_all_live requests ids n x r :
  length ids = length requests →
  ∃ vs x', resolve_all (live_pending n requests ids) x r = (x', r) ∧ length vs = length requests ∧
    rs_values x' = rs_values x ++ live_values n requests vs ∧ rs_error x' = rs_error x ∧
    (rs_terminal x' = None → rs_terminal x = None ∧ Forall plain vs) ∧
    (rs_resumable x' = true → rs_resumable x = true ∨ rs_terminal x' ≠ None) ∧ (rs_terminal x ≠ None → rs_terminal x' ≠ None).
Proof.
  revert ids n x. induction requests as [|[opts hash] requests IH]; intros [|i ids] n x Hl; try done.
  { exists [], x. cbn. rewrite app_nil_r. split_and!; try done; by left. }
  cbn [live_pending resolve_all]. unfold mbind, St_bind, await_reply.
  destruct (resolve_live_spec n hash (answer (sent r) i) x) as (v & Hv & He & Ht & Hr & Hk).
  destruct (IH ids (n + 1) (resolve_live n hash (answer (sent r) i) x) ltac:(simpl in Hl; lia)) as (vs & x' & -> & Hlv & Hv' & He' & Ht' & Hr' & Hk').
  exists (v :: vs), x'. cbn [live_values]. split; [done|]. split; [simpl; by rewrite Hlv|]. split; [by rewrite Hv', Hv, <- app_assoc|].
  split; [congruence|]. split; [|split].
  - intros Hn. apply Ht' in Hn as [Hn Hvs]. apply Ht in Hn as [Hn Hpv]. split; [done|by constructor].
  - intros Hn. apply Hr' in Hn as [Hn|Hn]; [|by right]. apply Hr in Hn as [Hn|Hn]; [by left|right; by apply Hk'].
  - intros Hn. by apply Hk', Hk.
Qed.

Lemma record_all_live requests vs n r res r' :
  length vs = length requests → n = zlen (es r) → record_all (live_values n requests vs) r = (res, r') →
  seq r' = seq r ∧
  match res with
  | inl _ => ∃ ats, length ats = length requests ∧ es r' = es r ++ agent_entries n requests vs ats
  | inr e => (∃ t, e = Terminated t ∧ broken_off t) ∧ ∃ N, es r' = es r ++ N ∧ zlen N ≤ zlen requests
  end.
Proof.
  revert vs n r. induction requests as [|[opts hash] requests IH]; intros [|v vs] n r Hl ->; try done; cbn [live_values record_all].
  { intros [= <- <-]. split; [done|]. exists []. by rewrite app_nil_r. }
  unfold try_bind. destruct (record _ _ _ _ r) as [u r1] eqn:Hr. apply record_spec in Hr as [Hq Hr].
  pose proof (zlen_nonneg requests) as Hpos. rewrite zlen_cons.
  destruct u as [[]|e].
  2: { destruct Hr as [Hr Ht]. intros [= <- <-]. split; [done|]. split; [done|]. exists []. rewrite app_nil_r. split; [done|]. rewrite zlen_nil. lia. }
  destruct Hr as (_ & at_ms & Hr). intros Hrun. apply IH in Hrun as [Hq' Hres]; [|simpl in Hl; lia|rewrite Hr; autorewrite with rust; lia].
  split; [congruence|]. destruct res as [[]|e].
  - destruct Hres as (ats & Hla & Hes). exists (at_ms :: ats). split; [simpl; by rewrite Hla|]. rewrite Hes, Hr. cbn [agent_entries]. by rewrite <- app_assoc.
  - destruct Hres as (Ht & N & Hes & HN). split; [done|]. eexists. rewrite Hes, Hr, <- app_assoc. split; [done|]. cbn [app]. rewrite zlen_cons. lia.
Qed.

Lemma dynamics_live n requests vs :
  length vs = length requests → dynamics (live_values n requests vs) = dynamics ((λ v, (@None (Z * rstr), v)) <$> vs).
Proof.
  revert n vs. induction requests as [|[opts hash] requests IH]; intros n [|v vs] Hl; try done. cbn [live_values dynamics fmap list_fmap].
  simpl in Hl. by rewrite (IH (n + 1) vs) by lia.
Qed.

Lemma release_same count r : let r' := (release_agent_calls count r).2 in journal r' = journal r ∧ seq r' = seq r.
Proof. unfold release_agent_calls, send, mbind, St_bind. destruct (count =? 0); [done|]. by destruct (host_gone (sent r)). Qed.

Lemma terminal_broken_off kind : broken_off (host_terminal_error kind).
Proof. unfold host_terminal_error. by repeat case_bool_decide. Qed.

(** What a call on a journal that ends here does: the entries that give what it
    gave; or it ends the run. *)
Definition live_spec (p : Plan) (r : Run) (res : Given Dynamic + ScriptError) (r' : Run) : Prop :=
  match res with
  | inr (Terminated t) =>
      (es r' = es r ∧ (broken_off t ∨ p = PlEnd t)) ∨
      (∃ requests N, p = PlMany requests ∧ es r' = es r ++ N ∧ zlen N ≤ zlen requests ∧ broken_off t) ∨
      (∃ k m h N, p = PlUser k m h ∧ es r' = es r ++ N ∧ recorded (zlen (es r)) p N (inl (GivenValue unit_dynamic)) ∧ t = TkPause k m)
  | inr (Caught m) => ∃ N, es r' = es r ++ N ∧ seq r' = seq r + zlen N ∧ recorded (zlen (es r)) p N (inr m)
  | inl g => ∃ N, es r' = es r ++ N ∧ seq r' = seq r + zlen N ∧ recorded (zlen (es r)) p N (inl g)
  end.

Lemma live_given p r res r' N :
  es r' = es r ++ N → seq r' = seq r + zlen N → recorded (zlen (es r)) p N res → live_spec p r (result_of_call res) r'.
Proof. intros He Hs Hr. destruct res; cbn; eauto. Qed.

Lemma one_entry_given kind payload r value r' (Hone : one_entry kind payload r value r') p :
  (∀ v at_ms, recorded (zlen (es r)) p [mkEntry (zlen (es r)) kind (request_hash kind payload) v at_ms] (given_of v)) →
  match value with
  | inr (Terminated t) => es r' = es r ∧ broken_off t
  | inr (Caught m) => live_spec p r (inr (Caught m)) r'
  | inl v => live_spec p r (match value_to_dynamic v with inl d => inl (GivenValue d) | inr e => inr (Caught e) end) r'
  end.
Proof.
  intros Hrec. destruct value as [v|[m|t]]; cbn in Hone; [| |done]; destruct Hone as (v' & at_ms & He & Hs & Heq).
  - specialize (Hrec v' at_ms). unfold given_of in Hrec. destruct (replay_host_error v'); [done|]. simplify_eq.
    destruct (value_to_dynamic v') as [d|e]; [apply (live_given _ _ (inl _) _ _ He Hs Hrec)|apply (live_given _ _ (inr _) _ _ He Hs Hrec)].
  - specialize (Hrec v' at_ms). unfold given_of in Hrec. destruct (replay_host_error v'); [|done]. simplify_eq.
    apply (live_given _ _ (inr _) _ _ He Hs Hrec).
Qed.

Lemma live_spawn opts payload r res r' :
  candid → seq r = zlen (es r) → run_plan (PlSpawn opts payload) r = (res, r') → live_spec (PlSpawn opts payload) r res r'.
Proof.
  intros Hcandid Hs. cbn [run_plan]. unfold try_bind at 1, spawn_payload. unfold mbind at 1, St_bind at 1. rewrite Hs. unfold es at 1. rewrite replay_miss.
  cbn [is_some_and negb andb]. unfold try_bind at 1. destruct (reserve_agent_calls 1 r) as [u r1] eqn:Hres.
  apply reserve_spec in Hres as (Hj & Hq & Hres); [|done]. assert (es r1 = es r) as He1 by (by unfold es; rewrite Hj).
  destruct u as [[]|e]; [|destruct Hres as (t & -> & Ht); intros [= <- <-]; left; by rewrite He1; auto].
  unfold mbind at 1, St_bind at 1. destruct (host_call _ _ _ _ r1) as [value r2] eqn:Hcall.
  apply host_call_live in Hcall; [|done|done|congruence].
  pose proof (one_entry_given _ _ _ _ _ Hcall (PlSpawn opts payload) (λ v a, rec_spawn _ _ _ _ _)) as Hone.
  unfold live_spec in *. rewrite He1, Hq in Hone.
  destruct value as [v|[m|t]].
  - destruct (value_to_dynamic v); intros [= <- <-]; exact Hone.
  - unfold is_resumable_unjournaled_terminal. unfold mbind, St_bind. intros [= <- <-]. exact Hone.
  - destruct Hone as [He Ht].
    assert (∀ r3, journal r3 = journal r2 → es r3 = es r) as H3 by (intros r3 Hj3; unfold es in *; by rewrite Hj3).
    unfold mbind, St_bind. destruct (is_resumable_unjournaled_terminal (Terminated t)).
    + pose proof (release_same 1 r2) as [Hj3 _]. destruct (release_agent_calls 1 r2) as [[] r3]. intros [= <- <-]. left. split; [by apply H3|by left].
    + intros [= <- <-]. left. split; [by apply H3|by left].
Qed.

Lemma live_one kind payload req r res r' :
  candid → (∀ n, req ≠ ReserveAgentCalls n) → seq r = zlen (es r) → run_plan (PlOne kind payload req) r = (res, r') →
  live_spec (PlOne kind payload req) r res r'.
Proof.
  intros Hcandid Hreq Hs. cbn [run_plan]. unfold text_call, try_bind. destruct (host_call _ _ _ _ r) as [value r1] eqn:Hcall.
  apply host_call_live in Hcall; [|done..].
  pose proof (one_entry_given _ _ _ _ _ Hcall (PlOne kind payload req) (λ v a, rec_one _ _ _ _ _ _)) as Hone.
  destruct value as [v|[m|t]].
  - destruct (value_to_dynamic v); intros [= <- <-]; exact Hone.
  - intros [= <- <-]. exact Hone.
  - intros [= <- <-]. left. destruct Hone. auto.
Qed.

Lemma live_many requests r res r' :
  candid → seq r = zlen (es r) → run_plan (PlMany requests) r = (res, r') → live_spec (PlMany requests) r res r'.
Proof.
  intros Hcandid Hs. cbn [run_plan]. unfold try_bind at 1, run_agents. unfold mbind at 1, St_bind at 1.
  pose proof (live_count_live (journal r) requests (seq r) 0 ltac:(unfold es in Hs; lia)) as Hlive.
  destruct (live_count_from _ _ _ _) as [count|t]; [|intros [= <- <-]; left; auto].
  unfold try_bind at 1. destruct (reserve_agent_calls count r) as [u r1] eqn:Hres.
  apply reserve_spec in Hres as (Hj & Hq & Hres); [|done]. assert (es r1 = es r) as He1 by (by unfold es; rewrite Hj).
  destruct u as [[]|e]; [|destruct Hres as (t & -> & Ht); intros [= <- <-]; left; by rewrite He1; auto].
  unfold try_bind at 1. destruct (start_agents requests [] r1) as [pend r2] eqn:Hst.
  apply start_agents_live in Hst as [Hj2 Hst]; [|rewrite He1, Hq; lia]. assert (es r2 = es r) as He2 by (unfold es in *; congruence).
  destruct pend as [pend|e]; [|destruct Hst as (t & -> & Ht); intros [= <- <-]; left; by rewrite He2; auto].
  destruct Hst as (Hq2 & ids & Hids & ->). cbn [app]. rewrite Hq, Hs in *.
  unfold mbind at 1, St_bind at 1.
  destruct (resolve_all_live requests ids (zlen (es r)) (mkResolved [] None None false) r2 Hids) as (vs & x & -> & Hlv & Hvals & Herr & Hterm & Hres' & _).
  cbn in Hvals, Herr, Hterm, Hres'. unfold mbind at 1, St_bind at 1.
  destruct (rs_resumable x) eqn:Hresum.
  - destruct (rs_terminal x) as [kind|] eqn:Hk; [|by destruct (Hres' eq_refl)].
    unfold mbind, St_bind. pose proof (release_same count r2) as [Hj3 _]. destruct (release_agent_calls count r2) as [[] r3]. cbn.
    intros [= <- <-]. left. split; [unfold es in *; cbn in Hj3; congruence|left; apply terminal_broken_off].
  - destruct (record_all (rs_values x) r2) as [recd r3] eqn:Hrec. rewrite Hvals in Hrec.
    apply record_all_live in Hrec as [Hq3 Hrec]; [|done|by rewrite He2].
    destruct recd as [[]|e].
    + destruct Hrec as (ats & Hats & He3). rewrite Herr. rewrite He2 in He3.
      pose proof (agent_entries_length (zlen (es r)) requests vs ats Hlv Hats) as Hlen.
      destruct (rs_terminal x) as [kind|] eqn:Hk.
      * intros [= <- <-]. right. left. eexists _, _. split; [done|]. split; [exact He3|]. split; [lia|apply terminal_broken_off].
      * destruct (Hterm eq_refl) as [_ Hplain]. rewrite Hvals, dynamics_live by done.
        pose proof (rec_many (zlen (es r)) requests vs ats Hlv Hats Hplain) as Hrm.
        destruct (dynamics _) as [ds|e]; intros [= <- <-]; eexists; (split; [exact He3|split; [lia|exact Hrm]]).
    + destruct Hrec as [(t & -> & Ht) (N & He3 & HN)]. rewrite He2 in He3. rewrite Herr. cbn [or_first default].
      destruct (rs_terminal x) as [kind|]; intros [= <- <-]; right; left; eexists _, _; (split; [done|]; split; [exact He3|]; split; [lia|]);
        [apply terminal_broken_off|done].
Qed.

Lemma live_user k m h r res r' :
  seq r = zlen (es r) → run_plan (PlUser k m h) r = (res, r') → live_spec (PlUser k m h) r res r'.
Proof.
  intros Hs. cbn [run_plan]. unfold try_bind at 1, next_seq, reserve_seqs.
  destruct (umax 64 <? seq r + 1); [intros [= <- <-]; left; by split; [|left]|].
  destruct (MAX_HOST_CALLS <? seq r + 1); [intros [= <- <-]; left; by split; [|left]|].
  unfold mbind at 1, St_bind at 1, replay_at. change (journal (_ : Run)) with (journal r) at 1. rewrite Hs. unfold es at 1. rewrite replay_miss.
  unfold try_bind. destruct (record _ _ _ _ _) as [u r1] eqn:Hr. apply record_spec in Hr as [Hq Hr].
  change (es (_ <| seq := _ |>)) with (es r) in Hr. destruct u as [[]|e].
  - destruct Hr as (_ & at_ms & Hr). intros [= <- <-]. right. right. eexists k, m, h, _. split; [done|]. split; [exact Hr|]. split; [constructor|done].
  - destruct Hr as (Hr & t & -> & Ht). intros [= <- <-]. left. auto.
Qed.

(** Every call, on a journal that ends here. *)
Lemma live_call f r res r' :
  candid → seq r = zlen (es r) → call_fn f r = (res, r') → live_spec (plan_of f) r res r'.
Proof.
  intros Hcandid Hs. rewrite call_fn_plan. destruct (plan_of f) as [lres emit|t|opts payload|kind payload req|requests|k m h] eqn:Hp.
  - cbn [run_plan]. unfold mbind, St_bind, mret, St_ret. intros Hrun.
    assert (es r' = es r ∧ seq r' = seq r ∧ res = result_of_call lres) as (He & Hq & ->).
    { destruct emit as [emit|]; [|by simplify_eq/=]. unfold host_emit in Hrun. by destruct (host_gone (sent r)); simplify_eq/=. }
    apply (live_given _ _ _ _ []); [by rewrite app_nil_r|rewrite zlen_nil; lia|constructor].
  - cbn [run_plan]. intros [= <- <-]. left. auto.
  - by apply live_spawn.
  - apply live_one; [done| |done]. intros n ->.
    destruct f as [prompt [map|]|items|title|message|name fields|[d|]|kind' message|kind' message| |name vars|name content|name|commit];
      cbn [plan_of] in Hp; unfold spawn_plan, parallel_plan, unit_plan in Hp; repeat case_match; simplify_eq.
  - by apply live_many.
  - by apply live_user.
Qed.
End Live.

(** * Resuming *)

Section Points.
Context `{!Json, !Storage, !Rhai, !Host}.

Definition tick (r : Run) : Run := r <| steps := S (steps r) |>.

Lemma es_tick r : es (tick r) = es r.
Proof. done. Qed.
Lemma seq_tick r : seq (tick r) = seq r.
Proof. done. Qed.

(** The run of a script from [r] comes to [s'] in [r']: by calls that gave a value
    or an error, and at the end perhaps by a pause for the user, behind which the
    resumed run goes on. *)
Inductive comes_to : Script Dynamic → Run → Script Dynamic → Run → Prop :=
| ct_here s r : comes_to s r s r
| ct_call f k r res r1 s' r' :
    cancelled (steps r) = false → call_fn f (tick r) = (result_of_call res, r1) →
    comes_to (k (match res with inl g => g | inr m => GivenError m end)) r1 s' r' → comes_to (Call f k) r s' r'
| ct_user f k kind message r r1 :
    cancelled (steps r) = false → call_fn f (tick r) = (inr (Terminated (TkPause kind message)), r1) →
    comes_to (Call f k) r (k (GivenValue unit_dynamic)) r1.

Lemma eval_call f k r res r1 :
  cancelled (steps r) = false → call_fn f (tick r) = (result_of_call res, r1) →
  eval (Call f k) r = eval (k (match res with inl g => g | inr m => GivenError m end)) r1.
Proof. intros Hc Hf. cbn [eval]. rewrite Hc. fold (tick r). rewrite Hf. by destruct res. Qed.

(** A live run only adds to its journal. *)
Lemma eval_grows s r o f :
  candid → seq r = zlen (es r) → eval s r = (o, f) → es r `prefix_of` es f.
Proof.
  intros Hcandid. revert r. induction s as [d|m|fn k IH]; intros r Hs; cbn [eval]; fold (tick r);
    (destruct (cancelled (steps r)); [by intros [= <- <-]|]); [by intros [= <- <-]..|].
  destruct (call_fn fn (tick r)) as [res r1] eqn:Hf. apply live_call in Hf; [|done|done].
  destruct res as [g|[m|t]]; cbn in Hf.
  - destruct Hf as (N & He & Hq & _). intros Hrun. apply IH in Hrun; [|rewrite He, zlen_app, Hq, ?es_tick, ?seq_tick; lia].
    etrans; [|exact Hrun]. rewrite He, ?es_tick. by apply prefix_app_r.
  - destruct Hf as (N & He & Hq & _). intros Hrun. apply IH in Hrun; [|rewrite He, zlen_app, Hq, ?es_tick, ?seq_tick; lia].
    etrans; [|exact Hrun]. rewrite He, ?es_tick. by apply prefix_app_r.
  - intros [= <- <-]. destruct Hf as [[He _]|[(q & N & _ & He & _)|(kd & m & h & N & _ & He & _)]]; rewrite He, ?es_tick; [done|by apply prefix_app_r..].
Qed.

Lemma parallel_requests_length items requests :
  plan_of (FnParallel items) = PlMany requests → zlen requests = zlen items.
Proof.
  cbn [plan_of]. unfold parallel_plan. destruct (MAX_PARALLEL <? zlen items); [done|].
  destruct (parallel_opts items) as [opts|] eqn:Ho; [|done]. destruct (parallel_requests opts) as [reqs|] eqn:Hr; [|done]. intros [= <-].
  assert (length opts = length items) as Hl1.
  { clear Hr. revert opts Ho. unfold parallel_opts. induction items as [|item items IH]; intros opts; cbn [foldr]; [by intros [= <-]|].
    destruct (negb (is_map item)); [done|]. destruct (agent_opts_from_map None item); [|done].
    destruct (foldr _ _ items) as [l|]; [|done]. intros [= <-]. simpl. by rewrite (IH l). }
  assert (length reqs = length opts) as Hl2.
  { clear Ho Hl1. revert reqs Hr. unfold parallel_requests. induction opts as [|o opts IH]; intros reqs; cbn [foldr]; [by intros [= <-]|].
    destruct (opts_payload o); [|done]. destruct (foldr _ _ opts) as [l|]; [|done]. intros [= <-]. simpl. by rewrite (IH l). }
  unfold zlen. congruence.
Qed.

Lemma many_is_parallel f requests : plan_of f = PlMany requests → ∃ items, f = FnParallel items ∧ zlen requests = zlen items.
Proof.
  intros Hp. destruct f as [prompt [map|]|items|title|message|name fields|[d|]|kind message|kind message| |name vars|name content|name|commit];
    try (exfalso; revert Hp; cbn [plan_of]; unfold spawn_plan, unit_plan; repeat case_match; discriminate).
  exists items. split; [done|]. by apply parallel_requests_length.
Qed.

(** How many entries a call may leave behind one that it has left: none but in a
    block of agents. *)
Lemma recorded_part n f N res M :
  recorded n (plan_of f) N res → M `prefix_of` N → M ≠ N → M = [] ∨ ∃ items, f = FnParallel items ∧ zlen M ≤ zlen items.
Proof.
  intros Hrec Hpre Hne.
  assert ((length N ≤ 1)%nat ∨ ∃ requests, plan_of f = PlMany requests ∧ zlen N = zlen requests) as [HN|(requests & Hp & HN)].
  { destruct Hrec as [| | |requests vs ats Hv Ha _|]; simpl; auto with lia.
    right. exists requests. split; [done|]. by apply agent_entries_length. }
  - left. destruct Hpre as [Q ->]. rewrite length_app in HN. destruct M as [|e M]; [done|]. destruct Hne.
    destruct Q; [by rewrite app_nil_r|simpl in HN; lia].
  - right. destruct (many_is_parallel f requests Hp) as (items & -> & Hlen). exists items. split; [done|].
    rewrite <- Hlen, <- HN. destruct Hpre as [Q ->]. rewrite zlen_app. pose proof (zlen_nonneg Q). lia.
Qed.
End Points.
