(* ===== verification/WorkflowDemo.v ===== *)
(** Concrete parameters of the workflow model, for its examples: lines of JSON are
    the bits of an entry between braces, which has what is relied on of serde_json;
    dynamic values are JSON values; and a host that answers everything. *)
From stdpp Require Import countable.
From S2P Require Import Prelude Str WorkflowJournal WorkflowJournalThms WorkflowEngine.

(** * Entries as bits *)

Section Bits.
Notation Value := (Value Z).
Notation Tree := (gen_tree (bool + Z + rstr)).

Fixpoint value_tree (v : Value) : Tree :=
  match v with
  | VNull => GenNode 0 []
  | VBool b => GenLeaf (inl (inl b))
  | VNumber n => GenLeaf (inl (inr n))
  | VString s => GenLeaf (inr s)
  | VArray items => GenNode 1 (value_tree <$> items)
  | VObject entries => GenNode 2 ((λ e, GenNode 3 [GenLeaf (inr e.1); value_tree e.2]) <$> entries)
  end.

Fixpoint tree_value (t : Tree) : Value :=
  match t with
  | GenLeaf (inl (inl b)) => VBool b
  | GenLeaf (inl (inr n)) => VNumber n
  | GenLeaf (inr s) => VString s
  | GenNode 1 ts => VArray (tree_value <$> ts)
  | GenNode 2 ts => VObject ((λ t, match t with GenNode _ [GenLeaf (inr k); t] => (k, tree_value t) | _ => ([], VNull) end) <$> ts)
  | GenNode _ _ => VNull
  end.

Fixpoint tree_value_tree (v : Value) : tree_value (value_tree v) = v.
Proof.
  destruct v as [|b|n|s|items|entries]; [reflexivity..| |]; simpl; f_equal.
  - induction items as [|v items IH]; [done|]. rewrite !fmap_cons. by rewrite tree_value_tree, IH.
  - induction entries as [|[k v] entries IH]; [done|]. rewrite !fmap_cons. simpl. by rewrite tree_value_tree, IH.
Defined.

#[export] Instance Value_eq_dec : EqDecision Value.
Proof.
  intros a b. destruct (decide (value_tree a = value_tree b)) as [Heq|Hne]; [left|right; congruence].
  by rewrite <- (tree_value_tree a), Heq, tree_value_tree.
Defined.
#[export] Instance Value_countable : Countable Value := inj_countable' value_tree tree_value tree_value_tree.

#[export] Instance JournalEntry_eq_dec : EqDecision (JournalEntry Z).
Proof. solve_decision. Defined.
#[export, program] Instance JournalEntry_countable : Countable (JournalEntry Z) :=
  inj_countable' (λ e, (je_seq e, je_kind e, je_req_hash e, je_result e, je_at_ms e))
    (λ '(n, k, h, v, a), mkEntry n k h v a) _.
Next Obligation. by intros []. Qed.

Fixpoint bits (p : positive) : list Z :=
  match p with xH => [] | xO p => 48 :: bits p | xI p => 49 :: bits p end.

(** [None] behind anything but digits and the closing brace at the end. *)
Fixpoint read_bits (l : list Z) : option positive :=
  match l with
  | [c] => if c =? 125 then Some xH else None
  | c :: l => if c =? 48 then xO <$> read_bits l else if c =? 49 then xI <$> read_bits l else None
  | [] => None
  end.

Lemma read_bits_bits p : read_bits (bits p ++ [125]) = Some p.
Proof.
  induction p as [p IH|p IH|]; [| |done]; cbn [bits app read_bits]; destruct (bits p ++ [125]) eqn:Hb;
    try (by destruct (bits p)); cbn [Z.eqb Pos.eqb]; by rewrite IH.
Qed.

Lemma bits_digits p : Forall (λ c, c = 48 ∨ c = 49) (bits p).
Proof. induction p; cbn; auto. Qed.

Lemma read_bits_torn p a q : bits p = a ++ q → read_bits a = None.
Proof.
  revert p q. induction a as [|c a IH]; intros p q Hp; [done|].
  assert (c = 48 ∨ c = 49) as Hc. { pose proof (bits_digits p) as Hd. rewrite Hp in Hd. by inversion Hd. }
  assert (∃ p', bits p' = a ++ q) as [p' Hp']. { destruct p; cbn in Hp; simplify_eq; eauto. }
  specialize (IH _ _ Hp'). cbn [read_bits]. destruct a as [|d a]; [by destruct Hc; subst|]. rewrite IH. by destruct Hc; subst.
Qed.
End Bits.

#[export] Instance bits_json : Json := {|
  Number := Z;
  entry_line e := inl (123 :: bits (encode e) ++ [125]);
  read_entry l :=
    match l with
    | 123 :: l => match p ← read_bits l; decode p with Some e => inl e | None => inr (lit "no entry") end
    | _ => inr (lit "no entry")
    end;
  value_text v := bits (encode v);
  sha256 b := reverse b;
|}.

#[export, program] Instance bits_laws : JsonLaws := {| exact _ := True |}.
Next Obligation.
  intros e line _ [= <-]. cbn. by rewrite read_bits_bits; cbn; rewrite decode_encode.
Qed.
Next Obligation.
  intros e line [= <-]. split; [|done]. pose proof (bits_digits (encode e)) as Hd. rewrite Forall_forall in Hd.
  intros Hin. apply elem_of_cons in Hin as [|Hin]; [done|]. apply elem_of_app in Hin as [Hin|Hin].
  - by destruct (Hd _ Hin).
  - by apply list_elem_of_singleton in Hin.
Qed.
Next Obligation.
  intros e line p q [= <-] Hl Hq. exists (lit "no entry"). destruct p as [|c p]; [done|]. simpl in Hl. injection Hl as <- Hl.
  cbn [read_entry bits_json]. destruct q as [|x q _] using rev_ind; [done|]. rewrite app_assoc in Hl.
  apply app_inj_tail in Hl as [Hl _]. by rewrite (read_bits_torn _ _ _ Hl).
Qed.

(** * Scripts and hosts *)

(** A dynamic value is a JSON value; an option map names the prompt. *)
#[export] Instance value_rhai : Rhai := {|
  Dynamic := Value Z;
  unit_dynamic := VNull;
  to_dynamic := inl;
  from_dynamic := Some;
  map_to_value v := match v with VObject _ => inl v | _ => inr (lit "not a map") end;
  is_map v := match v with VObject _ => true | _ => false end;
  read_opts v :=
    inl (mkOpts _ (default [] (p ← value_get (lit "prompt") v; as_str p)) None None None None None false false None None None);
  opts_value o := inl (VObject [(lit "prompt", VString (ao_prompt o))]);
  number n := n;
|}.

(** A disk on which nothing fails. *)
#[export] Instance sound_disk : Storage := {| io_fails _ _ := None; regular := true; no_file := lit "no file" |}.

(** Every agent succeeds with [output]; a reservation is answered by [reserve]. *)
Definition demo_host (output : rstr) (reserve : Reply (Value Z) + HostError) (stop : nat → bool) : Host := {|
  answer log n :=
    match log !! n with
    | Some (ReserveAgentCalls _) => Some reserve
    | Some (SpawnAgent o) => Some (inl (ReplyAgent (mkAgentResult _ (lit "a" ++ fmt_dec (Z.of_nat n)) true (VString output) false 7 1)))
    | Some BudgetQuery => Some (inl (ReplyBudget (mkBudget None 7 0 None)))
    | Some _ => Some (inl (ReplyText output))
    | None => None
    end;
  host_gone _ := false;
  cancelled := stop;
  clock _ := 1000;
|}.

(** A phase, an agent, two agents at once, and the budget for a result. *)
Definition demo_script : Script (Value Z) :=
  Call (FnPhase (lit "scan")) (λ _,
  Call (FnAgent (lit "look around") None) (λ _,
  Call (FnParallel [VObject [(lit "prompt", VString (lit "left"))]; VObject [(lit "prompt", VString (lit "right"))]]) (λ _,
  Call FnBudget (λ given, match given with GivenValue v => Finish v | _ => Throw (lit "no budget") end)))).

(** An agent that cannot be started, which the script accepts; then a file. *)
Definition stubborn_script : Script (Value Z) :=
  Call (FnAgent (lit "look around") None) (λ _,
  Call (FnReadScratch (lit "notes.md")) (λ given, match given with GivenValue v => Finish v | _ => Throw (lit "no notes") end)).
