(* ===== verification/WorkflowReplay.v ===== *)
(** A journal survives a crash, wherever the crash cuts its file; and a workflow is
    run, broken off and resumed: the resumed run stands where the first one stood
    when it wrote the last entry of its journal. *)
From S2P Require Import Prelude Str Utf8 WorkflowJournal WorkflowJournalThms WorkflowEngine WorkflowResume WorkflowDemo.

(** * Crashes *)

Section Crash.
Context `{!Json, !JsonLaws, !Storage}.

(** C28: An entry that [record] acknowledged survives a crash, and nothing that was
    recorded before is ever lost, for an entry that its JSON gives back as it was
    and whose number is below the ten thousand that [load] reads.  (record itself
    accepts more, and load would refuse the file; the engine ends a run at that
    number of calls.)  However the append fails, and wherever a crash cuts what it
    wrote, a restart whose own calls succeed reads the file: the journal then
    holds the entries of before, or these and the new one, never a part of it; with
    the new one when [record] returned and its bytes are there.  The file is
    repaired, so that journal and file describe each other again and the run goes on
    from there; that includes the limit on the file's bytes, which record does
    check. *)
Theorem record_survives_crash (restart : Storage) j s now seq kind hash v p r j' s' c s0
    (Hp : path j = Some p) (Hj : describes j (default [] (file s)))
    (He : exact (mkEntry seq kind hash v now)) (Hseq : seq < MAX_JOURNAL_ENTRIES)
    (Hrun : journal_record now seq kind hash v j s = ((r, j'), s'))
    (Hbefore : default [] (file s) `prefix_of` c) (Hcut : c `prefix_of` default [] (file s'))
    (Hfile : default [] (file s0) = c) (Hio : @io_reliable restart) (Hreg : @regular restart = true) :
  ∃ jl s1,
    @journal_load _ restart p s0 = (inl jl, s1) ∧ path jl = Some p ∧ describes jl (default [] (file s1)) ∧
    (entries jl = entries j ∨ entries jl = entries j ++ [mkEntry seq kind hash v now]) ∧
    (r = inl tt → c = default [] (file s') → entries jl = entries j').
Proof.
  pose proof (journal_record_spec _ _ _ _ _ _ _ _ _ _ _ Hp Hj He Hseq Hrun) as Hspec.
  destruct Hj as [Hi Hd Hex Hn Hb Hsm Hls]. destruct Hbefore as [t ->].
  assert (Hsame : default [] (file s') = default [] (file s) → ∃ jl s1,
    @journal_load _ restart p s0 = (inl jl, s1) ∧ path jl = Some p ∧ describes jl (default [] (file s1)) ∧ entries jl = entries j).
  { intros Heq. rewrite Heq in Hcut. destruct Hcut as [q Hq]. rewrite <- app_assoc in Hq.
    apply (f_equal length) in Hq as Hq'. rewrite !length_app in Hq'. destruct t; [|simpl in Hq'; lia].
    rewrite app_nil_r in Hfile.
    by apply (@load_whole _ _ restart p (entries j) (default [] (file s)) s0). }
  assert (Hpart : ∀ line, seq = zlen (entries j) → entry_line (mkEntry seq kind hash v now) = inl line →
    zlen (default [] (file s) ++ line ++ [10]) ≤ MAX_JOURNAL_BYTES → t `prefix_of` line ++ [10] →
    ∃ jl s1, @journal_load _ restart p s0 = (inl jl, s1) ∧ path jl = Some p ∧ describes jl (default [] (file s1)) ∧
      (entries jl = entries j ∨ entries jl = entries j ++ [mkEntry seq kind hash v now]) ∧
      (t = line ++ [10] → entries jl = entries j ++ [mkEntry seq kind hash v now])).
  { intros line Hsq Hl Hsmall Ht. apply (@load_part _ _ restart p (entries j) (default [] (file s)) _ line t s0); try done.
    - by apply dense_snoc.
    - apply Forall_app. by split; [|constructor].
    - autorewrite with rust. rewrite <- Hsq. lia. }
  destruct r as [[]|err].
  - destruct Hspec as (Hsq & _ & Hes & Hdes & line & Hl & Hf). rewrite Hf in Hcut.
    apply prefix_app_inv in Hcut.
    destruct (Hpart line Hsq Hl) as (jl & s1 & Hload & Hpl & Hdl & Hor & Hfull); [rewrite <- Hf; apply (d_small _ _ Hdes)|done|].
    exists jl, s1. do 4 (split; [done|]). intros _ Hc. rewrite Hes. apply Hfull. rewrite Hf in Hc. by apply app_inv_head in Hc.
  - destruct Hspec as (Hjj & [Hss|(Hsq & line & t' & Hl & Ht' & Hf & Hsmall & _)]).
    + subst. destruct (Hsame eq_refl) as (jl & s1 & Hload & Hpl & Hdl & Hes). exists jl, s1. split; [done|]. split; [done|]. split; [done|].
      split; [by left|done].
    + subst j'. rewrite Hf in Hcut. apply prefix_app_inv in Hcut.
      destruct (Hpart line Hsq Hl Hsmall) as (jl & s1 & Hload & Hpl & Hdl & Hor & _); [by etrans|].
      exists jl, s1. by do 4 (split; [done|]).
Qed.
End Crash.

(** A journal whose first entry was recorded, and a crash that left five bytes of
    the second. *)
Lemma record_survives_crash_witness :
  let '((r1, j1), s1) := journal_record 1 0 (lit "budget") (lit "h0") VNull (journal_new (Some (lit "j"))) (mkStore None []) in
  let '((r2, j2), s2) := journal_record 2 1 (lit "budget") (lit "h1") (VString (lit "x")) j1 s1 in
  let c := take (length (default [] (file s1)) + 5) (default [] (file s2)) in
  r2 = inl tt ∧ length (entries j2) = 2%nat ∧
  ∃ jl s3, journal_load (lit "j") (mkStore (Some c) []) = (inl jl, s3) ∧ path jl = Some (lit "j") ∧
    describes jl (default [] (file s3)) ∧
    (entries jl = entries j1 ∨ entries jl = entries j1 ++ [mkEntry 1 (lit "budget") (lit "h1") (VString (lit "x")) 2]) ∧
    (r2 = inl tt → c = default [] (file s2) → entries jl = entries j2).
Proof.
  destruct (journal_record 1 0 _ _ _ _ _) as [[r1 j1] s1] eqn:H1.
  destruct (journal_record 2 1 _ _ _ _ _) as [[r2 j2] s2] eqn:H2.
  assert (describes (journal_new (Some (lit "j"))) []) as Hnew by (split; cbn; try done; constructor).
  assert (0 < MAX_JOURNAL_ENTRIES) as Hn by done.
  pose proof (journal_record_spec 1 0 _ _ _ (journal_new (Some (lit "j"))) (mkStore None []) (lit "j") _ _ _ eq_refl Hnew I Hn H1) as Hspec.
  assert (r1 = inl tt) as -> by (vm_compute in H1; by simplify_eq).
  destruct Hspec as (_ & Hp & _ & Hdes & _).
  split; [vm_compute in H1; simplify_eq; vm_compute in H2; by simplify_eq|].
  split; [vm_compute in H1; simplify_eq; vm_compute in H2; by simplify_eq|].
  apply (record_survives_crash sound_disk j1 s1 2 1 (lit "budget") (lit "h1") (VString (lit "x")) (lit "j") r2 j2 s2
    (take (length (default [] (file s1)) + 5) (default [] (file s2)))); [done|done|done|done|done| | |done|done|done].
  - clear Hp Hdes. vm_compute in H1. simplify_eq. vm_compute in H2. simplify_eq. eexists. vm_compute. reflexivity.
  - eexists. symmetry. apply take_drop.
Defined.

(** * Resumption *)

Section Replay.
Context `{!Json, !Rhai} (disk1 disk2 : Storage) (host1 host2 : Host).

Notation Value := (Value Number).
Notation JournalEntry := (JournalEntry Number).
Notation run1 := (@eval _ disk1 _ host1).
Notation run2 := (@eval _ disk2 _ host2).

(** [r2'] comes behind [r2], has recorded nothing and asked for nothing, and stands
    where a run with the journal of [r1] stands. *)
Record stands_at (r1 r2 r2' : Run) : Prop := {
  sa_journal : journal r2' = journal r2;
  sa_store : store r2' = store r2;
  sa_seq : seq r2' = zlen (es r1);
  sa_sent : ∃ em, sent r2' = sent r2 ++ em ∧ Forall emission em;
}.

Lemma stands_refl r1 r2 : seq r2 = zlen (es r1) → stands_at r1 r2 r2.
Proof. intros Hs. split; [done..|]. exists []. by rewrite app_nil_r. Qed.

Lemma stands_trans r1 r1' r2 r3 r4 : stands_at r1 r2 r3 → stands_at r1' r3 r4 → stands_at r1' r2 r4.
Proof.
  intros [Hj Hs _ (em & He & Hem)] [Hj' Hs' Hq (em' & He' & Hem')]. split; [congruence..|].
  exists (em ++ em'). rewrite He', He, <- app_assoc. split; [done|]. by apply Forall_app.
Qed.

Lemma stands_ahead r1 r1' r2 N em :
  seq r2 = zlen (es r1) → es r1' = es r1 ++ N → Forall emission em → stands_at r1' r2 (ahead (zlen N) em (tick r2)).
Proof.
  intros Hq He Hem. split; [done|done| |by exists em]. unfold ahead. destruct r2. cbn in *. rewrite He, zlen_app. lia.
Qed.

(** A call that the journal answers. *)
Lemma replay_step f k r1 r1' r2 N rest res :
  (∀ n, @cancelled _ host2 n = false) →
  recorded (zlen (es r1)) (plan_of f) N res → es r1' = es r1 ++ N → es r2 = es r1' ++ rest → seq r2 = zlen (es r1) →
  zlen (es r2) ≤ MAX_HOST_CALLS →
  ∃ r2', @call_fn _ disk2 _ host2 f (tick r2) = (result_of_call res, r2') ∧ stands_at r1' r2 r2' ∧
    run2 (Call f k) r2 = run2 (k (match res with inl g => g | inr m => GivenError m end)) r2'.
Proof.
  intros Hc Hrec He1 He2 Hq Hn.
  destruct (replay_call (H0 := disk2) (H2 := host2) (plan_of f) (es r1) N rest res (tick r2) (λ res' e Hp, plan_emission f res' e Hp) Hrec) as (em & Hrun & Hem).
  - change (es r2 = es r1 ++ N ++ rest). by rewrite He2, He1, <- app_assoc.
  - exact Hq.
  - rewrite He2, zlen_app, He1 in Hn. pose proof (zlen_nonneg rest). lia.
  - rewrite <- call_fn_plan in Hrun. exists (ahead (zlen N) em (tick r2)). split; [done|]. split; [by apply (stands_ahead r1)|].
    by apply eval_call.
Qed.

(** What is left to do where [run1] was when it left [P]: nothing, or the rest of a
    block of agents. *)
Definition at_the_end (P : list JournalEntry) (s : Script Dynamic) (r1 : Run) : Prop :=
  es r1 = P ∨ ∃ items k N, s = Call (FnParallel items) k ∧ P = es r1 ++ N ∧ zlen N ≤ zlen items.

(** The resumed run, given what the first one was given, comes to where it was. *)
Definition catches_up (s : Script Dynamic) (r1 r2 : Run) (P : list JournalEntry) (o1 : WorkflowOutcome Value) (f1 : Run) : Prop :=
  ∃ s' r1' r2',
    @comes_to _ disk1 _ host1 s r1 s' r1' ∧ at_the_end P s' r1' ∧ stands_at r1' r2 r2' ∧ run2 s r2 = run2 s' r2' ∧
    (∀ v, o1 = WfCompleted v → P = es f1 → ∃ f2, run2 s' r2' = (o1, f2) ∧ stands_at r1' r2' f2).

Lemma stop_here s r1 r2 P o1 f1 :
  at_the_end P s r1 → seq r2 = zlen (es r1) →
  (∀ v, o1 = WfCompleted v → P = es f1 → ∃ f2, run2 s r2 = (o1, f2) ∧ stands_at r1 r2 f2) → catches_up s r1 r2 P o1 f1.
Proof. intros Hend Hq Hdone. exists s, r1, r2. split; [constructor|]. split; [done|]. split; [by apply stands_refl|]. by split. Qed.

(** The journal broke off behind an answered call, or within it. *)
Lemma answered_or_within P (es1 N esf : list JournalEntry) :
  es1 `prefix_of` P → P `prefix_of` esf → es1 ++ N `prefix_of` esf →
  es1 ++ N `prefix_of` P ∨ P ≠ esf ∧ ∃ M, P = es1 ++ M ∧ M `prefix_of` N ∧ M ≠ N.
Proof.
  intros [M ->] Hf HN. destruct (prefix_weak_total _ _ _ Hf HN) as [Hpre|]; [|by left].
  apply prefix_app_inv in Hpre as [Q ->]. destruct Q as [|e Q]; [left; by rewrite app_nil_r|].
  assert (∀ l : list JournalEntry, l ≠ l ++ e :: Q) as Hne.
  { intros l Hl. apply (f_equal length) in Hl. rewrite length_app in Hl. simpl in Hl. lia. }
  right. split; [|exists M; split; [done|]; split; [by exists (e :: Q)|apply Hne]].
  intros <-. destruct HN as [R HR]. apply (f_equal length) in HR. rewrite !length_app in HR. simpl in HR. lia.
Qed.

Context (Hcandid : @candid _ host1) (Hfree : ∀ n, @cancelled _ host2 n = false).

(** A call that gave the script [res], before the rest of the run. *)
Lemma catch_up_call f k r1 r2 P o1 f1 res r1a N :
  @cancelled _ host1 (steps r1) = false → @call_fn _ disk1 _ host1 f (tick r1) = (result_of_call res, r1a) →
  es r1a = es r1 ++ N → recorded (zlen (es r1)) (plan_of f) N res →
  es r1 `prefix_of` P → P `prefix_of` es f1 → es r1a `prefix_of` es f1 →
  es r2 = P → seq r2 = zlen (es r1) → zlen P ≤ MAX_HOST_CALLS →
  (∀ r2a, es r1a `prefix_of` P → es r2a = P → seq r2a = zlen (es r1a) →
    catches_up (k match res with inl g => g | inr m => GivenError m end) r1a r2a P o1 f1) →
  catches_up (Call f k) r1 r2 P o1 f1.
Proof.
  intros Hc Hcall Hes Hrec H1 Hf Hgrow He2 Hq Hn IH. rewrite Hes in Hgrow.
  destruct (answered_or_within _ _ _ _ H1 Hf Hgrow) as [Hpre|(Hne & M & -> & HM & HMN)].
  - pose proof Hpre as [rest Hrest]. rewrite <- Hes in Hrest.
    destruct (replay_step f k r1 r1a r2 N rest res Hfree Hrec Hes) as (r2a & _ & Hst & Hev); [by rewrite He2|done|by rewrite He2|].
    destruct (IH r2a) as (s' & r1' & r2' & Hcomes & Hend & Hst' & Hev' & Hdone); [by rewrite Hes| |by apply sa_seq in Hst|].
    { unfold es in *. by rewrite (sa_journal _ _ _ Hst). }
    exists s', r1', r2'. split; [by eapply ct_call|]. split; [done|]. split; [by eapply stands_trans|]. split; [by rewrite Hev|done].
  - apply stop_here; [|done|by intros v _ ?].
    destruct (recorded_part _ _ _ _ M Hrec HM HMN) as [->|(items & -> & Hlen)]; [left; by rewrite app_nil_r|].
    right. by exists items, k, M.
Qed.

Lemma catch_up s r1 r2 P o1 f1 :
  seq r1 = zlen (es r1) → run1 s r1 = (o1, f1) → es r1 `prefix_of` P → P `prefix_of` es f1 →
  es r2 = P → seq r2 = zlen (es r1) → zlen P ≤ MAX_HOST_CALLS → catches_up s r1 r2 P o1 f1.
Proof.
  revert r1 r2. induction s as [d|m|f k IH]; intros r1 r2 Hq1 Hrun H1 Hf He2 Hq Hn; cbn [eval] in Hrun; fold (tick r1) in Hrun;
    (destruct (@cancelled _ host1 (steps r1)) eqn:Hc;
      [simplify_eq/=; apply stop_here; [left; by apply (anti_symm prefix)|done|done]|]).
  - simplify_eq/=. apply stop_here; [left; by apply (anti_symm prefix)|done|]. intros v Hv _. eexists. cbn [eval]. rewrite Hfree.
    split; [by f_equal|]. split; [done|done|done|]. exists []. by rewrite app_nil_r.
  - simplify_eq/=. apply stop_here; [left; by apply (anti_symm prefix)|done|done].
  - destruct (call_fn f (tick r1)) as [res r1a] eqn:Hcall. pose proof (live_call f (tick r1) _ _ Hcandid Hq1 Hcall) as Hlive.
    destruct res as [g|[m|t]]; cbn [live_spec] in Hlive.
    + destruct Hlive as (N & Hes & Hqa & Hrec). rewrite ?es_tick, ?seq_tick in *.
      assert (seq r1a = zlen (es r1a)) as Hq1a by (rewrite Hes, zlen_app; lia).
      apply (catch_up_call f k r1 r2 P o1 f1 (inl g) r1a N); try done; [by eapply (eval_grows (H0 := disk1) (H2 := host1))|]. intros r2a Hpre Hes2 Hqa2. by apply IH.
    + destruct Hlive as (N & Hes & Hqa & Hrec). rewrite ?es_tick, ?seq_tick in *.
      assert (seq r1a = zlen (es r1a)) as Hq1a by (rewrite Hes, zlen_app; lia).
      apply (catch_up_call f k r1 r2 P o1 f1 (inr m) r1a N); try done; [by eapply (eval_grows (H0 := disk1) (H2 := host1))|]. intros r2a Hpre Hes2 Hqa2. by apply IH.
    + injection Hrun as <- <-. rewrite ?es_tick in *. destruct Hlive as [[Hes Ht]|[(q & N & Hp & Hes & HN & Ht)|(kd & m & h & N & Hp & Hes & Hrec & ->)]].
      * rewrite Hes in Hf. apply stop_here; [left; by apply (anti_symm prefix)|done|]. intros v Hv _.
        destruct Ht as [Ht|Ht]; [by destruct t|]. eexists. cbn [eval]. rewrite Hfree, call_fn_plan, Ht. cbn [run_plan].
        split; [by f_equal|]. split; [done|done|done|]. exists []. by rewrite app_nil_r.
      * rewrite Hes in Hf. destruct H1 as [M ->]. apply prefix_app_inv in Hf.
        destruct (many_is_parallel f q Hp) as (items & -> & Hlen). apply stop_here; [|done|by destruct t].
        right. exists items, k, M. split; [done|]. split; [done|]. destruct Hf as [Q ->]. rewrite zlen_app in HN. pose proof (zlen_nonneg Q). lia.
      * rewrite Hes in Hf. destruct (answered_or_within P (es r1) N (es r1 ++ N) H1 Hf (reflexivity _)) as [Hpre|(_ & M & -> & HM & HMN)].
        -- assert (P = es r1a) as Heq by (rewrite Hes; by apply (anti_symm prefix)).
           destruct (replay_step f k r1 r1a r2 N [] (inl (GivenValue unit_dynamic)) Hfree Hrec Hes) as (r2a & _ & Hst & Hev);
             [rewrite He2, app_nil_r; done|done|by rewrite He2|].
           exists (k (GivenValue unit_dynamic)), r1a, r2a. split; [by eapply ct_user|]. split; [by left|]. by split.
        -- apply stop_here; [|done|done].
           destruct (recorded_part _ _ _ _ M Hrec HM HMN) as [->|(items & -> & Hlen)]; [left; by rewrite app_nil_r|].
           right. by exists items, k, M.
Qed.

End Replay.

Section Resumption.
Context `{!Json, !Rhai} (disk1 disk2 : Storage) (host1 host2 : Host).

(** C25: A workflow that is broken off and resumed catches up with its first run,
    provided that the first host never failed to reserve agent calls (other than
    for the budget) and sent a quota error nowhere else (no journal holds these; a
    run that went on behind one is stranded, failed_reservation_strands_run).  Let a script have run on such a host, from
    an empty journal, to whatever end, and let the journal loaded hold a first part
    of the entries it left, no more than a run may make calls.  Then the resumed
    run, on another disk and host that does not cancel it, comes to a point of the
    script at which the first run was, with the same values and errors given: it
    has sent the host nothing but phases, logs and telemetry, has left the journal
    and the file as they were, and stands behind the last entry, or before parallel
    agents of which a part is left to do.  From there it goes on live.  If the first run had completed and all its entries are
    loaded, the resumed one completes with the same value. *)
Theorem resumed_run_catches_up compile script args tree j1 s1 j2 s2 o1 f1
    (Hcompile : compile script args = inl tree)
    (Hcandid : @candid _ host1) (Hfree : ∀ n, @cancelled _ host2 n = false)
    (Hnew : entries j1 = [])
    (Hrun : @run_workflow _ disk1 _ host1 compile script args j1 s1 = (o1, f1))
    (Hpart : entries j2 `prefix_of` entries (journal f1)) (Hcount : zlen (entries j2) ≤ MAX_HOST_CALLS) :
  ∃ rest r1 r2,
    @comes_to _ disk1 _ host1 tree (mkRun _ j1 0 s1 [] 0) rest r1 ∧
    @run_workflow _ disk2 _ host2 compile script args j2 s2 = @eval _ disk2 _ host2 rest r2 ∧
    journal r2 = j2 ∧ store r2 = s2 ∧ seq r2 = zlen (entries (journal r1)) ∧ Forall emission (sent r2) ∧
    (entries (journal r1) = entries j2 ∨
     ∃ items k left_over, rest = Call (FnParallel items) k ∧ entries j2 = entries (journal r1) ++ left_over ∧ zlen left_over ≤ zlen items) ∧
    (∀ v, o1 = WfCompleted v → entries j2 = entries (journal f1) →
      ∃ f2, @run_workflow _ disk2 _ host2 compile script args j2 s2 = (WfCompleted v, f2) ∧
        journal f2 = j2 ∧ store f2 = s2 ∧ Forall emission (sent f2)).
Proof.
  unfold run_workflow in *. rewrite Hcompile in *.
  destruct (catch_up disk1 disk2 host1 host2 Hcandid Hfree tree (mkRun _ j1 0 s1 [] 0) (mkRun _ j2 0 s2 [] 0) (entries j2) o1 f1)
    as (rest & r1 & r2 & Hcomes & Hend & [Hj Hs Hq (em & He & Hem)] & Hev & Hdone); cbn [seq]; try done;
    [unfold es; cbn [journal]; rewrite Hnew; done || apply prefix_nil..|].
  cbn in He. exists rest, r1, r2. rewrite He. do 6 (split; [done|]). split; [exact Hend|].
  intros v -> Hall. destruct (Hdone v eq_refl Hall) as (f2 & Hf2 & [Hj2 Hs2 _ (em2 & He2 & Hem2)]).
  exists f2. rewrite Hev. split; [done|]. split; [by rewrite Hj2, Hj|]. split; [by rewrite Hs2, Hs|]. rewrite He2, He. by apply Forall_app.
Qed.
End Resumption.

(** The demonstration script, first on a host whose agents say "first", cancelled
    before its last call, then on one whose agents say "second". *)
Definition first_host : Host := demo_host (lit "first") (inl ReplyUnit) (λ n, (n =? 3)%nat).
Definition second_host : Host := demo_host (lit "second") (inl ReplyUnit) (λ _, false).
Definition demo_compile (tree : Script (Value Z)) (_ : rstr) (_ : Value Z) : Script (Value Z) + rstr := inl tree.

Lemma demo_candid output stop : @candid _ (demo_host output (inl ReplyUnit) stop).
Proof. intros log n. unfold answer, demo_host. by destruct (log !! n) as [[]|]. Qed.

Example demo_second_run :
  let first := @run_workflow _ sound_disk _ first_host (demo_compile demo_script) [] VNull (journal_new (Some (lit "j"))) (mkStore None []) in
  let second := @run_workflow _ sound_disk _ second_host (demo_compile demo_script) [] VNull (journal first.2) (store first.2) in
  first.1 = WfCancelled ∧ length (sent first.2) = 6%nat ∧
  journal_len (journal first.2) = 3 ∧
  sent second.2 = [PhaseRequest (lit "scan") true; BudgetQuery] ∧ journal_len (journal second.2) = 4 ∧
  match second.1 with WfCompleted _ => True | _ => False end.
Proof. vm_compute. done. Qed.

Lemma resumed_run_catches_up_witness :
  let first := @run_workflow _ sound_disk _ first_host (demo_compile demo_script) [] VNull (journal_new (Some (lit "j"))) (mkStore None []) in
  first.1 = WfCancelled ∧ length (entries (journal first.2)) = 3%nat ∧
  ∃ rest r1 r2,
    @comes_to _ sound_disk _ first_host demo_script (mkRun _ (journal_new (Some (lit "j"))) 0 (mkStore None []) [] 0) rest r1 ∧
    @run_workflow _ sound_disk _ second_host (demo_compile demo_script) [] VNull (journal first.2) (store first.2)
      = @eval _ sound_disk _ second_host rest r2 ∧
    journal r2 = journal first.2 ∧ Forall emission (sent r2).
Proof.
  intros first. assert (first.1 = WfCancelled) as Ho by (vm_compute; reflexivity).
  assert (length (entries (journal first.2)) = 3%nat) as Hlen by (vm_compute; reflexivity).
  split; [exact Ho|]. split; [exact Hlen|].
  destruct (resumed_run_catches_up (H := bits_json) (H0 := value_rhai) sound_disk sound_disk first_host second_host (demo_compile demo_script) [] VNull demo_script
    (journal_new (Some (lit "j"))) (mkStore None []) (journal first.2) (store first.2) first.1 first.2)
    as (rest & r1 & r2 & Hcomes & Hev & Hj & _ & _ & Hem & _ & _).
  - reflexivity.
  - apply demo_candid.
  - reflexivity.
  - reflexivity.
  - apply surjective_pairing.
  - reflexivity.
  - unfold zlen. rewrite Hlen. unfold MAX_HOST_CALLS. lia.
  - exists rest, r1, r2. auto.
Defined.

(** A host that is not candid: it fails to reserve an agent call.  The script
    catches that, goes on and completes; but no entry stands for the failed call,
    so the journal that it leaves cannot be replayed. *)
Definition failing_host : Host := demo_host (lit "first") (inr (HostFailed (lit "disk full"))) (λ _, false).

Example failed_reservation_strands_run :
  let first := @run_workflow _ sound_disk _ failing_host (demo_compile stubborn_script) [] VNull (journal_new (Some (lit "j"))) (mkStore None []) in
  let second := @run_workflow _ sound_disk _ second_host (demo_compile stubborn_script) [] VNull (journal first.2) (store first.2) in
  first.1 = WfCompleted (VString (lit "first")) ∧ journal_len (journal first.2) = 1 ∧
  second.1 = WfFailed (journal_error_text (JDivergence 0 (lit "spawn_agent"))).
Proof. vm_compute. done. Qed.
