(* ===== verification/WorkflowMeta.v ===== *)
(** What a workflow script says of itself, and its dry run
    (src/crates/codegen/workflow/src/meta.rs, validate.rs).

    The compiler, the probing run that gives the script's [meta] and its conversion
    from a dynamic value are parameters ([MetaProbe]). *)
From S2P Require Import Prelude Str Utf8 WorkflowJournal WorkflowEngine WorkflowResume.

Definition MAX_WORKFLOW_NAME_LEN : Z := 64.
Definition MAX_WORKFLOW_DESCRIPTION_LEN : Z := 1024.
Definition MAX_WORKFLOW_WHEN_TO_USE_LEN : Z := 2048.
Definition MAX_WORKFLOW_PHASES : Z := 64.
Definition MAX_PHASE_TITLE_LEN : Z := 128.
Definition MAX_PHASE_DETAIL_LEN : Z := 1024.
Definition DEFAULT_AGENT_BUDGET : Z := 128.

Record PhaseMeta : Type := mkPhaseMeta { pm_title : rstr; pm_detail : option rstr }.
Record WorkflowMeta : Type := mkMeta {
  wm_name : rstr;
  wm_description : rstr;
  wm_when_to_use : option rstr;
  wm_phases : list PhaseMeta;
}.

Inductive MetaError : Type :=
| MeParse (error : rstr)
| MetaNotFirst
| InvalidShape (error : rstr)
| MissingField (field : rstr)
| InvalidName
| StringTooLong (field : rstr) (max actual : Z)
| TooManyPhases (max actual : Z).

Definition meta_error_text (e : MetaError) : rstr :=
  match e with
  | MeParse error => lit "script failed to parse: " ++ error
  | MetaNotFirst => lit "first statement must be `let meta = #{ ... };`"
  | InvalidShape error => lit "meta is not a valid map: " ++ error
  | MissingField field => field ++ lit " must be a non-empty string"
  | InvalidName => lit "meta.name must be lowercase ASCII letters or digits separated by single hyphens"
  | StringTooLong field max actual =>
      field ++ lit " must be at most " ++ fmt_dec max ++ lit " UTF-8 bytes (got " ++ fmt_dec actual ++ lit ")"
  | TooManyPhases max actual =>
      lit "meta.phases must contain at most " ++ fmt_dec max ++ lit " entries (got " ++ fmt_dec actual ++ lit ")"
  end.

(** [compile_error]: what the compiler says of a script, if it refuses it.
    [meta_of]: the map that the probing run leaves in the variable [meta].
    [read_meta]: the map as a [WorkflowMeta].  [debug]: [{:?}] of a string. *)
Class MetaProbe : Type := {
  MetaMap : Type;
  compile_error : rstr → option rstr;
  meta_of : rstr → option MetaMap;
  read_meta : MetaMap → WorkflowMeta + rstr;
  debug : rstr → rstr;
}.

Definition validate_len (field value : rstr) (max : Z) : option MetaError :=
  if max <? byte_len value then Some (StringTooLong field max (byte_len value)) else None.

Definition lower_alnum (b : Z) : bool := is_ascii_lowercase b || is_ascii_digit b.

Definition valid_workflow_name (name : rstr) : bool :=
  let bytes := as_bytes name in
  negb (is_empty bytes)
  && is_some_and lower_alnum (head bytes)
  && is_some_and lower_alnum (last bytes)
  && forallb (λ b, lower_alnum b || (b =? 45)) bytes
  && negb (contains_str [45; 45] bytes).

Section Meta.
Context `{!MetaProbe}.

(** The loop over the phases: their index, the titles before. *)
Fixpoint validate_phases (index : Z) (titles : list rstr) (phases : list PhaseMeta) : option MetaError :=
  match phases with
  | [] => None
  | phase :: phases =>
      let field name := lit "meta.phases[" ++ fmt_dec index ++ lit "]." ++ name in
      if is_empty (trim (pm_title phase)) then Some (MissingField (lit "meta.phases[].title"))
      else if bool_decide (pm_title phase ∈ titles)
      then Some (InvalidShape (lit "duplicate meta.phases[].title: " ++ debug (pm_title phase)))
      else
        option_or (validate_len (field (lit "title")) (pm_title phase) MAX_PHASE_TITLE_LEN)
        (option_or (detail ← pm_detail phase; validate_len (field (lit "detail")) detail MAX_PHASE_DETAIL_LEN)
        (validate_phases (index + 1) (pm_title phase :: titles) phases))
  end.

Definition validate_meta (meta : WorkflowMeta) : option MetaError :=
  if is_empty (trim (wm_name meta)) then Some (MissingField (lit "meta.name"))
  else
    option_or (validate_len (lit "meta.name") (wm_name meta) MAX_WORKFLOW_NAME_LEN)
    (if negb (valid_workflow_name (wm_name meta)) then Some InvalidName
     else if is_empty (trim (wm_description meta)) then Some (MissingField (lit "meta.description"))
     else
       option_or (validate_len (lit "meta.description") (wm_description meta) MAX_WORKFLOW_DESCRIPTION_LEN)
       (option_or (w ← wm_when_to_use meta; validate_len (lit "meta.when_to_use") w MAX_WORKFLOW_WHEN_TO_USE_LEN)
       (if MAX_WORKFLOW_PHASES <? zlen (wm_phases meta)
        then Some (TooManyPhases MAX_WORKFLOW_PHASES (zlen (wm_phases meta)))
        else validate_phases 0 [] (wm_phases meta)))).

(** Comments are skipped; each takes two characters, so the length bounds the
    rounds. *)
Fixpoint skip_comments (fuel : nat) (rest : rstr) : option rstr :=
  let rest := trim_start rest in
  match fuel with
  | O => Some rest
  | S fuel =>
      match strip_prefix (lit "//") rest with
      | Some after => skip_comments fuel (match split_once 10 after with Some (_, r) => r | None => [] end)
      | None =>
          match strip_prefix (lit "/*") rest with
          | Some after => match split_at_first (lit "*/") after with Some (_, r) => skip_comments fuel r | None => None end
          | None => Some rest
          end
      end
  end.

Definition first_statement_is_meta (script : rstr) : bool :=
  match skip_comments (length script) script with
  | Some rest => starts_with (lit "let meta") rest || starts_with (lit "const meta") rest
  | None => false
  end.

Definition extract_meta (script : rstr) : WorkflowMeta + MetaError :=
  if negb (first_statement_is_meta script) then inr MetaNotFirst
  else match compile_error script with
       | Some e => inr (MeParse (with_rhai_hint e))
       | None =>
           match meta_of script with
           | None => inr MetaNotFirst
           | Some map =>
               match read_meta map with
               | inr e => inr (InvalidShape e)
               | inl meta => match validate_meta meta with Some e => inr e | None => inl meta end
               end
           end
       end.
End Meta.

(** * The dry run *)

Record ValidationReport : Type := mkReport {
  vr_name : rstr;
  vr_phases : Z;
  vr_outcome_ok : bool;
  vr_outcome_summary : rstr;
}.
Inductive ValidationError : Type := VeMeta (e : MetaError) | VeRun (summary : rstr).

Section DryRun.
Context `{!Json, !Storage, !Rhai, !MetaProbe}.

Notation Value := (Value Number).

Definition vstring (s : string) : Value := VString (lit s).

Definition default_probe_args : Value :=
  VObject [(lit "objective", vstring "stub objective"); (lit "query", vstring "stub query"); (lit "breadth", number_value 2);
           (lit "target", vstring "stub target"); (lit "skeptic_count", number_value 1);
           (lit "max_verify_attempts", number_value 1); (lit "baseline_commit", vstring "");
           (lit "test_command", vstring "cargo test"); (lit "diff_summary", vstring "stub diff");
           (lit "since_commit", vstring "abc123")].

Definition stub_output : Value :=
  VObject [(lit "achieved", VBool true); (lit "gaps", vstring ""); (lit "evidence", vstring "stub evidence");
           (lit "questions", VArray [vstring "q1"; vstring "q2"]); (lit "claims", VArray []); (lit "uncertainties", VArray []);
           (lit "verdicts", VArray []); (lit "failures", VArray [vstring "test_a"]); (lit "issues", vstring "none");
           (lit "stub", VBool true)].

(** The agent calls that are reserved when [log] has been answered. *)
Definition stub_charge (agent_budget calls : Z) (r : Request Value) : Z :=
  match r with
  | ReserveAgentCalls count =>
      let requested := sat_add 64 calls count in if agent_budget <? requested then calls else requested
  | ReleaseAgentCalls count => sat_sub calls count
  | _ => calls
  end.
Definition stub_agent_calls (agent_budget : Z) (log : list (Request Value)) : Z := fold_left (stub_charge agent_budget) log 0.

(** The thread that stands for the host. *)
Definition stub_answer (agent_budget : Z) (log : list (Request Value)) (n : nat) : option (Reply Value + HostError) :=
  match log !! n with
  | Some (ReserveAgentCalls count) =>
      let requested := sat_add 64 (stub_agent_calls agent_budget (take n log)) count in
      Some (if agent_budget <? requested then inr (AgentCallQuotaExceeded requested agent_budget) else inl ReplyUnit)
  | Some (ReleaseAgentCalls _) => Some (inl ReplyUnit)
  | Some (SpawnAgent _) => Some (inl (ReplyAgent (mkAgentResult _ (lit "stub") true stub_output false 1 1)))
  | Some BudgetQuery => Some (inl (ReplyBudget (mkBudget None 0 0 None)))
  | Some (RenderTemplate _ _) => Some (inl (ReplyText (lit "stub template")))
  | Some (WriteScratchFile name _) => Some (inl (ReplyText (lit "scratch/" ++ name)))
  | Some (ReadScratchFile _) => Some (inl (ReplyText (lit "stub content")))
  | Some (GitDiffSince _) => Some (inl (ReplyText []))
  | Some (PhaseRequest _ _ | LogRequest _ _ | TelemetryRequest _ _ _) | None => None
  end.

Definition stub_host (agent_budget : Z) (now : list IoCall → Z) : Host :=
  {| answer := stub_answer agent_budget; host_gone _ := false; cancelled _ := false; clock := now |}.

Definition truncate (s : rstr) : rstr := if 200 <? char_count s then take 200 s ++ [8230] else s.

Definition pause_kind_debug (k : PauseKind) : rstr :=
  match k with
  | PkUser => lit "User" | PkBackOff => lit "BackOff" | PkNoProgress => lit "NoProgress"
  | PkVerification => lit "Verification" | PkInfra => lit "Infra"
  end.

Definition outcome_summary (o : WorkflowOutcome Value) : bool * rstr :=
  match o with
  | WfCompleted result => (true, lit "completed: " ++ truncate (value_text result))
  | WfPaused kind message => (true, lit "paused (" ++ pause_kind_debug kind ++ lit "): " ++ truncate message)
  | WfFailed error => (false, lit "failed: " ++ error)
  | WfBudgetExceeded message => (false, lit "BudgetExceeded { message: " ++ debug message ++ lit " }")
  | WfCancelled => (false, lit "Cancelled")
  end.

Context (compile : rstr → Value → Script Dynamic + rstr) (now : list IoCall → Z).

Definition dry_run (script : rstr) (args : option Value) (agent_budget : Z) : WorkflowOutcome Value * Run :=
  @run_workflow _ _ _ (stub_host agent_budget now) compile script (default default_probe_args args) (journal_new None) (mkStore None []).

Definition validate_script_with_agent_budget (script : rstr) (args : option Value) (agent_budget : Z) : ValidationReport + ValidationError :=
  match extract_meta script with
  | inr e => inr (VeMeta e)
  | inl meta =>
      let '(ok, summary) := outcome_summary (dry_run script args agent_budget).1 in
      if negb ok then inr (VeRun summary)
      else inl (mkReport (wm_name meta) (zlen (wm_phases meta)) ok summary)
  end.

Definition validate_script (script : rstr) (args : option Value) : ValidationReport + ValidationError :=
  validate_script_with_agent_budget script args DEFAULT_AGENT_BUDGET.
End DryRun.

(** * What is accepted *)

(** * Names *)

Lemma bytes_ascii (p : Z → bool) s :
  (∀ b, p b = true → b < 128) → forallb p (as_bytes s) = true → as_bytes s = s.
Proof.
  intros Hp. unfold as_bytes. induction s as [|c s IH]; [done|]. rewrite bind_cons, forallb_app.
  intros [Hc Hs]%andb_prop. rewrite IH by done.
  assert (c < 128) as Hlt; [|by unfold encode_char; rewrite (proj2 (Z.ltb_lt c 128) Hlt)].
  unfold encode_char in Hc. destruct (Z.ltb_spec c 128); [done|]. repeat case_match; cbn [forallb] in Hc;
    apply andb_prop in Hc as [Hc _]; apply Hp in Hc.
  - assert (0 ≤ c / 64) by (apply Z.div_pos; lia). lia.
  - assert (0 ≤ c / 4096) by (apply Z.div_pos; lia). lia.
  - assert (0 ≤ c / 262144) by (apply Z.div_pos; lia). lia.
Qed.

(** A part of a name between hyphens. *)
Definition word (w : rstr) : Prop := w ≠ [] ∧ Forall (λ c, lower_alnum c = true) w.

Lemma lower_alnum_lt b : lower_alnum b = true → 48 ≤ b < 128.
Proof. unfold lower_alnum, is_ascii_lowercase, is_ascii_digit. lia. Qed.

Lemma name_byte b : (lower_alnum b || (b =? 45)) = true → b < 128.
Proof. intros [Hb|Hb]%orb_prop; [apply lower_alnum_lt in Hb|]; lia. Qed.

(** The words of a name, one character further. *)
Lemma words_cons c s :
  lower_alnum c = true → s ≠ [] → head s ≠ Some 45 → Forall word (split_char 45 (c :: s)) ↔ Forall word (split_char 45 s).
Proof.
  intros Hc Hs Hh. pose proof (lower_alnum_lt c Hc). cbn [split_char]. rewrite (proj2 (Z.eqb_neq c 45)) by lia.
  destruct s as [|d s]; [done|]. assert (d ≠ 45) by (intros ->; done). cbn [split_char]. rewrite (proj2 (Z.eqb_neq d 45)) by done.
  destruct (split_char 45 s) as [|w ws]; rewrite !Forall_cons; unfold word; rewrite !Forall_cons; naive_solver.
Qed.

Lemma words_hyphen c s : lower_alnum c = true → Forall word (split_char 45 (c :: 45 :: s)) ↔ Forall word (split_char 45 s).
Proof.
  intros Hc. pose proof (lower_alnum_lt c Hc). cbn [split_char]. rewrite (proj2 (Z.eqb_neq c 45)) by lia. cbn [Z.eqb Pos.eqb].
  rewrite Forall_cons. unfold word at 1. rewrite Forall_singleton. naive_solver.
Qed.

Lemma words_head s : Forall word (split_char 45 s) → is_some_and lower_alnum (head s) = true.
Proof.
  destruct s as [|c s]; cbn [split_char]; [intros [[Hne _] _]%Forall_cons; done|]. destruct (c =? 45); [intros [[Hne _] _]%Forall_cons; done|].
  destruct (split_char 45 s) as [|w ws]; intros [[_ Hw] _]%Forall_cons; apply Forall_cons in Hw as [Hc _]; exact Hc.
Qed.

Definition slug (s : list Z) : Prop :=
  is_some_and lower_alnum (head s) = true ∧ is_some_and lower_alnum (last s) = true ∧
  forallb (λ b, lower_alnum b || (b =? 45)) s = true ∧ contains_str [45; 45] s = false.

Lemma contains_cons p c s : contains_str p (c :: s) = starts_with p (c :: s) || contains_str p s.
Proof.
  unfold contains_str, starts_with. cbn [split_at_first]. destruct (strip_prefix p (c :: s)); [done|].
  by destruct (split_at_first p s) as [[]|].
Qed.

Lemma slug_cons c s :
  lower_alnum c = true → s ≠ [] → head s ≠ Some 45 → slug (c :: s) ↔ slug s.
Proof.
  intros Hc Hs Hh. destruct s as [|d s]; [done|]. assert (d ≠ 45) as Hd by (intros ->; done). pose proof (lower_alnum_lt c Hc).
  unfold slug. rewrite (contains_cons _ c). cbn [head is_some_and forallb]. rewrite Hc. cbn [orb andb].
  unfold starts_with at 1. cbn [strip_prefix]. rewrite (proj2 (Z.eqb_neq 45 c)) by lia.
  change (last (c :: d :: s)) with (last (d :: s)). cbn [orb].
  rewrite (proj2 (Z.eqb_neq d 45) Hd), orb_false_r. rewrite !andb_true_iff. naive_solver.
Qed.

Lemma slug_hyphen c s : lower_alnum c = true → s ≠ [] → slug (c :: 45 :: s) ↔ slug s.
Proof.
  intros Hc Hs. destruct s as [|d s]; [done|]. pose proof (lower_alnum_lt c Hc).
  unfold slug. rewrite (contains_cons _ c), (contains_cons _ 45). unfold starts_with at 1 2. cbn [strip_prefix]. rewrite (proj2 (Z.eqb_neq 45 c)) by lia.
  rewrite (Z.eqb_refl 45). cbn [head is_some_and forallb]. rewrite Hc, (Z.eqb_refl 45). change (last (c :: 45 :: d :: s)) with (last (d :: s)).
  change (lower_alnum 45) with false. cbn [orb andb].
  destruct (Z.eqb_spec 45 d) as [<-|Hd]; [change (lower_alnum 45) with false; naive_solver|].
  rewrite (proj2 (Z.eqb_neq d 45)), orb_false_r by done. cbn [orb]. destruct (lower_alnum d); cbn [andb]; naive_solver.
Qed.

(** A valid name is words of lowercase letters and digits between single hyphens. *)
Theorem valid_workflow_name_spec name : valid_workflow_name name = true ↔ Forall word (split_char 45 name).
Proof.
  assert (valid_workflow_name name = true ↔ slug name) as ->.
  { unfold valid_workflow_name, slug. split.
    - intros [[[[_ Hh]%andb_prop Hl]%andb_prop Hall]%andb_prop Hd]%andb_prop.
      pose proof (bytes_ascii _ name name_byte Hall) as Heq. rewrite Heq in Hh, Hl, Hall, Hd. by apply negb_true_iff in Hd.
    - intros (Hh & Hl & Hall & Hd). assert (as_bytes name = name) as ->.
      { unfold as_bytes. clear Hh Hl Hd. induction name as [|c s IH]; [done|]. cbn [forallb] in Hall. apply andb_prop in Hall as [Hc Hall].
        rewrite bind_cons, IH by done. unfold encode_char.
        pose proof (name_byte c Hc) as Hlt.
        by rewrite (proj2 (Z.ltb_lt c 128) Hlt). }
      rewrite Hh, Hl, Hall, Hd. by destruct name. }
  remember (length name) as n eqn:Hn. revert name Hn. induction n as [n IH] using lt_wf_ind. intros name ->.
  destruct name as [|c s].
  { split; [intros (Hh & _); done|]. cbn [split_char]. intros [[Hne _] _]%Forall_cons. done. }
  destruct (lower_alnum c) eqn:Hc.
  2: { split; [intros (Hh & _); cbn in Hh; congruence|]. intros Hw%words_head. cbn in Hw. congruence. }
  pose proof (lower_alnum_lt c Hc). destruct s as [|d s].
  { split; intros _.
    - cbn [split_char]. rewrite (proj2 (Z.eqb_neq c 45)) by lia. constructor; [split; [done|by constructor]|done].
    - unfold slug. cbn [head last is_some_and forallb]. rewrite Hc. split_and!; try done. unfold contains_str. cbn [split_at_first strip_prefix].
      by rewrite (proj2 (Z.eqb_neq 45 c)) by lia. }
  destruct (decide (d = 45)) as [->|Hd].
  - rewrite words_hyphen by done. destruct s as [|e s].
    + split; [|cbn [split_char]; intros [[Hne _] _]%Forall_cons; done]. intros (_ & Hl & _). done.
    + rewrite slug_hyphen by done. apply (IH (length (e :: s))); [cbn [length]; lia|done].
  - rewrite slug_cons, words_cons by (done || cbn; congruence). apply (IH (length (d :: s))); [cbn [length]; lia|done].
Qed.

(** * Meta *)

Definition blank_str (s : rstr) : Prop := is_empty (trim s) = true.

(** What a [WorkflowMeta] has to be. *)
Record well_formed (meta : WorkflowMeta) : Prop := {
  wf_name : Forall word (split_char 45 (wm_name meta));
  wf_name_len : byte_len (wm_name meta) ≤ MAX_WORKFLOW_NAME_LEN;
  wf_description : ¬ blank_str (wm_description meta);
  wf_description_len : byte_len (wm_description meta) ≤ MAX_WORKFLOW_DESCRIPTION_LEN;
  wf_when : ∀ w, wm_when_to_use meta = Some w → byte_len w ≤ MAX_WORKFLOW_WHEN_TO_USE_LEN;
  wf_phases : zlen (wm_phases meta) ≤ MAX_WORKFLOW_PHASES;
  wf_titles : NoDup (pm_title <$> wm_phases meta);
  wf_phase p : p ∈ wm_phases meta →
    ¬ blank_str (pm_title p) ∧ byte_len (pm_title p) ≤ MAX_PHASE_TITLE_LEN ∧
    ∀ d, pm_detail p = Some d → byte_len d ≤ MAX_PHASE_DETAIL_LEN;
}.

Lemma validate_len_ok field value max : validate_len field value max = None ↔ byte_len value ≤ max.
Proof. unfold validate_len. destruct (Z.ltb_spec max (byte_len value)); split; done || lia. Qed.

Lemma option_or_none {A} (o o' : option A) : option_or o o' = None ↔ o = None ∧ o' = None.
Proof. destruct o; naive_solver. Qed.

Lemma bind_validate_len field o max :
  (v ← o; validate_len field v max) = None ↔ ∀ v : rstr, o = Some v → byte_len v ≤ max.
Proof. destruct o as [v|]; cbn; [rewrite validate_len_ok|]; naive_solver. Qed.

Lemma not_blank s : is_empty (trim s) = false ↔ ¬ blank_str s.
Proof. unfold blank_str. by destruct (is_empty (trim s)). Qed.

Lemma word_name_not_blank name : Forall word (split_char 45 name) → ¬ blank_str name.
Proof.
  intros Hw. apply words_head in Hw. unfold blank_str. destruct name as [|c s]; [done|]. cbn in Hw.
  intros Hb. assert (trim (c :: s) = []) as Ht by (by destruct (trim (c :: s))).
  apply trim_nil_inv, Forall_cons in Ht as [Hc _]. unfold lower_alnum, is_ascii_lowercase, is_ascii_digit in Hw. unfold is_whitespace in Hc. lia.
Qed.

Section Meta.
Context `{!MetaProbe}.

Lemma validate_phases_spec index titles phases :
  validate_phases index titles phases = None ↔
  NoDup (pm_title <$> phases) ∧ (∀ p, p ∈ phases → pm_title p ∉ titles) ∧
  ∀ p, p ∈ phases → ¬ blank_str (pm_title p) ∧ byte_len (pm_title p) ≤ MAX_PHASE_TITLE_LEN ∧
    ∀ d, pm_detail p = Some d → byte_len d ≤ MAX_PHASE_DETAIL_LEN.
Proof.
  revert index titles. induction phases as [|p ps IH]; intros index titles; cbn [validate_phases].
  { split; [|done]. intros _. split; [constructor|]. split; intros p Hp; by apply elem_of_nil in Hp. }
  rewrite fmap_cons, NoDup_cons, list_elem_of_fmap. setoid_rewrite elem_of_cons.
  destruct (is_empty (trim (pm_title p))) eqn:Hb; [split; [done|]; intros (_ & _ & Hall); by destruct (Hall p (or_introl eq_refl)) as [[]]|].
  apply not_blank in Hb. case_bool_decide as Hin; [split; [done|]; intros (_ & Ht & _); by destruct (Ht p (or_introl eq_refl))|].
  rewrite !option_or_none, validate_len_ok, bind_validate_len, IH. setoid_rewrite elem_of_cons. split.
  - intros (Hl & Hd & Hnd & Ht & Hall). split_and!; [|done| |].
    + intros (q & Heq & Hq). apply (Ht q Hq). by left.
    + intros q [->|Hq]; [done|]. intros Hq'. apply (Ht q Hq). by right.
    + intros q [->|Hq]; [done|by apply Hall].
  - intros ((Hnin & Hnd) & Ht & Hall). destruct (Hall p (or_introl eq_refl)) as (_ & Hl & Hd). split_and!; try done.
    + intros q Hq [Heq|Hq']; [apply Hnin; by exists q|]. apply (Ht q); auto.
    + intros q Hq. apply Hall. by right.
Qed.

(** [validate_meta] refuses all but what is well formed. *)
Theorem validate_meta_spec meta : validate_meta meta = None ↔ well_formed meta.
Proof.
  unfold validate_meta. destruct (is_empty (trim (wm_name meta))) eqn:Hb.
  { split; [done|]. intros [Hw _ _ _ _ _ _ _]. by apply word_name_not_blank in Hw as []. }
  rewrite option_or_none, validate_len_ok. destruct (valid_workflow_name (wm_name meta)) eqn:Hv; cbn [negb].
  2: { split; [intros [_ ?]; done|]. intros [Hw _ _ _ _ _ _ _]. apply valid_workflow_name_spec in Hw. congruence. }
  apply valid_workflow_name_spec in Hv.
  destruct (is_empty (trim (wm_description meta))) eqn:Hd; [split; [intros [_ ?]; done|]; intros [_ _ Hnb _ _ _ _ _]; by destruct Hnb|].
  apply not_blank in Hd. rewrite !option_or_none, validate_len_ok, bind_validate_len.
  destruct (Z.ltb_spec MAX_WORKFLOW_PHASES (zlen (wm_phases meta))) as [Hlt|Hle].
  { split; [intros (_ & _ & _ & ?); done|]. intros [_ _ _ _ _ Hp _ _]. lia. }
  rewrite validate_phases_spec. split.
  - intros (? & ? & ? & ? & _ & ?). by constructor.
  - intros [? ? ? ? ? ? ? ?]. split_and!; try done. intros p _ Hp. by apply elem_of_nil in Hp.
Qed.

Lemma extract_meta_well_formed script meta : extract_meta script = inl meta → first_statement_is_meta script = true ∧ well_formed meta.
Proof.
  unfold extract_meta. destruct (first_statement_is_meta script); [|done]. cbn [negb].
  destruct (compile_error script); [done|]. destruct (meta_of script) as [map|]; [|done]. destruct (read_meta map) as [m|]; [|done].
  destruct (validate_meta m) eqn:Hm; [done|]. intros [= <-]. split; [done|by apply validate_meta_spec].
Qed.
End Meta.

(** * The dry run *)

Section DryRun.
Context `{!Json, !Storage, !Rhai, !MetaProbe}.

(** The host of a dry run never reserves more agent calls than the budget. *)
Lemma stub_calls_bounded agent_budget log :
  0 ≤ agent_budget → Forall (λ r, match r with ReserveAgentCalls n | ReleaseAgentCalls n => 0 ≤ n | _ => True end) log →
  0 ≤ stub_agent_calls agent_budget log ≤ agent_budget.
Proof.
  intros Hb Hlog. enough (∀ calls, 0 ≤ calls ≤ agent_budget → 0 ≤ fold_left (stub_charge agent_budget) log calls ≤ agent_budget) as Hgen
    by (apply Hgen; lia).
  induction Hlog as [|r log Hr _ IH]; intros calls Hc; [done|]. cbn [fold_left]. apply IH.
  destruct r as [n|n|o|t b|m b|n f b| |n v|n c|n|c]; cbn; try done; [|unfold sat_sub; lia].
  destruct (Z.ltb_spec agent_budget (sat_add 64 calls n)); [done|]. unfold sat_add, umax in *. lia.
Qed.

(** It fails a reservation by the quota alone, and nothing else by it: a dry run
    never comes to the errors that a journal misses. *)
Lemma stub_candid agent_budget now : @candid _ (stub_host agent_budget now).
Proof.
  intros log n. unfold answer, stub_host, stub_answer. destruct (log !! n) as [[]|]; try done. by destruct (agent_budget <? _).
Qed.

(** A script that validates says of itself what is well formed, and its dry run
    ended by itself: it completed, or paused. *)
Lemma validated_script compile now script args agent_budget report :
  validate_script_with_agent_budget compile now script args agent_budget = inl report →
  ∃ meta, extract_meta script = inl meta ∧ well_formed meta ∧ vr_name report = wm_name meta ∧ vr_phases report = zlen (wm_phases meta) ∧
    vr_outcome_ok report = true ∧
    match (dry_run compile now script args agent_budget).1 with WfCompleted _ | WfPaused _ _ => True | _ => False end.
Proof.
  unfold validate_script_with_agent_budget. destruct (extract_meta script) as [meta|] eqn:Hm; [|done].
  pose proof (extract_meta_well_formed _ _ Hm) as [_ Hwf]. destruct (dry_run _ _ _ _ _) as [o f]. cbn [fst].
  destruct o; cbn [outcome_summary negb]; intros; simplify_eq; by exists meta.
Qed.
End DryRun.

(** The first statement may bind another variable whose name begins so. *)
Example metadata_is_no_meta :
  first_statement_is_meta (lit "let metadata = 1; let meta = 2;") = true ∧
  first_statement_is_meta (lit "// a comment" ++ [10] ++ lit "/* and another */ const meta = 2;") = true ∧
  first_statement_is_meta (lit "let  meta = 2;") = false ∧ first_statement_is_meta (lit "/* let meta = 2;") = false.
Proof. by vm_compute. Qed.
