(* ===== verification/WorkflowTracker.v ===== *)
(** The runs of workflows that a session keeps
    (src/crates/codegen/intellihelper-shell/src/session/workflow/tracker.rs).

    An operation takes one moment for all its readings of the two clocks
    ([Moment]).  The runs are a list, of which the first with an identifier
    counts. *)
From stdpp Require Import gmap.
From S2P Require Import Prelude Str Truncate WorkflowJournal WorkflowEngine WorkflowDemo WorkflowMeta.

Inductive WorkflowRunStatus : Type :=
| WsActive | WsUserPaused | WsBackOffPaused | WsNoProgressPaused | WsInfraPaused | WsBlocked
| WsBudgetLimited | WsInterrupted | WsComplete | WsFailed | WsCancelled.

#[global] Instance WorkflowRunStatus_eq_dec : EqDecision WorkflowRunStatus.
Proof. solve_decision. Defined.

Definition ws_as_str (s : WorkflowRunStatus) : rstr :=
  match s with
  | WsActive => lit "active" | WsUserPaused => lit "user_paused" | WsBackOffPaused => lit "back_off_paused"
  | WsNoProgressPaused => lit "no_progress_paused" | WsInfraPaused => lit "infra_paused" | WsBlocked => lit "blocked"
  | WsBudgetLimited => lit "budget_limited" | WsInterrupted => lit "interrupted" | WsComplete => lit "complete"
  | WsFailed => lit "failed" | WsCancelled => lit "cancelled"
  end.

Definition ws_is_terminal (s : WorkflowRunStatus) : bool :=
  match s with WsInterrupted | WsComplete | WsFailed | WsCancelled => true | _ => false end.
Definition ws_is_completion_reportable (s : WorkflowRunStatus) : bool := ws_is_terminal s || bool_decide (s = WsBudgetLimited).
Definition ws_is_paused (s : WorkflowRunStatus) : bool :=
  match s with
  | WsUserPaused | WsBackOffPaused | WsNoProgressPaused | WsInfraPaused | WsBlocked | WsBudgetLimited => true
  | _ => false
  end.
Definition ws_is_resumable (s : WorkflowRunStatus) : bool := ws_is_paused s || bool_decide (s = WsFailed).

Definition ws_from_pause (k : PauseKind) : WorkflowRunStatus :=
  match k with
  | PkUser => WsUserPaused | PkBackOff => WsBackOffPaused | PkNoProgress => WsNoProgressPaused
  | PkVerification => WsBlocked | PkInfra => WsInfraPaused
  end.

Record HistoryEntry : Type := mkHistory { he_event : rstr; he_detail : option rstr; he_at : rstr }.

Definition WORKFLOW_HISTORY_MAX : nat := 64.
Definition WORKFLOW_PAUSE_MESSAGE_MAX_BYTES : Z := 4 * 1024.
Definition WORKFLOW_AGENT_ROWS_MAX : nat := 256.
Definition MAX_AGENT_BUDGET : Z := 1024.

Definition capped_pause_message (message : rstr) : rstr := truncate_str message WORKFLOW_PAUSE_MESSAGE_MAX_BYTES.

Record TokenLease : Type := mkLease { lease_id : rstr; lease_grant : Z }.

Record AgentRow : Type := mkRow {
  row_id : rstr;
  row_label : rstr;
  row_phase : option rstr;
  row_model : option rstr;
  row_state : rstr;
  row_tokens : Z;
  row_duration : Z;
}.
#[global] Instance AgentRow_eta : Eta AgentRow :=
  λ r, mkRow (row_id r) (row_label r) (row_phase r) (row_model r) (row_state r) (row_tokens r) (row_duration r).

Record RunState : Type := mkRunState {
  run_id : rstr;
  revision : Z;
  wr_name : rstr;
  wr_objective : rstr;
  wr_status : WorkflowRunStatus;
  wr_phases : list PhaseMeta;
  current_phase : option rstr;
  agent_budget : option Z;
  agents_used : Z;
  token_leases : list TokenLease;
  usage_incomplete : bool;
  elapsed_floor : Z;
  pause_message : option rstr;
  history : list HistoryEntry;
  journal_path : option rstr;
  result_summary : option rstr;
  agent_rows : list AgentRow;
}.
#[global] Instance RunState_eta : Eta RunState := λ s,
  mkRunState (run_id s) (revision s) (wr_name s) (wr_objective s) (wr_status s) (wr_phases s) (current_phase s) (agent_budget s)
    (agents_used s) (token_leases s) (usage_incomplete s) (elapsed_floor s) (pause_message s) (history s) (journal_path s)
    (result_summary s) (agent_rows s).

Record TrackedRun : Type := mkTracked { tr_state : RunState; active_since : option Z; execution_epoch : Z }.
#[global] Instance TrackedRun_eta : Eta TrackedRun := λ r, mkTracked (tr_state r) (active_since r) (execution_epoch r).

Record Tracker : Type := mkTracker {
  runs : list TrackedRun;
  reported_terminal : gset rstr;
  terminal_at_restore : gset rstr;
  status_reported : gmap rstr Z;
}.
#[global] Instance Tracker_eta : Eta Tracker :=
  λ t, mkTracker (runs t) (reported_terminal t) (terminal_at_restore t) (status_reported t).

Definition tracker_default : Tracker := mkTracker [] ∅ ∅ ∅.

(** [Instant::now], in milliseconds, and [now_rfc3339]. *)
Record Moment : Type := mkMoment { instant : Z; stamp : rstr }.

(** The conversion of a label's case, and the letters and digits of Unicode. *)
Class Letters : Type := { lowercase : rstr → rstr; alphanumeric : rchar → bool }.

(** * One run *)

Definition advance_revision (s : RunState) : RunState := s <| revision := sat_add 64 (revision s) 1 |>.

Definition record_event (m : Moment) (event : rstr) (detail : option rstr) (s : RunState) : RunState :=
  let s := advance_revision s in
  let h := history s ++ [mkHistory event detail (stamp m)] in
  s <| history := drop (length h - WORKFLOW_HISTORY_MAX) h |>.

Definition live_elapsed_ms (m : Moment) (r : TrackedRun) : Z :=
  sat_add 64 (elapsed_floor (tr_state r))
    (match active_since r with Some since => wrap 64 (sat_sub (instant m) since) | None => 0 end).

Definition fold_elapsed (m : Moment) (r : TrackedRun) : TrackedRun :=
  match active_since r with
  | Some _ => r <| tr_state := (tr_state r) <| elapsed_floor := live_elapsed_ms m r |> |> <| active_since := None |>
  | None => r
  end.

Definition on_state (f : RunState → RunState) (r : TrackedRun) : TrackedRun := r <| tr_state ::= f |>.

(** What [resume_run] does once the run may go on. *)
Definition cancel_running (row : AgentRow) : AgentRow :=
  if bool_decide (row_state row = lit "running") then row <| row_state := lit "cancelled" |> else row.

Definition raised_budget (new_budget old : option Z) : option Z :=
  match new_budget with Some raised => Some (Z.max raised (default 0 old)) | None => old end.

Definition resume_refused (new_budget : option Z) (s : RunState) : bool :=
  let candidate := raised_budget new_budget (agent_budget s) in
  let raised := is_some_and (λ b, default 0 (agent_budget s) <? b) new_budget in
  negb (ws_is_resumable (wr_status s))
  || bool_decide (wr_status s = WsBudgetLimited) && (negb raised || is_some_and (λ limit, limit <=? agents_used s) candidate).

Definition resumed (m : Moment) (new_budget : option Z) (r : TrackedRun) : TrackedRun :=
  let s := tr_state r in
  let s := s <| agent_budget := option_or (raised_budget new_budget (agent_budget s)) (agent_budget s) |>
             <| wr_status := WsActive |> <| pause_message := None |> <| result_summary := None |>
             <| agent_rows ::= fmap cancel_running |> in
  mkTracked (record_event m (lit "workflow_resumed") None s) (Some (instant m)) (wrap 64 (execution_epoch r + 1)).

Definition paused_by_user (m : Moment) (message : option rstr) (r : TrackedRun) : TrackedRun :=
  if bool_decide (wr_status (tr_state r) = WsActive) then
    on_state (λ s, record_event m (lit "workflow_paused") (Some (lit "user"))
                     (s <| wr_status := WsUserPaused |> <| pause_message := capped_pause_message <$> message |>))
      (fold_elapsed m r)
  else r.

Definition interrupted (m : Moment) (message : rstr) (r : TrackedRun) : TrackedRun :=
  let message := capped_pause_message message in
  on_state (λ s, record_event m (lit "workflow_interrupted") (Some message)
                   (s <| wr_status := WsInterrupted |> <| pause_message := Some message |> <| result_summary := None |>))
    (fold_elapsed m r).

Section Outcomes.
Context `{!Json}.

Definition outcome_kind (o : WorkflowOutcome (Value Number)) : rstr :=
  match o with
  | WfCompleted _ => lit "completed" | WfPaused _ _ => lit "paused" | WfBudgetExceeded _ => lit "budget_exceeded"
  | WfCancelled => lit "cancelled" | WfFailed _ => lit "failed"
  end.

Definition SUMMARY_MAX : Z := 16 * 1024.

Definition summarize_result (result : Value Number) : rstr :=
  let text :=
    match result with
    | VString s => s
    | VNull => lit "done"
    | VObject _ =>
        match (v ← value_get (lit "report") result; as_str v), (v ← value_get (lit "path") result; as_str v) with
        | Some report, Some path => report ++ [10; 10] ++ lit "_Full report: " ++ path ++ lit "_"
        | Some report, None => report
        | None, _ => value_text result
        end
    | other => value_text other
    end in
  if SUMMARY_MAX <? byte_len text then truncate_str text SUMMARY_MAX ++ [8230] else text.

Definition budget_hint (s : RunState) : rstr :=
  if MAX_AGENT_BUDGET <=? agents_used s
  then lit "finished work is kept, but this run reached the maximum agent budget and cannot be resumed; start a new run"
  else lit "finished work is kept; resume the run with a higher absolute agent budget to continue".

Definition outcome_applied (m : Moment) (o : WorkflowOutcome (Value Number)) (s : RunState) : RunState :=
  match o with
  | WfCompleted result =>
      record_event m (lit "workflow_completed") None
        (s <| wr_status := WsComplete |> <| result_summary := Some (summarize_result result) |>)
  | WfPaused kind message =>
      record_event m (lit "workflow_paused") (Some (pause_kind_as_str kind))
        (s <| wr_status := ws_from_pause kind |> <| pause_message := Some (capped_pause_message message) |>)
  | WfBudgetExceeded message =>
      record_event m (lit "workflow_budget_limited") None
        (s <| wr_status := WsBudgetLimited |>
           <| pause_message := Some (capped_pause_message (message ++ lit " " ++ [8212] ++ lit " " ++ budget_hint s)) |>)
  | WfCancelled => record_event m (lit "workflow_cancelled") None (s <| wr_status := WsCancelled |>)
  | WfFailed error =>
      let error := capped_pause_message error in
      record_event m (lit "workflow_failed") (Some error) (s <| wr_status := WsFailed |> <| pause_message := Some error |>)
  end.

Definition outcome_ignored (s : RunState) : bool :=
  match wr_status s with WsInterrupted | WsFailed | WsCancelled => true | _ => false end.

Definition with_outcome (m : Moment) (o : WorkflowOutcome (Value Number)) (r : TrackedRun) : TrackedRun :=
  on_state (λ s,
    if outcome_ignored s then
      record_event m (lit "workflow_outcome_ignored")
        (Some (lit "ignored " ++ outcome_kind o ++ lit " while status is " ++ ws_as_str (wr_status s))) s
    else outcome_applied m o s) (fold_elapsed m r).
End Outcomes.

(** * The tracker *)

Definition has_id (id : rstr) (r : TrackedRun) : bool := bool_decide (run_id (tr_state r) = id).

(** [run_mut], and what is done with the run. *)
Fixpoint edit_first {A} (id : rstr) (f : TrackedRun → A * TrackedRun) (l : list TrackedRun) : option (A * list TrackedRun) :=
  match l with
  | [] => None
  | r :: l =>
      if has_id id r then let '(a, r) := f r in Some (a, r :: l)
      else match edit_first id f l with Some (a, l) => Some (a, r :: l) | None => None end
  end.

Definition on_run {A} (id : rstr) (f : TrackedRun → A * TrackedRun) : St Tracker (option A) := λ t,
  match edit_first id f (runs t) with Some (a, l) => (Some a, t <| runs := l |>) | None => (None, t) end.

(** An edit that hands a copy of the state out. *)
Definition edit (id : rstr) (f : TrackedRun → TrackedRun) : St Tracker (option RunState) :=
  on_run id (λ r, let r := f r in (tr_state r, r)).

Definition find_run (id : rstr) (t : Tracker) : option TrackedRun := List.find (has_id id) (runs t).
Definition tracker_get (id : rstr) (t : Tracker) : option RunState := tr_state <$> find_run id t.
Definition tracker_list (t : Tracker) : list RunState := tr_state <$> runs t.
Definition tracker_elapsed_ms (m : Moment) (id : rstr) (t : Tracker) : Z :=
  match find_run id t with Some r => live_elapsed_ms m r | None => 0 end.
Definition tracker_epoch (id : rstr) (t : Tracker) : option Z := execution_epoch <$> find_run id t.

(** The name of a run, with a number when it is taken. *)
Definition name_taken (t : Tracker) (candidate : rstr) : bool := existsb (λ r, bool_decide (wr_name (tr_state r) = candidate)) (runs t).

Fixpoint numbered_name (fuel : nat) (t : Tracker) (name : rstr) (n : Z) : rstr :=
  let candidate := name ++ lit "-" ++ fmt_dec n in
  match fuel with
  | O => candidate
  | S fuel => if name_taken t candidate then numbered_name fuel t name (n + 1) else candidate
  end.

Definition fresh_name (t : Tracker) (name : rstr) : rstr :=
  if name_taken t name then numbered_name (length (runs t)) t name 2 else name.

Definition start_run (m : Moment) (id name objective : rstr) (phases : list PhaseMeta) (budget : option Z) (path : option rstr)
    : St Tracker RunState := λ t,
  let s := mkRunState id 0 (fresh_name t name) objective WsActive phases None budget 0 [] false 0 None [] path None [] in
  let s := record_event m (lit "workflow_started") None s in
  (s, t <| runs ::= λ l, l ++ [mkTracked s (Some (instant m)) 0] |>).

Definition resume_run (m : Moment) (id : rstr) (new_budget : option Z) : St Tracker (option RunState) := λ t,
  match on_run id (λ r, if resume_refused new_budget (tr_state r) then (None, r)
                        else let r := resumed m new_budget r in (Some (tr_state r), r)) t with
  | (Some (Some s), t) =>
      (Some s, t <| reported_terminal := reported_terminal t ∖ {[id]} |> <| terminal_at_restore := terminal_at_restore t ∖ {[id]} |>)
  | (_, t) => (None, t)
  end.

Definition set_phase (m : Moment) (id title : rstr) : St Tracker (option RunState) :=
  edit id (on_state (λ s,
    if bool_decide (current_phase s = Some title) then s
    else record_event m (lit "phase_entered") (Some title) (s <| current_phase := Some title |>))).

(** The new state, or what was asked for and the limit. *)
Definition reserve_agents (id : rstr) (count : Z) : St Tracker (RunState + (Z * Z)) := λ t,
  match on_run id (λ r,
    let s := tr_state r in
    let requested := sat_add 64 (agents_used s) count in
    match agent_budget s with
    | Some limit =>
        if limit <? requested then (inr (requested, limit), r)
        else let r := on_state (λ s, advance_revision (s <| agents_used := requested |>)) r in (inl (tr_state r), r)
    | None => let r := on_state (λ s, advance_revision (s <| agents_used := requested |>)) r in (inl (tr_state r), r)
    end) t with
  | (Some res, t) => (res, t)
  | (None, t) => (inr (count, 0), t)
  end.

Definition release_agents (id : rstr) (count : Z) : St Tracker (option RunState) :=
  edit id (on_state (λ s, advance_revision (s <| agents_used := sat_sub (agents_used s) count |>))).

Definition reconcile_agents_used (id : rstr) (used : Z) : St Tracker (option RunState) :=
  edit id (on_state (λ s, if agents_used s =? used then s else advance_revision (s <| agents_used := used |>))).

Section Rows.
Context `{!Letters}.

Definition default_label_for (rows : list AgentRow) (phase : option rstr) : rstr :=
  let ordinal := countb (λ a, bool_decide (row_phase a = phase)) rows + 1 in
  match phase with
  | Some p =>
      let slug := join (lit "-") (List.filter (λ s, negb (is_empty s))
                    (split_char 45 ((λ c, if alphanumeric c then c else 45) <$> lowercase p))) in
      slug ++ lit "-" ++ fmt_dec ordinal
  | None => lit "agent-" ++ fmt_dec ordinal
  end.

(** The first row that no longer runs goes, when there are too many. *)
Fixpoint drop_finished (rows : list AgentRow) : list AgentRow :=
  match rows with
  | [] => []
  | row :: rows => if bool_decide (row_state row ≠ lit "running") then rows else row :: drop_finished rows
  end.

Definition agent_started (id : rstr) (row : AgentRow) : St Tracker rstr := λ t,
  match on_run id (λ r,
    let s := tr_state r in
    let row := row <| row_phase := option_or (row_phase row) (current_phase s) |> in
    let row := if is_empty (row_label row) then row <| row_label := default_label_for (agent_rows s) (row_phase row) |> else row in
    let rows := agent_rows s ++ [row] in
    (row_label row,
     on_state (λ s, advance_revision (s
       <| agent_rows := if (WORKFLOW_AGENT_ROWS_MAX <? length rows)%nat then drop_finished rows else rows |>)) r)) t with
  | (Some label, t) => (label, t)
  | (None, t) => (if is_empty (row_label row) then lit "agent" else row_label row, t)
  end.
End Rows.

(** The first row of an agent, if there is one. *)
Fixpoint edit_row (agent : rstr) (f : AgentRow → AgentRow) (rows : list AgentRow) : option (list AgentRow) :=
  match rows with
  | [] => None
  | row :: rows => if bool_decide (row_id row = agent) then Some (f row :: rows) else cons row <$> edit_row agent f rows
  end.

Definition on_row (id agent : rstr) (f : AgentRow → AgentRow) : St Tracker unit :=
  _ ← edit id (on_state (λ s,
        match edit_row agent f (agent_rows s) with
        | Some rows => advance_revision (s <| agent_rows := rows |>)
        | None => s
        end));
  mret tt.

Definition rebind_agent_id (id agent new_agent : rstr) : St Tracker unit := on_row id agent (λ row, row <| row_id := new_agent |>).
Definition agent_finished (id agent state : rstr) (tokens duration : Z) : St Tracker unit :=
  on_row id agent (λ row, row <| row_state := state |> <| row_tokens := tokens |> <| row_duration := duration |>).

Definition log_message (m : Moment) (id message : rstr) : St Tracker (option RunState) :=
  edit id (on_state (record_event m (lit "log") (Some message))).
Definition pause_user (m : Moment) (id : rstr) (message : option rstr) : St Tracker (option RunState) := edit id (paused_by_user m message).
Definition interrupt (m : Moment) (id message : rstr) : St Tracker (option RunState) := edit id (interrupted m message).
Definition apply_outcome `{!Json} (m : Moment) (id : rstr) (o : WorkflowOutcome (Value Number)) : St Tracker (option RunState) :=
  edit id (with_outcome m o).

Fixpoint remove_first (id : rstr) (l : list TrackedRun) : option (TrackedRun * list TrackedRun) :=
  match l with
  | [] => None
  | r :: l => if has_id id r then Some (r, l) else match remove_first id l with Some (x, l) => Some (x, r :: l) | None => None end
  end.

Definition clear_run (m : Moment) (id : rstr) : St Tracker (option RunState) := λ t,
  match remove_first id (runs t) with
  | Some (r, l) => (Some (record_event m (lit "workflow_cleared") None (tr_state (fold_elapsed m r))), t <| runs := l |>)
  | None => (None, t)
  end.

(** ** Restoring *)

Definition charge_leases (m : Moment) (s : RunState) : RunState :=
  match token_leases s with
  | [] => s
  | leases =>
      record_event m (lit "workflow_budget_accounting_incomplete") (Some (lit "unresolved reservations charged on restore"))
        (s <| token_leases := [] |>
           <| agents_used := sat_add 64 (agents_used s) (sum_sat 64 (lease_grant <$> leases)) |> <| usage_incomplete := true |>)
  end.

Definition interrupt_restored (m : Moment) (s : RunState) : RunState :=
  if bool_decide (wr_status s = WsActive) then
    record_event m (lit "workflow_interrupted") (Some (lit "restored_without_stable_operation_identity"))
      (s <| wr_status := WsInterrupted |>
         <| pause_message := Some (lit "the session ended while this workflow was active; start a new run") |>)
  else s.

Definition cancel_ghosts (s : RunState) : RunState :=
  if existsb (λ row, bool_decide (row_state row = lit "running")) (agent_rows s)
  then advance_revision (s <| agent_rows ::= fmap cancel_running |>) else s.

Definition restored (m : Moment) (s : RunState) : RunState := cancel_ghosts (interrupt_restored m (charge_leases m s)).

Definition from_snapshots (m : Moment) (snapshots : list RunState) : Tracker :=
  let runs := (λ s, mkTracked (restored m s) None 0) <$> snapshots in
  mkTracker runs ∅
    (list_to_set ((λ r, run_id (tr_state r)) <$> List.filter (λ r, ws_is_completion_reportable (wr_status (tr_state r))) runs)) ∅.

(** ** Reports *)

Definition is_unreported_completion (id : rstr) (rev : Z) (t : Tracker) : bool :=
  existsb (λ r, has_id id r && (revision (tr_state r) =? rev) && ws_is_completion_reportable (wr_status (tr_state r))
                && bool_decide (id ∉ reported_terminal t)) (runs t).

Definition unreported (t : Tracker) (s : RunState) : bool :=
  ws_is_completion_reportable (wr_status s) && bool_decide (run_id s ∉ reported_terminal t).

Definition take_unreported_terminal_runs : St Tracker (list RunState * list RunState) := λ t,
  let all := List.filter (unreported t) (tracker_list t) in
  let restored := List.filter (λ s, bool_decide (run_id s ∈ terminal_at_restore t)) all in
  let fresh := List.filter (λ s, bool_decide (run_id s ∉ terminal_at_restore t)) all in
  ((restored, fresh), t <| reported_terminal ::= λ ids, ids ∪ list_to_set (run_id <$> restored ++ fresh) |>).

Definition take_status_report (m : Moment) : St Tracker (list RunState) := λ t,
  let live := List.filter (λ r, negb (ws_is_completion_reportable (wr_status (tr_state r)))) (runs t) in
  let moved := existsb (λ r, bool_decide (status_reported t !! run_id (tr_state r) ≠ Some (revision (tr_state r)))) live in
  if negb moved then ([], t)
  else
    let report := (λ r, (tr_state r) <| elapsed_floor := live_elapsed_ms m r |>) <$> live in
    let ids : gset rstr := list_to_set (run_id <$> tracker_list t) in
    let kept := filter (λ e, e.1 ∈ ids) (status_reported t) in
    (report, t <| status_reported := foldl (λ reported s, <[run_id s := revision s]> reported) kept report |>).

(** * Operations as steps *)

Section Steps.
Context `{!Json, !Letters}.

Inductive TrackerOp : Type :=
| OStart (m : Moment) (id name objective : rstr) (phases : list PhaseMeta) (budget : option Z) (path : option rstr)
| OResume (m : Moment) (id : rstr) (budget : option Z)
| OPhase (m : Moment) (id title : rstr)
| OReserve (id : rstr) (count : Z)
| ORelease (id : rstr) (count : Z)
| OReconcile (id : rstr) (used : Z)
| OAgentStarted (id : rstr) (row : AgentRow)
| ORebind (id agent new_agent : rstr)
| OAgentFinished (id agent state : rstr) (tokens duration : Z)
| OLog (m : Moment) (id message : rstr)
| OPause (m : Moment) (id : rstr) (message : option rstr)
| OInterrupt (m : Moment) (id message : rstr)
| OOutcome (m : Moment) (id : rstr) (o : WorkflowOutcome (Value Number))
| OClear (m : Moment) (id : rstr)
| OTerminalReport
| OStatusReport (m : Moment).

Definition apply_op (op : TrackerOp) (t : Tracker) : Tracker :=
  match op with
  | OStart m id name objective phases budget path => (start_run m id name objective phases budget path t).2
  | OResume m id budget => (resume_run m id budget t).2
  | OPhase m id title => (set_phase m id title t).2
  | OReserve id count => (reserve_agents id count t).2
  | ORelease id count => (release_agents id count t).2
  | OReconcile id used => (reconcile_agents_used id used t).2
  | OAgentStarted id row => (agent_started id row t).2
  | ORebind id agent new_agent => (rebind_agent_id id agent new_agent t).2
  | OAgentFinished id agent state tokens duration => (agent_finished id agent state tokens duration t).2
  | OLog m id message => (log_message m id message t).2
  | OPause m id message => (pause_user m id message t).2
  | OInterrupt m id message => (interrupt m id message t).2
  | OOutcome m id o => (apply_outcome m id o t).2
  | OClear m id => (clear_run m id t).2
  | OTerminalReport => (take_unreported_terminal_runs t).2
  | OStatusReport m => (take_status_report m t).2
  end.

(** The integers of an operation are [u64]. *)
Definition op_ok (op : TrackerOp) : Prop :=
  match op with
  | OStart _ _ _ _ _ budget _ | OResume _ _ budget => ∀ b, budget = Some b → uint 64 b
  | OReserve _ n | ORelease _ n | OReconcile _ n => uint 64 n
  | OAgentStarted _ row => uint 64 (row_tokens row) ∧ uint 64 (row_duration row)
  | OAgentFinished _ _ _ tokens duration => uint 64 tokens ∧ uint 64 duration
  | _ => True
  end.

Definition run_ops (ops : list TrackerOp) (t : Tracker) : Tracker := foldl (λ t op, apply_op op t) t ops.
End Steps.

(** * One run *)

Definition row_ok (row : AgentRow) : Prop := uint 64 (row_tokens row) ∧ uint 64 (row_duration row).

Record state_ok (s : RunState) : Prop := {
  so_revision : uint 64 (revision s);
  so_used : uint 64 (agents_used s);
  so_budget : ∀ b, agent_budget s = Some b → uint 64 b;
  so_history : (length (history s) ≤ WORKFLOW_HISTORY_MAX)%nat;
  so_message : ∀ message, pause_message s = Some message → byte_len message ≤ WORKFLOW_PAUSE_MESSAGE_MAX_BYTES;
  so_elapsed : uint 64 (elapsed_floor s);
  so_rows : Forall row_ok (agent_rows s);
}.

(** The clock of a run goes while the run does. *)
Record run_ok (r : TrackedRun) : Prop := {
  ok_state : state_ok (tr_state r);
  ok_clock : is_Some (active_since r) ↔ wr_status (tr_state r) = WsActive;
  ok_epoch : uint 64 (execution_epoch r);
}.

(** Which status one operation may put behind which: what was interrupted stays so,
    what was cancelled is at most interrupted, what failed is resumed or interrupted,
    what completed is not resumed. *)
Definition may_follow (a b : WorkflowRunStatus) : bool :=
  bool_decide (a = b)
  || match a with
     | WsInterrupted => false
     | WsCancelled => bool_decide (b = WsInterrupted)
     | WsFailed => bool_decide (b = WsActive) || bool_decide (b = WsInterrupted)
     | WsComplete => negb (bool_decide (b = WsActive))
     | _ => true
     end.

Lemma may_follow_refl a : may_follow a a = true.
Proof. unfold may_follow. by rewrite bool_decide_eq_true_2. Qed.

Lemma may_follow_interrupted a : may_follow a WsInterrupted = true.
Proof. by destruct a. Qed.

(** One operation on a run: its state is as it was, or has the next revision; and
    the run starts only when it may ([go]). *)
Record moves (go : Prop) (r r' : TrackedRun) : Prop := {
  mv_id : run_id (tr_state r') = run_id (tr_state r);
  mv_seen : tr_state r' = tr_state r ∨ revision (tr_state r') = sat_add 64 (revision (tr_state r)) 1;
  mv_follow : may_follow (wr_status (tr_state r)) (wr_status (tr_state r')) = true;
  mv_start : wr_status (tr_state r') = WsActive → wr_status (tr_state r) = WsActive ∨ go;
  mv_ok : run_ok r → run_ok r';
}.

Lemma moves_refl go r : moves go r r.
Proof. split; auto using may_follow_refl. Qed.

Lemma capped_ok message : byte_len (capped_pause_message message) ≤ WORKFLOW_PAUSE_MESSAGE_MAX_BYTES.
Proof.
  unfold capped_pause_message. rewrite truncate_str_prefix by done. by apply byte_prefix_len.
Qed.

Lemma advance_revision_ok s : state_ok s → state_ok (advance_revision s).
Proof. intros [Hr Hu Hb Hh Hm He Hw]. split; try done. apply sat_add_range; [done|]. unfold uint, umax. lia. Qed.

Lemma history_capped m event detail s : (length (history (record_event m event detail s)) ≤ WORKFLOW_HISTORY_MAX)%nat.
Proof. unfold record_event. cbn. rewrite length_drop, length_app. cbn. lia. Qed.

Lemma record_event_ok m event detail s : state_ok s → state_ok (record_event m event detail s).
Proof.
  intros Hs. apply advance_revision_ok in Hs as [Hr Hu Hb Hh Hm He Hw]. split; try done. apply history_capped.
Qed.

Lemma fold_elapsed_state m r :
  let r' := fold_elapsed m r in
  tr_state r' = (tr_state r) <| elapsed_floor := elapsed_floor (tr_state r') |> ∧ active_since r' = None ∧ execution_epoch r' = execution_epoch r.
Proof. unfold fold_elapsed. destruct r as [[] [since|] ep]; done. Qed.

Lemma fold_elapsed_fits m r : uint 64 (elapsed_floor (tr_state r)) → uint 64 (elapsed_floor (tr_state (fold_elapsed m r))).
Proof.
  intros Hr. unfold fold_elapsed. destruct (active_since r) as [since|] eqn:Hs; [|done]. cbn. unfold live_elapsed_ms. rewrite Hs.
  apply sat_add_range; [done|]. apply wrap_range. lia.
Qed.

Lemma cancel_running_ok rows : Forall row_ok rows → Forall row_ok (cancel_running <$> rows).
Proof.
  intros Hr. apply Forall_fmap. eapply Forall_impl; [exact Hr|]. intros row Hok. unfold compose, cancel_running. by case_bool_decide.
Qed.

Lemma drop_finished_ok rows : Forall row_ok rows → Forall row_ok (drop_finished rows).
Proof. induction 1 as [|row rows Hr Hrs IH]; [done|]. cbn. case_bool_decide; [done|by constructor]. Qed.

Lemma edit_row_ok agent f rows rows' :
  (∀ row, row_ok row → row_ok (f row)) → Forall row_ok rows → edit_row agent f rows = Some rows' → Forall row_ok rows'.
Proof.
  intros Hf Hr. revert rows'. induction Hr as [|row rows Hrow Hrs IH]; intros rows' H; [done|]. cbn in H. case_bool_decide; [simplify_eq; constructor; auto|].
  destruct (edit_row agent f rows) as [l|]; [|done]. simplify_eq/=. constructor; [done|by apply IH].
Qed.

Lemma message_ok s message :
  state_ok s → (∀ text, message = Some text → byte_len text ≤ WORKFLOW_PAUSE_MESSAGE_MAX_BYTES) → state_ok (s <| pause_message := message |>).
Proof. by intros [Hr Hu Hb Hh _ He Hw] Hm. Qed.

Lemma status_ok s status : state_ok s → state_ok (s <| wr_status := status |>).
Proof. by intros [Hr Hu Hb Hh Hm He Hw]. Qed.

Lemma summary_ok s summary : state_ok s → state_ok (s <| result_summary := summary |>).
Proof. by intros [Hr Hu Hb Hh Hm He Hw]. Qed.

Lemma rows_ok s rows : Forall row_ok rows → state_ok s → state_ok (s <| agent_rows := rows |>).
Proof. by intros Hrows [Hr Hu Hb Hh Hm He Hw]. Qed.

Lemma elapsed_ok s n : uint 64 n → state_ok s → state_ok (s <| elapsed_floor := n |>).
Proof. by intros Hn [Hr Hu Hb Hh Hm He Hw]. Qed.

Lemma used_ok s used : uint 64 used → state_ok s → state_ok (s <| agents_used := used |>).
Proof. by intros Hn [Hr Hu Hb Hh Hm He Hw]. Qed.

Create HintDb tracker.
#[local] Hint Resolve record_event_ok advance_revision_ok message_ok status_ok summary_ok rows_ok used_ok may_follow_refl
  may_follow_interrupted : tracker.

(** An edit that leaves the status and the clock. *)
Lemma moves_same go r f :
  run_id (f (tr_state r)) = run_id (tr_state r) → wr_status (f (tr_state r)) = wr_status (tr_state r) →
  (f (tr_state r) = tr_state r ∨ revision (f (tr_state r)) = sat_add 64 (revision (tr_state r)) 1) →
  (state_ok (tr_state r) → state_ok (f (tr_state r))) → moves go r (on_state f r).
Proof.
  destruct r as [s since ep]. cbn. intros Hid Hst Hrev Hok. split; cbn; auto; [rewrite Hst; auto with tracker|rewrite Hst; auto|].
  intros [Hs Hc He]. split; cbn in *; [auto|by rewrite Hst|done].
Qed.

(** An edit that stops the clock. *)
Lemma moves_fold go m r f :
  (∀ s, run_id (f s) = run_id s ∧ revision (f s) = sat_add 64 (revision s) 1 ∧
        (wr_status s = wr_status (tr_state r) → may_follow (wr_status s) (wr_status (f s)) = true ∧ wr_status (f s) ≠ WsActive) ∧
        (state_ok s → state_ok (f s))) →
  moves go r (on_state f (fold_elapsed m r)).
Proof.
  intros Hf. destruct (fold_elapsed_state m r) as (Hs & Hc & Hep). set (r' := fold_elapsed m r) in *.
  destruct (Hf (tr_state r')) as (Hid & Hrev & Hst & Hok).
  assert (wr_status (tr_state r') = wr_status (tr_state r)) as Hsame by (by rewrite Hs).
  destruct (Hst Hsame) as [Hfol Hna].
  split; cbn.
  - by rewrite Hid, Hs.
  - right. by rewrite Hrev, Hs.
  - by rewrite <- Hsame.
  - done.
  - intros [Hso Hcl He]. split; cbn.
    + apply Hok. rewrite Hs. apply elapsed_ok; [|done]. apply fold_elapsed_fits, (so_elapsed _ Hso).
    + rewrite Hc. split; [by intros [? ?]|done].
    + by rewrite Hep.
Qed.

Lemma moves_resumed m b r :
  (∀ n, b = Some n → uint 64 n) → resume_refused b (tr_state r) = false → moves True r (resumed m b r).
Proof.
  intros Hb Href. unfold resume_refused in Href. apply orb_false_elim in Href as [Hres _]. apply negb_false_iff in Hres.
  destruct r as [s since ep]. cbn in *. split; cbn; [done|by right| | |].
  - by destruct (wr_status s).
  - by right.
  - intros [Hs _ He]. cbn in *. split; cbn; [|done|by apply wrap_range]. apply record_event_ok.
    destruct Hs as [Hr Hu Hbu Hh Hm Hel Hrows]. split; cbn; try done; [|by apply cancel_running_ok]. intros n Hn.
    destruct b as [raised|]; cbn in Hn; [injection Hn as <-|destruct (agent_budget s); cbn in Hn; by auto].
    specialize (Hb raised eq_refl). destruct (agent_budget s) as [old|]; cbn; [specialize (Hbu old eq_refl)|]; unfold uint in *; lia.
Qed.

Lemma moves_paused go m message r : moves go r (paused_by_user m message r).
Proof.
  unfold paused_by_user. case_bool_decide as Hst; [|apply moves_refl]. apply moves_fold. intros s. split_and!; try done.
  - intros ->. by rewrite Hst.
  - intros Hs. apply record_event_ok, message_ok; [by apply status_ok|]. intros text. destruct message as [msg|]; cbn; [|done].
    intros [= <-]. apply capped_ok.
Qed.

Lemma moves_interrupted go m message r : moves go r (interrupted m message r).
Proof.
  apply moves_fold. intros s. split_and!; try done.
  - intros _. split; [apply may_follow_interrupted|done].
  - intros Hs. apply record_event_ok, summary_ok, message_ok; [by apply status_ok|]. intros text [= <-]. apply capped_ok.
Qed.

Lemma moves_outcome `{!Json} go m o r : moves go r (with_outcome m o r).
Proof.
  apply moves_fold. intros s. destruct (outcome_ignored s) eqn:Hig.
  { split_and!; try done; [|by apply record_event_ok]. intros _. split; [apply may_follow_refl|].
    unfold outcome_ignored in Hig. cbn. by destruct (wr_status s). }
  unfold outcome_ignored in Hig.
  destruct o as [result|kind message|message| |error]; cbn [outcome_applied]; (split; [done|]; split; [done|]; split).
  - intros _. cbn. by destruct (wr_status s).
  - intros Hs. by apply record_event_ok, summary_ok, status_ok.
  - intros _. cbn. by destruct (wr_status s), kind.
  - intros Hs. apply record_event_ok, message_ok; [by apply status_ok|]. intros text [= <-]. apply capped_ok.
  - intros _. cbn. by destruct (wr_status s).
  - intros Hs. apply record_event_ok, message_ok; [by apply status_ok|]. intros text [= <-]. apply capped_ok.
  - intros _. cbn. by destruct (wr_status s).
  - intros Hs. by apply record_event_ok, status_ok.
  - intros _. cbn. by destruct (wr_status s).
  - intros Hs. apply record_event_ok, message_ok; [by apply status_ok|]. intros text [= <-]. apply capped_ok.
Qed.

(** * The runs *)

Lemma edit_first_spec {A} id (f : TrackedRun → A * TrackedRun) l :
  (∀ r, run_id (tr_state (f r).2) = run_id (tr_state r)) →
  match edit_first id f l with
  | Some (a, l') =>
      ∃ r, List.find (has_id id) l = Some r ∧ a = (f r).1 ∧
        (∀ id', List.find (has_id id') l' = if decide (id' = id) then Some (f r).2 else List.find (has_id id') l) ∧
        ∀ P, Forall P l → P (f r).2 → Forall P l'
  | None => List.find (has_id id) l = None
  end.
Proof.
  intros Hf. induction l as [|x l IH]; [done|]. cbn [edit_first List.find]. destruct (has_id id x) eqn:Hx.
  - pose proof (Hf x) as Hid. destruct (f x) as [a r'] eqn:Hfx. cbn in Hid. exists x. rewrite Hfx. split; [done|]. split; [done|]. split.
    + intros id'. cbn [List.find]. unfold has_id in *. apply bool_decide_eq_true in Hx. rewrite Hid, Hx.
      destruct (decide (id' = id)) as [->|Hne]; [by rewrite bool_decide_eq_true_2|].
      by rewrite (bool_decide_eq_false_2 (id = id')) by congruence.
    + intros P [_ Hl]%Forall_cons Hr. by constructor.
  - destruct (edit_first id f l) as [[a l']|]; [|done]. destruct IH as (r & Hr & Ha & Hfind & Hall). exists r. split; [done|]. split; [done|]. split.
    + intros id'. cbn [List.find]. rewrite Hfind. destruct (decide (id' = id)) as [->|Hne]; [by rewrite Hx|done].
    + intros P [Hp Hl]%Forall_cons Hr'. constructor; auto.
Qed.

(** What [on_run] does to the runs. *)
Lemma on_run_spec {A} id (f : TrackedRun → A * TrackedRun) t :
  (∀ r, run_id (tr_state (f r).2) = run_id (tr_state r)) →
  match on_run id f t with
  | (Some a, t') =>
      ∃ r, find_run id t = Some r ∧ a = (f r).1 ∧
        (∀ id', find_run id' t' = if decide (id' = id) then Some (f r).2 else find_run id' t) ∧
        (∀ P, Forall P (runs t) → P (f r).2 → Forall P (runs t')) ∧
        reported_terminal t' = reported_terminal t ∧ terminal_at_restore t' = terminal_at_restore t ∧ status_reported t' = status_reported t
  | (None, t') => find_run id t = None ∧ t' = t
  end.
Proof.
  intros Hf. unfold on_run, find_run. pose proof (edit_first_spec id f (runs t) Hf) as Hs.
  destruct (edit_first id f (runs t)) as [[a l']|]; [|by split]. destruct Hs as (r & Hr & Ha & Hfind & Hall).
  exists r. by split_and!.
Qed.

(** Every run of [t] is in [t'], moved on; and the runs stay in order. *)
Record runs_move (go : rstr → Prop) (t t' : Tracker) : Prop := {
  rm_runs id r : find_run id t = Some r → ∃ r', find_run id t' = Some r' ∧ moves (go id) r r';
  rm_ok : Forall run_ok (runs t) → Forall run_ok (runs t');
}.

Lemma runs_move_same go t t' : runs t' = runs t → runs_move go t t'.
Proof. intros Hr. split; unfold find_run; rewrite Hr; [|done]. intros id r ->. exists r. split; [done|apply moves_refl]. Qed.

Lemma on_run_moves {A} go id (f : TrackedRun → A * TrackedRun) t : (∀ r, moves (go id) r (f r).2) → runs_move go t (on_run id f t).2.
Proof.
  intros Hf. pose proof (on_run_spec id f t (λ r, mv_id _ _ _ (Hf r))) as Hs.
  destruct (on_run id f t) as [[a|] t']; cbn; [|destruct Hs as [_ ->]; by apply runs_move_same].
  destruct Hs as (r & Hr & -> & Hfind & Hall & _). split.
  - intros id' r' Hr'. rewrite Hfind. destruct (decide (id' = id)) as [->|]; [|exists r'; split; [done|apply moves_refl]].
    rewrite Hr in Hr'. injection Hr' as <-. eauto.
  - intros Hok. apply Hall; [done|]. apply (mv_ok _ _ _ (Hf r)). apply List.find_some in Hr as [Hin _].
    rewrite Forall_forall in Hok. by apply Hok, list_elem_of_In.
Qed.

Lemma edit_moves go id f t : (∀ r, moves (go id) r (f r)) → runs_move go t (edit id f t).2.
Proof. intros Hf. by apply on_run_moves. Qed.

Lemma sat_sub_ok a b : uint 64 a → 0 ≤ b → uint 64 (sat_sub a b).
Proof. apply sat_sub_range. Qed.

Lemma started_ok m id name objective phases b path :
  (∀ n, b = Some n → uint 64 n) →
  state_ok (record_event m (lit "workflow_started") None
    (mkRunState id 0 name objective WsActive phases None b 0 [] false 0 None [] path None [])).
Proof. intros Hb. apply record_event_ok. split; cbn; try done; unfold uint, umax, WORKFLOW_HISTORY_MAX; lia. Qed.

Lemma find_run_snoc t id l r : runs t = l → List.find (has_id id) l = Some r → ∀ x, List.find (has_id id) (l ++ [x]) = Some r.
Proof.
  intros _ Hr x. revert Hr. induction l as [|y l IH]; [done|]. cbn [List.find app]. destruct (has_id id y); [done|]. apply IH.
Qed.

Lemma remove_first_spec id l :
  match remove_first id l with
  | Some (r, l') => List.find (has_id id) l = Some r ∧ (∀ id', id' ≠ id → List.find (has_id id') l' = List.find (has_id id') l) ∧
                    ∀ P, Forall P l → Forall P l'
  | None => List.find (has_id id) l = None
  end.
Proof.
  induction l as [|x l IH]; [done|]. cbn [remove_first List.find]. destruct (has_id id x) eqn:Hx.
  - split; [done|]. split; [|by intros P [_ Hl]%Forall_cons]. intros id' Hne. unfold has_id in Hx. apply bool_decide_eq_true in Hx.
    destruct (has_id id' x) eqn:Hx'; [|done]. unfold has_id in Hx'. apply bool_decide_eq_true in Hx'. congruence.
  - destruct (remove_first id l) as [[r l']|]; [|done]. destruct IH as (Hr & Hfind & Hall). split; [done|]. split.
    + intros id' Hne. cbn [List.find]. by rewrite Hfind.
    + intros P [Hp Hl]%Forall_cons. constructor; auto.
Qed.

Section Step.
Context `{!Json, !Letters}.

Definition clears (op : TrackerOp) (id : rstr) : Prop := match op with OClear _ id' => id' = id | _ => False end.

Definition resumes (op : TrackerOp) (id : rstr) : Prop := match op with OResume _ id' _ => id' = id | _ => False end.

(** Every operation but the removal of runs. *)
Lemma op_moves op t : op_ok op → (∀ id, ¬ clears op id) → runs_move (resumes op) t (apply_op op t).
Proof.
  intros Hop Hcl. destruct op as [m id name objective phases b path|m id b|m id title|id n|id n|id n|id row|id a a'|id a st tk du|m id msg|m id msg|m id msg|m id o|m id| |m];
    cbn [apply_op op_ok] in *.
  - split; [|intros Hok; unfold start_run; cbn; apply Forall_app; split; [done|]; constructor; [split; cbn; [by apply started_ok|done|unfold uint, umax; lia]|done]].
    intros id' r Hr. exists r. split; [|apply moves_refl]. unfold start_run, find_run in *. cbn. by eapply find_run_snoc.
  - unfold resume_run. set (f := λ r, _).
    assert (∀ r, moves (id = id) r (f r).2) as Hf.
    { intros r. unfold f. destruct (resume_refused b (tr_state r)) eqn:Href; cbn; [apply moves_refl|]. destruct (moves_resumed m b r Hop Href) as [? ? ? _ ?]. split; auto. }
    pose proof (on_run_moves (eq id) id f t Hf) as [Hr Hk]. destruct (on_run id f t) as [[[s|]|] t']; (split; [exact Hr|exact Hk]).
  - apply edit_moves. intros r. apply moves_same; case_bool_decide; cbn; auto with tracker. intros Hs. apply record_event_ok. by destruct Hs.
  - unfold reserve_agents. set (f := λ r, _).
    assert (∀ r, moves False r (f r).2) as Hf.
    { intros r. assert (moves False r (on_state (λ s, advance_revision (s <| agents_used := sat_add 64 (agents_used (tr_state r)) n |>)) r)) as Hm.
      { apply moves_same; try done; [by right|]. intros Hs. apply advance_revision_ok, used_ok; [|done]. destruct Hs. by apply sat_add_range. }
      unfold f. destruct (agent_budget (tr_state r)) as [limit|]; [|exact Hm]. destruct (limit <? _); [apply moves_refl|exact Hm]. }
    pose proof (on_run_moves (λ _, False) id f t Hf) as [Hr Hk]. destruct (on_run id f t) as [[s|] t']; (split; [exact Hr|exact Hk]).
  - apply edit_moves. intros r. apply moves_same; try done; [by right|]. intros Hs. apply advance_revision_ok, used_ok; [|done].
    destruct Hs. apply sat_sub_ok; [done|]. by destruct Hop.
  - apply edit_moves. intros r. apply moves_same; destruct (agents_used (tr_state r) =? n); auto. intros Hs.
    by apply advance_revision_ok, used_ok.
  - unfold agent_started. set (f := λ r, _).
    assert (∀ r, moves False r (f r).2) as Hf.
    { intros r. apply moves_same; try done; [by right|]. intros Hs. apply advance_revision_ok, rows_ok; [|done]. cbn.
      assert (∀ (b : bool) l, Forall row_ok l → Forall row_ok (if b then drop_finished l else l)) as Hdrop
        by (intros [] l Hl; [by apply drop_finished_ok|done]).
      apply Hdrop, Forall_app. split; [apply (so_rows _ Hs)|]. constructor; [by case_match|done]. }
    pose proof (on_run_moves (λ _, False) id f t Hf) as [Hr Hk]. destruct (on_run id f t) as [[s|] t']; (split; [exact Hr|exact Hk]).
  - unfold rebind_agent_id, on_row. rewrite st_bind_run. apply edit_moves. intros r. apply moves_same; destruct (edit_row _ _ _) eqn:He; auto.
    intros Hs. apply advance_revision_ok, rows_ok; [|done]. eapply edit_row_ok; [|apply (so_rows _ Hs)|exact He]. done.
  - unfold agent_finished, on_row. rewrite st_bind_run. apply edit_moves. intros r. apply moves_same; destruct (edit_row _ _ _) eqn:He; auto.
    intros Hs. apply advance_revision_ok, rows_ok; [|done]. eapply edit_row_ok; [|apply (so_rows _ Hs)|exact He]. by intros row0 _.
  - apply edit_moves. intros r. apply moves_same; try done; [by right|apply record_event_ok].
  - apply edit_moves. intros r. apply moves_paused.
  - apply edit_moves. intros r. apply moves_interrupted.
  - apply edit_moves. intros r. apply moves_outcome.
  - by destruct (Hcl id).
  - by apply runs_move_same.
  - apply runs_move_same. unfold take_status_report. by case_match.
Qed.

(** Removing runs leaves the others. *)
Lemma clear_moves m id id' r t :
  id ≠ id' → find_run id t = Some r → find_run id (apply_op (OClear m id') t) = Some r.
Proof.
  intros Hne Hr. cbn [apply_op]. unfold clear_run, find_run in *. pose proof (remove_first_spec id' (runs t)) as Hs.
  destruct (remove_first id' (runs t)) as [[x l]|]; [|done]. cbn. destruct Hs as (_ & Hfind & _). by rewrite Hfind.
Qed.

(** One operation and one run that it does not remove. *)
Lemma op_moves_run op t id r :
  op_ok op → ¬ clears op id → find_run id t = Some r →
  ∃ r', find_run id (apply_op op t) = Some r' ∧ moves (resumes op id) r r'.
Proof.
  intros Hop Hcl Hr. destruct op as [| | | | | | | | | | | | |m id'| |]; try (eapply rm_runs; [apply op_moves; [done|by intros ? ?]|done]).
  exists r. split; [|apply moves_refl]. apply clear_moves; [|done]. intros ->. by apply Hcl.
Qed.

Lemma op_keeps_ok op t : op_ok op → Forall run_ok (runs t) → Forall run_ok (runs (apply_op op t)).
Proof.
  intros Hop Hok. destruct op as [| | | | | | | | | | | | |m id'| |]; try (eapply rm_ok; [apply op_moves; [done|by intros ? ?]|done]).
  cbn [apply_op]. unfold clear_run. pose proof (remove_first_spec id' (runs t)) as Hs.
  destruct (remove_first id' (runs t)) as [[x l]|]; [|done]. cbn. destruct Hs as (_ & _ & Hall). by apply Hall.
Qed.

Lemma run_ops_ok ops t : Forall op_ok ops → Forall run_ok (runs t) → Forall run_ok (runs (run_ops ops t)).
Proof.
  intros Hops. revert t. induction Hops as [|op ops Hop _ IH]; intros t Hok; [done|]. cbn. by apply IH, op_keeps_ok.
Qed.

Lemma find_run_in id t r : find_run id t = Some r → r ∈ runs t ∧ run_id (tr_state r) = id.
Proof.
  intros Hr. apply List.find_some in Hr as [Hin Hid]. split; [by apply list_elem_of_In|]. unfold has_id in Hid. by apply bool_decide_eq_true in Hid.
Qed.
End Step.

(** * Restoring *)

(** The leases of a snapshot grant [u64]s. *)
Definition leases_ok (s : RunState) : Prop := Forall (λ n, uint 64 n) (lease_grant <$> token_leases s).

Lemma charge_leases_ok m s : leases_ok s → state_ok s → state_ok (charge_leases m s).
Proof.
  intros Hl Hs. unfold charge_leases, leases_ok in *.
  assert (uint 64 (sum_sat 64 (lease_grant <$> token_leases s))) as Hsum.
  { assert (Forall (λ x, 0 ≤ x) (lease_grant <$> token_leases s)) as Hpos by (eapply Forall_impl; [exact Hl|]; intros x Hx; apply Hx).
    rewrite sum_sat_spec by (done || (unfold umax; lia)). pose proof (foldr_add_nonneg _ Hpos). unfold uint, umax. lia. }
  destruct (token_leases s) as [|lease leases]; [done|]. apply record_event_ok.
  destruct Hs as [Hr Hu Hb Hh Hm He Hw]. split; try done. by apply sat_add_range.
Qed.

Lemma restored_ok m s : leases_ok s → state_ok s → run_ok (mkTracked (restored m s) None 0) .
Proof.
  intros Hl Hs. apply (charge_leases_ok m) in Hs; [|done]. unfold restored. set (s1 := charge_leases m s) in *.
  assert (state_ok (interrupt_restored m s1) ∧ wr_status (interrupt_restored m s1) ≠ WsActive) as [Hs2 Hst].
  { unfold interrupt_restored. case_bool_decide as Ha; [|done]. split; [|done]. apply record_event_ok, message_ok; [by apply status_ok|].
    intros text [= <-]. by vm_compute. }
  split; cbn; [| |done].
  - unfold cancel_ghosts. destruct (existsb _ _); [|done]. apply advance_revision_ok, rows_ok; [|done]. apply cancel_running_ok, (so_rows _ Hs2).
  - split; [by intros [? ?]|]. unfold cancel_ghosts. destruct (existsb _ _); intros Ha; by destruct Hst.
Qed.

Section Reachable.
Context `{!Json, !Letters}.

(** What the runs of a session are: none, or those of a snapshot, and then any
    operations. *)
Inductive reachable : Tracker → Prop :=
| reach_default : reachable tracker_default
| reach_restored m snapshots :
    Forall (λ s, state_ok s ∧ leases_ok s) snapshots → reachable (from_snapshots m snapshots)
| reach_op op t : reachable t → op_ok op → reachable (apply_op op t).

Lemma reachable_ok t : reachable t → Forall run_ok (runs t).
Proof.
  induction 1 as [|m snapshots Hs|op t _ IH Hop]; [constructor| |by apply op_keeps_ok].
  apply Forall_fmap. eapply Forall_impl; [exact Hs|]. intros s [Hok Hl]. by apply restored_ok.
Qed.

Lemma run_ops_moves ops t id r :
  Forall op_ok ops → Forall (λ op, ¬ clears op id) ops → find_run id t = Some r →
  ∃ r', find_run id (run_ops ops t) = Some r' ∧
    rtc (λ a b, ∃ op, op ∈ ops ∧ moves (resumes op id) a b) r r'.
Proof.
  intros Hops Hcl. revert t r. induction ops as [|op ops IH]; intros t r Hr; [by exists r|].
  inversion Hops as [|? ? Hop Hops']; inversion Hcl as [|? ? Hc Hcl']; subst.
  destruct (op_moves_run op t id r Hop Hc Hr) as (r1 & Hr1 & Hm). destruct (IH Hops' Hcl' _ _ Hr1) as (r' & Hr' & Hsteps).
  exists r'. split; [done|]. eapply rtc_l; [exists op; split; [left|exact Hm]|].
  eapply rtc_subrel; [|exact Hsteps]. intros x y (o & Ho & Hxy). exists o. split; [by right|done].
Qed.

(** C27: Whatever happens to the runs of a session, in whatever order, every run
    keeps its form: its integers fit their 64 bits, those of its agents too, its
    history holds at most 64 events, its pause message 4 KiB, and its clock goes
    exactly while it is active.  No operation changes a run without giving it the
    next revision, so whoever remembers a revision, short of the last there is,
    sees every change.  An interrupted run stays interrupted for good, a cancelled
    one is never more than interrupted; no run becomes active but by being resumed,
    which one operation does not do to a completed one, nor anything but resuming
    and interrupting to a failed one.  (A completed run is not safe for good: a late
    outcome is applied to it, and if it pauses the run, it can be resumed,
    completed_run_resumed.) *)
Theorem runs_move_forward t id r (Ht : reachable t) (Hr : find_run id t = Some r) :
  run_ok r ∧
  (∀ op, op_ok op → ¬ clears op id →
    ∃ r', find_run id (apply_op op t) = Some r' ∧
      (tr_state r' = tr_state r ∨ revision (tr_state r') = sat_add 64 (revision (tr_state r)) 1) ∧
      may_follow (wr_status (tr_state r)) (wr_status (tr_state r')) = true ∧
      (wr_status (tr_state r') = WsActive → wr_status (tr_state r) = WsActive ∨ resumes op id)) ∧
  (∀ ops, Forall op_ok ops → Forall (λ op, ¬ clears op id) ops →
    ∃ r', find_run id (run_ops ops t) = Some r' ∧
      revision (tr_state r) ≤ revision (tr_state r') ∧
      (revision (tr_state r') = revision (tr_state r) → revision (tr_state r) < umax 64 → tr_state r' = tr_state r) ∧
      (Forall (λ op, ¬ resumes op id) ops → wr_status (tr_state r) ≠ WsActive → wr_status (tr_state r') ≠ WsActive) ∧
      (wr_status (tr_state r) = WsInterrupted → wr_status (tr_state r') = WsInterrupted) ∧
      (wr_status (tr_state r) = WsCancelled → wr_status (tr_state r') = WsCancelled ∨ wr_status (tr_state r') = WsInterrupted)).
Proof.
  assert (run_ok r) as Hok.
  { pose proof (reachable_ok t Ht) as Hall. rewrite Forall_forall in Hall. apply Hall. by apply find_run_in in Hr as [Hin _]. }
  split; [done|]. split.
  { intros op Hop Hcl. destruct (op_moves_run op t id r Hop Hcl Hr) as (r' & Hr' & [_ Hseen Hfol Hstart _]). by exists r'. }
  intros ops Hops Hcl. destruct (run_ops_moves ops t id r Hops Hcl Hr) as (r' & Hr' & Hsteps). exists r'. split; [done|]. clear Hr Hr' Ht.
  induction Hsteps as [x|x y z (op & Hop & Hm) Hsteps IH]; [by split_and!; auto|].
  destruct Hm as [_ Hseen Hfol Hstart Hkeep]. destruct (IH (Hkeep Hok)) as (Hle & Heq & Hna & Hint & Hcan). clear IH.
  assert (revision (tr_state x) ≤ revision (tr_state y)) as Hxy.
  { destruct Hseen as [->| ->]; [done|]. pose proof (so_revision _ (ok_state _ Hok)) as Hu. unfold uint, sat_add in *. lia. }
  split_and!.
  - lia.
  - intros Hz Hlt. assert (revision (tr_state y) = revision (tr_state x)) as Hyx by lia.
    destruct Hseen as [Hs|Hs]; [rewrite <- Hs; apply Heq; congruence|]. rewrite Hyx in Hs. unfold sat_add in Hs. lia.
  - intros Hno Hx. apply Hna; [done|]. intros Hy. rewrite Forall_forall in Hno. destruct (Hstart Hy) as [?|Hres]; [done|by apply (Hno op)].
  - intros Hx. apply Hint. rewrite Hx in Hfol. unfold may_follow in Hfol. rewrite orb_false_r in Hfol. by apply bool_decide_eq_true in Hfol.
  - intros Hx. rewrite Hx in Hfol. unfold may_follow in Hfol. apply orb_prop in Hfol as [Hy|Hy]; apply bool_decide_eq_true in Hy; [by apply Hcan|].
    right. by apply Hint.
Qed.
End Reachable.

(** Letters of ASCII. *)
#[local] Instance ascii_letters : Letters := {| lowercase := to_ascii_lowercase; alphanumeric := is_ascii_alphanumeric |}.

Lemma runs_move_forward_witness :
  let m := mkMoment 5 (lit "now") in
  let t := apply_op (OStart m (lit "wf_1") (lit "audit") (lit "look") [] (Some 8) None) tracker_default in
  let op := OPause (mkMoment 9 (lit "later")) (lit "wf_1") None in
  let t' := apply_op op t in
  ∃ r r', find_run (lit "wf_1") t = Some r ∧ find_run (lit "wf_1") t' = Some r' ∧ run_ok r' ∧
    wr_status (tr_state r) = WsActive ∧ wr_status (tr_state r') = WsUserPaused ∧ revision (tr_state r) = 1 ∧ revision (tr_state r') = 2 ∧
    may_follow (wr_status (tr_state r)) (wr_status (tr_state r')) = true.
Proof.
  intros m t op t'.
  assert (reachable t) as Ht by (apply reach_op; [apply reach_default|intros b [= <-]; unfold uint, umax; lia]).
  destruct (find_run (lit "wf_1") t) as [r|] eqn:Hr; [|vm_compute in Hr; discriminate].
  assert (reachable t') as Ht' by (by apply reach_op).
  destruct (runs_move_forward t (lit "wf_1") r Ht Hr) as (_ & Hstep & _).
  destruct (Hstep op I (λ f, f)) as (r' & Hr' & _ & Hfol & _).
  destruct (runs_move_forward t' (lit "wf_1") r' Ht' Hr') as (Hok & _).
  exists r, r'. split; [done|]. split; [exact Hr'|]. split; [exact Hok|].
  vm_compute in Hr, Hr'. injection Hr as <-. injection Hr' as <-. split_and!; reflexivity.
Defined.

(** A pause that comes behind the completion of a run is applied to it; then the run
    can be resumed. *)
Example completed_run_resumed `{!Json} v :
  let m := mkMoment 5 (lit "now") in
  let run := run_ops [OStart m (lit "wf_1") (lit "audit") (lit "look") [] (Some 8) None; OOutcome m (lit "wf_1") (WfCompleted v);
                      OOutcome m (lit "wf_1") (WfPaused PkUser (lit "stop")); OResume m (lit "wf_1") None] tracker_default in
  (λ r, wr_status (tr_state r)) <$> find_run (lit "wf_1") run = Some WsActive.
Proof. reflexivity. Qed.

(** * Reports *)

Section Reports.
Context `{!Json, !Letters}.

(** Nothing but a resumption makes a run one that was not reported. *)
Lemma reported_stays op t id : id ∈ reported_terminal t → ¬ resumes op id → id ∈ reported_terminal (apply_op op t).
Proof.
  intros Hid Hres.
  assert (∀ A (f : TrackedRun → A * TrackedRun) id', reported_terminal (on_run id' f t).2 = reported_terminal t) as Hon.
  { intros A f id'. unfold on_run. by destruct (edit_first id' f (runs t)) as [[]|]. }
  destruct op as [m id' name objective phases b path|m id' b|m id' title|id' n|id' n|id' n|id' row|id' a a'|id' a st tk du|m id' msg|m id' msg|m id' msg|m id' o|m id'| |m];
    cbn [apply_op]; unfold set_phase, release_agents, reconcile_agents_used, log_message, pause_user, interrupt, apply_outcome, edit;
    rewrite ?Hon; try done.
  - unfold resume_run. set (f := λ r, _). pose proof (Hon _ f id') as Hr. destruct (on_run id' f t) as [[[s|]|] t']; cbn in *; rewrite Hr; [|done..].
    apply elem_of_difference. split; [done|]. intros ->%elem_of_singleton. by apply Hres.
  - unfold reserve_agents. set (f := λ r, _). pose proof (Hon _ f id') as Hr. destruct (on_run id' f t) as [[s|] t']; cbn in *; by rewrite Hr.
  - unfold agent_started. set (f := λ r, _). pose proof (Hon _ f id') as Hr. destruct (on_run id' f t) as [[s|] t']; cbn in *; by rewrite Hr.
  - unfold rebind_agent_id, on_row, edit. rewrite st_bind_run. cbn. by rewrite Hon.
  - unfold agent_finished, on_row, edit. rewrite st_bind_run. cbn. by rewrite Hon.
  - unfold clear_run. by destruct (remove_first id' (runs t)) as [[]|].
  - cbn. set_solver.
  - unfold take_status_report. by case_match.
Qed.

Definition reported_now (t : Tracker) (s : RunState) : Prop :=
  let '(before, now) := (take_unreported_terminal_runs t).1 in s ∈ before ∨ s ∈ now.

(** A report holds every run that ended and was not reported, each in one of its
    two lists, and nothing else. *)
Lemma report_spec t s :
  reported_now t s ↔ s ∈ tracker_list t ∧ ws_is_completion_reportable (wr_status s) = true ∧ run_id s ∉ reported_terminal t.
Proof.
  unfold reported_now, take_unreported_terminal_runs. cbn. rewrite !list_elem_of_In, !List.filter_In, !bool_decide_eq_true.
  unfold unreported. rewrite andb_true_iff, bool_decide_eq_true. destruct (decide (run_id s ∈ terminal_at_restore t)); naive_solver.
Qed.

Lemma report_remembered t s : reported_now t s → run_id s ∈ reported_terminal (apply_op OTerminalReport t).
Proof.
  unfold reported_now. cbn. intros Hs. apply elem_of_union. right. apply elem_of_list_to_set, list_elem_of_fmap. exists s. split; [done|].
  apply elem_of_app. exact Hs.
Qed.

(** A run that ended is reported once: not again before it is resumed. *)
Theorem ended_run_reported_once ops t s s' :
  reported_now t s → Forall (λ op, ¬ resumes op (run_id s)) ops → run_id s' = run_id s →
  ¬ reported_now (run_ops ops (apply_op OTerminalReport t)) s'.
Proof.
  intros Hs%report_remembered Hops Hid. revert Hs. generalize (apply_op OTerminalReport t) as t1. clear t.
  induction Hops as [|op ops Hop _ IH]; intros t1 Hin.
  - intros (_ & _ & Hn)%report_spec. apply Hn. by rewrite Hid.
  - cbn. apply IH. by apply reported_stays.
Qed.
End Reports.
