(* ===== verification/WorkflowHost.v ===== *)
(** The service that answers the host calls of a workflow
    (src/crates/codegen/intellihelper-shell/src/session/workflow/host_service.rs,
    schema_contract.rs).

    A request is answered to its end before the next one is looked at; in the
    program the agents of a parallel block wait for their children side by side.
    The children, the disk behind the store, the scratch directory, git and
    JSON Schema are parameters ([ServiceEnv]); what they are asked for, and what the
    user is shown, is kept in a log. *)
From stdpp Require Import gmap.
From S2P Require Import Prelude Str Truncate WorkflowJournal WorkflowEngine WorkflowResume WorkflowDemo WorkflowMeta WorkflowTracker.

Definition SCHEMA_CONTRACT_RETRIES : nat := 1.
Definition WORKFLOW_MAX_AGENT_RUNS : Z := MAX_AGENT_BUDGET * (Z.of_nat SCHEMA_CONTRACT_RETRIES + 1).
Definition WORKFLOW_MAX_SCRIPT_TELEMETRY_EVENTS : Z := 64.
Definition WORKFLOW_MAX_AGENT_PROMPT_BYTES : Z := 1024 * 1024.
Definition WORKFLOW_MAX_TEMPLATE_OUTPUT_BYTES : Z := 1024 * 1024.
Definition WORKFLOW_MAX_PHASE_BYTES : Z := 256.
Definition WORKFLOW_MAX_LOG_BYTES : Z := 4 * 1024.
Definition SCHEMA_MAX_BYTES : Z := 256 * 1024.
Definition CONTRACT_OUTPUT_MAX_BYTES : Z := 2 * 1024 * 1024.

(** What a child is started with ([SubagentRequest]), as far as it varies. *)
Record ChildRequest : Type := mkChild {
  ch_id : rstr;
  ch_prompt : rstr;
  ch_description : rstr;
  ch_type : rstr;
  ch_resume_from : option rstr;
  ch_model : option rstr;
  ch_worktree : bool;
  ch_fork_context : bool;
}.

Record ChildResult : Type := mkChildResult {
  cr_success : bool;
  cr_output : rstr;
  cr_error : option rstr;
  cr_cancelled : bool;
  cr_tokens : Z;
  cr_duration : Z;
  cr_backgrounded : bool;
  cr_session : rstr;
}.

(** How the wait for a child ends. *)
Inductive ChildEnd : Type := ChildCancelled | ChildClosed | ChildDone (r : ChildResult).

Inductive ServiceEvent : Type :=
| EvPersist (s : RunState)
| EvEmit (s : RunState) (agents : Z)
| EvEphemeral (s : RunState) (agents : Z)
| EvTelemetry (name_bytes : Z) (fields : Z)
| EvChild (c : ChildRequest).

(** [persist_now], [is_cancelled], the semaphore, a child, uuid, the clock: each is
    a function of what was done before. *)
Class ServiceEnv `{!Json} : Type := {
  svc_run_id : rstr;
  allow_fork_context : bool;
  templates : gmap rstr rstr;
  persist_fails : list ServiceEvent → option rstr;
  run_cancelled : nat → bool;
  permit_closed : nat → bool;
  child_end : list ServiceEvent → ChildEnd;
  uuid_now_v7 : nat → rstr;
  moment_of : nat → Moment;
  known_capability : rstr → bool;
  Validator : Type;
  build_schema : Value Number → Validator + rstr;
  validate : Validator → Value Number → option rstr;
  parse_json : rstr → Value Number + rstr;
  write_scratch : rstr → rstr → list ServiceEvent → rstr + HostError;
  read_scratch : rstr → list ServiceEvent → rstr + HostError;
  git_diff : rstr → list ServiceEvent → rstr + HostError;
}.

Record Service : Type := mkService {
  sv_tracker : Tracker;
  sv_log : list ServiceEvent;
  active_agents : Z;
  agent_runs : Z;
  telemetry_events : Z;
  asked : nat;
}.
#[global] Instance Service_eta : Eta Service :=
  λ s, mkService (sv_tracker s) (sv_log s) (active_agents s) (agent_runs s) (telemetry_events s) (asked s).

Definition service_new (t : Tracker) : Service := mkService t [] 0 0 0 0.

Section Service.
Context `{!Json, !Letters, !ServiceEnv}.

Notation Value := (Value Number).

Definition on_tracker {A} (m : St Tracker A) : St Service A := λ s,
  let '(a, t) := m (sv_tracker s) in (a, s <| sv_tracker := t |>).
Definition log_event (e : ServiceEvent) : St Service unit := λ s, (tt, s <| sv_log := sv_log s ++ [e] |>).
(** A question to the outside that is asked again and again. *)
Definition ask {A} (q : nat → A) : St Service A := λ s, (q (asked s), s <| asked := S (asked s) |>).
Definition now : St Service Moment := ask moment_of.

(** ** Reservations *)

Definition persist_now (state : RunState) : St Service (unit + rstr) := λ s,
  (match persist_fails (sv_log s) with Some e => inr e | None => inl tt end, s <| sv_log := sv_log s ++ [EvPersist state] |>).

Definition reserve_call (count : Z) : St Service (Reply Value + HostError) :=
  reserved ← on_tracker (reserve_agents svc_run_id count);
  match reserved with
  | inl state =>
      written ← persist_now state;
      match written with
      | inr error =>
          _ ← on_tracker (release_agents svc_run_id count);
          mret (inr (HostFailed (lit "workflow agent-budget reservation could not be persisted: " ++ error)))
      | inl _ => mret (inl ReplyUnit)
      end
  | inr (requested, maximum) => mret (inr (AgentCallQuotaExceeded requested maximum))
  end.

Definition release_call (count : Z) : St Service (Reply Value + HostError) :=
  released ← on_tracker (release_agents svc_run_id count);
  match released with
  | Some state => _ ← persist_now state; mret (inl ReplyUnit)
  | None => mret (inr (HostFailed (lit "workflow run not found for agent-budget release: " ++ svc_run_id)))
  end.

Definition budget_state : St Service BudgetState := λ s,
  let run := tracker_get svc_run_id (sv_tracker s) in
  let total := r ← run; agent_budget r in
  let spent := match run with Some r => agents_used r | None => 0 end in
  (mkBudget total spent 0 ((λ total, sat_sub total spent) <$> total), s).

(** ** What is shown *)

Definition emit_state (event : RunState → Z → ServiceEvent) (state : option RunState) : St Service unit :=
  match state with
  | Some state => λ s, log_event (event state (active_agents s)) s
  | None => mret tt
  end.

Definition tick : St Service unit := λ s, emit_state EvEphemeral (tracker_get svc_run_id (sv_tracker s)) s.

Definition phase_call (title : rstr) (replayed : bool) : St Service unit :=
  if WORKFLOW_MAX_PHASE_BYTES <? byte_len title then mret tt
  else
    m ← now;
    state ← on_tracker (set_phase m svc_run_id title);
    emit_state (if replayed then EvEphemeral else EvEmit) state.

Definition log_call (message : rstr) (replayed : bool) : St Service unit :=
  if WORKFLOW_MAX_LOG_BYTES <? byte_len message then mret tt
  else if replayed then mret tt
  else
    m ← now;
    state ← on_tracker (log_message m svc_run_id message);
    emit_state EvEphemeral state.

Definition field_count (v : Value) : Z := match v with VObject es => zlen es | _ => 0 end.

Definition telemetry_call (name : rstr) (fields : Value) (replayed : bool) : St Service unit := λ s,
  if replayed then (tt, s)
  else
    let n := telemetry_events s in
    let s := s <| telemetry_events := wrap 32 (n + 1) |> in
    if n <? WORKFLOW_MAX_SCRIPT_TELEMETRY_EVENTS
    then log_event (EvTelemetry (Z.min (byte_len name) (64 * 1024)) (field_count fields)) s
    else (tt, s).

Definition render_value (v : Value) : rstr := match v with VString s => s | other => value_text other end.

Fixpoint fill_template (entries : list (rstr * Value)) (out : rstr) : rstr + HostError :=
  match entries with
  | [] => inl out
  | (key, value) :: entries =>
      let out := replace (lit "{" ++ key ++ lit "}") (render_value value) out in
      if WORKFLOW_MAX_TEMPLATE_OUTPUT_BYTES <? byte_len out
      then inr (HostFailed (lit "rendered template exceeds " ++ fmt_dec WORKFLOW_MAX_TEMPLATE_OUTPUT_BYTES ++ lit " bytes"))
      else fill_template entries out
  end.

Definition render_template (name : rstr) (vars : Value) : rstr + HostError :=
  match templates !! name with
  | None => inr (HostFailed (lit "unknown template: " ++ name))
  | Some out =>
      if WORKFLOW_MAX_TEMPLATE_OUTPUT_BYTES <? byte_len out
      then inr (HostFailed (lit "template exceeds " ++ fmt_dec WORKFLOW_MAX_TEMPLATE_OUTPUT_BYTES ++ lit " bytes"))
      else fill_template (match vars with VObject es => es | _ => [] end) out
  end.

(** ** The output contract *)

Definition contract_prompt (prompt : rstr) (schema : Value) : rstr :=
  prompt ++ [10; 10] ++ lit "<output-contract>" ++ [10]
  ++ lit "Do the work above with your tools first. Then end your final message with a single ```json fenced block containing exactly one JSON value that conforms to this JSON Schema (no prose inside the block):"
  ++ [10] ++ value_text schema ++ [10] ++ lit "</output-contract>".

(** The schema as text, if it is not too long, goes to the library. *)
Definition compile_contract_schema (schema : Value) : Validator + rstr :=
  let schema_len := byte_len (value_text schema) in
  if SCHEMA_MAX_BYTES <? schema_len then
    inr (lit "output_schema is too large (" ++ fmt_dec schema_len ++ lit " bytes; maximum is " ++ fmt_dec SCHEMA_MAX_BYTES ++ lit ")")
  else match build_schema schema with
       | inl validator => inl validator
       | inr e => inr (lit "output_schema is not a valid self-contained JSON Schema: " ++ e)
       end.

(** What stands between the first [open] and the last [close]. *)
Definition bracketed (open close : rchar) (text : rstr) : list rstr :=
  match find [open] text, rfind [close] text with
  | Some s, Some e => if (s <? e)%nat then [trim (slice s (S e) text)] else []
  | _, _ => []
  end.

Definition contract_candidates (text : rstr) : list rstr :=
  let fence := lit "```json" in
  match rfind fence text with
  | Some start =>
      let body := drop (start + length fence) text in
      match find (lit "```") body with Some stop => [trim (take stop body)] | None => [] end
  | None => []
  end ++ [text] ++ bracketed 123 125 text ++ bracketed 91 93 text.

Fixpoint first_json (candidates : list rstr) (parse_err : rstr) : Value + rstr :=
  match candidates with
  | [] => inr parse_err
  | c :: candidates =>
      match parse_json c with
      | inl v => inl v
      | inr e => first_json candidates (if is_empty parse_err then e else parse_err)
      end
  end.

Definition validate_contract_output (validator : Validator) (final_text : rstr) : Value + rstr :=
  if CONTRACT_OUTPUT_MAX_BYTES <? byte_len final_text
  then inr (lit "final message exceeds the " ++ fmt_dec CONTRACT_OUTPUT_MAX_BYTES ++ lit " byte structured-output limit")
  else match first_json (contract_candidates (trim final_text)) [] with
       | inr e => inr (lit "final message did not contain valid JSON (expected a ```json fenced block): " ++ e)
       | inl v =>
           match validate validator v with
           | Some e => inr (lit "output does not match the required schema: " ++ e)
           | None => inl v
           end
       end.

(** ** Agents *)

Definition retry_prompt (err : rstr) : rstr :=
  lit "Your final message did not satisfy the output contract: " ++ err ++ [10]
  ++ lit "Reply with a single ```json fenced block containing one JSON value conforming to the schema from <output-contract>, and nothing else.".

Definition finish_row (agent state : rstr) (tokens duration : Z) : St Service unit :=
  on_tracker (agent_finished svc_run_id agent state tokens duration).

Definition count_run : St Service Z := λ s, (agent_runs s, s <| agent_runs := wrap 32 (agent_runs s + 1) |>).
Definition child_enters : St Service unit := λ s, (tt, s <| active_agents := wrap 32 (active_agents s + 1) |>).
Definition child_leaves : St Service unit := λ s, (tt, s <| active_agents := wrap 32 (active_agents s - 1) |>).

(** [backend.spawn] and the wait for its end. *)
Definition spawn_child (c : ChildRequest) : St Service ChildEnd :=
  _ ← child_enters; _ ← tick;
  _ ← log_event (EvChild c);
  ending ← (λ s, (child_end (sv_log s), s));
  _ ← child_leaves;
  mret ending.

Definition plain_output (r : ChildResult) : Value :=
  VString (if cr_success r then cr_output r else default (cr_output r) (cr_error r)).

(** The end of a try: the result and its output, or the wish to try again with the
    error of the contract. *)
Definition judge_child (validator : option Validator) (may_retry : bool) (r : ChildResult) : (ChildResult * Value) + rstr :=
  match validator with
  | None => inl (r, plain_output r)
  | Some validator =>
      if negb (cr_success r) then inl (r, plain_output r)
      else match validate_contract_output validator (cr_output r) with
           | inl value => inl (r, value)
           | inr err =>
               if may_retry then inr err
               else inl (mkChildResult false (cr_output r) (cr_error r) (cr_cancelled r) (cr_tokens r) (cr_duration r) (cr_backgrounded r) (cr_session r),
                         VString (lit "structured output validation failed: " ++ err))
           end
  end.

Definition agent_result (id : rstr) (r : ChildResult) (output : Value) (tokens duration : Z) : AgentResult Value :=
  mkAgentResult _ id (cr_success r) output (cr_cancelled r) tokens duration.

(** The loop over the children of one agent; [retries] are left; [row] is the
    identifier its row bears. *)
Fixpoint child_loop (retries : nat) (first : bool) (id row : rstr) (make : rstr → rstr → option rstr → bool → ChildRequest)
    (validator : option Validator) (prompt : rstr) (resume : option rstr) (fork : bool) (tokens duration : Z)
    : St Service (AgentResult Value + HostError) :=
  run ← count_run;
  if WORKFLOW_MAX_AGENT_RUNS <=? run then
    _ ← finish_row row (lit "failed") tokens duration;
    mret (inr (HostFailed (lit "workflow agent-run quota exceeded (maximum " ++ fmt_dec WORKFLOW_MAX_AGENT_RUNS ++ lit ")")))
  else
    _ ← tick;
    row ← (if first then mret row else retry_id ← ask uuid_now_v7; _ ← on_tracker (rebind_agent_id svc_run_id row retry_id); mret retry_id);
    ending ← spawn_child (make row prompt resume fork);
    match ending with
    | ChildCancelled => _ ← finish_row row (lit "cancelled") tokens duration; mret (inr HostCancelled)
    | ChildClosed =>
        _ ← finish_row row (lit "failed") tokens duration;
        mret (inr (HostFailed (lit "subagent coordinator channel closed before completion")))
    | ChildDone r =>
        let tokens := sat_add 64 tokens (cr_tokens r) in
        let duration := wrap 64 (duration + cr_duration r) in
        stopped ← ask run_cancelled;
        if stopped : bool then _ ← finish_row row (lit "cancelled") tokens duration; mret (inr HostCancelled)
        else if cr_backgrounded r then
          _ ← finish_row row (lit "failed") tokens duration;
          _ ← tick;
          mret (inr (HostFailed (lit "subagent " ++ row ++ lit " was auto-backgrounded by the await budget; its result is not available to this run (engine bug " ++ [8212] ++ lit " workflow spawns must await to completion)")))
        else
          match judge_child validator (0 <? retries)%nat r, retries with
          | inr err, S retries => child_loop retries false id row make validator (retry_prompt err) (Some (cr_session r)) false tokens duration
          | inr _, O => mret (inr HostCancelled)
          | inl (r, output), _ =>
              _ ← finish_row row (if cr_success r then lit "done" else lit "failed") tokens duration;
              _ ← tick;
              mret (inl (agent_result id r output tokens duration))
          end
    end.

(** The checks of the options, the validator of their schema, and the prompt. *)
Definition agent_refused (opts : AgentOpts Value) : option HostError :=
  let long := is_some_and (λ s, WORKFLOW_MAX_PHASE_BYTES <? byte_len s) in
  if WORKFLOW_MAX_AGENT_PROMPT_BYTES <? byte_len (ao_prompt opts)
  then Some (HostFailed (lit "agent prompt exceeds " ++ fmt_dec WORKFLOW_MAX_AGENT_PROMPT_BYTES ++ lit " bytes"))
  else if ao_fork_context opts && negb allow_fork_context
  then Some (HostUnsupported (lit "fork_context is restricted to built-in workflows"))
  else if long (ao_label opts) || long (ao_phase opts)
  then Some (HostFailed (lit "agent label and phase must each be at most 256 bytes"))
  else c ← ao_capability_mode opts;
       if known_capability c then None
       else Some (HostFailed (lit "invalid capability_mode '" ++ c ++ lit "' (expected read-only, read-write, execute, or all)")).

Definition agent_contract (opts : AgentOpts Value) : option Validator * rstr + HostError :=
  match ao_output_schema opts with
  | None => inl (None, ao_prompt opts)
  | Some schema =>
      match compile_contract_schema schema with
      | inl validator => inl (Some validator, contract_prompt (ao_prompt opts) schema)
      | inr e => inr (HostFailed e)
      end
  end.

Definition spawn_agent (opts : AgentOpts Value) : St Service (AgentResult Value + HostError) :=
  stopped ← ask run_cancelled;
  if stopped : bool then mret (inr HostCancelled)
  else
    match agent_refused opts with
    | Some e => mret (inr e)
    | None =>
        match agent_contract opts with
        | inr e => mret (inr e)
        | inl (validator, prompt) =>
            closed ← ask permit_closed;
            if closed : bool then mret (inr HostCancelled)
            else
              stopped ← ask run_cancelled;
              if stopped : bool then mret (inr HostCancelled)
              else
                id ← ask uuid_now_v7;
                label ← on_tracker (agent_started svc_run_id
                          (mkRow id (default [] (ao_label opts)) (ao_phase opts) (ao_model opts) (lit "running") 0 0));
                let fork := ao_fork_context opts && negb (is_some_and (λ _, true) (ao_resume_from opts)) in
                let make child prompt resume fork :=
                  mkChild child prompt label (default (lit "general-purpose") (ao_agent_type opts)) resume (ao_model opts)
                    (ao_isolation_worktree opts) fork in
                child_loop SCHEMA_CONTRACT_RETRIES true id id make validator prompt (ao_resume_from opts) fork 0 0
        end
    end.

(** ** Requests *)

Definition text_reply (r : rstr + HostError) : option (Reply Value + HostError) :=
  Some (match r with inl s => inl (ReplyText s) | inr e => inr e end).

(** [dispatch], and the reply if there is one. *)
Definition dispatch (req : Request Value) : St Service (option (Reply Value + HostError)) :=
  match req with
  | ReserveAgentCalls count => r ← reserve_call count; mret (Some r)
  | ReleaseAgentCalls count => r ← release_call count; mret (Some r)
  | SpawnAgent opts =>
      r ← spawn_agent opts;
      mret (Some (match r with inl a => inl (ReplyAgent a) | inr e => inr e end))
  | PhaseRequest title replayed => _ ← phase_call title replayed; mret None
  | LogRequest message replayed => _ ← log_call message replayed; mret None
  | TelemetryRequest name fields replayed => _ ← telemetry_call name fields replayed; mret None
  | BudgetQuery => b ← budget_state; mret (Some (inl (ReplyBudget b)))
  | RenderTemplate name vars => mret (text_reply (render_template name vars))
  | WriteScratchFile name content => λ s, (text_reply (write_scratch name content (sv_log s)), s)
  | ReadScratchFile name => λ s, (text_reply (read_scratch name (sv_log s)), s)
  | GitDiffSince commit => λ s, (text_reply (git_diff commit (sv_log s)), s)
  end.

Definition serve (s : Service) (req : Request Value) : Service := (dispatch req s).2.
Definition served (s : Service) (reqs : list (Request Value)) : Service := foldl serve s reqs.

(** What the loop answers when the run has been cancelled. *)
Definition reply_cancelled (req : Request Value) : option (Reply Value + HostError) :=
  match req with
  | PhaseRequest _ _ | LogRequest _ _ | TelemetryRequest _ _ _ => None
  | _ => Some (inr HostCancelled)
  end.

(** The service as the host of a run: [cut] requests are dispatched before the run
    is cancelled. *)
Definition session_host (s0 : Service) (cut : nat) (gone : list (Request Value) → bool) (stop : nat → bool) (clock : list IoCall → Z) : Host := {|
  answer log n :=
    req ← log !! n;
    if (n <? cut)%nat then (dispatch req (served s0 (take n log))).1 else reply_cancelled req;
  host_gone := gone;
  cancelled := stop;
  clock := clock;
|}.
End Service.

(** * Agents within a budget *)

Definition is_spawn {V} (r : Request V) : bool := match r with SpawnAgent _ => true | _ => false end.
Definition spawns {V} (log : list (Request V)) : Z := countb is_spawn log.

(** Counts are [u64]. *)
Definition count_ok {V} (r : Request V) : Prop := match r with ReserveAgentCalls n | ReleaseAgentCalls n => 0 ≤ n | _ => True end.

(** What a host promises that meters agent calls: the calls reserved are counted, up
    to a limit, and nothing but reservations and their release counts. *)
Class Metered `{!Json} (host : Host) (limit : Z) : Type := {
  used : list (Request (Value Number)) → Z;
  used_granted log count r :
    Forall count_ok log → 0 ≤ count → answer (log ++ [ReserveAgentCalls count]) (length log) = Some (inl r) →
    used (log ++ [ReserveAgentCalls count]) = used log + count ∧ used log + count ≤ limit;
  used_refused log count :
    Forall count_ok log → 0 ≤ count → (∀ r, answer (log ++ [ReserveAgentCalls count]) (length log) ≠ Some (inl r)) →
    used (log ++ [ReserveAgentCalls count]) = used log;
  used_other log req :
    Forall count_ok log → match req with ReserveAgentCalls _ | ReleaseAgentCalls _ => False | _ => True end → used (log ++ [req]) = used log;
}.

Section Metering.
Context `{!Json, !Storage, !Rhai} (host : Host) (limit : Z) `{!Metered host limit}.

Notation Value := (Value Number).
Notation Request := (Request Value).
Notation ScriptError := (ScriptError Value).

(** So many agents may still be started without another reservation. *)
Definition paid (n : Z) (r : Run) : Prop :=
  Forall count_ok (sent r) ∧ used [] + spawns (sent r) + n ≤ used (sent r) ∧ used (sent r) ≤ Z.max limit (used []).

(** The agents started are within the limit. *)
Definition within (r : Run) : Prop := used [] + spawns (sent r) ≤ Z.max limit (used []).

Lemma paid_within n r : 0 ≤ n → paid n r → within r.
Proof. unfold paid, within. intros Hn (_ & Hp). lia. Qed.

Lemma paid_less n m r : m ≤ n → paid n r → paid m r.
Proof. unfold paid. intros Hn (Hc & Hp). split; [done|lia]. Qed.

(** A call leaves what it found, unless it ends the script. *)
Definition after {A} (res : A + ScriptError) (n : Z) (r : Run) : Prop :=
  match res with inr (Terminated _) => within r | _ => paid n r end.

Lemma after_sent {A} (res : A + ScriptError) n r r' : sent r' = sent r → after res n r → after res n r'.
Proof. unfold after, paid, within. by intros ->. Qed.

Definition quiet (req : Request) : Prop := match req with ReserveAgentCalls _ | ReleaseAgentCalls _ | SpawnAgent _ => False | _ => True end.

Lemma sent_quiet n r r' req : quiet req → sent r' = sent r ++ [req] → paid n r → paid n r'.
Proof.
  unfold paid, spawns. intros Hq -> (Hc & Hu). rewrite used_other by (done || by destruct req). rewrite countb_app, Forall_app.
  split; [split; [done|]; constructor; [by destruct req|done]|]. by destruct req; cbn; rewrite ?Z.add_0_r.
Qed.

Lemma sent_spawn n r r' opts : sent r' = sent r ++ [SpawnAgent opts] → paid (n + 1) r → paid n r'.
Proof.
  unfold paid, spawns. intros -> (Hc & Hu). rewrite used_other by done. rewrite countb_app, Forall_app.
  change (countb is_spawn [SpawnAgent opts]) with 1. split; [by split; [|constructor]|]. lia.
Qed.

Lemma sent_release r r' count : sent r' = sent r ++ [ReleaseAgentCalls count] → within r → within r'.
Proof. unfold within, spawns. intros ->. rewrite countb_app. change (countb is_spawn [ReleaseAgentCalls count]) with 0. lia. Qed.

(** ** Requests *)

Lemma request_sent req r res r' :
  request req r = (res, r') →
  (sent r' = sent r ∧ ∃ t, res = inr (Terminated t)) ∨
  (sent r' = sent r ++ [req] ∧
   match answer (sent r ++ [req]) (length (sent r)) with Some x => res = inl x | None => ∃ t, res = inr (Terminated t) end).
Proof.
  unfold request, send, try_bind. destruct (host_gone (sent r)); [intros [= <- <-]; left; eauto|].
  unfold mbind, St_bind, await_reply. cbn. destruct (answer _ _) eqn:Ha; intros [= <- <-]; right; cbn; eauto.
Qed.

Lemma request_keeps req r res r' : request req r = (res, r') → journal r' = journal r ∧ seq r' = seq r.
Proof.
  unfold request, send, try_bind. destruct (host_gone (sent r)); [by intros [= <- <-]|].
  unfold mbind, St_bind, await_reply. cbn. destruct (answer _ _); by intros [= <- <-].
Qed.

Lemma request_quiet n req r res r' : quiet req → 0 ≤ n → paid n r → request req r = (res, r') → after res n r'.
Proof.
  intros Hq Hn Hp [[Hs (t & ->)]|[Hs Hres]]%request_sent.
  - cbn. apply (paid_within n); [done|]. unfold paid in *. by rewrite Hs.
  - assert (paid n r') as Hp' by (by eapply sent_quiet). destruct (answer _ _); [by subst|]. destruct Hres as (t & ->). by eapply paid_within.
Qed.

Lemma request_spawn n opts r res r' : 0 ≤ n → paid (n + 1) r → request (SpawnAgent opts) r = (res, r') → after res n r'.
Proof.
  intros Hn Hp [[Hs (t & ->)]|[Hs Hres]]%request_sent.
  - cbn. apply (paid_within (n + 1)); [lia|]. unfold paid in *. by rewrite Hs.
  - assert (paid n r') as Hp' by (by eapply sent_spawn). destruct (answer _ _); [by subst|]. destruct Hres as (t & ->). by eapply paid_within.
Qed.

Lemma reserve_refused count r r' :
  0 ≤ count → paid 0 r → sent r' = sent r ++ [ReserveAgentCalls count] →
  (∀ x, answer (sent r ++ [ReserveAgentCalls count]) (length (sent r)) ≠ Some (inl x)) → paid 0 r'.
Proof.
  intros Hcount (Hc & Hp) Hs Ha. unfold paid, spawns in *. rewrite Hs, used_refused, countb_app, Forall_app by done.
  change (countb is_spawn [ReserveAgentCalls count]) with 0. split; [by split; [|constructor]|]. lia.
Qed.

Lemma reserve_paid count r res r' :
  0 ≤ count → paid 0 r → reserve_agent_calls count r = (res, r') →
  match res with inl _ => paid count r' | inr (Caught _) => paid 0 r' | inr (Terminated _) => within r' end.
Proof.
  intros Hcount Hp. unfold reserve_agent_calls. destruct (Z.eqb_spec count 0) as [->|Hne]; [by intros [= <- <-]|].
  unfold try_bind. destruct (request (ReserveAgentCalls count) r) as [reply r1] eqn:Hreq.
  apply request_sent in Hreq as [[Hs (t & ->)]|[Hs Hres]].
  { intros [= <- <-]. apply (paid_within 0); [done|]. unfold paid in *. by rewrite Hs. }
  destruct (answer _ _) as [[x|e]|] eqn:Ha.
  - subst reply. intros [= <- <-]. destruct (used_granted _ _ _ (proj1 Hp) Hcount Ha) as [Hu Hl]. destruct Hp as (Hc & Hp). unfold paid, spawns in *.
    rewrite Hs, Hu, countb_app, Forall_app. change (countb is_spawn [ReserveAgentCalls count]) with 0. split; [by split; [|constructor]|]. lia.
  - subst reply. assert (paid 0 r1) as Hp1.
    { apply (reserve_refused count r); [done|done|done|]. intros y Hy. congruence. }
    destruct e; intros [= <- <-]; cbn; try done; by apply (paid_within 0).
  - destruct Hres as (t & ->). intros [= <- <-]. apply (paid_within 0); [done|].
    apply (reserve_refused count r); [done|done|done|]. intros y Hy. congruence.
Qed.

Lemma reserve_same count r res r' : reserve_agent_calls count r = (res, r') → journal r' = journal r ∧ seq r' = seq r.
Proof.
  unfold reserve_agent_calls. destruct (count =? 0); [by intros [= <- <-]|]. unfold try_bind.
  destruct (request (ReserveAgentCalls count) r) as [reply r1] eqn:Hreq. apply request_keeps in Hreq.
  destruct reply as [[x|[]]|e]; by intros [= <- <-].
Qed.

Lemma release_within count r : within r → within (release_agent_calls count r).2.
Proof.
  intros Hw. unfold release_agent_calls, send, mbind, St_bind. destruct (count =? 0); [done|].
  destruct (host_gone (sent r)); [done|]. cbn. by eapply sent_release.
Qed.

Lemma record_sent n kind hash v r : sent (record n kind hash v r).2 = sent r.
Proof.
  unfold record. destruct (journal_record _ _ _ _ _ _ _) as [[res j] s]. by destruct res.
Qed.

Lemma record_after {A} n kind hash v (k : unit → St Run (A + ScriptError)) m r res r' :
  0 ≤ m → paid m r → (∀ r1, (k tt r1).2 = r1) → (∀ r1 t, (k tt r1).1 ≠ inr (Terminated t)) →
  try_bind (record n kind hash v) k r = (res, r') → after res m r'.
Proof.
  intros Hm Hp Hk Hk' . unfold try_bind. pose proof (record_sent n kind hash v r) as Hs.
  destruct (record n kind hash v r) as [[[]|e] r1] eqn:Hr; cbn in Hs.
  - intros Hrun. pose proof (Hk r1) as Hk1. pose proof (Hk' r1) as Hk2. rewrite Hrun in Hk1, Hk2. cbn in Hk1, Hk2. subst r'.
    assert (paid m r1) as Hp1 by (unfold paid in *; by rewrite Hs). destruct res as [a|[msg|t]]; [done|done|]. by destruct (Hk2 t).
  - intros [= <- <-]. assert (paid m r1) as Hp1 by (unfold paid in *; by rewrite Hs). destruct e; [done|]. by eapply paid_within.
Qed.

Lemma next_seq_sent r n r' : next_seq r = (n, r') → sent r' = sent r ∧ journal r' = journal r ∧
  match n with inl k => k = seq r ∧ seq r' = seq r + 1 | inr e => ∃ t, e = Terminated t end.
Proof.
  unfold next_seq, reserve_seqs. destruct (umax 64 <? seq r + 1); [intros [= <- <-]; eauto|].
  destruct (MAX_HOST_CALLS <? seq r + 1); intros [= <- <-]; eauto.
Qed.

(** A call of the host whose request costs [m - n]. *)
Lemma host_call_after m n kind payload req to_result r res r' :
  0 ≤ n → n ≤ m → (∀ r0 res0 r0', paid m r0 → request req r0 = (res0, r0') → after res0 n r0') →
  paid m r → host_call kind payload req to_result r = (res, r') → after res n r'.
Proof.
  intros Hn Hnm Hreq Hp. unfold host_call, try_bind at 1. destruct (next_seq r) as [[k|e] r1] eqn:Hseq; apply next_seq_sent in Hseq as (Hs & _ & Hk).
  2: { destruct Hk as (t & ->). intros [= <- <-]. apply (paid_within m); [lia|]. unfold paid in *. by rewrite Hs. }
  assert (paid m r1) as Hp1 by (unfold paid in *; by rewrite Hs). clear Hp Hs Hk.
  unfold mbind at 1, St_bind at 1, replay_at. destruct (replay _ _ _ _) as [[recorded|]|err].
  - destruct (replay_host_error recorded); intros [= <- <-]; by apply (paid_less m).
  - unfold try_bind at 1. destruct (request req r1) as [reply r2] eqn:Hr. apply Hreq in Hr; [|done].
    destruct reply as [[v|e]|e]; [| |by intros [= <- <-]].
    + apply record_after; [done|exact Hr|done|done].
    + destruct e as [requested maximum| | |msg|msg]; try (intros [= <- <-]; first [exact Hr|by apply (paid_within n)]);
        (apply record_after; [done|exact Hr|done|done]).
  - intros [= <- <-]. by apply (paid_within m); [lia|].
Qed.

Lemma live_count_bound j k requests live count :
  live_count_from j k requests live = inl count → live ≤ count.
Proof.
  revert k live. induction requests as [|[opts hash] requests IH]; intros k live; cbn [live_count_from]; [intros [= ->]; lia|].
  destruct (replay _ _ _ _) as [recorded|]; [|done]. destruct (umax 64 <? k + 1); [done|]. intros Hl%IH. destruct recorded; lia.
Qed.

Lemma start_agents_after requests live count pending r res r' :
  live_count_from (journal r) (seq r) requests live = inl count → 0 ≤ live →
  paid (count - live) r → start_agents requests pending r = (res, r') → after res 0 r'.
Proof.
  revert live pending r. induction requests as [|[opts hash] requests IH]; intros live pending r Hl Hpos Hp; cbn [live_count_from start_agents] in *.
  { intros [= <- <-]. injection Hl as <-. apply (paid_less (live - live)); [lia|done]. }
  unfold try_bind at 1. destruct (next_seq r) as [[k|e] r1] eqn:Hseq; apply next_seq_sent in Hseq as (Hs & Hj & Hk).
  2: { destruct Hk as (t & ->). intros [= <- <-]. destruct (replay _ _ _ _) as [recorded|]; [|done]. destruct (umax 64 <? seq r + 1); [done|].
       apply live_count_bound in Hl. apply (paid_within (count - live)); [destruct recorded; lia|]. unfold paid in *. by rewrite Hs. }
  destruct Hk as [-> Hq]. unfold mbind at 1, St_bind at 1, replay_at. rewrite Hj.
  destruct (replay (journal r) (seq r) (lit "spawn_agent") hash) as [recorded|err]; [|done].
  destruct (umax 64 <? seq r + 1); [done|]. rewrite <- Hj, <- Hq in Hl. assert (paid (count - live) r1) as Hp1 by (unfold paid in *; by rewrite Hs).
  destruct recorded as [value|]; [by apply (IH live)|].
  pose proof (live_count_bound _ _ _ _ _ Hl) as Hb.
  unfold try_bind at 1, send. destruct (host_gone (sent r1)).
  { intros [= <- <-]. by apply (paid_within (count - live)); [lia|]. }
  set (r2 := r1 <| sent := _ |>). apply (IH (live + 1)); [exact Hl|lia|]. apply (sent_spawn _ r1 _ opts); [done|].
  by replace (count - (live + 1) + 1) with (count - live) by lia.
Qed.

Lemma resolve_all_spec pending x r :
  sent (resolve_all pending x r).2 = sent r ∧
  ((rs_resumable x = true → rs_terminal x ≠ None) →
   rs_resumable (resolve_all pending x r).1 = true → rs_terminal (resolve_all pending x r).1 ≠ None).
Proof.
  revert x r. induction pending as [|[v|k hash n] pending IH]; intros x r; [done| |].
  - cbn [resolve_all]. destruct (IH (resolve_replayed v x) r) as [Hs Hr]. split; [done|]. intros Hx. apply Hr.
    unfold resolve_replayed. destruct (is_host_terminal_sentinel v); [by destruct (_ || _)|]. by destruct (replay_host_error v).
  - cbn [resolve_all]. unfold mbind, St_bind, await_reply. set (reply := answer (sent r) n).
    destruct (IH (resolve_live k hash reply x) r) as [Hs Hr]. split; [done|]. intros Hx. apply Hr.
    by destruct reply as [[y|[]]|].
Qed.

Lemma record_all_sent values r : sent (record_all values r).2 = sent r.
Proof.
  revert r. induction values as [|[[[k hash]|] v] values IH]; intros r; [done| |by apply IH].
  cbn [record_all]. unfold try_bind. pose proof (record_sent k (lit "spawn_agent") hash v r) as Hs.
  destruct (record k (lit "spawn_agent") hash v r) as [[[]|e] r1]; cbn in *; [by rewrite IH|done].
Qed.

Lemma run_agents_after requests r res r' : paid 0 r → run_agents requests r = (res, r') → after res 0 r'.
Proof.
  intros Hp. unfold run_agents. unfold mbind at 1, St_bind at 1.
  destruct (live_count_from _ _ _ _) as [count|t] eqn:Hl; [|intros [= <- <-]; by apply (paid_within 0)].
  pose proof (live_count_bound _ _ _ _ _ Hl) as Hc.
  unfold try_bind at 1. destruct (reserve_agent_calls count r) as [u r1] eqn:Hres.
  pose proof (reserve_same count r u r1 Hres) as [Hj Hq]. apply reserve_paid in Hres; [|done|done].
  destruct u as [[]|[msg|t]]; [|by intros [= <- <-]..].
  unfold try_bind at 1. destruct (start_agents requests [] r1) as [pending r2] eqn:Hst.
  apply (start_agents_after requests 0 count) in Hst; [|by rewrite Hj, Hq|lia|by rewrite Z.sub_0_r].
  destruct pending as [pending|[msg|t]]; [|by intros [= <- <-]..].
  unfold mbind at 1, St_bind at 1. pose proof (resolve_all_spec pending (mkResolved [] None None false) r2) as [Hs3 Hterm].
  destruct (resolve_all pending _ r2) as [x r3]. cbn in Hs3, Hterm. specialize (Hterm ltac:(done)).
  assert (paid 0 r3) as Hp3 by (unfold paid in *; by rewrite Hs3).
  unfold mbind at 1, St_bind at 1. destruct (rs_resumable x) eqn:Hresum.
  - unfold mbind at 1, St_bind at 1. pose proof (release_within count r3 (paid_within 0 _ ltac:(done) Hp3)) as Hw.
    destruct (release_agent_calls count r3) as [[] r4]. destruct (rs_terminal x) as [kind|]; [|by destruct Hterm]. by intros [= <- <-].
  - pose proof (record_all_sent (rs_values x) r3) as Hs4. destruct (record_all (rs_values x) r3) as [recd r4]. cbn in Hs4.
    assert (paid 0 r4) as Hp4 by (unfold paid in *; by rewrite Hs4).
    assert (∀ e : ScriptError, after (A := list Dynamic) (inr e) 0 r4) as Hany by (intros []; [done|by apply (paid_within 0)]).
    destruct (rs_terminal x) as [kind|]; [intros [= <- <-]; by apply (paid_within 0)|].
    destruct (match recd with inl _ => _ | inr _ => _ end) as [e|]; [intros [= <- <-]; apply Hany|].
    by destruct (dynamics _); intros [= <- <-].
Qed.

(** A covered call asks for nothing. *)
Lemma host_call_covered kind payload req to_result r v res r' :
  replay (journal r) (seq r) kind (request_hash kind payload) = inl (Some v) →
  paid 0 r → host_call kind payload req to_result r = (res, r') → after res 0 r'.
Proof.
  intros Hv Hp. unfold host_call, try_bind at 1. destruct (next_seq r) as [[k|e] r1] eqn:Hseq; apply next_seq_sent in Hseq as (Hs & Hj & Hk).
  2: { destruct Hk as (t & ->). intros [= <- <-]. apply (paid_within 0); [done|]. unfold paid in *. by rewrite Hs. }
  destruct Hk as [-> _]. unfold mbind at 1, St_bind at 1, replay_at. rewrite Hj, Hv.
  assert (paid 0 r1) as Hp1 by (unfold paid in *; by rewrite Hs). by destruct (replay_host_error v); intros [= <- <-].
Qed.

Lemma spawn_payload_after opts payload r res r' : paid 0 r → spawn_payload opts payload r = (res, r') → after res 0 r'.
Proof.
  intros Hp. unfold spawn_payload. unfold mbind at 1, St_bind at 1.
  destruct (replay _ _ _ _) as [recorded|err] eqn:Hrep; [|intros [= <- <-]; by apply (paid_within 0)].
  set (payload_call := host_call _ _ _ _).
  assert (∀ r1 (u : unit + ScriptError), (if negb (is_some_and (λ _, true) recorded) then reserve_agent_calls 1 else mret (inl tt)) r = (u, r1) →
    match u with inl _ => ∀ value r2, payload_call r1 = (value, r2) → after value 0 r2 | inr e => after (A := unit) (inr e) 0 r1 end) as Hcall.
  { intros r1 u. destruct recorded as [v|]; cbn [is_some_and negb].
    - intros [= <- <-] value r2. by apply (host_call_covered _ _ _ _ _ v).
    - intros Hu. pose proof (reserve_paid 1 r u r1 ltac:(lia) Hp Hu) as Hr. destruct u as [[]|[msg|t]]; [|exact Hr..].
      intros value r2. apply (host_call_after 1 0); [lia|lia| |exact Hr]. intros r0 res0 r0'. by apply (request_spawn 0). }
  cbv zeta. unfold try_bind at 1.
  destruct ((if negb (is_some_and (λ _, true) recorded) then reserve_agent_calls 1 else mret (inl tt)) r) as [u r1] eqn:Hu.
  specialize (Hcall r1 u eq_refl).
  destruct u as [[]|e]; [|intros [= <- <-]; by destruct e].
  unfold mbind at 1, St_bind at 1. destruct (payload_call r1) as [value r2] eqn:Hv. specialize (Hcall value r2 eq_refl).
  destruct value as [v|e]; [by destruct (value_to_dynamic v); intros [= <- <-]|].
  unfold mbind, St_bind. destruct (negb (is_some_and (λ _, true) recorded) && is_resumable_unjournaled_terminal e) eqn:Hrel.
  - apply andb_prop in Hrel as [_ Hrel]. destruct e as [msg|t]; [done|]. pose proof (release_within 1 r2 Hcall) as Hw.
    destruct (release_agent_calls 1 r2) as [[] r3]. by intros [= <- <-].
  - intros [= <- <-]. by destruct e.
Qed.

Lemma plan_quiet f kind payload req : plan_of f = PlOne kind payload req → quiet req.
Proof.
  destruct f as [prompt [map|]|items|title|message|name fields|[d|]|kind' message|kind' message| |name vars|name content|name|commit];
    cbn [plan_of]; unfold spawn_plan, parallel_plan, unit_plan; repeat case_match; intros; by simplify_eq.
Qed.

Lemma emission_quiet req : emission req → quiet req.
Proof. by destruct req. Qed.

(** Every call of a script. *)
Lemma call_after f r res r' : paid 0 r → call_fn f r = (res, r') → after res 0 r'.
Proof.
  intros Hp. rewrite call_fn_plan. destruct (plan_of f) as [lres emit|t|opts payload|kind payload req|requests|k m h] eqn:Hplan; cbn [run_plan].
  - unfold mbind, St_bind, mret, St_ret. destruct emit as [e|]; [|intros [= <- <-]; by destruct lres].
    unfold host_emit. destruct (host_gone (sent r)); intros [= <- <-]; [by destruct lres|].
    assert (paid 0 (r <| sent := sent r ++ [e (covers (journal r) (seq r))] |>)) as Hp1; [|by destruct lres].
    eapply (sent_quiet 0 r); [|done|done]. apply emission_quiet. by eapply plan_emission.
  - intros [= <- <-]. by apply (paid_within 0).
  - unfold try_bind. destruct (spawn_payload opts payload r) as [d r1] eqn:Hs. apply spawn_payload_after in Hs; [|done].
    destruct d as [d|[msg|t]]; by intros [= <- <-].
  - apply plan_quiet in Hplan. unfold text_call, try_bind. destruct (host_call kind payload req value_of_reply r) as [v r1] eqn:Hc.
    apply (host_call_after 0 0) in Hc; [|lia|lia|intros r0 res0 r0'; by apply request_quiet|done].
    destruct v as [v|[msg|t]]; [by destruct (value_to_dynamic v); intros [= <- <-]|by intros [= <- <-]..].
  - unfold try_bind. destruct (run_agents requests r) as [ds r1] eqn:Hr. apply run_agents_after in Hr; [|done].
    destruct ds as [ds|[msg|t]]; by intros [= <- <-].
  - unfold try_bind at 1. destruct (next_seq r) as [[n|e] r1] eqn:Hseq; apply next_seq_sent in Hseq as (Hs & _ & Hk).
    2: { destruct Hk as (t & ->). intros [= <- <-]. apply (paid_within 0); [done|]. unfold paid in *. by rewrite Hs. }
    assert (paid 0 r1) as Hp1 by (unfold paid in *; by rewrite Hs).
    unfold mbind at 1, St_bind at 1, replay_at. destruct (replay _ _ _ _) as [[v|]|err]; [by intros [= <- <-]| |intros [= <- <-]; by apply (paid_within 0)].
    unfold try_bind. pose proof (record_sent n (lit "await_user") h VNull r1) as Hs2.
    destruct (record n (lit "await_user") h VNull r1) as [[[]|e] r2]; cbn in Hs2;
      (assert (paid 0 r2) as Hp2 by (unfold paid in *; by rewrite Hs2)); intros [= <- <-]; [by apply (paid_within 0)|].
    destruct e; [done|by apply (paid_within 0)].
Qed.

Lemma eval_within s r o f : paid 0 r → eval s r = (o, f) → within f.
Proof.
  revert r. induction s as [d|m|fn k IH]; intros r Hp; cbn [eval]; (destruct (cancelled (steps r)); [intros [= <- <-]; by apply (paid_within 0)|]);
    [intros [= <- <-]; by apply (paid_within 0)..|].
  set (r0 := r <| steps := S (steps r) |>). assert (paid 0 r0) as Hp0 by done.
  destruct (call_fn fn r0) as [res r1] eqn:Hf. apply call_after in Hf; [|done].
  destruct res as [g|[m|t]]; [by apply IH|by apply IH|by intros [= <- <-]].
Qed.

(** A run starts no more agents than its host lets it reserve. *)
Lemma run_within compile script args j s :
  spawns (sent (run_workflow compile script args j s).2) ≤ Z.max 0 (limit - used []).
Proof.
  unfold run_workflow. destruct (compile script args) as [tree|e]; [|cbn; lia].
  destruct (eval tree (mkRun _ j 0 s [] 0)) as [o f] eqn:Hev.
  apply eval_within in Hev; [unfold within in Hev; cbn; lia|]. unfold paid. cbn. split; [constructor|]. lia.
Qed.
End Metering.

(** * The session meters *)

(** The calls charged to a run, and its budget. *)
Definition quota (id : rstr) (t : Tracker) : option (Z * option Z) := (λ s, (agents_used s, agent_budget s)) <$> tracker_get id t.

Lemma on_run_quota {A} id id' (f : TrackedRun → A * TrackedRun) t :
  (∀ r, let s := tr_state r in let s' := tr_state (f r).2 in
        run_id s' = run_id s ∧ agents_used s' = agents_used s ∧ agent_budget s' = agent_budget s) →
  quota id (on_run id' f t).2 = quota id t.
Proof.
  intros Hf. unfold quota, tracker_get. pose proof (on_run_spec id' f t (λ r, proj1 (Hf r))) as Hs.
  destruct (on_run id' f t) as [[a|] t']; [|by destruct Hs as [_ ->]]. destruct Hs as (r & Hr & _ & Hfind & _). cbn. rewrite Hfind.
  destruct (decide (id = id')) as [->|]; [|done]. rewrite Hr. cbn. destruct (Hf r) as (_ & -> & ->). done.
Qed.

Lemma edit_quota id id' f t :
  (∀ s, run_id (f s) = run_id s ∧ agents_used (f s) = agents_used s ∧ agent_budget (f s) = agent_budget s) →
  quota id (edit id' (on_state f) t).2 = quota id t.
Proof. intros Hf. apply on_run_quota. intros r. apply (Hf (tr_state r)). Qed.

Section Quota.
Context `{!Json, !Letters, !ServiceEnv}.

Notation Value := (Value Number).

Definition charged (q : option (Z * option Z)) (s : Service) : Prop := quota svc_run_id (sv_tracker s) = q.

Lemma charged_tracker {A} q (m : St Tracker A) :
  (∀ t, quota svc_run_id (m t).2 = quota svc_run_id t) → preserves (charged q) (on_tracker m).
Proof. intros Hm s Hs. unfold charged, on_tracker in *. specialize (Hm (sv_tracker s)). destruct (m (sv_tracker s)). cbn in *. congruence. Qed.

Lemma charged_same {A} q (m : St Service A) : (∀ s, sv_tracker (m s).2 = sv_tracker s) → preserves (charged q) m.
Proof. intros Hm s Hs. unfold charged in *. by rewrite Hm. Qed.

Lemma charged_log q e : preserves (charged q) (log_event e).
Proof. by apply charged_same. Qed.
Lemma charged_ask {A} q (a : nat → A) : preserves (charged q) (ask a).
Proof. by apply charged_same. Qed.
Lemma charged_emit q event state : preserves (charged q) (emit_state event state).
Proof. apply charged_same. by destruct state. Qed.
Lemma charged_tick q : preserves (charged q) tick.
Proof. apply charged_same. intros s. unfold tick, emit_state. by destruct (tracker_get _ _). Qed.
Lemma charged_phase q m title : preserves (charged q) (on_tracker (set_phase m svc_run_id title)).
Proof. apply charged_tracker. intros t. apply edit_quota. intros s. by case_bool_decide. Qed.
Lemma charged_message q m message : preserves (charged q) (on_tracker (log_message m svc_run_id message)).
Proof. apply charged_tracker. intros t. by apply edit_quota. Qed.
Lemma charged_row q id f : preserves (charged q) (on_tracker (on_row svc_run_id id f)).
Proof. apply charged_tracker. intros t. unfold on_row. rewrite st_bind_run. apply edit_quota. intros s. by destruct (edit_row _ _ _). Qed.
Lemma charged_rebind q id id' : preserves (charged q) (on_tracker (rebind_agent_id svc_run_id id id')).
Proof. apply charged_row. Qed.
Lemma charged_started q row : preserves (charged q) (on_tracker (agent_started svc_run_id row)).
Proof.
  apply charged_tracker. intros t. unfold agent_started. set (f := λ r, _).
  assert (quota svc_run_id (on_run svc_run_id f t).2 = quota svc_run_id t) as Hq by (by apply on_run_quota).
  by destruct (on_run svc_run_id f t) as [[label|] t'].
Qed.
Lemma charged_count q : preserves (charged q) count_run.
Proof. by apply charged_same. Qed.
Lemma charged_finish q id state tokens duration : preserves (charged q) (finish_row id state tokens duration).
Proof. apply charged_row. Qed.

Lemma charged_child q c : preserves (charged q) (spawn_child c).
Proof.
  unfold spawn_child. apply preserves_bind; [by apply charged_same|]. intros _. apply preserves_bind; [apply charged_tick|]. intros _.
  apply preserves_bind; [apply charged_log|]. intros _. apply preserves_bind; [by apply charged_same|]. intros ending.
  apply preserves_bind; [by apply charged_same|]. intros _. apply preserves_ret.
Qed.

#[local] Hint Resolve preserves_ret charged_log charged_ask charged_emit charged_tick charged_phase charged_message charged_row charged_rebind
  charged_started charged_count charged_finish charged_child : charged.

Ltac charged := repeat first [progress (eauto 1 with charged nocore)|apply preserves_bind; [|intros ?]|case_match].

Lemma charged_loop q retries first id row make validator prompt resume fork tokens duration :
  preserves (charged q) (child_loop retries first id row make validator prompt resume fork tokens duration).
Proof.
  revert first row prompt resume fork tokens duration.
  induction retries as [|retries IH]; intros first row prompt resume fork tokens duration; cbn [child_loop]; cbv zeta; charged; apply IH.
Qed.

#[local] Hint Resolve charged_loop : charged.

Lemma charged_agent q opts : preserves (charged q) (spawn_agent opts).
Proof. unfold spawn_agent. cbv zeta. charged. Qed.

#[local] Hint Resolve charged_agent : charged.

(** Requests other than reservations and releases. *)
Lemma charged_other q req :
  match req with ReserveAgentCalls _ | ReleaseAgentCalls _ => False | _ => True end → preserves (charged q) (dispatch req).
Proof.
  intros Hreq. destruct req as [n|n|opts|title replayed|message replayed|name fields replayed| |name vars|name content|name|commit]; try done;
    cbn [dispatch]; unfold phase_call, log_call, now; charged; try (by apply charged_same).
  apply charged_same. intros s. unfold telemetry_call. destruct replayed; [done|]. by destruct (_ <? _).
Qed.

(** ** Reservations *)

Lemma on_tracker_run {A} (m : St Tracker A) s : on_tracker m s = ((m (sv_tracker s)).1, s <| sv_tracker := (m (sv_tracker s)).2 |>).
Proof. unfold on_tracker. by destruct (m (sv_tracker s)). Qed.

Lemma reserve_quota id count t u limit :
  quota id t = Some (u, Some limit) → 0 ≤ u → 0 ≤ count → limit < umax 64 →
  if limit <? u + count
  then (∃ requested, (reserve_agents id count t).1 = inr (requested, limit)) ∧ quota id (reserve_agents id count t).2 = quota id t
  else (∃ s, (reserve_agents id count t).1 = inl s) ∧ quota id (reserve_agents id count t).2 = Some (u + count, Some limit).
Proof.
  intros Hq Hu Hc Hl. unfold reserve_agents. match goal with |- context [on_run id ?g t] => set (f := g) end.
  assert (∀ r, run_id (tr_state (f r).2) = run_id (tr_state r)) as Hf.
  { intros r. unfold f. destruct (agent_budget (tr_state r)); [by destruct (_ <? _)|done]. }
  pose proof (on_run_spec id f t Hf) as Hs. unfold quota, tracker_get in *.
  destruct (on_run id f t) as [[a|] t']; [|destruct Hs as [Hn _]; by rewrite Hn in Hq].
  destruct Hs as (r & Hr & -> & Hfind & _). rewrite Hr in Hq. cbn in Hq. injection Hq as Hu' Hb. cbn. rewrite Hfind, decide_True by done.
  rewrite Hr. unfold f. rewrite Hb, Hu'. cbn.
  assert ((limit <? sat_add 64 u count) = (limit <? u + count)) as ->.
  { unfold sat_add. destruct (Z.ltb_spec limit (u + count)), (Z.ltb_spec limit (Z.min (u + count) (umax 64))); lia. }
  destruct (Z.ltb_spec limit (u + count)); cbn; [rewrite Hu', Hb; eauto|]. rewrite sat_add_exact, Hb by lia. eauto.
Qed.

Lemma release_quota id count t u b : quota id t = Some (u, b) → quota id (release_agents id count t).2 = Some (sat_sub u count, b).
Proof.
  unfold release_agents, edit, quota, tracker_get. match goal with |- context [on_run id ?g t] => set (f := g) end. intros Hq.
  pose proof (on_run_spec id f t (λ r, eq_refl)) as Hs. destruct (on_run id f t) as [[a|] t']; [|destruct Hs as [Hn _]; by rewrite Hn in Hq].
  destruct Hs as (r & Hr & _ & Hfind & _). rewrite Hr in Hq. cbn in Hq. injection Hq as <- <-. cbn. by rewrite Hfind, decide_True.
Qed.

(** What a reservation does to the charge: granted and within the budget, or as it
    was. *)
Lemma reserve_call_spec count s u limit :
  charged (Some (u, Some limit)) s → 0 ≤ u → 0 ≤ count → limit < umax 64 →
  match (reserve_call count s).1 with
  | inl _ => charged (Some (u + count, Some limit)) (reserve_call count s).2 ∧ u + count ≤ limit
  | inr _ => charged (Some (u, Some limit)) (reserve_call count s).2
  end.
Proof.
  intros Hq Hu Hc Hl. pose proof (reserve_quota svc_run_id count (sv_tracker s) u limit Hq Hu Hc Hl) as Hr.
  unfold reserve_call. rewrite st_bind_run, on_tracker_run. cbn [fst snd]. unfold charged in *.
  destruct (reserve_agents svc_run_id count (sv_tracker s)) as [res t]. cbn [fst snd] in *.
  destruct (Z.ltb_spec limit (u + count)) as [Hlt|Hle].
  - destruct Hr as [(requested & ->) Ht]. cbn. by rewrite Ht.
  - destruct Hr as [(st & ->) Ht]. rewrite st_bind_run. unfold persist_now. cbn [fst snd].
    destruct (persist_fails _) as [e|]; cbn; [|by split].
    rewrite st_bind_run, on_tracker_run. cbn. rewrite (release_quota _ _ _ _ _ Ht). unfold sat_sub. do 2 f_equal. lia.
Qed.

Lemma release_call_spec count s u b : charged (Some (u, b)) s → charged (Some (sat_sub u count, b)) (release_call count s).2.
Proof.
  intros Hq. unfold release_call. rewrite st_bind_run, on_tracker_run. cbn [fst snd]. unfold charged in *.
  pose proof (release_quota svc_run_id count (sv_tracker s) u b Hq) as Ht.
  destruct (release_agents svc_run_id count (sv_tracker s)) as [res t]. cbn in *. by destruct res.
Qed.

(** The charge is never negative, and the budget stays. *)
Lemma served_charged s0 u0 limit reqs :
  charged (Some (u0, Some limit)) s0 → 0 ≤ u0 → limit < umax 64 → Forall count_ok reqs →
  ∃ u, 0 ≤ u ∧ charged (Some (u, Some limit)) (served s0 reqs).
Proof.
  intros Hq Hu Hl Hreqs. revert s0 u0 Hq Hu. induction Hreqs as [|req reqs Hreq _ IH]; intros s0 u0 Hq Hu; [by exists u0|].
  unfold served. cbn [foldl]. fold (served (serve s0 req) reqs).
  assert (∃ u, 0 ≤ u ∧ charged (Some (u, Some limit)) (serve s0 req)) as (u & Hu1 & Hq1); [|by apply (IH _ u)].
  unfold serve. destruct req as [n|n|opts|title replayed|message replayed|name fields replayed| |name vars|name content|name|commit];
    try (exists u0; split; [done|]; by apply charged_other).
  - cbn [dispatch]. rewrite st_bind_run. cbn [snd]. pose proof (reserve_call_spec n s0 u0 limit Hq Hu Hreq Hl) as Hr.
    destruct (reserve_call n s0) as [[x|e] s1]; cbn in *; [exists (u0 + n); split; [lia|apply Hr]|by exists u0].
  - cbn [dispatch]. rewrite st_bind_run. cbn [snd]. exists (sat_sub u0 n). split; [unfold sat_sub; lia|]. by apply release_call_spec.
Qed.
End Quota.

(** * Children *)

Section Children.
Context `{!Json, !Letters, !ServiceEnv}.

Definition is_child (e : ServiceEvent) : bool := match e with EvChild _ => true | _ => false end.
Definition children (s : Service) : Z := countb is_child (sv_log s).

(** [m] starts at most [n] children. *)
Definition starts {A} (n : Z) (m : St Service A) : Prop := ∀ s, children (m s).2 ≤ children s + n.

Lemma starts_none {A} (m : St Service A) :
  (∀ s, sv_log (m s).2 = sv_log s ∨ ∃ e, is_child e = false ∧ sv_log (m s).2 = sv_log s ++ [e]) → starts 0 m.
Proof.
  intros Hm s. unfold children. destruct (Hm s) as [->|(e & He & ->)]; [lia|]. rewrite countb_app, countb_cons, countb_nil, He. lia.
Qed.

Lemma starts_bind {A B} n n' (m : St Service A) (k : A → St Service B) :
  starts n m → (∀ a, starts n' (k a)) → starts (n + n') (a ← m; k a).
Proof. intros Hm Hk s. rewrite st_bind_run. specialize (Hm s). specialize (Hk (m s).1 (m s).2). lia. Qed.

Lemma starts_after {A B} n (m : St Service A) (k : A → St Service B) : starts 0 m → (∀ a, starts n (k a)) → starts n (a ← m; k a).
Proof. apply (starts_bind 0 n). Qed.

Lemma starts_weaken {A} n n' (m : St Service A) : starts n m → n ≤ n' → starts n' m.
Proof. intros Hm Hn s. specialize (Hm s). lia. Qed.

Lemma starts_ret {A} (a : A) n : 0 ≤ n → starts n (mret a).
Proof. intros Hn s. cbn. lia. Qed.

Lemma starts_tracker {A} (m : St Tracker A) : starts 0 (on_tracker m).
Proof. apply starts_none. intros s. rewrite on_tracker_run. by left. Qed.
Lemma starts_ask {A} (q : nat → A) : starts 0 (ask q).
Proof. apply starts_none. intros s. by left. Qed.
Lemma starts_emit event state : (∀ s n, is_child (event s n) = false) → starts 0 (emit_state event state).
Proof. intros He. apply starts_none. intros s. destruct state as [st|]; [right|by left]. by exists (event st (active_agents s)). Qed.
Lemma starts_tick : starts 0 tick.
Proof. intros s. by apply starts_emit. Qed.
Lemma starts_count : starts 0 count_run.
Proof. apply starts_none. intros s. by left. Qed.
Lemma starts_finish id state tokens duration : starts 0 (finish_row id state tokens duration).
Proof. apply starts_tracker. Qed.
Lemma starts_persist state : starts 0 (persist_now state).
Proof. apply starts_none. intros s. right. by exists (EvPersist state). Qed.

Lemma starts_spawn c : starts 1 (spawn_child c).
Proof.
  unfold spawn_child. apply starts_after; [apply starts_none; intros s; by left|]. intros _. apply starts_after; [apply starts_tick|]. intros _.
  apply (starts_bind 1 0).
  - intros s. unfold children. change (sv_log (log_event (EvChild c) s).2) with (sv_log s ++ [EvChild c]). rewrite countb_app. change (countb is_child [EvChild c]) with 1. lia.
  - intros _. apply starts_after; [apply starts_none; intros s; by left|]. intros ending. apply starts_after; [apply starts_none; intros s; by left|]. intros _.
    by apply starts_ret.
Qed.

#[local] Hint Resolve starts_tracker starts_ask starts_tick starts_count starts_finish starts_persist : starts.

Ltac quiet_step := apply starts_after; [solve [eauto with starts nocore]|intros ?].

Lemma starts_loop retries first id row make validator prompt resume fork tokens duration :
  starts (Z.of_nat retries + 1) (child_loop retries first id row make validator prompt resume fork tokens duration).
Proof.
  revert first row prompt resume fork tokens duration.
  induction retries as [|retries IH]; intros first row prompt resume fork tokens duration; cbn [child_loop]; cbv zeta; quiet_step;
    (destruct (_ <=? _); [quiet_step; apply starts_ret; lia|]); quiet_step;
    (apply starts_after; [destruct first; [by apply starts_ret|quiet_step; quiet_step; by apply starts_ret]|intros row']).
  - apply (starts_bind 1 0); [apply starts_spawn|]. intros [| |r]; [quiet_step; by apply starts_ret..|]. quiet_step. destruct a1; [quiet_step; by apply starts_ret|].
    destruct (cr_backgrounded r); [quiet_step; quiet_step; by apply starts_ret|].
    destruct (judge_child _ _ r) as [[r' output]|err]; [quiet_step; quiet_step|]; by apply starts_ret.
  - replace (Z.of_nat (S retries) + 1) with (1 + (Z.of_nat retries + 1)) by lia. apply starts_bind; [apply starts_spawn|].
    intros [| |r]; [quiet_step; apply starts_ret; lia..|]. quiet_step. destruct a1; [quiet_step; apply starts_ret; lia|].
    destruct (cr_backgrounded r); [quiet_step; quiet_step; apply starts_ret; lia|].
    destruct (judge_child _ _ r) as [[r' output]|err]; [quiet_step; quiet_step; apply starts_ret; lia|]. apply IH.
Qed.

(** The children of one request. *)
Lemma starts_dispatch req : starts (if is_spawn req then Z.of_nat SCHEMA_CONTRACT_RETRIES + 1 else 0) (dispatch req).
Proof.
  destruct req as [n|n|opts|title replayed|message replayed|name fields replayed| |name vars|name content|name|commit]; cbn [dispatch is_spawn].
  - apply starts_after; [|intros; by apply starts_ret]. unfold reserve_call. quiet_step. destruct a as [state|[requested maximum]]; [|by apply starts_ret].
    quiet_step. destruct a; [by apply starts_ret|]. quiet_step. by apply starts_ret.
  - apply starts_after; [|intros; by apply starts_ret]. unfold release_call. quiet_step. destruct a; [|by apply starts_ret]. quiet_step. by apply starts_ret.
  - rewrite <- (Z.add_0_r (Z.of_nat SCHEMA_CONTRACT_RETRIES + 1)). apply starts_bind; [|intros; by apply starts_ret].
    unfold spawn_agent. quiet_step. destruct a; [by apply starts_ret|]. destruct (agent_refused opts); [by apply starts_ret|].
    destruct (agent_contract opts) as [[validator prompt]|]; [|by apply starts_ret]. quiet_step. destruct a; [by apply starts_ret|].
    quiet_step. destruct a; [by apply starts_ret|]. quiet_step. quiet_step. apply starts_loop.
  - apply starts_after; [|intros; by apply starts_ret]. unfold phase_call. destruct (_ <? _); [by apply starts_ret|]. quiet_step. quiet_step.
    apply starts_emit. by destruct replayed.
  - apply starts_after; [|intros; by apply starts_ret]. unfold log_call. destruct (_ <? _); [by apply starts_ret|]. destruct replayed; [by apply starts_ret|].
    quiet_step. quiet_step. by apply starts_emit.
  - apply starts_after; [|intros; by apply starts_ret]. apply starts_none. intros s. unfold telemetry_call. destruct replayed; [by left|].
    destruct (_ <? _); [right; by eexists (EvTelemetry _ _)|by left].
  - apply starts_after; [|intros; by apply starts_ret]. apply starts_none. intros s. by left.
  - by apply starts_ret.
  - apply starts_none. intros s. by left.
  - apply starts_none. intros s. by left.
  - apply starts_none. intros s. by left.
Qed.

Lemma served_children s0 reqs : children (served s0 reqs) ≤ children s0 + (Z.of_nat SCHEMA_CONTRACT_RETRIES + 1) * spawns reqs.
Proof.
  revert s0. induction reqs as [|req reqs IH]; intros s0; [unfold spawns; rewrite countb_nil; cbn; lia|].
  unfold served. cbn [foldl]. fold (served (serve s0 req) reqs). pose proof (starts_dispatch req s0) as Hd.
  fold (serve s0 req) in Hd. specialize (IH (serve s0 req)). unfold spawns in *. rewrite countb_cons. destruct (is_spawn req); lia.
Qed.
End Children.

(** * A run against the service *)

Section Session.
Context `{!Json, !Storage, !Rhai, !Letters, !ServiceEnv}.
Context (s0 : Service) (cut : nat) (gone : list (Request (Value Number)) → bool) (stop : nat → bool) (clock : list IoCall → Z).

Notation Value := (Value Number).
Notation Request := (Request Value).
Notation host := (session_host s0 cut gone stop clock).

(** The service when the requests that it dispatches have been answered. *)
Definition service_of (log : list Request) : Service := served s0 (take cut log).

Definition session_used (log : list Request) : Z :=
  match quota svc_run_id (sv_tracker (service_of log)) with Some (u, _) => u | None => 0 end.

Lemma service_of_snoc log req :
  service_of (log ++ [req]) = if (length log <? cut)%nat then serve (service_of log) req else service_of log.
Proof.
  unfold service_of, served. destruct (Nat.ltb_spec (length log) cut) as [Hlt|Hge].
  - rewrite !take_ge by (rewrite ?length_app; cbn; lia). by rewrite foldl_app.
  - by rewrite take_app_le.
Qed.

Lemma session_answer log req :
  @answer _ host (log ++ [req]) (length log) =
    if (length log <? cut)%nat then (dispatch req (service_of log)).1 else reply_cancelled req.
Proof.
  cbn [answer session_host]. rewrite lookup_app_r, Nat.sub_diag by done. cbn [lookup list_lookup mbind option_bind].
  rewrite take_app_length. destruct (Nat.ltb_spec (length log) cut); [|done].
  unfold service_of. by rewrite take_ge by lia.
Qed.

Section Metered.
Context (u0 limit : Z) (Hq : charged (Some (u0, Some limit)) s0) (Hu : 0 ≤ u0) (Hl : limit < umax 64).

Lemma service_charged log : Forall count_ok log → ∃ u, 0 ≤ u ∧ charged (Some (u, Some limit)) (service_of log).
Proof. intros Hlog. apply (served_charged s0 u0); try done. by apply Forall_take. Qed.

Lemma session_used_charged log u b : charged (Some (u, b)) (service_of log) → session_used log = u.
Proof. unfold charged, session_used. by intros ->. Qed.

(** The service meters what its run reserves. *)
Definition session_metered : Metered host limit.
Proof.
  refine {| used := session_used |}.
  - intros log count r Hlog Hcount. rewrite session_answer. destruct (service_charged log Hlog) as (u & Hu1 & Hq1).
    destruct (length log <? cut)%nat eqn:Hcut; [|done]. cbn [dispatch]. rewrite st_bind_run. cbn. intros [= Hr].
    pose proof (reserve_call_spec count _ u limit Hq1 Hu1 Hcount Hl) as Hspec. rewrite Hr in Hspec. destruct Hspec as [Hq2 Hle].
    rewrite (session_used_charged log u _ Hq1). split; [|done]. apply (session_used_charged _ _ (Some limit)).
    rewrite service_of_snoc, Hcut. unfold serve. cbn [dispatch]. by rewrite st_bind_run.
  - intros log count Hlog Hcount. rewrite session_answer. destruct (service_charged log Hlog) as (u & Hu1 & Hq1).
    rewrite (session_used_charged log u _ Hq1). intros Ha. apply (session_used_charged _ _ (Some limit)).
    rewrite service_of_snoc. destruct (length log <? cut)%nat; [|done]. cbn [dispatch] in Ha. rewrite st_bind_run in Ha. cbn in Ha.
    unfold serve. cbn [dispatch]. rewrite st_bind_run. cbn. pose proof (reserve_call_spec count _ u limit Hq1 Hu1 Hcount Hl) as Hspec.
    destruct (reserve_call count (service_of log)).1 as [x|e]; [by destruct (Ha x)|done].
  - intros log req Hlog Hreq. destruct (service_charged log Hlog) as (u & Hu1 & Hq1). rewrite (session_used_charged log u _ Hq1).
    apply (session_used_charged _ _ (Some limit)). rewrite service_of_snoc. destruct (length log <? cut)%nat; [|done].
    by apply charged_other.
Defined.

Lemma session_used_nil : session_used [] = u0.
Proof. apply (session_used_charged _ _ (Some limit)). unfold service_of. by rewrite take_nil. Qed.
End Metered.

(** C26: No script starts more agents than the budget of its run has left.  Let the
    run stand in the tracker with [u0] of [limit] agent calls used.  Then whatever
    the script does, alone or in parallel blocks, on whatever journal, with
    whatever failures of the store, of the children and of the channel, and
    whenever it is cancelled, it asks for at most [limit - u0] agents, each of which
    takes at most two children, the second to mend an answer that broke its
    output contract.  The engine reserves before it asks; the tracker counts what
    it grants; a grant that cannot be stored is taken back. *)
Theorem agents_within_budget compile script args j st u0 limit
    (Hq : charged (Some (u0, Some limit)) s0) (Hu : 0 ≤ u0) (Hl : limit < umax 64) :
  let log := sent (@run_workflow _ _ _ host compile script args j st).2 in
  spawns log ≤ Z.max 0 (limit - u0) ∧ children (service_of log) ≤ children s0 + 2 * Z.max 0 (limit - u0).
Proof.
  intros log. pose proof (@run_within _ _ _ host limit (session_metered u0 limit Hq Hu Hl) compile script args j st) as Hrun.
  cbn [used session_metered] in Hrun. rewrite (session_used_nil u0 limit Hq) in Hrun. fold log in Hrun. split; [done|].
  pose proof (served_children s0 (take cut log)) as Hc. fold (service_of log) in Hc.
  assert (spawns (take cut log) ≤ spawns log).
  { unfold spawns. rewrite <- (take_drop cut log) at 2. rewrite countb_app. pose proof (countb_bounds is_spawn (drop cut log)). lia. }
  unfold SCHEMA_CONTRACT_RETRIES in Hc. lia.
Qed.
End Session.

(** ** A small session *)

(** Children say what they are told first, then what the contract asks for. *)
#[local] Instance demo_service_env : ServiceEnv := {|
  svc_run_id := lit "wf_1"; allow_fork_context := false; templates := ∅; persist_fails _ := None; run_cancelled _ := false;
  permit_closed _ := false;
  child_end log := ChildDone (mkChildResult true (if (length log <? 8)%nat then lit "done, I think" else lit "true") None false 10 5 false (lit "s"));
  uuid_now_v7 n := lit "u" ++ fmt_dec (Z.of_nat n); moment_of n := mkMoment (Z.of_nat n) (lit "now"); known_capability _ := true;
  Validator := unit; build_schema _ := inl tt; validate _ _ := None;
  parse_json s := if bool_decide (s = lit "true") then inl (VBool true) else inr (lit "expected a value");
  write_scratch name _ _ := inl name; read_scratch _ _ := inl []; git_diff _ _ := inl [] |}.

#[local] Instance demo_letters : Letters := {| lowercase := to_ascii_lowercase; alphanumeric := is_ascii_alphanumeric |}.

(** A run with a budget of two agents, against the script that wants three. *)
Definition demo_tracker : Tracker :=
  (start_run (mkMoment 0 (lit "now")) (lit "wf_1") (lit "demo") (lit "look") [] (Some 2) None tracker_default).2.

Example demo_budget_exceeded :
  let host := session_host (service_new demo_tracker) 100 (λ _, false) (λ _, false) (λ _, 0) in
  let run := @run_workflow _ _ _ host (λ _ _, inl demo_script) [] VNull (journal_new (Some (lit "j"))) (mkStore None []) in
  run.1 = WfBudgetExceeded (lit "workflow agent budget exceeded: requested 3, maximum 2") ∧ spawns (sent run.2) = 1 ∧
  journal_len (journal run.2) = 1.
Proof. by vm_compute. Qed.

Lemma agents_within_budget_witness :
  let s0 := service_new demo_tracker in
  let host := session_host s0 100 (λ _, false) (λ _, false) (λ _, 0) in
  let log := sent (@run_workflow _ _ _ host (λ _ _, inl demo_script) [] VNull (journal_new (Some (lit "j"))) (mkStore None [])).2 in
  charged (Some (0, Some 2)) s0 ∧ spawns log ≤ 2 ∧ children (service_of s0 100 log) ≤ 4.
Proof.
  intros s0 host log. assert (charged (Some (0, Some 2)) s0) as Hq by reflexivity.
  destruct (agents_within_budget s0 100 (λ _, false) (λ _, false) (λ _, 0) (λ _ _, @inl (Script (@Dynamic bits_json value_rhai)) rstr demo_script) [] VNull
    (journal_new (Some (lit "j"))) (mkStore None []) 0 2 Hq ltac:(lia) ltac:(unfold umax; lia)) as [Hs Hc].
  split; [exact Hq|]. split; [exact Hs|exact Hc].
Defined.
