(* ===== verification/PermissionManager.v ===== *)
(** The permission manager: one actor that answers the requests of the tools of
    a session, one after the other
    (src/crates/codegen/intellihelper-workspace/src/permission/manager.rs,
    gate_preflight.rs).

    A request is judged by the rules, then the modes of the session, then what
    the user granted, then a classifier, then the user.  What the outside
    answers to it is an argument: whether the requester is still there, the
    verdict of the classifier, the choice of the user. *)
From S2P Require Import Prelude Str Truncate Path ShellSplit ShellPeel PermissionPolicy ExecRisk ShellAccess BashRoutine BashEval AccessTarget.

(** * The managed policy, asked once *)

Section preflight.
Context `{!PolicyLibs} `{!ShellParser} `{!ShellFs}.

Record GatePreflight : Type := mkPreflight {
  direct : option Decision;
  bash_command : option GateDecision;
  shell_file : option GateDecision;
  pf_defers_gate_ask : bool;
}.

Definition is_rule_ask (d : option GateDecision) : bool := match d with Some AskRuleMatch => true | _ => false end.
Definition is_closed_ask (d : option GateDecision) : bool := match d with Some AskFailClosed => true | _ => false end.
Definition gate_is_ask (d : option GateDecision) : bool := is_rule_ask d || is_closed_ask d.
Definition is_ask (d : option Decision) : bool := match d with Some Ask => true | _ => false end.

Definition preflight_evaluate (policy : option CompiledPolicy) (access : AccessKind) (cwd : rstr) (auto_mode : bool) : GatePreflight :=
  let direct := policy ← policy; evaluate_with_cwd policy access (Some cwd) in
  let '(bash_command, shell_file) :=
    match policy, access with
    | Some policy, AccBash cmd => (evaluate_bash_command_gate policy cmd, evaluate_shell_file_access_gate policy cwd cmd)
    | _, _ => (None, None)
    end in
  let rule_match_ask := is_ask direct || is_rule_ask bash_command || is_rule_ask shell_file in
  let fail_closed_ask := is_closed_ask bash_command || is_closed_ask shell_file in
  mkPreflight direct bash_command shell_file (auto_mode && fail_closed_ask && negb rule_match_ask).

Definition policy_decision (p : GatePreflight) : option Decision :=
  combine_decisions (combine_decisions (direct p) (into_decision <$> bash_command p)) (into_decision <$> shell_file p).

Definition policy_forced_prompt (p : GatePreflight) : bool := is_ask (policy_decision p).
Definition shell_file_forced_prompt (p : GatePreflight) : bool := gate_is_ask (shell_file p).
Definition shell_forced_prompt (p : GatePreflight) : bool := gate_is_ask (bash_command p) || shell_file_forced_prompt p.
Definition admits_auto_classifier (p : GatePreflight) : bool := negb (policy_forced_prompt p) || pf_defers_gate_ask p.

Definition prompt_trigger (p : GatePreflight) (auto_prompt_reason : option Reason) : option Reason :=
  if is_ask (direct p) then Some POLICY_ASK
  else if pf_defers_gate_ask p then auto_prompt_reason
  else if gate_is_ask (bash_command p) then Some BASH_COMMAND_GATE_ASK
  else if shell_file_forced_prompt p then Some SHELL_FILE_GATE_ASK
  else auto_prompt_reason.
End preflight.

(** * Data *)

Inductive PromptOutcome : Type :=
| AllowOnce | AllowAlways | AllowEditsForSession
| AllowAlwaysBashCommand (prefix : rstr) | AllowAlwaysBashGlob (pattern : rstr) | AllowAlwaysDomain (domain : rstr)
| AllowAlwaysMcpTool (tool_name : rstr) | AllowAlwaysMcpServer (server_prefix : rstr)
| RejectOnce | RejectAlwaysBashCommand (prefix : rstr) | PromptCancelled | PromptFollowup (message : rstr) | PromptError (e : rstr).

Record ClassifierOutcome : Type := mkOutcome { co_verdict : ClassifierVerdict; co_reason : option rstr; co_is_timeout : bool }.

Record ClassifierContext : Type := mkContext {
  cc_turns : list ClassifierTurn; cc_project_instructions : option rstr; cc_findings : BashSecurityAssessment }.

Record PermissionConfig : Type := mkConfig { rules : list PermissionRule; cfg_prompt_policy : PromptPolicy }.

(** What the manager is made with. *)
Record Setup : Type := mkSetup {
  cwd : rstr;
  permission_config : option PermissionConfig;
  web_fetch_allowed_domains : list rstr;
  initial_yolo : bool;
  remember_tool_approvals : bool;
  yolo_pin : option rstr;
}.

Record RequestPathContext : Type := mkPathContext { real_cwd : rstr; display_cwd : option rstr }.
(** [mcp_input] is the input of a call of an MCP tool, as compact JSON; nothing
    when it is null. *)
Record Request : Type := mkRequest { access : AccessKind; mcp_input : option rstr; path_context : option RequestPathContext }.

(** What the outside answers while one request is served.  A classifier without
    an outcome, a prompt cancelled: the requester went away. *)
Record Answers : Type := mkAnswers {
  gone_at_dequeue : bool;
  (** Whether the scan of the repositories came back. *)
  scan_joined : bool;
  gone_after_scan : bool;
  classify : rstr → AccessKind → option rstr → ClassifierContext → option ClassifierOutcome;
  should_auto_allow_bash : bool;
  gone_before_prompt : bool;
  prompt : AccessKind → option ProtectedEditReason → PromptOutcome;
  gone_after_prompt : bool;
}.

Record Manager : Type := mkManager {
  state : PermissionState;
  persisted : list PermissionState;                (* what was handed to [persist_state], in order *)
  yolo_mode : bool;
  auto_mode : bool;
  has_classifier : bool;
  auto_consecutive_denials : Z;
  auto_total_denials : Z;
  classifier_turns : list ClassifierTurn;
  recorded_permission_decisions : list ClassifierTurn;
  project_instructions : option rstr;
  allow_edits_for_session : bool;
}.

(** What is sent of each decision. *)
Record PermissionEvent : Type := mkEvent {
  ev_decision : Decision;
  ev_auto_approved : bool;
  ev_user_prompted : bool;
  ev_prompt_outcome : option rstr;
  ev_reason : Reason;
  ev_auto_denials : option (Z * Z);                (* in auto mode *)
}.

(** A request that was served; no reply when the requester was found gone. *)
Record Served : Type := mkServed { sv_manager : Manager; sv_event : PermissionEvent; sv_reply : option Decision }.

Definition AUTO_DENY_CONSECUTIVE_LIMIT : Z := 3.
Definition AUTO_DENY_TOTAL_LIMIT : Z := 20.
Definition MAX_RECORDED_PERMISSION_DECISIONS : nat := 12.
Definition AUTO_DENY_GUIDANCE : rstr := lit
  "Take a safer approach that stays within what the user asked for; do not retry this exact action or attempt to work around the denial. If no safer alternative exists, ask the user how to proceed.".

Definition event_of (m : Manager) (d : Decision) (auto prompted : bool) (outcome : option rstr) (r : Reason) : PermissionEvent :=
  mkEvent d auto prompted outcome r (if auto_mode m then Some (auto_consecutive_denials m, auto_total_denials m) else None).

Definition settle (m : Manager) (d : Decision) (auto : bool) (r : Reason) : Served :=
  mkServed m (event_of m d auto false None r) (Some d).
Definition requester_gone (m : Manager) : Served := mkServed m (event_of m Cancelled false false None REQUESTER_GONE) None.

Definition tool_name_for_access (a : AccessKind) : rstr :=
  match a with
  | AccRead _ => lit "read_file" | AccGrep _ _ => lit "grep" | AccEdit _ => lit "search_replace"
  | AccBash _ => lit "run_terminal_command" | AccMCPTool name => lit "mcp:" ++ name
  | AccWebFetch _ => lit "web_fetch" | AccWebSearch _ => lit "web_search"
  end.

Definition MCP_ACCESS_DETAIL_MAX_LEN : nat := 1024.
Definition CLASSIFIER_TURN_MAX_LEN : Z := 400.

Definition mcp_access_detail (name : rstr) (input : option rstr) : rstr :=
  match input with Some compact => truncate_line (name ++ [32] ++ compact) MCP_ACCESS_DETAIL_MAX_LEN | None => name end.

Definition access_detail (rq : Request) : option rstr :=
  match access rq with
  | AccRead _ => None
  | AccGrep path _ => path
  | AccEdit path => Some path
  | AccBash cmd => Some cmd
  | AccMCPTool name => Some (mcp_access_detail name (mcp_input rq))
  | AccWebFetch url => Some url
  | AccWebSearch query => Some query
  end.

Definition is_some {A} (o : option A) : bool := match o with Some _ => true | None => false end.
Definition is_bash (a : AccessKind) : bool := match a with AccBash _ => true | _ => false end.
Definition is_allow (d : option Decision) : bool := match d with Some Allow => true | _ => false end.

(** * Grants *)

Section manager.
Context `{!PolicyLibs} `{!ShellParser} `{!ShellFs} `{!GitLibs} `{!Homes}.
(** The path of a url; the JSON object that holds a command. *)
Context (url_path command_json : rstr → rstr).

Definition mcp_server_prefix_allowed (name : rstr) (servers : list rstr) : bool :=
  match parse_mcp_qualified_name name with Some (server, _) => among servers server | None => false end.

Definition mcp_pre_decision (name : rstr) (st : PermissionState) (forced_prompt remember : bool) : option Decision :=
  if forced_prompt && negb remember then None
  else if among (allowed_mcp_tools st) name then Some Allow
  else if mcp_server_prefix_allowed name (allowed_mcp_servers st) then Some Allow
  else None.

Section setup.
Context (su : Setup).

Definition static_domain_matcher : DomainMatcher := matcher_new (web_fetch_allowed_domains su).
Definition web_fetch_allowlist_is_default : bool := bool_decide (web_fetch_allowed_domains su = lit <$> DEFAULT_ALLOWED_DOMAINS).
Definition compiled_policy : option CompiledPolicy := (λ c, policy_new (rules c)) <$> permission_config su.
Definition setup_prompt_policy : PromptPolicy := match permission_config su with Some c => cfg_prompt_policy c | None => PromptAsk end.

Definition clamp_yolo (requested : bool) : bool := requested && negb (is_some (yolo_pin su)).

(** The host of a url and whether the static list permits it; nothing for what
    is no url. *)
Definition fetch_target (url : rstr) : option (option rstr * bool) :=
  host ← url_host url; Some (host, permits static_domain_matcher host (url_path url)).

Definition session_grant_pre_decision (a : AccessKind) (e : option BashEvaluation) (st : PermissionState)
    (edits_allowed honor_static_web_allowlist : bool) : option (Decision * Reason) :=
  match a with
  | AccMCPTool name => (λ d, (d, SESSION_GRANT)) <$> mcp_pre_decision name st false false
  | AccWebFetch url =>
      '(host, permitted) ← fetch_target url;
      if honor_static_web_allowlist && permitted then grant_allow STATIC_ALLOWLIST
      else host ← host; allow_if (among (allowed_web_fetch_domains st) (normalize_domain host)) SESSION_GRANT
  | AccEdit _ => allow_if edits_allowed SESSION_GRANT
  | AccBash cmd => e ← e; bash_grant_pre_decision cmd e st (yolo_pin su) PRE_CLASSIFIER
  | AccRead _ | AccGrep _ _ | AccWebSearch _ => None
  end.

(** * One request, stage by stage *)

(** What is known of a request before anything is decided. *)
Record Facts : Type := mkFactsOf {
  evaluation : option BashEvaluation;
  protected_edit : option ProtectedEditReason;
  preflight : GatePreflight;
}.

Definition request_cwd (rq : Request) : rstr := match path_context rq with Some c => real_cwd c | None => cwd su end.

(** The evaluation with the scan of the repositories; the second result is
    whether the requester left while it ran. *)
Definition scanned_evaluation (an : Answers) (rq : Request) (st : PermissionState) : option BashEvaluation * bool :=
  match access rq with
  | AccBash cmd =>
      let e := evaluate_bash st true cmd in
      match ambient_segments e with
      | None => (Some e, false)
      | Some raw =>
          let ambient_risk :=
            match ambient_scan_plan_from_segments raw (request_cwd rq) with
            | PlanFailClosed => true
            | plan => if scan_joined an then ambient_exec_risk_from_plan plan else true
            end in
          (Some (mkEvaluation (be_segments e) (exact_grant e) (all_segments_granted e)
                   (insert_if ambient_risk ExecOrAmbientGit (assessment e)) None),
           gone_after_scan an)
      end
  | _ => (None, false)
  end.

Definition edit_protection_of (rq : Request) : option ProtectedEditReason :=
  match access rq with
  | AccEdit path =>
      edit_target_protection
        (match path_context rq with
         | Some c => resolve_model_path (real_cwd c) (display_cwd c) path
         | None => resolve_model_path (cwd su) None path
         end)
  | _ => None
  end.

Definition facts_of (an : Answers) (rq : Request) (m : Manager) : Facts * bool :=
  let '(e, gone) := scanned_evaluation an rq (state m) in
  (mkFactsOf e (edit_protection_of rq) (preflight_evaluate compiled_policy (access rq) (request_cwd rq) (auto_mode m)), gone).

Section request.
Context (an : Answers) (rq : Request) (f : Facts).
Let a : AccessKind := access rq.
Let pf : GatePreflight := preflight f.

(** No rule asks, and the edit needs no confirmation. *)
Definition no_ask_floor : bool :=
  negb (policy_forced_prompt pf) && negb (shell_forced_prompt pf) && negb (is_some (protected_edit f)).

(** The modes and the grants that answer before the classifier. *)
Definition before_classifier (m : Manager) : option (Decision * bool * Reason) :=
  match policy_decision pf with
  | Some (Reject reason) => Some (PolicyDeny reason, false, POLICY_DENY)
  | pd =>
      if yolo_mode m && negb (shell_forced_prompt pf) then Some (Allow, true, YOLO)
      else
        match (if no_ask_floor
               then session_grant_pre_decision a (evaluation f) (state m) (allow_edits_for_session m)
                      (negb (auto_mode m && web_fetch_allowlist_is_default))
               else None) with
        | Some (d, reason) => Some (d, true, reason)
        | None =>
            if auto_mode m && no_ask_floor && bash_assessment_is_clear (evaluation f) && is_allow pd
            then Some (Allow, true, POLICY_ALLOW) else None
        end
  end.

Definition set_consecutive (n : Z) (m : Manager) : Manager :=
  mkManager (state m) (persisted m) (yolo_mode m) (auto_mode m) (has_classifier m) n (auto_total_denials m) (classifier_turns m)
    (recorded_permission_decisions m) (project_instructions m) (allow_edits_for_session m).
Definition count_denial (m : Manager) : Manager :=
  mkManager (state m) (persisted m) (yolo_mode m) (auto_mode m) (has_classifier m) (wrap 32 (auto_consecutive_denials m + 1))
    (wrap 32 (auto_total_denials m + 1)) (classifier_turns m) (recorded_permission_decisions m) (project_instructions m)
    (allow_edits_for_session m).

Definition denial_text (reason : option rstr) : rstr :=
  match reason with
  | Some r => lit "Auto mode blocked this action (" ++ trim_end_matches (Z.eqb 46) r ++ lit "). " ++ AUTO_DENY_GUIDANCE
  | None => lit "Auto mode blocked this action. " ++ AUTO_DENY_GUIDANCE
  end.

Definition classifier_context (m : Manager) : ClassifierContext :=
  mkContext (classifier_turns m ++ recorded_permission_decisions m) (project_instructions m)
    (classifier_assessment (evaluation f) (pf_defers_gate_ask pf)).

(** Served, or on to the prompt: nothing, or why auto mode forces it. *)
Definition auto_stage (m : Manager) : Served + option Reason :=
  if negb (auto_mode m && admits_auto_classifier pf) then inr None
  else
    let needs_user := is_some (protected_edit f) || access_requires_user_interaction (tool_name_for_access a) a in
    match auto_mode_fast_path a (tool_name_for_access a) needs_user with
    | FastAllow => inl (settle m Allow true AUTO_FAST_PATH)
    | FastPromptUser => inr (Some NEEDS_USER)
    | FastClassify =>
        match (if has_classifier m then classify an (tool_name_for_access a) a (access_detail rq) (classifier_context m)
               else Some (mkOutcome VUnavailable None false)) with
        | None => inl (requester_gone m)
        | Some outcome =>
            match co_verdict outcome with
            | VAllow => inl (settle (set_consecutive 0 m) Allow true AUTO_CLASSIFIER_ALLOW)
            | VBlock =>
                if (auto_consecutive_denials m <? AUTO_DENY_CONSECUTIVE_LIMIT) && (auto_total_denials m <? AUTO_DENY_TOTAL_LIMIT)
                then inl (settle (count_denial m) (PolicyDeny (denial_text (co_reason outcome))) false AUTO_CLASSIFIER_DENY)
                else inr (Some AUTO_DENIAL_LIMIT)
            | VUnavailable => inr (Some (if co_is_timeout outcome then AUTO_CLASSIFIER_TIMEOUT else AUTO_CLASSIFIER_UNAVAILABLE))
            end
        end
    end.

(** What answers behind the classifier; [forced] is whether auto mode forces a
    prompt. *)
Definition sandbox_and_policy (forced : bool) : option (Decision * Reason) :=
  if is_bash a && sandbox_may_auto_allow_bash (evaluation f) (should_auto_allow_bash an) && negb (policy_forced_prompt pf)
     && negb forced
  then grant_allow SANDBOX_AUTO
  else
    match policy_decision pf with
    | None | Some Ask => None
    | Some Allow =>
        if is_some (protected_edit f) || forced || bash_request_floor_requires_prompt (evaluation f) then None
        else grant_allow POLICY_ALLOW
    | Some d => Some (d, POLICY_ALLOW)
    end.

Definition pre_decision (forced : bool) (m : Manager) : option (Decision * Reason) :=
  let asked := policy_forced_prompt pf in
  match a with
  | AccRead _ | AccGrep _ _ => if asked then None else grant_allow SAFE_COMMAND
  | AccWebSearch _ => grant_allow SAFE_COMMAND
  | AccMCPTool name => (λ d, (d, PERSISTED_GRANT)) <$> mcp_pre_decision name (state m) asked (remember_tool_approvals su)
  | AccEdit _ =>
      if allow_edits_for_session m && negb (is_some (protected_edit f)) then grant_allow PERSISTED_GRANT
      else match edit_policy (state m) with
           | EditReject => Some (Reject (lit "edits prohibited"), SESSION_DENY)
           | EditAsk | EditAllow => None
           end
  | AccBash cmd =>
      if bash_request_floor_requires_prompt (evaluation f) then None
      else if asked then
        if remember_tool_approvals su && negb forced && negb (shell_file_forced_prompt pf)
        then e ← evaluation f; bash_grant_pre_decision cmd e (state m) (yolo_pin su) ASK_FLOOR_REMEMBER
        else None
      else e ← evaluation f; bash_grant_pre_decision cmd e (state m) (yolo_pin su) (post_classify forced)
  | AccWebFetch url =>
      '(host, permitted) ← fetch_target url;
      if (permitted : bool) then grant_allow STATIC_ALLOWLIST
      else host ← host; allow_if (among (allowed_web_fetch_domains (state m)) (normalize_domain host)) PERSISTED_GRANT
  end.

(** A prompt that auto mode forces takes back what would allow. *)
Definition settled_pre_decision (forced : bool) (m : Manager) : option (Decision * Reason) :=
  match pre_decision forced m with
  | Some (Allow, r) => if forced && negb (is_bash a) then None else Some (Allow, r)
  | d => d
  end.

Definition trigger_of (auto_prompt_reason : option Reason) : Reason :=
  let opaque_floor :=
    match evaluation f with Some e => negb (exact_grant e) && has_finding OpaqueShell (assessment e) | None => false end in
  default
    (if opaque_floor then OPAQUE_SHELL else if bash_request_floor_requires_prompt (evaluation f) then BASH_REQUEST_FLOOR else NEEDS_USER)
    (prompt_trigger pf auto_prompt_reason).
End request.

(** * The user's choice *)

Definition set_state (st : PermissionState) (m : Manager) : Manager :=
  mkManager st (persisted m) (yolo_mode m) (auto_mode m) (has_classifier m) (auto_consecutive_denials m) (auto_total_denials m)
    (classifier_turns m) (recorded_permission_decisions m) (project_instructions m) (allow_edits_for_session m).
(** [persist_state_to_dir], once for each state handed to it: a write puts the
    whole state into the file or leaves it as it was; that it failed is only
    logged.  [written] says which of them succeed. *)
Fixpoint disk_after (written : nat → bool) (n : nat) (file : PermissionState) (states : list PermissionState) : PermissionState :=
  match states with
  | [] => file
  | st :: states => disk_after written (S n) (if written n then st else file) states
  end.

(** [persist_state]. *)
Definition persist (m : Manager) : Manager :=
  mkManager (state m) (persisted m ++ [state m]) (yolo_mode m) (auto_mode m) (has_classifier m) (auto_consecutive_denials m)
    (auto_total_denials m) (classifier_turns m) (recorded_permission_decisions m) (project_instructions m)
    (allow_edits_for_session m).
Definition set_edits_allowed (b : bool) (m : Manager) : Manager :=
  mkManager (state m) (persisted m) (yolo_mode m) (auto_mode m) (has_classifier m) (auto_consecutive_denials m)
    (auto_total_denials m) (classifier_turns m) (recorded_permission_decisions m) (project_instructions m) b.

Definition allow_command (c : rstr) (st : PermissionState) : PermissionState :=
  mkState (edit_policy st) (allow_bash_execute st) (insert_text c (allowed_bash_commands st)) (disallowed_bash_commands st)
    (allowed_bash_globs st) (allowed_web_fetch_domains st) (allowed_mcp_tools st) (allowed_mcp_servers st).
Definition disallow_command (c : rstr) (st : PermissionState) : PermissionState :=
  mkState (edit_policy st) (allow_bash_execute st) (allowed_bash_commands st) (insert_text c (disallowed_bash_commands st))
    (allowed_bash_globs st) (allowed_web_fetch_domains st) (allowed_mcp_tools st) (allowed_mcp_servers st).
Definition allow_glob (g : rstr) (st : PermissionState) : PermissionState :=
  mkState (edit_policy st) (allow_bash_execute st) (allowed_bash_commands st) (disallowed_bash_commands st)
    (insert_text g (allowed_bash_globs st)) (allowed_web_fetch_domains st) (allowed_mcp_tools st) (allowed_mcp_servers st).
Definition allow_domain (d : rstr) (st : PermissionState) : PermissionState :=
  mkState (edit_policy st) (allow_bash_execute st) (allowed_bash_commands st) (disallowed_bash_commands st)
    (allowed_bash_globs st) (insert_text d (allowed_web_fetch_domains st)) (allowed_mcp_tools st) (allowed_mcp_servers st).
Definition allow_mcp_tool (n : rstr) (st : PermissionState) : PermissionState :=
  mkState (edit_policy st) (allow_bash_execute st) (allowed_bash_commands st) (disallowed_bash_commands st)
    (allowed_bash_globs st) (allowed_web_fetch_domains st) (insert_text n (allowed_mcp_tools st)) (allowed_mcp_servers st).
Definition allow_mcp_server (n : rstr) (st : PermissionState) : PermissionState :=
  mkState (edit_policy st) (allow_bash_execute st) (allowed_bash_commands st) (disallowed_bash_commands st)
    (allowed_bash_globs st) (allowed_web_fetch_domains st) (allowed_mcp_tools st) (insert_text n (allowed_mcp_servers st)).

Definition grant_to (g : PermissionState → PermissionState) (m : Manager) : Manager := persist (set_state (g (state m)) m).

Definition USER_REJECTED : Decision := Reject (lit "User rejected the execution").
Definition prompt_failed (e : rstr) : Decision := Reject (lit "Failed to request permission from user: " ++ e).

(** The grants that a choice leaves, the decision, and what the event says. *)
Definition apply_bash_outcome (cmd : rstr) (o : PromptOutcome) (m : Manager) : Manager * Decision * rstr :=
  match o with
  | AllowOnce => (m, Allow, lit "allow_once")
  | AllowAlways => (grant_to (allow_command cmd) m, Allow, lit "allow_always")
  | AllowAlwaysBashCommand prefix => (grant_to (allow_command prefix) m, Allow, lit "allow_always_bash")
  | AllowAlwaysBashGlob pattern => (grant_to (allow_glob pattern) m, Allow, lit "allow_always_bash_glob")
  | AllowAlwaysDomain _ | AllowAlwaysMcpTool _ | AllowAlwaysMcpServer _ | AllowEditsForSession => (m, Allow, lit "allow_once")
  | RejectOnce => (m, USER_REJECTED, lit "reject_once")
  | RejectAlwaysBashCommand prefix =>
      (grant_to (disallow_command prefix) m,
       Reject (lit "User rejected the execution and excluded " ++ prefix ++ lit " from this session"), lit "reject_always_bash")
  | PromptCancelled => (m, Cancelled, lit "cancelled")
  | PromptFollowup msg => (m, FollowupMessage msg, lit "followup")
  | PromptError e => (m, prompt_failed e, lit "error")
  end.

Definition grant_mcp_server (name server_prefix : rstr) (m : Manager) : Manager :=
  match parse_mcp_qualified_name name with
  | Some (canonical, _) =>
      if bool_decide (canonical = server_prefix) then grant_to (allow_mcp_server canonical) m else grant_to (allow_mcp_tool name) m
  | None => grant_to (allow_mcp_tool name) m
  end.

Definition apply_outcome (a : AccessKind) (o : PromptOutcome) (m : Manager) : Manager * Decision * rstr :=
  match a with
  | AccBash cmd => apply_bash_outcome cmd o m
  | _ =>
      match o with
      | AllowOnce => (m, Allow, lit "allow_once")
      | AllowEditsForSession => (set_edits_allowed true m, Allow, lit "allow_edits_for_session")
      | AllowAlways =>
          (persist (match a with AccMCPTool name => set_state (allow_mcp_tool name (state m)) m | _ => m end), Allow,
           lit "allow_always")
      | AllowAlwaysBashCommand _ | AllowAlwaysBashGlob _ => (m, Allow, lit "allow_always_bash")
      | AllowAlwaysDomain domain =>
          (match a with AccWebFetch _ => grant_to (allow_domain domain) m | _ => m end, Allow, lit "allow_always_domain")
      | AllowAlwaysMcpTool _ =>
          (match a with AccMCPTool name => grant_to (allow_mcp_tool name) m | _ => m end, Allow, lit "allow_always_mcp_tool")
      | AllowAlwaysMcpServer server_prefix =>
          (match a with AccMCPTool name => grant_mcp_server name server_prefix m | _ => m end, Allow, lit "allow_always_mcp_server")
      | RejectAlwaysBashCommand _ => (m, USER_REJECTED, lit "reject_always_bash")
      | RejectOnce => (m, USER_REJECTED, lit "reject_once")
      | PromptCancelled => (m, Cancelled, lit "cancelled")
      | PromptError e => (m, prompt_failed e, lit "error")
      | PromptFollowup msg => (m, FollowupMessage msg, lit "followup")
      end
  end.

Definition prompted_decision_approved (d : Decision) (outcome_str : rstr) : option bool :=
  match d with
  | Allow => Some true
  | Reject _ => if negb (word_is "error" outcome_str) then Some false else None
  | _ => None
  end.

Definition permission_decision_args (rq : Request) : rstr :=
  truncate_str_with_marker
    (match access rq with AccBash cmd => command_json cmd | _ => default (lit "(none)") (access_detail rq) end)
    CLASSIFIER_TURN_MAX_LEN.

Definition record_decision (rq : Request) (approved : option bool) (m : Manager) : Manager :=
  match approved with
  | None => m
  | Some approved =>
      let recorded := recorded_permission_decisions m
        ++ [PermissionDecision (tool_name_for_access (access rq)) (permission_decision_args rq) approved] in
      mkManager (state m) (persisted m) (yolo_mode m) (auto_mode m) (has_classifier m) (auto_consecutive_denials m)
        (auto_total_denials m) (classifier_turns m)
        (drop (length recorded - MAX_RECORDED_PERMISSION_DECISIONS) recorded) (project_instructions m) (allow_edits_for_session m)
  end.

Definition is_cancelled (d : Decision) : bool := match d with Cancelled => true | _ => false end.

Definition prompt_user (an : Answers) (rq : Request) (f : Facts) (trigger : Reason) (m : Manager) : Served :=
  let a := access rq in
  let '(m, d, outcome_str) := apply_outcome a (prompt an a (protected_edit f)) m in
  let m := record_decision rq (prompted_decision_approved d outcome_str) m in
  let gone := is_cancelled d && gone_after_prompt an in
  let m := if negb (word_is "error" outcome_str) && negb gone then set_consecutive 0 m else m in
  mkServed m (event_of m d false true (Some outcome_str) (if gone then REQUESTER_GONE else trigger)) (Some d).

(** * The request *)

Definition serve_known (an : Answers) (rq : Request) (f : Facts) (m : Manager) : Served :=
  match before_classifier rq f m with
  | Some (d, auto, reason) => settle m d auto reason
  | None =>
      match auto_stage an rq f m with
      | inl served => served
      | inr forced_by =>
          let forced := is_some forced_by in
          match sandbox_and_policy an rq f forced with
          | Some (d, reason) => settle m d true reason
          | None =>
              match settled_pre_decision rq f forced m with
              | Some (d, reason) => settle m d true reason
              | None =>
                  match setup_prompt_policy with
                  | PromptDeny => settle m (PolicyDeny (lit "denied by prompt policy (tool not pre-approved)")) false PROMPT_DENY
                  | _ =>
                      if gone_before_prompt an then requester_gone m
                      else prompt_user an rq f (trigger_of f forced_by) m
                  end
              end
          end
      end
  end.

Definition serve (an : Answers) (rq : Request) (m : Manager) : Served :=
  if gone_at_dequeue an then requester_gone m
  else
    let '(f, gone) := facts_of an rq m in
    if (gone : bool) then requester_gone m else serve_known an rq f m.

(** * The actor *)

Inductive PermissionCommand : Type :=
| CmdRequest (rq : Request) (an : Answers)
| SetYoloMode (enabled : bool)
| SetAutoMode (enabled : bool)
| SetClassifier (installed : bool)
| SetClassifierTranscript (turns : list ClassifierTurn)
| SetProjectInstructions (instructions : option rstr)
| ResetState.

Definition set_modes (yolo auto classifier : bool) (m : Manager) : Manager :=
  mkManager (state m) (persisted m) yolo auto classifier (auto_consecutive_denials m) (auto_total_denials m) (classifier_turns m)
    (recorded_permission_decisions m) (project_instructions m) (allow_edits_for_session m).

Definition set_context (turns : list ClassifierTurn) (instructions : option rstr) (m : Manager) : Manager :=
  mkManager (state m) (persisted m) (yolo_mode m) (auto_mode m) (has_classifier m) (auto_consecutive_denials m)
    (auto_total_denials m) turns (recorded_permission_decisions m) instructions (allow_edits_for_session m).

(** The manager behind a command, and what a request was served. *)
Definition handle (c : PermissionCommand) (m : Manager) : Manager * option Served :=
  match c with
  | CmdRequest rq an => let s := serve an rq m in (sv_manager s, Some s)
  | SetYoloMode enabled =>
      let clamped := clamp_yolo enabled in
      (set_modes clamped (auto_mode m && negb clamped) (has_classifier m) m, None)
  | SetAutoMode enabled => (set_modes (yolo_mode m && negb enabled) enabled (has_classifier m || enabled) m, None)
  | SetClassifier installed => (set_modes (yolo_mode m) (auto_mode m) installed m, None)
  | SetClassifierTranscript turns => (set_context turns (project_instructions m) m, None)
  | SetProjectInstructions instructions => (set_context (classifier_turns m) instructions m, None)
  | ResetState => (set_edits_allowed false (persist (set_state default_state m)), None)
  end.

(** The manager at the start; [loaded] is what stood on the disk. *)
Definition downgrade_edits (st : PermissionState) : PermissionState :=
  mkState EditAsk (allow_bash_execute st) (allowed_bash_commands st) (disallowed_bash_commands st) (allowed_bash_globs st)
    (allowed_web_fetch_domains st) (allowed_mcp_tools st) (allowed_mcp_servers st).

Definition spawn (loaded : PermissionState) : Manager :=
  let yolo := clamp_yolo (initial_yolo su) in
  let auto := negb yolo && match setup_prompt_policy with PromptAuto => true | _ => false end in
  let '(st, disk) :=
    match edit_policy loaded with
    | EditAllow => (downgrade_edits loaded, [downgrade_edits loaded])
    | _ => (loaded, [])
    end in
  mkManager st disk yolo auto true 0 0 [] [] None false.

(** Commands one after the other, up to a [Shutdown], with what each request was
    served. *)
Fixpoint run (cs : list PermissionCommand) (m : Manager) : Manager * list Served :=
  match cs with
  | [] => (m, [])
  | c :: cs =>
      let '(m, served) := handle c m in
      let '(m, rest) := run cs m in
      (m, match served with Some s => s :: rest | None => rest end)
  end.
End setup.
End manager.
