(* ===== verification/ShellThms.v ===== *)
(** What the splitting of a script and the peeling of its commands keep: every
    node of an accepted tree is on the list, the commands are all there in the
    order of the text, and what is peeled is an end of the words that has no
    wrapper left. *)
From Stdlib Require Import Sorted.
From S2P Require Import Prelude Str ShellSplit ShellPeel.

(** * The walk *)

Definition visited_all (stack : list Node) : list Node := concat (visited <$> stack).

Lemma visited_eq n : visited n = n :: visited_all (rev (children n)).
Proof.
  destruct n as [k b f s e l]. cbn [visited children]. f_equal. induction l as [|c l IH]; [done|].
  rewrite IH. cbn [rev]. unfold visited_all. rewrite fmap_app, concat_app. cbn. by rewrite app_nil_r.
Qed.

Lemma visited_all_app l1 l2 : visited_all (l1 ++ l2) = visited_all l1 ++ visited_all l2.
Proof. unfold visited_all. by rewrite fmap_app, concat_app. Qed.

Definition sizes (l : list Node) : nat := sum_list (tree_size <$> l).

Lemma tree_size_eq n : tree_size n = S (sizes (children n)).
Proof. destruct n as [k b f s e l]. cbn [tree_size children]. f_equal. induction l as [|c l IH]; [done|]. cbn. by rewrite IH. Qed.

Lemma sizes_app l1 l2 : sizes (l1 ++ l2) = (sizes l1 + sizes l2)%nat.
Proof. unfold sizes. by rewrite fmap_app, sum_list_with_app. Qed.

Lemma sizes_rev l : sizes (rev l) = sizes l.
Proof. induction l as [|x l IH]; [done|]. cbn [rev]. rewrite sizes_app, IH. unfold sizes. cbn. lia. Qed.

(** Enough fuel: the nodes that are left. *)
Lemma walk_spec fuel stack acc :
  (sizes stack ≤ fuel)%nat →
  walk fuel stack acc =
    if forallb node_allowed (visited_all stack) then Some (acc ++ List.filter is_command (visited_all stack)) else None.
Proof.
  revert stack acc. induction fuel as [|fuel IH]; intros [|n stack] acc Hf; try (cbn; by rewrite app_nil_r);
    change (n :: stack) with ([n] ++ stack) in *; rewrite sizes_app in Hf; unfold sizes at 1 in Hf; cbn in Hf; rewrite tree_size_eq in Hf; [lia|].
  cbn [walk app]. change (n :: stack) with ([n] ++ stack). rewrite visited_all_app. unfold visited_all at 1 3. cbn [fmap list_fmap concat].
  rewrite app_nil_r, visited_eq. cbn [app forallb List.filter]. destruct (node_allowed n); [|done].
  rewrite IH by (rewrite sizes_app, sizes_rev; lia). rewrite visited_all_app. cbn [andb].
  destruct (forallb _ _); [|done]. destruct (is_command n); [|done]. by rewrite <- app_assoc.
Qed.

(** * Order *)

Definition starts_le (a b : Node) : Prop := start_byte a ≤ start_byte b.

Lemma insert_by_start_perm n l : insert_by_start n l ≡ₚ n :: l.
Proof. induction l as [|m l IH]; [done|]. cbn. destruct (_ <=? _); [|done]. rewrite IH. apply Permutation_swap. Qed.

Lemma insert_by_start_sorted n l : Sorted starts_le l → Sorted starts_le (insert_by_start n l).
Proof.
  induction 1 as [|m l Hl IH Hm]; [by repeat constructor|]. cbn. destruct (Z.leb_spec (start_byte m) (start_byte n)).
  - constructor; [done|]. destruct l as [|m' l]; cbn; [by constructor|]. inversion Hm. destruct (_ <=? _); by constructor.
  - constructor; [by constructor|]. constructor. unfold starts_le. lia.
Qed.

Lemma sort_by_start_acc l acc :
  Sorted starts_le acc →
  foldl (λ acc n, insert_by_start n acc) acc l ≡ₚ acc ++ l ∧ Sorted starts_le (foldl (λ acc n, insert_by_start n acc) acc l).
Proof.
  revert acc. induction l as [|n l IH]; intros acc Hs; cbn; [by rewrite app_nil_r|].
  destruct (IH (insert_by_start n acc) (insert_by_start_sorted n acc Hs)) as [Hp Hs']. split; [|done].
  rewrite Hp, insert_by_start_perm. apply Permutation_middle.
Qed.

Lemma sort_by_start_spec l : sort_by_start l ≡ₚ l ∧ Sorted starts_le (sort_by_start l).
Proof. apply (sort_by_start_acc l []). constructor. Qed.

(** * Scripts *)

(** C16: A script that is split has a tree without an error in which every node
    is of an allowed kind, anonymous ones being allowed operators, quotes or
    blanks; and its commands are those of all the command nodes of the tree,
    one each, in the order of the text.  A tree with any other node (a
    substitution, a subshell, control flow) is not split, and the walk that
    decides it always ends. *)
Theorem split_commands_spec tree src :
  match try_parse_word_only_commands_sequence tree src with
  | Some cmds =>
      has_error tree = false ∧ Forall (λ n, node_allowed n = true) (visited (root_node tree)) ∧
      ∃ nodes, nodes ≡ₚ List.filter is_command (visited (root_node tree)) ∧ Sorted starts_le nodes ∧
        Forall2 (λ n c, parse_plain_command_from_node n src = Some c) nodes cmds
  | None =>
      has_error tree = true ∨ Exists (λ n, node_allowed n = false) (visited (root_node tree)) ∨
      Exists (λ n, is_command n = true ∧ parse_plain_command_from_node n src = None) (visited (root_node tree))
  end.
Proof.
  unfold try_parse_word_only_commands_sequence. destruct (has_error tree); [by left|]. set (root := root_node tree).
  rewrite walk_spec by (unfold sizes; cbn; lia). unfold visited_all. cbn [fmap list_fmap concat]. rewrite app_nil_r.
  destruct (forallb node_allowed (visited root)) eqn:Ha; cbn [mbind option_bind app].
  - destruct (sort_by_start_spec (List.filter is_command (visited root))) as [Hp Hs].
    destruct (mapM _ (sort_by_start _)) as [cmds|] eqn:Hm.
    + apply mapM_Some in Hm. split; [done|]. split; [|by eexists]. apply Forall_forall. intros n Hn.
      by apply (proj1 (forallb_forall _ _) Ha), list_elem_of_In.
    + right. right. apply mapM_None, Exists_exists in Hm as (n & Hn & Hnone). rewrite Hp in Hn.
      apply list_elem_of_In, filter_In in Hn as [Hn Hc]. apply Exists_exists. exists n. by rewrite list_elem_of_In.
  - right. left. apply Exists_exists. apply not_true_iff_false in Ha. rewrite forallb_forall in Ha.
    assert (¬ Forall (λ n, node_allowed n = true) (visited root)) as Hn.
    { rewrite Forall_forall. intros H. apply Ha. intros n Hn. by apply H, list_elem_of_In. }
    apply not_Forall_Exists in Hn; [|intros n; apply decide; solve_decision].
    apply Exists_exists in Hn as (n & Hn & Hf). exists n. split; [done|]. cbn in Hf. by destruct (node_allowed n).
Qed.

(** * Peeling *)

Lemma suffix_cons_of {A} (x : A) l l' : l `suffix_of` l' → l `suffix_of` x :: l'.
Proof. apply suffix_cons_r. Qed.

Create HintDb peel.
#[local] Hint Resolve suffix_cons_of suffix_nil : peel.
#[local] Hint Extern 1 (?l `suffix_of` ?l) => reflexivity : peel.

Lemma env_scan_suffix dir toks : command (env_scan_from dir toks) `suffix_of` toks.
Proof.
  revert dir. induction toks as [toks IH] using (induction_ltof1 _ (@length rstr)); unfold ltof in IH. intros dir.
  destruct toks as [|tok rest]; [cbn; auto with peel|]. cbn [env_scan_from].
  assert (∀ d, command (env_scan_from d rest) `suffix_of` tok :: rest) as H1 by (intros d; apply suffix_cons_of, IH; cbn; lia).
  assert (∀ o rest' d, rest = o :: rest' → command (env_scan_from d rest') `suffix_of` tok :: rest) as H2.
  { intros o rest' d ->. do 2 apply suffix_cons_of. apply IH. cbn. lia. }
  repeat case_match; subst; cbn [command]; eauto with peel.
Qed.

Lemma skip_options_suffix f cmd : skip_options f cmd `suffix_of` cmd.
Proof.
  induction cmd as [cmd IH] using (induction_ltof1 _ (@length rstr)); unfold ltof in IH.
  destruct cmd as [|w rest]; [cbn; auto with peel|]. cbn [skip_options].
  destruct (starts_dash w); [|auto with peel]. destruct (f w).
  - destruct rest as [|o rest]; [auto with peel|]. do 2 apply suffix_cons_of. apply IH. cbn. lia.
  - apply suffix_cons_of, IH. cbn. lia.
Qed.

Lemma non_empty_spec l l' : non_empty l = Some l' → l' = l ∧ l ≠ [].
Proof. by destruct l; intros [= <-]. Qed.

Lemma mandatory_suffix l l' : mandatory l = Some l' → l' `suffix_of` l.
Proof. destruct l; intros [= <-]. auto with peel. Qed.

(** What is peeled off is a non-empty end of what follows the first word. *)
Definition within (inner cmd : list rstr) : Prop := inner ≠ [] ∧ inner `suffix_of` drop 1 cmd ∧ cmd ≠ [].

Lemma strip_wrapper_within cmd inner : strip_wrapper_command cmd = Some inner → within inner cmd.
Proof.
  unfold strip_wrapper_command, within. destruct cmd as [|w args]; [done|]. cbn [head mbind option_bind drop].
  assert (∀ f, non_empty (skip_options f args) = Some inner → inner ≠ [] ∧ inner `suffix_of` args ∧ w :: args ≠ []) as Hopt.
  { intros f [-> Hn]%non_empty_spec. split_and!; [done|apply skip_options_suffix|done]. }
  assert (∀ f, (i ← mandatory (skip_options f args); non_empty i) = Some inner → inner ≠ [] ∧ inner `suffix_of` args ∧ w :: args ≠ []) as Hman.
  { intros f. destruct (mandatory _) as [i|] eqn:E; [|done]. intros [-> Hn]%non_empty_spec. split_and!; [done| |done].
    etransitivity; [by eapply mandatory_suffix|apply skip_options_suffix]. }
  repeat (destruct (word_is _ _); [by (eapply Hopt || eapply Hman)|]). destruct (word_is _ _); [|done].
  destruct (_ || _); [done|]. intros [-> Hn]%non_empty_spec. split_and!; [done|apply env_scan_suffix|done].
Qed.

Lemma peeled_within l inner args : peeled l = Peeled inner → l `suffix_of` args → inner ≠ [] ∧ inner `suffix_of` args.
Proof. destruct l; intros [= <-]. done. Qed.

Lemma strip_exec_within args inner : strip_exec_prefix args = Peeled inner → inner ≠ [] ∧ inner `suffix_of` args.
Proof.
  revert inner. induction args as [args IH] using (induction_ltof1 _ (@length rstr)); unfold ltof in IH. intros inner.
  destruct args as [|tok rest]; [done|]. cbn [strip_exec_prefix].
  assert (strip_exec_prefix rest = Peeled inner → inner ≠ [] ∧ inner `suffix_of` tok :: rest) as H1.
  { intros [? ?]%IH; [|cbn; lia]. auto with peel. }
  assert (∀ v rest', rest = v :: rest' → strip_exec_prefix rest' = Peeled inner → inner ≠ [] ∧ inner `suffix_of` tok :: rest) as H2.
  { intros v rest' -> [? ?]%IH; [|cbn; lia]. auto with peel. }
  repeat case_match; subst; try done; eauto; intros Hp; eapply peeled_within; eauto with peel.
Qed.

Lemma strip_command_within args inner : strip_command_prefix args = Peeled inner → inner ≠ [] ∧ inner `suffix_of` args.
Proof.
  revert inner. induction args as [|tok rest IH]; intros inner; [done|]. cbn [strip_command_prefix].
  assert (strip_command_prefix rest = Peeled inner → inner ≠ [] ∧ inner `suffix_of` tok :: rest) as H1 by (intros [? ?]%IH; auto with peel).
  repeat case_match; subst; try done; try (by apply H1); intros Hp; eapply peeled_within; eauto with peel.
Qed.

Lemma strip_transparent_within cmd inner : strip_transparent_prefix cmd = Peeled inner → within inner cmd.
Proof.
  unfold strip_transparent_prefix, within. destruct cmd as [|w args]; [done|]. cbn [drop]. destruct (_ || _); [done|].
  destruct (word_is "exec" _); [by intros [? ?]%strip_exec_within|].
  destruct (word_is "command" _); [by intros [? ?]%strip_command_within|].
  destruct (word_is "builtin" _); [|done]. unfold strip_builtin_prefix. destruct args as [|tok args]; [done|].
  destruct (_ && _); [done|]. intros H. eapply peeled_within in H as [? ?]; [done|]. auto with peel.
Qed.

(** ** Ends *)

(** An end that is not empty unless the whole is. *)
Definition end_of (inner cmd : list rstr) : Prop := inner `suffix_of` cmd ∧ (cmd ≠ [] → inner ≠ []).

Lemma end_of_refl l : end_of l l.
Proof. by split. Qed.

Lemma end_of_trans l1 l2 l3 : end_of l1 l2 → end_of l2 l3 → end_of l1 l3.
Proof. intros [H1 N1] [H2 N2]. split; [by etransitivity|auto]. Qed.

Lemma within_end inner cmd : within inner cmd → end_of inner cmd ∧ (length inner < length cmd)%nat.
Proof.
  intros (Hn & Hs & Hc). destruct cmd as [|w args]; [done|]. cbn [drop] in Hs. split.
  - split; [auto with peel|done].
  - apply suffix_length in Hs. rewrite drop_0 in Hs. cbn. lia.
Qed.

Lemma end_same_length l l' : end_of l l' → length l = length l' → l = l'.
Proof. intros [[k ->] _] H. rewrite length_app in H. destruct k; [done|]. cbn in H. lia. Qed.

Lemma end_length l l' : end_of l l' → (length l ≤ length l')%nat.
Proof. intros [Hs _]. by apply suffix_length. Qed.

Lemma unwrap_rounds_end n cd split uncertain current : end_of (p_words (unwrap_rounds n cd split uncertain current)) current.
Proof.
  revert cd split uncertain current. induction n as [|n IH]; intros cd split uncertain current; cbn [unwrap_rounds]; [apply end_of_refl|].
  destruct (strip_wrapper_command current) as [inner|] eqn:E; [|apply end_of_refl].
  apply strip_wrapper_within, within_end in E as [E _]. by eapply end_of_trans; [apply IH|].
Qed.

Lemma peel_rounds_end n current inner :
  peel_rounds n current = Some inner → end_of inner current ∧ strip_transparent_prefix inner = NotPrefix.
Proof.
  revert current. induction n as [|n IH]; intros current; cbn [peel_rounds];
    destruct (strip_transparent_prefix current) as [|next|] eqn:E; try done; try by intros [= <-]; split; [apply end_of_refl|].
  intros [He Hn]%IH. split; [|done]. apply strip_transparent_within, within_end in E as [E _]. by eapply end_of_trans.
Qed.

(** ** Rest *)

(** The first round of the wrappers shows what is at hand when none comes
    off. *)
Lemma unwrap_rounds_still n cd split uncertain words :
  length (p_words (unwrap_rounds (S n) cd split uncertain words)) = length words → strip_wrapper_command words = None.
Proof.
  cbn [unwrap_rounds]. destruct (strip_wrapper_command words) as [inner|] eqn:E; [|done]. intros Hl. exfalso.
  apply strip_wrapper_within, within_end in E as [_ Hlt].
  match type of Hl with context [unwrap_rounds ?n ?a ?b ?c inner] => pose proof (unwrap_rounds_end n a b c inner) as He end.
  apply end_length in He. lia.
Qed.

Lemma unwrap_still words : length (p_words (unwrap_wrappers_checked words)) = length words → strip_wrapper_command words = None.
Proof. apply (unwrap_rounds_still 7). Qed.

(** The scan of [env] goes with the words: nothing of it is lost. *)
Definition scanned (words : list rstr) : Prop :=
  head_is ["env"] words = true → has_split_string (env_scan words) = false ∧ options_uncertain (env_scan words) = false.

Lemma unwrap_still_scanned words :
  strip_wrapper_command words = None →
  p_has_split_string (unwrap_wrappers_checked words) = false →
  p_env_options_uncertain (unwrap_wrappers_checked words) = false → scanned words.
Proof.
  intros E. unfold unwrap_wrappers_checked, scanned. change MAX_WRAPPER_DEPTH with (S 7). cbn [unwrap_rounds]. rewrite E.
  cbn [p_has_split_string p_env_options_uncertain orb]. by intros Hs Hu Hh; rewrite Hh in Hs, Hu.
Qed.

Definition flagged (p : Peel) : bool := p_has_split_string p || p_env_options_uncertain p || p_ambiguous p.

Definition settled (words : list rstr) : Prop :=
  strip_wrapper_command words = None ∧ strip_transparent_prefix words = NotPrefix ∧ scanned words.

Lemma normalize_rounds_end fuel p : end_of (p_words (normalize_rounds fuel p)) (p_words p).
Proof.
  revert p. induction fuel as [|fuel IH]; intros p; cbn [normalize_rounds]; [apply end_of_refl|].
  pose proof (unwrap_rounds_end MAX_WRAPPER_DEPTH false false false (p_words p)) as Hu. fold (unwrap_wrappers_checked (p_words p)) in Hu.
  match goal with |- context [if ?b then _ else _] => destruct b end; [exact Hu|]. destruct (peel_transparent_prefixes _) as [inner|] eqn:E; [|exact Hu].
  apply peel_rounds_end in E as [E _]. pose proof (end_of_trans _ _ _ E Hu).
  destruct (_ =? _)%nat; [done|]. by eapply end_of_trans; [apply IH|].
Qed.

(** A round per word is enough. *)
Lemma normalize_rounds_rest fuel p :
  (length (p_words p) < fuel)%nat → flagged (normalize_rounds fuel p) = false → settled (p_words (normalize_rounds fuel p)).
Proof.
  revert p. induction fuel as [|fuel IH]; intros p Hf; [lia|]. cbn [normalize_rounds].
  pose proof (unwrap_rounds_end MAX_WRAPPER_DEPTH false false false (p_words p)) as Hu. fold (unwrap_wrappers_checked (p_words p)) in Hu.
  match goal with |- context [if ?b then _ else _] => destruct b eqn:Hsu end; [unfold flagged; cbn [p_has_split_string p_env_options_uncertain p_ambiguous]; by rewrite Hsu|].
  destruct (peel_transparent_prefixes _) as [inner|] eqn:E; [|unfold flagged; cbn [p_has_split_string p_env_options_uncertain p_ambiguous]; by rewrite orb_true_r].
  apply peel_rounds_end in E as [E Hnp]. apply end_length in E as El. apply end_length in Hu as Hul.
  destruct (Nat.eqb_spec (length inner) (length (p_words p))) as [Heq|Hne].
  - intros _. cbn [p_words]. assert (inner = p_words p) as -> by (eapply end_same_length; [by eapply end_of_trans|done]).
    assert (strip_wrapper_command (p_words p) = None) as Hs by (apply unwrap_still; lia). split_and!; [done|done|]. apply unwrap_still_scanned; [done|..].
    + destruct (p_has_split_string (unwrap_wrappers_checked (p_words p))); [|done]. by rewrite !orb_true_r in Hsu.
    + destruct (p_env_options_uncertain (unwrap_wrappers_checked (p_words p))); [|done]. by rewrite !orb_true_r in Hsu.
  - apply IH. cbn [p_words]. lia.
Qed.

Lemma normalize_words ws : p_words (normalize_command_words ws) = p_words (normalize_rounds MAX_NORMALIZE_ROUNDS (mkPeel ws false false false false false)).
Proof. unfold normalize_command_words. generalize (normalize_rounds MAX_NORMALIZE_ROUNDS (mkPeel ws false false false false false)). intros p. by destruct (_ && _). Qed.

Lemma normalize_flagged ws : flagged (normalize_command_words ws) = flagged (normalize_rounds MAX_NORMALIZE_ROUNDS (mkPeel ws false false false false false)).
Proof. unfold normalize_command_words. generalize (normalize_rounds MAX_NORMALIZE_ROUNDS (mkPeel ws false false false false false)). intros p. by destruct (_ && _). Qed.

(** Settled words are left as they are. *)
Lemma settled_unwrap n words : settled words → ∃ cd, unwrap_rounds (S n) false false false words = mkPeel words cd false false false false.
Proof.
  intros (Hs & _ & Hsc). cbn [unwrap_rounds]. rewrite Hs.
  destruct (head_is ["env"] words) eqn:Hh; [|by eexists]. destruct (Hsc Hh) as [-> ->]. by eexists.
Qed.

Lemma settled_peel n words : settled words → peel_rounds n words = Some words.
Proof. intros (_ & Ht & _). destruct n; cbn [peel_rounds]; by rewrite Ht. Qed.

Lemma settled_rounds n words :
  settled words → ∃ cd, normalize_rounds (S n) (mkPeel words false false false false false) = mkPeel words cd false false false false.
Proof.
  intros Hw. destruct (settled_unwrap 7 words Hw) as [cd Hu]. exists cd. cbn [normalize_rounds p_words]. unfold unwrap_wrappers_checked.
  change MAX_WRAPPER_DEPTH with 8%nat. rewrite Hu. cbn [p_words p_has_chdir p_has_split_string p_env_options_uncertain p_exhausted p_ambiguous orb].
  unfold peel_transparent_prefixes. rewrite (settled_peel _ _ Hw). by rewrite Nat.eqb_refl.
Qed.

Lemma settled_still words : settled words → still_peelable words = false.
Proof. intros (Hs & Ht & _). unfold still_peelable, can_strip. by rewrite Hs, Ht, andb_false_r. Qed.

Lemma settled_normal words : settled words → ∃ cd, normalize_command_words words = mkPeel words cd false false false false.
Proof.
  intros Hw. destruct (settled_rounds 15 words Hw) as [cd Hr]. exists cd. unfold normalize_command_words.
  change MAX_NORMALIZE_ROUNDS with 16%nat. rewrite Hr. cbn [p_words p_ambiguous p_has_split_string p_env_options_uncertain].
  by rewrite (settled_still _ Hw).
Qed.

(** What is peeled off a command is its front: the words that are left are
    an end of the words, and some are left when there were any.  For commands
    of fewer words than there are rounds, either a flag is raised (a packed
    [env -S], options of [env] whose operands are not known, an ambiguous
    prefix), or what is left is what runs: no wrapper and no transparent prefix
    comes off it, an [env] at its head has been scanned, and peeling it again
    changes nothing. *)
Theorem normalize_command_words_spec ws :
  let p := normalize_command_words ws in
  p_words p `suffix_of` ws ∧ (ws ≠ [] → p_words p ≠ []) ∧
  ((length ws < MAX_NORMALIZE_ROUNDS)%nat →
   flagged p = true ∨
   (strip_wrapper_command (p_words p) = None ∧ strip_transparent_prefix (p_words p) = NotPrefix ∧
    (head_is ["env"] (p_words p) = true →
     has_split_string (env_scan (p_words p)) = false ∧ options_uncertain (env_scan (p_words p)) = false) ∧
    p_words (normalize_command_words (p_words p)) = p_words p ∧ flagged (normalize_command_words (p_words p)) = false)).
Proof.
  cbv zeta. rewrite normalize_flagged, !normalize_words. set (p := normalize_rounds _ _).
  destruct (normalize_rounds_end MAX_NORMALIZE_ROUNDS (mkPeel ws false false false false false)) as [Hs Hn]. fold p in Hs, Hn.
  split_and!; [done|done|]. intros Hl. destruct (flagged p) eqn:Hf; [by left|right].
  pose proof (normalize_rounds_rest _ (mkPeel ws false false false false false) Hl Hf) as Hw. fold p in Hw.
  destruct (settled_normal _ Hw) as [cd Hc]. destruct Hw as (Hw1 & Hw2 & Hw3). split_and!; [done|done|done| |].
  - rewrite <- normalize_words. by rewrite Hc.
  - rewrite Hc. done.
Qed.

(** A wrapper and a prefix in each of the sixteen rounds, and the packed script
    behind them is not seen: no flag is raised. *)
Lemma packed_script_hides :
  let ws := mjoin (replicate 16 [lit "timeout"; lit "1"; lit "command"]) ++ [lit "env"; lit "-S"; lit "rm '-rf' /"] in
  let p := normalize_command_words ws in
  p_words p = [lit "env"; lit "-S"; lit "rm '-rf' /"] ∧ flagged p = false ∧ p_exhausted p = false ∧
  has_split_string (env_scan (p_words p)) = true ∧ env_split_string_script (p_words p) = None.
Proof. by vm_compute. Qed.

Lemma normalize_command_words_spec_witness :
  let ws := lit <$> ["/usr/bin/env"; "A=1"; "timeout"; "-k"; "5"; "30"; "command"; "nice"; "-n"; "3"; "rm"; "-rf"; "/"]%string in
  p_words (normalize_command_words ws) = lit <$> ["rm"; "-rf"; "/"]%string ∧
  p_words (normalize_command_words ws) `suffix_of` ws ∧ flagged (normalize_command_words ws) = false.
Proof.
  cbv zeta. split; [by vm_compute|]. split; [|by vm_compute].
  apply (normalize_command_words_spec (lit <$> ["/usr/bin/env"; "A=1"; "timeout"; "-k"; "5"; "30"; "command"; "nice"; "-n"; "3"; "rm"; "-rf"; "/"]%string)).
Defined.
