(* ===== verification/PermissionThms.v ===== *)
(** What the permission policy promises: deny over ask over allow whatever the
    order of the rules; a script is allowed only when every command it runs
    is; a rule that restricts one command it runs reaches the whole script;
    rules on paths under the workspace stay under it. *)
From S2P Require Import Prelude Str Path ShellSplit ShellPeel ShellThms PermissionPolicy.

#[local] Opaque MAX_INLINE_SHELL_DEPTH normalize_command_words.

Section thms.
Context `{!PolicyLibs} `{!ShellParser}.

(** * Rules *)

Definition compiled_rules (rules : list PermissionRule) : list (PermissionRule * option Pattern) :=
  (λ r, (r, compile_matcher r)) <$> rules.

Lemma rules_with_new rules : rules_with_matchers (policy_new rules) = compiled_rules rules.
Proof. unfold rules_with_matchers, compiled_rules. cbn. induction rules as [|r rules IH]; [done|]. cbn. by rewrite IH. Qed.

(** A rule that matches an access. *)
Definition matches_access (access : AccessKind) (cwd : option rstr) (r : PermissionRule) : bool :=
  rule_matches access cwd (r, compile_matcher r).

Definition is_action (a : RuleAction) (r : PermissionRule) : bool := bool_decide (action r = a).

Definition matched (a : RuleAction) (access : AccessKind) (cwd : option rstr) (rules : list PermissionRule) : list PermissionRule :=
  List.filter (λ r, is_action a r && matches_access access cwd r) rules.

Definition found (a : RuleAction) (access : AccessKind) (cwd : option rstr) (rules : list PermissionRule) : bool :=
  existsb (λ r, is_action a r && matches_access access cwd r) rules.

Lemma scan_rules_spec access cwd rules matched_ask matched_allow :
  scan_rules access cwd matched_ask matched_allow (compiled_rules rules) =
  match matched RDeny access cwd rules with
  | r :: _ => inl (deny_reason r)
  | [] => inr (matched_ask || found RAsk access cwd rules, matched_allow || found RAllow access cwd rules)
  end.
Proof.
  revert matched_ask matched_allow. induction rules as [|r rules IH]; intros ask allow; cbn; [by rewrite !orb_false_r|].
  unfold matches_access, is_action in *. destruct (rule_matches access cwd (r, compile_matcher r)).
  - destruct (action r); cbn; [|done|]; rewrite IH; unfold matched, is_action; destruct (List.filter _ rules); try done; by rewrite ?orb_true_r.
  - rewrite !andb_false_r. cbn. apply IH.
Qed.

Lemma existsb_elem {A} (f : A → bool) l : existsb f l = true ↔ ∃ x, x ∈ l ∧ f x = true.
Proof. rewrite existsb_exists. split; intros (x & Hx & Hf); exists x; (split; [by apply list_elem_of_In|done]). Qed.

Lemma existsb_perm {A} (f : A → bool) l l' : l ≡ₚ l' → existsb f l = existsb f l'.
Proof.
  intros Hp. apply eq_iff_eq_true. rewrite !existsb_elem.
  split; intros (x & Hx & Hf); exists x; (split; [|done]); [by rewrite <- Hp|by rewrite Hp].
Qed.

Lemma matched_nil a access cwd rules : matched a access cwd rules = [] ↔ found a access cwd rules = false.
Proof.
  unfold matched, found. induction rules as [|r rules IH]; [done|]. cbn. by destruct (_ && _).
Qed.

(** * Scripts that are allowed *)

Definition has_allow (rules : list PermissionRule) : bool := existsb (λ r, bool_decide (action r = RAllow) && on_bash r) rules.

(** A rule that allows a command. *)
Definition allowing (cmd : rstr) (r : PermissionRule) : bool :=
  bool_decide (action r = RAllow) && on_bash r && bash_allow_pattern_matches cmd r (compile_matcher r).

Lemma words_allowed_spec rules ws :
  bash_words_allowed (policy_new rules) ws = negb (bool_decide (ws = [])) && existsb (allowing (join [32] ws)) rules.
Proof.
  unfold bash_words_allowed. rewrite rules_with_new. destruct ws as [|w ws]; [done|]. rewrite bool_decide_false by done. cbn [negb andb].
  unfold compiled_rules. induction rules as [|r rules IH]; [done|]. cbn [fmap list_fmap existsb fst snd]. by rewrite IH.
Qed.

(** ** Order *)

Lemma found_perm a access cwd rules rules' : rules ≡ₚ rules' → found a access cwd rules = found a access cwd rules'.
Proof. apply existsb_perm. Qed.

Lemma forallb_ext_in {A} (f g : A → bool) l : (∀ x, f x = g x) → forallb f l = forallb g l.
Proof. intros Hfg. induction l as [|x l IH]; [done|]. cbn. by rewrite Hfg, IH. Qed.

Lemma chain_perm depth cmd rules rules' :
  rules ≡ₚ rules' → bash_chain_fully_allowed (policy_new rules) depth cmd = bash_chain_fully_allowed (policy_new rules') depth cmd.
Proof.
  intros Hp. revert cmd. induction depth as [|depth IH]; intros cmd; cbn [bash_chain_fully_allowed];
    (destruct (all_commands_from_script cmd) as [[|seg segs]|]; [done| |done]); apply forallb_ext_in; intros c;
    rewrite !words_allowed_spec, (existsb_perm _ _ _ Hp); [done|].
  by destruct (inline_of _) as [|index| |]; rewrite ?IH.
Qed.

(** Two verdicts that differ at most in the reason of a denial. *)
Definition same_verdict (a b : option Decision) : Prop :=
  match a, b with Some (Reject _), Some (Reject _) => True | _, _ => a = b end.

Lemma same_verdict_refl a : same_verdict a a.
Proof. by destruct a as [[]|]. Qed.

(** What the rules say, by their actions. *)
Definition verdict (rules : list PermissionRule) (access : AccessKind) (cwd : option rstr) : option Decision :=
  match matched RDeny access cwd rules with
  | r :: _ => Some (Reject (deny_reason r))
  | [] =>
      if found RAsk access cwd rules then Some Ask
      else match access with
           | AccBash cmd =>
               if has_allow rules && bash_chain_fully_allowed (policy_new rules) MAX_INLINE_SHELL_DEPTH cmd then Some Allow else None
           | _ => if found RAllow access cwd rules then Some Allow else None
           end
  end.

Lemma evaluate_verdict rules access cwd : evaluate_with_cwd (policy_new rules) access cwd = verdict rules access cwd.
Proof.
  unfold evaluate_with_cwd, verdict. rewrite rules_with_new, scan_rules_spec. destruct (matched RDeny access cwd rules); [|done].
  cbn [orb]. destruct (found RAsk access cwd rules); [done|]. by destruct access.
Qed.

Lemma verdict_perm rules rules' access cwd : rules ≡ₚ rules' → same_verdict (verdict rules access cwd) (verdict rules' access cwd).
Proof.
  intros Hp. unfold verdict. generalize MAX_INLINE_SHELL_DEPTH. intros depth. pose proof (found_perm RDeny access cwd _ _ Hp) as Hd.
  destruct (matched RDeny access cwd rules) as [|r l] eqn:E, (matched RDeny access cwd rules') as [|r' l'] eqn:E'; try done.
  - unfold has_allow. rewrite (found_perm RAsk _ _ _ _ Hp), (found_perm RAllow _ _ _ _ Hp), (existsb_perm _ _ _ Hp).
    destruct access as [| | |cmd| | |]; try rewrite (chain_perm _ cmd _ _ Hp); apply same_verdict_refl.
  - apply matched_nil in E. rewrite Hd in E. apply matched_nil in E. by rewrite E in E'.
  - apply matched_nil in E'. rewrite <- Hd in E'. apply matched_nil in E'. by rewrite E' in E.
Qed.

Lemma found_spec a access cwd rules : found a access cwd rules = true ↔ ∃ r, r ∈ rules ∧ action r = a ∧ matches_access access cwd r = true.
Proof.
  unfold found. rewrite existsb_elem. unfold is_action. split; intros (r & Hr & Hf); exists r; (split; [done|]).
  - apply andb_true_iff in Hf as [Ha Hm]. by apply bool_decide_eq_true in Ha.
  - destruct Hf as [-> ->]. by rewrite bool_decide_true.
Qed.

Lemma found_cons a access cwd r rules : found a access cwd (r :: rules) = is_action a r && matches_access access cwd r || found a access cwd rules.
Proof. done. Qed.

(** A rule that restricts changes nothing of what is allowed. *)
Lemma chain_restricts depth cmd r rules :
  restricts r = true → bash_chain_fully_allowed (policy_new (r :: rules)) depth cmd = bash_chain_fully_allowed (policy_new rules) depth cmd.
Proof.
  intros Hr. assert (∀ ws, allowing ws r = false) as Hno by (intros ws; unfold allowing, restricts in *; by destruct (action r)).
  revert cmd. induction depth as [|depth IH]; intros cmd; cbn [bash_chain_fully_allowed];
    (destruct (all_commands_from_script cmd) as [[|seg segs]|]; [done| |done]); apply forallb_ext_in; intros c;
    rewrite !words_allowed_spec; cbn [existsb]; rewrite Hno; [done|].
  cbn [orb]. by destruct (inline_of _) as [|index| |]; rewrite ?IH.
Qed.

Lemma verdict_restricts rules r access cwd :
  restricts r = true → verdict (r :: rules) access cwd = Some Allow → verdict rules access cwd = Some Allow.
Proof.
  intros Hr. unfold verdict. generalize MAX_INLINE_SHELL_DEPTH. intros depth.
  destruct (matched RDeny access cwd (r :: rules)) as [|r0 l] eqn:E; [|done]. apply matched_nil in E. rewrite found_cons in E.
  apply orb_false_iff in E as [_ E]. apply matched_nil in E. rewrite E. rewrite !found_cons.
  assert (has_allow (r :: rules) = has_allow rules) as ->.
  { unfold has_allow. cbn. unfold restricts in Hr. by destruct (action r). }
  assert (is_action RAllow r = false) as -> by (unfold restricts, is_action in *; by destruct (action r)). cbn [andb orb].
  destruct (is_action RAsk r && matches_access access cwd r || found RAsk access cwd rules) eqn:Ha; [done|].
  apply orb_false_iff in Ha as [_ ->].
  destruct access as [| | |cmd| | |]; try rewrite chain_restricts by done; exact id.
Qed.

(** What is left to decide when no rule restricts. *)
Definition granted (rules : list PermissionRule) (access : AccessKind) (cwd : option rstr) : bool :=
  match access with
  | AccBash cmd => has_allow rules && bash_chain_fully_allowed (policy_new rules) MAX_INLINE_SHELL_DEPTH cmd
  | _ => found RAllow access cwd rules
  end.

Lemma granted_spec rules access cwd :
  match access with
  | AccBash cmd => has_allow rules = true ∧ bash_chain_fully_allowed (policy_new rules) MAX_INLINE_SHELL_DEPTH cmd = true
  | _ => ∃ r, r ∈ rules ∧ action r = RAllow ∧ matches_access access cwd r = true
  end ↔ granted rules access cwd = true.
Proof. destruct access; cbn [granted]; by rewrite ?andb_true_iff, <- ?found_spec. Qed.

(** C13: A policy denies an access exactly when a deny rule matches it, asks
    exactly when an ask rule does and no deny rule, and allows only what
    neither matches and an allow rule does (for a script, what every command
    of it is allowed).  The order of the rules decides nothing but the wording
    of a denial, and a further deny or ask rule never makes it allow what it
    did not. *)
Theorem evaluate_precedence rules access cwd :
  let v rules := evaluate_with_cwd (policy_new rules) access cwd in
  let some_rule a := ∃ r, r ∈ rules ∧ action r = a ∧ matches_access access cwd r = true in
  ((∃ reason, v rules = Some (Reject reason)) ↔ some_rule RDeny) ∧
  (v rules = Some Ask ↔ ¬ some_rule RDeny ∧ some_rule RAsk) ∧
  (v rules = Some Allow ↔ ¬ some_rule RDeny ∧ ¬ some_rule RAsk ∧
    match access with
    | AccBash cmd => has_allow rules = true ∧ bash_chain_fully_allowed (policy_new rules) MAX_INLINE_SHELL_DEPTH cmd = true
    | _ => some_rule RAllow
    end) ∧
  (∀ rules', rules ≡ₚ rules' → same_verdict (v rules) (v rules')) ∧
  (∀ r, restricts r = true → v (r :: rules) = Some Allow → v rules = Some Allow).
Proof.
  cbv beta zeta. rewrite !evaluate_verdict, granted_spec, <- !found_spec.
  assert ((∃ reason, verdict rules access cwd = Some (Reject reason)) ↔ found RDeny access cwd rules = true) as H1.
  { pose proof (matched_nil RDeny access cwd rules) as Hm. unfold verdict. destruct (matched RDeny access cwd rules) as [|r l].
    - rewrite (proj1 Hm eq_refl). split; [|done]. intros [reason Hv]. exfalso. destruct (found RAsk _ _ _); [done|].
      by destruct access; repeat case_match.
    - split; [|intros _; by eexists]. intros _. destruct (found RDeny _ _ _); [done|]. by discriminate (proj2 Hm eq_refl). }
  assert (found RDeny access cwd rules = false → verdict rules access cwd =
    if found RAsk access cwd rules then Some Ask else if granted rules access cwd then Some Allow else None) as H2.
  { intros Hd. unfold verdict, granted. rewrite (proj2 (matched_nil _ _ _ _) Hd). by destruct access. }
  split; [exact H1|]. split; [|split; [|split]].
  - destruct (found RDeny access cwd rules) eqn:Hd.
    + destruct (proj2 H1 eq_refl) as [reason ->]. by split; [|intros [[] _]].
    + rewrite H2 by done. destruct (found RAsk access cwd rules); [by split|]. split; [|by intros [_ ?]]. by destruct (granted _ _ _).
  - destruct (found RDeny access cwd rules) eqn:Hd.
    + destruct (proj2 H1 eq_refl) as [reason ->]. by split; [|intros [[] _]].
    + rewrite H2 by done. destruct (found RAsk access cwd rules); [by split; [|intros (_ & [] & _)]|].
      destruct (granted _ _ _); [by split|]. by split; [|intros (_ & _ & ?)].
  - intros rules' Hp. rewrite !evaluate_verdict. by apply verdict_perm.
  - intros r Hr. rewrite !evaluate_verdict. by apply verdict_restricts.
Qed.

(** * The scripts and commands of a script *)

Definition peeled_words (ws : list rstr) : list rstr := p_words (normalize_command_words ws).

(** The scripts that [s] enters, with how deep: itself, those its commands give
    to a shell, and, where [packed], those packed behind [env -S]. *)
Inductive enters (packed : bool) : nat → rstr → rstr → Prop :=
| enters_here s : enters packed 0 s s
| enters_inline d s segs c index s' t :
    all_commands_from_script s = Some segs → c ∈ segs → inline_of (peeled_words (words c)) = InlineLiteral index →
    peeled_words (words c) !! index = Some s' → enters packed d s' t → enters packed (S d) s t
| enters_packed d s segs c s' t :
    packed = true → all_commands_from_script s = Some segs → c ∈ segs →
    env_split_string_script (peeled_words (words c)) = Some s' → enters packed d s' t → enters packed (S d) s t.

(** A command that it runs. *)
Definition runs (packed : bool) (d : nat) (s : rstr) (ws : list rstr) : Prop :=
  ∃ t segs c, enters packed d s t ∧ all_commands_from_script t = Some segs ∧ c ∈ segs ∧ ws = words c.

Lemma scan_options_range dyn saw unrec i ws k :
  scan_options dyn saw unrec i ws = InlineLiteral k → (i ≤ k < i + length ws)%nat.
Proof.
  revert saw unrec i. induction ws as [ws IH] using (induction_ltof1 _ (@length ShellWord)); unfold ltof in IH. intros saw unrec i.
  destruct ws as [|w rest]; cbn [scan_options]; [by destruct saw, unrec|].
  assert (∀ b, ambiguous_after b ≠ InlineLiteral k) as Ha by by intros [].
  assert (∀ b, unless_seen b ≠ InlineLiteral k) as Hu by by intros [].
  assert (∀ j, finish_literal dyn j = InlineLiteral k → j = k) as Hfin by (intros j; unfold finish_literal; by destruct dyn; intros [= ->]).
  assert (∀ sc un, scan_options dyn sc un (i + 1) rest = InlineLiteral k → (i ≤ k < i + length (w :: rest))%nat) as H1.
  { intros sc un Hk%IH; [|cbn; lia]. cbn. lia. }
  assert (∀ o rest' sc un, rest = o :: rest' → scan_options dyn sc un (i + 2) rest' = InlineLiteral k → (i ≤ k < i + length (w :: rest))%nat) as H2.
  { intros o rest' sc un -> Hk%IH; [|cbn; lia]. cbn. lia. }
  destruct w as [word|]; [|by intros ?%Ha].
  repeat case_match; subst; try (by intros ?%Ha); try (by intros ?%Hu); try done; eauto; intros ?%Hfin; subst; cbn; lia.
Qed.

Lemma inline_in_range ws index : inline_of ws = InlineLiteral index → is_Some (ws !! index).
Proof.
  unfold inline_of, shell_dash_c_script. destruct ws as [|w ws]; [done|].
  cbn [fmap list_fmap]. match goal with |- context [if ?b then _ else _] => destruct b end; [|done].
  change (Literal <$> ws) with (fmap Literal ws). intros Hr%scan_options_range. rewrite length_fmap in Hr. apply lookup_lt_is_Some. cbn. lia.
Qed.

(** * What is allowed *)

(** A command that stands on its own: nothing of it is unclear, and a rule
    allows it. *)
Definition granted_command (rules : list PermissionRule) (ws : list rstr) : Prop :=
  let p := normalize_command_words ws in
  flagged p = false ∧ p_exhausted p = false ∧ p_words p ≠ [] ∧
  ∃ r, r ∈ rules ∧ action r = RAllow ∧ on_bash r = true ∧
    bash_allow_pattern_matches (join [32] (p_words p)) r (compile_matcher r) = true.

Lemma words_granted rules ws :
  negb (floored (normalize_command_words ws) || p_has_split_string (normalize_command_words ws)) = true →
  bash_words_allowed (policy_new rules) (p_words (normalize_command_words ws)) = true → granted_command rules ws.
Proof.
  rewrite words_allowed_spec. unfold granted_command, flagged, floored. destruct (normalize_command_words ws) as [w cd sp un ex am]. cbn.
  destruct sp, un, ex, am; cbn; try done. intros _ [Hn Ha]%andb_true_iff. split_and!; [done|done| |].
  - by apply negb_true_iff, bool_decide_eq_false in Hn.
  - apply existsb_elem in Ha as (r & Hr & Hf). exists r. unfold allowing in Hf. apply andb_true_iff in Hf as [[Hf Hb]%andb_true_iff Hm].
    by apply bool_decide_eq_true in Hf.
Qed.

Lemma chain_segment rules depth cmd segs c :
  bash_chain_fully_allowed (policy_new rules) depth cmd = true → all_commands_from_script cmd = Some segs → c ∈ segs →
  granted_command rules (words c) ∧
  match inline_of (peeled_words (words c)) with
  | InlineLiteral index => ∃ depth', depth = S depth' ∧
      bash_chain_fully_allowed (policy_new rules) depth' (default [] (peeled_words (words c) !! index)) = true
  | NotInline => True
  | _ => False
  end.
Proof.
  unfold peeled_words. intros Hc Hs Hin. destruct depth as [|depth]; cbn [bash_chain_fully_allowed] in Hc; rewrite Hs in Hc;
    (destruct segs as [|seg segs]; [done|]); rewrite forallb_forall in Hc; apply list_elem_of_In in Hin; specialize (Hc c Hin); cbv zeta in Hc;
    apply andb_true_iff in Hc as [[Hf Hw]%andb_true_iff Hi]; (split; [by apply words_granted|]);
    destruct (inline_of _); try done. by exists depth.
Qed.

Lemma chain_runs rules depth cmd d ws :
  bash_chain_fully_allowed (policy_new rules) depth cmd = true → runs false d cmd ws → granted_command rules ws.
Proof.
  intros Hc (t & segs & c & He & Ht & Hin & ->). revert depth Hc.
  induction He as [s|d s segs' c' index s' t Hs Hin' Hi Hl He IH|]; intros depth Hc; [|destruct (chain_segment _ _ _ _ _ Hc Hs Hin') as [_ Hd]|done].
  - by eapply chain_segment.
  - rewrite Hi in Hd. destruct Hd as (depth' & _ & Hd). change (list rchar) with rstr in Hd.
    rewrite Hl in Hd. by eapply IH.
Qed.

Lemma chain_some rules depth cmd : bash_chain_fully_allowed (policy_new rules) depth cmd = true → ∃ ws, runs false 0 cmd ws.
Proof.
  intros Hc. destruct (all_commands_from_script cmd) as [[|c segs]|] eqn:Hs.
  - by destruct depth; cbn in Hc; rewrite Hs in Hc.
  - exists (words c), cmd, (c :: segs), c. split; [constructor|]. split; [done|]. split; [left|done].
  - by destruct depth; cbn in Hc; rewrite Hs in Hc.
Qed.

(** C11: A script is allowed only when it runs something, and every command that
    it runs, in every script given to a shell at whatever depth, has no wrapper
    whose operands are unclear and is, once peeled, allowed by a rule; and no
    rule that denies or asks matches the script. *)
Theorem allowed_script_spec rules cmd :
  evaluate (policy_new rules) (AccBash cmd) = Some Allow →
  (∃ ws, runs false 0 cmd ws) ∧ (∀ d ws, runs false d cmd ws → granted_command rules ws) ∧
  (∀ r, r ∈ rules → restricts r = true → matches_access (AccBash cmd) None r = false).
Proof.
  unfold evaluate. rewrite evaluate_verdict. intros Hv. pose proof (matched_nil RDeny (AccBash cmd) None rules) as Hm.
  unfold verdict in Hv. destruct (matched RDeny (AccBash cmd) None rules); [|done]. pose proof (proj1 Hm eq_refl) as Hd.
  destruct (found RAsk (AccBash cmd) None rules) eqn:Ha; [done|]. destruct (has_allow rules); [|done]. cbn [andb] in Hv.
  destruct (bash_chain_fully_allowed _ _ _) eqn:Hc; [|done]. split; [by eapply chain_some|]. split; [intros d ws; by eapply chain_runs|].
  intros r Hr Hres. destruct (matches_access (AccBash cmd) None r) eqn:Hma; [|done]. exfalso. unfold restricts in Hres.
  destruct (action r) eqn:Hact; [done| |].
  - assert (found RDeny (AccBash cmd) None rules = true) by (apply found_spec; by exists r). congruence.
  - assert (found RAsk (AccBash cmd) None rules = true) by (apply found_spec; by exists r). congruence.
Qed.

(** * What the gate reaches *)

Definition rank (d : option GateDecision) : Z := match d with Some d => gate_rank d | None => 0 end.

Lemma rank_nonneg d : 0 ≤ rank d.
Proof. by destruct d as [[]|]. Qed.

Lemma rank_combine a b : rank (combine_gate_decisions a b) = Z.max (rank a) (rank b).
Proof. destruct a as [[]|], b as [[]|]; done. Qed.

Lemma rank_foldl l a : rank (foldl combine_gate_decisions a l) = foldl Z.max (rank a) (rank <$> l).
Proof. revert a. induction l as [|x l IH]; intros a; [done|]. cbn. by rewrite IH, rank_combine. Qed.

Lemma foldl_max_ge (l : list Z) a x : (x ≤ a ∨ x ∈ l) → x ≤ foldl Z.max a l.
Proof.
  revert a. induction l as [|y l IH]; intros a Hx; cbn; [destruct Hx as [?|Hx%elem_of_nil]; done|].
  apply IH. destruct Hx as [?|[->|?]%elem_of_cons]; [left; lia|left; lia|by right].
Qed.

Lemma rank_all l d : d ∈ l → rank d ≤ rank (combine_all l).
Proof. intros Hd. unfold combine_all. rewrite rank_foldl. apply foldl_max_ge. right. apply list_elem_of_fmap. by exists d. Qed.

Section gate.
Context (rules : list PermissionRule).

Definition deeper_of (depth : nat) : option (rstr → option GateDecision) :=
  match depth with O => None | S depth => Some (evaluate_bash_command_segments (policy_new rules) depth) end.

Lemma segments_eq depth cmd :
  evaluate_bash_command_segments (policy_new rules) depth cmd =
  match all_commands_from_script cmd with
  | None => Some AskFailClosed
  | Some segments => combine_all ((λ c, evaluate_command_words (policy_new rules) (deeper_of depth) (words c)) <$> segments)
  end.
Proof. by destruct depth. Qed.

Lemma rank_segment depth cmd segs c :
  all_commands_from_script cmd = Some segs → c ∈ segs →
  rank (evaluate_command_words (policy_new rules) (deeper_of depth) (words c)) ≤ rank (evaluate_bash_command_segments (policy_new rules) depth cmd).
Proof. intros Hs Hc. rewrite segments_eq, Hs. apply rank_all, list_elem_of_fmap. by exists c. Qed.

Lemma rank_inline depth ws index s :
  inline_of (peeled_words ws) = InlineLiteral index → peeled_words ws !! index = Some s →
  match depth with O => 1 | S depth => rank (evaluate_bash_command_segments (policy_new rules) depth s) end
  ≤ rank (evaluate_command_words (policy_new rules) (deeper_of depth) ws).
Proof.
  intros Hi Hl. unfold evaluate_command_words. fold (peeled_words ws). rewrite Hi. change (list rchar) with rstr. rewrite Hl.
  destruct depth as [|depth].
  - change 1 with (rank (Some AskFailClosed)). apply rank_all. apply elem_of_app. right. apply elem_of_app. right. apply elem_of_app. left. left.
  - apply rank_all. apply elem_of_app. right. apply elem_of_app. right. apply elem_of_app. left. left.
Qed.

Lemma rank_packed depth ws s :
  env_split_string_script (peeled_words ws) = Some s →
  match depth with O => 1 | S depth => rank (evaluate_bash_command_segments (policy_new rules) depth s) end
  ≤ rank (evaluate_command_words (policy_new rules) (deeper_of depth) ws).
Proof.
  intros Hp. unfold evaluate_command_words. fold (peeled_words ws). rewrite Hp. destruct depth as [|depth].
  - change 1 with (rank (Some AskFailClosed)). apply rank_all. do 3 (apply elem_of_app; right). left.
  - apply rank_all. do 3 (apply elem_of_app; right). left.
Qed.

(** What the text of a command calls for, raw or peeled. *)
Lemma rank_escalate depth ws text :
  text = join [32] ws ∨ text = join [32] (peeled_words ws) →
  rank (escalate (policy_new rules) text) ≤ rank (evaluate_command_words (policy_new rules) (deeper_of depth) ws).
Proof.
  intros Ht. unfold evaluate_command_words. fold (peeled_words ws). apply rank_all. rewrite !elem_of_app. destruct Ht as [->| ->].
  - left. right. right. left.
  - destruct (Nat.eqb_spec (length (peeled_words ws)) (length ws)) as [Heq|Hne]; [|right; left; left].
    left. right. right. rewrite (end_same_length (peeled_words ws) ws); [left| |done].
    unfold peeled_words. rewrite normalize_words. apply (normalize_rounds_end MAX_NORMALIZE_ROUNDS (mkPeel ws false false false false false)).
Qed.

Lemma rank_escalate_rule text r :
  r ∈ rules → matches_access (AccBash text) None r = true →
  match action r with RDeny => 3 | RAsk => 2 | RAllow => 0 end ≤ rank (escalate (policy_new rules) text).
Proof.
  intros Hr Hm. unfold escalate, evaluate. rewrite evaluate_verdict. unfold verdict. generalize MAX_INLINE_SHELL_DEPTH. intros n.
  pose proof (matched_nil RDeny (AccBash text) None rules) as Hnil.
  destruct (matched RDeny (AccBash text) None rules) as [|r0 l]; [|by destruct (action r)].
  destruct (action r) eqn:Ha; [apply rank_nonneg| |].
  - assert (found RDeny (AccBash text) None rules = true) by (apply found_spec; by exists r). rewrite (proj1 Hnil eq_refl) in *. done.
  - assert (found RAsk (AccBash text) None rules = true) as -> by (apply found_spec; by exists r). done.
Qed.

(** Going into a script loses nothing, and going too deep asks. *)
Lemma rank_enters d cmd t :
  enters true d cmd t →
  ∀ depth, match (depth - d)%nat with
           | O => if (d <=? depth)%nat then rank (evaluate_bash_command_segments (policy_new rules) 0 t) else 1
           | S k => rank (evaluate_bash_command_segments (policy_new rules) (S k) t)
           end ≤ rank (evaluate_bash_command_segments (policy_new rules) depth cmd).
Proof.
  assert (∀ d depth s s' t segs c,
    all_commands_from_script s = Some segs → c ∈ segs →
    (match depth with O => 1 | S depth => rank (evaluate_bash_command_segments (policy_new rules) depth s') end
      ≤ rank (evaluate_command_words (policy_new rules) (deeper_of depth) (words c))) →
    (∀ depth, match (depth - d)%nat with
           | O => if (d <=? depth)%nat then rank (evaluate_bash_command_segments (policy_new rules) 0 t) else 1
           | S k => rank (evaluate_bash_command_segments (policy_new rules) (S k) t)
           end ≤ rank (evaluate_bash_command_segments (policy_new rules) depth s')) →
    match (depth - S d)%nat with
    | O => if (S d <=? depth)%nat then rank (evaluate_bash_command_segments (policy_new rules) 0 t) else 1
    | S k => rank (evaluate_bash_command_segments (policy_new rules) (S k) t)
    end ≤ rank (evaluate_bash_command_segments (policy_new rules) depth s)) as Hstep.
  { intros d' depth s s' t' segs c Hs Hc Hr IH. pose proof (rank_segment depth _ _ _ Hs Hc) as Hseg.
    destruct depth as [|depth]; [cbn [Nat.sub Nat.leb]; lia|]. specialize (IH depth). cbn [Nat.sub Nat.leb] in *. lia. }
  induction 1 as [s|d s segs c index s' t Hs Hin Hi Hl He IH|d s segs c s' t _ Hs Hin Hp He IH]; intros depth.
  - rewrite Nat.sub_0_r. by destruct depth.
  - eapply Hstep; [exact Hs|exact Hin|by eapply rank_inline|exact IH].
  - eapply Hstep; [exact Hs|exact Hin|by eapply rank_packed|exact IH].
Qed.

(** An undecomposed script asks; what a command's text calls for, the script
    that runs it is given. *)
Lemma rank_enters_bound d cmd t depth x :
  enters true d cmd t → (∀ k, x ≤ rank (evaluate_bash_command_segments (policy_new rules) k t)) →
  (if (d <=? depth)%nat then x else Z.min x 1) ≤ rank (evaluate_bash_command_segments (policy_new rules) depth cmd).
Proof.
  intros He Hx. pose proof (rank_enters d cmd t He depth) as Hr.
  destruct (Nat.leb_spec d depth); destruct (depth - d)%nat as [|k] eqn:Hk; try (pose proof (Hx 0%nat)); try (pose proof (Hx (S k))); lia.
Qed.

Lemma bash_rule_applies text r : matches_access (AccBash text) None r = true → on_bash r = true.
Proof. unfold matches_access, rule_matches, on_bash. cbn. by destruct (tool r). Qed.

Lemma gate_on r :
  r ∈ rules → restricts r = true → on_bash r = true → has_bash_command_restrictions (policy_new rules) = true.
Proof. intros Hr Hres Hb. cbn. apply existsb_elem. exists r. by rewrite Hres, Hb. Qed.

Lemma rank_some (o : option GateDecision) n :
  1 ≤ n → n ≤ rank o → ∃ g, o = Some g ∧ n ≤ gate_rank g.
Proof. destruct o as [g|]; cbn; intros; [by exists g|lia]. Qed.

Lemma rank_three g : 3 ≤ gate_rank g → ∃ reason, g = GateReject reason.
Proof. destruct g; cbn; [by eexists|lia..]. Qed.
End gate.

(** C12: A rule that denies or asks reaches every command that a script runs:
    through wrappers and prefixes (raw and peeled words are both judged),
    through scripts given to a shell or packed behind [env -S], at any depth.
    Where such a rule matches, the gate is not silent; down to the depth it
    follows, a denial makes it reject and a rule to ask is known as one.  A
    script that cannot be split, however deep, makes it ask. *)
Theorem command_gate_reaches rules cmd d :
  (∀ ws r, runs true d cmd ws → r ∈ rules → restricts r = true →
    (matches_access (AccBash (join [32] ws)) None r = true ∨
     matches_access (AccBash (join [32] (peeled_words ws))) None r = true) →
    ∃ g, evaluate_bash_command_gate (policy_new rules) cmd = Some g ∧
      ((d ≤ MAX_INLINE_SHELL_DEPTH)%nat →
        match action r with RDeny => ∃ reason, g = GateReject reason | _ => g ≠ AskFailClosed end)) ∧
  (∀ t, enters true d cmd t → all_commands_from_script t = None →
    has_bash_command_restrictions (policy_new rules) = true →
    evaluate_bash_command_gate (policy_new rules) cmd ≠ None).
Proof.
  split.
  - intros ws r (t & segs & c & He & Ht & Hc & ->) Hr Hres Hm.
    assert (∃ text, (text = join [32] (words c) ∨ text = join [32] (peeled_words (words c))) ∧ matches_access (AccBash text) None r = true)
      as (text & Htext & Hma) by (destruct Hm as [Hm|Hm]; eexists; (split; [|exact Hm]); auto).
    set (x := match action r with RDeny => 3 | RAsk => 2 | RAllow => 0 end).
    assert (∀ k, x ≤ rank (evaluate_bash_command_segments (policy_new rules) k t)) as Hx.
    { intros k. etransitivity; [by apply (rank_escalate_rule rules text r)|]. etransitivity; [by apply (rank_escalate rules k (words c))|].
      by eapply rank_segment. }
    pose proof (rank_enters_bound rules d cmd t MAX_INLINE_SHELL_DEPTH x He Hx) as Hb.
    unfold evaluate_bash_command_gate. rewrite (gate_on rules r) by (done || by eapply bash_rule_applies). cbn [negb].
    assert (2 ≤ x) as Hx2 by (unfold x, restricts in *; by destruct (action r)).
    destruct (rank_some (evaluate_bash_command_segments (policy_new rules) MAX_INLINE_SHELL_DEPTH cmd) 1) as (g & Hg & _); [lia| |].
    { destruct (d <=? MAX_INLINE_SHELL_DEPTH)%nat; lia. }
    exists g. split; [exact Hg|]. intros Hd. rewrite Hg in Hb. rewrite (proj2 (Nat.leb_le _ _) Hd) in Hb. cbn [rank] in Hb. unfold x in Hb.
    destruct (action r); [done|by apply rank_three|by intros ->].
  - intros t He Ht Hon. unfold evaluate_bash_command_gate. rewrite Hon. cbn [negb].
    assert (∀ k, 1 ≤ rank (evaluate_bash_command_segments (policy_new rules) k t)) as Hx by (intros k; by rewrite segments_eq, Ht).
    pose proof (rank_enters_bound rules d cmd t MAX_INLINE_SHELL_DEPTH 1 He Hx) as Hb. intros Hn. rewrite Hn in Hb. cbn [rank] in Hb.
    destruct (_ <=? _)%nat; lia.
Qed.
End thms.
