(* ===== verification/PermissionPath.v ===== *)
(** Rules on paths: a pattern that speaks of relative spellings reaches what
    lies under the workspace, and nothing else. *)
From S2P Require Import Prelude Str Path ShellSplit ShellPeel PermissionPolicy.

(** * Components of what is normalised *)

Lemma segment_plain piece name : SEP ∉ piece → segment_component piece = Some (Normal name) → plain_name name.
Proof.
  unfold segment_component. intros Hs. repeat case_decide; try done. intros [= <-].
  unfold plain_name. split_and!; [tauto|tauto|done|done].
Qed.

(** Past an absolute head the stack is names over the root. *)
Definition rooted (acc : list Component) : Prop := ∃ names, acc = (Normal <$> names) ++ [RootDir] ∧ Forall plain_name names.

Lemma push_rooted acc c : rooted acc → (c = RootDir → False) → (∀ s, c = Normal s → plain_name s) → rooted (push_component acc c).
Proof.
  intros (names & -> & Hn) Hr Hc. destruct c as [| | |s]; cbn [push_component]; [done|by exists names| |].
  - destruct names as [|x names]; cbn; [by exists []|]. inversion Hn. by exists names.
  - exists (s :: names). split; [done|]. constructor; auto.
Qed.

Lemma lexical_rooted p : is_absolute p = true → ∃ names, lexical_components p = RootDir :: (Normal <$> names) ∧ Forall plain_name names.
Proof.
  intros Ha. unfold lexical_components, components. rewrite Ha. cbn [app foldl push_component].
  assert (∀ segs acc, Forall (λ s, SEP ∉ s) segs → rooted acc → rooted (foldl push_component acc (omap segment_component segs))) as H.
  { induction segs as [|s segs IH]; intros acc Hs Hacc; [done|]. inversion Hs as [|? ? Hs1 Hs2]; subst. cbn.
    destruct (segment_component s) as [c|] eqn:E; [|by apply IH]. cbn. apply IH; [done|]. apply push_rooted; [done| |].
    - intros ->. unfold segment_component in E. by repeat case_decide.
    - intros n ->. by eapply segment_plain. }
  destruct (H (split_char SEP p) [RootDir]) as (names & -> & Hn).
  - apply Forall_forall. intros piece. apply split_char_pieces.
  - by exists [].
  - exists (reverse names). rewrite reverse_app, <- fmap_reverse. split; [done|]. by apply Forall_reverse.
Qed.

(** A rooted path, as text. *)
Definition rooted_text (names : list rstr) : rstr := from_components (RootDir :: (Normal <$> names)).

Lemma from_components_snoc cs s : from_components (cs ++ [Normal s]) = path_join (from_components cs) s.
Proof. unfold from_components. by rewrite fmap_app, foldl_app. Qed.

Lemma path_join_nonempty p s : p ≠ [] → path_join p s ≠ [].
Proof. unfold path_join. destruct p as [|c p]; [done|]. intros _. destruct s as [|d s]; repeat case_match; try done; by destruct (_ ++ _). Qed.

(** A rooted path is read back as it was made. *)
Lemma rooted_components names :
  Forall plain_name names →
  rooted_text names ≠ [] ∧ is_absolute (rooted_text names) = true ∧ components (rooted_text names) = RootDir :: (Normal <$> names).
Proof.
  induction names as [|n names IH] using rev_ind; intros Hn; [done|]. apply Forall_app in Hn as [Hn Hn1]. inversion Hn1; subst.
  destruct (IH Hn) as (Hne & Ha & Hc). unfold rooted_text in *. rewrite fmap_app. cbn [fmap list_fmap]. rewrite app_comm_cons, from_components_snoc.
  split_and!; [by apply path_join_nonempty| |].
  - destruct (from_components _) as [|c p] eqn:E; [done|]. unfold path_join.
    assert (is_absolute n = false) as -> by (destruct n as [|d n]; [done|]; apply Z.eqb_neq; intros ->; by destruct H1 as (_ & _ & _ & H1); apply H1; left).
    by destruct (_ || _).
  - rewrite components_join by done. by rewrite Hc.
Qed.

Lemma normalize_rooted p :
  is_absolute p = true →
  ∃ names, lexical_components p = RootDir :: (Normal <$> names) ∧ normalize_lexically p = rooted_text names ∧ Forall plain_name names.
Proof.
  intros Ha. destruct (lexical_rooted p Ha) as (names & Hl & Hn). exists names. split; [done|]. unfold normalize_lexically. by rewrite Hl.
Qed.

Lemma join_absolute cwd path : is_absolute cwd = true → is_absolute (path_join cwd path) = true.
Proof. intros Ha. unfold path_join. destruct (is_absolute path) eqn:E; [done|]. destruct cwd as [|c cwd]; [done|]. by destruct (_ || _). Qed.

Lemma match_string_absolute p : is_absolute p = true → is_absolute (path_match_string p) = true.
Proof. destruct p as [|c p]; [done|]. cbn. intros ->%Z.eqb_eq. done. Qed.

(** The path that an access names, seen from the workspace. *)
Definition seen_from (cwd path : rstr) : rstr := if is_absolute path then path else path_join cwd path.

Lemma absolute_normalized cwd path :
  is_tilde_path path = false → absolute_normalized_path path (Some cwd) = normalize_lexically (seen_from cwd path).
Proof. intros Ht. unfold absolute_normalized_path, seen_from. rewrite Ht. by destruct (is_absolute path). Qed.

Lemma seen_absolute cwd path : is_absolute cwd = true → is_absolute (seen_from cwd path) = true.
Proof. intros Ha. unfold seen_from. destruct (is_absolute path) eqn:E; [done|by apply join_absolute]. Qed.

Lemma prefix_names (l1 l2 : list rstr) : (Normal <$> l1) `prefix_of` (Normal <$> l2) → ∃ rest, l2 = l1 ++ rest.
Proof.
  revert l2. induction l1 as [|x l1 IH]; intros l2 [k Hk]; [by exists l2|]. destruct l2 as [|y l2]; [done|]. cbn in Hk.
  injection Hk as -> Hk. destruct (IH l2) as [rest ->]; [by exists k|]. by exists rest.
Qed.

(** The relative spellings of a path are there only when it lies under the
    workspace. *)
Lemma forms_under cwd path text :
  is_absolute cwd = true → is_tilde_path path = false → text ∈ path_match_forms path (Some cwd) → is_absolute text = false →
  ∃ names, lexical_components (seen_from cwd path) = lexical_components cwd ++ (Normal <$> names).
Proof.
  intros Ha Ht Hin Hrel. unfold path_match_forms in Hin. rewrite (absolute_normalized _ _ Ht) in Hin.
  destruct (normalize_rooted _ (seen_absolute cwd path Ha)) as (names & Hl & Hn & Hp).
  destruct (normalize_rooted _ Ha) as (base & Hlb & Hnb & Hpb).
  destruct (rooted_components _ Hp) as (_ & Hpa & Hpc). destruct (rooted_components _ Hpb) as (_ & _ & Hbc).
  rewrite Hn, Hnb in Hin. apply elem_of_cons in Hin as [->|Hin].
  { by rewrite (match_string_absolute _ Hpa) in Hrel. }
  unfold path_strip_prefix in Hin. destruct (path_starts_with _ _) eqn:Hs; [|by apply elem_of_nil in Hin].
  unfold path_starts_with in Hs. apply bool_decide_eq_true in Hs. rewrite Hpc, Hbc in Hs. apply prefix_cons_inv_2 in Hs.
  apply prefix_names in Hs as [rest ->]. exists rest. rewrite Hl, Hlb. by rewrite fmap_app.
Qed.

(** A path that begins with a tilde keeps its own spelling. *)
Lemma forms_tilde cwd path :
  is_absolute cwd = true → is_tilde_path path = true → path_match_forms path (Some cwd) = [path_match_string path].
Proof.
  intros Ha Ht. unfold path_match_forms, absolute_normalized_path. rewrite Ht. f_equal. unfold path_strip_prefix.
  destruct (normalize_rooted _ Ha) as (base & _ & -> & Hpb). destruct (rooted_components _ Hpb) as (_ & _ & Hbc).
  destruct (path_starts_with _ _) eqn:Hs; [|done]. exfalso. unfold path_starts_with in Hs. apply bool_decide_eq_true in Hs. rewrite Hbc in Hs.
  unfold is_tilde_path in Ht. destruct (components path) as [|c cs]; [done|]. destruct Hs as [k Hk]. injection Hk as -> _. done.
Qed.

Section rules.
Context `{!PolicyLibs} `{!ShellParser}.

(** C17: A pattern that matches no absolute text reaches, of the files that a
    tool names, only what lies under the workspace once [.] and [..] are
    resolved, whether the path is relative, absolute, or climbs out and in
    again; and a path that begins with a tilde, which tools expand later, is
    matched in its own spelling only, never as one under the workspace. *)
Theorem workspace_rule_contained rule m cwd path access :
  is_absolute cwd = true →
  (∀ text, glob_matches_with m true text = true → is_absolute text = false) →
  compile_matcher rule = Some m →
  access = AccEdit path ∨ access = AccRead (Some path) ∨ (∃ g, access = AccGrep (Some path) g) →
  pattern_matches access rule (compile_matcher rule) (Some cwd) = true →
  if is_tilde_path path then glob_matches_with m true (path_match_string path) = true
  else ∃ names, lexical_components (seen_from cwd path) = lexical_components cwd ++ (Normal <$> names).
Proof.
  intros Ha Hg Hm Hacc Hp. rewrite Hm in Hp.
  assert (path_context_matches path (Some m) (Some cwd) = true) as Hc.
  { unfold pattern_matches, compile_matcher in *. destruct (pattern rule) as [p|]; [|done]. cbn in Hm. destruct (word_is "*" p); [done|].
    by destruct Hacc as [->|[->|[g ->]]]. }
  unfold path_context_matches in Hc. apply existsb_exists in Hc as (text & Hin & Ht). apply list_elem_of_In in Hin. cbn in Ht.
  destruct (is_tilde_path path) eqn:E.
  - rewrite (forms_tilde _ _ Ha E) in Hin. by apply list_elem_of_singleton in Hin as <-.
  - by eapply forms_under; [..|eapply Hg].
Qed.
End rules.
