(* ===== verification/PermissionDemo.v ===== *)
(** The permission policy on concrete scripts: a glob with a star at the end, a
    parser that knows a few scripts, and the theorems of [PermissionThms] and
    [PermissionPath] used there. *)
From S2P Require Import Prelude Str Path ShellSplit ShellPeel PermissionPolicy PermissionThms PermissionPath.

#[local] Opaque normalize_command_words MAX_INLINE_SHELL_DEPTH bash_chain_fully_allowed.

(** A text is its pattern, or starts as the pattern does before its star; only
    what has no separator in it matches a star of a path. *)
Definition demo_match (p : rstr) (literal_separator : bool) (text : rstr) : bool :=
  if bool_decide (last p = Some 42) then
    match strip_prefix (removelast p) text with
    | Some rest => negb (literal_separator && existsb (Z.eqb SEP) rest)
    | None => false
    end
  else bool_decide (text = p).

#[local] Instance demo_libs : PolicyLibs := {|
  Pattern := rstr; glob_new := Some; glob_matches_with := demo_match;
  url_host := λ _, Some None; to_lowercase := id |}.

(** Words of a command with their kinds, one space between them. *)
Fixpoint word_nodes (at_byte : Z) (ws : list (string * rstr)) : list Node :=
  match ws with
  | [] => []
  | (k, w) :: ws =>
      let stop := at_byte + Z.of_nat (length w) in
      (if bool_decide (k = "command_name"%string) then mkNode (lit k) true (lit "name") at_byte stop [mkNode (lit "word") true [] at_byte stop []]
       else mkNode (lit k) true (lit "argument") at_byte stop []) :: word_nodes (stop + 1) ws
  end.

Definition one_command (ws : list (string * rstr)) : rstr * Tree :=
  let text := join [32] (snd <$> ws) in
  let stop := Z.of_nat (length text) in
  (text, mkTree (mkNode (lit "program") true [] 0 stop [mkNode (lit "command") true [] 0 stop (word_nodes 0 ws)]) false).

Definition word_of (k s : string) : string * rstr := (k, lit s).

Definition demo_scripts : list (rstr * Tree) := one_command <$> [
  [word_of "command_name" "timeout"; word_of "number" "5"; word_of "word" "git"; word_of "word" "status"];
  [word_of "command_name" "git"; word_of "word" "push"];
  [word_of "command_name" "git"; word_of "word" "status"];
  [word_of "command_name" "bash"; word_of "word" "-c"; word_of "raw_string" "'git push'"];
  [word_of "command_name" "cat"; word_of "word" ".env"];
  [word_of "command_name" "bash"; word_of "word" "-c"; word_of "raw_string" "'cat .env'"];
  [word_of "command_name" "git"; ("concatenation"%string, lit "pu" ++ [DQUOTE; DQUOTE] ++ lit "sh")]].

#[local] Instance demo_parser : ShellParser := λ text, snd <$> List.find (λ e, bool_decide (e.1 = text)) demo_scripts.

Definition demo_rules : list PermissionRule := [
  mkRule RAllow FBash (Some (lit "timeout 5 git status")) ModeGlob;
  mkRule RAllow FBash (Some (lit "git status")) ModeGlob;
  mkRule RDeny FBash (Some (lit "git push")) ModeGlob].

(** What a policy allows is granted command by command. *)
Lemma allowed_script_spec_witness :
  evaluate (policy_new demo_rules) (AccBash (lit "timeout 5 git status")) = Some Allow ∧
  granted_command demo_rules (lit <$> ["timeout"; "5"; "git"; "status"]%string).
Proof.
  assert (evaluate (policy_new demo_rules) (AccBash (lit "timeout 5 git status")) = Some Allow) as Ha by (vm_compute; reflexivity).
  split; [exact Ha|]. destruct (allowed_script_spec demo_rules (lit "timeout 5 git status") Ha) as (_ & H & _).
  apply (H 0%nat). eexists _, _, _. split; [apply enters_here|]. split; [vm_compute; reflexivity|].
  split; [apply list_elem_of_here|reflexivity].
Defined.

(** A rule that denies a push reaches into the script given to a shell. *)
Lemma command_gate_reaches_witness :
  ∃ g, evaluate_bash_command_gate (policy_new demo_rules) (lit "bash -c 'git push'") = Some g ∧
    ∃ reason, g = GateReject reason.
Proof.
  destruct (command_gate_reaches demo_rules (lit "bash -c 'git push'") 1) as [H _].
  destruct (H (lit <$> ["git"; "push"]%string) (mkRule RDeny FBash (Some (lit "git push")) ModeGlob)) as (g & Hg & Hd).
  - eexists _, _, _. split.
    + eapply enters_inline with (index := 2%nat) (s' := lit "git push"); [by vm_compute|by apply list_elem_of_here|by vm_compute|by vm_compute|].
      apply enters_here.
    + split; [by vm_compute|]. split; [by apply list_elem_of_here|by vm_compute].
  - do 2 apply list_elem_of_further. by apply list_elem_of_here.
  - done.
  - left. by vm_compute.
  - exists g. split; [exact Hg|]. apply Hd. by vm_compute; lia.
Defined.

(** A rule on [./src/*] and a path that climbs out of the workspace and in again. *)
Lemma workspace_rule_contained_witness :
  let rule := mkRule RAllow FEdit (Some (lit "./src*")) ModeGlob in
  let path := lit "../proj/src" in
  pattern_matches (AccEdit path) rule (compile_matcher rule) (Some (lit "/home/proj")) = true ∧
  ∃ names, lexical_components (seen_from (lit "/home/proj") path) = lexical_components (lit "/home/proj") ++ (Normal <$> names).
Proof.
  cbv zeta. split; [by vm_compute|].
  apply (@workspace_rule_contained demo_libs (mkRule RAllow FEdit (Some (lit "./src*")) ModeGlob) (lit "./src*") (lit "/home/proj")
           (lit "../proj/src") (AccEdit (lit "../proj/src"))); [by vm_compute| |by vm_compute|by left|by vm_compute].
  intros text Ht. unfold glob_matches_with in Ht. cbn [demo_libs] in Ht. unfold demo_match in Ht.
  rewrite bool_decide_eq_true_2 in Ht by done. destruct text as [|c text]; [done|].
  change (is_absolute (c :: text)) with (c =? SEP). destruct (c =? SEP) eqn:E; [|done]. by apply Z.eqb_eq in E as ->.
Defined.

(** Words keep their spelling: quotes inside a word hide a command from a rule
    that denies it. *)
Lemma spelled_push_evades :
  let cmd := lit "git pu" ++ [DQUOTE; DQUOTE] ++ lit "sh" in
  evaluate_bash_command_gate (policy_new demo_rules) cmd = None ∧
  decode_shell_literal_spelling cmd = Some (lit "git push") ∧
  ∃ reason, evaluate_bash_command_gate (policy_new demo_rules) (lit "git push") = Some (GateReject reason).
Proof. split; [by vm_compute|]. split; [by vm_compute|]. eexists. by vm_compute. Qed.
