(* ===== verification/PermissionRules.v ===== *)
(** The text of a permission rule: its parser
    (src/crates/codegen/intellihelper-workspace/src/permission/rules.rs), its
    printer (intellihelper-shell/src/claude_import.rs), the modes that a file of
    settings names and the rules they stand for (resolution.rs). *)
From S2P Require Import Prelude Str Template ShellSplit ShellPeel PermissionPolicy.

(** * Modes *)

Inductive DefaultPermissionMode : Type := DpDefault | DpAcceptEdits | DpPlan | DpAuto | DpDontAsk | DpBypassPermissions.

Definition mode_from_str (s : rstr) : rstr + DefaultPermissionMode :=
  if word_is "default" s then inr DpDefault
  else if word_is "acceptEdits" s then inr DpAcceptEdits
  else if word_is "plan" s then inr DpPlan
  else if word_is "auto" s then inr DpAuto
  else if word_is "dontAsk" s then inr DpDontAsk
  else if word_is "bypassPermissions" s then inr DpBypassPermissions
  else inl s.

Record DefaultModeEffects : Type := mkEffects { prompt_policy : PromptPolicy; accept_edits : bool; bypass_permissions : bool }.

Definition effects (m : DefaultPermissionMode) : DefaultModeEffects :=
  match m with
  | DpAcceptEdits => mkEffects PromptAsk true false
  | DpBypassPermissions => mkEffects PromptAsk false true
  | DpDefault | DpPlan => mkEffects PromptAsk false false
  | DpDontAsk => mkEffects PromptDeny false false
  | DpAuto => mkEffects PromptAuto false false
  end.

Record SkippedPermission : Type := mkSkipped { sk_rule : rstr; sk_reason : rstr }.

(** The rules, what was skipped, and whether the bypass was blocked. *)
Definition synthetic_rules_for_default_mode (mode : DefaultPermissionMode) (policy_block : option rstr)
    : list PermissionRule * list SkippedPermission * bool :=
  let e := effects mode in
  if bypass_permissions e then
    match policy_block with
    | Some reason => ([], [mkSkipped (lit "defaultMode=bypassPermissions") reason], true)
    | None => ([mkRule RAllow FAny None ModeGlob], [], false)
    end
  else if accept_edits e then ([mkRule RAllow FEdit None ModeGlob], [], false)
  else ([], [], false).

(** * Escapes *)

Definition LPAREN : rchar := 40.
Definition RPAREN : rchar := 41.

(** What stands before a place, from which the backslashes are counted. *)
Fixpoint leading_backslashes (s : rstr) : nat :=
  match s with c :: s => if c =? BACKSLASH then S (leading_backslashes s) else O | [] => O end.
Definition is_unescaped (before : rstr) : bool := Nat.even (leading_backslashes (reverse before)).

(** The text before and behind the place found. *)
Fixpoint first_unescaped_from (target : rchar) (before s : rstr) : option (rstr * rstr) :=
  match s with
  | [] => None
  | c :: s => if (c =? target) && is_unescaped before then Some (before, s) else first_unescaped_from target (before ++ [c]) s
  end.
Definition find_first_unescaped (s : rstr) (target : rchar) : option (rstr * rstr) := first_unescaped_from target [] s.

Fixpoint last_unescaped_from (target : rchar) (before s : rstr) : option (rstr * rstr) :=
  match s with
  | [] => None
  | c :: s =>
      match last_unescaped_from target (before ++ [c]) s with
      | Some found => Some found
      | None => if (c =? target) && is_unescaped before then Some (before, s) else None
      end
  end.
Definition find_last_unescaped (s : rstr) (target : rchar) : option (rstr * rstr) := last_unescaped_from target [] s.

Definition unescape_rule_content (s : rstr) : rstr :=
  if negb (existsb (Z.eqb BACKSLASH) s) then s
  else
    replace [BACKSLASH; BACKSLASH] [BACKSLASH]
      (replace [BACKSLASH; RPAREN] [RPAREN] (replace [BACKSLASH; LPAREN] [LPAREN] s)).

(** * The parser *)

Inductive RuleParseError : Type :=
| UnsupportedToolPrefix (prefix : rstr)
| UnknownToolPrefix (prefix : rstr)
| MalformedRule (detail : rstr).

Definition rule_error_text (e : RuleParseError) : rstr :=
  match e with
  | UnsupportedToolPrefix p => lit "unsupported tool prefix: " ++ p
  | UnknownToolPrefix p => lit "unknown tool prefix: " ++ p
  | MalformedRule d => lit "malformed rule: " ++ d
  end.

Definition tool_name_to_filter (name : rstr) : option ToolFilter :=
  if word_is "Bash" name then Some FBash
  else if one_of ["Read"; "NotebookRead"] name then Some FRead
  else if one_of ["Edit"; "Write"; "NotebookEdit"] name then Some FEdit
  else if word_is "MCPTool" name then Some FMcp
  else if one_of ["Grep"; "Glob"] name then Some FGrep
  else if word_is "WebFetch" name then Some FWebFetch
  else if word_is "WebSearch" name then Some FWebSearch
  else None.

Definition strip_domain_prefix (pattern : rstr) : rstr * PatternMode :=
  match strip_prefix (lit "domain:") pattern with Some domain => (domain, ModeDomain) | None => (pattern, ModeGlob) end.

Definition strip_bash_colon_wildcard (pattern : rstr) : rstr := default pattern (strip_suffix (lit ":*") pattern).

Definition parse_permission_rule (text : rstr) (act : RuleAction) : RuleParseError + PermissionRule :=
  let text := trim text in
  match find_first_unescaped text LPAREN with
  | Some (prefix, content_and_close) =>
      let prefix_trimmed := trim prefix in
      match find_last_unescaped content_and_close RPAREN with
      | None => inl (MalformedRule (lit "missing closing parenthesis"))
      | Some (content, _) =>
          let raw_content := trim content in
          let pattern := if is_empty raw_content || word_is "*" raw_content then [] else unescape_rule_content raw_content in
          match tool_name_to_filter prefix_trimmed with
          | Some tool =>
              let pattern := if bool_decide (tool = FBash) then strip_bash_colon_wildcard pattern else pattern in
              let '(pattern, mode) := strip_domain_prefix pattern in
              inr (mkRule act tool (not_empty pattern) mode)
          | None =>
              if word_is "EnterWorktree" prefix_trimmed then inl (UnsupportedToolPrefix prefix_trimmed)
              else inl (UnknownToolPrefix prefix_trimmed)
          end
      end
  | None =>
      match tool_name_to_filter text with
      | Some tool => inr (mkRule act tool None ModeGlob)
      | None => inr (mkRule act FAny (not_empty text) ModeGlob)
      end
  end.

(** * The printer *)

Definition tool_name (t : ToolFilter) : rstr :=
  match t with
  | FAny => [] | FBash => lit "Bash" | FEdit => lit "Edit" | FRead => lit "Read" | FGrep => lit "Grep"
  | FMcp => lit "MCPTool" | FWebFetch => lit "WebFetch" | FWebSearch => lit "WebSearch"
  end.

Definition pattern_text (mode : PatternMode) (p : rstr) : rstr :=
  match mode with ModeDomain => lit "domain:" ++ p | ModeGlob => p end.

Definition format_rule_string (rule : PermissionRule) : rstr :=
  match pattern rule, tool rule with
  | None, FAny => lit "*"
  | Some p, FAny => p
  | None, t => tool_name t
  | Some p, t => tool_name t ++ [LPAREN] ++ pattern_text (pattern_mode rule) p ++ [RPAREN]
  end.

(** * Reading back what is printed *)

(** Backslashes before the characters of a set. *)
Definition escape_in (special : rchar → bool) (s : rstr) : rstr :=
  concat ((λ c, if special c then [BACKSLASH; c] else [c]) <$> s).

Definition is_special (c : rchar) : bool := existsb (Z.eqb c) [BACKSLASH; LPAREN; RPAREN].
Definition escape_rule_content (s : rstr) : rstr := escape_in is_special s.

(** The text of a rule whose pattern may hold any character. *)
Definition rule_text (rule : PermissionRule) : rstr :=
  match pattern rule, tool rule with
  | Some p, FAny => p
  | Some p, t => tool_name t ++ [LPAREN] ++ escape_rule_content (pattern_text (pattern_mode rule) p) ++ [RPAREN]
  | None, FAny => lit "*"
  | None, t => tool_name t
  end.

(** The rules that a text can say: no blanks at the ends, and none of the
    spellings that stand for something else. *)
Definition sayable (rule : PermissionRule) : bool :=
  let is_glob := bool_decide (pattern_mode rule = ModeGlob) in
  match pattern rule, tool rule with
  | None, FAny => false
  | None, _ => is_glob
  | Some p, FAny =>
      is_glob && negb (is_empty p) && bool_decide (trim p = p) && negb (existsb (Z.eqb LPAREN) p)
      && bool_decide (tool_name_to_filter p = None)
  | Some p, t =>
      let content := pattern_text (pattern_mode rule) p in
      negb (is_empty p) && bool_decide (trim content = content) && negb (word_is "*" content)
      && negb (is_glob && starts_with (lit "domain:") p)
      && negb (bool_decide (t = FBash) && ends_with (lit ":*") content)
  end.

Definition plain_pattern (rule : PermissionRule) : bool :=
  match pattern rule with Some p => negb (existsb is_special p) | None => true end.

Lemma escape_cons f c s : escape_in f (c :: s) = (if f c then [BACKSLASH; c] else [c]) ++ escape_in f s.
Proof. done. Qed.

Lemma escape_app f s s' : escape_in f (s ++ s') = escape_in f s ++ escape_in f s'.
Proof. unfold escape_in. by rewrite fmap_app, concat_app. Qed.

Lemma escape_head f t s : f t = true → t ≠ BACKSLASH → strip_prefix [t] (escape_in f s) = None.
Proof.
  intros Ht Hb. destruct s as [|c s]; [done|]. rewrite escape_cons. destruct (f c) eqn:E; cbn.
  - by rewrite (proj2 (Z.eqb_neq _ _) Hb).
  - destruct (Z.eqb_spec t c) as [->|]; [congruence|done].
Qed.

(** One replacement takes one character out of the set. *)
Lemma unescape_one f t s :
  f t = true → f BACKSLASH = true → t ≠ BACKSLASH →
  replace [BACKSLASH; t] [t] (escape_in f s) = escape_in (λ c, f c && negb (c =? t)) s.
Proof.
  intros Ht Hb Hn. induction s as [|c s IH]; [done|]. rewrite !escape_cons.
  destruct (Z.eqb_spec c t) as [->|Hct]; cbn [negb].
  - rewrite Ht. cbn [andb app]. rewrite replace_step by done. cbn [strip_prefix]. by rewrite !Z.eqb_refl, IH.
  - rewrite andb_true_r. destruct (f c) eqn:Hf; cbn [app].
    + rewrite replace_step by done. cbn [strip_prefix]. rewrite Z.eqb_refl, (proj2 (Z.eqb_neq t c)) by congruence.
      f_equal. rewrite replace_step by done. cbn [strip_prefix]. destruct (Z.eqb_spec BACKSLASH c) as [<-|]; [|by rewrite IH].
      pose proof (escape_head f t s Ht Hn) as Hh. cbn [strip_prefix] in Hh. revert IH Hh.
      destruct (escape_in f s) as [|d r]; intros IH Hh; [by rewrite IH|]. destruct (t =? d); [done|]. by rewrite IH.
    + rewrite replace_step by done. cbn [strip_prefix]. destruct (Z.eqb_spec BACKSLASH c) as [<-|]; [congruence|]. by rewrite IH.
Qed.

Lemma unescape_backslash f s :
  (∀ c, f c = (c =? BACKSLASH)) → replace [BACKSLASH; BACKSLASH] [BACKSLASH] (escape_in f s) = s.
Proof.
  intros Hf. induction s as [|c s IH]; [done|]. rewrite escape_cons, Hf. destruct (Z.eqb_spec c BACKSLASH) as [->|Hc]; cbn [app];
    (rewrite replace_step by done); cbn [strip_prefix].
  - rewrite Z.eqb_refl. cbn [app]. by rewrite IH.
  - rewrite (proj2 (Z.eqb_neq BACKSLASH c)) by congruence. by rewrite IH.
Qed.

Lemma escape_plain s : existsb is_special s = false → escape_rule_content s = s.
Proof.
  unfold escape_rule_content. induction s as [|c s IH]; [done|]. cbn [existsb]. intros [Hc Hs]%orb_false_iff.
  by rewrite escape_cons, Hc, IH.
Qed.

Lemma escape_backslash s : existsb (Z.eqb BACKSLASH) (escape_rule_content s) = false → existsb is_special s = false.
Proof.
  unfold escape_rule_content. induction s as [|c s IH]; [done|]. rewrite escape_cons, existsb_app, orb_false_iff. intros [Hc Hs].
  cbn [existsb]. rewrite IH by done. by destruct (is_special c).
Qed.

Lemma unescape_escape s : unescape_rule_content (escape_rule_content s) = s.
Proof.
  unfold unescape_rule_content. destruct (existsb (Z.eqb BACKSLASH) _) eqn:E; cbn [negb].
  - unfold escape_rule_content. rewrite (unescape_one _ LPAREN), (unescape_one _ RPAREN) by done. apply unescape_backslash. intros c.
    unfold is_special. cbn. destruct (Z.eqb_spec c BACKSLASH) as [->|]; [done|].
    destruct (Z.eqb_spec c LPAREN), (Z.eqb_spec c RPAREN); done.
  - apply escape_plain. by apply escape_backslash.
Qed.

(** ** Places *)

Lemma unescaped_escape s : is_unescaped (escape_rule_content s) = true.
Proof.
  unfold is_unescaped, escape_rule_content. induction s as [|c s IH] using rev_ind; [done|]. rewrite escape_app, reverse_app.
  assert (reverse (escape_in is_special [c]) = c :: (if is_special c then [BACKSLASH] else [])) as ->
    by (unfold escape_in; cbn [fmap list_fmap concat]; by destruct (is_special c)).
  cbn [app leading_backslashes]. destruct (Z.eqb_spec c BACKSLASH) as [->|]; [|done]. exact IH.
Qed.

Lemma find_last_end before s t : is_unescaped (before ++ s) = true → last_unescaped_from t before (s ++ [t]) = Some (before ++ s, []).
Proof.
  revert before. induction s as [|c s IH]; intros before H; cbn.
  - rewrite app_nil_r in *. by rewrite Z.eqb_refl, H.
  - rewrite IH; [by rewrite <- app_assoc|by rewrite <- app_assoc].
Qed.

Lemma find_first_absent t before s : existsb (Z.eqb t) s = false → first_unescaped_from t before s = None.
Proof.
  revert before. induction s as [|c s IH]; intros before; cbn; [done|]. intros [Hc Hs]%orb_false_iff.
  rewrite Z.eqb_sym, Hc. by apply IH.
Qed.

Lemma find_first_tool t rest : t ≠ FAny → find_first_unescaped (tool_name t ++ LPAREN :: rest) LPAREN = Some (tool_name t, rest).
Proof. by destruct t. Qed.

Lemma tool_name_spec t : t ≠ FAny → tool_name_to_filter (tool_name t) = Some t ∧ trim (tool_name t) = tool_name t.
Proof. by destruct t. Qed.

(** ** Blanks *)

Lemma trimmed_head s c : trim s = s → head s = Some c → is_whitespace c = false.
Proof.
  intros Ht Hh. destruct s as [|d s]; [done|]. injection Hh as ->. destruct (is_whitespace c) eqn:E; [|done]. exfalso.
  apply (f_equal length) in Ht. unfold trim, trim_end in Ht. rewrite length_reverse in Ht.
  pose proof (trim_start_length (reverse (trim_start (c :: s)))) as H1. rewrite length_reverse in H1. cbn [trim_start] in H1, Ht.
  rewrite E in H1, Ht. pose proof (trim_start_length s). cbn in Ht. lia.
Qed.

Lemma escape_last s : last (escape_rule_content s) = last s.
Proof.
  destruct s as [|c s _] using rev_ind; [done|]. unfold escape_rule_content. rewrite escape_app, last_snoc. 
  assert (∃ x, escape_in is_special [c] = x ++ [c]) as [x ->]
    by (unfold escape_in; cbn [fmap list_fmap concat]; destruct (is_special c); [by exists [BACKSLASH]|by exists []]).
  by rewrite app_assoc, last_snoc.
Qed.

Lemma escape_trimmed s : trim s = s → trim (escape_rule_content s) = escape_rule_content s.
Proof.
  intros Ht. destruct s as [|c s]; [done|]. destruct (last (c :: s)) as [b|] eqn:Hl; [|by apply last_None in Hl].
  pose proof (trimmed_head _ c Ht eq_refl) as Hc. pose proof (trimmed_last _ _ Ht Hl) as Hb.
  apply (trim_ends _ (if is_special c then BACKSLASH else c) b); [|by destruct (is_special c)|by rewrite escape_last|done].
  unfold escape_rule_content. rewrite escape_cons. by destruct (is_special c).
Qed.

Lemma tool_text_trimmed t x : t ≠ FAny → trim (tool_name t ++ LPAREN :: x ++ [RPAREN]) = tool_name t ++ LPAREN :: x ++ [RPAREN].
Proof.
  intros Ht. assert (∃ a, head (tool_name t) = Some a ∧ is_whitespace a = false) as (a & Ha & Hw) by (destruct t; [done|by eexists..]).
  apply (trim_ends _ a RPAREN); [by rewrite head_app, Ha|done| |done].
  change (LPAREN :: x ++ [RPAREN]) with ((LPAREN :: x) ++ [RPAREN]). by rewrite app_assoc, last_snoc.
Qed.

(** A text with a tool and an escaped content. *)
Lemma parse_tool_text t content act :
  t ≠ FAny → trim content = content → content ≠ [] → word_is "*" content = false →
  parse_permission_rule (tool_name t ++ LPAREN :: escape_rule_content content ++ [RPAREN]) act =
  let '(p, m) := strip_domain_prefix (if bool_decide (t = FBash) then strip_bash_colon_wildcard content else content) in
  inr (mkRule act t (not_empty p) m).
Proof.
  intros Ht Htr Hne Hstar. unfold parse_permission_rule. rewrite tool_text_trimmed, find_first_tool by done.
  unfold find_last_unescaped. rewrite (find_last_end []) by apply unescaped_escape. cbn [app].
  destruct (tool_name_spec t Ht) as [Hf ->]. rewrite Hf, escape_trimmed by done.
  assert (is_empty (escape_rule_content content) || word_is "*" (escape_rule_content content) = false) as ->.
  { apply orb_false_iff. split.
    - destruct (escape_rule_content content) eqn:E; [|done]. exfalso. apply Hne. by rewrite <- (unescape_escape content), E.
    - unfold word_is in *. apply bool_decide_eq_false. intros E. apply bool_decide_eq_false in Hstar. apply Hstar.
      by rewrite <- (unescape_escape content), E. }
  by rewrite unescape_escape.
Qed.

(** What is printed is read back.  The text of a rule, with a backslash
    before every backslash and parenthesis of its pattern, is parsed to that
    rule, whatever characters the pattern holds; and for a pattern that holds
    none of the three this is the text that [format_rule_string] writes when
    rules are imported. *)
Theorem rule_text_round_trip rule :
  sayable rule = true →
  parse_permission_rule (rule_text rule) (action rule) = inr rule ∧
  (plain_pattern rule = true → format_rule_string rule = rule_text rule).
Proof.
  destruct rule as [act t p m]. unfold sayable, rule_text, plain_pattern, format_rule_string. cbn [pattern tool pattern_mode action].
  destruct p as [p|].
  2:{ destruct t, m; cbn; intros H; try discriminate H; (split; [by vm_compute|done]). }
  intros H. destruct (decide (t = FAny)) as [->|Ht].
  - rewrite !andb_true_iff in H. destruct H as ((((Hg & Hp) & Htr) & Hl) & Hn). apply bool_decide_eq_true in Hg as ->.
    apply bool_decide_eq_true in Htr, Hn. apply negb_true_iff in Hp, Hl. split; [|done].
    unfold parse_permission_rule. rewrite Htr. unfold find_first_unescaped. rewrite find_first_absent by done. rewrite Hn.
    unfold not_empty. by rewrite Hp.
  - set (content := pattern_text m p) in *.
    assert (negb (is_empty p) && bool_decide (trim content = content) && negb (word_is "*" content)
      && negb (bool_decide (m = ModeGlob) && starts_with (lit "domain:") p)
      && negb (bool_decide (t = FBash) && ends_with (lit ":*") content) = true) as Hs by (by destruct t). clear H.
    rewrite !andb_true_iff in Hs. destruct Hs as ((((Hp & Htr) & Hstar) & Hd) & Hc).
    apply negb_true_iff in Hp, Hstar, Hd, Hc. apply bool_decide_eq_true in Htr. split.
    + match goal with |- parse_permission_rule ?x _ = _ =>
        assert (x = tool_name t ++ LPAREN :: escape_rule_content content ++ [RPAREN]) as -> by (by destruct t) end.
      rewrite parse_tool_text by (done || unfold content; destruct m, p; done).
      assert ((if bool_decide (t = FBash) then strip_bash_colon_wildcard content else content) = content) as ->.
      { destruct (bool_decide (t = FBash)); [|done]. cbn [andb] in Hc. unfold strip_bash_colon_wildcard, strip_suffix.
        unfold ends_with, starts_with in Hc. by destruct (strip_prefix (reverse (lit ":*")) (reverse content)). }
      assert (strip_domain_prefix content = (p, m)) as ->.
      { unfold strip_domain_prefix, content. destruct m; cbn [pattern_text].
        - cbn [andb bool_decide] in Hd. unfold starts_with in Hd. rewrite bool_decide_eq_true_2 in Hd by done. by destruct (strip_prefix _ p).
        - by rewrite (proj2 (strip_prefix_spec (lit "domain:") _ p) eq_refl). }
      unfold not_empty. by rewrite Hp.
    + intros Hpl. apply negb_true_iff in Hpl.
      assert (escape_rule_content content = content) as He.
      { apply escape_plain. unfold content. destruct m; [done|]. cbn [pattern_text]. by rewrite existsb_app, Hpl. }
      destruct t; [done|..]; by rewrite He.
Qed.

Lemma rule_text_round_trip_witness :
  let rule := mkRule RDeny FRead (Some (lit "notes (old)" ++ [BACKSLASH])) ModeGlob in
  parse_permission_rule (rule_text rule) RDeny = inr rule ∧
  rule_text rule = lit "Read(notes " ++ [BACKSLASH; LPAREN] ++ lit "old" ++ [BACKSLASH; RPAREN; BACKSLASH; BACKSLASH; RPAREN].
Proof.
  cbv zeta. split; [|by vm_compute].
  apply (rule_text_round_trip (mkRule RDeny FRead (Some (lit "notes (old)" ++ [BACKSLASH])) ModeGlob)). by vm_compute.
Defined.

(** ** What [format_rule_string] does not keep *)

(** A rule that denies reading is lost: its text is no rule. *)
Lemma format_loses_rule :
  let text := lit "Read(old" ++ [BACKSLASH; BACKSLASH; RPAREN] in
  ∃ rule, parse_permission_rule text RDeny = inr rule ∧
    parse_permission_rule (format_rule_string rule) RDeny = inl (MalformedRule (lit "missing closing parenthesis")).
Proof. exists (mkRule RDeny FRead (Some (lit "old" ++ [BACKSLASH])) ModeGlob). split; vm_compute; reflexivity. Qed.

(** A rule that allows is widened. *)
Lemma format_widens_rule :
  parse_permission_rule (lit "Bash(make:*:*)") RAllow = inr (mkRule RAllow FBash (Some (lit "make:*")) ModeGlob) ∧
  parse_permission_rule (format_rule_string (mkRule RAllow FBash (Some (lit "make:*")) ModeGlob)) RAllow
    = inr (mkRule RAllow FBash (Some (lit "make")) ModeGlob).
Proof. split; vm_compute; reflexivity. Qed.

(** The rule for everything comes back with a pattern that matches everything. *)
Lemma format_catchall `{!PolicyLibs} act access m cwd :
  ∃ rule, parse_permission_rule (format_rule_string (mkRule act FAny None ModeGlob)) act = inr rule ∧
    tool rule = FAny ∧ pattern_matches access rule m cwd = true.
Proof. eexists. split; [by vm_compute|]. by destruct access. Qed.
