(* ===== verification/ShellAccessThms.v ===== *)
(** What the gate on files reaches: every file that a script, or a script given
    to a shell inside it, redirects or names to a program it knows. *)
From S2P Require Import Prelude Str Path ShellSplit ShellPeel PermissionPolicy PermissionThms ShellAccess.

Section thms.
Context `{!PolicyLibs} `{!ShellParser} `{!ShellFs}.

(** * Which files a script opens *)

(** The directory of an invocation is not known. *)
Definition invocation_unpinned (s : rstr) (u : bool) (tree : Tree) (iv : ShellInvocation) : bool :=
  u || cwd_unpinned_before (cwd_poison_positions (root_node tree) s) (iv_start iv) (iv_scope iv)
  || p_has_chdir (unwrap_invocation_checked iv).2.

(** [enters_file d s u t u']: [t] is the script [s], or is given to a shell [d]
    scripts deep in it, to be run in a directory that is not known if [u']. *)
Inductive enters_file : nat → rstr → bool → rstr → bool → Prop :=
| EnterHere s u : enters_file 0 s u s u
| EnterInline d s u tree iv index inner t u' :
    try_parse_shell s = Some tree → iv ∈ shell_command_invocations (root_node tree) s →
    shell_dash_c_script (unwrap_invocation_checked iv).1 = InlineLiteral index →
    (unwrap_invocation_checked iv).1 !! index = Some (Literal inner) →
    enters_file d inner (invocation_unpinned s u tree iv) t u' → enters_file (S d) s u t u'.

(** A redirect, or a word of a program that is known, names a file. *)
Inductive names_file (s : rstr) (u : bool) : rstr → ShellFileMode → bool → Prop :=
| NameRedirect tree rd token :
    try_parse_shell s = Some tree → rd ∈ shell_redirect_targets (root_node tree) s → rd_path rd = Some token →
    names_file s u token (rd_mode rd)
      (u || cwd_unpinned_before (cwd_poison_positions (root_node tree) s) (rd_start rd) (rd_scope rd))
| NameOperand tree iv program rest token mode :
    try_parse_shell s = Some tree → iv ∈ shell_command_invocations (root_node tree) s →
    (unwrap_invocation_checked iv).1 = Literal program :: rest →
    one_of ["cd"; "pushd"; "popd"] (program_lower program) = false →
    (token, mode) ∈ (named_files (program_lower program) (literal_words (unwrap_invocation_checked iv).1)).1 →
    names_file s u token mode (invocation_unpinned s u tree iv).

Section gate.
Context (rules : list PermissionRule) (cwd : rstr).
Let cp : CompiledPolicy := policy_new rules.

(** The paths that a name is judged by, each with the directory that rules on
    relative paths are anchored at. *)
Definition judged_as (token : rstr) (unpinned : bool) (path : rstr) : Prop :=
  let spelled := normalize_shell_path token in
  let absolute := is_absolute_shell_path spelled in
  path = spelled
  ∨ (unpinned && negb absolute = false ∧
      (path = (if absolute then spelled else normalize_shell_path (path_join cwd spelled))
       ∨ ∃ raw, raw = normalize_shell_path_raw token ∧
           resolve_symlink_target (if is_absolute_shell_path raw then raw else normalize_shell_path_raw (path_join cwd raw)) = Some path
           ∧ (is_absolute_shell_path raw = true ∨ unpinned = false))).

Definition rule_dir (token : rstr) (unpinned : bool) : option rstr :=
  if is_absolute_shell_path (normalize_shell_path token) || negb unpinned then Some cwd else None.

Definition severity (a : RuleAction) : Z := match a with RDeny => 3 | RAsk => 2 | RAllow => 0 end.

Lemma rank_file_rule dir access r :
  r ∈ rules → matches_access access dir r = true → severity (action r) ≤ rank (escalate_file cp dir access).
Proof.
  intros Hr Hm. unfold escalate_file, cp. rewrite evaluate_verdict. unfold verdict. generalize MAX_INLINE_SHELL_DEPTH. intros n.
  pose proof (matched_nil RDeny access dir rules) as Hnil.
  destruct (matched RDeny access dir rules) as [|r0 l]; [|by destruct (action r)].
  destruct (action r) eqn:Ha; [apply rank_nonneg| |].
  - assert (found RDeny access dir rules = true) by (apply found_spec; by exists r). rewrite (proj1 Hnil eq_refl) in *. done.
  - assert (found RAsk access dir rules = true) as -> by (apply found_spec; by exists r). done.
Qed.

Lemma rank_path token mode unpinned path r :
  r ∈ rules → judged_as token unpinned path → matches_access (shell_access mode path) (rule_dir token unpinned) r = true →
  severity (action r) ≤ rank (evaluate_shell_path cp cwd token mode unpinned).
Proof.
  intros Hr Hj Hm. pose proof (rank_file_rule _ _ r Hr Hm) as Hrank. unfold evaluate_shell_path. fold (rule_dir token unpinned).
  rewrite !rank_combine. destruct Hj as [->|[Hpin Hj]]; [lia|]. rewrite Hpin. rewrite rank_combine.
  destruct Hj as [->|(raw & -> & Hres & Habs)]; [lia|].
  set (raw_absolute := if is_absolute_shell_path (normalize_shell_path_raw token) then Some (normalize_shell_path_raw token)
                       else if unpinned then None else Some (normalize_shell_path_raw (path_join cwd (normalize_shell_path_raw token)))).
  assert (raw_absolute = Some (if is_absolute_shell_path (normalize_shell_path_raw token) then normalize_shell_path_raw token
                               else normalize_shell_path_raw (path_join cwd (normalize_shell_path_raw token)))) as ->.
  { unfold raw_absolute. destruct (is_absolute_shell_path (normalize_shell_path_raw token)); [done|]. destruct Habs as [Habs|Habs]; [done|by rewrite Habs]. }
  cbn [mbind option_bind]. rewrite Hres. case_bool_decide as Heq; [subst path; lia|lia].
Qed.

(** * What a script calls for *)

Local Notation inner := (evaluate_shell_file_access_inner cp cwd).

Definition deeper_file (depth : nat) : option (rstr → bool → option GateDecision) :=
  match depth with O => None | S depth => Some (λ t unpinned, inner depth t unpinned true) end.

Lemma inner_eq depth s u entered :
  inner depth s u entered =
  match try_parse_shell s with
  | None => fail_closed_if entered
  | Some tree =>
      let changes := cwd_poison_positions (root_node tree) s in
      let redirects := shell_redirect_targets (root_node tree) s in
      let judged := evaluate_invocation cp cwd (deeper_file depth) (has_error tree) u changes
                      <$> shell_command_invocations (root_node tree) s in
      combine_gate_decisions (combine_all ((evaluate_redirect cp cwd u changes <$> redirects) ++ (fst <$> judged)))
        (fail_closed_if ((entered && has_error tree) || existsb rd_ambiguous redirects || existsb snd judged))
  end.
Proof. by destruct depth. Qed.

Lemma rank_forced (b : bool) : rank (fail_closed_if b) = if b then 1 else 0.
Proof. by destruct b. Qed.

Lemma rank_redirect depth s u entered tree rd :
  try_parse_shell s = Some tree → rd ∈ shell_redirect_targets (root_node tree) s →
  rank (evaluate_redirect cp cwd u (cwd_poison_positions (root_node tree) s) rd) ≤ rank (inner depth s u entered).
Proof.
  intros Hs Hrd. rewrite inner_eq, Hs. cbn zeta. rewrite rank_combine.
  pose proof (rank_all ((evaluate_redirect cp cwd u (cwd_poison_positions (root_node tree) s) <$> shell_redirect_targets (root_node tree) s)
    ++ (fst <$> (evaluate_invocation cp cwd (deeper_file depth) (has_error tree) u (cwd_poison_positions (root_node tree) s)
                   <$> shell_command_invocations (root_node tree) s)))
    (evaluate_redirect cp cwd u (cwd_poison_positions (root_node tree) s) rd)) as Hall.
  etransitivity; [apply Hall|apply Z.le_max_l]. apply elem_of_app. left. by apply list_elem_of_fmap_2.
Qed.

Lemma rank_invocation depth s u entered tree iv :
  try_parse_shell s = Some tree → iv ∈ shell_command_invocations (root_node tree) s →
  let r := evaluate_invocation cp cwd (deeper_file depth) (has_error tree) u (cwd_poison_positions (root_node tree) s) iv in
  rank r.1 ≤ rank (inner depth s u entered) ∧ (r.2 = true → 1 ≤ rank (inner depth s u entered)).
Proof.
  intros Hs Hiv r. rewrite inner_eq, Hs. cbn zeta. rewrite rank_combine, rank_forced.
  set (judged := evaluate_invocation cp cwd (deeper_file depth) (has_error tree) u (cwd_poison_positions (root_node tree) s)
                   <$> shell_command_invocations (root_node tree) s).
  assert (r ∈ judged) as Hr by (by apply list_elem_of_fmap_2). split.
  - etransitivity; [|apply Z.le_max_l]. apply rank_all, elem_of_app. right. by apply list_elem_of_fmap_2.
  - intros H2. assert (existsb snd judged = true) as -> by (apply existsb_elem; eauto). rewrite orb_true_r. lia.
Qed.

(** The files of an invocation, and the script it is given. *)
Lemma invocation_files deeper failed s u tree iv program rest pm :
  (unwrap_invocation_checked iv).1 = Literal program :: rest →
  one_of ["cd"; "pushd"; "popd"] (program_lower program) = false →
  pm ∈ (named_files (program_lower program) (literal_words (unwrap_invocation_checked iv).1)).1 →
  rank (evaluate_shell_path cp cwd pm.1 pm.2 (invocation_unpinned s u tree iv))
  ≤ rank (evaluate_invocation cp cwd deeper failed u (cwd_poison_positions (root_node tree) s) iv).1.
Proof.
  unfold evaluate_invocation, invocation_unpinned. destruct (unwrap_invocation_checked iv) as [ws norm]. cbn [fst snd]. intros -> Hcd Hpm.
  destruct (match shell_dash_c_script _ with InlineLiteral index => _ | _ => _ end) as [d forced]. rewrite Hcd.
  destruct (named_files _ _) as [files ask]. cbn [fst snd] in *. rewrite rank_foldl. apply foldl_max_ge. right.
  apply list_elem_of_fmap. eexists. split; [reflexivity|]. apply list_elem_of_fmap. by exists pm.
Qed.

Lemma invocation_inline depth failed s u tree iv index t :
  shell_dash_c_script (unwrap_invocation_checked iv).1 = InlineLiteral index →
  (unwrap_invocation_checked iv).1 !! index = Some (Literal t) →
  let r := evaluate_invocation cp cwd (deeper_file depth) failed u (cwd_poison_positions (root_node tree) s) iv in
  match depth with O => r.2 = true | S depth => rank (inner depth t (invocation_unpinned s u tree iv) true) ≤ rank r.1 end.
Proof.
  unfold evaluate_invocation, invocation_unpinned. destruct (unwrap_invocation_checked iv) as [ws norm]. cbn [fst snd]. intros -> Ht.
  destruct depth as [|depth]; cbn [deeper_file]; rewrite ?Ht; destruct ws as [|[program|] rest]; try done;
    (destruct (one_of _ _); [done|]); destruct (named_files _ _) as [files ask]; cbn [fst snd].
  - done.
  - rewrite rank_foldl. apply foldl_max_ge. by left.
Qed.

(** What a script inside calls for, the script around it is given; a script too
    deep makes it ask. *)
Lemma rank_enters_file d s u t u' x :
  enters_file d s u t u' → (∀ k, x ≤ rank (inner k t u' true)) →
  ∀ k e, (d = 0%nat → x ≤ rank (inner k t u' e)) → (if (d <=? k)%nat then x else Z.min x 1) ≤ rank (inner k s u e).
Proof.
  intros He Hx. induction He as [s u|d s u tree iv index sc t u' Hs Hiv Hi Hl He IH]; intros k e He0; [by apply He0|].
  specialize (IH Hx). destruct (rank_invocation k s u e tree iv Hs Hiv) as [Hle Hforced].
  pose proof (invocation_inline k (has_error tree) s u tree iv index sc Hi Hl) as Hin. cbn zeta in Hin.
  destruct k as [|k]; cbn [Nat.leb].
  - specialize (Hforced Hin). lia.
  - specialize (IH k true (λ _, Hx k)). etransitivity; [exact IH|]. etransitivity; [exact Hin|exact Hle].
Qed.

Lemma rank_names_file s u token mode u' k e :
  names_file s u token mode u' → rank (evaluate_shell_path cp cwd token mode u') ≤ rank (inner k s u e).
Proof.
  intros [tree rd token' Hs Hrd Hp|tree iv program rest token' mode' Hs Hiv Hw Hcd Hpm].
  - etransitivity; [|by eapply rank_redirect]. unfold evaluate_redirect. by rewrite Hp.
  - destruct (rank_invocation k s u e tree iv Hs Hiv) as [Hle _]. etransitivity; [|exact Hle].
    by apply (invocation_files (deeper_file k) (has_error tree) s u tree iv program rest (token', mode')).
Qed.

Lemma file_gate_on r : r ∈ rules → restricts r = true → on_files r = true → has_file_restrictions cp = true.
Proof. intros Hr Hres Hf. cbn. apply existsb_elem. exists r. by rewrite Hres, Hf. Qed.

Lemma file_rule_applies mode path dir r : matches_access (shell_access mode path) dir r = true → on_files r = true.
Proof. unfold matches_access, rule_matches, on_files. destruct mode; cbn; by destruct (tool r). Qed.
End gate.

(** C14: A rule that denies or asks reaches every file that a script redirects or
    names to a program known to the gate.  Take
    a script, or one that is given to a shell inside it at any depth; a redirect
    in it or a word of a program that is known to read or write names a file; and
    the rule matches a path that the name stands for: as it is spelled, joined
    to the directory where that is known, or behind the links on the way.  Then
    the gate is not silent; down to the depth it follows, a denial makes it
    reject and a rule to ask is known as one.  A script inside that cannot be
    parsed makes it ask, however deep. *)
Theorem file_gate_reaches rules cwd cmd d t u :
  enters_file d cmd false t u →
  (∀ token mode u' path r,
    names_file t u token mode u' → judged_as cwd token u' path →
    r ∈ rules → restricts r = true → matches_access (shell_access mode path) (rule_dir cwd token u') r = true →
    ∃ g, evaluate_shell_file_access_gate (policy_new rules) cwd cmd = Some g ∧
      ((d ≤ MAX_INLINE_SHELL_DEPTH)%nat → match action r with RDeny => ∃ reason, g = GateReject reason | _ => g ≠ AskFailClosed end))
  ∧ (try_parse_shell t = None → (0 < d)%nat → has_file_restrictions (policy_new rules) = true →
     evaluate_shell_file_access_gate (policy_new rules) cwd cmd ≠ None).
Proof.
  intros He. split.
  - intros token mode u' path r Hn Hj Hr Hres Hm. set (x := severity (action r)).
    assert (∀ k e, x ≤ rank (evaluate_shell_file_access_inner (policy_new rules) cwd k t u e)) as Hx.
    { intros k e. etransitivity; [by eapply rank_path|by apply rank_names_file]. }
    pose proof (rank_enters_file rules cwd d cmd false t u x He (λ k, Hx k true) MAX_INLINE_SHELL_DEPTH false (λ _, Hx _ false)) as Hb.
    unfold evaluate_shell_file_access_gate. rewrite (file_gate_on rules r) by (done || by eapply file_rule_applies). cbn [negb].
    assert (2 ≤ x) as Hx2 by (unfold x, severity, restricts in *; by destruct (action r)).
    destruct (rank_some (evaluate_shell_file_access_inner (policy_new rules) cwd MAX_INLINE_SHELL_DEPTH cmd false false) 1) as (g & Hg & _); [lia| |].
    { destruct (d <=? MAX_INLINE_SHELL_DEPTH)%nat; lia. }
    exists g. split; [exact Hg|]. intros Hd. rewrite Hg in Hb. rewrite (proj2 (Nat.leb_le _ _) Hd) in Hb. cbn [rank] in Hb. unfold x, severity in Hb.
    destruct (action r); [done|by apply rank_three|by intros ->].
  - intros Ht Hd Hon. unfold evaluate_shell_file_access_gate. rewrite Hon. cbn [negb]. intros Hnone.
    assert (∀ k, 1 ≤ rank (evaluate_shell_file_access_inner (policy_new rules) cwd k t u true)) as Hx by (intros k; by rewrite inner_eq, Ht).
    pose proof (rank_enters_file rules cwd d cmd false t u 1 He Hx MAX_INLINE_SHELL_DEPTH false ltac:(lia)) as Hb.
    rewrite Hnone in Hb. cbn [rank] in Hb. destruct (_ <=? _)%nat; lia.
Qed.
End thms.
