(* ===== verification/AccessTargetThms.v ===== *)
(** Domains that may be fetched, and the server of an MCP tool, against what
    their lists and names say. *)
From stdpp Require Import gmap.
From S2P Require Import Prelude Str Path ShellSplit ShellPeel PermissionPolicy PermissionThms ShellAccess AccessTarget.

Lemma among_spec (l : list rstr) t : among l t = true ↔ t ∈ l.
Proof.
  unfold among. rewrite existsb_elem. split.
  - intros (x & Hx & ->%bool_decide_eq_true). done.
  - intros Ht. exists t. by rewrite bool_decide_true.
Qed.

(** * Domains *)

Section domains.
Context `{!PolicyLibs}.

(** What an entry of the list says: a host, and the path it is held to. *)
Definition read_entry (raw : rstr) : option (rstr * option rstr) :=
  let normalized := normalize_domain raw in
  if is_empty normalized then None
  else match split_once SEP normalized with
       | None => Some (normalized, None)
       | Some (host, behind) =>
           let prefix := trim_end_matches (Z.eqb SEP) (SEP :: behind) in
           Some (host, if is_empty prefix then None else Some prefix)
       end.

(** A path at or below a prefix. *)
Definition below (prefix path : rstr) : Prop := path = prefix ∨ ∃ rest, path = prefix ++ SEP :: rest.

(** The entry covers a page of a host. *)
Definition covers (entry : rstr * option rstr) (host path : rstr) : Prop :=
  entry.1 = normalize_domain host ∧ match entry.2 with None => True | Some prefix => below prefix (to_lowercase path) end.

(** The map says what the entries say. *)
Definition represents (es : list (rstr * option rstr)) (m : DomainMatcher) : Prop :=
  ∀ h, match m !! h with
       | Some AnyPath => (h, None) ∈ es
       | Some (PathPrefixes v) => ((h, None) ∉ es) ∧ ∀ p, p ∈ v ↔ (h, Some p) ∈ es
       | None => ∀ o, (h, o) ∉ es
       end.

Lemma add_entry_read m raw :
  add_entry m raw =
  match read_entry raw with
  | None => m
  | Some (h, None) => match split_once SEP (normalize_domain raw), m !! h with
                      | Some _, Some AnyPath => m
                      | _, _ => <[h := AnyPath]> m
                      end
  | Some (h, Some p) =>
      match m !! h with
      | Some AnyPath => m
      | Some (PathPrefixes v) => if among v p then m else <[h := PathPrefixes (v ++ [p])]> m
      | None => <[h := PathPrefixes [p]]> m
      end
  end.
Proof.
  unfold add_entry, read_entry. destruct (is_empty (normalize_domain raw)); [done|].
  destruct (split_once SEP (normalize_domain raw)) as [[h b]|]; [|done].
  destruct (is_empty (trim_end_matches _ _)); by destruct (m !! h) as [[|v]|].
Qed.

Lemma represents_add es m raw :
  represents es m → represents (es ++ option_list (read_entry raw)) (add_entry m raw).
Proof.
  intros Hm. rewrite add_entry_read. unfold represents, DomainMatcher in *. destruct (read_entry raw) as [[h [p|]]|]; cbn [option_list]; [..|by rewrite app_nil_r].
  - intros h'. destruct (decide (h' = h)) as [->|Hne].
    + specialize (Hm h). destruct (m !! h) as [[|v]|] eqn:E.
      * rewrite E. set_solver.
      * destruct (among v p) eqn:Ha; [rewrite E|rewrite lookup_insert_eq]; (split; [set_solver|]); intros q; destruct Hm as [_ Hm].
        -- apply among_spec, Hm in Ha. rewrite Hm. set_solver.
        -- rewrite !elem_of_app, Hm. set_solver.
      * rewrite lookup_insert_eq. set_solver.
    + specialize (Hm h'). assert (∀ m', m' = m ∨ (∃ e, m' = <[h := e]> m) → m' !! h' = m !! h') as Hl.
      { intros m' [->|[e ->]]; [done|]. by apply lookup_insert_ne. }
      rewrite Hl by (destruct (m !! h) as [[|v]|]; [..|eauto]; [eauto|destruct (among v p); eauto]).
      destruct (m !! h') as [[|v]|]; set_solver.
  - intros h'. destruct (decide (h' = h)) as [->|Hne].
    + specialize (Hm h). destruct (split_once SEP (normalize_domain raw)) as [b|], (m !! h) as [[|v]|] eqn:E;
        rewrite ?lookup_insert_eq, ?E; set_solver.
    + specialize (Hm h'). assert (∀ m', m' = m ∨ m' = <[h := AnyPath]> m → m' !! h' = m !! h') as Hl.
      { intros m' [->| ->]; [done|]. by apply lookup_insert_ne. }
      rewrite Hl by (destruct (split_once SEP (normalize_domain raw)) as [b|], (m !! h) as [[|v]|]; eauto).
      destruct (m !! h') as [[|v]|]; set_solver.
Qed.

Lemma represents_new entries : represents (omap read_entry entries) (matcher_new entries).
Proof.
  unfold matcher_new. induction entries as [|raw entries IH] using rev_ind; [intros h; change (foldl add_entry ∅ [] !! h) with ((∅ : gmap rstr HostEntry) !! h); rewrite lookup_empty; set_solver|].
  rewrite foldl_app, omap_app. cbn. apply (represents_add _ _ raw) in IH. by destruct (read_entry raw).
Qed.

Lemma below_test prefix path :
  bool_decide (path = prefix) || match strip_prefix prefix path with Some (c :: _) => c =? SEP | _ => false end = true ↔ below prefix path.
Proof.
  rewrite orb_true_iff, bool_decide_eq_true. unfold below. f_equiv. split.
  - destruct (strip_prefix prefix path) as [[|c rest]|] eqn:E; try done. intros ->%Z.eqb_eq. exists rest. by apply strip_prefix_spec.
  - intros [rest ->]. by rewrite (proj2 (strip_prefix_spec prefix _ (SEP :: rest)) eq_refl).
Qed.

(** A fetch is permitted exactly when some entry of the list covers it: the
    host of the url, normalised, is the host of the entry, and where the entry
    names a path, the path of the url is that path or lies below it at a slash.
    Order, repetition and entries that overlap change nothing, and a url without
    a host is never permitted. *)
Theorem permits_spec entries host path :
  permits (matcher_new entries) host path = true
  ↔ ∃ h raw entry, host = Some h ∧ raw ∈ entries ∧ read_entry raw = Some entry ∧ covers entry h path.
Proof.
  destruct host as [h|]; [|cbn; split; [done|naive_solver]]. cbn [permits].
  pose proof (represents_new entries (normalize_domain h)) as Hm.
  assert (∀ o, (normalize_domain h, o) ∈ omap read_entry entries ↔ ∃ raw, raw ∈ entries ∧ read_entry raw = Some (normalize_domain h, o)) as Hin
    by (intros o; apply list_elem_of_omap).
  assert (∀ b : bool, (b = true ↔ ∃ raw entry, raw ∈ entries ∧ read_entry raw = Some entry ∧ covers entry h path) →
    (b = true ↔ ∃ h' raw entry, Some h = Some h' ∧ raw ∈ entries ∧ read_entry raw = Some entry ∧ covers entry h' path)) as Hb by naive_solver.
  apply Hb. clear Hb. unfold covers. destruct (matcher_new entries !! normalize_domain h) as [[|v]|].
  - apply Hin in Hm as (raw & Hr & He). split; [|done]. intros _. by exists raw, (normalize_domain h, None).
  - destruct Hm as [Hnone Hv]. rewrite existsb_elem. setoid_rewrite below_test. split.
    + intros (p & Hp & Hbelow). apply Hv, Hin in Hp as (raw & Hr & He). by exists raw, (normalize_domain h, Some p).
    + intros (raw & [h' [p|]] & Hr & He & Hh & Hp); cbn in Hh, Hp; subst h'.
      * exists p. split; [|done]. apply Hv, Hin. by exists raw.
      * destruct Hnone. apply Hin. by exists raw.
  - split; [done|]. intros (raw & [h' o] & Hr & He & Hh & _). cbn in Hh. subst h'. destruct (Hm o). apply Hin. by exists raw.
Qed.
End domains.

(** * Servers of MCP tools *)

Lemma delimiters_elem before s a b :
  (a, b) ∈ delimiters before s ↔ ∃ a', a = before ++ a' ∧ s = a' ++ [95; 95] ++ b.
Proof.
  revert before. induction s as [|c s IH]; intros before; cbn [delimiters].
  { split; [by intros ?%elem_of_nil|]. intros (a' & _ & Hs). by destruct a'. }
  assert ((∃ a', a = (before ++ [c]) ++ a' ∧ s = a' ++ [95; 95] ++ b) ↔ ∃ a', a = before ++ c :: a' ∧ c :: s = (c :: a') ++ [95; 95] ++ b) as Hc.
  { split; intros (a' & Ha & Hs); exists a'; (split; [by rewrite Ha, <- ?app_assoc|]); [by rewrite Hs|by injection Hs]. }
  destruct (strip_prefix (lit "__") (c :: s)) as [rest|] eqn:E.
  - apply strip_prefix_spec in E. rewrite elem_of_cons, IH, Hc. split.
    + intros [[= -> ->]|(a' & Ha & Hs)]; [exists []; by rewrite app_nil_r|by exists (c :: a')].
    + intros ([|d a'] & Ha & Hs).
      * left. rewrite app_nil_r in Ha. rewrite E in Hs. apply (inj (app (lit "__"))) in Hs. by subst.
      * injection Hs as <- Hs. right. exists a'. split; [done|]. by rewrite Hs.
  - rewrite IH, Hc. split; [intros (a' & Ha & Hs); by exists (c :: a')|].
    intros ([|d a'] & Ha & Hs).
    + assert (strip_prefix (lit "__") (c :: s) = Some b) as Hb by (by apply strip_prefix_spec). congruence.
    + injection Hs as <- Hs. exists a'. split; [done|]. by rewrite Hs.
Qed.

Lemma delimiters_sorted before s : Forall (λ ab, (length before ≤ length ab.1)%nat) (delimiters before s) ∧ NoDup (delimiters before s).
Proof.
  revert before. induction s as [|c s IH]; intros before; cbn [delimiters]; [by split; constructor|].
  destruct (IH (before ++ [c])) as [Hf Hn]. assert (Forall (λ ab, (length before < length ab.1)%nat) (delimiters (before ++ [c]) s)) as Hlt.
  { eapply Forall_impl; [exact Hf|]. cbn. intros ab. rewrite length_app. cbn. lia. }
  assert (Forall (λ ab, (length before ≤ length ab.1)%nat) (delimiters (before ++ [c]) s)) by (eapply Forall_impl; [exact Hlt|cbn; lia]).
  destruct (strip_prefix _ _) as [rest|]; [|done]. split; [by constructor|]. constructor; [|done].
  intros Hin. rewrite Forall_forall in Hlt. specialize (Hlt _ Hin). cbn in Hlt. lia.
Qed.

(** The server of an MCP tool is read from its name in one way only: the name
    is the server, two underscores and the tool, neither part is empty, the
    characters are those of identifiers, and nowhere else, overlapping places
    included, do two underscores stand.  Two parts joined so are read back as
    they were, and a name that could be cut in two ways has no server, so that
    no grant for a server covers it. *)
Theorem qualified_name_spec name server tool :
  parse_mcp_qualified_name name = Some (server, tool)
  ↔ name = server ++ [95; 95] ++ tool ∧ server ≠ [] ∧ tool ≠ [] ∧ is_well_formed_tool_id name = true
    ∧ ∀ a b, name = a ++ [95; 95] ++ b → a = server.
Proof.
  unfold parse_mcp_qualified_name. assert (∀ a b, (a, b) ∈ delimiters [] name ↔ name = a ++ [95; 95] ++ b) as Hd.
  { intros a b. rewrite delimiters_elem. split; [by intros (a' & -> & Hs)|]. intros Hs. by exists a. }
  destruct (delimiters_sorted [] name) as [_ Hn]. split.
  - destruct (delimiters [] name) as [|[a b] [|? ?]]; try done. destruct (is_empty a) eqn:Ha, (is_empty b) eqn:Hb; try done. cbn [orb].
    destruct (is_well_formed_tool_id name); [|done]. intros [= -> ->].
    split; [apply Hd; by left|]. split; [by intros ->|]. split; [by intros ->|]. split; [done|].
    intros a b Hab%Hd. apply list_elem_of_singleton in Hab. by injection Hab.
  - intros (Hname & Hs & Ht & Hw & Hu). assert (delimiters [] name = [(server, tool)]) as ->.
    { assert (∀ x, x ∈ delimiters [] name → x = (server, tool)) as Hall.
      { intros [a b] Hab%Hd. pose proof (Hu a b Hab) as ->. rewrite Hname in Hab. by apply app_inv_head, app_inv_head in Hab as ->. }
      apply Hd in Hname. destruct (delimiters [] name) as [|x [|y l]]; [by apply elem_of_nil in Hname|by rewrite (Hall x) by left|].
      pose proof (Hall x ltac:(left)). pose proof (Hall y ltac:(right; left)). subst x y.
      apply NoDup_cons in Hn as [Hx _]. destruct Hx. left. }
    rewrite Hw. by destruct server, tool.
Qed.
