(* ===== verification/BashEvalThms.v ===== *)
(** What the evaluation of a script answers, command by command, and the queries
    of git that count as safe. *)
From S2P Require Import Prelude Str Path ShellSplit ShellPeel PermissionPolicy PermissionThms ExecRisk ShellAccess BashRoutine BashEval AccessTargetThms.

(** * Queries of git *)

(** Options before the verb that do not change what runs. *)
Inductive query_globals : list rstr → Prop :=
| GlobalsNil : query_globals []
| GlobalsCwd path gs : query_globals gs → query_globals (lit "-C" :: path :: gs)
| GlobalsOne g gs :
    (is_Some (attached_git_c_path g) ∨ g = lit "--no-pager" ∨ g = lit "-P") → query_globals gs → query_globals (g :: gs).

Lemma word_is_spec s w : word_is s w = true ↔ w = lit s.
Proof. unfold word_is. by rewrite bool_decide_eq_true. Qed.

Lemma starts_dash_lit s : starts_dash (45 :: s) = true.
Proof. done. Qed.

Lemma attached_dash g : is_Some (attached_git_c_path g) → starts_dash g = true ∧ word_is "-" g = false ∧ word_is "--" g = false ∧ word_is "-C" g = false.
Proof.
  unfold attached_git_c_path. intros [r Hr]. destruct (strip_prefix (lit "-C") g) as [rest|] eqn:E; [|done].
  apply strip_prefix_spec in E as ->. cbn in Hr. destruct rest as [|c rest]; [done|]. split; [done|]. unfold word_is.
  repeat split; apply bool_decide_eq_false; done.
Qed.

Lemma query_found globals verb args :
  query_globals globals → starts_dash verb = false → safe_query_from false (globals ++ verb :: args) = Some (verb :: args).
Proof.
  intros Hg Hv. induction Hg as [|path gs _ IH|g gs Hg _ IH].
  - cbn [app safe_query_from]. rewrite Hv. destruct (word_is "-" verb) eqn:E1; [apply word_is_spec in E1 as ->; done|].
    by destruct (word_is "--" verb) eqn:E2; [apply word_is_spec in E2 as ->|].
  - cbn [app]. exact IH.
  - cbn [app safe_query_from]. destruct Hg as [Hg|[->| ->]]; [|exact IH|exact IH].
    pose proof (attached_dash g Hg) as (-> & -> & -> & ->). by destruct Hg as [r ->].
Qed.

Lemma query_shape n toks from :
  (length toks ≤ n)%nat → safe_query_from false toks = Some from →
  ∃ globals verb args, toks = globals ++ verb :: args ∧ from = verb :: args ∧ query_globals globals ∧ starts_dash verb = false.
Proof.
  revert toks. induction n as [|n IH]; intros [|tok rest] Hn; cbn [safe_query_from length] in *; try done; [lia|].
  destruct (word_is "-" tok || word_is "--" tok); [done|]. destruct (starts_dash tok) eqn:Hd; cbn [negb].
  - destruct (word_is "-C" tok) eqn:Hc.
    + apply word_is_spec in Hc as ->. destruct rest as [|path rest]; [done|]. cbn [safe_query_from length] in *. intros Hs.
      destruct (IH rest ltac:(lia) Hs) as (gs & verb & args & -> & -> & Hg & Hv). exists (lit "-C" :: path :: gs), verb, args. by repeat constructor.
    + destruct (is_some_and _ (attached_git_c_path tok) || _ || _) eqn:Hg1; [|done]. intros Hs.
      destruct (IH rest ltac:(lia) Hs) as (gs & verb & args & -> & -> & Hg & Hv). exists (tok :: gs), verb, args.
      split; [done|]. split; [done|]. split; [|done]. apply GlobalsOne; [|done]. rewrite !orb_true_iff in Hg1.
      destruct Hg1 as [[Ha|Hp%word_is_spec]|Hp%word_is_spec]; [|auto..]. left. by destruct (attached_git_c_path tok).
  - intros [= <-]. exists [], tok, rest. by repeat constructor.
Qed.

Lemma query_unsafe_words words :
  heads_git words = true →
  git_words_have_unsafe_query_option words = false
  ↔ (∀ w, w ∈ drop 1 words → git_query_option_is_unsafe w = false)
    ∧ (git_safe_query_verb words = Some (lit "grep") → ∀ w, w ∈ drop 1 words → starts_with (lit "-O") w = false).
Proof.
  intros Hh. unfold git_words_have_unsafe_query_option. rewrite Hh. cbn [negb].
  assert (∀ f : rstr → bool, existsb f (drop 1 words) = false ↔ ∀ w, w ∈ drop 1 words → f w = false) as Hex.
  { intros f. rewrite <- not_true_iff_false, existsb_elem. split.
    - intros Hn w Hw. destruct (f w) eqn:E; [|done]. destruct Hn. eauto.
    - intros Hf (w & Hw & Hfw). by rewrite (Hf w Hw) in Hfw. }
  rewrite <- (Hex git_query_option_is_unsafe). destruct (existsb git_query_option_is_unsafe _); [naive_solver|].
  rewrite andb_false_iff, bool_decide_eq_false, (Hex (starts_with (lit "-O"))).
  destruct (decide (git_safe_query_verb words = Some (lit "grep"))); naive_solver.
Qed.

(** The queries of git that are approved without a question are exactly
    those of one shape: [git] as it is spelled, options before the verb that
    only choose a directory or turn the pager off, a verb of the table, and no
    word behind that abbreviates an option of the table of drivers and writers
    (nor [-O] behind [grep]).  So [-c], [--config-env], [--git-dir],
    [--exec-path] and every option that is not known stand nowhere before the
    verb. *)
Theorem read_only_query_spec words :
  git_words_are_read_only_query words = true
  ↔ ∃ globals verb args,
      words = lit "git" :: globals ++ verb :: args
      ∧ query_globals globals ∧ verb ∈ lit <$> SAFE_GIT_SUBCOMMANDS
      ∧ git_has_exec_risk_global words = false
      ∧ (∀ w, w ∈ globals ++ verb :: args → git_query_option_is_unsafe w = false)
      ∧ (verb = lit "grep" → ∀ w, w ∈ globals ++ verb :: args → starts_with (lit "-O") w = false).
Proof.
  assert (∀ verb, verb ∈ lit <$> SAFE_GIT_SUBCOMMANDS → starts_dash verb = false) as Hsafe.
  { intros verb (s & -> & Hs)%list_elem_of_fmap. revert s Hs. apply Forall_forall. by repeat constructor. }
  assert (∀ verb, one_of SAFE_GIT_SUBCOMMANDS verb = true ↔ verb ∈ lit <$> SAFE_GIT_SUBCOMMANDS) as Hone by (intros; apply among_spec).
  assert (∀ toks, git_safe_query_verb (lit "git" :: toks) = (from ← safe_query_from false toks; head from)) as Hverb by done.
  unfold git_words_are_read_only_query. split.
  - destruct (heads_git words) eqn:Hh; [|done]. cbn [negb]. destruct (git_has_exec_risk_global words) eqn:Hr; [done|].
    destruct words as [|w toks]; [done|]. apply word_is_spec in Hh as Hw. subst w. pose proof (query_unsafe_words (lit "git" :: toks) Hh) as Hu.
    rewrite Hverb in *. destruct (safe_query_from false toks) as [from|] eqn:Hs; [|done]. cbn [mbind option_bind] in *.
    destruct (query_shape _ toks from (le_n _) Hs) as (gs & verb & args & -> & -> & Hg & Hv). cbn [head] in *.
    destruct (one_of SAFE_GIT_SUBCOMMANDS verb) eqn:Ho; [|done]. cbn [negb]. intros Hn%negb_true_iff. apply Hu in Hn as [Hn1 Hn2].
    exists gs, verb, args. split; [done|]. split; [done|]. split; [by apply Hone|]. split; [done|]. split; [exact Hn1|].
    intros ->. by apply Hn2.
  - intros (gs & verb & args & -> & Hg & Hv & -> & Hn1 & Hn2).
    assert (heads_git (lit "git" :: gs ++ verb :: args) = true) as Hh by done. rewrite Hh, Hverb. cbn [negb].
    rewrite (query_found gs verb args Hg (Hsafe _ Hv)). cbn [mbind option_bind head]. rewrite (proj2 (Hone verb) Hv). cbn [negb].
    apply negb_true_iff, query_unsafe_words; [done|]. split; [exact Hn1|]. rewrite Hverb, (query_found gs verb args Hg (Hsafe _ Hv)).
    cbn [mbind option_bind head]. intros [= ->]. by apply Hn2.
Qed.

(** [branch] is of the table with whatever follows it, and [-O] is met only at
    the head of a word. *)
Lemma branch_deletion_is_query : git_words_are_read_only_query (lit <$> ["git"; "branch"; "-D"; "main"]%string) = true.
Proof. vm_compute. reflexivity. Qed.
Lemma clustered_pager_is_query : git_words_are_read_only_query (lit <$> ["git"; "grep"; "-nO./run"; "x"]%string) = true.
Proof. vm_compute. reflexivity. Qed.

(** * A script, command by command *)

Section eval.
Context `{!PolicyLibs} `{!ShellParser}.
Context (st : PermissionState) (honor : bool).

(** One command of a script, by its words. *)
Section command.
Context (raw : list rstr).

Definition inner_words : list rstr := p_words (unwrap_wrappers_checked raw).
Definition command_text : rstr := join [32] inner_words.
Definition sets_up : bool := is_setup_command inner_words.
Definition excluded_by_user : bool := existsb (matches_whitelist_prefix command_text) (disallowed_bash_commands st).
Definition is_granted : bool := granted_by st command_text.
Definition is_special : bool :=
  (special_exec_words inner_words || git_words_have_unsafe_query_option inner_words) && negb (among (allowed_bash_commands st) command_text).
Definition is_listed_safe : bool := honor && (is_safe_command_words inner_words || is_always_safe_command_words inner_words).

(** Nothing is asked about it. *)
Definition passes : bool :=
  sets_up || (negb (is_dangerous_command_words inner_words) && negb is_special && (is_granted || is_listed_safe)).
End command.

Definition stops (c : PlainCommand) : bool := negb (sets_up (words c)) && excluded_by_user (words c).

Lemma find_existsb {A} (f : A → bool) l : existsb f l = is_some_and (λ _, true) (List.find f l).
Proof. induction l as [|x l IH]; [done|]. cbn. by destruct (f x). Qed.

Lemma insert_finding_elem f g a : f ∈ insert_finding g a ↔ f = g ∨ f ∈ a.
Proof. unfold insert_finding, has_finding. case_bool_decide; set_solver. Qed.

Lemma insert_if_elem (b : bool) f g a : f ∈ insert_if b g a ↔ (b = true ∧ f = g) ∨ f ∈ a.
Proof. destruct b; cbn; rewrite ?insert_finding_elem; naive_solver. Qed.

(** What one command adds. *)
Record adds (raw : list rstr) (acc acc' : SegAcc) : Prop := mkAdds {
  add_needs : acc_needs acc' = acc_needs acc ++ if passes raw then [] else [command_text raw];
  add_granted : acc_all_granted acc' = acc_all_granted acc && (sets_up raw || is_granted raw);
  add_kept : ∀ f, f ∈ acc_findings acc → f ∈ acc_findings acc';
  add_risk : exec_risk (segment_exec_facts raw) = true → ExecOrAmbientGit ∈ acc_findings acc';
  add_danger : sets_up raw = false → is_dangerous_command_words (inner_words raw) = true → DangerousCommand ∈ acc_findings acc';
}.

Lemma segment_step_spec raw acc :
  match segment_step st honor raw acc with
  | inl acc' => negb (sets_up raw) && excluded_by_user raw = false ∧ adds raw acc acc'
  | inr _ => negb (sets_up raw) && excluded_by_user raw = true
  end.
Proof.
  unfold segment_step. change (p_words (unwrap_wrappers_checked raw)) with (inner_words raw).
  change (is_setup_command (inner_words raw)) with (sets_up raw). change (join [32] (inner_words raw)) with (command_text raw).
  assert (∀ f, f ∈ acc_findings acc → f ∈ acc_findings (segment_facts raw acc)) as Hkept.
  { intros f Hf. unfold segment_facts. cbn. rewrite !insert_if_elem. tauto. }
  assert (exec_risk (segment_exec_facts raw) = true → ExecOrAmbientGit ∈ acc_findings (segment_facts raw acc)) as Hrisk.
  { intros Hr. unfold segment_facts. cbn. rewrite insert_if_elem. tauto. }
  destruct (sets_up raw) eqn:Hup; cbn [negb andb].
  { split; [done|]. constructor; cbn; unfold passes; rewrite ?Hup, ?app_nil_r, ?andb_true_r; done. }
  pose proof (find_existsb (matches_whitelist_prefix (command_text raw)) (disallowed_bash_commands st)) as Hf.
  fold (excluded_by_user raw) in Hf. destruct (List.find _ _) as [d|]; cbn in Hf; rewrite Hf; [done|].
  fold (is_granted raw) (is_special raw) (is_listed_safe raw).
  assert (∀ s f b, (b = passes raw) → (b = false → s = [command_text raw]) → (b = true → s = []) →
    (is_dangerous_command_words (inner_words raw) = true → f = Some DangerousCommand) →
    ∀ acc', acc_needs acc' = acc_needs acc ++ s → acc_all_granted acc' = acc_all_granted acc && is_granted raw →
    acc_findings acc' = insert_opt f (acc_findings (segment_facts raw acc)) → adds raw acc acc') as Hadd.
  { intros s f b Hb Hs0 Hs1 Hdf acc' Hn Hg Hfi. constructor.
    - rewrite Hn, <- Hb. destruct b; [by rewrite Hs1|by rewrite Hs0].
    - by rewrite Hg, Hup.
    - intros g Hg'. rewrite Hfi. destruct f; cbn; [apply insert_finding_elem; right|]; auto.
    - intros Hr. rewrite Hfi. destruct f; cbn; [apply insert_finding_elem; right|]; auto.
    - intros _ Hd. rewrite Hfi, (Hdf Hd). cbn. apply insert_finding_elem. by left. }
  assert (passes raw = negb (is_dangerous_command_words (inner_words raw)) && negb (is_special raw) && (is_granted raw || is_listed_safe raw)) as Hp
    by (unfold passes; by rewrite Hup).
  destruct (is_dangerous_command_words (inner_words raw)) eqn:Hd; [|destruct (is_special raw) eqn:Hsp; [|destruct (is_granted raw || is_listed_safe raw) eqn:Hok]];
    (split; [done|]).
  - by eapply (Hadd [command_text raw] (Some DangerousCommand) false).
  - by eapply (Hadd [command_text raw] (Some SpecialExecSurface) false).
  - eapply (Hadd [] None true); try done. by rewrite app_nil_r.
  - by eapply (Hadd [command_text raw] None false).
Qed.

Lemma segment_loop_spec segs acc :
  match segment_loop st honor segs acc with
  | inr _ => existsb stops segs = true
  | inl acc' =>
      existsb stops segs = false
      ∧ acc_needs acc' = acc_needs acc ++ ((command_text ∘ words) <$> List.filter (λ c, negb (passes (words c))) segs)
      ∧ acc_all_granted acc' = acc_all_granted acc && forallb (λ c, sets_up (words c) || is_granted (words c)) segs
      ∧ (∀ f, f ∈ acc_findings acc → f ∈ acc_findings acc')
      ∧ (∀ c, c ∈ segs → exec_risk (segment_exec_facts (words c)) = true → ExecOrAmbientGit ∈ acc_findings acc')
      ∧ (∀ c, c ∈ segs → sets_up (words c) = false → is_dangerous_command_words (inner_words (words c)) = true →
           DangerousCommand ∈ acc_findings acc')
  end.
Proof.
  revert acc. induction segs as [|c segs IH]; intros acc; cbn [segment_loop existsb forallb List.filter].
  { rewrite app_nil_r, andb_true_r. split; [done|]. repeat split; try done; intros c Hc; by apply elem_of_nil in Hc. }
  pose proof (segment_step_spec (words c) acc) as Hs. destruct (segment_step st honor (words c) acc) as [acc1|stop]; [|unfold stops at 1; by rewrite Hs].
  destruct Hs as [Hst [Hn Hg Hk Hr Hd]]. specialize (IH acc1). destruct (segment_loop st honor segs acc1) as [acc2|stop]; [|by rewrite IH, orb_true_r].
  destruct IH as (Hst' & Hn' & Hg' & Hk' & Hr' & Hd'). unfold stops at 1. rewrite Hst, Hst'. split; [done|].
  split; [rewrite Hn', Hn, <- app_assoc; by destruct (passes (words c))|]. split; [by rewrite Hg', Hg, andb_assoc|].
  split; [auto|]. split; intros x [->|Hx]%elem_of_cons; eauto.
Qed.

(** The commands of a script that can be taken apart. *)
Definition plain_commands (cmd : rstr) : option (list PlainCommand) :=
  tree ← try_parse_shell cmd; try_parse_word_only_commands_sequence tree cmd.

Lemma existsb_false {A} (f : A → bool) l : existsb f l = false ↔ ∀ x, x ∈ l → f x = false.
Proof.
  rewrite <- not_true_iff_false, existsb_elem. split.
  - intros Hn x Hx. destruct (f x) eqn:E; [|done]. destruct Hn. eauto.
  - intros Hf (x & Hx & Hfx). by rewrite (Hf x Hx) in Hfx.
Qed.

Lemma filter_nil {A} (f : A → bool) l : List.filter (λ x, negb (f x)) l = [] → ∀ x, x ∈ l → f x = true.
Proof.
  induction l as [|y l IH]; [by intros _ x Hx%elem_of_nil|]. cbn. destruct (f y) eqn:E; cbn; [|done].
  intros Hl x [->|Hx]%elem_of_cons; auto.
Qed.

(** The evaluation of a script, by its commands. *)
Lemma evaluate_bash_spec cmd :
  let e := evaluate_bash st honor cmd in
  exact_grant e = among (allowed_bash_commands st) cmd
  ∧ match plain_commands cmd with
    | None => be_segments e = SegUnparseable
    | Some segs =>
        if existsb stops segs then ∃ reason, be_segments e = SegReject reason
        else
          match List.filter (λ c, negb (passes (words c))) segs with
          | [] => ∃ via, be_segments e = SegAutoAllow via
          | asked => be_segments e = SegNeedsPrompts ((command_text ∘ words) <$> asked)
          end
          ∧ all_segments_granted e = forallb (λ c, sets_up (words c) || is_granted (words c)) segs
          ∧ (∀ c, c ∈ segs → exec_risk (segment_exec_facts (words c)) = true → ExecOrAmbientGit ∈ assessment e)
          ∧ (∀ c, c ∈ segs → sets_up (words c) = false → is_dangerous_command_words (inner_words (words c)) = true →
               DangerousCommand ∈ assessment e)
    end
  ∧ ((∀ reason, be_segments e ≠ SegReject reason) → ∀ tree path, try_parse_shell cmd = Some tree →
       path ∈ command_write_paths_in_tree (root_node tree) cmd → is_safe_write_sink path = false → FileWrite ∈ assessment e).
Proof.
  unfold plain_commands, evaluate_bash. destruct (try_parse_shell cmd) as [tree|]; [|split; [done|split; [done|]]; by intros].
  cbn [mbind option_bind]. set (writes := existsb _ (command_write_paths_in_tree _ _)).
  assert (∀ path, path ∈ command_write_paths_in_tree (root_node tree) cmd → is_safe_write_sink path = false → writes = true) as Hw.
  { intros path Hp Hs. apply existsb_elem. exists path. by rewrite Hs. }
  assert (∀ o, writes = true → FileWrite ∈ insert_opt o (insert_if writes FileWrite [])) as Hfile.
  { intros o ->. destruct o; cbn; [apply insert_finding_elem; right|]; set_solver. }
  destruct (try_parse_word_only_commands_sequence tree cmd) as [segs|]; cbn [default].
  - match goal with |- context [segment_loop st honor segs ?a] => set (acc := a) end.
    pose proof (segment_loop_spec segs acc) as Hloop. destruct (segment_loop st honor segs acc) as [acc'|[reason acc']].
    + destruct Hloop as (-> & Hn & Hg & Hk & Hr & Hd). cbn in Hn, Hg. cbn [be_segments exact_grant all_segments_granted assessment]. split; [done|].
      split; [split; [|done]|].
      * rewrite Hn. destruct (List.filter _ segs) as [|c l]; [by eexists|done].
      * intros _ tree' path [= <-] Hp Hs. apply Hk. cbn. apply Hfile. by eapply Hw.
    + rewrite Hloop. cbn. split; [done|]. split; [by exists reason|]. intros Hn. by destruct (Hn reason).
  - cbn. split; [done|]. split; [done|]. intros _ tree' path [= <-] Hp Hs.
    rewrite !insert_if_elem, insert_finding_elem. right. right. right. apply Hfile. by eapply Hw.
Qed.

(** The evaluation after the scan of the repositories. *)
Definition scanned (ambient_risk : bool) (e : BashEvaluation) : BashEvaluation :=
  mkEvaluation (be_segments e) (exact_grant e) (all_segments_granted e) (insert_if ambient_risk ExecOrAmbientGit (assessment e)) None.

Lemma floor_off e f :
  bash_request_floor_requires_prompt (Some e) = false → exact_grant e = false → f ∈ assessment e → is_grant_floor f = false.
Proof.
  unfold bash_request_floor_requires_prompt. intros Hf Hx He. rewrite Hx in Hf. cbn in Hf. exact (proj1 (existsb_false _ _) Hf _ He).
Qed.

(** C15: What a grant has been checked for.  When the grants of a session and the
    lists of safe commands allow a script, no command of it was excluded by the
    user, and either this very script was granted; or the scan for written files
    reports none but the null device and the standard streams, the tables of options
    flag none of its commands as one that can run a program of the repository's
    choosing, the scan of the repositories found nothing, and every command
    passes by itself (sets up the shell; or is neither dangerous nor special, and
    is granted or listed as safe), unless the session allows every command, which
    a pin takes back and the classifier's turn withholds from scripts with a
    dangerous command.  It speaks of what the scans report, not of what a command
    does: they overlook an option inside a cluster, as in sort -ro out in or
    git grep -nO./run, and such a script passes. *)
Theorem grant_covers_script cmd ambient_risk pin opts r :
  bash_grant_pre_decision cmd (scanned ambient_risk (evaluate_bash st honor cmd)) st pin opts = Some (Allow, r) →
  (∀ segs c, plain_commands cmd = Some segs → c ∈ segs → stops c = false)
  ∧ (among (allowed_bash_commands st) cmd = true
     ∨ (ambient_risk = false
        ∧ (∀ tree path, try_parse_shell cmd = Some tree → path ∈ command_write_paths_in_tree (root_node tree) cmd →
             is_safe_write_sink path = true)
        ∧ (∀ segs c, plain_commands cmd = Some segs → c ∈ segs → exec_risk (segment_exec_facts (words c)) = false)
        ∧ ((∃ segs, plain_commands cmd = Some segs ∧ ∀ c, c ∈ segs → passes (words c) = true)
           ∨ (allow_bash_execute st = true ∧ pin = None ∧ bg_allow_blanket opts = true
              ∧ (bg_conservative_blanket opts = true → ∀ segs c, plain_commands cmd = Some segs → c ∈ segs →
                   sets_up (words c) = true ∨ is_dangerous_command_words (inner_words (words c)) = false))))).
Proof.
  pose proof (evaluate_bash_spec cmd) as Hspec. cbn zeta in Hspec. set (e := evaluate_bash st honor cmd) in *. set (e' := scanned ambient_risk e).
  destruct Hspec as (Hexact & Hsegs & Hwrite). unfold bash_grant_pre_decision. change (be_segments e') with (be_segments e).
  change (exact_grant e') with (exact_grant e). intros Hallow.
  assert (∀ reason, be_segments e ≠ SegReject reason) as Hrej by (intros reason E; rewrite E in Hallow; done).
  assert (∀ segs, plain_commands cmd = Some segs → existsb stops segs = false) as Hstops.
  { intros segs Hp. rewrite Hp in Hsegs. destruct (existsb stops segs); [|done]. destruct Hsegs as [reason Hs]. by destruct (Hrej reason). }
  split; [intros segs c Hp Hc; by eapply existsb_false; [apply Hstops|]|].
  rewrite <- Hexact. destruct (exact_grant e) eqn:He; [by left|right].
  assert (bash_request_floor_requires_prompt (Some e') = false) as Hfl.
  { destruct (bash_request_floor_requires_prompt (Some e')); [|done]. by destruct (be_segments e). }
  rewrite Hfl in Hallow. pose proof (λ f, floor_off e' f Hfl He) as Hoff.
  assert (∀ f, f ∈ assessment e → is_grant_floor f = false) as Hoff'.
  { intros f Hf. apply Hoff. cbn. apply insert_if_elem. by right. }
  split; [destruct ambient_risk; [|done]; specialize (Hoff ExecOrAmbientGit); cbn in Hoff; rewrite insert_finding_elem in Hoff; by specialize (Hoff (or_introl eq_refl))|].
  split.
  { intros tree path Hp Hin. destruct (is_safe_write_sink path) eqn:Hs; [done|]. by specialize (Hoff' _ (Hwrite Hrej tree path Hp Hin Hs)). }
  assert (∀ b st' reason, (if (b : bool) then None else allow_if (persisted_bash_auto_allows st' cmd pin) SESSION_GRANT) = Some (Allow, reason) →
    st' = st → allow_bash_execute st = true ∧ pin = None) as Hblanket.
  { intros [] st' reason Hb ->; [done|]. apply allow_if_inv in Hb. unfold persisted_bash_auto_allows in Hb. rewrite <- Hexact, orb_false_r in Hb.
    apply andb_true_iff in Hb as [? Hp]. by destruct pin. }
  destruct (plain_commands cmd) as [segs|] eqn:Hplain.
  - rewrite (Hstops segs eq_refl) in Hsegs. destruct Hsegs as (Hseg & Hall & Hrisk & Hdanger). split.
    { intros segs' c [= <-] Hc. destruct (exec_risk _) eqn:Hr; [|done]. by specialize (Hoff' _ (Hrisk c Hc Hr)). }
    destruct (List.filter _ segs) as [|c0 l] eqn:Hfil; [left; exists segs; split; [done|by apply filter_nil]|]. right.
    rewrite Hseg in Hallow. destruct (bg_allow_blanket opts) eqn:Hb; [|done]. cbn [negb orb] in Hallow.
    destruct (Hblanket _ _ _ Hallow eq_refl) as [? ?]. split; [done|]. split; [done|]. split; [done|]. intros Hc segs' c [= <-] Hin.
    destruct (sets_up (words c)) eqn:Hup; [by left|right]. destruct (is_dangerous_command_words _) eqn:Hd; [|done].
    rewrite Hc in Hallow. cbn [andb] in Hallow. unfold has_finding in Hallow. rewrite bool_decide_true in Hallow; [done|].
    cbn. apply insert_if_elem. right. by apply (Hdanger c).
  - split; [done|]. right. rewrite Hsegs in Hallow. destruct (bg_allow_blanket opts) eqn:Hb; [|done]. cbn [negb] in Hallow.
    destruct (bg_conservative_blanket opts) eqn:Hc; [done|].
    destruct (Hblanket false st _ Hallow eq_refl) as [? ?]. by split; [|split; [|split]].
Qed.
End eval.
