(* ===== verification/PermissionManagerThms.v ===== *)
(** The permission manager: what an answer rests on, which rules no mode sets
    aside, what a session keeps and where its grants come from. *)
From S2P Require Import Prelude Str Truncate Path ShellSplit ShellPeel PermissionPolicy PermissionThms ExecRisk ShellAccess BashRoutine BashEval AccessTarget PermissionManager.

(** * The policy, asked once *)

Section preflight.
Context `{!PolicyLibs} `{!ShellParser} `{!ShellFs}.

(** Some rule or gate rejects; some rule or gate asks. *)
Definition pf_rejects (p : GatePreflight) (reason : rstr) : Prop :=
  direct p = Some (Reject reason) ∨ bash_command p = Some (GateReject reason) ∨ shell_file p = Some (GateReject reason).
Definition pf_asks (p : GatePreflight) : bool := is_ask (direct p) || gate_is_ask (bash_command p) || gate_is_ask (shell_file p).

(** What rules answer is a denial, a question or a permission. *)
Definition from_rules (d : option Decision) : bool :=
  match d with None | Some (Reject _) | Some Ask | Some Allow => true | _ => false end.

Lemma evaluate_from_rules rules a cwd : from_rules (evaluate_with_cwd (policy_new rules) a cwd) = true.
Proof.
  rewrite evaluate_verdict. unfold verdict. generalize MAX_INLINE_SHELL_DEPTH. intros n.
  destruct (matched _ _ _ _); [|done]. destruct (found RAsk _ _ _); [done|]. destruct a; by case_match.
Qed.

Lemma policy_decision_spec p :
  from_rules (direct p) = true →
  match policy_decision p with
  | Some (Reject reason) => pf_rejects p reason
  | Some Ask => (∀ reason, ¬ pf_rejects p reason) ∧ pf_asks p = true
  | Some Allow => (∀ reason, ¬ pf_rejects p reason) ∧ pf_asks p = false ∧ direct p = Some Allow
  | None => (∀ reason, ¬ pf_rejects p reason) ∧ pf_asks p = false ∧ direct p = None
  | Some _ => False
  end.
Proof.
  destruct p as [d b s defers]. unfold pf_rejects, pf_asks, policy_decision. cbn.
  destruct d as [[]|]; try discriminate; intros _; destruct b as [[]|], s as [[]|]; cbn; naive_solver.
Qed.

Lemma rejects_decides p reason :
  from_rules (direct p) = true → pf_rejects p reason → ∃ reason', policy_decision p = Some (Reject reason').
Proof.
  intros Hd Hr. pose proof (policy_decision_spec p Hd) as Hs. destruct (policy_decision p) as [[]|]; naive_solver.
Qed.

Lemma forced_asks p : from_rules (direct p) = true → policy_forced_prompt p = true → pf_asks p = true.
Proof.
  intros Hd. unfold policy_forced_prompt. pose proof (policy_decision_spec p Hd). destruct (policy_decision p) as [[]|]; naive_solver.
Qed.

Lemma not_forced_no_gate p :
  from_rules (direct p) = true → policy_forced_prompt p = false → (∀ reason, ¬ pf_rejects p reason) → pf_asks p = false.
Proof.
  intros Hd. unfold policy_forced_prompt. pose proof (policy_decision_spec p Hd). destruct (policy_decision p) as [[]|]; naive_solver.
Qed.

(** A question is left to the classifier only in auto mode, and only when no
    rule asks it. *)
Lemma defers_no_rule_ask rules a cwd auto :
  let p := preflight_evaluate rules a cwd auto in
  pf_defers_gate_ask p = true →
  auto = true ∧ is_ask (direct p) = false ∧ is_rule_ask (bash_command p) = false ∧ is_rule_ask (shell_file p) = false.
Proof.
  unfold preflight_evaluate. destruct (match rules, a with Some policy, AccBash cmd => _ | _, _ => _ end) as [b s].
  cbn. rewrite !andb_true_iff, negb_true_iff, !orb_false_iff. tauto.
Qed.
End preflight.

(** * How a request is answered *)

Section manager.
Context `{!PolicyLibs} `{!ShellParser} `{!ShellFs} `{!GitLibs} `{!Homes}.
Context (url_path command_json : rstr → rstr) (su : Setup).

Lemma facts_from_rules an rq m : from_rules (direct (preflight (facts_of su an rq m).1)) = true.
Proof.
  unfold facts_of. destruct (scanned_evaluation su an rq (state m)) as [e gone]. cbn.
  unfold preflight_evaluate. destruct (match compiled_policy su, access rq with Some policy, AccBash cmd => _ | _, _ => _ end) as [b s].
  cbn. unfold compiled_policy. destruct (permission_config su); [|done]. apply evaluate_from_rules.
Qed.

Section request.
Context (an : Answers) (rq : Request) (f : Facts).

(** No rule and no gate rejects. *)
Definition unrejected : Prop := ∀ reason, policy_decision (preflight f) ≠ Some (Reject reason).

(** Why auto mode hands a request to the user. *)
Definition forces_prompt (r : Reason) : bool :=
  match r with NEEDS_USER | AUTO_DENIAL_LIMIT | AUTO_CLASSIFIER_TIMEOUT | AUTO_CLASSIFIER_UNAVAILABLE => true | _ => false end.

Definition in_auto (m : Manager) : Prop := auto_mode m = true ∧ admits_auto_classifier (preflight f) = true.

(** The ways a request is answered, as a relation. *)
Inductive answers (m : Manager) : Served → Prop :=
| AnsGone : answers m (requester_gone m)
| AnsDenied reason :
    policy_decision (preflight f) = Some (Reject reason) → answers m (settle m (PolicyDeny reason) false POLICY_DENY)
| AnsYolo :
    unrejected → yolo_mode m = true → shell_forced_prompt (preflight f) = false → answers m (settle m Allow true YOLO)
| AnsGranted d reason :
    unrejected → no_ask_floor f = true →
    session_grant_pre_decision url_path su (access rq) (evaluation f) (state m) (allow_edits_for_session m)
      (negb (auto_mode m && web_fetch_allowlist_is_default su)) = Some (d, reason) →
    answers m (settle m d true reason)
| AnsRuleClear :
    no_ask_floor f = true → policy_decision (preflight f) = Some Allow → answers m (settle m Allow true POLICY_ALLOW)
| AnsFast :
    unrejected → in_auto m → answers m (settle m Allow true AUTO_FAST_PATH)
| AnsClassified :
    unrejected → in_auto m → answers m (settle (set_consecutive 0 m) Allow true AUTO_CLASSIFIER_ALLOW)
| AnsBlocked text :
    unrejected → in_auto m → auto_consecutive_denials m < AUTO_DENY_CONSECUTIVE_LIMIT →
    auto_total_denials m < AUTO_DENY_TOTAL_LIMIT →
    answers m (settle (count_denial m) (PolicyDeny text) false AUTO_CLASSIFIER_DENY)
| AnsSandbox cmd :
    unrejected → access rq = AccBash cmd → policy_forced_prompt (preflight f) = false →
    sandbox_may_auto_allow_bash (evaluation f) (should_auto_allow_bash an) = true →
    answers m (settle m Allow true SANDBOX_AUTO)
| AnsRule :
    policy_decision (preflight f) = Some Allow → protected_edit f = None →
    answers m (settle m Allow true POLICY_ALLOW)
| AnsPre forced d reason :
    unrejected → settled_pre_decision url_path su rq f forced m = Some (d, reason) → answers m (settle m d true reason)
| AnsPromptDenied :
    unrejected → setup_prompt_policy su = PromptDeny →
    answers m (settle m (PolicyDeny (lit "denied by prompt policy (tool not pre-approved)")) false PROMPT_DENY)
| AnsUser forced_by :
    unrejected → (∀ r, forced_by = Some r → forces_prompt r = true) →
    answers m (prompt_user command_json an rq f (trigger_of f forced_by) m).

Lemma auto_stage_answers m s : unrejected → auto_stage an rq f m = inl s → answers m s.
Proof.
  intros Hu. unfold auto_stage. destruct (negb _) eqn:Ha; [discriminate|]. apply negb_false_iff, andb_true_iff in Ha.
  destruct (auto_mode_fast_path _ _ _); [intros [= <-]; by constructor|discriminate|].
  destruct (if has_classifier m then _ else _) as [outcome|]; [|intros [= <-]; constructor].
  destruct (co_verdict outcome); [intros [= <-]; by constructor| |discriminate].
  destruct (_ && _) eqn:Hb; [|discriminate]. apply andb_true_iff in Hb as [Hc Ht]. intros [= <-]. constructor; auto; lia.
Qed.

Lemma auto_stage_forces m forced_by r : auto_stage an rq f m = inr forced_by → forced_by = Some r → forces_prompt r = true.
Proof.
  unfold auto_stage. destruct (negb _); [by intros [= <-]|].
  destruct (auto_mode_fast_path _ _ _); [discriminate|intros [= <-] [= <-]; done|].
  destruct (if has_classifier m then _ else _) as [outcome|]; [|discriminate].
  destruct (co_verdict outcome); [discriminate|destruct (_ && _); [discriminate|]|];
    intros [= <-] [= <-]; [done|by destruct (co_is_timeout outcome)].
Qed.

Lemma rejected_or_not : (∃ reason, policy_decision (preflight f) = Some (Reject reason)) ∨ unrejected.
Proof. unfold unrejected. destruct (policy_decision (preflight f)) as [[]|]; naive_solver. Qed.

Lemma before_classifier_answers m d auto reason :
  unrejected → before_classifier url_path su rq f m = Some (d, auto, reason) → answers m (settle m d auto reason).
Proof.
  intros Hu. unfold before_classifier.
  assert (∀ pd, policy_decision (preflight f) = pd →
    (if yolo_mode m && negb (shell_forced_prompt (preflight f)) then Some (Allow, true, YOLO)
     else match (if no_ask_floor f
                 then session_grant_pre_decision url_path su (access rq) (evaluation f) (state m) (allow_edits_for_session m)
                        (negb (auto_mode m && web_fetch_allowlist_is_default su)) else None) with
          | Some (d, reason) => Some (d, true, reason)
          | None => if auto_mode m && no_ask_floor f && bash_assessment_is_clear (evaluation f) && is_allow pd
                    then Some (Allow, true, POLICY_ALLOW) else None
          end) = Some (d, auto, reason) → answers m (settle m d auto reason)) as Hrest.
  { intros pd Hpd. destruct (_ && negb _) eqn:Hy.
    { apply andb_true_iff in Hy as [Hy Hs]. apply negb_true_iff in Hs. intros [= <- <- <-]. by constructor. }
    destruct (no_ask_floor f) eqn:Hfloor; [|rewrite andb_false_r; by intros ?].
    destruct (session_grant_pre_decision _ _ _ _ _ _ _) as [[d' r']|] eqn:Hg; [intros [= <- <- <-]; by constructor|].
    rewrite andb_true_r. destruct (auto_mode m && _ && _) eqn:Ha; [|by intros ?]. intros [= <- <- <-].
    apply AnsRuleClear; [done|]. rewrite !andb_true_iff in Ha. destruct Ha as [_ Ha]. by destruct pd as [[]|]. }
  destruct (policy_decision (preflight f)) as [[]|] eqn:E; first [by apply Hrest|by destruct (Hu _ E)].
Qed.

Lemma sandbox_and_policy_answers forced m d reason :
  unrejected → sandbox_and_policy an rq f forced = Some (d, reason) → from_rules (direct (preflight f)) = true →
  answers m (settle m d true reason).
Proof.
  intros Hu Hsp Hd. unfold sandbox_and_policy, grant_allow in Hsp. case_match eqn:Hb.
  - rewrite !andb_true_iff, !negb_true_iff in Hb. destruct Hb as [[[Hb Hs] Hf] _]. injection Hsp as <- <-.
    destruct (access rq) eqn:E; try discriminate. by eapply AnsSandbox.
  - pose proof (policy_decision_spec _ Hd) as Hpd. pose proof (λ r, Hu r) as Hu'.
    destruct (policy_decision (preflight f)) as [[]|] eqn:E; try done; [|by destruct (Hu reason0)].
    repeat case_match; try discriminate. injection Hsp as <- <-. apply AnsRule; [done|].
    rewrite !orb_false_iff in *. by destruct (protected_edit f); naive_solver.
Qed.

Lemma serve_known_answers m :
  from_rules (direct (preflight f)) = true → answers m (serve_known url_path command_json su an rq f m).
Proof.
  intros Hd. unfold serve_known. destruct rejected_or_not as [[reason Hr]|Hu].
  { unfold before_classifier. rewrite Hr. by constructor. }
  destruct (before_classifier _ _ _ _ _) as [[[d auto] reason]|] eqn:Hb; [by apply before_classifier_answers|].
  destruct (auto_stage _ _ _ _) as [s|forced_by] eqn:Ha; [by apply auto_stage_answers|].
  destruct (sandbox_and_policy _ _ _ _) as [[d reason]|] eqn:Hs; [by eapply sandbox_and_policy_answers|].
  destruct (settled_pre_decision _ _ _ _ _ _) as [[d reason]|] eqn:Hp; [by eapply AnsPre|].
  assert (∀ r, forced_by = Some r → forces_prompt r = true) by (intros; by eapply auto_stage_forces).
  destruct (setup_prompt_policy su) eqn:Hpol; first [by apply AnsPromptDenied | case_match; [apply AnsGone|by apply AnsUser]].
Qed.
End request.

Lemma serve_answers an rq m :
  answers an rq (facts_of su an rq m).1 m (serve url_path command_json su an rq m).
Proof.
  unfold serve. case_match; [constructor|]. pose proof (facts_from_rules an rq m) as Hd.
  destruct (facts_of su an rq m) as [f gone]. cbn in *. case_match; [constructor|]. by apply serve_known_answers.
Qed.

(** ** Denials *)

Lemma preflight_rejects an rq m policy reason :
  compiled_policy su = Some policy →
  evaluate_with_cwd policy (access rq) (Some (request_cwd su rq)) = Some (Reject reason)
  ∨ (∃ cmd, access rq = AccBash cmd ∧
       (evaluate_bash_command_gate policy cmd = Some (GateReject reason)
        ∨ evaluate_shell_file_access_gate policy (request_cwd su rq) cmd = Some (GateReject reason))) →
  pf_rejects (preflight (facts_of su an rq m).1) reason.
Proof.
  intros Hp Hr. unfold facts_of. destruct (scanned_evaluation su an rq (state m)) as [e gone]. cbn.
  unfold preflight_evaluate, pf_rejects. rewrite Hp. destruct Hr as [Hr|(cmd & Ha & Hr)].
  - destruct (match access rq with AccBash cmd => _ | _ => _ end) as [b s]. by left.
  - rewrite Ha in *. cbn. right. tauto.
Qed.

(** C7: A denial is final.  When a rule that denies matches an access, a command
    of its script or a file its script names, the answer is a refusal by policy
    in every mode of the session (always-approve, auto), whatever was granted,
    whatever classifier, sandbox or user would say, and the manager is left as
    it was; only a requester that has gone away is not answered. *)
Theorem deny_outranks_modes an rq m policy reason :
  compiled_policy su = Some policy →
  evaluate_with_cwd policy (access rq) (Some (request_cwd su rq)) = Some (Reject reason)
  ∨ (∃ cmd, access rq = AccBash cmd ∧
       (evaluate_bash_command_gate policy cmd = Some (GateReject reason)
        ∨ evaluate_shell_file_access_gate policy (request_cwd su rq) cmd = Some (GateReject reason))) →
  let s := serve url_path command_json su an rq m in
  sv_manager s = m ∧
  match sv_reply s with
  | Some d => ∃ reason', d = PolicyDeny reason' ∧ ev_reason (sv_event s) = POLICY_DENY
  | None => ev_reason (sv_event s) = REQUESTER_GONE
  end.
Proof.
  intros Hp Hr. pose proof (facts_from_rules an rq m) as Hd. pose proof (preflight_rejects an rq m policy reason Hp Hr) as Hj.
  destruct (rejects_decides _ _ Hd Hj) as [reason' Hdec]. unfold serve. case_match; [done|].
  destruct (facts_of su an rq m) as [f gone]. cbn in *. case_match; [done|].
  unfold serve_known, before_classifier. rewrite Hdec. cbn. split; [done|]. by exists reason'.
Qed.

(** ** Questions *)

(** The choices of a user that allow. *)
Definition choice_allows (o : PromptOutcome) : bool :=
  match o with
  | RejectOnce | RejectAlwaysBashCommand _ | PromptCancelled | PromptFollowup _ | PromptError _ => false
  | _ => true
  end.

Lemma apply_outcome_allows a o m : (apply_outcome a o m).1.2 = Allow → choice_allows o = true.
Proof. destruct a, o; cbn; done. Qed.

Lemma no_ask_floor_unforced f : no_ask_floor f = true → policy_forced_prompt (preflight f) = false.
Proof. unfold no_ask_floor. rewrite !andb_true_iff, !negb_true_iff. tauto. Qed.

Lemma allow_not_forced f : policy_decision (preflight f) = Some Allow → policy_forced_prompt (preflight f) = false.
Proof. unfold policy_forced_prompt. by intros ->. Qed.

(** What may allow an access although it is to be asked about. *)
Definition waives_ask (rq : Request) (f : Facts) (m : Manager) : Prop :=
  match access rq with
  | AccWebSearch _ => True
  | AccWebFetch url =>
      ∃ host permitted, fetch_target url_path su url = Some (host, permitted) ∧
        (permitted = true ∨ ∃ h, host = Some h ∧ among (allowed_web_fetch_domains (state m)) (normalize_domain h) = true)
  | AccEdit _ => allow_edits_for_session m = true ∧ protected_edit f = None
  | AccMCPTool name =>
      remember_tool_approvals su = true ∧
      (among (allowed_mcp_tools (state m)) name = true ∨ mcp_server_prefix_allowed name (allowed_mcp_servers (state m)) = true)
  | AccBash _ =>
      remember_tool_approvals su = true ∧ shell_file_forced_prompt (preflight f) = false ∧
      ∃ e via, evaluation f = Some e ∧ be_segments e = SegAutoAllow via ∧ all_segments_granted e = true
        ∧ bash_request_floor_requires_prompt (Some e) = false
  | AccRead _ | AccGrep _ _ => False
  end.

Lemma asked_pre_decision rq f forced m r :
  policy_forced_prompt (preflight f) = true → pre_decision url_path su rq f forced m = Some (Allow, r) → waives_ask rq f m.
Proof.
  intros Hf. unfold pre_decision, waives_ask. rewrite Hf. destruct (access rq) as [p|p g|path|cmd|name|url|q]; try done.
  - destruct (allow_edits_for_session m); cbn; [destruct (protected_edit f); cbn; [|done]|]; by destruct (edit_policy (state m)).
  - destruct (bash_request_floor_requires_prompt (evaluation f)) eqn:Hfl; [done|].
    destruct (remember_tool_approvals su && _ && _) eqn:Hc; [|done]. rewrite !andb_true_iff, !negb_true_iff in Hc.
    destruct Hc as [[Hr _] Hs]. destruct (evaluation f) as [e|] eqn:He; [|done]. cbn [mbind option_bind].
    unfold bash_grant_pre_decision. rewrite Hfl. destruct (be_segments e) as [via|reason|segs|] eqn:Hsegs; try done.
    cbn. destruct (all_segments_granted e) eqn:Hall; cbn; [|done]. intros _. split; [done|]. split; [done|]. by exists e, via.
  - unfold mcp_pre_decision. rewrite andb_true_l. destruct (remember_tool_approvals su); cbn; [|done].
    destruct (among _ name); [by split; [|left]|]. destruct (mcp_server_prefix_allowed _ _); [by split; [|right]|done].
  - destruct (fetch_target _ _ _) as [[host permitted]|]; [|done]. cbn. destruct permitted; [intros _; by exists host, true; split; [|left]|].
    destruct host as [h|]; [|done]. cbn. intros Ha%allow_if_inv. exists (Some h), false. split; [done|]. right. by exists h.
Qed.

(** C8: What is to be asked is asked.  When a rule or a gate calls for a question
    and the answer is yes, then either the user was asked and chose so; or the
    session is in always-approve and neither gate on a command's words and files
    asks; or auto mode answered, and then no rule asks: a gate did, for want of
    understanding the command; or a remembered approval covers every command
    (and no file is in question), the tool or its server; or the access is one
    that the code lets past the question: a search of the web, a fetch from a
    domain on the lists, an edit after edits were allowed for the session. *)
Theorem ask_stays_binding an rq m :
  let f := (facts_of su an rq m).1 in
  let s := serve url_path command_json su an rq m in
  policy_forced_prompt (preflight f) = true →
  sv_reply s = Some Allow →
  (ev_user_prompted (sv_event s) = true ∧ choice_allows (prompt an (access rq) (protected_edit f)) = true)
  ∨ (yolo_mode m = true ∧ shell_forced_prompt (preflight f) = false ∧ ev_reason (sv_event s) = YOLO)
  ∨ (auto_mode m = true ∧ is_ask (direct (preflight f)) = false ∧ is_rule_ask (bash_command (preflight f)) = false
     ∧ is_rule_ask (shell_file (preflight f)) = false
     ∧ (ev_reason (sv_event s) = AUTO_FAST_PATH ∨ ev_reason (sv_event s) = AUTO_CLASSIFIER_ALLOW))
  ∨ waives_ask rq f m.
Proof.
  intros f s Hf. pose proof (serve_answers an rq m) as Ha. fold f s in Ha.
  assert (in_auto f m → auto_mode m = true ∧ is_ask (direct (preflight f)) = false ∧ is_rule_ask (bash_command (preflight f)) = false
     ∧ is_rule_ask (shell_file (preflight f)) = false) as Hauto.
  { intros [_ Hadm]. unfold admits_auto_classifier in Hadm. rewrite Hf in Hadm. cbn in Hadm. subst f. revert Hadm. unfold facts_of.
    destruct (scanned_evaluation _ _ _ _). cbn. intros Hadm. by eapply defers_no_rule_ask in Hadm. }
  destruct Ha as [|reason|Hu Hy Hs|d reason Hu Hfl Hg|Hfl Hpd|Hu Hin|Hu Hin|text Hu Hin Hc Ht|cmd Hu Hcmd Hnf Hsb|Hpd Hpr|forced d reason Hu Hpre|Hu Hpol|fb Hu Hfb];
    cbn [sv_reply settle requester_gone]; try discriminate.
  - right. left. auto.
  - by rewrite (no_ask_floor_unforced _ Hfl) in Hf.
  - by rewrite (no_ask_floor_unforced _ Hfl) in Hf.
  - intros _. right. right. left. naive_solver.
  - intros _. right. right. left. naive_solver.
  - congruence.
  - by rewrite (allow_not_forced _ Hpd) in Hf.
  - intros [= ->]. do 3 right. unfold settled_pre_decision in Hpre.
    destruct (pre_decision _ _ _ _ _ _) as [[[] r]|] eqn:Hp; try discriminate. by eapply asked_pre_decision.
  - unfold prompt_user. destruct (apply_outcome _ _ _) as [[m' d] str] eqn:Ho. cbn. intros [= ->]. left. split; [done|].
    apply (apply_outcome_allows (access rq) _ m). by rewrite Ho.
Qed.
End manager.
