(* ===== verification/PermissionSession.v ===== *)
(** The permission manager over a whole session: what it keeps whatever is asked
    of it, and where its grants come from. *)
From S2P Require Import Prelude Str Truncate Path ShellSplit ShellPeel PermissionPolicy PermissionThms ExecRisk ShellAccess BashRoutine BashEval AccessTarget PermissionManager PermissionManagerThms.

Section session.
Context `{!PolicyLibs} `{!ShellParser} `{!ShellFs} `{!GitLibs} `{!Homes}.
Context (url_path command_json : rstr → rstr) (su : Setup).

Local Notation serve := (PermissionManager.serve url_path command_json su).
Local Notation handle := (PermissionManager.handle url_path command_json su).
Local Notation run := (PermissionManager.run url_path command_json su).

(** * Reasons *)

Definition is_classifier_denial (s : Served) : bool :=
  match ev_reason (sv_event s) with AUTO_CLASSIFIER_DENY => true | _ => false end.

(** The reasons of what answers without a classifier. *)
Definition grant_reason (r : Reason) : bool :=
  match r with SESSION_GRANT | PERSISTED_GRANT | STATIC_ALLOWLIST | SAFE_COMMAND | SESSION_DENY => true | _ => false end.

Lemma allow_if_reason b r d r' : allow_if b r = Some (d, r') → r' = r.
Proof. destruct b; [by intros [= <- <-]|done]. Qed.

Lemma bash_grant_reason cmd e st pin opts d r : bash_grant_pre_decision cmd e st pin opts = Some (d, r) → grant_reason r = true.
Proof.
  unfold bash_grant_pre_decision, grant_allow. destruct (be_segments e) as [via|reason|segs|].
  - destruct (bash_request_floor_requires_prompt _); [done|]. destruct (_ && _); [done|]. destruct via; by intros [= <- <-].
  - by intros [= <- <-].
  - destruct (bash_request_floor_requires_prompt _); [done|]. destruct (_ || _); [done|]. by intros ->%allow_if_reason.
  - destruct (bash_request_floor_requires_prompt _); [done|]. destruct (negb _); [done|]. by intros ->%allow_if_reason.
Qed.

Lemma session_grant_reason a e st edits honor d r :
  session_grant_pre_decision url_path su a e st edits honor = Some (d, r) → grant_reason r = true.
Proof.
  unfold session_grant_pre_decision, grant_allow. destruct a as [p|p g|path|cmd|name|url|q]; try done.
  - by intros ->%allow_if_reason.
  - destruct e as [e|]; [apply bash_grant_reason|done].
  - destruct (mcp_pre_decision _ _ _ _); [by intros [= <- <-]|done].
  - destruct (fetch_target _ _ _) as [[host permitted]|]; [|done]. cbn. destruct (honor && permitted); [by intros [= <- <-]|].
    destruct host; [|done]. by intros ->%allow_if_reason.
Qed.

Lemma pre_decision_reason rq f forced m d r : pre_decision url_path su rq f forced m = Some (d, r) → grant_reason r = true.
Proof.
  unfold pre_decision, grant_allow. destruct (access rq) as [p|p g|path|cmd|name|url|q].
  - destruct (policy_forced_prompt _); [done|by intros [= <- <-]].
  - destruct (policy_forced_prompt _); [done|by intros [= <- <-]].
  - destruct (_ && _); [by intros [= <- <-]|]. destruct (edit_policy _); try done. by intros [= <- <-].
  - destruct (bash_request_floor_requires_prompt _); [done|].
    destruct (policy_forced_prompt _); [destruct (_ && _); [|done]|]; (destruct (evaluation f) as [e|]; [apply bash_grant_reason|done]).
  - destruct (mcp_pre_decision _ _ _ _); [by intros [= <- <-]|done].
  - destruct (fetch_target _ _ _) as [[host permitted]|]; [|done]. cbn. destruct permitted; [by intros [= <- <-]|].
    destruct host; [|done]. by intros ->%allow_if_reason.
  - by intros [= <- <-].
Qed.

Lemma settled_reason rq f forced m d r : settled_pre_decision url_path su rq f forced m = Some (d, r) → grant_reason r = true.
Proof.
  unfold settled_pre_decision. destruct (pre_decision _ _ _ _ _ _) as [[d' r']|] eqn:Hp; [|done].
  apply pre_decision_reason in Hp. destruct d'; try (by intros [= <- <-]). destruct (_ && _); [done|by intros [= <- <-]].
Qed.

Lemma trigger_no_denial f fb : (∀ r, fb = Some r → forces_prompt r = true) → trigger_of f fb ≠ AUTO_CLASSIFIER_DENY.
Proof.
  intros Hfb. unfold trigger_of, prompt_trigger.
  assert (default (if match evaluation f with Some e => negb (exact_grant e) && has_finding OpaqueShell (assessment e) | None => false end
                   then OPAQUE_SHELL
                   else if bash_request_floor_requires_prompt (evaluation f) then BASH_REQUEST_FLOOR else NEEDS_USER) fb
          ≠ AUTO_CLASSIFIER_DENY) as Hd.
  { destruct fb as [r|]; cbn; [specialize (Hfb r eq_refl); by destruct r|]. by repeat case_match. }
  destruct (is_ask (direct (preflight f))); [done|]. destruct (pf_defers_gate_ask (preflight f)); [done|].
  destruct (gate_is_ask (bash_command (preflight f))); [done|]. by destruct (shell_file_forced_prompt (preflight f)).
Qed.

(** * The choice of a user *)

(** Everything but the grants. *)
Definition same_but_grants (m m' : Manager) : Prop :=
  yolo_mode m' = yolo_mode m ∧ auto_mode m' = auto_mode m ∧ auto_consecutive_denials m' = auto_consecutive_denials m
  ∧ auto_total_denials m' = auto_total_denials m ∧ recorded_permission_decisions m' = recorded_permission_decisions m.

Lemma apply_outcome_same a o m : same_but_grants m (apply_outcome a o m).1.1.
Proof.
  unfold same_but_grants. destruct a as [p|p g|path|cmd|name|url|q], o; cbn; try done.
  unfold grant_mcp_server. destruct (parse_mcp_qualified_name name) as [[]|]; [|done]. by destruct (bool_decide _).
Qed.

(** The grants that a session can hold. *)
Inductive Grant : Type :=
| GCommand (c : rstr) | GExcluded (c : rstr) | GGlob (g : rstr) | GDomain (d : rstr) | GTool (n : rstr) | GServer (n : rstr) | GEdits.

Definition holds (g : Grant) (m : Manager) : Prop :=
  match g with
  | GCommand c => c ∈ allowed_bash_commands (state m)
  | GExcluded c => c ∈ disallowed_bash_commands (state m)
  | GGlob p => p ∈ allowed_bash_globs (state m)
  | GDomain d => d ∈ allowed_web_fetch_domains (state m)
  | GTool n => n ∈ allowed_mcp_tools (state m)
  | GServer n => n ∈ allowed_mcp_servers (state m)
  | GEdits => allow_edits_for_session m = true
  end.

(** What a choice gives, by the access that was asked about: an MCP tool or its
    own server, never one that the client names; a domain for a fetch; edits for
    anything but a command. *)
Definition grant_of (a : AccessKind) (o : PromptOutcome) : option Grant :=
  match a, o with
  | AccBash cmd, AllowAlways => Some (GCommand cmd)
  | AccBash _, AllowAlwaysBashCommand prefix => Some (GCommand prefix)
  | AccBash _, AllowAlwaysBashGlob p => Some (GGlob p)
  | AccBash _, RejectAlwaysBashCommand prefix => Some (GExcluded prefix)
  | AccBash _, _ => None
  | _, AllowEditsForSession => Some GEdits
  | AccMCPTool name, (AllowAlways | AllowAlwaysMcpTool _) => Some (GTool name)
  | AccMCPTool name, AllowAlwaysMcpServer server =>
      Some (if bool_decide (fst <$> parse_mcp_qualified_name name = Some server) then GServer server else GTool name)
  | AccWebFetch _, AllowAlwaysDomain d => Some (GDomain d)
  | _, _ => None
  end.

Lemma among_elem (l : list rstr) t : among l t = true ↔ t ∈ l.
Proof.
  unfold among. rewrite existsb_elem. split.
  - intros (x & Hx & ->%bool_decide_eq_true). done.
  - intros Ht. exists t. by rewrite bool_decide_true.
Qed.

Lemma insert_text_elem (t x : rstr) l : x ∈ insert_text t l ↔ x = t ∨ x ∈ l.
Proof.
  unfold insert_text. destruct (among l t) eqn:E; [|by rewrite elem_of_cons].
  apply among_elem in E. naive_solver.
Qed.

Local Ltac one_grant := intros; match goal with g : Grant |- _ => destruct g end; cbn; rewrite ?insert_text_elem; naive_solver.

Lemma holds_command c g m : holds g (grant_to (allow_command c) m) ↔ holds g m ∨ g = GCommand c.
Proof. one_grant. Qed.
Lemma holds_excluded c g m : holds g (grant_to (disallow_command c) m) ↔ holds g m ∨ g = GExcluded c.
Proof. one_grant. Qed.
Lemma holds_glob c g m : holds g (grant_to (allow_glob c) m) ↔ holds g m ∨ g = GGlob c.
Proof. one_grant. Qed.
Lemma holds_domain c g m : holds g (grant_to (allow_domain c) m) ↔ holds g m ∨ g = GDomain c.
Proof. one_grant. Qed.
Lemma holds_tool c g m : holds g (grant_to (allow_mcp_tool c) m) ↔ holds g m ∨ g = GTool c.
Proof. one_grant. Qed.
Lemma holds_server c g m : holds g (grant_to (allow_mcp_server c) m) ↔ holds g m ∨ g = GServer c.
Proof. one_grant. Qed.
Lemma holds_edits g m : holds g (set_edits_allowed true m) ↔ holds g m ∨ g = GEdits.
Proof. one_grant. Qed.

Lemma grant_mcp_server_holds name server g m :
  holds g (grant_mcp_server name server m)
  ↔ holds g m ∨ g = if bool_decide (fst <$> parse_mcp_qualified_name name = Some server) then GServer server else GTool name.
Proof.
  unfold grant_mcp_server. destruct (parse_mcp_qualified_name name) as [[canonical tool]|]; cbn [fmap option_fmap option_map fst].
  - destruct (bool_decide_reflect (canonical = server)) as [->|Hne].
    + rewrite bool_decide_true by done. apply holds_server.
    + rewrite bool_decide_false by congruence. apply holds_tool.
  - rewrite bool_decide_false by done. apply holds_tool.
Qed.

(** A choice gives what it says and nothing else. *)
Lemma apply_outcome_holds a o m g : holds g (apply_outcome a o m).1.1 ↔ holds g m ∨ grant_of a o = Some g.
Proof.
  assert (∀ g', (holds g m ∨ g = g') ↔ (holds g m ∨ Some g' = Some g)) as Hsome by naive_solver.
  assert (holds g m ↔ holds g m ∨ None = Some g) as Hnone by naive_solver.
  destruct a, o; cbn [apply_outcome apply_bash_outcome grant_of fst snd]; rewrite <- ?Hsome; try exact Hnone;
    first [exact Hnone | apply holds_command | apply holds_excluded | apply holds_glob | apply holds_domain | apply (holds_tool _ g m)
          | apply holds_edits | apply grant_mcp_server_holds].
Qed.

(** * One request *)

Lemma facts_protected an rq m : protected_edit (facts_of su an rq m).1 = edit_protection_of su rq.
Proof. unfold facts_of. by destruct (scanned_evaluation _ _ _ _). Qed.

Lemma record_decision_state rq approved m :
  state (record_decision command_json rq approved m) = state m
  ∧ persisted (record_decision command_json rq approved m) = persisted m
  ∧ allow_edits_for_session (record_decision command_json rq approved m) = allow_edits_for_session m.
Proof. by destruct approved. Qed.

(** Grants and the disk; nothing else of a manager. *)
Definition same_grants (m m' : Manager) : Prop :=
  state m' = state m ∧ persisted m' = persisted m ∧ allow_edits_for_session m' = allow_edits_for_session m.

Lemma same_grants_holds m m' g : same_grants m m' → (holds g m' ↔ holds g m).
Proof. intros (Hs & _ & He). destruct g; cbn; by rewrite ?Hs, ?He. Qed.

Lemma prompt_user_grants an rq f trigger m :
  same_grants (apply_outcome (access rq) (prompt an (access rq) (protected_edit f)) m).1.1
    (sv_manager (prompt_user command_json an rq f trigger m))
  ∧ ev_user_prompted (sv_event (prompt_user command_json an rq f trigger m)) = true.
Proof.
  unfold prompt_user. destruct (apply_outcome _ _ _) as [[m' d] str]. cbn. split; [|done].
  pose proof (record_decision_state rq (prompted_decision_approved d str) m') as Hr. by destruct (_ && _).
Qed.

(** A request changes the grants only by the choice of a user who was asked. *)
Lemma served_cases an rq m :
  let s := serve an rq m in
  (same_grants m (sv_manager s) ∧ ev_user_prompted (sv_event s) = false)
  ∨ (same_grants (apply_outcome (access rq) (prompt an (access rq) (edit_protection_of su rq)) m).1.1 (sv_manager s)
     ∧ ev_user_prompted (sv_event s) = true).
Proof.
  intros s. pose proof (serve_answers url_path command_json su an rq m) as Ha. fold s in Ha. rewrite <- (facts_protected an rq m).
  destruct Ha; try (by left). right. apply prompt_user_grants.
Qed.

Lemma served_holds an rq m g :
  let s := serve an rq m in
  holds g (sv_manager s) ↔
  holds g m ∨ (ev_user_prompted (sv_event s) = true ∧ grant_of (access rq) (prompt an (access rq) (edit_protection_of su rq)) = Some g).
Proof.
  intros s. destruct (served_cases an rq m) as [[Hs Hp]|[Hs Hp]]; fold s in Hs, Hp; rewrite (same_grants_holds _ _ g Hs), Hp.
  - naive_solver.
  - rewrite apply_outcome_holds. naive_solver.
Qed.

(** * A session *)

Lemma run_app cs cs' m : run (cs ++ cs') m = ((run cs' (run cs m).1).1, (run cs m).2 ++ (run cs' (run cs m).1).2).
Proof.
  revert m. induction cs as [|c cs IH]; intros m; cbn.
  - by destruct (PermissionManager.run _ _ _ cs' m).
  - destruct (PermissionManager.handle _ _ _ c m) as [m' served]. rewrite IH.
    destruct (PermissionManager.run _ _ _ cs m') as [m1 rest]. cbn. by destruct served.
Qed.

Lemma run_snoc cs c m :
  run (cs ++ [c]) m = ((handle c (run cs m).1).1,
    (run cs m).2 ++ match (handle c (run cs m).1).2 with Some s => [s] | None => [] end).
Proof.
  rewrite run_app. cbn. by destruct (PermissionManager.handle _ _ _ c _) as [m' [s|]].
Qed.

Lemma handle_holds c m g :
  holds g (handle c m).1 ↔
  (holds g m ∧ c ≠ ResetState) ∨
  ∃ rq an, c = CmdRequest rq an ∧ ev_user_prompted (sv_event (serve an rq m)) = true
    ∧ grant_of (access rq) (prompt an (access rq) (edit_protection_of su rq)) = Some g.
Proof.
  destruct c as [rq an|b|b|b|ts|i|].
  - cbn. rewrite (served_holds an rq m g). naive_solver.
  - destruct g; cbn; naive_solver.
  - destruct g; cbn; naive_solver.
  - destruct g; cbn; naive_solver.
  - destruct g; cbn; naive_solver.
  - destruct g; cbn; naive_solver.
  - destruct g; cbn; set_solver.
Qed.

(** C9: A grant is a choice.  What a session holds at its end (a command, a
    pattern, an exclusion, a domain, an MCP tool or server, edits for the
    session) is exactly what it held at its start or what the user chose when
    asked in it, since the last reset: [grant_of] says what a choice gives, by
    what was asked about.  No rule, mode, classifier or sandbox grants anything,
    and nothing but a reset takes a grant away. *)
Theorem grants_are_choices cs m g :
  holds g (run cs m).1 ↔
  (holds g m ∧ ResetState ∉ cs) ∨
  ∃ before rq an after,
    cs = before ++ (CmdRequest rq an :: after) ∧ (ResetState ∉ after)
    ∧ ev_user_prompted (sv_event (serve an rq (run before m).1)) = true
    ∧ grant_of (access rq) (prompt an (access rq) (edit_protection_of su rq)) = Some g.
Proof.
  induction cs as [|c cs IH] using rev_ind.
  - cbn. split; [intros Hg; left; split; [done|set_solver]|].
    intros [[Hg _]|(b & rq & an & a & Hc & _)]; [done|by destruct b].
  - rewrite run_snoc. cbn [fst]. rewrite handle_holds, IH. split.
    + intros [[[[Hg Hn]|(b & rq & an & a & -> & Hn & Hp & Hgr)] Hc]|(rq & an & -> & Hp & Hgr)].
      * left. set_solver.
      * right. exists b, rq, an, (a ++ [c]). rewrite <- app_assoc. split; [done|]. split; [set_solver|done].
      * right. exists cs, rq, an, []. split; [done|]. split; [set_solver|done].
    + intros [[Hg Hn]|(b & rq & an & a & Hcs & Hn & Hp & Hgr)]; [left; set_solver|].
      destruct a as [|x a _] using rev_ind.
      * apply app_inj_tail in Hcs as [-> ->]. right. by exists rq, an.
      * rewrite app_comm_cons, app_assoc in Hcs. apply app_inj_tail in Hcs as [-> ->]. left. split; [|set_solver].
        right. exists b, rq, an, a. split; [done|]. split; [set_solver|done].
Qed.

(** * What a session keeps *)

(** [loaded] is what stood on the disk at the start. *)
Record session_inv (loaded : PermissionState) (m : Manager) : Prop := mkInv {
  inv_pin : is_some (yolo_pin su) = true → yolo_mode m = false;
  inv_modes : yolo_mode m && auto_mode m = false;
  inv_denials : 0 ≤ auto_consecutive_denials m ≤ auto_total_denials m;
  inv_consecutive : auto_consecutive_denials m ≤ AUTO_DENY_CONSECUTIVE_LIMIT;
  inv_total : auto_total_denials m ≤ AUTO_DENY_TOTAL_LIMIT;
  inv_recorded : (length (recorded_permission_decisions m) ≤ MAX_RECORDED_PERMISSION_DECISIONS)%nat;
  inv_edits : edit_policy (state m) ≠ EditAllow;
  inv_handed : default loaded (last (persisted m)) = state m;
}.

(** What the file holds after some writes: an old state or the last one. *)
Lemma disk_after_snoc written n file l st :
  disk_after written n file (l ++ [st]) = if written (n + length l)%nat then st else disk_after written n file l.
Proof.
  revert n file. induction l as [|x l IH]; intros n file; cbn; [by rewrite Nat.add_0_r|].
  by rewrite IH, Nat.add_succ_r.
Qed.

Lemma disk_after_in written n file l : disk_after written n file l ∈ file :: l.
Proof.
  induction l as [|st l IH] using rev_ind; [left|]. rewrite disk_after_snoc. case_match; set_solver.
Qed.

Lemma disk_after_last written file l :
  l = [] ∨ written (pred (length l)) = true → disk_after written 0 file l = default file (last l).
Proof.
  destruct l as [|st l _] using rev_ind; [done|]. intros [Hl|Hw]; [by destruct l|].
  rewrite disk_after_snoc, last_snoc. rewrite length_app in Hw. cbn in Hw.
  replace (pred (length l + 1)) with (length l) in Hw by lia. cbn. by rewrite Hw.
Qed.

Lemma apply_outcome_inv loaded a o m : session_inv loaded m → session_inv loaded (apply_outcome a o m).1.1.
Proof.
  intros []. destruct a as [p|p x|path|cmd|name|url|q], o; cbn; try (by constructor; cbn; rewrite ?last_snoc).
  unfold grant_mcp_server. destruct (parse_mcp_qualified_name name) as [[]|]; [destruct (bool_decide _)|]; by constructor; cbn; rewrite ?last_snoc.
Qed.

Lemma apply_outcome_total a o m : auto_total_denials (apply_outcome a o m).1.1 = auto_total_denials m.
Proof. by destruct (apply_outcome_same a o m) as (_ & _ & _ & Ht & _). Qed.

Lemma record_decision_inv loaded rq approved m : session_inv loaded m → session_inv loaded (record_decision command_json rq approved m).
Proof.
  intros Hm. destruct approved as [b|]; [|done]. destruct Hm. constructor; try done. cbn [record_decision recorded_permission_decisions].
  rewrite length_drop, length_app. cbn [length]. lia.
Qed.

Lemma reset_denials_inv loaded m : session_inv loaded m → session_inv loaded (set_consecutive 0 m).
Proof. intros []. constructor; cbn; try done. split; [done|]. lia. Qed.

Lemma count_denial_inv loaded m :
  session_inv loaded m → auto_consecutive_denials m < AUTO_DENY_CONSECUTIVE_LIMIT → auto_total_denials m < AUTO_DENY_TOTAL_LIMIT →
  session_inv loaded (count_denial m) ∧ auto_total_denials (count_denial m) = auto_total_denials m + 1.
Proof.
  unfold AUTO_DENY_CONSECUTIVE_LIMIT, AUTO_DENY_TOTAL_LIMIT. intros [] Hc Ht.
  assert (∀ x, 0 ≤ x ≤ 100 → wrap 32 x = x) as Hw by (intros x Hx; unfold wrap; apply Z.mod_small; lia).
  split; [constructor; cbn; try done|cbn]; unfold AUTO_DENY_CONSECUTIVE_LIMIT, AUTO_DENY_TOTAL_LIMIT; rewrite ?Hw; lia.
Qed.

(** The event of an answer agrees with the reply. *)
Definition coherent (s : Served) : Prop :=
  match sv_reply s with
  | Some d => ev_decision (sv_event s) = d
  | None => ev_decision (sv_event s) = Cancelled ∧ ev_reason (sv_event s) = REQUESTER_GONE
  end
  ∧ ev_user_prompted (sv_event s) = is_some (ev_prompt_outcome (sv_event s))
  ∧ ev_auto_approved (sv_event s) && ev_user_prompted (sv_event s) = false
  ∧ ev_auto_denials (sv_event s)
    = if auto_mode (sv_manager s) then Some (auto_consecutive_denials (sv_manager s), auto_total_denials (sv_manager s)) else None.

Lemma settle_coherent m d auto r : coherent (settle m d auto r).
Proof. unfold coherent. cbn. by rewrite andb_false_r. Qed.

Lemma served_inv loaded an rq m :
  session_inv loaded m →
  let s := serve an rq m in
  session_inv loaded (sv_manager s) ∧ coherent s
  ∧ auto_total_denials (sv_manager s) = auto_total_denials m + if is_classifier_denial s then 1 else 0.
Proof.
  intros Hm s. pose proof (serve_answers url_path command_json su an rq m) as Ha. fold s in Ha.
  assert (∀ d auto r, is_classifier_denial (settle m d auto r) = false →
    session_inv loaded (sv_manager (settle m d auto r)) ∧ coherent (settle m d auto r)
    ∧ auto_total_denials (sv_manager (settle m d auto r)) = auto_total_denials m + if is_classifier_denial (settle m d auto r) then 1 else 0)
    as Hsettle by (intros d auto r ->; split; [done|]; split; [apply settle_coherent|]; cbn; lia).
  destruct Ha as [|reason|Hu Hy Hs|d reason Hu Hfl Hg|Hfl Hpd|Hu Hin|Hu Hin|text Hu Hin Hc Ht|cmd Hu Hcmd Hnf Hsb|Hpd Hpr|forced d reason Hu Hpre|Hu Hpol|fb Hu Hfb];
    try (by apply Hsettle).
  - split; [done|]. split; [done|]. cbn. lia.
  - apply Hsettle. apply session_grant_reason in Hg. by destruct reason.
  - split; [by apply reset_denials_inv|]. split; [apply settle_coherent|]. cbn. lia.
  - destruct (count_denial_inv loaded m Hm Hc Ht) as [Hi Htot]. split; [done|]. split; [apply settle_coherent|done].
  - apply Hsettle. apply settled_reason in Hpre. by destruct reason.
  - unfold prompt_user.
    pose proof (apply_outcome_inv loaded (access rq) (prompt an (access rq) (protected_edit (facts_of su an rq m).1)) m Hm) as Hi.
    pose proof (apply_outcome_total (access rq) (prompt an (access rq) (protected_edit (facts_of su an rq m).1)) m) as Ht.
    destruct (apply_outcome _ _ _) as [[m' d] str]. cbn in Hi, Ht.
    pose proof (record_decision_inv loaded rq (prompted_decision_approved d str) m' Hi) as Hr.
    assert (auto_total_denials (record_decision command_json rq (prompted_decision_approved d str) m') = auto_total_denials m) as Ht'
      by (rewrite <- Ht; by destruct (prompted_decision_approved d str)).
    pose proof (trigger_no_denial (facts_of su an rq m).1 fb Hfb) as Htr. set (gone := is_cancelled d && gone_after_prompt an).
    assert (∀ m2, session_inv loaded m2 → auto_total_denials m2 = auto_total_denials m → ∀ r, r ≠ AUTO_CLASSIFIER_DENY →
      let s := mkServed m2 (event_of m2 d false true (Some str) r) (Some d) in
      session_inv loaded m2 ∧ coherent s ∧ auto_total_denials m2 = auto_total_denials m + if is_classifier_denial s then 1 else 0) as Hend.
    { intros m2 Hm2 Ht2 r Hne s2. split; [done|]. split; [done|]. unfold is_classifier_denial. cbn. destruct r; try done; lia. }
    clearbody gone. apply Hend; [destruct (negb _ && negb gone); [by apply reset_denials_inv|done]|by destruct (negb _ && negb gone)|by destruct gone].
Qed.

Definition is_request (c : PermissionCommand) : bool := match c with CmdRequest _ _ => true | _ => false end.

Lemma handle_inv loaded c m :
  session_inv loaded m →
  session_inv loaded (handle c m).1
  ∧ match (handle c m).2 with
    | Some s => is_request c = true ∧ coherent s
        ∧ auto_total_denials (handle c m).1 = auto_total_denials m + if is_classifier_denial s then 1 else 0
    | None => is_request c = false ∧ auto_total_denials (handle c m).1 = auto_total_denials m
    end.
Proof.
  intros Hm. destruct c as [rq an|b|b|b|ts|i|].
  - destruct (served_inv loaded an rq m Hm) as (Hi & Hc & Ht). cbn. auto.
  - split; [|done]. destruct Hm. constructor; cbn; try done.
    + unfold clamp_yolo. intros ->. by rewrite andb_false_r.
    + destruct (clamp_yolo su b); [by rewrite andb_false_r|done].
  - split; [|done]. destruct Hm. constructor; cbn; try done.
    + intros Hpin. by rewrite inv_pin0.
    + destruct b; [by rewrite andb_false_r|by rewrite andb_false_r].
  - split; [|done]. by destruct Hm.
  - split; [|done]. by destruct Hm.
  - split; [|done]. by destruct Hm.
  - split; [|done]. destruct Hm; constructor; cbn; try done; by rewrite last_snoc.
Qed.

Lemma spawn_inv loaded : session_inv loaded (PermissionManager.spawn su loaded) ∧ auto_total_denials (PermissionManager.spawn su loaded) = 0.
Proof.
  unfold PermissionManager.spawn, clamp_yolo. split; [|by destruct (edit_policy loaded)].
  destruct (edit_policy loaded) eqn:E; (constructor; cbn; try lia; try done;
    [intros ->; by rewrite andb_false_r|by destruct (initial_yolo su && _)|..]); by rewrite ?E.
Qed.

(** C10: The invariant of a session, whatever commands it is given from its
    start.  Always-approve stays off under a pin, and never stands together with
    auto mode.  The classifier denies at most twenty requests in a session, and
    three in a row, before the user is asked; the counters never wrap, and the
    total is the number of requests that were answered so.  At most twelve
    decisions are kept for the classifier; edits are never allowed for good.  What
    the manager holds is what it last handed to be stored, or what was loaded: the
    file agrees with it unless the last write failed, and then holds an older state
    of the session.  Every request is served once, and its event agrees with its
    reply. *)
Theorem session_invariant loaded cs :
  let '(m, served) := run cs (PermissionManager.spawn su loaded) in
  session_inv loaded m
  ∧ (∀ written, disk_after written 0 loaded (persisted m) ∈ loaded :: persisted m
       ∧ (persisted m = [] ∨ written (pred (length (persisted m))) = true →
          disk_after written 0 loaded (persisted m) = state m))
  ∧ auto_total_denials m = countb is_classifier_denial served
  ∧ zlen served = countb is_request cs
  ∧ Forall coherent served.
Proof.
  cut (let '(m, served) := run cs (PermissionManager.spawn su loaded) in
       session_inv loaded m ∧ auto_total_denials m = countb is_classifier_denial served
       ∧ zlen served = countb is_request cs ∧ Forall coherent served).
  { destruct (run cs _) as [m served]. intros (Hi & Ht & Hl & Hf). split_and!; [done| |done..].
    intros written. split; [apply disk_after_in|]. intros Hw. rewrite disk_after_last by done. apply Hi. }
  induction cs as [|c cs IH] using rev_ind.
  { cbn. destruct (spawn_inv loaded) as [Hi Ht]. by rewrite Ht. }
  rewrite run_snoc. destruct (run cs _) as [m served]. cbn [fst snd]. destruct IH as (Hi & Ht & Hl & Hf).
  destruct (handle_inv loaded c m Hi) as [Hi' Hs]. split; [done|].
  rewrite (countb_app is_request), (countb_cons is_request), countb_nil. destruct (handle c m).2 as [s|].
  - destruct Hs as (-> & Hc & ->). rewrite zlen_app, (countb_app is_classifier_denial), (countb_cons is_classifier_denial), countb_nil.
    split; [lia|]. split; [unfold zlen in *; cbn; lia|]. apply Forall_app. split; [done|by constructor].
  - destruct Hs as (-> & ->). rewrite app_nil_r. repeat split; try done; lia.
Qed.
End session.
