(* ===== verification/PermissionSessionDemo.v ===== *)
(** The permission manager on concrete requests: the scripts and the glob of
    [PermissionDemo], a file system without links, no repository; and the
    theorems on the manager, on grants and on files used there. *)
From S2P Require Import Prelude Str Truncate Path ShellSplit ShellPeel PermissionPolicy PermissionThms PermissionDemo ExecRisk ShellAccess ShellAccessThms BashRoutine BashEval BashEvalThms AccessTarget PermissionManager PermissionManagerThms PermissionSession.

#[local] Existing Instance demo_libs.
#[local] Existing Instance demo_parser.

#[local] Instance demo_fs : ShellFs := {| canonicalize := Some; symlink_metadata := λ _, MetaOther; read_link := λ _, None |}.
#[local] Instance demo_git : GitLibs := {| discover := λ _, RepoNotFound; probe := λ _, ProbeFile; parses_as_bool := λ _, false |}.
#[local] Instance demo_homes : Homes := {| user_intellihelper_home := None; tilde := id |}.

Definition demo_cwd : rstr := lit "/home/proj".

(** Pushes are denied, the status is asked about, a file of secrets is neither
    read nor written. *)
Definition session_rules : list PermissionRule := [
  mkRule RDeny FBash (Some (lit "git push")) ModeGlob;
  mkRule RAsk FBash (Some (lit "git status")) ModeGlob;
  mkRule RDeny FAny (Some (lit "/home/proj/.env")) ModeGlob].

Definition demo_setup : Setup := mkSetup demo_cwd (Some (mkConfig session_rules PromptAsk)) [] false false None.

(** A user who answers every question alike. *)
Definition user (o : PromptOutcome) : Answers :=
  mkAnswers false true false (λ _ _ _ _, None) false false (λ _ _, o) false.

Definition bash_request (cmd : string) : Request := mkRequest (AccBash (lit cmd)) None None.
Definition fresh (yolo : bool) : Manager := mkManager default_state [] yolo false true 0 0 [] [] None false.

Definition demo_serve (cmd : string) (yolo : bool) (o : PromptOutcome) : Served :=
  serve id id demo_setup (user o) (bash_request cmd) (fresh yolo).

(** In always-approve, a push inside a script given to a shell is refused. *)
Lemma deny_outranks_modes_witness :
  evaluate_bash_command_gate (policy_new session_rules) (lit "bash -c 'git push'")
    = Some (GateReject (lit "Denied by permission policy: deny rule on bash matching " ++ [DQUOTE] ++ lit "git push" ++ [DQUOTE]))
  ∧ sv_manager (demo_serve "bash -c 'git push'" true AllowOnce) = fresh true
  ∧ ev_reason (sv_event (demo_serve "bash -c 'git push'" true AllowOnce)) = POLICY_DENY.
Proof.
  assert (evaluate_bash_command_gate (policy_new session_rules) (lit "bash -c 'git push'")
    = Some (GateReject (lit "Denied by permission policy: deny rule on bash matching " ++ [DQUOTE] ++ lit "git push" ++ [DQUOTE]))) as Hg
    by (vm_compute; reflexivity).
  split; [exact Hg|].
  destruct (deny_outranks_modes id id demo_setup (user AllowOnce) (bash_request "bash -c 'git push'") (fresh true) (policy_new session_rules)
    (lit "Denied by permission policy: deny rule on bash matching " ++ [DQUOTE] ++ lit "git push" ++ [DQUOTE]) eq_refl) as [Hm _].
  { right. eexists. split; [reflexivity|]. left. exact Hg. }
  split; [exact Hm|vm_compute; reflexivity].
Defined.

(** The status is asked about, and the user who is asked allows it. *)
Lemma ask_stays_binding_witness :
  sv_reply (demo_serve "git status" false AllowOnce) = Some Allow
  ∧ ev_user_prompted (sv_event (demo_serve "git status" false AllowOnce)) = true.
Proof.
  assert (sv_reply (demo_serve "git status" false AllowOnce) = Some Allow) as Hr by (vm_compute; reflexivity).
  split; [exact Hr|].
  destruct (ask_stays_binding id id demo_setup (user AllowOnce) (bash_request "git status") (fresh false)) as [[H _]|[[H _]|[[H _]|[H _]]]].
  - vm_compute. reflexivity.
  - exact Hr.
  - exact H.
  - discriminate H.
  - discriminate H.
  - discriminate H.
Defined.

(** A rule on a file reaches the reader in a script given to a shell. *)
Lemma file_gate_reaches_witness :
  ∃ g reason, evaluate_shell_file_access_gate (policy_new session_rules) demo_cwd (lit "bash -c 'cat .env'") = Some g ∧ g = GateReject reason.
Proof.
  destruct (file_gate_reaches session_rules demo_cwd (lit "bash -c 'cat .env'") 1 (lit "cat .env") false) as [H _].
  - eapply (EnterInline 0 _ _ _ _ 2%nat (lit "cat .env")); [vm_compute; reflexivity|apply list_elem_of_here|vm_compute; reflexivity|vm_compute; reflexivity|].
    apply EnterHere.
  - eassert (names_file (lit "cat .env") false (lit ".env") ModeRead _) as Hn.
    { eapply (NameOperand _ _ _ _ (lit "cat") [Literal (lit ".env")]);
        [vm_compute; reflexivity|apply list_elem_of_here|vm_compute; reflexivity|vm_compute; reflexivity|apply list_elem_of_here]. }
    destruct (H (lit ".env") ModeRead _ (lit "/home/proj/.env") (mkRule RDeny FAny (Some (lit "/home/proj/.env")) ModeGlob) Hn) as (g & Hg & Hd).
    + right. split; [vm_compute; reflexivity|]. left. vm_compute. reflexivity.
    + do 2 apply list_elem_of_further. apply list_elem_of_here.
    + reflexivity.
    + vm_compute. reflexivity.
    + destruct Hd as [reason Hreason]; [vm_compute; lia|]. exists g, reason. split; [exact Hg|exact Hreason].
Defined.

(** A listed command passes by itself. *)
Lemma grant_covers_script_witness :
  bash_grant_pre_decision (lit "git status") (scanned false (evaluate_bash default_state true (lit "git status"))) default_state None PRE_CLASSIFIER
    = Some (Allow, SAFE_COMMAND)
  ∧ ∃ segs, plain_commands (lit "git status") = Some segs ∧ ∀ c, c ∈ segs → passes default_state true (words c) = true.
Proof.
  assert (bash_grant_pre_decision (lit "git status") (scanned false (evaluate_bash default_state true (lit "git status"))) default_state None PRE_CLASSIFIER
    = Some (Allow, SAFE_COMMAND)) as Hg by (vm_compute; reflexivity).
  split; [exact Hg|].
  destruct (grant_covers_script default_state true (lit "git status") false None PRE_CLASSIFIER SAFE_COMMAND Hg) as [_ [H|(_ & _ & _ & [H|[H _]])]].
  - discriminate H.
  - exact H.
  - discriminate H.
Defined.

(** * Where the spelling decides *)

(** Rules judge the path as the model wrote it, and the tool opens what is left
    of it without its blanks and quotes. *)
Lemma quoted_path_evades :
  let path := [DQUOTE] ++ lit "/home/proj/.env" ++ [DQUOTE] in
  evaluate_with_cwd (policy_new session_rules) (AccEdit path) (Some demo_cwd) = None
  ∧ resolve_model_path demo_cwd None path = lit "/home/proj/.env"
  ∧ ∃ reason, evaluate_with_cwd (policy_new session_rules) (AccEdit (lit "/home/proj/.env")) (Some demo_cwd) = Some (Reject reason).
Proof. split; [vm_compute; reflexivity|]. split; [vm_compute; reflexivity|]. eexists. vm_compute. reflexivity. Qed.

(** A preprocessor of [rg] is a program that runs; spelled with quotes inside
    the word it passes as safe. *)
Lemma spelled_preprocessor_is_safe :
  is_safe_command_words [lit "rg"; lit "--p" ++ [DQUOTE; DQUOTE] ++ lit "re=./run"; lit "x"] = true
  ∧ is_safe_command_words (lit <$> ["rg"; "--pre=./run"; "x"]%string) = false.
Proof. split; vm_compute; reflexivity. Qed.

(** The output of [sort] behind clustered flags is not seen, and [sort] is safe. *)
Lemma clustered_output_unseen :
  command_words_write_paths (lit <$> ["sort"; "-ro"; "out"; "in"]%string) = []
  ∧ is_safe_command_words (lit <$> ["sort"; "-ro"; "out"; "in"]%string) = true
  ∧ command_words_write_paths (lit <$> ["sort"; "-o"; "out"; "in"]%string) = [lit "out"].
Proof. split; [|split]; vm_compute; reflexivity. Qed.
