(* ===== verification/SamplerError.v ===== *)
(** What a request to the model can fail with
    (src/crates/codegen/intellihelper-sampling-types/src/error.rs and
    doom_loop.rs, src/crates/codegen/intellihelper-sampler/src/events.rs):
    the errors, the tests the retry loop asks of them, and the flat record
    that crosses the event channel.

    [reqwest::Error] and [serde_json::Error] are third-party: the first is what
    its predicates answer, the second its rendered text. *)
From S2P Require Import Prelude Str RetryPolicy.

(** * Data *)

Inductive EmptyReason : Type := ReasoningOnly | NoVisibleContent.

Definition empty_reason_str (r : EmptyReason) : rstr :=
  match r with ReasoningOnly => lit "reasoning_only" | NoVisibleContent => lit "no_visible_content" end.

Record EmptyResponseContext : Type := mkEmptyContext {
  er_reason : EmptyReason;
  had_reasoning : bool;
  content_len : Z;
  tool_call_count : Z;
  finish_reason : option rstr;
  completion_tokens : option Z;
  reasoning_tokens : option Z;
  prompt_tokens : option Z;
  er_model : rstr;
  first_choice_seen : bool;
}.

Record ResponseModelMetadata : Type := mkMetadata {
  context_window : option Z;
  max_completion_tokens : option Z;
  models_etag : option rstr;
}.

Inductive SentCredential : Type := CredSent | CredMissing | CredUnknown.

(** What the code asks of a [reqwest::Error]. *)
Record HttpError : Type := mkHttpError {
  http_timeout : bool;
  http_connect : bool;
  http_is_status : bool;
  http_status : option Z;
  http_request : bool;
  http_body : bool;
  http_text : rstr;
}.

Inductive SamplingError : Type :=
| Auth (message : rstr) (credential : SentCredential)
| InvalidConfiguration (message : rstr)
| Http (e : HttpError)
| Serialization (rendered : rstr)
| Api (status : Z) (message : rstr) (model_metadata : option ResponseModelMetadata)
      (retry_after_secs : option Z) (should_retry : option bool)
| EventStreamError (message : rstr)
| StreamError (error_type message : rstr)
| IdleTimeout (elapsed_secs : Z)
| EmptyResponse (context : EmptyResponseContext)
| MaxTokensTruncation
| DoomLoopDetected (triggers : list rstr) (aborted_at_chunk : option Z).

Definition auth_unknown (message : rstr) : SamplingError := Auth message CredUnknown.

Definition SERIALIZATION_DISPLAY_PREFIX : rstr := lit "serialization error: ".

(** [serialization_message] and [serialization_from_rendered]. *)
Definition serialization_from_rendered (rendered : rstr) : SamplingError :=
  Serialization (default rendered (strip_prefix SERIALIZATION_DISPLAY_PREFIX rendered)).

(** [Display].  How a status is shown ([status_text]) is the http crate's. *)
Definition display (status_text : Z → rstr) (e : SamplingError) : rstr :=
  match e with
  | Auth m _ => m
  | InvalidConfiguration m => lit "invalid client configuration: " ++ m
  | Http h => lit "request error: " ++ http_text h
  | Serialization m => SERIALIZATION_DISPLAY_PREFIX ++ m
  | Api s m _ _ _ => lit "API error (status " ++ status_text s ++ lit "): " ++ m
  | EventStreamError m => lit "reqwest error stream: " ++ m
  | StreamError ty m => lit "stream error (" ++ ty ++ lit "): " ++ m
  | IdleTimeout n => lit "inference idle timeout after " ++ fmt_dec n ++ lit "s with no chunks"
  | EmptyResponse c => lit "empty response from model (" ++ empty_reason_str (er_reason c) ++ lit ")"
  | MaxTokensTruncation => lit "response truncated by max_tokens"
  | DoomLoopDetected ts _ => lit "doom loop detected: " ++ join (lit ", ") ts
  end.

(** * Tests *)

Definition is_auth_error (e : SamplingError) : bool :=
  match e with Auth _ _ => true | Api s _ _ _ _ => s =? 401 | _ => false end.

Definition is_rate_limited (e : SamplingError) : bool :=
  match e with Api s _ _ _ _ => s =? 429 | _ => false end.

Definition is_payload_too_large (e : SamplingError) : bool :=
  match e with Api s _ _ _ _ => s =? 413 | _ => false end.

Definition is_likely_body_rejected (e : SamplingError) : bool :=
  match e with
  | Http h => (http_request h || http_body h) && negb (http_timeout h) && negb (http_connect h)
  | _ => false
  end.

Definition is_encrypted_content_error (e : SamplingError) : bool :=
  match e with Api s m _ _ _ => (s =? 400) && contains_str (lit "encrypted_content") m | _ => false end.

Definition is_image_processing_error (e : SamplingError) : bool :=
  match e with
  | Api s m _ _ _ => ((s =? 400) || (s =? 500)) && contains_str (lit "Could not process image") m
  | _ => false
  end.

Definition is_retryable_api_status (status : Z) : bool := should_retry rp_edge_client status.

Definition is_retryable_reqwest (h : HttpError) : bool :=
  if http_timeout h || http_connect h then true
  else if http_is_status h then is_some_and is_retryable_api_status (http_status h)
  else http_request h || http_body h.

Definition is_retryable (e : SamplingError) : bool :=
  match e with
  | Auth _ _ => false
  | InvalidConfiguration _ => false
  | Http h => is_retryable_reqwest h
  | Serialization _ => false
  | Api s _ _ _ _ => is_retryable_api_status s
  | EventStreamError _ => true
  | StreamError _ _ => true
  | IdleTimeout _ => false
  | EmptyResponse _ => true
  | MaxTokensTruncation => false
  | DoomLoopDetected _ _ => true
  end.

Definition is_doom (e : SamplingError) : bool := match e with DoomLoopDetected _ _ => true | _ => false end.

Definition retry_after (e : SamplingError) : option Z :=
  match e with Api _ _ _ r _ => r | _ => None end.

Definition should_retry_header (e : SamplingError) : option bool :=
  match e with Api _ _ _ _ h => h | _ => None end.

(** The free function of that name, of a message. *)
Definition context_length_message (message : rstr) : bool :=
  let m := to_ascii_lowercase message in
  contains_str (lit "too long for this model") m
  || contains_str (lit "prompt is too long") m
  || contains_str (lit "maximum prompt length") m
  || contains_str (lit "maximum context length") m
  || contains_str (lit "context_length_exceeded") m
  || (contains_str (lit "current message") m && contains_str (lit "exceeds budget") m).

Definition is_context_length (e : SamplingError) : bool :=
  match e with
  | Api _ m _ _ _ => context_length_message m
  | StreamError _ m => context_length_message m
  | _ => false
  end.

Definition is_retry_vetoed (e : SamplingError) : bool :=
  bool_decide (should_retry_header e = Some false) || is_context_length e.

(** [extract_retry_after], of the header's text. *)
Definition extract_retry_after (header : option rstr) : option Z :=
  s ← header; n ← parse_uint 64 s; Some (Z.min n 120).

(** * Doom loops *)

Inductive DoomLoopSignalKind : Type := TailRepetition (threshold : Z) | LowLogprob | Unknown (head : rstr).

Record DoomLoopSignal : Type := mkSignal { sig_kind : DoomLoopSignalKind; sig_channel : rstr; sig_raw : rstr }.

Definition parse_signal (raw : rstr) : DoomLoopSignal :=
  let '(head, channel) := default (raw, []) (split_once 64 raw) in
  let kind :=
    match split_once 58 head with
    | Some (name, threshold) =>
        if bool_decide (name = lit "tail_repetition")
        then match parse_uint 32 threshold with Some t => TailRepetition t | None => Unknown head end
        else Unknown head
    | None => if bool_decide (head = lit "low_logprob") then LowLogprob else Unknown head
    end in
  mkSignal kind channel raw.

Record DoomLoopRecoveryPolicy : Type := mkDoomPolicy { max_threshold : Z; doom_max_retries : Z }.

Definition THINKING_CHANNEL : rstr := lit "thinking".

Definition is_confident (p : DoomLoopRecoveryPolicy) (s : DoomLoopSignal) : bool :=
  bool_decide (sig_channel s = THINKING_CHANNEL)
  && match sig_kind s with TailRepetition t => t <=? max_threshold p | _ => false end.

Definition confident_triggers (p : DoomLoopRecoveryPolicy) (signals : list DoomLoopSignal) : list rstr :=
  sig_raw <$> List.filter (is_confident p) signals.

(** * The record of the event channel *)

Inductive SamplingErrorKind : Type :=
| KAuth | KHttp | KApi | KSerialization | KIdleTimeout | KRateLimited | KEmptyResponse
| KMaxTokensTruncation | KDoomLoopDetected.

Record SamplingErrorInfo : Type := mkInfo {
  i_kind : SamplingErrorKind;
  i_status_code : option Z;
  i_message : rstr;
  i_is_retryable : bool;
  i_retry_after_secs : option Z;
  i_should_retry : option bool;
  i_model_metadata : option ResponseModelMetadata;
  i_empty_response_context : option EmptyResponseContext;
  i_doom_loop_triggers : option (list rstr);
  i_doom_loop_aborted_at_chunk : option Z;
  i_credential : SentCredential;
}.

Definition info_kind (e : SamplingError) : SamplingErrorKind :=
  match e with
  | Auth _ _ => KAuth
  | InvalidConfiguration _ => KApi
  | Http _ => KHttp
  | Serialization _ => KSerialization
  | Api _ _ _ _ _ => if is_rate_limited e then KRateLimited else KApi
  | EventStreamError _ => KHttp
  | StreamError _ _ => KApi
  | IdleTimeout _ => KIdleTimeout
  | EmptyResponse _ => KEmptyResponse
  | MaxTokensTruncation => KMaxTokensTruncation
  | DoomLoopDetected _ _ => KDoomLoopDetected
  end.

(** [SamplingErrorInfo::from]. *)
Definition info_from (status_text : Z → rstr) (e : SamplingError) : SamplingErrorInfo := {|
  i_kind := info_kind e;
  i_status_code := match e with Api s _ _ _ _ => Some s | _ => None end;
  i_message := display status_text e;
  i_is_retryable := is_retryable e;
  i_retry_after_secs := retry_after e;
  i_should_retry := should_retry_header e;
  i_model_metadata := match e with Api _ _ m _ _ => m | _ => None end;
  i_empty_response_context := match e with EmptyResponse c => Some c | _ => None end;
  i_doom_loop_triggers := match e with DoomLoopDetected ts _ => Some ts | _ => None end;
  i_doom_loop_aborted_at_chunk := match e with DoomLoopDetected _ c => c | _ => None end;
  i_credential := match e with Auth _ c => c | _ => CredUnknown end |}.

(** [StatusCode::from_u16]: three digits. *)
Definition status_from_u16 (c : Z) : option Z := if (100 <=? c) && (c <? 1000) then Some c else None.

(** The first word of the message that is a number and an [s]. *)
Definition elapsed_of (message : rstr) : Z :=
  default 0 (head (omap (λ tok,
    n ← (match last tok with Some c => if c =? 115 then Some (removelast tok) else None | None => None end);
    parse_uint 64 n) (split_whitespace message))).

Definition synthesize_from_info (i : SamplingErrorInfo) : SamplingError :=
  match i_kind i with
  | KIdleTimeout => IdleTimeout (elapsed_of (i_message i))
  | KAuth => Auth (i_message i) (i_credential i)
  | KSerialization => serialization_from_rendered (i_message i)
  | KHttp => EventStreamError (i_message i)
  | KApi | KRateLimited =>
      Api (default 500 (c ← i_status_code i; status_from_u16 c)) (i_message i) (i_model_metadata i)
        (i_retry_after_secs i) (i_should_retry i)
  | KEmptyResponse =>
      match i_empty_response_context i with
      | Some c => EmptyResponse c
      | None => EventStreamError (i_message i)
      end
  | KMaxTokensTruncation => MaxTokensTruncation
  | KDoomLoopDetected => DoomLoopDetected (default [] (i_doom_loop_triggers i)) (i_doom_loop_aborted_at_chunk i)
  end.

(** [clone_error]. *)
Definition clone_error (e : SamplingError) : SamplingError :=
  match e with
  | Http h => EventStreamError (http_text h)
  | _ => e
  end.
