(* ===== verification/SamplerRetry.v ===== *)
(** Retries of the sampler: what to do with an error, and how long to wait
    (src/crates/codegen/intellihelper-sampler/src/retry.rs).  Durations are
    milliseconds.  The jitter comes from a hash of the Standard Library's
    hasher, a 64-bit integer that is an argument here. *)
From S2P Require Import Prelude Str RetryPolicy SamplerError.

Definition RATE_LIMIT_RETRY_THRESHOLD : Z := 2.
Definition DEFAULT_MAX_RETRIES : Z := 15.
Definition MAX_RETRY_BACKOFF : Z := 30000.

Definition resolve_max_retries_with_env (env_override : option rstr) (model_max_retries : option Z) : Z :=
  match value ← env_override; parse_uint 32 value with
  | Some n => n
  | None => default DEFAULT_MAX_RETRIES model_max_retries
  end.

(** [u64::checked_shl]: only the shift is checked. *)
Definition checked_shl_64 (a shift : Z) : option Z := if shift <? 64 then Some (wrap 64 (Z.shiftl a shift)) else None.

Definition doom_loop_backoff (hash : Z) : Z := hash mod 251.

Definition jittered (hash base_ms : Z) : Z :=
  let jitter_range := base_ms / 5 in
  let jitter := hash mod (jitter_range * 2 + 1) in
  base_ms - jitter_range + jitter.

Definition backoff_base (retry_count : Z) : Z :=
  let shift := sat_sub retry_count 1 in
  Z.min (default (umax 64) (checked_shl_64 2000 shift)) MAX_RETRY_BACKOFF.

Definition retry_backoff_with_jitter (hash retry_count : Z) : Z := jittered hash (backoff_base retry_count).

(** [retry_count + 1] of a u32, wrapping as a release build does. *)
Definition next_count (n : Z) : Z := wrap 32 (n + 1).

Inductive RetryDecision : Type :=
| Retry (backoff : Z)
| RetryWithBackoff (backoff : Z) (rate_limited : bool)
| RetryWithImageStrip
| RetryWithClientRebuild (backoff : Z)
| EmitToSession (e : SamplingError)
| Fatal (e : SamplingError).

Definition classify_error (hash : Z) (err : SamplingError) (retry_count max_retries rate_limit_threshold : Z) : RetryDecision :=
  if is_auth_error err then EmitToSession (clone_error err)
  else if is_encrypted_content_error err then EmitToSession (clone_error err)
  else if max_retries =? 0 then Fatal (clone_error err)
  else if is_payload_too_large err then RetryWithImageStrip
  else if is_image_processing_error err then RetryWithImageStrip
  else if is_retry_vetoed err then Fatal (clone_error err)
  else if is_doom err then Retry (doom_loop_backoff hash)
  else if is_rate_limited err then
    let next_attempt := next_count retry_count in
    if Z.min max_retries rate_limit_threshold <=? next_attempt then Fatal (clone_error err)
    else
      RetryWithBackoff
        (match retry_after err with
         | Some secs => secs * 1000
         | None => retry_backoff_with_jitter hash next_attempt
         end) true
  else if is_retryable err then
    let next_attempt := next_count retry_count in
    if max_retries <=? next_attempt then Fatal (clone_error err)
    else
      let backoff := match retry_after err with
                     | Some secs => jittered hash (Z.min (secs * 1000) MAX_RETRY_BACKOFF)
                     | None => retry_backoff_with_jitter hash next_attempt
                     end in
      if next_attempt =? 1 then RetryWithClientRebuild backoff else Retry backoff
  else Fatal (clone_error err).

(** * Waits *)

Lemma jittered_bounds hash base : 0 ≤ base → base - base / 5 ≤ jittered hash base ≤ base + base / 5.
Proof.
  intros Hb. unfold jittered. assert (0 ≤ base / 5) by (apply Z.div_pos; lia).
  pose proof (Z.mod_pos_bound hash (base / 5 * 2 + 1)). lia.
Qed.

Lemma doom_backoff_bounds hash : 0 ≤ doom_loop_backoff hash ≤ 250.
Proof. unfold doom_loop_backoff. pose proof (Z.mod_pos_bound hash 251). lia. Qed.

(** The base doubles from two seconds to half a minute and stays there, up to
    the sixtieth retry. *)
Lemma backoff_base_spec n : 1 ≤ n ≤ 60 → backoff_base n = Z.min (2000 * 2 ^ (n - 1)) MAX_RETRY_BACKOFF.
Proof.
  intros Hn. unfold backoff_base, sat_sub, checked_shl_64. rewrite Z.max_r by lia.
  rewrite (proj2 (Z.ltb_lt _ _)) by lia. cbn [default from_option id].
  assert (∀ k, (k < 60)%nat → Z.min (wrap 64 (Z.shiftl 2000 (Z.of_nat k))) MAX_RETRY_BACKOFF
    = Z.min (2000 * 2 ^ Z.of_nat k) MAX_RETRY_BACKOFF) as H.
  { assert (forallb (λ k, Z.min (wrap 64 (Z.shiftl 2000 (Z.of_nat k))) MAX_RETRY_BACKOFF
      =? Z.min (2000 * 2 ^ Z.of_nat k) MAX_RETRY_BACKOFF) (seq 0 60) = true) as Hall by by vm_compute.
    rewrite forallb_forall in Hall. intros k Hk. apply Z.eqb_eq, Hall, in_seq. lia. }
  replace (n - 1) with (Z.of_nat (Z.to_nat (n - 1))) by lia. apply H. lia.
Qed.

Lemma backoff_base_range n : 0 ≤ backoff_base n ≤ MAX_RETRY_BACKOFF.
Proof.
  unfold backoff_base. assert (0 ≤ default (umax 64) (checked_shl_64 2000 (sat_sub n 1))); [|unfold MAX_RETRY_BACKOFF in *; lia].
  unfold checked_shl_64. case_match; cbn; [|unfold umax; lia].
  pose proof (wrap_range 64 (Z.shiftl 2000 (sat_sub n 1)) ltac:(lia)) as H'. unfold uint in H'. lia.
Qed.

Lemma retry_backoff_range hash n : 0 ≤ retry_backoff_with_jitter hash n ≤ 36000.
Proof.
  unfold retry_backoff_with_jitter. pose proof (backoff_base_range n) as H.
  pose proof (jittered_bounds hash (backoff_base n) ltac:(lia)).
  assert (backoff_base n / 5 ≤ 6000) by (apply Z.div_le_upper_bound; unfold MAX_RETRY_BACKOFF in *; lia).
  assert (0 ≤ backoff_base n - backoff_base n / 5); [|unfold MAX_RETRY_BACKOFF in *; lia].
  assert (backoff_base n / 5 ≤ backoff_base n) by (apply Z.div_le_upper_bound; lia). lia.
Qed.

(** From the sixty-first retry to the sixty-fourth the shift drops every bit. *)
Lemma backoff_zero hash n : 61 ≤ n ≤ 64 → retry_backoff_with_jitter hash n = 0.
Proof.
  intros Hn. unfold retry_backoff_with_jitter.
  assert (n = 61 ∨ n = 62 ∨ n = 63 ∨ n = 64) as [->|[->|[->| ->]]] by lia;
    (replace (backoff_base _) with 0 by (by vm_compute)); unfold jittered; cbn; by rewrite Z.mod_1_r.
Qed.

(** The jitter is added to the capped wait. *)
Lemma wait_above_cap : retry_backoff_with_jitter 12000 5 = 36000.
Proof. by vm_compute. Qed.

(** The limit on rate limits counts the retries of every kind. *)
Lemma rate_limit_counts_all hash m md secs n max thr :
  0 ≤ n < 2 ^ 32 - 1 → thr ≤ n + 1 → context_length_message m = false →
  classify_error hash (Api 429 m md secs None) n max thr = Fatal (Api 429 m md secs None).
Proof.
  intros Hn Ht Hm. unfold classify_error. cbn -[Z.eqb Z.leb next_count]. unfold is_retry_vetoed. cbn [should_retry_header is_context_length].
  rewrite Hm. cbn -[Z.eqb Z.leb next_count]. destruct (max =? 0); [done|]. change (429 =? 429) with true. cbn -[Z.leb next_count].
  assert (next_count n = n + 1) as -> by (apply wrap_id; unfold uint, umax; lia).
  by rewrite (proj2 (Z.leb_le _ _)) by lia.
Qed.

(** A transport error is copied as one that is tried again. *)
Lemma clone_launders h : is_retryable_reqwest h = false → is_retryable (Http h) = false ∧ is_retryable (clone_error (Http h)) = true.
Proof. done. Qed.
