(* ===== verification/SamplerTask.v ===== *)
(** One request of the sampler
    (src/crates/codegen/intellihelper-sampler/src/actor/request_task.rs, the
    collector of doom_loop.rs, the abort in stream/responses.rs, the emptiness
    of a response and the stripping of images in
    src/crates/codegen/intellihelper-sampling-types/src/conversation.rs).

    The task tries until an attempt completes, fails for good or is cancelled.
    What the network does is the environment: how a client is built, what each
    attempt's stream yields, when the token is cancelled, the hashes of the
    jitter.  The world records what leaves the task: attempts, waits, events,
    and what goes to the caller that waits. *)
From S2P Require Import Prelude Str SamplerError SamplerRetry.

(** * Requests and responses *)

Inductive ContentPart : Type := PText (text : rstr) | PImage (data : rstr).

(** A request's items; of the others nothing is looked at. *)
Inductive RequestItem : Type :=
| RUser (content : list ContentPart)
| RToolResult (content : rstr) (images : list rstr)
| ROther (text : rstr).

Definition REMOVED_IMAGE : ContentPart := PText (lit "[image removed " ++ [8212] ++ lit " conversation too large]").

Definition is_image (p : ContentPart) : bool := match p with PImage _ => true | _ => false end.

Definition strip_item (i : RequestItem) : RequestItem :=
  match i with
  | RUser content => RUser ((λ p, if is_image p then REMOVED_IMAGE else p) <$> content)
  | RToolResult content _ => RToolResult content []
  | ROther t => ROther t
  end.

Definition images_of (i : RequestItem) : nat :=
  match i with
  | RUser content => length (List.filter is_image content)
  | RToolResult _ images => length images
  | ROther _ => 0
  end.

(** The stripped request and how many images went. *)
Definition strip_images (items : list RequestItem) : list RequestItem * nat :=
  (strip_item <$> items, sum_list (images_of <$> items)).

Inductive StopReason : Type := StopStop | StopLength | StopToolCalls | StopContentFilter.

Definition stop_reason_str (s : StopReason) : rstr :=
  match s with
  | StopStop => lit "stop" | StopLength => lit "length" | StopToolCalls => lit "tool_calls"
  | StopContentFilter => lit "content_filter"
  end.

Record AssistantItem : Type := mkAssistant { a_content : rstr; a_tool_calls : list rstr; a_model_id : option rstr }.
Record ReasoningItem : Type := mkReasoning { re_summary : list rstr; re_content : option rstr; re_encrypted : option rstr }.
Inductive ResponseItem : Type := ItAssistant (a : AssistantItem) | ItReasoning (r : ReasoningItem) | ItOther.

Record TokenUsage : Type := mkUsage { u_prompt : Z; u_completion : Z; u_reasoning : Z }.

Record ConversationResponse : Type := mkResponse {
  r_items : list ResponseItem;
  r_stop_reason : option StopReason;
  r_usage : option TokenUsage;
  r_doom_loop_signals : list DoomLoopSignal;
}.

(** The last assistant item. *)
Definition trailing_assistant (r : ConversationResponse) : option AssistantItem :=
  last (omap (λ i, match i with ItAssistant a => Some a | _ => None end) (r_items r)).

Definition has_reasoning (r : ConversationResponse) : bool :=
  existsb (λ i, match i with
    | ItReasoning x => negb (bool_decide (re_summary x = [])) || is_some_and (λ _, true) (re_content x) || is_some_and (λ _, true) (re_encrypted x)
    | _ => false
    end) (r_items r).

Definition empty_reason (r : ConversationResponse) : option EmptyReason :=
  match trailing_assistant r with
  | None => Some NoVisibleContent
  | Some a =>
      if negb (is_empty (a_content a)) || negb (bool_decide (a_tool_calls a = [])) then None
      else if has_reasoning r then Some ReasoningOnly else Some NoVisibleContent
  end.

Definition build_empty_context (reason : EmptyReason) (r : ConversationResponse) : EmptyResponseContext := {|
  er_reason := reason;
  had_reasoning := has_reasoning r;
  content_len := match trailing_assistant r with Some a => byte_len (a_content a) | None => 0 end;
  tool_call_count := match trailing_assistant r with Some a => zlen (a_tool_calls a) | None => 0 end;
  finish_reason := stop_reason_str <$> r_stop_reason r;
  completion_tokens := u_completion <$> r_usage r;
  reasoning_tokens := u_reasoning <$> r_usage r;
  prompt_tokens := u_prompt <$> r_usage r;
  er_model := default [] (a ← trailing_assistant r; a_model_id a);
  first_choice_seen := match a ← trailing_assistant r; a_model_id a with Some _ => true | None => false end |}.

(** * Events *)

Inductive SamplingEvent : Type :=
| StreamStarted
| FirstToken
| ChannelToken (text : rstr)
| ToolCallDelta (arguments : rstr)
| ResponseStarted (model : rstr)
| ReasoningCompleted (signature : rstr)
| Completed (response : ConversationResponse) (attempts : Z)
| Retrying (attempt max_retries : Z) (kind : SamplingErrorKind) (reason : rstr) (triggers : option (list rstr))
           (aborted_at_chunk : option Z)
| Failed (error : SamplingErrorInfo)
| ModelMetadata (metadata : ResponseModelMetadata)
| BackendToolCallStarted (name : rstr)
| BackendToolCallCompleted (name : rstr).

(** The events that show output. *)
Definition shows_output (e : SamplingEvent) : bool :=
  match e with
  | FirstToken | ChannelToken _ | ToolCallDelta _ | BackendToolCallStarted _ | BackendToolCallCompleted _ => true
  | _ => false
  end.

(** * Streams *)

(** What the decoder and the transform make of one piece of the wire: an
    error, or the loop signals recorded before it, whether it may hold output,
    and the events it becomes. *)
Inductive Chunk : Type :=
| ChunkErr (e : SamplingError)
| ChunkOk (signals : list DoomLoopSignal) (may_output : bool) (events : list SamplingEvent).

(** How an attempt begins: no stream, or its chunks, the signals recorded after
    them and the events at the end. *)
Inductive AttemptReply : Type :=
| InitError (e : SamplingError)
| Stream (chunks : list Chunk) (late : list DoomLoopSignal) (finish : list SamplingEvent).

(** What the task sees of the stream, in order: that output was seen, that the
    tee caught an error, an event. *)
Inductive L2Item : Type := LOutput | LCaught (e : SamplingError) | LEvent (e : SamplingEvent).

Inductive ApiBackend : Type := ChatCompletions | Responses | Messages.

(** [DoomLoopSignalCollector::record]: one signal per label. *)
Definition record_signals (recorded new : list DoomLoopSignal) : list DoomLoopSignal :=
  foldl (λ acc s, if existsb (λ t, bool_decide (sig_raw t = sig_raw s)) acc then acc else acc ++ [s]) recorded new.

(** [abort_triggers] of a collector that is there, judges by [p] and is armed. *)
Definition abort_triggers (p : option DoomLoopRecoveryPolicy) (armed : bool) (recorded : list DoomLoopSignal) : option (list rstr) :=
  match p with
  | Some p => if armed then match confident_triggers p recorded with [] => None | ts => Some ts end else None
  | None => None
  end.

Section l2.
Context (status_text : Z → rstr).

(** The signals a completed response carries are those of the collector. *)
Definition with_signals (p : option DoomLoopRecoveryPolicy) (recorded : list DoomLoopSignal) (e : SamplingEvent) : SamplingEvent :=
  match e with
  | Completed r n =>
      Completed (mkResponse (r_items r) (r_stop_reason r) (r_usage r) (match p with Some _ => recorded | None => [] end)) n
  | _ => e
  end.

(** [stream_responses_tracked]: chunk [n] and on. *)
Fixpoint track_responses (p : option DoomLoopRecoveryPolicy) (armed : bool) (recorded : list DoomLoopSignal) (n : Z)
    (chunks : list Chunk) (late : list DoomLoopSignal) (finish : list SamplingEvent) : list L2Item :=
  match chunks with
  | [] => LEvent <$> (with_signals p (record_signals recorded late) <$> finish)
  | ChunkErr e :: _ => [LCaught e; LEvent (Failed (info_from status_text e))]
  | ChunkOk signals may_output events :: chunks =>
      let recorded := record_signals recorded signals in
      (if may_output then [LOutput] else []) ++
      match abort_triggers p armed recorded with
      | Some ts => [LEvent (Failed (info_from status_text (DoomLoopDetected ts (Some n))))]
      | None => (LEvent <$> events) ++ track_responses p armed recorded (n + 1) chunks late finish
      end
  end.

(** The transforms of the other backends. *)
Fixpoint plain_l2 (chunks : list Chunk) (finish : list SamplingEvent) : list L2Item :=
  match chunks with
  | [] => LEvent <$> finish
  | ChunkErr e :: _ => [LCaught e; LEvent (Failed (info_from status_text e))]
  | ChunkOk _ _ events :: chunks => (LEvent <$> events) ++ plain_l2 chunks finish
  end.
End l2.

(** * The task *)

Record TaskPolicy : Type := mkTaskPolicy {
  tp_max_retries : Z;
  tp_rate_limit_retry_threshold : Z;
  retry_only_before_output : bool;
}.

Record SamplerEnv : Type := mkSamplerEnv {
  status_text : Z → rstr;
  api_backend : ApiBackend;
  config_max_retries : option Z;
  env_max_retries : option rstr;                      (* INTELLIHELPER_MAX_RETRIES *)
  doom_loop_recovery : option DoomLoopRecoveryPolicy;
  policy : TaskPolicy;
  client_new : bool → option SamplingError;           (* of force_http1: the error, if any *)
  attempt_of : nat → list RequestItem → bool → AttemptReply;
  cancelled : nat → bool;
  hash_of : nat → Z;
}.

Record Attempt : Type := mkAttempt { at_request : list RequestItem; at_http1 : bool; at_armed : bool; at_observed : bool }.

Definition CompletionResult : Type := ConversationResponse * Z + SamplingError.

Record SWorld : Type := mkSWorld {
  sticks : nat;
  observed : bool;
  attempts : list Attempt;
  waits : list Z;
  events : list SamplingEvent;
  completion_tx : bool;                               (* the sender is still there *)
  completions : list CompletionResult;
}.

#[global] Instance sworld_eta : Eta SWorld :=
  λ w, mkSWorld (sticks w) (observed w) (attempts w) (waits w) (events w) (completion_tx w) (completions w).

Definition T : Type → Type := St SWorld.

Inductive TaskOutcome : Type :=
| OCompleted (r : ConversationResponse)
| OEmpty (c : EmptyResponseContext)
| OFailed (e : SamplingError)
| OCancelled
| OInitFailed (e : SamplingError).

Section task.
Context (se : SamplerEnv).

Definition ask_env {A} (answer : nat → A) : T A := λ w, (answer (sticks w), w <| sticks ::= S |>).
Definition send (e : SamplingEvent) : T unit := λ w, (tt, w <| events ::= λ l, l ++ [e] |>).
Definition mark_observed : T unit := λ w, (tt, w <| observed := true |>).
Definition is_observed : T bool := λ w, (observed w, w).
Definition is_cancelled : T bool := ask_env (cancelled se).

Definition send_completion (r : CompletionResult) : T unit :=
  λ w, (tt, if completion_tx w then w <| completion_tx := false |> <| completions ::= λ l, l ++ [r] |> else w).

Definition info (e : SamplingError) : SamplingErrorInfo := info_from (status_text se) e.

Definition emit_failed (e : SamplingError) : T unit := send (Failed (info e)).

Definition emit_retrying (attempt max_retries : Z) (e : SamplingError) : T unit :=
  send (Retrying attempt max_retries (i_kind (info e)) (display (status_text se) e) (i_doom_loop_triggers (info e))
          (i_doom_loop_aborted_at_chunk (info e))).

Definition cancelled_info : SamplingErrorInfo :=
  mkInfo KApi None (lit "request cancelled") false None None None None None None CredUnknown.

Definition handle_cancellation : T unit :=
  _ ← send (Failed cancelled_info);
  send_completion (inr (auth_unknown (lit "request cancelled"))).

Definition wait (ms : Z) : T unit := λ w, (tt, w <| waits ::= λ l, l ++ [ms] |>).
Definition begin_attempt (a : Attempt) : T unit := λ w, (tt, w <| attempts ::= λ l, l ++ [a] |>).

(** [false] when the token fires first. *)
Definition sleep_or_cancel (ms : Z) : T bool :=
  c ← is_cancelled;
  if (c : bool) then mret false else _ ← wait ms; mret true.

(** ** One attempt *)

(** A completed response is judged: a loop, a truncation, nothing in it, or an
    answer. *)
Definition judge (doom_check : option DoomLoopRecoveryPolicy) (r : ConversationResponse) : TaskOutcome :=
  let triggers := match doom_check with Some p => confident_triggers p (r_doom_loop_signals r) | None => [] end in
  match triggers with
  | _ :: _ => OFailed (DoomLoopDetected triggers None)
  | [] =>
      match r_stop_reason r with
      | Some StopLength => OFailed MaxTokensTruncation
      | Some StopContentFilter => OCompleted r
      | _ => match empty_reason r with
             | Some reason => OEmpty (build_empty_context reason r)
             | None => OCompleted r
             end
      end
  end.

(** [captured] is the tee's cell: the first error. *)
Fixpoint drive_l2 (doom_check : option DoomLoopRecoveryPolicy) (captured : option SamplingError) (l2 : list L2Item) : T TaskOutcome :=
  match l2 with
  | LOutput :: l2 => _ ← mark_observed; drive_l2 doom_check captured l2
  | LCaught e :: l2 =>
      drive_l2 doom_check (match captured with Some c => Some c | None => Some (clone_error e) end) l2
  | LEvent e :: l2 =>
      c ← is_cancelled;
      if (c : bool) then mret OCancelled
      else
        match e with
        | Completed r _ => _ ← mark_observed; mret (judge doom_check r)
        | Failed i => mret (OFailed (default (synthesize_from_info i) captured))
        | _ =>
            _ ← (if shows_output e then mark_observed else mret tt);
            _ ← send e;
            drive_l2 doom_check captured l2
        end
  | [] =>
      c ← is_cancelled;
      if (c : bool) then mret OCancelled
      else mret (OFailed (EventStreamError (lit "stream dropped without terminal event")))
  end.

Definition run_one_attempt (http1 : bool) (request : list RequestItem) (doom_check : option DoomLoopRecoveryPolicy) : T TaskOutcome :=
  let armed := match doom_check with Some _ => true | None => false end in
  o ← is_observed;
  _ ← begin_attempt (mkAttempt request http1 armed o);
  reply ← ask_env (λ n, attempt_of se n request http1);
  match reply with
  | InitError e => mret (OInitFailed e)
  | Stream chunks late finish =>
      match api_backend se with
      | Responses =>
          drive_l2 doom_check None (track_responses (status_text se) (doom_loop_recovery se) armed [] 0 chunks late finish)
      | _ => drive_l2 None None (plain_l2 (status_text se) chunks finish)
      end
  end.

(** ** What follows a failure *)

(** The request, the kind of client and the number of retries the next attempt
    has; nothing when there is none. *)
Definition Next : Type := option (list RequestItem * bool * Z).

Definition rate_limit_threshold : Z :=
  if tp_rate_limit_retry_threshold (policy se) =? 0 then RATE_LIMIT_RETRY_THRESHOLD
  else tp_rate_limit_retry_threshold (policy se).

Definition end_with (e : SamplingError) : T Next :=
  _ ← emit_failed e; _ ← send_completion (inr e); mret None.

(** Wait, then go on with [next]. *)
Definition wait_then (backoff : Z) (next : list RequestItem * bool * Z) : T Next :=
  slept ← sleep_or_cancel backoff;
  if (slept : bool) then mret (Some next) else _ ← handle_cancellation; mret None.

Definition apply_retry_decision (err : SamplingError) (request : list RequestItem) (http1 : bool) (retry_count max_retries : Z) : T Next :=
  hash ← ask_env (hash_of se);
  let decision := classify_error hash err retry_count max_retries rate_limit_threshold in
  let request := if is_likely_body_rejected err then (strip_images request).1 else request in
  let count := next_count retry_count in
  match decision with
  | Retry backoff => _ ← emit_retrying count max_retries err; wait_then backoff (request, http1, count)
  | RetryWithBackoff backoff _ => _ ← emit_retrying count max_retries err; wait_then backoff (request, http1, count)
  | RetryWithImageStrip =>
      let '(stripped, n) := strip_images request in
      if (n =? 0)%nat then
        _ ← emit_failed err; _ ← send_completion (inr (clone_error err)); mret None
      else _ ← emit_retrying count max_retries err; mret (Some (stripped, http1, count))
  | RetryWithClientRebuild backoff =>
      _ ← emit_retrying count max_retries err;
      wait_then backoff (request, match client_new se true with None => true | Some _ => http1 end, count)
  | EmitToSession e => end_with e
  | Fatal e => end_with e
  end.

(** ** The loop *)

Definition max_retries_of : Z :=
  let configured := match config_max_retries se with Some n => Some n | None => Some (tp_max_retries (policy se)) end in
  if bool_decide (configured = Some 0) then 0 else resolve_max_retries_with_env (env_max_retries se) configured.

Definition doom_policy : option DoomLoopRecoveryPolicy := if 0 <? max_retries_of then doom_loop_recovery se else None.
Definition doom_budget : Z := match doom_policy with Some p => doom_max_retries p | None => 0 end.

(** [None] when the fuel runs out. *)
Fixpoint request_loop (fuel : nat) (request : list RequestItem) (http1 : bool) (retry_count doom_retry_count : Z) : T (option unit) :=
  match fuel with
  | O => mret None
  | S fuel =>
      c ← is_cancelled;
      if (c : bool) then _ ← handle_cancellation; mret (Some tt)
      else
        let doom_check := if doom_retry_count <? doom_budget then doom_policy else None in
        outcome ← run_one_attempt http1 request doom_check;
        seen ← is_observed;
        let closed := retry_only_before_output (policy se) && seen in
        let effective_max_retries := if closed then 0 else max_retries_of in
        let transport e :=
          next ← apply_retry_decision e request http1 retry_count effective_max_retries;
          match next with
          | Some (request, http1, retry_count) => request_loop fuel request http1 retry_count doom_retry_count
          | None => mret (Some tt)
          end in
        match outcome with
        | OCompleted r =>
            let n := next_count (wrap 32 (retry_count + doom_retry_count)) in
            _ ← send (Completed r n);
            _ ← send_completion (inl (r, n));
            mret (Some tt)
        | OEmpty context => transport (EmptyResponse context)
        | OFailed (DoomLoopDetected ts chunk as error) =>
            if closed then
              _ ← emit_failed error; _ ← send_completion (inr (clone_error error)); mret (Some tt)
            else
              hash ← ask_env (hash_of se);
              let count := next_count doom_retry_count in
              _ ← emit_retrying count doom_budget error;
              slept ← sleep_or_cancel (doom_loop_backoff hash);
              if (slept : bool) then request_loop fuel request http1 retry_count count
              else _ ← handle_cancellation; mret (Some tt)
        | OFailed error => transport error
        | OCancelled => _ ← handle_cancellation; mret (Some tt)
        | OInitFailed error => transport error
        end
  end.

Definition run_request_task (fuel : nat) (request : list RequestItem) : T (option unit) :=
  match client_new se false with
  | Some err => _ ← emit_failed err; _ ← send_completion (inr err); mret (Some tt)
  | None => request_loop fuel request false 0 0
  end.
End task.

(** A task starts with a caller that may wait for the answer. *)
Definition task_start (waiting : bool) : SWorld := mkSWorld 0 false [] [] [] waiting [].
