(* ===== verification/SamplerThms.v ===== *)
(** What a request of the sampler keeps: it ends, with one answer; the attempts
    and the waits are bounded; output is not sampled over; and which error is
    tried again. *)
From S2P Require Import Prelude Str RetryPolicy SamplerError SamplerRetry SamplerTask.

(** * The loop, one round at a time *)

Lemma task_bind_run {A B} (m : T A) (k : A → T B) w : (x ← m; k x) w = k (m w).1 (m w).2.
Proof. unfold mbind, T, St_bind. by destruct (m w). Qed.

Record LoopState : Type := mkLoopState {
  ls_request : list RequestItem;
  ls_http1 : bool;
  ls_retries : Z;
  ls_dooms : Z;
}.

Section rounds.
Context (se : SamplerEnv).

(** What an error of the transport leads to. *)
Definition after_error (s : LoopState) (closed : bool) (e : SamplingError) : T (option LoopState) :=
  next ← apply_retry_decision se e (ls_request s) (ls_http1 s) (ls_retries s) (if closed then 0 else max_retries_of se);
  mret ((λ n, mkLoopState n.1.1 n.1.2 n.2 (ls_dooms s)) <$> next).

(** What an outcome leads to. *)
Definition after_outcome (s : LoopState) (closed : bool) (o : TaskOutcome) : T (option LoopState) :=
  match o with
  | OCompleted r =>
      let n := next_count (wrap 32 (ls_retries s + ls_dooms s)) in
      _ ← send (Completed r n);
      _ ← send_completion (inl (r, n));
      mret None
  | OEmpty context => after_error s closed (EmptyResponse context)
  | OFailed (DoomLoopDetected _ _ as error) =>
      if closed then _ ← emit_failed se error; _ ← send_completion (inr (clone_error error)); mret None
      else
        hash ← ask_env (hash_of se);
        let count := next_count (ls_dooms s) in
        _ ← emit_retrying se count (doom_budget se) error;
        slept ← sleep_or_cancel se (doom_loop_backoff hash);
        if (slept : bool) then mret (Some (mkLoopState (ls_request s) (ls_http1 s) (ls_retries s) count))
        else _ ← handle_cancellation; mret None
  | OFailed error => after_error s closed error
  | OCancelled => _ ← handle_cancellation; mret None
  | OInitFailed error => after_error s closed error
  end.

Definition doom_check_of (s : LoopState) : option DoomLoopRecoveryPolicy :=
  if ls_dooms s <? doom_budget se then doom_policy se else None.

Definition round (s : LoopState) : T (option LoopState) :=
  c ← is_cancelled se;
  if (c : bool) then _ ← handle_cancellation; mret None
  else
    outcome ← run_one_attempt se (ls_http1 s) (ls_request s) (doom_check_of s);
    seen ← is_observed;
    after_outcome s (retry_only_before_output (policy se) && seen) outcome.

Definition loop_from (fuel : nat) (s : LoopState) : T (option unit) :=
  request_loop se fuel (ls_request s) (ls_http1 s) (ls_retries s) (ls_dooms s).

(** Two computations that agree on every world. *)
Lemma bind_ext {A B} (m : T A) (k k' : A → T B) w : (∀ a w', k a w' = k' a w') → (x ← m; k x) w = (x ← m; k' x) w.
Proof. intros H. rewrite !task_bind_run. apply H. Qed.

Lemma bind_assoc {A B C} (m : T A) (k : A → T B) (l : B → T C) w :
  (y ← (x ← m; k x); l y) w = (x ← m; y ← k x; l y) w.
Proof. rewrite !task_bind_run. reflexivity. Qed.

Definition continue (fuel : nat) (next : option LoopState) : T (option unit) :=
  match next with Some s => loop_from fuel s | None => mret (Some tt) end.

Lemma error_unfold fuel s (closed : bool) e w :
  (next ← (apply_retry_decision se e (ls_request s) (ls_http1 s) (ls_retries s) (if closed then 0 else max_retries_of se) : T Next);
   match next with
   | Some (request, http1, retry_count) => request_loop se fuel request http1 retry_count (ls_dooms s)
   | None => mret (Some tt)
   end) w = (n ← after_error s closed e; continue fuel n) w.
Proof.
  unfold after_error. rewrite bind_assoc. apply bind_ext. intros [[[r h] n]|] w'; [|reflexivity]. reflexivity.
Qed.

Lemma loop_unfold fuel s w : loop_from (S fuel) s w = (next ← round s; continue fuel next) w.
Proof.
  unfold loop_from, round. cbn [request_loop]. rewrite bind_assoc. apply bind_ext. intros [|] w1.
  { rewrite bind_assoc. reflexivity. }
  rewrite bind_assoc. apply bind_ext. intros o w2. rewrite bind_assoc. apply bind_ext. intros seen w3.
  unfold after_outcome. destruct o as [r|c|e| |e].
  - rewrite bind_assoc. apply bind_ext. intros _ w4. rewrite bind_assoc. reflexivity.
  - apply error_unfold.
  - destruct e; try apply error_unfold. destruct (_ && _).
    + rewrite bind_assoc. apply bind_ext. intros _ w4. rewrite bind_assoc. reflexivity.
    + rewrite bind_assoc. apply bind_ext. intros h w4. rewrite bind_assoc. apply bind_ext. intros _ w5.
      rewrite bind_assoc. apply bind_ext. intros [|] w6; [reflexivity|]. rewrite bind_assoc. reflexivity.
  - rewrite bind_assoc. reflexivity.
  - apply error_unfold.
Qed.
End rounds.

(** * What the environment keeps to

    Loops are detected by this client only, and a [Retry-After] is what
    [extract_retry_after] lets through. *)

Definition mild_wait (secs : option Z) : Prop := ∀ s, secs = Some s → 0 ≤ s ≤ 120.

Definition sane_error (e : SamplingError) : Prop := mild_wait (retry_after e) ∧ is_doom e = false.

Definition sane_event (e : SamplingEvent) : Prop :=
  match e with Failed i => mild_wait (i_retry_after_secs i) ∧ i_kind i ≠ KDoomLoopDetected | _ => True end.

Definition sane_chunk (c : Chunk) : Prop :=
  match c with ChunkErr e => sane_error e | ChunkOk _ _ events => Forall sane_event events end.

Definition sane_reply (r : AttemptReply) : Prop :=
  match r with InitError e => sane_error e | Stream chunks _ finish => Forall sane_chunk chunks ∧ Forall sane_event finish end.

Definition sane_env (se : SamplerEnv) : Prop := ∀ n request http1, sane_reply (attempt_of se n request http1).

Lemma mild_none : mild_wait None.
Proof. by intros s. Qed.

Lemma extracted_mild header : mild_wait (extract_retry_after header).
Proof.
  intros s. unfold extract_retry_after. destruct header as [t|]; [|done]. cbn.
  destruct (parse_uint 64 t) as [n|] eqn:E; [|done]. cbn. intros [= <-].
  apply parse_uint_range in E; [|vm_compute; discriminate]. unfold uint in E. lia.
Qed.

(** * One attempt *)

Definition nonterminal (e : SamplingEvent) : Prop := match e with Completed _ _ | Failed _ => False | _ => True end.

(** What a computation leaves alone, and the events it adds. *)
Definition tacit (w w' : SWorld) : Prop :=
  attempts w' = attempts w ∧ waits w' = waits w ∧ completion_tx w' = completion_tx w ∧
  completions w' = completions w ∧ (observed w = true → observed w' = true) ∧
  ∃ evs, events w' = events w ++ evs ∧ Forall nonterminal evs.

Lemma tacit_refl w : tacit w w.
Proof. split_and!; try done. exists []. by rewrite app_nil_r. Qed.

Lemma tacit_trans w1 w2 w3 : tacit w1 w2 → tacit w2 w3 → tacit w1 w3.
Proof.
  intros (A1 & B1 & C1 & D1 & E1 & l1 & F1 & G1) (A2 & B2 & C2 & D2 & E2 & l2 & F2 & G2).
  split_and!; [congruence..|tauto|]. exists (l1 ++ l2). rewrite F2, F1, app_assoc. by split; [|apply Forall_app].
Qed.

Lemma tacit_ask {A} (f : nat → A) w : tacit w (ask_env f w).2.
Proof. split_and!; try done. exists []. by rewrite app_nil_r. Qed.

Lemma tacit_mark w : tacit w (mark_observed w).2.
Proof. split_and!; try done. exists []. by rewrite app_nil_r. Qed.

Lemma tacit_send e w : nonterminal e → tacit w (send e w).2.
Proof. intros He. split_and!; try done. exists [e]. split; [done|]. by constructor. Qed.

Definition item_ok (armed : bool) (i : L2Item) : Prop :=
  match i with
  | LCaught e => sane_error e
  | LEvent (Failed i) => mild_wait (i_retry_after_secs i) ∧ (i_kind i = KDoomLoopDetected → armed = true)
  | _ => True
  end.

Definition outcome_ok (armed : bool) (o : TaskOutcome) : Prop :=
  match o with
  | OFailed e => mild_wait (retry_after e) ∧ (is_doom e = true → armed = true)
  | OInitFailed e => sane_error e
  | _ => True
  end.

Lemma item_of_event armed e : sane_event e → item_ok armed (LEvent e).
Proof. by destruct e as [| | | | | | | |i| | |]; try done; intros [? ?]. Qed.

Lemma items_of_events armed es : Forall sane_event es → Forall (item_ok armed) (LEvent <$> es).
Proof. intros H. apply Forall_fmap, (Forall_impl _ _ _ H). intros e. apply item_of_event. Qed.

Lemma item_of_error status_text armed e : sane_error e → item_ok armed (LEvent (Failed (info_from status_text e))).
Proof. intros [Hm Hd]. split; [exact Hm|]. destruct e; cbn; try done. by destruct (_ =? _). Qed.

Lemma plain_ok status_text chunks finish :
  Forall sane_chunk chunks → Forall sane_event finish → Forall (item_ok false) (plain_l2 status_text chunks finish).
Proof.
  intros Hc Hf. induction Hc as [|[e|sig out es] chunks H _ IH]; cbn [plain_l2]; [by apply items_of_events| |].
  - constructor; [exact H|]. constructor; [by apply item_of_error|constructor].
  - apply Forall_app. split; [by apply items_of_events|done].
Qed.

Lemma sane_with_signals p rec e : sane_event e → sane_event (with_signals p rec e).
Proof. by destruct e. Qed.

Lemma track_ok status_text p armed rec n chunks late finish :
  Forall sane_chunk chunks → Forall sane_event finish →
  Forall (item_ok armed) (track_responses status_text p armed rec n chunks late finish).
Proof.
  intros Hc Hf. revert rec n. induction Hc as [|[e|sig out es] chunks H _ IH]; intros rec n; cbn [track_responses].
  - apply items_of_events, Forall_fmap, (Forall_impl _ _ _ Hf). intros e. apply sane_with_signals.
  - constructor; [exact H|]. constructor; [by apply item_of_error|constructor].
  - apply Forall_app. split; [destruct out; by repeat constructor|].
    destruct (abort_triggers p armed _) as [ts|] eqn:Ha.
    + constructor; [|constructor]. split; [exact mild_none|]. intros _. unfold abort_triggers in Ha.
      by destruct p, armed.
    + apply Forall_app. split; [by apply items_of_events|apply IH].
Qed.

Lemma synthesized_mild i : mild_wait (i_retry_after_secs i) → mild_wait (retry_after (synthesize_from_info i)).
Proof. intros H. unfold synthesize_from_info. repeat case_match; try exact H; exact mild_none. Qed.

Lemma synthesized_doom i : is_doom (synthesize_from_info i) = true → i_kind i = KDoomLoopDetected.
Proof. unfold synthesize_from_info. by repeat case_match. Qed.

Lemma clone_sane e : sane_error e → sane_error (clone_error e).
Proof. by destruct e. Qed.

Lemma judge_ok check r : outcome_ok (match check with Some _ => true | None => false end) (judge check r).
Proof.
  unfold judge. destruct check as [p|]; [|repeat case_match; try done; by split; [exact mild_none|]].
  repeat case_match; try done; by split; [exact mild_none|].
Qed.

Section attempt.
Context (se : SamplerEnv).

Lemma drive_tacit check captured l2 w : tacit w (drive_l2 se check captured l2 w).2.
Proof.
  revert captured w. induction l2 as [|i l2 IH]; intros captured w; cbn [drive_l2].
  - rewrite task_bind_run. apply (tacit_trans _ _ _ (tacit_ask (cancelled se) w)).
    destruct (is_cancelled se w).1; apply tacit_refl.
  - destruct i as [|e|e]; [|apply IH|].
    + rewrite task_bind_run. apply (tacit_trans _ _ _ (tacit_mark w)), IH.
    + rewrite task_bind_run. unfold is_cancelled. pose proof (tacit_ask (cancelled se) w) as Hq1.
      destruct (ask_env (cancelled se) w).1; [done|]. apply (tacit_trans _ _ _ Hq1).
      set (w1 := (ask_env (cancelled se) w).2) in *.
      assert (∀ (m : T unit), nonterminal e → tacit w1 (m w1).2 →
        tacit w1 ((_ ← m; _ ← send e; drive_l2 se check captured l2) w1).2) as Hfwd.
      { intros m He Hm. rewrite !task_bind_run. apply (tacit_trans _ _ _ Hm). eapply tacit_trans; [by apply tacit_send|apply IH]. }
      assert (tacit w1 w1) as Hrefl by apply tacit_refl.
      destruct e; cbn [shows_output]; try (by apply Hfwd, tacit_mark || by apply Hfwd); [|exact Hrefl].
      rewrite task_bind_run. apply tacit_mark.
Qed.

Lemma drive_ok check armed captured l2 w :
  Forall (item_ok armed) l2 → (∀ e, captured = Some e → sane_error e) →
  armed = match check with Some _ => true | None => false end →
  outcome_ok armed (drive_l2 se check captured l2 w).1.
Proof.
  intros Hl Hcap ->. revert captured Hcap w. induction Hl as [|i l2 Hi Hl IH]; intros captured Hcap w; cbn [drive_l2].
  - rewrite task_bind_run. destruct (is_cancelled se w).1; [done|]. by split; [exact mild_none|].
  - destruct i as [|e|e].
    + rewrite task_bind_run. by apply IH.
    + apply IH. intros e'. destruct captured as [c|]; intros [= <-]; [by apply Hcap|]. by apply clone_sane.
    + rewrite task_bind_run. destruct (is_cancelled se w).1; [done|].
      destruct e as [| | | | | |r n| |i| | |]; rewrite ?task_bind_run; try by apply IH.
      * apply judge_ok.
      * destruct Hi as [Hm Hd]. destruct captured as [c|]; cbn.
        -- destruct (Hcap c eq_refl) as [? Hdc]. split; [done|]. by rewrite Hdc.
        -- split; [by apply synthesized_mild|]. intros H. by apply Hd, synthesized_doom.
Qed.

Definition armed_by (check : option DoomLoopRecoveryPolicy) : bool := match check with Some _ => true | None => false end.

(** An attempt is recorded with what had been shown before it. *)
Lemma attempt_spec http1 request check w :
  tacit (begin_attempt (mkAttempt request http1 (armed_by check) (observed w)) w).2 (run_one_attempt se http1 request check w).2.
Proof.
  unfold run_one_attempt. rewrite !task_bind_run. cbn [is_observed fst snd].
  set (w1 := (begin_attempt _ w).2). eapply tacit_trans; [apply (tacit_ask (λ n, attempt_of se n request http1) w1)|].
  destruct (ask_env _ w1).1; [apply tacit_refl|]. destruct (api_backend se); apply drive_tacit.
Qed.

Lemma attempt_ok http1 request check w : sane_env se → outcome_ok (armed_by check) (run_one_attempt se http1 request check w).1.
Proof.
  intros Hse. unfold run_one_attempt. rewrite !task_bind_run. unfold ask_env. cbn [is_observed begin_attempt fst snd].
  pose proof (Hse (sticks (w <| attempts ::= λ l, l ++ [mkAttempt request http1 (armed_by check) (observed w)] |>)) request http1) as Hs.
  unfold armed_by in *. destruct (attempt_of _ _ _ _) as [e|chunks late finish]; [exact Hs|]. destruct Hs as [Hc Hf].
  assert (∀ o, outcome_ok false o → outcome_ok (match check with Some _ => true | None => false end) o) as Hweak.
  { intros [| |e| |] Ho; try done. destruct Ho as [Hm Hd]. split; [done|]. intros H. by apply Hd in H. }
  destruct (api_backend se); try (apply Hweak, drive_ok; [by apply plain_ok|done|done]).
  apply drive_ok; [by apply track_ok|done|done].
Qed.
End attempt.

(** * The end *)

(** The terminal event and what the waiting caller gets tell the same. *)
Definition answers (status_text : Z → rstr) (e : SamplingEvent) (r : CompletionResult) : Prop :=
  match e, r with
  | Completed response n, inl (response', n') => response = response' ∧ n = n'
  | Failed i, inr err =>
      (i = cancelled_info ∧ err = auth_unknown (lit "request cancelled")) ∨
      (∃ e0, i = info_from status_text e0 ∧ (err = e0 ∨ err = clone_error e0))
  | _, _ => False
  end.

(** One terminal event after some that are not, and one answer to who waits. *)
Definition ends (status_text : Z → rstr) (w w' : SWorld) : Prop :=
  waits w' = waits w ∧ attempts w' = attempts w ∧
  ∃ evs e r, events w' = events w ++ evs ++ [e] ∧ Forall nonterminal evs ∧ answers status_text e r ∧
    completions w' = completions w ++ (if completion_tx w then [r] else []).

Lemma tacit_ends st w1 w2 w3 : tacit w1 w2 → ends st w2 w3 → ends st w1 w3.
Proof.
  intros (A1 & B1 & C1 & D1 & _ & l1 & F1 & G1) (B2 & A2 & l2 & e & r & F2 & G2 & H2 & D2).
  split_and!; [congruence..|]. exists (l1 ++ l2), e, r. rewrite F2, F1, D2, D1, C1, <- !app_assoc.
  split_and!; [done|by apply Forall_app|done|done].
Qed.


Section steps.
Context (se : SamplerEnv).

Lemma ends_with e r w : answers (status_text se) e r → ends (status_text se) w ((_ ← send e; send_completion r) w).2.
Proof.
  intros H. rewrite task_bind_run. unfold send_completion, send. cbn [fst snd]. destruct (completion_tx w) eqn:E; cbn; rewrite E.
  - split_and!; [done..|]. exists [], e, r. by rewrite E.
  - split_and!; [done..|]. exists [], e, r. rewrite E, app_nil_r. done.
Qed.

Lemma ends_cancelled w : ends (status_text se) w (handle_cancellation w).2.
Proof. apply ends_with. left. done. Qed.

Lemma ends_failed e0 err w : err = e0 ∨ err = clone_error e0 → ends (status_text se) w ((_ ← emit_failed se e0; send_completion (inr err)) w).2.
Proof. intros H. apply ends_with. right. by exists e0. Qed.

(** Going on: events that are not terminal, and the waits [ws]. *)
Definition goes_on (w w' : SWorld) (ws : list Z) : Prop :=
  attempts w' = attempts w ∧ waits w' = waits w ++ ws ∧ completion_tx w' = completion_tx w ∧
  completions w' = completions w ∧ (observed w = true → observed w' = true) ∧
  ∃ evs, events w' = events w ++ evs ∧ Forall nonterminal evs.

Lemma tacit_goes_on w1 w2 w3 ws : tacit w1 w2 → goes_on w2 w3 ws → goes_on w1 w3 ws.
Proof.
  intros (A1 & B1 & C1 & D1 & E1 & l1 & F1 & G1) (A2 & B2 & C2 & D2 & E2 & l2 & F2 & G2).
  split_and!; [congruence..|tauto|]. exists (l1 ++ l2). rewrite F2, F1, app_assoc. by split; [|apply Forall_app].
Qed.

Lemma goes_on_tacit w : goes_on w w [].
Proof. split_and!; try done; [by rewrite app_nil_r|]. exists []. by rewrite app_nil_r. Qed.

(** Waiting either goes on with that wait or ends the request. *)
Lemma sleep_spec ms w :
  match (sleep_or_cancel se ms w).1 with
  | true => goes_on w (sleep_or_cancel se ms w).2 [ms]
  | false => tacit w (sleep_or_cancel se ms w).2
  end.
Proof.
  unfold sleep_or_cancel. rewrite task_bind_run. pose proof (tacit_ask (cancelled se) w) as Hq.
  unfold is_cancelled. destruct (ask_env (cancelled se) w).1; [exact Hq|]. rewrite task_bind_run. cbn [fst snd].
  apply (tacit_goes_on _ _ _ _ Hq). split_and!; try done. exists []. by rewrite app_nil_r.
Qed.

(** What the rest of the round may be, of what it waited for and where it goes
    on. *)
Definition next_or_end {A} (w : SWorld) (P : A → list Z → Prop) (r : option A * SWorld) : Prop :=
  match r.1 with
  | Some a => ∃ ws, goes_on w r.2 ws ∧ P a ws
  | None => ends (status_text se) w r.2
  end.

Lemma tacit_next_or_end {A} (P : A → list Z → Prop) w1 w2 r : tacit w1 w2 → next_or_end w2 P r → next_or_end w1 P r.
Proof.
  intros Hq. unfold next_or_end. destruct r as [[a|] w3]; cbn; [|by apply tacit_ends].
  intros (ws & Hg & HP). exists ws. split; [by eapply tacit_goes_on|done].
Qed.

Lemma wait_then_spec b next w : next_or_end w (λ n ws, n = next ∧ ws = [b]) (wait_then se b next w).
Proof.
  unfold wait_then. rewrite task_bind_run. pose proof (sleep_spec b w) as H.
  destruct (sleep_or_cancel se b w) as [[|] w']; cbn [fst snd] in *.
  - exists [b]. done.
  - rewrite task_bind_run. apply (tacit_next_or_end _ _ w'); [done|]. apply ends_cancelled.
Qed.

(** What may be done about an error, with what wait. *)
Definition sane_wait (e : SamplingError) (count max thr b : Z) : Prop :=
  count < max ∧ (0 ≤ b ≤ 36000 ∨ (is_rate_limited e = true ∧ count < thr ∧ 0 ≤ b ≤ 120000)).

Lemma classify_waits hash e n max thr :
  sane_error e →
  match classify_error hash e n max thr with
  | Retry b | RetryWithClientRebuild b => sane_wait e (next_count n) max thr b
  | RetryWithBackoff b _ => sane_wait e (next_count n) max thr b
  | RetryWithImageStrip => max ≠ 0
  | EmitToSession e' | Fatal e' => e' = clone_error e
  end.
Proof.
  intros [Hm Hd]. unfold classify_error.
  destruct (is_auth_error e); [done|]. destruct (is_encrypted_content_error e); [done|].
  destruct (Z.eqb_spec max 0); [done|]. destruct (is_payload_too_large e); [done|].
  destruct (is_image_processing_error e); [done|]. destruct (is_retry_vetoed e); [done|].
  assert (∀ b, match retry_after e with Some s => b = jittered hash (Z.min (s * 1000) MAX_RETRY_BACKOFF)
    | None => b = retry_backoff_with_jitter hash (next_count n) end → 0 ≤ b ≤ 36000) as Hb.
  { intros b. destruct (retry_after e) as [s|]; intros ->; [|apply retry_backoff_range].
    specialize (Hm s eq_refl). set (m := Z.min (s * 1000) MAX_RETRY_BACKOFF).
    assert (0 ≤ m ≤ 30000) by (unfold m, MAX_RETRY_BACKOFF; lia). pose proof (jittered_bounds hash m ltac:(lia)).
    assert (m / 5 ≤ 6000) by (apply Z.div_le_upper_bound; lia). assert (m / 5 ≤ m) by (apply Z.div_le_upper_bound; lia). lia. }
  rewrite Hd. cbv zeta.
  destruct (is_rate_limited e) eqn:Hr.
  - destruct (Z.leb_spec (Z.min max thr) (next_count n)); [done|]. split; [lia|].
    destruct (retry_after e) as [s|]; [|left; apply retry_backoff_range]. right. specialize (Hm s eq_refl). split_and!; [exact Hr|lia..].
  - destruct (is_retryable e); [|done]. destruct (Z.leb_spec max (next_count n)); [done|].
    destruct (next_count n =? 1); (split; [lia|]); left; apply Hb; by destruct (retry_after e).
Qed.
End steps.

(** * What follows an attempt *)

Definition image_count (request : list RequestItem) : nat := sum_list (images_of <$> request).

Lemma strip_images_spec request : image_count (strip_images request).1 = 0%nat.
Proof.
  unfold image_count, strip_images. cbn [fst]. induction request as [|i request IH]; [done|]. cbn.
  rewrite IH. destruct i as [content| |]; cbn; [|done..]. rewrite Nat.add_0_r.
  induction content as [|p content IHc]; [done|]. cbn. by destruct p.
Qed.

(** The next attempt after an error: the count is one up, the budget is not
    shut; either a wait the error allows, or images that went. *)
Definition step_ok (e : SamplingError) (request : list RequestItem) (n max thr : Z) (next : list RequestItem * bool * Z) (ws : list Z) : Prop :=
  next.2 = next_count n ∧ max ≠ 0 ∧ (image_count next.1.1 ≤ image_count request)%nat ∧
  (sane_error e →
   (∃ b, ws = [b] ∧ sane_wait e (next_count n) max thr b) ∨
   (ws = [] ∧ (0 < image_count request)%nat ∧ image_count next.1.1 = 0%nat)).

Section next.
Context (se : SamplerEnv).

Lemma classify_shut hash e n thr :
  match classify_error hash e n 0 thr with EmitToSession e' | Fatal e' => e' = clone_error e | _ => False end.
Proof. unfold classify_error. by destruct (is_auth_error e), (is_encrypted_content_error e). Qed.

Lemma classify_gives_up hash e n max thr :
  match classify_error hash e n max thr with EmitToSession e' | Fatal e' => e' = clone_error e | _ => max ≠ 0 end.
Proof.
  destruct (Z.eqb_spec max 0) as [->|Hne]; [pose proof (classify_shut hash e n thr); by destruct (classify_error _ _ _ _ _)|].
  unfold classify_error. rewrite (proj2 (Z.eqb_neq _ _) Hne). cbv zeta.
  repeat match goal with |- context [if ?c then _ else _] => destruct c; try done end.
Qed.

Lemma tacit_retrying a m e w : tacit w (emit_retrying se a m e w).2.
Proof. by apply tacit_send. Qed.

Lemma end_with_spec e e' (P : list RequestItem * bool * Z → list Z → Prop) w : e' = clone_error e → next_or_end se w P (end_with se e' w).
Proof.
  intros _. unfold next_or_end, end_with, emit_failed. rewrite !task_bind_run. cbn [fst snd].
  pose proof (ends_failed se e' e' w (or_introl eq_refl)) as H. rewrite task_bind_run in H. exact H.
Qed.

Lemma next_or_end_impl {A} (P Q : A → list Z → Prop) w r : (∀ a ws, P a ws → Q a ws) → next_or_end se w P r → next_or_end se w Q r.
Proof. unfold next_or_end. destruct r as [[a|] w']; [|done]. intros H (ws & ? & ?). exists ws. auto. Qed.

Lemma waits_after (hash : Z) e request h n max (thr b : Z) request' w :
  max ≠ 0 → (image_count request' ≤ image_count request)%nat → (sane_error e → sane_wait e (next_count n) max thr b) →
  next_or_end se w (step_ok e request n max thr) ((_ ← emit_retrying se (next_count n) max e; wait_then se b (request', h, next_count n)) w).
Proof.
  intros Hne Hi Hw. rewrite task_bind_run. eapply tacit_next_or_end; [apply tacit_retrying|].
  eapply next_or_end_impl; [|apply wait_then_spec]. intros nx ws [-> ->]. split_and!; [done..|].
  intros Hs. left. exists b. auto.
Qed.

Lemma retry_decision_spec e request h n max w :
  next_or_end se w (step_ok e request n max (rate_limit_threshold se)) (apply_retry_decision se e request h n max w).
Proof.
  unfold apply_retry_decision. rewrite task_bind_run.
  eapply tacit_next_or_end; [apply (tacit_ask (hash_of se))|]. set (hash := (ask_env _ w).1). set (w1 := (ask_env _ w).2).
  set (request' := if is_likely_body_rejected e then _ else request).
  assert (image_count request' ≤ image_count request)%nat as Hi.
  { unfold request'. destruct (is_likely_body_rejected e); [rewrite strip_images_spec; lia|done]. }
  pose proof (classify_gives_up hash e n max (rate_limit_threshold se)) as Hc.
  pose proof (classify_waits hash e n max (rate_limit_threshold se)) as Hw.
  cbv zeta. destruct (classify_error _ _ _ _ _) as [b|b rl| |b|e'|e'].
  - by apply waits_after.
  - by apply waits_after.
  - unfold strip_images at 1. fold (image_count request').
    destruct (Nat.eqb_spec (image_count request') 0) as [|Hn].
    + unfold next_or_end. rewrite !task_bind_run.
      pose proof (ends_failed se e (clone_error e) w1 (or_intror eq_refl)) as H. rewrite task_bind_run in H. exact H.
    + rewrite task_bind_run. eapply tacit_next_or_end; [apply tacit_retrying|]. unfold next_or_end. cbn [fst mret].
      exists []. split; [apply goes_on_tacit|]. pose proof (strip_images_spec request') as Hz. cbn in Hz.
      split_and!; [done|done|cbn; lia|]. intros _. right. cbn. split_and!; [done|lia|done].
  - by apply waits_after.
  - by apply (end_with_spec e).
  - by apply (end_with_spec e).
Qed.
End next.

(** * One round *)

Section round_spec.
Context (se : SamplerEnv).

(** What a round that goes on has used up. *)
Definition round_step (s s' : LoopState) (ws : list Z) : Prop :=
  (ls_dooms s < doom_budget se ∧ ls_dooms s' = next_count (ls_dooms s) ∧ ls_retries s' = ls_retries s ∧
   ls_request s' = ls_request s ∧ ∃ b, ws = [b] ∧ 0 ≤ b ≤ 250) ∨
  (ls_dooms s' = ls_dooms s ∧ ls_retries s' = next_count (ls_retries s) ∧ max_retries_of se ≠ 0 ∧
   (image_count (ls_request s') ≤ image_count (ls_request s))%nat ∧
   ((∃ b e, ws = [b] ∧ sane_wait e (ls_retries s') (max_retries_of se) (rate_limit_threshold se) b) ∨
    (ws = [] ∧ (0 < image_count (ls_request s))%nat ∧ image_count (ls_request s') = 0%nat))).

Definition goes_on_to (s : LoopState) (closed : bool) (o : TaskOutcome) (s' : LoopState) (ws : list Z) : Prop :=
  closed = false ∧ (sane_env se → outcome_ok (armed_by (doom_check_of se s)) o → round_step s s' ws).

Lemma after_error_spec s closed o e w :
  (outcome_ok (armed_by (doom_check_of se s)) o → sane_error e) →
  next_or_end se w (goes_on_to s closed o) (after_error se s closed e w).
Proof.
  intros He. unfold after_error. rewrite task_bind_run. set (max := if closed then 0 else max_retries_of se).
  pose proof (retry_decision_spec se e (ls_request s) (ls_http1 s) (ls_retries s) max w) as H.
  destruct (apply_retry_decision _ _ _ _ _ _ w) as [[[[req h] n]|] w']; [|exact H].
  unfold next_or_end in H |- *. cbn [fst snd] in H. destruct H as (ws & Hg & Hn & Hmax & Hi & Hs). exists ws. split; [exact Hg|].
  cbn [fst snd] in *. subst n. unfold max in *. destruct closed; [done|]. split; [done|]. intros _ Ho. right.
  cbn [ls_dooms ls_retries ls_request fmap option_fmap option_map fst snd]. split_and!; [done..|].
  destruct (Hs (He Ho)) as [(b & -> & Hb)|Hstrip]; [left; by exists b, e|by right].
Qed.

Lemma armed_by_budget s : armed_by (doom_check_of se s) = true → ls_dooms s < doom_budget se.
Proof. unfold doom_check_of. by destruct (Z.ltb_spec (ls_dooms s) (doom_budget se)). Qed.

Lemma after_outcome_spec s closed o w : next_or_end se w (goes_on_to s closed o) (after_outcome se s closed o w).
Proof.
  assert (∀ e, is_doom e = false → next_or_end se w (goes_on_to s closed (OFailed e)) (after_error se s closed e w)) as Hplain.
  { intros e Hd. apply after_error_spec. intros [? ?]. by split. }
  unfold after_outcome. destruct o as [r|c|e| |e].
  - unfold next_or_end. rewrite !task_bind_run. cbn [fst].
    pose proof (ends_with se (Completed r (next_count (wrap 32 (ls_retries s + ls_dooms s))))
      (inl (r, next_count (wrap 32 (ls_retries s + ls_dooms s)))) w) as H. rewrite task_bind_run in H. by apply H.
  - apply after_error_spec. intros _. by split; [exact mild_none|].
  - destruct e as [| | | | | | | | | |ts chunk]; try by apply Hplain.
    destruct closed.
    + unfold next_or_end. rewrite !task_bind_run.
      pose proof (ends_failed se (DoomLoopDetected ts chunk) _ w (or_intror eq_refl)) as H. rewrite task_bind_run in H. exact H.
    + rewrite task_bind_run. eapply tacit_next_or_end; [apply (tacit_ask (hash_of se))|]. cbv zeta. rewrite task_bind_run.
      eapply tacit_next_or_end; [apply tacit_retrying|]. rewrite task_bind_run.
      set (b := doom_loop_backoff _).
      set (w1 := (emit_retrying se (next_count (ls_dooms s)) (doom_budget se) (DoomLoopDetected ts chunk) (ask_env (hash_of se) w).2).2).
      pose proof (sleep_spec se b w1) as H. destruct (sleep_or_cancel se b w1) as [[|] w']; cbn [fst snd] in *.
      * unfold next_or_end. cbn [fst snd mret St_ret]. exists [b]. split; [exact H|]. split; [done|]. intros _ [_ Hd]. left. cbn. split_and!; [by apply armed_by_budget, Hd|done..|].
        exists b. split; [done|]. apply doom_backoff_bounds.
      * rewrite task_bind_run. eapply (tacit_next_or_end _ _ _ w'); [exact H|]. apply ends_cancelled.
  - unfold next_or_end. rewrite task_bind_run. apply ends_cancelled.
  - apply after_error_spec. by intros Ho.
Qed.

(** What follows an attempt shows nothing. *)
Definition blind {A} (m : T A) : Prop := ∀ w, observed (m w).2 = observed w.

Lemma blind_bind {A B} (m : T A) (k : A → T B) : blind m → (∀ a, blind (k a)) → blind (x ← m; k x).
Proof. intros Hm Hk w. rewrite task_bind_run, Hk. apply Hm. Qed.

Lemma blind_ask {A} (f : nat → A) : blind (ask_env f).
Proof. done. Qed.

Lemma blind_send e : blind (send e).
Proof. done. Qed.

Lemma blind_completion r : blind (send_completion r).
Proof. intros w. unfold send_completion. by destruct (completion_tx w). Qed.

Lemma blind_ret {A} (a : A) : blind (mret a).
Proof. done. Qed.

Lemma blind_wait b : blind (wait b).
Proof. done. Qed.

Create HintDb blind discriminated.
#[local] Hint Resolve blind_bind blind_ask blind_send blind_completion blind_ret blind_wait : blind.
#[local] Hint Unfold is_cancelled emit_failed emit_retrying : blind.

Lemma blind_cancellation : blind (handle_cancellation).
Proof. unfold handle_cancellation. eauto 12 with blind. Qed.
#[local] Hint Resolve blind_cancellation : blind.

Lemma blind_sleep b : blind (sleep_or_cancel se b).
Proof. unfold sleep_or_cancel. apply blind_bind; [apply blind_ask|]. intros [|]; eauto 12 with blind. Qed.
#[local] Hint Resolve blind_sleep : blind.

Lemma blind_wait_then b next : blind (wait_then se b next).
Proof. unfold wait_then. apply blind_bind; [apply blind_sleep|]. intros [|]; eauto 12 with blind. Qed.
#[local] Hint Resolve blind_wait_then : blind.

Lemma blind_end_with e : blind (end_with se e).
Proof. unfold end_with. eauto 12 with blind. Qed.
#[local] Hint Resolve blind_end_with : blind.

Lemma blind_after_error s closed e : blind (after_error se s closed e).
Proof.
  unfold after_error, apply_retry_decision. apply blind_bind; [|intros; apply blind_ret].
  apply blind_bind; [apply blind_ask|]. intros hash. cbv zeta. destruct (classify_error _ _ _ _ _); eauto 12 with blind.
  destruct (strip_images _) as [stripped n]. destruct (n =? 0)%nat; eauto 12 with blind.
Qed.
#[local] Hint Resolve blind_after_error : blind.

Lemma blind_after_outcome s closed o : blind (after_outcome se s closed o).
Proof.
  unfold after_outcome. destruct o as [r|c|e| |e]; cbv zeta; [eauto 12 with blind..| | |]; [|eauto 12 with blind..].
  destruct e; try apply blind_after_error. destruct closed; [eauto 12 with blind|].
  apply blind_bind; [apply blind_ask|]. intros hash. apply blind_bind; [apply blind_send|]. intros _.
  apply blind_bind; [apply blind_sleep|]. intros [|]; eauto 12 with blind.
Qed.

(** A round: at most one attempt, then the end or the next. *)
Definition round_out (s : LoopState) (w : SWorld) (r : option LoopState * SWorld) : Prop :=
  ∃ tried, attempts r.2 = attempts w ++ tried ∧ (length tried ≤ 1)%nat ∧ Forall (λ a, at_observed a = observed w) tried ∧
  ∃ evs, Forall nonterminal evs ∧
  match r.1 with
  | Some s' => completion_tx r.2 = completion_tx w ∧ completions r.2 = completions w ∧ events r.2 = events w ++ evs ∧
      (retry_only_before_output (policy se) = true → observed r.2 = false) ∧
      ∃ ws, waits r.2 = waits w ++ ws ∧ (sane_env se → round_step s s' ws)
  | None => waits r.2 = waits w ∧
      ∃ e a, events r.2 = events w ++ evs ++ [e] ∧ answers (status_text se) e a ∧
        completions r.2 = completions w ++ (if completion_tx w then [a] else [])
  end.

Lemma round_spec s w : round_out s w (round se s w).
Proof.
  unfold round. rewrite task_bind_run. pose proof (tacit_ask (cancelled se) w) as Hq0. unfold is_cancelled.
  destruct (ask_env (cancelled se) w) as [c w0] eqn:E0. cbn [fst snd] in *.
  assert (observed w0 = observed w) as Ho0 by (injection E0 as <- <-; done). destruct c.
  { rewrite task_bind_run. pose proof (tacit_ends _ _ _ _ Hq0 (ends_cancelled se w0)) as (Hw & Ha & evs & e & a & He & Hn & Han & Hc).
    exists []. rewrite app_nil_r. split_and!; [done|cbn; lia|constructor|]. exists evs. split; [done|]. split; [done|]. by exists e, a. }
  rewrite task_bind_run. set (attempt := run_one_attempt _ _ _ _). pose proof (attempt_spec se (ls_http1 s) (ls_request s) (doom_check_of se s) w0) as Hq1.
  pose proof (attempt_ok se (ls_http1 s) (ls_request s) (doom_check_of se s) w0) as Hok. fold attempt in Hq1, Hok.
  destruct (attempt w0) as [o w1] eqn:E1. cbn [fst snd] in *. rewrite task_bind_run. cbn [is_observed fst snd].
  set (closed := retry_only_before_output (policy se) && observed w1).
  pose proof (after_outcome_spec s closed o w1) as Hn. pose proof (blind_after_outcome s closed o w1) as Hb.
  destruct Hq1 as (A1 & B1 & C1 & D1 & _ & l1 & F1 & G1). destruct Hq0 as (A0 & B0 & C0 & D0 & _ & l0 & F0 & G0).
  cbn in A1, B1, C1, D1, F1. unfold next_or_end, round_out in *.
  exists [mkAttempt (ls_request s) (ls_http1 s) (armed_by (doom_check_of se s)) (observed w0)].
  destruct (after_outcome se s closed o w1) as [[s'|] w2]; cbn [fst snd] in *.
  - destruct Hn as (ws & (A2 & B2 & C2 & D2 & _ & l2 & F2 & G2) & Hcl & Hstep).
    split_and!; [by rewrite A2, A1, A0|cbn; lia|by constructor|]. exists (l0 ++ l1 ++ l2).
    split; [by rewrite !Forall_app|]. split_and!; [congruence..|by rewrite F2, F1, F0, <- !app_assoc| |].
    + intros Hr. rewrite Hb. unfold closed in Hcl. by rewrite Hr in Hcl.
    + exists ws. split; [by rewrite B2, B1, B0|]. auto.
  - destruct Hn as (B2 & A2 & l2 & e & a & F2 & G2 & Han & D2).
    split_and!; [by rewrite A2, A1, A0|cbn; lia|by constructor|]. exists (l0 ++ l1 ++ l2).
    split; [by rewrite !Forall_app|]. split; [congruence|]. exists e, a.
    split_and!; [by rewrite F2, F1, F0, <- !app_assoc|done|by rewrite D2, D1, D0, C1, C0].
Qed.
End round_spec.

(** * The whole request *)

Section request.
Context (se : SamplerEnv).

Definition finished (w : SWorld) (r : option unit * SWorld) : Prop :=
  r.1 = Some tt → ∃ evs e a, events r.2 = events w ++ evs ++ [e] ∧ Forall nonterminal evs ∧ answers (status_text se) e a ∧
    completions r.2 = completions w ++ (if completion_tx w then [a] else []).

Lemma loop_finished fuel s w : finished w (loop_from se fuel s w).
Proof.
  revert s w. induction fuel as [|fuel IH]; intros s w; [done|]. rewrite loop_unfold, task_bind_run.
  destruct (round_spec se s w) as (tried & _ & _ & _ & evs & Hn & H).
  destruct (round se s w) as [[s'|] w1]; cbn [fst snd continue] in *.
  - destruct H as (Ht & Hc & He & _). intros Hr. destruct (IH s' w1 Hr) as (l & e & a & F & G & Han & D).
    exists (evs ++ l), e, a. rewrite F, D, He, Hc, Ht, <- !app_assoc. split_and!; [done|by apply Forall_app|done|done].
  - destruct H as (_ & e & a & He & Han & Hc). intros _. exists evs, e, a. done.
Qed.

Definition unseen (w : SWorld) : Prop := Forall (λ a, at_observed a = false) (attempts w).

Lemma loop_unseen fuel s w :
  retry_only_before_output (policy se) = true → observed w = false → unseen w → unseen (loop_from se fuel s w).2.
Proof.
  intros Hp. revert s w. induction fuel as [|fuel IH]; intros s w Ho Hu; [exact Hu|]. rewrite loop_unfold, task_bind_run.
  destruct (round_spec se s w) as (tried & Ha & _ & Ht & evs & _ & H).
  assert (unseen (round se s w).2) as Hu'.
  { unfold unseen. rewrite Ha. apply Forall_app. split; [exact Hu|]. by rewrite Ho in Ht. }
  destruct (round se s w) as [[s'|] w1]; cbn [fst snd continue] in *; [|exact Hu']. apply IH; [|exact Hu']. by apply H.
Qed.

(** ** What is left to spend *)

Definition images_left (s : LoopState) : Z := if (0 <? image_count (ls_request s))%nat then 1 else 0.

Definition attempts_left (s : LoopState) : Z :=
  Z.max 0 (max_retries_of se - 1 - ls_retries s) + images_left s + Z.max 0 (doom_budget se - ls_dooms s).

Definition waits_left (s : LoopState) : Z :=
  36000 * Z.max 0 (max_retries_of se - 1 - ls_retries s) + 84000 * Z.max 0 (rate_limit_threshold se - 1 - ls_retries s)
  + 250 * Z.max 0 (doom_budget se - ls_dooms s).

Definition counts_ok (s : LoopState) : Prop :=
  0 ≤ ls_retries s ∧ 0 ≤ ls_dooms s ∧ ls_retries s + images_left s ≤ Z.max 1 (max_retries_of se) ∧ ls_dooms s ≤ doom_budget se.

Definition budgets_ok : Prop := 0 ≤ max_retries_of se < 2 ^ 32 - 1 ∧ 0 ≤ doom_budget se < 2 ^ 32.

Lemma next_count_small n : 0 ≤ n < 2 ^ 32 - 1 → next_count n = n + 1.
Proof. intros H. apply wrap_id. unfold uint, umax. lia. Qed.

Definition total (ws : list Z) : Z := foldr Z.add 0 ws.

Lemma total_app l1 l2 : total (l1 ++ l2) = total l1 + total l2.
Proof. induction l1 as [|x l1 IH]; cbn in *; [done|]. unfold total in *. cbn. lia. Qed.

Lemma images_left_le s s' : (image_count (ls_request s') ≤ image_count (ls_request s))%nat → images_left s' ≤ images_left s.
Proof.
  intros H. unfold images_left. destruct (Nat.ltb_spec 0 (image_count (ls_request s'))), (Nat.ltb_spec 0 (image_count (ls_request s))); lia.
Qed.

Lemma images_left_range s : 0 ≤ images_left s ≤ 1.
Proof. unfold images_left. destruct (_ <? _)%nat; lia. Qed.

Lemma step_spends s s' ws :
  budgets_ok → counts_ok s → round_step se s s' ws →
  counts_ok s' ∧ attempts_left s' < attempts_left s ∧ total ws + waits_left s' ≤ waits_left s ∧ Forall (λ b, 0 ≤ b ≤ 120000) ws.
Proof.
  intros [Hm Hd] (Hr & Hdc & Hrm & Hdm) [(Hlt & Ed & Er & Eq & b & -> & Hb)|(Ed & Er & Hne & Hi & Hw)].
  - rewrite next_count_small in Ed by lia. assert (images_left s' = images_left s) as Ei by (unfold images_left; by rewrite Eq).
    unfold counts_ok, attempts_left, waits_left. rewrite Ei, Er, Ed. cbn [total foldr]. split_and!; try lia. repeat constructor; lia.
  - pose proof (images_left_range s'). pose proof (images_left_range s). rewrite next_count_small in Er by lia.
    destruct Hw as [(b & e & -> & Hlt & Hb)|(-> & Hsome & Hnone)].
    + apply images_left_le in Hi. unfold counts_ok, attempts_left, waits_left in *. rewrite Ed. cbn [total foldr].
      split_and!; try lia. constructor; [|constructor]. lia.
    + assert (images_left s' = 0) as E0 by (unfold images_left; by rewrite Hnone).
      assert (images_left s = 1) as E1 by (unfold images_left; by rewrite (proj2 (Nat.ltb_lt _ _) Hsome)).
      unfold counts_ok, attempts_left, waits_left in *. rewrite Ed, E0, E1 in *. cbn [total foldr]. split_and!; try lia. constructor.
Qed.

Lemma loop_terminates fuel s w :
  sane_env se → budgets_ok → counts_ok s → attempts_left s < Z.of_nat fuel →
  ∃ w', loop_from se fuel s w = (Some tt, w') ∧
    Z.of_nat (length (attempts w')) ≤ Z.of_nat (length (attempts w)) + 1 + attempts_left s ∧
    ∃ ws, waits w' = waits w ++ ws ∧ total ws ≤ waits_left s ∧ Forall (λ b, 0 ≤ b ≤ 120000) ws.
Proof.
  intros Hse Hb. revert s w. induction fuel as [|fuel IH]; intros s w Hs Hf.
  { pose proof (images_left_range s). unfold attempts_left in Hf. lia. }
  rewrite loop_unfold, task_bind_run. destruct (round_spec se s w) as (tried & Ha & Hlen & _ & evs & _ & H).
  destruct (round se s w) as [[s'|] w1]; cbn [fst snd continue] in *.
  - destruct H as (_ & _ & _ & _ & ws & Hw & Hstep). destruct (step_spends _ _ _ Hb Hs (Hstep Hse)) as (Hs' & Hlt & Hsum & Hbnd).
    destruct (IH s' w1 Hs' ltac:(lia)) as (w' & -> & Hn & ws' & Hw' & Hsum' & Hbnd'). exists w'. split; [done|].
    rewrite Ha, length_app in Hn. split; [lia|]. exists (ws ++ ws'). rewrite Hw', Hw, <- app_assoc, total_app.
    split_and!; [done|lia|by apply Forall_app].
  - exists w1. split; [done|]. destruct H as [Hw _]. pose proof (images_left_range s). rewrite Ha, length_app.
    split; [unfold attempts_left; lia|]. exists []. rewrite app_nil_r. split_and!; [done| |constructor]. cbn. unfold waits_left. lia.
Qed.
End request.

(** * Main theorems *)

(** C30: Whatever the network does, a request that is over has told its end
    once: its events are some that are not terminal and then one [Completed]
    or [Failed], nothing after it; and a caller that waits got one answer,
    the response and attempt count of that [Completed], or the error of that
    [Failed] (for a cancelled request, the caller gets an error of kind Auth
    where the event has one of kind Api). *)
Theorem request_answers_once se fuel request waiting :
  let r := run_request_task se fuel request (task_start waiting) in
  r.1 = Some tt →
  ∃ evs e a, events r.2 = evs ++ [e] ∧ Forall nonterminal evs ∧ answers (status_text se) e a ∧
    completions r.2 = if waiting then [a] else [].
Proof.
  unfold run_request_task. destruct (client_new se false) as [err|]; cbv zeta.
  - intros _. rewrite !task_bind_run. destruct (ends_failed se err err (task_start waiting) (or_introl eq_refl))
      as (_ & _ & evs & e & a & He & Hn & Han & Hc). rewrite task_bind_run in He, Hc.
    exists evs, e, a. by split_and!.
  - intros Hr. destruct (loop_finished se fuel (mkLoopState request false 0 0) (task_start waiting) Hr)
      as (evs & e & a & He & Hn & Han & Hc). by exists evs, e, a.
Qed.

(** C29: A request always ends.  Where loops are detected by the client only
    and a server's [Retry-After] is what the client lets through, it takes at
    most one attempt per retry the policy has, one more when there are images
    to drop, one more per doom-loop resample; no wait is longer than two
    minutes, and all waits together are at most 36 seconds per retry, 84 more
    for each a rate limit may have, a quarter of a second per resample. *)
Theorem request_terminates se fuel request waiting :
  sane_env se → budgets_ok se → max_retries_of se + doom_budget se + 2 ≤ Z.of_nat fuel →
  ∃ w, run_request_task se fuel request (task_start waiting) = (Some tt, w) ∧
    Z.of_nat (length (attempts w)) ≤
      Z.max 1 (max_retries_of se) + (if (0 <? image_count request)%nat then 1 else 0) + doom_budget se ∧
    Forall (λ b, 0 ≤ b ≤ 120000) (waits w) ∧
    total (waits w) ≤ 36000 * Z.max 0 (max_retries_of se - 1) + 84000 * Z.max 0 (rate_limit_threshold se - 1)
      + 250 * doom_budget se.
Proof.
  intros Hse Hb Hf. unfold run_request_task. destruct (client_new se false) as [err|].
  - rewrite !task_bind_run. eexists. split; [reflexivity|]. destruct (ends_failed se err err (task_start waiting) (or_introl eq_refl))
      as (Hw & Ha & _). rewrite task_bind_run in Hw, Ha. cbn [snd mret St_ret]. rewrite Hw, Ha. destruct Hb as [? ?].
    cbn. split_and!; [destruct (image_count request); lia|constructor|lia].
  - set (s := mkLoopState request false 0 0). pose proof (images_left_range s) as Hi.
    assert (counts_ok se s) as Hs by (destruct Hb; unfold counts_ok; cbn; lia). destruct Hb as [Hm Hd].
    destruct (loop_terminates se fuel s (task_start waiting) Hse (conj Hm Hd) Hs) as (w & Hr & Hn & ws & Hw & Ht & Hbnd).
    { unfold attempts_left. replace (ls_retries s) with 0 by done. replace (ls_dooms s) with 0 by done. lia. }
    exists w. split; [exact Hr|]. cbn in Hw. subst ws. unfold attempts_left, waits_left in *.
    replace (ls_retries s) with 0 in * by done. replace (ls_dooms s) with 0 in * by done.
    unfold images_left in *. cbn [ls_request s task_start attempts length Z.of_nat] in *. split_and!; [lia|done|lia].
Qed.

(** Under a policy that retries before output only, no attempt is begun
    once output has been seen: what the caller has been shown is never followed
    by a second sample. *)
Theorem no_resample_after_output se fuel request waiting :
  retry_only_before_output (policy se) = true →
  Forall (λ a, at_observed a = false) (attempts (run_request_task se fuel request (task_start waiting)).2).
Proof.
  intros Hp. unfold run_request_task. destruct (client_new se false) as [err|].
  - rewrite !task_bind_run. destruct (ends_failed se err err (task_start waiting) (or_introl eq_refl)) as (_ & Ha & _).
    rewrite task_bind_run in Ha. cbn [snd mret St_ret]. rewrite Ha. constructor.
  - apply (loop_unseen se fuel (mkLoopState request false 0 0)); [done|done|constructor].
Qed.

(** * What the record keeps of an error *)

Lemma split_where_app p a c b : p c = true → split_where p (a ++ c :: b) = split_where p a ++ split_where p b.
Proof.
  intros Hc. induction a as [|x a IH]; cbn; [by rewrite Hc|]. rewrite IH. destruct (p x); [done|].
  destruct (split_where p a) as [|piece rest] eqn:E; [|done]. exfalso. clear -E. destruct a as [|y a]; [done|]. cbn in E.
  destruct (p y); [done|]. by destruct (split_where p a).
Qed.

Lemma split_where_none p a : Forall (λ c, p c = false) a → split_where p a = [a].
Proof. induction 1 as [|c a Hc _ IH]; [done|]. cbn. by rewrite Hc, IH. Qed.

Lemma elapsed_of_shown st n : uint 64 n → elapsed_of (display st (IdleTimeout n)) = n.
Proof.
  intros Hn. unfold elapsed_of, split_whitespace. cbn [display].
  change (lit "inference idle timeout after ") with (lit "inference idle timeout after" ++ [32]).
  change (lit "s with no chunks") with ([115] ++ 32 :: lit "with no chunks").
  rewrite <- app_assoc. cbn [app]. rewrite split_where_app by done.
  change (fmt_dec n ++ 115 :: 32 :: lit "with no chunks") with (fmt_dec n ++ [115] ++ 32 :: lit "with no chunks").
  rewrite app_assoc, split_where_app by done.
  rewrite (split_where_none _ (fmt_dec n ++ [115])).
  2:{ apply Forall_app. split; [|by repeat constructor]. eapply Forall_impl; [apply fmt_dec_digits|].
      intros c Hc. apply digit_not_whitespace, Hc. }
  rewrite !List.filter_app. rewrite !omap_app.
  replace (List.filter _ [fmt_dec n ++ [115]]) with [fmt_dec n ++ [115]] by (by destruct (fmt_dec n)).
  replace (omap _ (List.filter _ (split_where is_whitespace (lit "inference idle timeout after")))) with (@nil Z) by by vm_compute.
  cbn [app omap list_omap]. rewrite last_snoc. cbn [Z.eqb Pos.eqb mbind option_bind]. rewrite removelast_last, parse_fmt_dec by done. done.
Qed.

(** What the types hold: a status of three digits, seconds of 64 bits.  A
    configuration error comes from no stream. *)
Definition streamed_error (e : SamplingError) : Prop :=
  match e with
  | Api s _ _ _ _ => 100 ≤ s < 1000
  | IdleTimeout n => uint 64 n
  | InvalidConfiguration _ => False
  | _ => True
  end.

(** An error that crosses the event channel as a flat record and is built
    again from it is the same error when it is the client's own verdict (a
    rejected credential with what was sent, an idle timeout with its seconds
    read back out of the message, an empty response, a truncation, a loop, a
    serialization failure whose prefix is not doubled); an API error keeps its
    status, metadata and both retry headers, a stream error becomes a 500; and
    for all but a transport error the retry loop's questions (rejected
    credential, rate limit, payload size, retryable, how long to wait, veto
    header) are answered as before. *)
Theorem info_round_trip st e :
  streamed_error e →
  let e' := synthesize_from_info (info_from st e) in
  e' = match e with
       | Http _ | EventStreamError _ => EventStreamError (display st e)
       | Api s _ metadata secs header => Api s (display st e) metadata secs header
       | StreamError _ _ => Api 500 (display st e) None None None
       | _ => e
       end ∧
  ((∀ h, e ≠ Http h) →
    is_auth_error e' = is_auth_error e ∧ is_rate_limited e' = is_rate_limited e ∧
    is_payload_too_large e' = is_payload_too_large e ∧ is_retryable e' = is_retryable e ∧ is_doom e' = is_doom e ∧
    retry_after e' = retry_after e ∧ should_retry_header e' = should_retry_header e).
Proof.
  intros He e'.
  assert (e' = match e with
    | Http _ | EventStreamError _ => EventStreamError (display st e)
    | Api s _ metadata secs header => Api s (display st e) metadata secs header
    | StreamError _ _ => Api 500 (display st e) None None None
    | _ => e
    end) as E.
  { unfold e'. destruct e as [m c|m|h|m|s m md ra sr|m|ty m|n|c| |ts c]; try done.
    - unfold synthesize_from_info, info_from. cbn [i_kind info_kind i_message i_status_code i_model_metadata i_retry_after_secs i_should_retry mbind option_bind].
      assert (status_from_u16 s = Some s) as Hs.
      { unfold status_from_u16. cbn in He. rewrite (proj2 (Z.leb_le _ _)), (proj2 (Z.ltb_lt _ _)) by lia. done. }
      rewrite Hs. by destruct (is_rate_limited _).
    - unfold synthesize_from_info. cbn [info_from i_kind info_kind i_message]. by rewrite elapsed_of_shown. }
  split; [exact E|]. intros Hh. rewrite E. destruct e; try done. by edestruct Hh.
Qed.

(** * A request *)

Module Demo.
(** The first attempt meets an overloaded server, the next, over HTTP/1.1, an
    answer. *)
Definition answer : ConversationResponse :=
  mkResponse [ItAssistant (mkAssistant (lit "ok") [] None)] (Some StopStop) None [].

Definition overloaded : SamplingError := Api 503 (lit "overloaded") None (Some 3) None.

Definition server (stream_first : bool) : SamplerEnv := {|
  status_text := fmt_dec;
  api_backend := Messages;
  config_max_retries := Some 3;
  env_max_retries := None;
  doom_loop_recovery := Some (mkDoomPolicy 8 2);
  policy := mkTaskPolicy 3 0 true;
  client_new := λ _, None;
  attempt_of := λ _ _ http1,
    if (http1 : bool) then Stream [ChunkOk [] true [StreamStarted; FirstToken; ChannelToken (lit "ok")]] [] [Completed answer 0]
    else if stream_first then Stream [ChunkOk [] true [ChannelToken (lit "o")]; ChunkErr overloaded] [] []
    else InitError overloaded;
  cancelled := λ _, false;
  hash_of := λ n, Z.of_nat n |}.

Definition request : list RequestItem := [RUser [PText (lit "hi"); PImage (lit "data:")]].

Lemma server_sane stream_first : sane_env (server stream_first).
Proof.
  assert (sane_error overloaded) as Ho by (split; [intros s [= <-]; lia|done]).
  intros n req [|]; cbn [attempt_of server sane_reply]; [|destruct stream_first]; cbn; repeat constructor; try apply Ho; try done.
Qed.
End Demo.

(** The overloaded server's answer comes on the second attempt, after the
    wait it asked for, give or take a fifth. *)
Lemma request_answers_once_witness :
  let r := run_request_task (Demo.server false) 7 Demo.request (task_start true) in
  waits r.2 = [2402] ∧ length (attempts r.2) = 2%nat ∧ completions r.2 = [inl (Demo.answer, 2)] ∧
  ∃ evs e a, events r.2 = evs ++ [e] ∧ Forall nonterminal evs ∧ answers fmt_dec e a ∧ completions r.2 = [a].
Proof.
  cbv zeta. split_and!; [by vm_compute|by vm_compute|by vm_compute|].
  apply (request_answers_once (Demo.server false) 7 Demo.request true). by vm_compute.
Defined.

Lemma request_terminates_witness :
  ∃ w, run_request_task (Demo.server false) 7 Demo.request (task_start true) = (Some tt, w) ∧
    Z.of_nat (length (attempts w)) ≤ 6 ∧ Forall (λ b, 0 ≤ b ≤ 120000) (waits w) ∧ total (waits w) ≤ 156500.
Proof.
  assert (budgets_ok (Demo.server false)) as Hb by (unfold budgets_ok; vm_compute; by repeat split).
  exact (request_terminates (Demo.server false) 7 Demo.request true (Demo.server_sane false) Hb ltac:(by vm_compute)).
Defined.

(** Here the first attempt shows a token before it fails: the second is not
    begun. *)
Lemma no_resample_after_output_witness :
  let r := run_request_task (Demo.server true) 7 Demo.request (task_start true) in
  r.1 = Some tt ∧ length (attempts r.2) = 1%nat ∧ completions r.2 = [inr Demo.overloaded] ∧
  Forall (λ a, at_observed a = false) (attempts r.2).
Proof.
  cbv zeta. split_and!; [by vm_compute|by vm_compute|by vm_compute|].
  by apply (no_resample_after_output (Demo.server true) 7 Demo.request true).
Defined.

Lemma info_round_trip_witness :
  synthesize_from_info (info_from fmt_dec (IdleTimeout 300)) = IdleTimeout 300 ∧
  display fmt_dec (IdleTimeout 300) = lit "inference idle timeout after 300s with no chunks".
Proof.
  split; [|by vm_compute]. apply (info_round_trip fmt_dec (IdleTimeout 300)). vm_compute. by split.
Defined.
